(* ===== verification/_CoqProject ===== *)
-Q . S2P
Prelude.v
Runs.v
Interleave.v
GoTime.v
Calendar.v
Fmt.v
ParseDuration.v
Config.v
Gtfs.v
Events.v
EventMap.v
StateStore.v
Proc.v
Stream.v
Chain.v
Batching.v
DbSink.v
ParquetSink.v
FeedEvents.v
StopEvents.v
Metrics.v
DwellEvents.v
HeadwayEvents.v
TravelTimeEvents.v
StoreChoice.v
Transit.v
Journey.v
Trips.v
Endpoints.v
Edges.v
EventServer.v
SSESink.v
Graph.v
SharedStore.v
Typing.v
Network.v
Moments.v
Wiring.v
Deploy.v
Shipped.v
Outlets.v
Persist.v
Archive.v
Live.v
Distributed.v
LineRun.v
DefaultRun.v
ShippedRuns.v
OutletRuns.v
Program.v
