(* ===== verification/Prelude.v ===== *)
(** * A verification of the transit performance monitor

    The program polls GTFS-realtime feeds of a transit agency, detects when
    vehicles arrive at and leave stops, derives dwell times, headways and travel
    times from that, and writes the results to databases, files and streams.  A
    YAML file declares sources, pipelines (a processor each), state stores and
    sinks, and the program runs them as a graph of goroutines joined by
    channels.  This library models that program in Rocq and proves that it does
    what it is for.

    ** How the program is put together

    [graphs/graph.go] makes every source, sink and state store the
    configuration declares and one pipeline per entry ([pipelines/pipeline.go]).
    A pipeline merges its sources, feeds a processor and copies what it sends to
    its sinks.  A connector is a channel that is a sink of one pipeline and a
    source of another; Redis can take its place between processes.  The
    processors form a chain:

      bytes -> FeedMessageProcessor -> VehiclePositionEventProcessor
            -> StopEventProcessor -> Dwell, Headway, TravelTime processors

    The last four remember the past in a [StateStore].  Every processor is two
    goroutines, [doStream] (take an element, handle it, send on [out]) and
    [transmit] (copy [out] to the next inlet), that stop on cancellation or when
    their input is closed, and close what they write to.

    ** The files, in dependency order

    - [Prelude]: notations, machine integers, strings, lists, tactics.
      [Runs]: reachability, termination and fair schedules of a step relation.
      [Interleave]: the orders in which several streams may arrive on one channel.
    - [GoTime]: what is used of package [time] and of float64: instants,
      durations, [Sub], [Seconds], [int32(f)].  [Calendar]: civil dates.
      [ParseDuration]: the parser of durations such as "1h30m".  [Fmt]: how
      floats and instants are printed.
    - [Config]: [config/*.go], the decoded configuration and [Validate].
    - [Gtfs]: the messages of [third_party/gtfs/gtfs-realtime.proto] the
      program reads.  [Events]: the messages and getters of
      [api/v1/events/transit.pb.go], the values on channels ([any]) and in
      stores ([Message]), and the protobuf library as a parameter.  [EventMap]:
      the maps of [api/v1/events/events.go].
    - [StateStore]: [statestore/*.go].  The interface is the class [StateStore],
      its contract the class [StateStoreOk]; module [InMemory] is
      [in_memory_store.go], [Sweeper] and [Expire] its [expire] goroutine, [Redis] is
      [redis_store.go] over a client that is the parameter [RedisClient].
    - [Proc]: a handler as a [prog], the tree of its effects (Get, Set, Delete,
      channel send) in the order of the code; [exec] runs one and [run] is the
      loop of [doStream] over a list of elements.  [Stream]: the two goroutines
      of a processor, the channels and the context as a step relation; [Chain]:
      any number of processors and connectors in front of a sink.
    - [FeedEvents], [StopEvents], [DwellEvents], [HeadwayEvents],
      [TravelTimeEvents]: the six processors of [processors/transit], a module
      of definitions each (named as the Go type; [process] and [handle] are the
      Go method [process] and the body of the loop of [doStream]) and a module
      of theorems.  [Metrics] is what the last three share.
    - [Batching]: the loop shared by the batching sinks.  [DbSink] is
      [sinks/db_sink.go], [ParquetSink] is [sinks/parquet_sink.go].
    - [StoreChoice]: processors on different stores.  [Transit]: processors
      composed, two at a time; [Journey]: four of them, from reports to dwells;
      [Trips]: from reports to headways and travel times.
    - [Endpoints]: [sources/http_source.go], [sources/redis_source.go],
      [sinks/redis_sink.go], [sinks/log_sink.go], each for one event or element;
      [Edges]: their goroutines, as step relations.
    - [EventServer]: [event_server/event_server.go]; the subscribers' requests
      and the broadcasts are a sequence of actions.  [SSESink]: the goroutine of
      [sinks/http_sink.go] and its channel, as a step relation.
    - [Graph]: the factories of [sources], [sinks], [processors] and
      [statestore], [NewPipeline] and [NewGraph].
    - [SharedStore]: processors whose calls on one in-memory store are
      interleaved.
    - [Typing]: the types of element each processor knows and sends, and its
      goroutines ([transmit] and [doStream] of each file) as instances of
      [Stream].
    - [Network]: [Pipeline.Run] and [Graph.Run].  A run is described by what went
      over each channel ([flow]): what each source gave, what each processor took
      and when, what each sink was sent.  The operators of go-streams are the
      class [GoStreams].  [Wiring]: from the configuration to those channels.
    - [Moments]: the same graph step by step.  A moment is what has gone over each
      channel so far; a step takes one element through a processor, to a sink or
      over a connector, or receives one from outside.
    - [Deploy]: a configuration file as the list of its entries, and what a run
      of the graph built from it does.  [Shipped]: the four files of
      [config/configs], and the runs of the two that do everything in one process
      ([default.yaml], [all-in-one.yaml]).  [Distributed]:
      [distributed-ingestion.yaml] and [distributed-processing.yaml] joined by Redis.
    - [Outlets]: what a sink that several pipelines share takes.  [Persist]: the
      tables of the database; [Archive]: the objects in S3; [Live]: what a browser
      gets from the event server.
    - [LineRun]: how a concrete run of a graph is given; [DefaultRun], [ShippedRuns]
      and [OutletRuns]: one run of each of the four configurations and of its sinks,
      on which the theorems about graphs are applied.
    - [Program]: [main.go] as the sequence of its effects, [config.ReadConfig] and
      [Graph.Close], over the class [Environment].

    ** What the theorems show

    - State machine.  Whatever vehicles are interleaved and whatever lawful
      store is used, the stop events of a vehicle are the pairwise comparison of
      its successive snapshots ([stop_run_pairwise]); with known statuses they are a
      run of the automaton "nowhere or at a stop" ([stop_events_track_presence]);
      whatever the statuses, a DEPARTURE comes right after the ARRIVAL at its stop
      unless the vehicle got there in one of three ways for which none is sent
      ([departures_follow_arrivals]); each carries the attributes of its
      snapshot; one step in full, and its error paths.
    - Metrics.  For each key, a dwell is sent for exactly the adjacent
      arrival-departure pairs; headways and travel times refine a tracker of the
      last departure or arrival and, when nothing is skipped, add up to the time
      between the first and the last one ([headways_add_up],
      [travel_times_add_up]).  Values stay in their ranges whatever the store
      answers, through the float64 arithmetic of [Duration.Seconds].
    - Composition.  Feeds become positions ([feeds_to_positions]), and what the
      reports of a feed tell becomes measures: a vehicle that calls at a stop
      gives one dwell ([Journey]), departures and arrivals give headways and
      travel times ([Trips]).
    - The graph at work.  In every run of a graph built from a configuration a
      connector hands what its writer sends to its reader ([connector_carries]);
      in a well-typed one no processor is given what it drops
      ([well_typed_network]).  The four shipped configurations validate, build
      and are well typed ([shipped_configs_build]).  Those of one process are
      wired as the chain above ([single_process_runs]), and from what the polled
      feeds tell every sink gets exactly the dwell times, headways and travel
      times, to the second ([single_process_measures_visit],
      [single_process_measures_headways], [single_process_measures_travel]).
      Over two processes the same holds of the reports that Redis passes on
      ([distributed_measures]).
    - At any moment.  Taken step by step, with elements waiting anywhere, a graph
      does what [Graph_Run] says ([rest_is_run]); and from every moment, however its
      goroutines are scheduled, it comes to one where everything has arrived
      ([graph_settles]).  So the theorems about runs bound what any sink has at any
      moment, also when the process is stopped then.
    - To the outside.  What a processor measures is what is in the rows of its table
      ([database_mirrors]; for one stay, [all_in_one_stores_visit]), in the objects
      of its Parquet sink ([bucket_mirrors]), and on the screen of a browser that
      subscribed to it and keeps up ([browser_sees_measures]).
    - Stores.  The in-memory store is a map with deadlines after any history,
      also with concurrent clients and its sweeper running
      ([running_get_returns_last_write], [sweeper_invisible]); each processor sends the same on Redis
      ([stop_store_choice], [metric_store_choice]), and the same on a store that it
      shares with processors of the other types ([shared_store_invisible]).
    - Concurrency.  One processor: every run of its goroutines ends once it is
      cancelled or its input closed, with each channel closed once
      ([stream_complete], [stream_shuts_down]), and it is at most one element
      ahead of the next stage ([stream_backpressure]).  A chain of them, in every
      interleaving: the end has received a prefix of what the composed handlers
      send ([chain_delivers_prefix]), under any scheduling all of it unless
      cancelled ([chain_eventually_delivers]), and nothing is sent on a closed
      channel ([chain_never_panics]).  Cancellation may leave a goroutine in front
      of one that has returned waiting for ever ([cancelled_chain_strands]).
    - Configuration and graph.  [Validate] accepts exactly the well-formed
      configurations and names a real defect otherwise; what it accepts builds
      exactly if the ends it does not check can be built ([valid_config_builds]);
      when [NewGraph] panics; what connectors and state stores are shared.
    - The program.  With a configuration that builds, it runs that graph until a
      signal, then cancels, closes every declared store once and returns
      ([program_serves]); exactly when it refuses to start ([program_refuses]).
    - Redis.  What comes out of a Redis source is for the StopEventProcessor what
      went into the sink, but for the messages that Redis loses, in any interleaving
      ([redis_link_faithful]).
    - Sinks.  Nothing taken is lost, repeated or reordered, up to the losses at
      closing that are stated as theorems; statements have as many values as
      placeholders ([flush_writes_batch], [db_shutdown_flushes]); what S3 took is
      in the bucket and reads back as the rows ([bucket_holds_batches]).
    - Event server.  A subscriber sees a queue of its own, fed by the events that
      pass its filters, and loses nothing while it keeps up
      ([subscriber_isolated], [sse_lossless]); the server never
      panics, but the SSE sink in front of it always does when its input is
      closed ([server_never_panics], [sse_shutdown_panics]).

    ** Conventions

    - A pointer is an [option].  Messages are not mutated after they were built
      (the only writes through pointers are to the state of stores and sinks,
      which is passed explicitly), so sharing a message is not observable.
    - Integers are [Z] with their wrap-around written out where the code
      converts ([int32], [int64]); a float64 is [spec_float] with the rounding
      of IEEE 754.  An instant ([Time]) is seconds and nanoseconds; the
      readings of the clock that expirations are computed from are nanoseconds.
    - Clocks.  Each store effect reads the clock.  An element carries the
      readings of its handling; [timely] says they never go back.  A handling
      has at most two store effects, hence the 2 there.
    - Time to live.  All processors store for [Hour]; theorems about what is
      remembered say within which time the next element comes.
    - Fuel.  [ParseDuration] recurses on fuel, the length of its input, and every
      round consumes a character; that this is enough is a lemma there.  [Fmt]
      looks for the fewest digits of a float64 with fuel 17, the most there may
      be.  All other recursion is structural.
    - Parameters.  What is not in the repository is a class: [Platform] (the
      result of an out-of-range float conversion, which Go leaves to the
      hardware), [ProtoLib] (protobuf marshalling), [RedisClient] (with
      [NewClient] and [Close]), [SqlDB], [ParquetLib] (the Parquet writer), [AWS], [MapOrder] (the unspecified order of map iteration),
      [GoStreams] (pass-through, merge and fan-out), [Environment] (arguments,
      files, the YAML decoder and the log exporter).
      Their [...Ok] classes state documented behaviour, and the witnesses
      instantiate them.  [redis_delivers] is what Redis documents of a
      subscription (at most once, in order, nothing from before it), and
      [positions_roundtrip] that protobuf decodes what it encoded.

    - Runs of graphs.  [Graph_Run] speaks of a run up to the moment its sources
      end; it leaves the scheduling of the goroutines inside a pipeline to
      [Stream] and [Chain], whose theorems say that what is delivered is what the
      handlers send.  In [Moments] a handler is one step and there is room for any
      number of elements between two goroutines; the unbuffered channels of the
      program allow fewer orders than that.  That they do not block for ever is shown
      for chains ([Chain]), not for graphs that fan out and meet again.  A source that several pipelines name divides its elements among
      them, as the readers of a Go channel do.

    ** Not modelled

    - The text of log lines other than those of the console sink and [main], the
      signals themselves, decoding of YAML, the descriptor and reflection code
      protoc generates.
    - The inside of go-streams, and so what becomes of a sink that several
      pipelines share when one of them ends.
    - Options of [NewGraph] ([GraphOption]) and [Graph.Out], which only tests use.
    - The HTTP side of the event server: routing, headers, the JSON text.
    - The Parquet encoding and the protocols of S3, Redis and SQL.

    ** What is left

    A step relation of whole graphs with unbuffered channels, which needs the
    goroutines of go-streams ([Merge] and [FanOut]), and with it what happens at
    shutdown where several pipelines share a sink: each closes its channel, and a
    second close panics, but the code that closes it is not in the repository. *)
From stdpp Require Export base functions option list strings gmap pretty.
From Stdlib Require Export ZArith Lia.

(** ** Notations of the development *)

Declare Scope go_scope.
Delimit Scope go_scope with go.

(** A Go pointer: [None] is [nil].  No message of the program is mutated after
    it was built, so a pointer is the value it points to. *)
Abbreviation ptr := option (only parsing).
Abbreviation null := (@None _) (only parsing).

(** An [error] result of a library: its text; [None] is [nil]. *)
Abbreviation error := string (only parsing).

(** An [error] the program makes with [fmt.Errorf]: the format and its operands,
    the last one wrapped when the format ends in [%w]. *)
Inductive go_error :=
| library_error (e : error)
| Errorf (format : string) (operands : list string)
| Wrapf (format : string) (operands : list string) (e : go_error).

(** [if err != nil { return nil, fmt.Errorf(format, operands..., err) }] *)
Definition wrap_error {A} (format : string) (operands : list string) (r : A + go_error)
    : A + go_error :=
  match r with inl x => inl x | inr e => inr (Wrapf format operands e) end.

Lemma wrap_error_inl {A} format operands (r : A + go_error) x :
  wrap_error format operands r = inl x ↔ r = inl x.
Proof. destruct r; cbn; split; congruence. Qed.

#[export] Set Default Goal Selector "!".
Open Scope Z_scope.

(** ** Machine integers *)

(** Two's-complement wrap-around at width [w], the result of a Go conversion
    between integer types. *)
Definition wrap (w x : Z) : Z := (x + 2 ^ (w - 1)) mod 2 ^ w - 2 ^ (w - 1).

Definition int32 : Z → Z := wrap 32.
Definition int64 : Z → Z := wrap 64.

Definition in_int32 (x : Z) : Prop := - 2 ^ 31 ≤ x < 2 ^ 31.
Definition in_int64 (x : Z) : Prop := - 2 ^ 63 ≤ x < 2 ^ 63.

#[export] Instance in_int32_dec x : Decision (in_int32 x).
Proof. unfold in_int32. apply _. Defined.
#[export] Instance in_int64_dec x : Decision (in_int64 x).
Proof. unfold in_int64. apply _. Defined.

Lemma wrap_range w x : 0 < w → - 2 ^ (w - 1) ≤ wrap w x < 2 ^ (w - 1).
Proof.
  intros Hw. unfold wrap.
  assert (2 ^ w = 2 * 2 ^ (w - 1)) as Hp
    by (rewrite <- Z.pow_succ_r by lia; f_equal; lia).
  pose proof (Z.pow_pos_nonneg 2 (w - 1)) as Hpos.
  pose proof (Z.mod_pos_bound (x + 2 ^ (w - 1)) (2 ^ w)) as Hm. lia.
Qed.

Lemma wrap_small w x : 0 < w → - 2 ^ (w - 1) ≤ x < 2 ^ (w - 1) → wrap w x = x.
Proof.
  intros Hw Hx. unfold wrap.
  assert (2 ^ w = 2 * 2 ^ (w - 1)) as Hp
    by (rewrite <- Z.pow_succ_r by lia; f_equal; lia).
  rewrite Z.mod_small; lia.
Qed.

Lemma int32_range x : in_int32 (int32 x).
Proof. apply (wrap_range 32). lia. Qed.

Lemma int32_small x : in_int32 x → int32 x = x.
Proof. apply (wrap_small 32). lia. Qed.

Lemma int64_range x : in_int64 (int64 x).
Proof. apply (wrap_range 64). lia. Qed.

Lemma int64_small x : in_int64 x → int64 x = x.
Proof. apply (wrap_small 64). lia. Qed.

(** ** Strings *)

(** [strings.Join]. *)
Fixpoint join (sep : string) (l : list string) : string :=
  match l with
  | [] => ""
  | [s] => s
  | s :: l' => s +:+ sep +:+ join sep l'
  end.

(** [fmt.Sprintf("%d", n)] and [strconv.FormatUint(n, 10)]. *)
Definition itoa (n : Z) : string := pretty n.

(** Does the character [c] occur in [s]? *)
Fixpoint occurs (c : Ascii.ascii) (s : string) : bool :=
  match s with
  | EmptyString => false
  | String a s' => bool_decide (a = c) || occurs c s'
  end.

Definition dash : Ascii.ascii := Ascii.Ascii true false true true false true false false.
Definition dash_free (s : string) : Prop := occurs dash s = false.

(** A separator that does not occur in the first component determines where
    it ends. *)
Lemma append_sep_inj c (a a' b b' : string) :
  occurs c a = false → occurs c a' = false →
  a +:+ String c b = a' +:+ String c b' → a = a' ∧ b = b'.
Proof.
  revert a'. induction a as [|x a IH]; intros [|x' a']; cbn;
    rewrite ?orb_false_iff, ?bool_decide_eq_false; intros Ha Ha' Heq;
    simplify_eq; [done|intuition congruence..|].
  destruct (IH a') as [-> ->]; intuition.
Qed.

Lemma append_dash_inj (a a' b b' : string) :
  dash_free a → dash_free a' → a +:+ "-" +:+ b = a' +:+ "-" +:+ b' → a = a' ∧ b = b'.
Proof. apply (append_sep_inj dash). Qed.

Lemma append_assoc (a b c : string) : a +:+ (b +:+ c) = (a +:+ b) +:+ c.
Proof.
  induction a as [|x a IH]; [done|].
  change (String x (a +:+ (b +:+ c)) = String x ((a +:+ b) +:+ c)). by rewrite IH.
Qed.

Lemma length_append (a b : string) : String.length (a +:+ b) = (String.length a + String.length b)%nat.
Proof.
  induction a as [|x a IH]; [done|].
  change (S (String.length (a +:+ b)) = S (String.length a + String.length b)). by rewrite IH.
Qed.

(** Equal strings of two parts with second parts, or first parts, of the same
    length. *)
Lemma append_suffix_inj (a a' b b' : string) :
  String.length b = String.length b' → a +:+ b = a' +:+ b' → a = a' ∧ b = b'.
Proof.
  intros Hl. revert a'. induction a as [|x a IH]; intros [|x' a'] Heq; [done|..].
  - apply (f_equal String.length) in Heq. rewrite !length_append in Heq. cbn in Heq. lia.
  - apply (f_equal String.length) in Heq. rewrite !length_append in Heq. cbn in Heq. lia.
  - change (String x (a +:+ b) = String x' (a' +:+ b')) in Heq. injection Heq as -> Heq. by destruct (IH a' Heq) as [-> ->].
Qed.

Lemma append_prefix_inj (a a' b b' : string) :
  String.length a = String.length a' → a +:+ b = a' +:+ b' → a = a' ∧ b = b'.
Proof.
  intros Hl Heq. apply append_suffix_inj; [|done].
  apply (f_equal String.length) in Heq. rewrite !length_append in Heq. lia.
Qed.

(** ** Lists *)

(** [len(l)] *)
Definition len {A} (l : list A) : Z := Z.of_nat (length l).

Lemma len_app {A} (l k : list A) : len (l ++ k) = len l + len k.
Proof. unfold len. rewrite length_app. lia. Qed.

Section lists.
  Context {A B : Type}.

(** Adjacent pairs of a list: [pairs [a;b;c] = [(a,b);(b,c)]]. *)
Fixpoint adjacent (x : A) (l : list A) : list (A * A) :=
  match l with
  | [] => []
  | y :: l' => (x, y) :: adjacent y l'
  end.

Lemma length_adjacent x (l : list A) : length (adjacent x l) = length l.
Proof. revert x. induction l as [|y l IH]; intros x; cbn; auto. Qed.

Lemma Forall_cons_4 (P : A → Prop) x y z w l :
  Forall P (x :: y :: z :: w :: l) → P x ∧ P y ∧ P z ∧ P w ∧ Forall P l.
Proof. by rewrite !Forall_cons. Qed.

Lemma omap_cons_eq (f : A → option B) x l :
  omap f (x :: l) = match f x with Some y => y :: omap f l | None => omap f l end.
Proof. done. Qed.

Lemma concat_singletons (f : A → B) (l : list A) : concat ((λ x, [f x]) <$> l) = f <$> l.
Proof. induction l as [|x l IH]; cbn; [done|]. by f_equal. Qed.

(** Two functions that agree on a list map it to the same list. *)
Lemma fmap_Forall_ext (f g : A → B) (l : list A) : Forall (λ x, f x = g x) l → f <$> l = g <$> l.
Proof. induction 1; cbn; [done|]. by f_equal. Qed.

(** A filter keeps a list all of whose elements pass. *)
Lemma filter_all (P : A → Prop) `{!∀ x, Decision (P x)} (l : list A) : Forall P l → filter P l = l.
Proof. induction 1; [done|]. rewrite filter_cons_True by done. by f_equal. Qed.

(** What a filter for one element leaves. *)
Lemma filter_sole (P : A → Prop) `{!∀ x, Decision (P x)} (l : list A) x :
  NoDup l → x ∈ l → (∀ y, P y ↔ y = x) → filter P l = [x].
Proof.
  intros Hnd Hx HP. apply list_elem_of_split in Hx as (l1 & l2 & ->).
  apply NoDup_app in Hnd as (_ & Hd & [Hx _]%NoDup_cons).
  assert (∀ l', x ∉ l' → filter P l' = []) as Hnone.
  { intros l' Hl'. apply elem_of_nil_inv. intros e [He Hin]%list_elem_of_filter.
    apply HP in He as ->. done. }
  rewrite filter_app, filter_cons_True by by apply HP.
  rewrite !Hnone; [done|done|]. intros Hin. by eapply Hd, list_elem_of_here.
Qed.

(** Some of the elements of a list, in its order. *)
Lemma Forall_sublist_of (P : A → Prop) (l k : list A) : l `sublist_of` k → Forall P k → Forall P l.
Proof.
  rewrite !Forall_forall. intros Hl HP x Hx. apply HP. by eapply sublist_subseteq.
Qed.

(** A list computed by a function, when the function changes at one place. *)
Lemma fmap_update `{!EqDecision A} (f : A → B) (l : list A) k x y :
  NoDup l → l !! k = Some x → <[x := y]> f <$> l = <[k := y]> (f <$> l).
Proof.
  intros Hnd Hk. apply list_eq. intros i. rewrite list_lookup_fmap.
  destruct (decide (k = i)) as [<-|Hne].
  - rewrite list_lookup_insert_eq by (rewrite length_fmap; by eapply lookup_lt_Some).
    rewrite Hk. cbn. by rewrite fn_lookup_insert.
  - rewrite list_lookup_insert_ne, list_lookup_fmap by done. destruct (l !! i) as [z|] eqn:Hi; [|done].
    cbn. rewrite fn_lookup_insert_ne; [done|]. intros ->. apply Hne. by eapply NoDup_lookup.
Qed.

Lemma fmap_update_out `{!EqDecision A} (f : A → B) (l : list A) x y :
  x ∉ l → <[x := y]> f <$> l = f <$> l.
Proof.
  intros Hx. apply fmap_Forall_ext, Forall_forall. intros z Hz.
  rewrite fn_lookup_insert_ne; [done|]. by intros ->.
Qed.

(** A sum of which one term gets smaller. *)
Lemma sum_smaller (f h : A → nat) (l : list A) x :
  x ∈ l → (f x < h x)%nat → (∀ y, y ∈ l → (f y ≤ h y)%nat) → (sum_list_with f l < sum_list_with h l)%nat.
Proof.
  intros Hx Hlt. assert (∀ l, (∀ y, y ∈ l → (f y ≤ h y)%nat) → (sum_list_with f l ≤ sum_list_with h l)%nat) as Hle.
  { clear. induction l as [|y l IH]; cbn; intros Hle; [done|].
    pose proof (Hle y (list_elem_of_here _ _)). assert (sum_list_with f l ≤ sum_list_with h l)%nat; [|lia].
    apply IH. intros z Hz. by apply Hle, list_elem_of_further. }
  induction Hx as [x l|x y l Hx IH]; cbn; intros Hall.
  - assert (sum_list_with f l ≤ sum_list_with h l)%nat; [|lia].
    apply Hle. intros z Hz. by apply Hall, list_elem_of_further.
  - pose proof (Hall y (list_elem_of_here _ _)).
    assert (sum_list_with f l < sum_list_with h l)%nat; [|lia].
    apply IH; [done|]. intros z Hz. by apply Hall, list_elem_of_further.
Qed.

Lemma sum_same (f h : A → nat) (l : list A) :
  (∀ y, y ∈ l → f y = h y) → sum_list_with f l = sum_list_with h l.
Proof.
  induction l as [|y l IH]; cbn; intros Hl; [done|].
  rewrite IH, Hl; [done|apply list_elem_of_here|]. intros z Hz. by apply Hl, list_elem_of_further.
Qed.

Lemma sublist_same_length (l k : list A) : l `sublist_of` k → length l = length k → l = k.
Proof.
  induction 1 as [|x l k _ IH|x l k Hl _]; cbn; intros Hlen; [done|f_equal; apply IH; lia|].
  apply sublist_length in Hl. lia.
Qed.

(** Adjacent elements come from the list. *)
Lemma Forall_adjacent (P : A → Prop) x (l : list A) :
  Forall P (x :: l) → Forall (λ p, P p.1 ∧ P p.2) (adjacent x l).
Proof.
  revert x. induction l as [|y l IH]; intros x; [constructor|].
  intros [Hx Hl]%Forall_cons. constructor; [|by apply IH].
  split; [done|]. exact (Forall_inv Hl).
Qed.

(** The differences of a measure along a list telescope. *)
Lemma telescope (f : A → Z) x (l : list A) :
  foldr Z.add 0 ((λ p : A * A, f p.2 - f p.1) <$> adjacent x l)
  = f (default x (last l)) - f x.
Proof.
  revert x. induction l as [|y l IH]; intros x; cbn; [lia|].
  change (list_fmap ?A ?B ?g ?l) with (g <$> l). rewrite IH.
  change (match l with [] => Some y | _ => last l end) with (last (y :: l)).
  rewrite last_cons. destruct (last l); cbn; lia.
Qed.
End lists.

(** ** Automation *)

Create HintDb go discriminated.
Create Rewrite HintDb go.
#[export] Hint Resolve int32_range int64_range : go.
#[export] Hint Rewrite int32_small int64_small using (unfold in_int32, in_int64; lia) : go.

(** Case analysis on every [decide], [if] and [match] of the goal, closing the
    absurd branches. *)
Ltac split_cases :=
  repeat (case_decide || case_match); simplify_eq/=; try done.

Example dash_is_dash : String dash "" = "-".
Proof. reflexivity. Qed.

(** Resolve the [decide]s of the goal whose proposition or its negation is
    plain from the context. *)
Ltac solve_decides :=
  repeat match goal with
  | |- context [@decide ?P ?d] =>
      let H := fresh in
      first
        [ destruct (@decide P d) as [H|H];
          [clear H|exfalso; solve [apply H; first [done | tauto | lia]]]
        | destruct (@decide P d) as [H|H];
          [exfalso; solve [done | lia | intuition (congruence || discriminate || lia)]|clear H] ]
  end.

(** Split an equation between dash-separated strings into its components. *)
Ltac dash_split H :=
  repeat (let H1 := fresh in
          apply append_dash_inj in H as [H1 H]; [|assumption|assumption]).

(** Prove [Forall P] of a concrete list element by element. *)
Tactic Notation "each" tactic3(tac) :=
  cbn [adjacent]; repeat (apply Forall_cons; split; [tac|]); apply Forall_nil; exact I.
