(* ===== verification/Runs.v ===== *)
(** * Runs of a step relation

    What the step relations of the development share: invariants along a run, and
    what every run comes to however its steps are scheduled. *)
From stdpp Require Import relations.
From S2P Require Import Prelude.

Section runs.
Context {A : Type} (step : relation A).

(** What each step keeps, a run keeps. *)
Lemma rtc_keeps (P : A → Prop) x y :
  (∀ x y, step x y → P x → P y) → rtc step x y → P x → P y.
Proof. intros HP. induction 1; eauto. Qed.

(** [works] are the steps of the program, [step] those and what may happen to it
    from outside. *)
Context (works : relation A).

(** Whatever steps are taken from [x], and in whatever order, a state with [P] is
    reached; in no state before it does the program wait for the outside. *)
Inductive eventually (P : A → Prop) (x : A) : Prop :=
| ev_now : P x → eventually P x
| ev_later : (∃ y, works x y) → (∀ y, step x y → eventually P y) → eventually P x.

Lemma eventually_impl (P Q : A → Prop) x :
  (∀ y, rtc step x y → P y → Q y) → eventually P x → eventually Q x.
Proof.
  intros HPQ He. induction He as [x HP|x Hex Hall IH].
  - apply ev_now, HPQ; [apply rtc_refl|done].
  - apply ev_later; [done|]. intros y Hs. apply IH; [done|]. intros z Hr. apply HPQ. by eapply rtc_l.
Qed.

(** Where no run goes on for ever, it is enough that the program can work in every
    state that has not yet got there. *)
Lemma eventually_terminates (I P : A → Prop) x :
  (∀ x, Decision (P x)) → (∀ x y, step x y → I x → I y) →
  (∀ x, I x → ¬ P x → ∃ y, works x y) →
  Acc (flip step) x → I x → eventually P x.
Proof.
  intros Hdec Hkeep Hwork. induction 1 as [x _ IH]. intros HI.
  destruct (Hdec x) as [HP|HP]; [by apply ev_now|].
  apply ev_later; [by apply Hwork|]. intros y Hs. apply IH; [done|]. by eapply Hkeep.
Qed.
End runs.

(** ** Lexicographic descent

    Of several loads, the first that changes gets smaller. *)

Definition descends (n : nat) (f f' : nat → nat) : Prop :=
  ∃ k, (k < n)%nat ∧ (f k < f' k)%nat ∧ ∀ j, (j < k)%nat → f j = f' j.

Lemma descends_wf n : well_founded (descends n).
Proof.
  induction n as [|n IH]; [intros f; constructor; intros h (k & Hk & _); lia|].
  assert (∀ a rest f, f 0%nat = a → (∀ k, f (S k) = rest k) → Acc (descends (S n)) f) as Hacc;
    [|intros f; by apply (Hacc (f 0%nat) (λ k, f (S k)))].
  intros a. induction (lt_wf a) as [a _ IHa]. intros rest. induction (IH rest) as [rest _ IHrest].
  intros f Ha Hrest. constructor. intros h (k & Hk & Hlt & Heq). destruct k as [|k].
  - apply (IHa (h 0%nat) ltac:(lia) (λ k, h (S k))); done.
  - apply (IHrest (λ k, h (S k))); [|by rewrite Heq by lia|done].
    exists k. rewrite <- Hrest. split_and!; [lia|done|]. intros j Hj. rewrite <- Hrest. apply Heq. lia.
Qed.

(** Two loads on each level. *)
Definition loads (f1 f2 : nat → nat) (n : nat) : nat :=
  if Nat.even n then f1 (Nat.div2 n) else f2 (Nat.div2 n).

Lemma loads_even f1 f2 l : loads f1 f2 (2 * l) = f1 l.
Proof. unfold loads. by rewrite Nat.even_even, Nat.div2_double. Qed.
Lemma loads_odd f1 f2 l : loads f1 f2 (S (2 * l)) = f2 l.
Proof.
  unfold loads. rewrite Nat.div2_succ_double, Nat.even_succ, <- Nat.negb_even, Nat.even_even. done.
Qed.

Lemma loads_below f1 f2 h1 h2 l :
  (∀ k, (k < l)%nat → f1 k = h1 k ∧ f2 k = h2 k) →
  ∀ j, (j < 2 * l)%nat → loads f1 f2 j = loads h1 h2 j.
Proof.
  intros Heq j Hj. destruct (Nat.Even_or_Odd j) as [[k ->]|[k ->]].
  - rewrite !loads_even. apply Heq. lia.
  - rewrite Nat.add_1_r, !loads_odd. apply Heq. lia.
Qed.

Lemma descends_first n f1 f2 h1 h2 l :
  (l < n)%nat → (f1 l < h1 l)%nat → (∀ k, (k < l)%nat → f1 k = h1 k ∧ f2 k = h2 k) →
  descends (2 * n) (loads f1 f2) (loads h1 h2).
Proof.
  intros Hl Hlt Heq. exists (2 * l)%nat. rewrite !loads_even. split_and!; [lia|done|].
  by apply loads_below.
Qed.

Lemma descends_second n f1 f2 h1 h2 l :
  (l < n)%nat → (f2 l < h2 l)%nat → f1 l = h1 l →
  (∀ k, (k < l)%nat → f1 k = h1 k ∧ f2 k = h2 k) →
  descends (2 * n) (loads f1 f2) (loads h1 h2).
Proof.
  intros Hl Hlt Hsame Heq. exists (S (2 * l)). rewrite !loads_odd. split_and!; [lia|done|].
  intros j Hj. destruct (decide (j = 2 * l)%nat) as [->|Hne]; [by rewrite !loads_even|].
  apply (loads_below f1 f2 h1 h2 l); [done|lia].
Qed.
