(* ===== verification/Interleave.v ===== *)
(** * Interleavings

    The orders in which the elements of several streams may arrive on one
    channel: each stream keeps its own order. *)
From S2P Require Import Prelude.

Section interleaving.
Context {A : Type}.
Implicit Types (xss : list (list A)) (ys : list A).

(** [ys] takes all elements of the streams [xss], at each step the first one
    left of some stream. *)
Inductive interleaved : list (list A) → list A → Prop :=
| interleaved_nil xss : Forall (λ xs, xs = []) xss → interleaved xss []
| interleaved_cons xss i x xs ys :
    xss !! i = Some (x :: xs) → interleaved (<[i := xs]> xss) ys → interleaved xss (x :: ys).

Lemma concat_empty xss : Forall (λ xs, xs = []) xss → concat xss = [].
Proof. induction 1 as [|xs xss -> _ IH]; done. Qed.

Lemma concat_take_drop xss i xs :
  xss !! i = Some xs → concat xss = concat (take i xss) ++ xs ++ concat (drop (S i) xss).
Proof.
  intros Hi. rewrite <- (take_drop_middle _ _ _ Hi) at 1. by rewrite concat_app.
Qed.

(** No element is lost or made up. *)
Lemma interleaved_perm xss ys : interleaved xss ys → ys ≡ₚ concat xss.
Proof.
  induction 1 as [xss Hxss|xss i x xs ys Hi _ IH]; [by rewrite concat_empty|].
  rewrite IH, (concat_take_drop xss i (x :: xs)) by done.
  assert (i < length xss)%nat by (apply lookup_lt_is_Some; by eexists).
  rewrite (concat_take_drop (<[i := xs]> xss) i xs) by (apply list_lookup_insert_eq; lia).
  rewrite take_insert_ge, drop_insert_lt by lia. cbn.
  apply Permutation_middle.
Qed.

Lemma interleaved_elem xss ys x :
  interleaved xss ys → x ∈ ys ↔ ∃ xs, xs ∈ xss ∧ x ∈ xs.
Proof.
  intros Hi. rewrite (interleaved_perm _ _ Hi), !list_elem_of_In, in_concat.
  by setoid_rewrite <- list_elem_of_In.
Qed.

(** Each stream keeps its order. *)
Lemma interleaved_sublist xss ys i xs :
  interleaved xss ys → xss !! i = Some xs → xs `sublist_of` ys.
Proof.
  intros Hint. revert i xs.
  induction Hint as [xss Hxss|xss j x xs' ys Hj _ IH]; intros i xs Hi.
  - rewrite Forall_lookup in Hxss. by rewrite (Hxss _ _ Hi).
  - assert (j < length xss)%nat by (apply lookup_lt_is_Some; by eexists).
    destruct (decide (i = j)) as [->|Hne].
    + simplify_eq. apply sublist_skip, (IH j). by apply list_lookup_insert_eq.
    + apply sublist_cons, (IH i). by rewrite list_lookup_insert_ne.
Qed.

(** Elements that only one stream has are as in that stream. *)
Lemma interleaved_filter (P : A → Prop) `{!∀ x, Decision (P x)} xss ys i xs :
  interleaved xss ys → xss !! i = Some xs →
  (∀ j zs, j ≠ i → xss !! j = Some zs → filter P zs = []) → filter P ys = filter P xs.
Proof.
  intros Hint. revert xs. induction Hint as [xss Hxss|xss j x xs' ys Hj _ IH]; intros xs Hi Hnone.
  - rewrite Forall_lookup in Hxss. by rewrite (Hxss _ _ Hi).
  - assert (j < length xss)%nat by (apply lookup_lt_is_Some; by eexists).
    destruct (decide (j = i)) as [->|Hne].
    + rewrite Hj in Hi. injection Hi as <-. specialize (IH xs').
      rewrite !filter_cons, IH; [done|by apply list_lookup_insert_eq|].
      intros k zs Hk. rewrite list_lookup_insert_ne by done. by apply Hnone.
    + pose proof (Hnone j _ Hne Hj) as Hx.
      assert (¬ P x ∧ filter P xs' = []) as [Hnp Hxs'] by (rewrite filter_cons in Hx; by case_decide).
      rewrite filter_cons_False by done. apply IH; [by rewrite list_lookup_insert_ne|].
      intros k zs Hk. destruct (decide (k = j)) as [->|Hkj].
      * rewrite list_lookup_insert_eq by done. by intros [= <-].
      * rewrite list_lookup_insert_ne by done. by apply Hnone.
Qed.

(** One stream after the other is one of the orders. *)
Lemma interleaved_concat xss : interleaved xss (concat xss).
Proof.
  remember (length (concat xss)) as n eqn:Hn. revert xss Hn.
  induction n as [|n IH]; intros xss Hn.
  - destruct (concat xss) eqn:Hc; [|done]. constructor.
    apply Forall_forall. intros xs Hxs. destruct xs as [|x xs]; [done|].
    assert (x ∈ concat xss) as Hx
      by (apply list_elem_of_In, in_concat; exists (x :: xs); split; [by apply list_elem_of_In|by left]).
    rewrite Hc in Hx. by apply not_elem_of_nil in Hx.
  - assert (∃ i x xs, xss !! i = Some (x :: xs) ∧
        concat xss = x :: concat (<[i := xs]> xss)) as (i & x & xs & Hi & Hc).
    { clear IH. induction xss as [|[|x xs] xss IHx]; [done| |].
      - destruct (IHx Hn) as (i & x & xs & Hi & Hc). by exists (S i), x, xs.
      - by exists 0%nat, x, xs. }
    rewrite Hc in Hn |- *. eapply interleaved_cons, IH; [done|]. cbn in Hn. by injection Hn.
Qed.

Lemma interleaved_one xs ys : interleaved [xs] ys ↔ ys = xs.
Proof.
  split; [|intros ->; pose proof (interleaved_concat [xs]) as H; cbn in H; by rewrite app_nil_r in H].
  intros H. remember [xs] as xss eqn:Hxss. revert xs Hxss.
  induction H as [xss Hall|xss i x xs' ys Hi _ IH]; intros xs ->.
  - apply Forall_cons in Hall as [-> _]. done.
  - destruct i as [|i]; [|done]. cbn in Hi. injection Hi as ->. by rewrite (IH xs').
Qed.

(** A stream goes on, and what it adds arrives. *)
Lemma interleaved_snoc xss ys i xs x :
  interleaved xss ys → xss !! i = Some xs → interleaved (<[i := xs ++ [x]]> xss) (ys ++ [x]).
Proof.
  intros Hint. revert xs. induction Hint as [xss Hall|xss j y ys' ys Hj _ IH]; intros xs Hi.
  - rewrite Forall_lookup in Hall. rewrite (Hall _ _ Hi).
    assert (i < length xss)%nat by (by eapply lookup_lt_Some).
    apply (interleaved_cons _ i x []); [by apply list_lookup_insert_eq|]. constructor.
    rewrite list_insert_insert_eq. apply Forall_insert; [|done]. by apply Forall_lookup.
  - assert (j < length xss)%nat by (by eapply lookup_lt_Some).
    destruct (decide (i = j)) as [->|Hne].
    + rewrite Hj in Hi. injection Hi as <-. specialize (IH ys').
      rewrite list_lookup_insert_eq, list_insert_insert_eq in IH by done.
      apply (interleaved_cons _ j y (ys' ++ [x])); [by apply list_lookup_insert_eq|].
      rewrite list_insert_insert_eq. by apply IH.
    + apply (interleaved_cons _ j y ys'); [by rewrite list_lookup_insert_ne|].
      rewrite list_insert_insert_ne by done. apply IH. by rewrite list_lookup_insert_ne.
Qed.

Lemma interleaved_nils n : interleaved (replicate n []) [].
Proof. constructor. by apply Forall_replicate. Qed.

Lemma interleaved_none ys : interleaved [] ys ↔ ys = [].
Proof. split; [|intros ->; by constructor]. by inversion 1. Qed.
End interleaving.
