(* ===== verification/GoTime.v ===== *)
(** * Go's clock arithmetic and float conversions

    What the program uses of packages [time] and of the float64 type:
    instants, durations, [Time.Sub], [Duration.Seconds] and the conversion
    [int32(f)] of a float64.  IEEE arithmetic is that of [SpecFloat], so the
    rounding of [Duration.Seconds] is the one the hardware does. *)
From Stdlib Require Export SpecFloat.
From S2P Require Import Prelude.

(** ** float64 *)

Abbreviation float64 := spec_float.
Abbreviation float32 := spec_float.

#[export] Instance spec_float_eq_dec : EqDecision spec_float.
Proof. solve_decision. Defined.

Definition prec : Z := 53.
Definition emax : Z := 1024.

(** [float64(z)] of an integer: rounding to nearest, ties to even. *)
Definition float64_of_int (z : Z) : float64 := binary_normalize prec emax z 0 false.

(** [float64(f)] of a float32: exact, only the mantissa is renormalised. *)
Definition float64_of_float32 (f : float32) : float64 :=
  match f with
  | S754_finite s m e =>
      binary_normalize prec emax (if s then Z.neg m else Z.pos m) e s
  | _ => f
  end.

(** The integer part of a finite float, rounding toward zero. *)
Definition float_trunc (f : float64) : option Z :=
  match f with
  | S754_zero _ => Some 0
  | S754_finite s m e =>
      let a := Z.shiftl (Z.pos m) e in Some (if s then - a else a)
  | _ => None
  end.

(** The language leaves the result of [int32(f)] open when the integer part of
    [f] is not an int32; the processor decides ([CVTTSD2SL] on amd64). *)
Class Platform := { float_to_int32_out_of_range : float64 → Z }.

Class PlatformOk `{!Platform} : Prop :=
  { out_of_range_is_int32 : ∀ f, in_int32 (float_to_int32_out_of_range f) }.

(** [int32(f)] of a float64 [f]. *)
Definition float64_to_int32 `{!Platform} (f : float64) : Z :=
  match float_trunc f with
  | Some z => if decide (in_int32 z) then z else float_to_int32_out_of_range f
  | None => float_to_int32_out_of_range f
  end.

(** ** time.Time *)

Definition Nanosecond : Z := 1.
Definition Second : Z := 1000000000.
Definition Minute : Z := 60 * Second.
Definition Hour : Z := 60 * Minute.

(** Seconds since January 1 of year 1 (an int64) and nanoseconds. *)
Record Time := mkTime { time_sec : Z; time_nsec : Z }.

#[export] Instance Time_eq_dec : EqDecision Time.
Proof. solve_decision. Defined.

Definition unixToInternal : Z := 62135596800.

(** [time.Unix(sec, nsec)]: nanoseconds outside [0, 999999999] are carried. *)
Definition Unix (sec nsec : Z) : Time :=
  let '(sec, nsec) :=
    if decide (nsec < 0 ∨ Second ≤ nsec) then
      let n := Z.quot nsec Second in
      let sec := int64 (sec + n) in
      let nsec := nsec - n * Second in
      if decide (nsec < 0) then (int64 (sec - 1), nsec + Second) else (sec, nsec)
    else (sec, nsec) in
  mkTime (int64 (sec + unixToInternal)) nsec.

(** [t.Unix()], [t.Nanosecond()], [t.IsZero()], [t.Before(u)]. *)
Definition Time_Unix (t : Time) : Z := int64 (time_sec t - unixToInternal).
Definition Time_Nanosecond (t : Time) : Z := time_nsec t.
Definition Time_IsZero (t : Time) : bool :=
  bool_decide (time_sec t = 0 ∧ time_nsec t = 0).
Definition Time_Before (t u : Time) : bool :=
  bool_decide (time_sec t < time_sec u ∨
               time_sec t = time_sec u ∧ time_nsec t < time_nsec u).

Definition minDuration : Z := - 2 ^ 63.
Definition maxDuration : Z := 2 ^ 63 - 1.

(** [t.Sub(u)]: the difference in nanoseconds, saturating. *)
Definition Time_Sub (t u : Time) : Z :=
  let d := (time_sec t - time_sec u) * Second + (time_nsec t - time_nsec u) in
  Z.max minDuration (Z.min maxDuration d).

(** [d.Seconds()]:
    [sec := d / Second; nsec := d % Second; float64(sec) + float64(nsec)/1e9]. *)
Definition Duration_Seconds (d : Z) : float64 :=
  let sec := Z.quot d Second in
  let nsec := Z.rem d Second in
  SFadd prec emax (float64_of_int sec)
    (SFdiv prec emax (float64_of_int nsec) (float64_of_int Second)).

(** [int32(t.Sub(u).Seconds())], the expression the metric processors use. *)
Definition elapsed_int32 `{!Platform} (t u : Time) : Z :=
  float64_to_int32 (Duration_Seconds (Time_Sub t u)).

(** ** Integers are exact below 2^53 *)

Lemma digits2_pos_bounds p :
  2 ^ (Z.pos (digits2_pos p) - 1) ≤ Z.pos p < 2 ^ Z.pos (digits2_pos p).
Proof.
  induction p as [p IH|p IH|]; cbn [digits2_pos]; [| |cbn; lia].
  all: set (d := Z.pos (digits2_pos p)) in *;
    assert (1 ≤ d) as Hd by (unfold d; lia);
    assert (2 ^ d = 2 * 2 ^ (d - 1)) as Hp
      by (rewrite <- Z.pow_succ_r by lia; f_equal; lia);
    replace (Z.pos (Pos.succ (digits2_pos p))) with (Z.succ d) by (unfold d; lia);
    rewrite Z.pow_succ_r by lia; replace (Z.succ d - 1) with d by lia; lia.
Qed.

Lemma digits2_pos_le p n : Z.pos p < 2 ^ n → 0 ≤ n → Z.pos (digits2_pos p) ≤ n.
Proof.
  intros Hp Hn. destruct (Z.le_gt_cases (Z.pos (digits2_pos p)) n) as [|Hgt]; [done|].
  pose proof (digits2_pos_bounds p) as [Hlo _].
  pose proof (Z.pow_le_mono_r 2 n (Z.pos (digits2_pos p) - 1)). lia.
Qed.

Lemma digits2_pos_iter d p :
  Z.pos (digits2_pos (Pos.iter xO p d)) = Z.pos (digits2_pos p) + Z.pos d.
Proof.
  induction d as [|d IH] using Pos.peano_ind; cbn; [lia|].
  rewrite Pos.iter_succ. cbn [digits2_pos]. lia.
Qed.

Lemma iter_xO_shiftl d p : Z.pos (Pos.iter xO p d) = Z.shiftl (Z.pos p) (Z.pos d).
Proof.
  unfold Z.shiftl. induction d as [|d IH] using Pos.peano_ind; [done|].
  by rewrite !Pos.iter_succ, <- IH.
Qed.

(** Rounding leaves a 53-bit mantissa alone. *)
Lemma binary_round_aux_exact s m e :
  Z.pos (digits2_pos m) = prec → - 1074 ≤ e ≤ 0 →
  binary_round_aux prec emax s (Z.pos m) e loc_Exact = S754_finite s m e.
Proof.
  intros Hm He. unfold binary_round_aux, shr_fexp.
  assert (fexp prec emax (Zdigits2 (Z.pos m) + e) - e = 0) as Hf.
  { cbn [Zdigits2]. rewrite Hm. unfold fexp, emin, prec, emax. lia. }
  rewrite Hf. cbn [shr shr_record_of_loc shr_m loc_of_shr_record round_nearest_even].
  rewrite Hf. cbn [shr shr_record_of_loc shr_m].
  destruct (Z.leb_spec e (emax - prec)) as [|Hgt]; [done|].
  unfold emax, prec in Hgt. lia.
Qed.

(** An integer of at most 53 bits converts to a float64 exactly. *)
Lemma float_trunc_of_int z :
  - 2 ^ 53 < z < 2 ^ 53 → float_trunc (float64_of_int z) = Some z.
Proof.
  assert (∀ s p, Z.pos p < 2 ^ 53 →
    float_trunc (binary_round prec emax s p 0) = Some (if s then Z.neg p else Z.pos p)) as Hp.
  { intros s p Hp. pose proof (digits2_pos_le p 53 Hp ltac:(lia)) as Hd.
    unfold binary_round, shl_align.
    assert (fexp prec emax (Z.pos (digits2_pos p) + 0) = Z.pos (digits2_pos p) - 53) as ->
      by (unfold fexp, emin, prec, emax; lia).
    destruct (Z.pos (digits2_pos p) - 53 - 0) as [|d|d] eqn:Hk; [|lia|].
    - rewrite binary_round_aux_exact by (unfold prec; lia).
      cbn. by destruct s.
    - assert (Z.pos (digits2_pos p) - 53 = - Z.pos d) as Hk' by lia.
      rewrite binary_round_aux_exact; [|rewrite digits2_pos_iter; unfold prec; lia|lia].
      rewrite Hk'.
      unfold float_trunc. rewrite iter_xO_shiftl, Z.shiftl_shiftl by lia.
      replace (Z.pos d + - Z.pos d) with 0 by lia. rewrite Z.shiftl_0_r.
      by destruct s. }
  intros Hz. unfold float64_of_int, binary_normalize.
  destruct z as [|p|p]; [done|apply (Hp false p); lia|apply (Hp true p); lia].
Qed.

Lemma SFadd_zero_r f s :
  float_trunc f ≠ None → float_trunc (SFadd prec emax f (S754_zero s)) = float_trunc f.
Proof. destruct f as [[]| | |]; destruct s; done. Qed.

(** ** Elapsed seconds *)

(** The internal clock of an instant given by a Unix timestamp with no
    sub-second part. *)
Lemma Unix_whole sec :
  in_int64 (sec + unixToInternal) → Unix sec 0 = mkTime (sec + unixToInternal) 0.
Proof.
  intros Hs. unfold Unix. rewrite decide_False by (unfold Second; lia).
  by rewrite int64_small.
Qed.

(** Between two instants given in whole seconds, [int32(t.Sub(u).Seconds())]
    is the difference of the timestamps, whenever that is an int32: neither the
    saturation of [Sub] nor the rounding of [Seconds] is visible. *)
Lemma elapsed_whole `{!Platform} t u :
  in_int64 (t + unixToInternal) → in_int64 (u + unixToInternal) → in_int32 (t - u) →
  elapsed_int32 (Unix t 0) (Unix u 0) = t - u.
Proof.
  intros Ht Hu Hd. unfold elapsed_int32. rewrite !Unix_whole by done.
  unfold Time_Sub; cbn [time_sec time_nsec].
  replace (t + unixToInternal - (u + unixToInternal)) with (t - u) by lia.
  unfold in_int32 in Hd.
  rewrite Z.min_r, Z.max_r by (unfold minDuration, maxDuration, Second; lia).
  replace (0 - 0) with 0 by lia. rewrite Z.add_0_r.
  unfold Duration_Seconds.
  rewrite Z.quot_mul, Z.rem_mul by (unfold Second; lia).
  change (SFdiv _ _ (float64_of_int 0) _) with (S754_zero false).
  unfold float64_to_int32.
  pose proof (float_trunc_of_int (t - u) ltac:(lia)) as Hf.
  rewrite SFadd_zero_r, Hf by (by rewrite Hf). by rewrite decide_True.
Qed.

Lemma float64_to_int32_range `{!Platform, !PlatformOk} f : in_int32 (float64_to_int32 f).
Proof.
  unfold float64_to_int32. destruct (float_trunc f); [case_decide|]; auto using out_of_range_is_int32.
Qed.

Lemma elapsed_range `{!Platform, !PlatformOk} t u : in_int32 (elapsed_int32 t u).
Proof. apply float64_to_int32_range. Qed.

(** amd64: [CVTTSD2SL] yields the "integer indefinite" value. *)
Definition amd64 : Platform := {| float_to_int32_out_of_range := λ _, - 2 ^ 31 |}.

Lemma amd64_ok : @PlatformOk amd64.
Proof. by split. Qed.

(** From 2^24 seconds on, [Duration.Seconds] rounds the last nanosecond up to
    the next second. *)
Example elapsed_rounds_up :
  @elapsed_int32 amd64 (Unix 16777216 999999999) (Unix 0 0) = 16777217 ∧
  @elapsed_int32 amd64 (Unix 16777215 999999999) (Unix 0 0) = 16777215.
Proof. by vm_compute. Qed.
