(* ===== verification/Calendar.v ===== *)
(** * The calendar of package [time]

    [t.Year()], [t.Month()], [t.Day()] and the clock of an instant in UTC, in
    the proleptic Gregorian calendar. *)
From S2P Require Import Prelude GoTime.

Module Calendar.

(** Days in a cycle of 400 years. *)
Definition cycle : Z := 146097.

Record date := mkDate { Year : Z; Month : Z; Day : Z }.

#[global] Instance date_eq_dec : EqDecision date.
Proof. solve_decision. Defined.

(** The date of a day, counted from March 1 of year 0: years are taken to begin
    in March, so that the leap day is the last one. *)
Definition date_of_march_day (n : Z) : date :=
  let era := n / cycle in
  let doe := n mod cycle in
  let yoe := (doe - doe / 1460 + doe / 36524 - doe / 146096) / 365 in
  let doy := doe - (365 * yoe + yoe / 4 - yoe / 100) in
  let mp := (5 * doy + 2) / 153 in
  let d := doy - (153 * mp + 2) / 5 + 1 in
  let m := if decide (mp < 10) then mp + 3 else mp - 9 in
  mkDate (yoe + 400 * era + if decide (m ≤ 2) then 1 else 0) m d.

(** The day of a date, counted likewise. *)
Definition march_day (t : date) : Z :=
  let y := Year t - if decide (Month t ≤ 2) then 1 else 0 in
  let mp := (Month t + 9) mod 12 in
  365 * y + y / 4 - y / 100 + y / 400 + (153 * mp + 2) / 5 + Day t - 1.

(** January 1 of year 1, from which instants are counted, is day 306. *)
Definition day_of (t : Time) : Z := time_sec t / 86400 + 306.

Definition date_of (t : Time) : date := date_of_march_day (day_of t).

(** Hour, minute and second of the day. *)
Definition hour_of (t : Time) : Z := (time_sec t mod 86400) / 3600.
Definition minute_of (t : Time) : Z := (time_sec t mod 3600) / 60.
Definition second_of_minute (t : Time) : Z := time_sec t mod 60.

(** ** Fields of [t.Format]

    Numbers with zeros in front up to a width. *)

Fixpoint zeros (n : nat) : string :=
  match n with O => "" | S n => "0" +:+ zeros n end.

Definition zero_pad (width : nat) (n : Z) : string :=
  let digits := itoa (Z.abs n) in
  (if decide (n < 0) then "-" else "") +:+ zeros (width - String.length digits) +:+ digits.

(** [fmt.Sprintf("%02d", n)], the months, days, hours, minutes and seconds. *)
Definition two_digits (n : Z) : string := zero_pad 2 n.
(** The year. *)
Definition four_digits (n : Z) : string := zero_pad 4 n.

Example date_epoch : date_of (Unix 0 0) = mkDate 1970 1 1.
Proof. by vm_compute. Qed.
Example date_leap : date_of (Unix 1709208000 0) = mkDate 2024 2 29 ∧
  hour_of (Unix 1709208000 0) = 12.
Proof. by vm_compute. Qed.
(** A day of a cycle, by century, cycle of four years, year and day. *)
Lemma day_parts doe : 0 ≤ doe < cycle → ∃ c q r d,
  doe = 36524 * c + 1461 * q + 365 * r + d ∧ 0 ≤ c < 4 ∧ 0 ≤ q < 25 ∧ 0 ≤ r < 4 ∧ 0 ≤ d ∧
  (d < 365 ∨ d = 365 ∧ r = 3 ∧ (q < 24 ∨ c = 3)).
Proof.
  unfold cycle. intros Hdoe. 
  pose proof (Z.div_mod doe 36524 ltac:(lia)). pose proof (Z.mod_pos_bound doe 36524 ltac:(lia)).
  set (c := Z.min 3 (doe / 36524)). set (e := doe - 36524 * c).
  pose proof (Z.div_mod e 1461 ltac:(lia)). pose proof (Z.mod_pos_bound e 1461 ltac:(lia)).
  set (q := e / 1461) in *. set (f := e mod 1461) in *.
  pose proof (Z.div_mod f 365 ltac:(lia)). pose proof (Z.mod_pos_bound f 365 ltac:(lia)).
  set (r := Z.min 3 (f / 365)). exists c, q, r, (f - 365 * r).
  assert (0 ≤ c < 4) by lia. assert (0 ≤ e ≤ 36524) by lia. assert (0 ≤ q < 25) by lia.
  assert (0 ≤ r < 4) by lia. split_and!; lia.
Qed.

(** The formula for the year of a day of a cycle. *)
Lemma year_of_cycle doe c q r d :
  doe = 36524 * c + 1461 * q + 365 * r + d → 0 ≤ c < 4 → 0 ≤ q < 25 → 0 ≤ r < 4 → 0 ≤ d →
  (d < 365 ∨ d = 365 ∧ r = 3 ∧ (q < 24 ∨ c = 3)) →
  (doe - doe / 1460 + doe / 36524 - doe / 146096) / 365 = 100 * c + 4 * q + r.
Proof.
  intros -> Hc Hq Hr Hd Hdd. set (doe := _ + _ + _ + d).
  assert (∃ z, (z = 1 ∧ c = 3 ∧ q = 24 ∧ r = 3 ∧ d = 365 ∨
    z = 0 ∧ ¬ (c = 3 ∧ q = 24 ∧ r = 3 ∧ d = 365))) as [z Hz].
  { destruct (decide (c = 3 ∧ q = 24 ∧ r = 3 ∧ d = 365)); [exists 1|exists 0]; tauto. }
  assert (doe / 146096 = z) as ->
    by (symmetry; apply Z.div_unique with (doe - 146096 * z); subst doe; lia).
  assert (doe / 36524 = c + z) as ->
    by (symmetry; apply Z.div_unique with (doe - 36524 * (c + z)); subst doe; lia).
  pose proof (Z.div_mod doe 1460 ltac:(lia)). pose proof (Z.mod_pos_bound doe 1460 ltac:(lia)).
  symmetry. apply Z.div_unique with (25 * c + q + d - doe / 1460); subst doe; lia.
Qed.

(** The date of a day by the parts of its cycle: with the year [yoe] of the cycle,
    the day [d] of that year and the month [mp] of it. *)
Lemma date_parts n : ∃ era c q r d mp,
  let m := if decide (mp < 10) then mp + 3 else mp - 9 in
  n = cycle * era + 36524 * c + 1461 * q + 365 * r + d ∧
  0 ≤ c < 4 ∧ 0 ≤ q < 25 ∧ 0 ≤ r < 4 ∧ 0 ≤ d < 366 ∧ mp = (5 * d + 2) / 153 ∧ 0 ≤ mp ≤ 11 ∧
  date_of_march_day n =
    mkDate (100 * c + 4 * q + r + 400 * era + if decide (m ≤ 2) then 1 else 0) m
      (d - (153 * mp + 2) / 5 + 1).
Proof.
  pose proof (Z.div_mod n cycle ltac:(done)) as Hn. pose proof (Z.mod_pos_bound n cycle ltac:(done)) as Hm.
  destruct (day_parts _ Hm) as (c & q & r & d & Hdoe & Hc & Hq & Hr & Hd & Hdd).
  exists (n / cycle), c, q, r, d, ((5 * d + 2) / 153). cbv zeta.
  split_and!; try lia; try (Z.to_euclidean_division_equations; lia).
  unfold date_of_march_day. rewrite (year_of_cycle _ c q r d) by done.
  set (yoe := 100 * c + 4 * q + r).
  assert (yoe / 4 = 25 * c + q) as Hy4 by (symmetry; apply Z.div_unique with r; lia).
  assert (yoe / 100 = c) as Hy100 by (symmetry; apply Z.div_unique with (4 * q + r); lia).
  assert (n mod cycle - (365 * yoe + yoe / 4 - yoe / 100) = d) as -> by lia. done.
Qed.

(** The date of a day determines the day. *)
Lemma march_day_date n : march_day (date_of_march_day n) = n.
Proof.
  destruct (date_parts n) as (era & c & q & r & d & mp & Hn & Hc & Hq & Hr & Hd & Hmp & Hm & ->).
  unfold march_day. cbn [Year Month Day].
  set (m := if decide (mp < 10) then mp + 3 else mp - 9).
  assert ((m + 9) mod 12 = mp) as ->.
  { subst m. symmetry. case_decide; [apply Z.mod_unique with 1|apply Z.mod_unique with 0]; lia. }
  set (y := _ + (if decide (m ≤ 2) then 1 else 0) - _).
  assert (y = 100 * c + 4 * q + r + 400 * era) as -> by (subst y; lia).
  set (y := 100 * c + 4 * q + r + 400 * era).
  assert (y / 4 = 25 * c + q + 100 * era) as -> by (symmetry; apply Z.div_unique with r; lia).
  assert (y / 100 = c + 4 * era) as -> by (symmetry; apply Z.div_unique with (4 * q + r); lia).
  assert (y / 400 = era) as -> by (symmetry; apply Z.div_unique with (100 * c + 4 * q + r); lia).
  unfold cycle in *. lia.
Qed.

(** Months and days are in their ranges, and the years from year 0 on are not
    negative. *)
Lemma date_ranges n :
  1 ≤ Month (date_of_march_day n) ≤ 12 ∧ 1 ≤ Day (date_of_march_day n) ≤ 31 ∧
  (0 ≤ n → 0 ≤ Year (date_of_march_day n)).
Proof.
  destruct (date_parts n) as (era & c & q & r & d & mp & Hn & Hc & Hq & Hr & Hd & Hmp & Hm & ->).
  cbn [Year Month Day]. split_and!.
  1-2: case_decide; lia.
  1-2: Z.to_euclidean_division_equations; lia.
  unfold cycle in *. repeat case_decide; lia.
Qed.

(** Date and clock determine the second. *)
Lemma clock_inj t t' :
  date_of t = date_of t' → hour_of t = hour_of t' → minute_of t = minute_of t' →
  second_of_minute t = second_of_minute t' → time_sec t = time_sec t'.
Proof.
  unfold date_of, hour_of, minute_of, second_of_minute. intros Hd Hh Hm Hs.
  apply (f_equal march_day) in Hd. rewrite !march_day_date in Hd. unfold day_of in Hd.
  Z.to_euclidean_division_equations. lia.
Qed.

(** Numbers below 100 are written with two digits, each with its own. *)
Lemma two_digits_length n : 0 ≤ n < 100 → String.length (two_digits n) = 2%nat.
Proof.
  intros Hn. assert (Forall (λ n, String.length (two_digits n) = 2%nat) (seqZ 0 100)) as Hall
    by (apply (bool_decide_unpack _); by vm_compute).
  rewrite Forall_forall in Hall. apply Hall, elem_of_seqZ. lia.
Qed.

Lemma two_digits_inj n n' :
  0 ≤ n < 100 → 0 ≤ n' < 100 → two_digits n = two_digits n' → n = n'.
Proof.
  intros Hn Hn' Heq.
  assert (NoDup (two_digits <$> seqZ 0 100)) as Hnd by (apply (bool_decide_unpack _); by vm_compute).
  assert (∀ k, 0 ≤ k < 100 → (two_digits <$> seqZ 0 100) !! Z.to_nat k = Some (two_digits k)) as Hat.
  { intros k Hk. rewrite list_lookup_fmap, lookup_seqZ_lt by lia. cbn. by rewrite Z2Nat.id by lia. }
  pose proof (Hat n Hn) as H. rewrite Heq in H.
  pose proof (NoDup_lookup _ _ _ _ Hnd H (Hat n' Hn')). lia.
Qed.

Lemma zeros_length n : String.length (zeros n) = n.
Proof.
  induction n as [|n IH]; [done|]. change (S (String.length (zeros n)) = S n). by rewrite IH.
Qed.

Lemma zero_pad_length w n : 0 ≤ n →
  String.length (zero_pad w n) = Nat.max w (String.length (itoa n)).
Proof.
  intros Hn. unfold zero_pad. rewrite decide_False by lia. rewrite Z.abs_eq by done.
  change ("" +:+ ?s) with s. rewrite length_append, zeros_length. lia.
Qed.

(** Numbers that are written alike are equal. *)
Lemma zero_pad_inj w n n' :
  0 ≤ n → 0 ≤ n' → String.length (itoa n) = String.length (itoa n') →
  zero_pad w n = zero_pad w n' → n = n'.
Proof.
  intros Hn Hn' Hl. unfold zero_pad. rewrite !decide_False, !Z.abs_eq by lia.
  intros Heq. change ("" +:+ ?s) with s in Heq. apply append_suffix_inj in Heq as [_ Heq]; [|exact Hl].
  by apply (inj pretty).
Qed.
End Calendar.
