(* ===== verification/Fmt.v ===== *)
(** * The verb [%v] of package [fmt]

    How the values of an event map are printed: a float64 with the fewest digits
    that give it back ([strconv.FormatFloat(f, 'g', -1, 64)]), an instant by its
    method [String]. *)
From S2P Require Import Prelude GoTime Calendar.

Module Fmt.

(** ** Shortest decimals

    A finite float is [m * 2 ^ e].  The numbers that round to it are those from
    [m * 2 ^ e] minus half the distance to the float below to [m * 2 ^ e] plus
    half the distance to the one above, the ends included when [m] is even.
    Everything is scaled to integers: [4 * m * 2 ^ e = num / den]. *)

(** The distance to the float below is half as big at a power of two. *)
Definition at_power (m : positive) (e : Z) : bool :=
  bool_decide (m = 4503599627370496%positive ∧ - 1074 < e).

(** Is [d * 10 ^ k] one of the numbers that round to [m * 2 ^ e]? *)
Definition rounds_to (m : positive) (e d k : Z) : bool :=
  let p2 := 2 ^ Z.max 0 e in let q2 := 2 ^ Z.max 0 (- e) in
  let p10 := 10 ^ Z.max 0 k in let q10 := 10 ^ Z.max 0 (- k) in
  (* 4 * d * 10 ^ k and 4 * m * 2 ^ e, over the common denominator q2 * q10 *)
  let x := 4 * d * p10 * q2 in
  let unit := p2 * q10 in
  let lower := (4 * Z.pos m - if at_power m e then 1 else 2) * unit in
  let upper := (4 * Z.pos m + 2) * unit in
  if Z.even (Z.pos m) then bool_decide (lower ≤ x ≤ upper) else bool_decide (lower < x < upper).

(** [x / y] of [10 ^ k * m * 2 ^ e]. *)
Definition scaled (m : positive) (e k : Z) : Z * Z :=
  (Z.pos m * 2 ^ Z.max 0 e * 10 ^ Z.max 0 k, 2 ^ Z.max 0 (- e) * 10 ^ Z.max 0 (- k)).

(** Is [m * 2 ^ e] below [10 ^ k]? *)
Definition below (m : positive) (e k : Z) : bool :=
  let '(x, y) := scaled m e (- k) in bool_decide (x < y).

(** The position of the decimal point: [10 ^ (dp - 1) <= m * 2 ^ e < 10 ^ dp].
    The decimal logarithm is estimated from the binary one, at most 1 off. *)
Definition decimal_point (m : positive) (e : Z) : Z :=
  let k := (Z.log2 (Z.pos m) + e) * 30103 / 100000 in
  if below m e k then k else if below m e (k + 1) then k + 1 else k + 2.

(** [n] digits: the nearest to the number when both neighbours do, the one that
    does otherwise. *)
Definition digits_n (m : positive) (e dp : Z) (n : nat) : option Z :=
  let k := Z.of_nat n - dp in
  let '(x, y) := scaled m e k in
  let lo := x / y in
  let up := if decide (2 * (x mod y) = y) then Z.odd lo else bool_decide (y < 2 * (x mod y)) in
  match rounds_to m e lo (- k), rounds_to m e (lo + 1) (- k) with
  | true, true => Some (if up then lo + 1 else lo)
  | true, false => Some lo
  | false, true => Some (lo + 1)
  | false, false => None
  end.

(** The fewest digits; 17 are always enough. *)
Fixpoint shortest (m : positive) (e dp : Z) (n fuel : nat) : Z * nat :=
  match digits_n m e dp n with
  | Some d => (d, n)
  | None => match fuel with O => (0, n) | S fuel => shortest m e dp (n + 1) fuel end
  end.

Fixpoint trim_zeros (l : list Ascii.ascii) : list Ascii.ascii :=
  match l with
  | c :: l' => if decide (String c "" = "0") then trim_zeros l' else l
  | [] => []
  end.

(** The digits, the first not zero and the last not zero, and the position of
    the decimal point. *)
Definition decimal (m : positive) (e : Z) : string * Z :=
  let dp := decimal_point m e in
  let '(d, n) := shortest m e dp 1 17 in
  let s := itoa d in
  (String.string_of_list_ascii (rev (trim_zeros (rev (String.list_ascii_of_string s)))),
   dp + (Z.of_nat (String.length s) - Z.of_nat n)).

(** The formats [%e] and [%f] with the digits there are. *)
Definition fmtE (digits : string) (dp : Z) : string :=
  let exp := dp - 1 in
  let frac := String.substring 1 (String.length digits - 1) digits in
  String.substring 0 1 digits +:+ (if decide (frac = "") then "" else "." +:+ frac)
  +:+ "e" +:+ (if decide (exp < 0) then "-" else "+") +:+ Calendar.two_digits (Z.abs exp).

Definition fmtF (digits : string) (dp : Z) : string :=
  let n := String.length digits in
  if decide (dp ≤ 0) then "0." +:+ Calendar.zeros (Z.to_nat (- dp)) +:+ digits
  else if decide (Z.of_nat n ≤ dp) then digits +:+ Calendar.zeros (Z.to_nat dp - n)
  else String.substring 0 (Z.to_nat dp) digits +:+ "." +:+
       String.substring (Z.to_nat dp) (n - Z.to_nat dp) digits.

(** [%v] of a float64; [%e] is used when the exponent is less than -4 or at least 6. *)
Definition float64_v (f : float64) : string :=
  match f with
  | S754_nan => "NaN"
  | S754_infinity s => if s then "-Inf" else "+Inf"
  | S754_zero s => if s then "-0" else "0"
  | S754_finite s m e =>
      let '(digits, dp) := decimal m e in
      (if s then "-" else "") +:+
      if decide (dp - 1 < - 4 ∨ 6 ≤ dp - 1) then fmtE digits dp else fmtF digits dp
  end.

(** [t.String()] of an instant in UTC:
    [t.Format("2006-01-02 15:04:05.999999999 -0700 MST")]. *)
Definition fraction (nsec : Z) : string :=
  if decide (nsec = 0) then ""
  else "." +:+ String.string_of_list_ascii (rev (trim_zeros (rev
         (String.list_ascii_of_string (Calendar.zero_pad 9 nsec))))).

Definition Time_String (t : Time) : string :=
  let d := Calendar.date_of t in
  Calendar.four_digits (Calendar.Year d) +:+ "-" +:+ Calendar.two_digits (Calendar.Month d)
  +:+ "-" +:+ Calendar.two_digits (Calendar.Day d) +:+ " "
  +:+ Calendar.two_digits (Calendar.hour_of t) +:+ ":"
  +:+ Calendar.two_digits (Calendar.minute_of t) +:+ ":"
  +:+ Calendar.two_digits (Calendar.second_of_minute t)
  +:+ fraction (time_nsec t) +:+ " +0000 UTC".

(** ** Examples *)

Example print_time : Time_String (Unix 1709208000 120000000) = "2024-02-29 12:00:00.12 +0000 UTC".
Proof. by vm_compute. Qed.
(** 42.36, -71.06, 0.1 + 0.2, 1e6, 100000, 1e-5 and the least float64. *)
Example print_floats :
  Forall (λ p, float64_v p.1 = p.2)
    [(SFdiv prec emax (float64_of_int 4236) (float64_of_int 100), "42.36");
     (SFdiv prec emax (float64_of_int (-7106)) (float64_of_int 100), "-71.06");
     (S754_finite false 5404319552844596 (-54), "0.30000000000000004");
     (float64_of_int 1000000, "1e+06"); (float64_of_int 100000, "100000");
     (float64_of_int 123456789, "1.23456789e+08");
     (SFdiv prec emax (float64_of_int 1) (float64_of_int 100000), "1e-05");
     (SFdiv prec emax (float64_of_int 1) (float64_of_int 10000), "0.0001");
     (S754_finite false 1 (-1074), "5e-324"); (float64_of_int (2 ^ 100), "1.2676506002282294e+30")].
Proof. each (by vm_compute). Qed.
End Fmt.
