(* ===== verification/ParseDuration.v ===== *)
(** * [time.ParseDuration]

    The parser of Go's package [time] for polling intervals and expiries: a
    sign, then decimal numbers with a unit, such as "1h30m" or "1.5s". *)
From S2P Require Import Prelude GoTime.

Module ParseDuration.

Inductive result :=
| Ok (d : Z)
| Err.

(** A digit's value. *)
Definition digit (c : Ascii.ascii) : option Z :=
  let n := Z.of_N (Ascii.N_of_ascii c) in
  if decide (48 ≤ n ≤ 57) then Some (n - 48) else None.

Definition dot : Ascii.ascii := Ascii.ascii_of_N 46.

(** [leadingInt]: the value of the leading digits and the rest; [None] when it
    exceeds 2^63. *)
Fixpoint leadingInt (x : Z) (s : string) : option (Z * string) :=
  match s with
  | EmptyString => Some (x, s)
  | String c s' =>
      match digit c with
      | None => Some (x, s)
      | Some d =>
          if decide (2 ^ 63 / 10 < x) then None
          else let x := 10 * x + d in if decide (2 ^ 63 < x) then None else leadingInt x s'
      end
  end.

(** [leadingFraction]: like [leadingInt], but digits that do not fit any more
    are skipped; [scale] is ten to the number of digits used. *)
Fixpoint leadingFraction (x : Z) (scale : float64) (overflow : bool) (s : string)
    : Z * float64 * string :=
  match s with
  | EmptyString => (x, scale, s)
  | String c s' =>
      match digit c with
      | None => (x, scale, s)
      | Some d =>
          if overflow then leadingFraction x scale true s'
          else if decide ((2 ^ 63 - 1) / 10 < x) then leadingFraction x scale true s'
          else
            let y := 10 * x + d in
            if decide (2 ^ 63 < y) then leadingFraction x scale true s'
            else leadingFraction y (SFmul prec emax scale (float64_of_int 10)) false s'
      end
  end.

(** The unit: everything up to the next digit or dot. *)
Fixpoint unit_of (s : string) : string * string :=
  match s with
  | EmptyString => (EmptyString, EmptyString)
  | String c s' =>
      if bool_decide (c = dot) || bool_decide (is_Some (digit c)) then (EmptyString, s)
      else let '(u, r) := unit_of s' in (String c u, r)
  end.

(** "µs" and "μs", U+00B5 and U+03BC, in UTF-8. *)
Definition micro1 : string :=
  String (Ascii.ascii_of_N 194) (String (Ascii.ascii_of_N 181) "s").
Definition micro2 : string :=
  String (Ascii.ascii_of_N 206) (String (Ascii.ascii_of_N 188) "s").

Definition unitMap (u : string) : option Z :=
  if decide (u = "ns") then Some Nanosecond
  else if decide (u = "us" ∨ u = micro1 ∨ u = micro2) then Some 1000
  else if decide (u = "ms") then Some 1000000
  else if decide (u = "s") then Some Second
  else if decide (u = "m") then Some Minute
  else if decide (u = "h") then Some Hour
  else None.

(** A uint64. *)
Definition uint64 (x : Z) : Z := x mod 2 ^ 64.

(** [uint64(float64(f) * (float64(unit) / scale))] *)
Definition fraction (f unit : Z) (scale : float64) : Z :=
  uint64 (default 0 (float_trunc (SFmul prec emax (float64_of_int f)
    (SFdiv prec emax (float64_of_int unit) scale)))).

(** One number with its unit: its value in nanoseconds, and the rest. *)
Definition component (s : string) : option (Z * string) :=
  '(v, s1) ← leadingInt 0 s;
  let pre := bool_decide (String.length s1 ≠ String.length s) in
  let '(f, scale, post, s2) :=
    match s1 with
    | String c s' =>
        if decide (c = dot) then
          let '(f, scale, s2) := leadingFraction 0 (float64_of_int 1) false s' in
          (f, scale, bool_decide (String.length s2 ≠ String.length s'), s2)
        else (0, float64_of_int 1, false, s1)
    | EmptyString => (0, float64_of_int 1, false, s1)
    end in
  if negb pre && negb post then None else
  let '(u, s3) := unit_of s2 in
  if decide (u = "") then None else
  unit ← unitMap u;
  if decide (2 ^ 63 / unit < v) then None else
  let v := v * unit in
  if decide (0 < f) then
    let v := uint64 (v + fraction f unit scale) in
    if decide (2 ^ 63 < v) then None else Some (v, s3)
  else Some (v, s3).

(** The loop [for s != ""]; each turn consumes a character at least. *)
Fixpoint components (fuel : nat) (d : Z) (s : string) : option Z :=
  match s with
  | EmptyString => Some d
  | String c _ =>
      match fuel with
      | O => None
      | S fuel =>
          if decide (c = dot ∨ is_Some (digit c)) then
            '(v, s') ← component s;
            let d := uint64 (d + v) in
            if decide (2 ^ 63 < d) then None else components fuel d s'
          else None
      end
  end.

Definition parse (s : string) : result :=
  let '(neg, s) :=
    match s with
    | String c s' =>
        if decide (String c "" = "-") then (true, s')
        else if decide (String c "" = "+") then (false, s') else (false, s)
    | EmptyString => (false, s)
    end in
  if decide (s = "0") then Ok 0
  else if decide (s = "") then Err
  else
    match components (String.length s) 0 s with
    | None => Err
    | Some d =>
        if neg then Ok (- d)
        else if decide (2 ^ 63 - 1 < d) then Err else Ok d
    end.

Example parse_10s : parse "10s" = Ok (10 * Second).
Proof. by vm_compute. Qed.
Example parse_mixed : parse "-1h1.5m" = Ok (- (Hour + 90 * Second)).
Proof. by vm_compute. Qed.
Example parse_bad : parse "10" = Err ∧ parse "s" = Err ∧ parse "" = Err ∧ parse "-" = Err ∧
  parse "1.s" = Ok Second ∧ parse ".s" = Err ∧ parse "1d" = Err ∧ parse "-0" = Ok 0 ∧
  parse "9223372036s" = Ok (9223372036 * Second) ∧ parse "9223372037s" = Err ∧
  parse "0.1234567890123456789s" = Ok 123456789.
Proof. by vm_compute. Qed.

(** ** Bounds and termination *)

Lemma digit_bounds c d : digit c = Some d → 0 ≤ d ≤ 9.
Proof. unfold digit. case_decide; [|done]. intros [= <-]. lia. Qed.

Lemma leadingInt_spec x s v r :
  0 ≤ x ≤ 2 ^ 63 → leadingInt x s = Some (v, r) →
  0 ≤ v ≤ 2 ^ 63 ∧ (String.length r ≤ String.length s)%nat.
Proof.
  revert x. induction s as [|c s IH]; intros x Hx; cbn [leadingInt]; [intros; by simplify_eq|].
  destruct (digit c) as [d|] eqn:Hd; [|intros; by simplify_eq].
  case_decide; [done|]. case_decide; [done|]. pose proof (digit_bounds _ _ Hd).
  intros Hr. destruct (IH (10 * x + d) ltac:(lia) Hr). cbn [String.length]. split; [done|lia].
Qed.

Lemma leadingFraction_rest x sc o s y sc' r :
  leadingFraction x sc o s = (y, sc', r) → (String.length r ≤ String.length s)%nat.
Proof.
  revert x sc o. induction s as [|c s IH]; intros x sc o; cbn [leadingFraction];
    [intros; by simplify_eq|].
  destruct (digit c); [|intros; by simplify_eq]. cbn [String.length].
  repeat case_match; intros Hr; apply IH in Hr; lia.
Qed.

Lemma unit_of_rest s u r :
  unit_of s = (u, r) → (String.length s = String.length u + String.length r)%nat.
Proof.
  revert u r. induction s as [|c s IH]; intros u r; cbn [unit_of]; [intros; by simplify_eq|].
  case_match; [intros; by simplify_eq|].
  destruct (unit_of s) as [u' r']. intros; simplify_eq. cbn. by rewrite (IH u' r).
Qed.

(** A component is not empty. *)
Lemma component_shorter s v r :
  component s = Some (v, r) → (String.length r < String.length s)%nat.
Proof.
  unfold component. intros ([v0 s1] & Hi & H)%bind_Some.
  assert (String.length s1 ≤ String.length s)%nat as H1.
  { by destruct (leadingInt_spec 0 s v0 s1 ltac:(lia) Hi). }
  destruct (match s1 with EmptyString => _ | String c s' => _ end) as [[[f sc] post] s2] eqn:Hf.
  assert (String.length s2 ≤ String.length s1)%nat as H2.
  { destruct s1 as [|c s']; [by simplify_eq|]. destruct (decide (c = dot)); [|by simplify_eq].
    destruct (leadingFraction 0 _ _ s') as [[f' sc'] s2'] eqn:Hlf. simplify_eq.
    apply leadingFraction_rest in Hlf. cbn. lia. }
  case_match; [done|]. destruct (unit_of s2) as [u s3] eqn:Hu. apply unit_of_rest in Hu.
  destruct (decide (u = "")) as [|Hne]; [done|].
  assert (0 < String.length u)%nat by (destruct u; [done|cbn; lia]).
  apply bind_Some in H as (unit & _ & H). repeat case_decide; simplify_eq; lia.
Qed.

(** The fuel is enough: with any more the result is the same. *)
Lemma components_fuel fuel d s :
  (String.length s ≤ fuel)%nat → components fuel d s = components (String.length s) d s.
Proof.
  revert d s. induction (lt_wf fuel) as [fuel _ IH]. intros d s Hf.
  destruct s as [|c s]; [by destruct fuel|]. destruct fuel as [|fuel]; [cbn in Hf; lia|].
  cbn [components String.length]. case_decide; [|done].
  destruct (component (String c s)) as [[v r]|] eqn:Hc; [cbn|done].
  apply component_shorter in Hc. cbn in Hc, Hf. case_decide; [done|].
  rewrite (IH fuel) by lia. destruct (decide (fuel = String.length s)) as [->|]; [|].
  - by rewrite <- (IH (String.length s)) by lia.
  - by rewrite (IH (String.length s)) by lia.
Qed.

Lemma components_range fuel d s d' :
  0 ≤ d ≤ 2 ^ 63 → components fuel d s = Some d' → 0 ≤ d' ≤ 2 ^ 63.
Proof.
  revert d s. induction fuel as [|fuel IH]; intros d [|c s] Hd; cbn [components];
    [by intros [= <-]|done|by intros [= <-]|].
  case_decide; [|done]. destruct (component (String c s)) as [[v r]|]; [cbn [mbind option_bind]|done].
  case_decide; [done|]. apply IH. unfold uint64 in *.
  pose proof (Z.mod_pos_bound (d + v) (2 ^ 64)). lia.
Qed.

(** What [ParseDuration] accepts is a duration: an int64. *)
Theorem parse_in_int64 s d : parse s = Ok d → in_int64 d.
Proof.
  unfold parse, in_int64.
  destruct (match s with EmptyString => _ | String c s' => _ end) as [neg s0].
  case_decide; [intros [= <-]; lia|]. case_decide; [done|].
  destruct (components _ 0 s0) as [d0|] eqn:Hc; [|done].
  apply components_range in Hc; [|lia].
  destruct neg; [intros [= <-]; lia|]. case_decide; [done|]. intros [= <-]. lia.
Qed.

(** ** Whole seconds *)

Lemma digit_char n : 0 ≤ n < 10 → digit (pretty_N_char (Z.to_N n)) = Some n.
Proof.
  intros Hn. assert (n = 0 ∨ n = 1 ∨ n = 2 ∨ n = 3 ∨ n = 4 ∨ n = 5 ∨ n = 6 ∨ n = 7 ∨ n = 8 ∨ n = 9)
    by lia. destruct_or!; subst; done.
Qed.

Lemma pretty_N_go_app x s : pretty_N_go x s = pretty_N_go x "" +:+ s.
Proof.
  revert s. induction (N.lt_wf_0 x) as [x _ IH]. intros s.
  destruct (decide (0 < x)%N) as [Hx|Hx]; [|by replace x with 0%N by lia; rewrite !pretty_N_go_0].
  rewrite !(pretty_N_go_step x) by done. assert (x `div` 10 < x)%N as Hd by (apply N.div_lt; lia).
  rewrite (IH _ Hd), (IH _ Hd (String _ "")). by rewrite <- append_assoc.
Qed.

(** The digits of a number are read back. *)
Lemma leadingInt_digits x s :
  Z.of_N x ≤ 2 ^ 63 → leadingInt 0 (pretty_N_go x s) = leadingInt (Z.of_N x) s.
Proof.
  revert s. induction (N.lt_wf_0 x) as [x _ IH]. intros s Hx.
  destruct (decide (0 < x)%N) as [Hp|Hp]; [|by replace x with 0%N by lia; rewrite pretty_N_go_0].
  rewrite pretty_N_go_step by done.
  pose proof (Z.mod_pos_bound (Z.of_N x) 10 ltac:(lia)).
  pose proof (Z.div_mod (Z.of_N x) 10 ltac:(lia)).
  rewrite IH by first [apply N.div_lt; lia|rewrite N2Z.inj_div; lia].
  cbn [leadingInt]. rewrite <- (N2Z.id (x `mod` 10)), N2Z.inj_mod, N2Z.inj_div.
  change (Z.of_N 10) with 10. rewrite digit_char by done.
  change (2 ^ 63 / 10) with 922337203685477580. rewrite decide_False by lia.
  rewrite decide_False by lia. f_equal. lia.
Qed.

Lemma pretty_pos_nonempty x s : (0 < x)%N → (String.length s < String.length (pretty_N_go x s))%nat.
Proof.
  revert s. induction (N.lt_wf_0 x) as [x _ IH]. intros s Hx.
  rewrite pretty_N_go_step by done.
  destruct (decide (0 < x `div` 10)%N) as [Hd|Hd].
  - etrans; [|apply IH; [apply N.div_lt; lia|done]]. cbn. lia.
  - assert (x `div` 10 = 0)%N as -> by (by apply N.le_0_r, N.nlt_ge). rewrite pretty_N_go_0. cbn. lia.
Qed.

Lemma pretty_pos_digit x s :
  (0 < x)%N → ∃ c s', pretty_N_go x s = String c s' ∧ is_Some (digit c).
Proof.
  revert s. induction (N.lt_wf_0 x) as [x _ IH]. intros s Hx.
  rewrite pretty_N_go_step by done.
  destruct (decide (0 < x `div` 10)%N) as [Hd|Hd]; [apply IH; [apply N.div_lt; lia|done]|].
  assert (x `div` 10 = 0)%N as -> by (by apply N.le_0_r, N.nlt_ge). rewrite pretty_N_go_0. eexists _, _. split; [done|].
  pose proof (Z.mod_pos_bound (Z.of_N x) 10 ltac:(lia)).
  rewrite <- (N2Z.id (x `mod` 10)), N2Z.inj_mod. change (Z.of_N 10) with 10.
  by rewrite digit_char.
Qed.

Lemma component_seconds x :
  (0 < x)%N → Z.of_N x ≤ 9223372036 →
  component (pretty_N_go x "s") = Some (Z.of_N x * Second, "").
Proof.
  intros Hx Hb. unfold component. rewrite leadingInt_digits by lia.
  cbn [leadingInt]. replace (digit _) with (@None Z) by done. cbn [mbind option_bind].
  rewrite bool_decide_true by (pose proof (pretty_pos_nonempty x "s" Hx); cbn in *; lia).
  rewrite decide_False by done. cbn [negb andb].
  replace (unit_of "s") with ("s", "") by done. rewrite decide_False by done.
  replace (unitMap "s") with (Some Second) by done. cbn [mbind option_bind].
  change (2 ^ 63 / Second) with 9223372036. rewrite decide_False by lia.
  by rewrite decide_False by lia.
Qed.

(** A whole number of seconds, as configurations write polling intervals,
    is read as that many seconds, up to the largest that fits. *)
Theorem parse_seconds n :
  0 < n ≤ 9223372036 → parse (itoa n +:+ "s") = Ok (n * Second).
Proof.
  intros Hn. destruct n as [|p|p]; [lia| |lia].
  assert (itoa (Z.pos p) +:+ "s" = pretty_N_go (N.pos p) "s") as ->
    by (rewrite (pretty_N_go_app _ "s"); done).
  pose proof (component_seconds (N.pos p) ltac:(lia) ltac:(lia)) as Hc.
  change (Z.of_N (N.pos p)) with (Z.pos p) in Hc.
  pose proof (pretty_N_go_ne_0 (N.pos p) "s" ltac:(done)) as H0.
  destruct (pretty_pos_digit (N.pos p) "s" ltac:(lia)) as (c & s & Hs & Hd). rewrite Hs in *.
  unfold parse.
  rewrite decide_False by (intros [= ->]; by destruct Hd).
  rewrite decide_False by (intros [= ->]; by destruct Hd).
  rewrite !decide_False by done. cbn [components String.length].
  rewrite decide_True by by right. rewrite Hc. cbn [mbind option_bind].
  assert (uint64 (0 + Z.pos p * Second) = Z.pos p * Second) as ->
    by (unfold uint64, Second in *; rewrite Z.mod_small; lia).
  rewrite decide_False by (unfold Second; lia).
  destruct (String.length s); cbn [components]; by rewrite decide_False by (unfold Second; lia).
Qed.

Lemma parse_in_int64_witness : in_int64 (10 * Second).
Proof. apply (parse_in_int64 "10s"). by vm_compute. Defined.
Lemma parse_seconds_witness : parse (itoa 30 +:+ "s") = Ok (30 * Second).
Proof. apply parse_seconds. lia. Defined.
End ParseDuration.
