(* ===== verification/Config.v ===== *)
(** * Configuration ([config])

    The configuration of a graph as it is decoded from YAML, and
    [GraphConfig.Validate].  Decoding itself ([yaml.v3], [os.ReadFile]) is not
    modelled: a [GraphConfig.t] is what it yields. *)
From S2P Require Import Prelude GoTime ParseDuration.

(** ** Maps

    A Go map may be nil ([None]): reading finds nothing, writing panics. *)
Abbreviation ID := string.
Abbreviation gomap A := (option (gmap ID A)).

Definition lookup_map {A} (m : gomap A) (k : ID) : option A := m ≫= (.!! k).
Definition entries {A} (m : gomap A) : gmap ID A := default ∅ m.

(** The order in which [range] visits a map is unspecified, and may differ from
    one loop to the next: [iterate n] is that of the [n]-th loop. *)
Class MapOrder := iterate : nat → ∀ A, gmap ID A → list (ID * A).
Class MapOrderOk `{!MapOrder} : Prop :=
  iterate_perm : ∀ n A (m : gmap ID A), iterate n A m ≡ₚ map_to_list m.

#[export] Instance sorted_order : MapOrder := λ _ A m, map_to_list m.
#[export] Instance sorted_order_ok : MapOrderOk.
Proof. intros n A m. done. Qed.

(** ** Sources and sinks *)

Definition SourceTypeHTTP := "http".
Definition SourceTypeBucket := "bucket".
Definition SourceTypeFileSystem := "file_system".
Definition SourceTypeRedis := "redis".
Definition SourceTypeConnector := "connector".

Definition SinkTypeConnector := "connector".
Definition SinkTypeConsole := "console".
Definition SinkTypeDatabase := "database".
Definition SinkTypeFileSystem := "file_system".
Definition SinkTypeParquet := "parquet".
Definition SinkTypeRedis := "redis".
Definition SinkTypeSSE := "sse".

Definition ConsoleSinkLevelDebug := "debug".
Definition ConsoleSinkLevelInfo := "info".
Definition ConsoleSinkLevelWarning := "warning".
Definition ConsoleSinkLevelError := "error".
Definition ConsoleSinkLevelFatal := "fatal".

Module HTTPSourceConfig.
Record t := mk { URL : string; Interval : string }.
End HTTPSourceConfig.

Module BucketConfig.
Record t := mk { URL : string; BucketName : string }.
End BucketConfig.

(** [RedisSourceConfig] and [RedisSinkConfig] have the same fields. *)
Module RedisConfig.
Record t := mk { Addr : string; Password : string; DB : Z; Channel : string }.
End RedisConfig.

(** [SourceConfig]; the [ConnectorConfig] and [FileSystemSourceConfig] records
    have one field each. *)
Module SourceConfig.
Record t := mk {
  id : ID;
  Type_ : string;
  HTTP : HTTPSourceConfig.t;
  Bucket : BucketConfig.t;
  FileSystem_Path : string;
  Redis : RedisConfig.t;
  Connector_ID : ID;
}.
Definition zero : t :=
  mk "" "" (HTTPSourceConfig.mk "" "") (BucketConfig.mk "" "") "" (RedisConfig.mk "" "" 0 "") "".
End SourceConfig.

Module DatabaseSinkConfig.
Record t := mk { Driver : string; DSN : string; Schema : string }.
End DatabaseSinkConfig.

Module ParquetSinkConfig.
Record t := mk {
  BucketName : string;
  Prefix : string;
  EventType : string;
  AWSRegion : string;
  AWSEndpointURL : string;
  AWSAccessKey : string;
  AWSSecretKey : string;
}.
End ParquetSinkConfig.

Module SSESinkConfig.
Record t := mk { Port : string; Path : string }.
End SSESinkConfig.

Module SinkConfig.
Record t := mk {
  id : ID;
  Type_ : string;
  MinBatchSize : Z;
  MaxBatchSize : Z;
  FlushInterval : Z;
  FlushThreshold : Z;
  Console_Level : string;
  Bucket : BucketConfig.t;
  FileSystem_Path : string;
  Redis : RedisConfig.t;
  SSE : SSESinkConfig.t;
  Connector_ID : ID;
  Database : DatabaseSinkConfig.t;
  Parquet : ParquetSinkConfig.t;
}.
Definition zero : t :=
  mk "" "" 0 0 0 0 "" (BucketConfig.mk "" "") "" (RedisConfig.mk "" "" 0 "")
    (SSESinkConfig.mk "" "") "" (DatabaseSinkConfig.mk "" "" "")
    (ParquetSinkConfig.mk "" "" "" "" "" "" "").
End SinkConfig.

(** ** State stores, pipelines, graphs *)

Definition InMemoryStateStoreType := "in_memory".
Definition RedisStateStoreType := "redis".

Module StateStoreConfig.
Record t := mk {
  id : ID;
  Type_ : string;
  InMemory_Expiry : Z;
  Redis_Addr : string;
  Redis_Password : string;
  Redis_DB : Z;
  Redis_Expiry : Z;
}.
End StateStoreConfig.

Definition PipelineTypeFeedMessage := "feed_message".
Definition PipelineTypeVehiclePosition := "vehicle_position".
Definition PipelineTypeStopEvent := "stop_event".
Definition PipelineTypeDwellEvent := "dwell_event".
Definition PipelineTypeHeadwayEvent := "headway_event".
Definition PipelineTypeTravelTime := "travel_time".

(** [validPipelineTypes[p.Type]] *)
Definition validPipelineTypes (type : string) : bool :=
  bool_decide (type ∈ [PipelineTypeFeedMessage; PipelineTypeVehiclePosition;
    PipelineTypeStopEvent; PipelineTypeDwellEvent; PipelineTypeHeadwayEvent;
    PipelineTypeTravelTime]).

Module PipelineConfig.
Record t := mk {
  id : ID;
  AgencyID : ID;
  Type_ : string;
  Sources : list ID;
  StateStore : ID;
  Sinks : list ID;
}.
End PipelineConfig.

Module GraphConfig.
Record t := mk {
  Sources : gomap SourceConfig.t;
  StateStores : gomap StateStoreConfig.t;
  Connectors : gomap unit;
  Sinks : gomap SinkConfig.t;
  Pipelines : gomap PipelineConfig.t;
}.
End GraphConfig.

(** ** Validate *)

Inductive validation_error :=
| http_url_required (source : ID)
| http_interval_required (source : ID)
| invalid_http_interval (source : ID) (interval : string)
| invalid_type (pipeline : ID) (type : string)
| source_required (pipeline : ID)
| sink_required (pipeline : ID)
| unknown_source (pipeline source : ID)
| unknown_sink (pipeline sink : ID).

(** A loop that returns at the first error. *)
Fixpoint first_error {A E} (check : A → option E) (l : list A) : option E :=
  match l with
  | [] => None
  | x :: l => match check x with Some e => Some e | None => first_error check l end
  end.

Definition check_source (kv : ID * SourceConfig.t) : option validation_error :=
  let '(id, src) := kv in
  if decide (SourceConfig.Type_ src = SourceTypeHTTP) then
    let http := SourceConfig.HTTP src in
    if decide (HTTPSourceConfig.URL http = "") then Some (http_url_required id)
    else if decide (HTTPSourceConfig.Interval http = "") then Some (http_interval_required id)
    else match ParseDuration.parse (HTTPSourceConfig.Interval http) with
         | ParseDuration.Err => Some (invalid_http_interval id (HTTPSourceConfig.Interval http))
         | ParseDuration.Ok _ => None
         end
  else None.

Definition check_pipeline (knownSources knownSinks : gset ID) (kv : ID * PipelineConfig.t)
    : option validation_error :=
  let '(id, p) := kv in
  if negb (validPipelineTypes (PipelineConfig.Type_ p))
  then Some (invalid_type id (PipelineConfig.Type_ p))
  else if decide (length (PipelineConfig.Sources p) = 0%nat) then Some (source_required id)
  else if decide (length (PipelineConfig.Sinks p) = 0%nat) then Some (sink_required id)
  else
    match first_error (λ srcID, if decide (srcID ∈ knownSources) then None
                                else Some (unknown_source id srcID))
            (PipelineConfig.Sources p) with
    | Some e => Some e
    | None =>
        first_error (λ sinkID, if decide (sinkID ∈ knownSinks) then None
                               else Some (unknown_sink id sinkID))
          (PipelineConfig.Sinks p)
    end.

Definition known {A} (m : gomap A) (connectors : gomap unit) : gset ID :=
  dom (entries m) ∪ dom (entries connectors).

Definition Validate `{!MapOrder} (g : GraphConfig.t) : option validation_error :=
  let knownSources := known (GraphConfig.Sources g) (GraphConfig.Connectors g) in
  let knownSinks := known (GraphConfig.Sinks g) (GraphConfig.Connectors g) in
  match first_error check_source (iterate 0 _ (entries (GraphConfig.Sources g))) with
  | Some e => Some e
  | None =>
      first_error (check_pipeline knownSources knownSinks)
        (iterate 1 _ (entries (GraphConfig.Pipelines g)))
  end.

(** ** What a validated configuration is *)

Module ConfigSpec.

(** An HTTP source needs an address and a polling interval that parses. *)
Definition source_ok (src : SourceConfig.t) : Prop :=
  SourceConfig.Type_ src = SourceTypeHTTP →
  HTTPSourceConfig.URL (SourceConfig.HTTP src) ≠ "" ∧
  ∃ d, ParseDuration.parse (HTTPSourceConfig.Interval (SourceConfig.HTTP src)) = ParseDuration.Ok d.

(** The identifiers a pipeline may use. *)
Definition names {A} (m : gomap A) (connectors : gomap unit) (id : ID) : Prop :=
  is_Some (lookup_map m id) ∨ is_Some (lookup_map connectors id).

Definition pipeline_ok (g : GraphConfig.t) (p : PipelineConfig.t) : Prop :=
  validPipelineTypes (PipelineConfig.Type_ p) = true ∧
  PipelineConfig.Sources p ≠ [] ∧ PipelineConfig.Sinks p ≠ [] ∧
  Forall (names (GraphConfig.Sources g) (GraphConfig.Connectors g)) (PipelineConfig.Sources p) ∧
  Forall (names (GraphConfig.Sinks g) (GraphConfig.Connectors g)) (PipelineConfig.Sinks p).

Definition well_formed (g : GraphConfig.t) : Prop :=
  (∀ id src, lookup_map (GraphConfig.Sources g) id = Some src → source_ok src) ∧
  (∀ id p, lookup_map (GraphConfig.Pipelines g) id = Some p → pipeline_ok g p).

(** What an error says of the configuration. *)
Definition accurate (g : GraphConfig.t) (e : validation_error) : Prop :=
  let source id P := ∃ src, lookup_map (GraphConfig.Sources g) id = Some src ∧
    SourceConfig.Type_ src = SourceTypeHTTP ∧ P (SourceConfig.HTTP src) in
  let pipeline id P := ∃ p, lookup_map (GraphConfig.Pipelines g) id = Some p ∧ P p in
  match e with
  | http_url_required id => source id (λ h, HTTPSourceConfig.URL h = "")
  | http_interval_required id => source id (λ h, HTTPSourceConfig.Interval h = "")
  | invalid_http_interval id i =>
      source id (λ h, HTTPSourceConfig.Interval h = i ∧ ParseDuration.parse i = ParseDuration.Err)
  | invalid_type id t =>
      pipeline id (λ p, PipelineConfig.Type_ p = t ∧ validPipelineTypes t = false)
  | source_required id => pipeline id (λ p, PipelineConfig.Sources p = [])
  | sink_required id => pipeline id (λ p, PipelineConfig.Sinks p = [])
  | unknown_source id s => pipeline id (λ p, s ∈ PipelineConfig.Sources p ∧
      ¬ names (GraphConfig.Sources g) (GraphConfig.Connectors g) s)
  | unknown_sink id s => pipeline id (λ p, s ∈ PipelineConfig.Sinks p ∧
      ¬ names (GraphConfig.Sinks g) (GraphConfig.Connectors g) s)
  end.

Lemma first_error_None {A E} (check : A → option E) l :
  first_error check l = None ↔ Forall (λ x, check x = None) l.
Proof.
  induction l as [|x l IH]; cbn; [by rewrite Forall_nil|]. rewrite Forall_cons, <- IH.
  destruct (check x); intuition congruence.
Qed.

Lemma first_error_Some {A E} (check : A → option E) l e :
  first_error check l = Some e → ∃ x, x ∈ l ∧ check x = Some e.
Proof.
  induction l as [|x l IH]; cbn; [done|]. destruct (check x) eqn:Hx.
  - intros [= ->]. exists x. split; [apply list_elem_of_here|done].
  - intros (y & Hy & He)%IH. exists y. split; [by apply list_elem_of_further|done].
Qed.

Lemma elem_of_known {A} (m : gomap A) c id : id ∈ known m c ↔ names m c id.
Proof.
  unfold known, names, lookup_map, entries. rewrite elem_of_union, !elem_of_dom.
  destruct m, c; cbn; rewrite ?lookup_empty; done.
Qed.

Lemma elem_of_iterate `{!MapOrder, !MapOrderOk} {A} n (m : gomap A) id x :
  (id, x) ∈ iterate n A (entries m) ↔ lookup_map m id = Some x.
Proof.
  rewrite iterate_perm, elem_of_map_to_list. unfold entries, lookup_map.
  destruct m; cbn; [done|]. by rewrite lookup_empty.
Qed.

Lemma Forall_iterate `{!MapOrder, !MapOrderOk} {A} n (m : gomap A) (P : ID * A → Prop) :
  Forall P (iterate n A (entries m)) ↔ ∀ id x, lookup_map m id = Some x → P (id, x).
Proof.
  rewrite Forall_forall. split.
  - intros HP id x Hx. apply HP. by apply elem_of_iterate.
  - intros HP [id x] Hx. apply HP. by apply elem_of_iterate in Hx.
Qed.

Lemma check_source_None id src : check_source (id, src) = None ↔ source_ok src.
Proof.
  unfold check_source, source_ok. case_decide as Ht; [|naive_solver].
  repeat case_decide; try (split; [done|intros Hs; by destruct (Hs Ht)]).
  - split; [done|]. intros Hs. destruct (Hs Ht) as (_ & d & Hd).
    match goal with H : HTTPSourceConfig.Interval _ = "" |- _ => by rewrite H in Hd end.
  - destruct (ParseDuration.parse _) eqn:Hp; [naive_solver|]. split; [done|].
    intros Hs. by destruct (Hs Ht) as (_ & d & ?).
Qed.

Lemma check_names_None {A E} (m : gomap A) c (mk : ID → E) l :
  first_error (λ id, if decide (id ∈ known m c) then None else Some (mk id)) l = None
  ↔ Forall (names m c) l.
Proof.
  rewrite first_error_None. rewrite !Forall_forall.
  split; intros H id Hid; specialize (H id Hid); revert H; rewrite <- elem_of_known;
    by case_decide.
Qed.

Lemma check_pipeline_None g id p :
  check_pipeline (known (GraphConfig.Sources g) (GraphConfig.Connectors g))
    (known (GraphConfig.Sinks g) (GraphConfig.Connectors g)) (id, p) = None ↔ pipeline_ok g p.
Proof.
  unfold check_pipeline, pipeline_ok.
  destruct (validPipelineTypes _); cbn [negb]; [|intuition congruence].
  case_decide as Hs; [apply nil_length_inv in Hs; intuition congruence|].
  case_decide as Hk; [apply nil_length_inv in Hk; intuition congruence|].
  rewrite <- (check_names_None _ _ (unknown_source id)), <- (check_names_None _ _ (unknown_sink id)).
  assert (PipelineConfig.Sources p ≠ []) by (by intros Hn; rewrite Hn in Hs).
  assert (PipelineConfig.Sinks p ≠ []) by (by intros Hn; rewrite Hn in Hk).
  destruct (first_error _ (PipelineConfig.Sources p)); intuition congruence.
Qed.

Lemma validate_None `{!MapOrder, !MapOrderOk} g : Validate g = None ↔ well_formed g.
Proof.
  unfold Validate, well_formed.
  destruct (first_error check_source _) as [e|] eqn:Hs.
  - split; [done|]. intros [Hall _]. apply first_error_Some in Hs as ([id src] & Hin & He).
    apply elem_of_iterate in Hin. specialize (Hall id src Hin). apply check_source_None with (id := id) in Hall.
    congruence.
  - apply first_error_None in Hs. rewrite Forall_iterate in Hs.
    rewrite first_error_None, Forall_iterate. split.
    + intros Hp. split; [intros id src Hsrc; by eapply check_source_None, Hs|].
      intros id p Hin. by eapply check_pipeline_None, Hp.
    + intros [_ Hp] id p Hin. eapply check_pipeline_None, Hp, Hin.
Qed.

Lemma check_source_accurate g id src e :
  lookup_map (GraphConfig.Sources g) id = Some src → check_source (id, src) = Some e → accurate g e.
Proof.
  intros Hin. unfold check_source. case_decide; [|done].
  repeat case_decide; try (intros [= <-]; by exists src).
  destruct (ParseDuration.parse _) eqn:Hp; [done|]. intros [= <-]. by exists src.
Qed.

Lemma check_pipeline_accurate g id p e :
  lookup_map (GraphConfig.Pipelines g) id = Some p →
  check_pipeline (known (GraphConfig.Sources g) (GraphConfig.Connectors g))
    (known (GraphConfig.Sinks g) (GraphConfig.Connectors g)) (id, p) = Some e → accurate g e.
Proof.
  intros Hin. unfold check_pipeline.
  destruct (validPipelineTypes _) eqn:Hv; cbn [negb]; [|intros [= <-]; by exists p].
  case_decide as Hs; [apply nil_length_inv in Hs; intros [= <-]; by exists p|].
  case_decide as Hk; [apply nil_length_inv in Hk; intros [= <-]; by exists p|].
  destruct (first_error _ (PipelineConfig.Sources p)) as [e'|] eqn:Hf.
  - intros [= ->]. apply first_error_Some in Hf as (s & Hin' & Hs').
    case_decide as Hkn; [done|]. simplify_eq. rewrite elem_of_known in Hkn. by exists p.
  - intros (s & Hin' & Hs')%first_error_Some.
    case_decide as Hkn; [done|]. simplify_eq. rewrite elem_of_known in Hkn. by exists p.
Qed.

Section claims.
Context `{!MapOrder, !MapOrderOk}.

(** C34: [Validate] accepts exactly the well-formed configurations, whatever the
    order in which the maps are visited: HTTP sources have an address and an
    interval that parses, and every pipeline has a known type, at least one
    source and one sink, and names only declared sources, sinks and connectors. *)
Theorem validate_iff_well_formed g : Validate g = None ↔ well_formed g.
Proof. apply validate_None. Qed.

(** C35: The error [Validate] returns is true of the configuration: the entry it
    names exists and has the defect it reports. *)
Theorem validate_error_accurate g e : Validate g = Some e → accurate g e.
Proof.
  unfold Validate. destruct (first_error check_source _) as [e'|] eqn:Hs.
  - intros [= ->]. apply first_error_Some in Hs as ([id src] & Hin & He).
    apply elem_of_iterate in Hin. by eapply check_source_accurate.
  - intros ([id p] & Hin & He)%first_error_Some. apply elem_of_iterate in Hin.
    by eapply check_pipeline_accurate.
Qed.
End claims.

Definition sample_pipeline : PipelineConfig.t :=
  PipelineConfig.mk "p" "MBTA" "stop_event" ["c"; "nowhere"] "s" ["c"].
Definition sample_graph : GraphConfig.t :=
  GraphConfig.mk None None (Some {["c" := tt]}) None (Some {["p" := sample_pipeline]}).

Lemma validate_iff_well_formed_witness : ¬ well_formed sample_graph.
Proof. intros H. apply validate_iff_well_formed in H. by vm_compute in H. Defined.

Lemma validate_error_accurate_witness : accurate sample_graph (unknown_source "p" "nowhere").
Proof. apply validate_error_accurate. by vm_compute. Defined.
End ConfigSpec.
