(* ===== verification/Gtfs.v ===== *)
(** * GTFS-realtime messages

    The part of [third_party/gtfs/gtfs-realtime.proto] the program reads, as the
    Go bindings represent it: a proto2 message is reached through a pointer, an
    optional field is a pointer, and a getter on an absent field gives the
    default the .proto file declares (the zero value when it declares none).
    Fields the program never reads are left out of the records. *)
From S2P Require Import Prelude GoTime.

Module TripDescriptor.
Record t := mk {
  TripId : ptr string;
  RouteId : ptr string;
  DirectionId : ptr Z; (* uint32 *)
  StartDate : ptr string;
}.
Definition GetTripId (x : ptr t) : string := default "" (x ≫= TripId).
Definition GetRouteId (x : ptr t) : string := default "" (x ≫= RouteId).
Definition GetDirectionId (x : ptr t) : Z := default 0 (x ≫= DirectionId).
Definition GetStartDate (x : ptr t) : string := default "" (x ≫= StartDate).
#[global] Instance eq_dec : EqDecision t.
Proof. solve_decision. Defined.
End TripDescriptor.

Module VehicleDescriptor.
Record t := mk { Id : ptr string }.
Definition GetId (x : ptr t) : string := default "" (x ≫= Id).
#[global] Instance eq_dec : EqDecision t.
Proof. solve_decision. Defined.
End VehicleDescriptor.

Module Position.
Record t := mk { Latitude : ptr float32; Longitude : ptr float32 }.
Definition GetLatitude (x : ptr t) : float32 := default (S754_zero false) (x ≫= Latitude).
Definition GetLongitude (x : ptr t) : float32 := default (S754_zero false) (x ≫= Longitude).
#[global] Instance eq_dec : EqDecision t.
Proof. solve_decision. Defined.
End Position.

(** [enum VehicleStopStatus], an int32 in Go. *)
Definition VehiclePosition_INCOMING_AT : Z := 0.
Definition VehiclePosition_STOPPED_AT : Z := 1.
Definition VehiclePosition_IN_TRANSIT_TO : Z := 2.

Module VehiclePosition.
Record t := mk {
  Trip : ptr TripDescriptor.t;
  Vehicle : ptr VehicleDescriptor.t;
  Position : ptr Position.t;
  CurrentStopSequence : ptr Z; (* uint32 *)
  StopId : ptr string;
  CurrentStatus : ptr Z;
  Timestamp : ptr Z; (* uint64 *)
}.
Definition GetTrip (x : ptr t) := x ≫= Trip.
Definition GetVehicle (x : ptr t) := x ≫= Vehicle.
Definition GetPosition (x : ptr t) := x ≫= Position.
Definition GetCurrentStopSequence (x : ptr t) : Z := default 0 (x ≫= CurrentStopSequence).
Definition GetStopId (x : ptr t) : string := default "" (x ≫= StopId).
(** [default = IN_TRANSIT_TO] in the .proto file. *)
Definition GetCurrentStatus (x : ptr t) : Z :=
  default VehiclePosition_IN_TRANSIT_TO (x ≫= CurrentStatus).
Definition GetTimestamp (x : ptr t) : Z := default 0 (x ≫= Timestamp).
#[global] Instance eq_dec : EqDecision t.
Proof. solve_decision. Defined.
End VehiclePosition.

Module FeedEntity.
Record t := mk { Id : ptr string; Vehicle : ptr VehiclePosition.t }.
Definition GetVehicle (x : ptr t) := x ≫= Vehicle.
#[global] Instance eq_dec : EqDecision t.
Proof. solve_decision. Defined.
End FeedEntity.

Module FeedHeader.
Record t := mk { Timestamp : ptr Z (* uint64 *) }.
Definition GetTimestamp (x : ptr t) : Z := default 0 (x ≫= Timestamp).
#[global] Instance eq_dec : EqDecision t.
Proof. solve_decision. Defined.
End FeedHeader.

Module FeedMessage.
Record t := mk { Header : ptr FeedHeader.t; Entity : list (ptr FeedEntity.t) }.
Definition GetEntity (x : ptr t) : list (ptr FeedEntity.t) := from_option Entity [] x.
#[global] Instance eq_dec : EqDecision t.
Proof. solve_decision. Defined.
End FeedMessage.
