(* ===== verification/Events.v ===== *)
(** * Event messages ([api/v1/events])

    The protobuf messages of [transit.proto] as [transit.pb.go] declares them,
    with their nil-safe getters, the values that travel on channels ([any]) and
    in state stores ([proto.Message]), and the protobuf library as a parameter. *)
From S2P Require Import Prelude GoTime Gtfs.

(** ** google.golang.org/protobuf *)

Module Timestamp.
Record t := mk { Seconds : Z; Nanos : Z }.
Definition GetSeconds (x : ptr t) : Z := from_option Seconds 0 x.
Definition GetNanos (x : ptr t) : Z := from_option Nanos 0 x.
#[global] Instance eq_dec : EqDecision t.
Proof. solve_decision. Defined.
End Timestamp.

(** ** Enumerations: int32 in Go, so a value outside the list is possible *)

Definition StopStatus_UNKNOWN : Z := 0.
Definition StopStatus_INCOMING_AT : Z := 1.
Definition StopStatus_STOPPED_AT : Z := 2.
Definition StopStatus_IN_TRANSIT_TO : Z := 3.

Definition StopEvent_UNKNOWN : Z := 0.
Definition StopEvent_ARRIVAL : Z := 1.
Definition StopEvent_DEPARTURE : Z := 2.

(** [StopStatus_name] and [StopEvent_EventType_name]. *)
Definition StopStatus_name (n : Z) : option string :=
  match n with
  | 0 => Some "UNKNOWN" | 1 => Some "INCOMING_AT"
  | 2 => Some "STOPPED_AT" | 3 => Some "IN_TRANSIT_TO"
  | _ => None
  end.
Definition StopEvent_EventType_name (n : Z) : option string :=
  match n with
  | 0 => Some "UNKNOWN" | 1 => Some "ARRIVAL" | 2 => Some "DEPARTURE"
  | _ => None
  end.

(** ** Messages *)

Module EventAttributes.
Record t := mk {
  AgencyId : string;
  VehicleId : string;
  RouteId : string;
  StopId : string;
  OriginStopId : string;
  DestinationStopId : string;
  DirectionId : string;
  Direction : string;
  DirectionDestination : string;
  ParentStation : string;
  StopSequence : Z;
  StopStatus : Z;
  TripId : string;
  ServiceDate : string;
  Timestamp : ptr Timestamp.t;
}.

(** [&EventAttributes{}] *)
Definition zero : t := mk "" "" "" "" "" "" "" "" "" "" 0 StopStatus_UNKNOWN "" "" None.

Definition GetAgencyId (x : ptr t) : string := from_option AgencyId "" x.
Definition GetVehicleId (x : ptr t) : string := from_option VehicleId "" x.
Definition GetRouteId (x : ptr t) : string := from_option RouteId "" x.
Definition GetStopId (x : ptr t) : string := from_option StopId "" x.
Definition GetOriginStopId (x : ptr t) : string := from_option OriginStopId "" x.
Definition GetDestinationStopId (x : ptr t) : string := from_option DestinationStopId "" x.
Definition GetDirectionId (x : ptr t) : string := from_option DirectionId "" x.
Definition GetDirection (x : ptr t) : string := from_option Direction "" x.
Definition GetDirectionDestination (x : ptr t) : string := from_option DirectionDestination "" x.
Definition GetParentStation (x : ptr t) : string := from_option ParentStation "" x.
Definition GetStopSequence (x : ptr t) : Z := from_option StopSequence 0 x.
Definition GetStopStatus (x : ptr t) : Z := from_option StopStatus StopStatus_UNKNOWN x.
Definition GetTripId (x : ptr t) : string := from_option TripId "" x.
Definition GetServiceDate (x : ptr t) : string := from_option ServiceDate "" x.
Definition GetTimestamp (x : ptr t) : ptr Timestamp.t := x ≫= Timestamp.
#[global] Instance eq_dec : EqDecision t.
Proof. solve_decision. Defined.
End EventAttributes.

Module FeedMessageEvent.
Record t := mk { AgencyId : string; FeedMessage : ptr FeedMessage.t }.
Definition GetAgencyId (x : ptr t) : string := from_option AgencyId "" x.
Definition GetFeedMessage (x : ptr t) : ptr FeedMessage.t := x ≫= FeedMessage.
#[global] Instance eq_dec : EqDecision t.
Proof. solve_decision. Defined.
End FeedMessageEvent.

Module VehiclePositionEvent.
Record t := mk {
  Attributes : ptr EventAttributes.t;
  Latitude : float64;
  Longitude : float64;
}.
Definition zero : t := mk None (S754_zero false) (S754_zero false).
Definition GetAttributes (x : ptr t) : ptr EventAttributes.t := x ≫= Attributes.
Definition GetLatitude (x : ptr t) : float64 := from_option Latitude (S754_zero false) x.
Definition GetLongitude (x : ptr t) : float64 := from_option Longitude (S754_zero false) x.
#[global] Instance eq_dec : EqDecision t.
Proof. solve_decision. Defined.
End VehiclePositionEvent.

Module StopEvent.
Record t := mk { Attributes : ptr EventAttributes.t; StopEventType : Z }.
Definition zero : t := mk None StopEvent_UNKNOWN.
Definition GetAttributes (x : ptr t) : ptr EventAttributes.t := x ≫= Attributes.
Definition GetStopEventType (x : ptr t) : Z := from_option StopEventType StopEvent_UNKNOWN x.
#[global] Instance eq_dec : EqDecision t.
Proof. solve_decision. Defined.
End StopEvent.

Module DwellTimeEvent.
Record t := mk {
  Attributes : ptr EventAttributes.t;
  ArrivalTime : ptr Timestamp.t;
  DepartureTime : ptr Timestamp.t;
  DwellTimeSeconds : Z;
}.
Definition GetAttributes (x : ptr t) : ptr EventAttributes.t := x ≫= Attributes.
Definition GetArrivalTime (x : ptr t) : ptr Timestamp.t := x ≫= ArrivalTime.
Definition GetDepartureTime (x : ptr t) : ptr Timestamp.t := x ≫= DepartureTime.
Definition GetDwellTimeSeconds (x : ptr t) : Z := from_option DwellTimeSeconds 0 x.
#[global] Instance eq_dec : EqDecision t.
Proof. solve_decision. Defined.
End DwellTimeEvent.

Module TravelTimeEvent.
Record t := mk {
  Attributes : ptr EventAttributes.t;
  StartTime : ptr Timestamp.t;
  EndTime : ptr Timestamp.t;
  TravelTimeSeconds : Z;
}.
Definition GetAttributes (x : ptr t) : ptr EventAttributes.t := x ≫= Attributes.
Definition GetStartTime (x : ptr t) : ptr Timestamp.t := x ≫= StartTime.
Definition GetEndTime (x : ptr t) : ptr Timestamp.t := x ≫= EndTime.
Definition GetTravelTimeSeconds (x : ptr t) : Z := from_option TravelTimeSeconds 0 x.
#[global] Instance eq_dec : EqDecision t.
Proof. solve_decision. Defined.
End TravelTimeEvent.

Module HeadwayTimeEvent.
Record t := mk {
  Attributes : ptr EventAttributes.t;
  LeadingVehicleId : string;
  FollowingVehicleId : string;
  HeadwaySeconds : Z;
}.
Definition GetAttributes (x : ptr t) : ptr EventAttributes.t := x ≫= Attributes.
Definition GetLeadingVehicleId (x : ptr t) : string := from_option LeadingVehicleId "" x.
Definition GetFollowingVehicleId (x : ptr t) : string := from_option FollowingVehicleId "" x.
Definition GetHeadwaySeconds (x : ptr t) : Z := from_option HeadwaySeconds 0 x.
#[global] Instance eq_dec : EqDecision t.
Proof. solve_decision. Defined.
End HeadwayTimeEvent.

(** ** Interface values *)

(** A non-nil [proto.Message]: a typed pointer, which may itself be nil. *)
Inductive Message :=
| msg_gtfs_FeedMessage (p : ptr FeedMessage.t)
| msg_FeedMessageEvent (p : ptr FeedMessageEvent.t)
| msg_VehiclePositionEvent (p : ptr VehiclePositionEvent.t)
| msg_StopEvent (p : ptr StopEvent.t)
| msg_DwellTimeEvent (p : ptr DwellTimeEvent.t)
| msg_TravelTimeEvent (p : ptr TravelTimeEvent.t)
| msg_HeadwayTimeEvent (p : ptr HeadwayTimeEvent.t).

(** Does the message implement [events.Event], with methods [GetAttributes] and
    [GetValues] of the right types?  [*FeedMessageEvent] does not. *)
Definition is_Event (m : Message) : bool :=
  match m with
  | msg_gtfs_FeedMessage _ | msg_FeedMessageEvent _ => false
  | _ => true
  end.

(** [e.GetAttributes()] of an [events.Event]. *)
Definition Event_GetAttributes (m : Message) : ptr EventAttributes.t :=
  match m with
  | msg_gtfs_FeedMessage _ | msg_FeedMessageEvent _ => None
  | msg_VehiclePositionEvent p => VehiclePositionEvent.GetAttributes p
  | msg_StopEvent p => StopEvent.GetAttributes p
  | msg_DwellTimeEvent p => DwellTimeEvent.GetAttributes p
  | msg_TravelTimeEvent p => TravelTimeEvent.GetAttributes p
  | msg_HeadwayTimeEvent p => HeadwayTimeEvent.GetAttributes p
  end.

(** [strings.TrimPrefix(fmt.Sprintf("%T", e), "*events.")] *)
Definition type_name (m : Message) : string :=
  match m with
  | msg_gtfs_FeedMessage _ => "*gtfs.FeedMessage"
  | msg_FeedMessageEvent _ => "FeedMessageEvent"
  | msg_VehiclePositionEvent _ => "VehiclePositionEvent"
  | msg_StopEvent _ => "StopEvent"
  | msg_DwellTimeEvent _ => "DwellTimeEvent"
  | msg_TravelTimeEvent _ => "TravelTimeEvent"
  | msg_HeadwayTimeEvent _ => "HeadwayTimeEvent"
  end.

(** [x.String()] of the enumerations: the name, or the number without one. *)
Definition StopEvent_EventType_String (n : Z) : string := default (itoa n) (StopEvent_EventType_name n).
Definition StopStatus_String (n : Z) : string := default (itoa n) (StopStatus_name n).

(** The dynamic type of a message. *)
Inductive kind :=
| K_gtfs_FeedMessage | K_FeedMessageEvent | K_VehiclePositionEvent | K_StopEvent
| K_DwellTimeEvent | K_TravelTimeEvent | K_HeadwayTimeEvent.

Definition kind_of (m : Message) : kind :=
  match m with
  | msg_gtfs_FeedMessage _ => K_gtfs_FeedMessage
  | msg_FeedMessageEvent _ => K_FeedMessageEvent
  | msg_VehiclePositionEvent _ => K_VehiclePositionEvent
  | msg_StopEvent _ => K_StopEvent
  | msg_DwellTimeEvent _ => K_DwellTimeEvent
  | msg_TravelTimeEvent _ => K_TravelTimeEvent
  | msg_HeadwayTimeEvent _ => K_HeadwayTimeEvent
  end.

(** A value of type [any] as it travels on the channels; [any_other] is a value
    of a type none of the components asks for. *)
Inductive any :=
| any_nil
| any_bytes (b : list Byte.byte)
| any_msg (m : Message)
| any_other (type_name : string).

(** [event, ok := msg.(events.Event)] *)
Definition as_Event (x : any) : option Message :=
  match x with
  | any_msg m => if is_Event m then Some m else None
  | _ => None
  end.

#[export] Instance kind_eq_dec : EqDecision kind.
Proof. solve_decision. Defined.
#[export] Instance Message_eq_dec : EqDecision Message.
Proof. solve_decision. Defined.
#[export] Instance byte_eq_dec : EqDecision Byte.byte.
Proof. exact Byte.byte_eq_dec. Defined.

(** A freshly allocated message of each type ([&pb.StopEvent{}], ...). *)
Definition zero_of (kd : kind) : Message :=
  match kd with
  | K_gtfs_FeedMessage => msg_gtfs_FeedMessage (Some (FeedMessage.mk None []))
  | K_FeedMessageEvent => msg_FeedMessageEvent (Some (FeedMessageEvent.mk "" None))
  | K_VehiclePositionEvent => msg_VehiclePositionEvent (Some VehiclePositionEvent.zero)
  | K_StopEvent => msg_StopEvent (Some StopEvent.zero)
  | K_DwellTimeEvent => msg_DwellTimeEvent (Some (DwellTimeEvent.mk None None None 0))
  | K_TravelTimeEvent => msg_TravelTimeEvent (Some (TravelTimeEvent.mk None None None 0))
  | K_HeadwayTimeEvent => msg_HeadwayTimeEvent (Some (HeadwayTimeEvent.mk None "" "" 0))
  end.

Lemma kind_of_zero kd : kind_of (zero_of kd) = kd.
Proof. by destruct kd. Qed.

(** ** The protobuf runtime, which is not part of the repository *)

Class ProtoLib := {
  (** [ts.AsTime()] and [timestamppb.New(t)] *)
  AsTime : ptr Timestamp.t → Time;
  timestamppb_New : Time → Timestamp.t;
  (** [proto.Marshal(m)] and [proto.Unmarshal(b, new)]: bytes or an error, a
      message of the dynamic type of [new] or an error. *)
  Marshal : option Message → list Byte.byte + error;
  Unmarshal : list Byte.byte → Message → Message + error;
}.

(** What its documentation promises and the program relies on. *)
Class ProtoLibOk `{!ProtoLib} : Prop := {
  AsTime_unix : ∀ ts, AsTime ts = Unix (Timestamp.GetSeconds ts) (Timestamp.GetNanos ts);
  timestamppb_New_unix : ∀ t, timestamppb_New t = Timestamp.mk (Time_Unix t) (Time_Nanosecond t);
  Unmarshal_kind : ∀ b n m, Unmarshal b n = inl m → kind_of m = kind_of n;
  (** [Unmarshal] resets its target first. *)
  Unmarshal_reset : ∀ b n n', kind_of n = kind_of n' → Unmarshal b n = Unmarshal b n';
}.

(** The documented behaviour on timestamps, with no wire format: the library
    against which the concrete runs of the development are evaluated. *)
Definition unix_lib : ProtoLib := {|
  AsTime ts := Unix (Timestamp.GetSeconds ts) (Timestamp.GetNanos ts);
  timestamppb_New t := Timestamp.mk (Time_Unix t) (Time_Nanosecond t);
  Marshal _ := inr "no wire format";
  Unmarshal _ _ := inr "no wire format";
|}.

Lemma unix_lib_ok : @ProtoLibOk unix_lib.
Proof. by split. Qed.

(** A library whose wire format covers a table of messages, one byte each: the
    library of the concrete runs that go through an encoding. *)
Definition table_lib (table : list (Byte.byte * Message)) : ProtoLib := {|
  AsTime := @AsTime unix_lib;
  timestamppb_New := @timestamppb_New unix_lib;
  Marshal m :=
    match head (filter (λ c, m = Some c.2) table) with
    | Some (b, _) => inl [b]
    | None => inr "not in the table"
    end;
  Unmarshal bs n :=
    match head (filter (λ c, bs = [c.1]) table) with
    | Some (_, m) => if decide (kind_of m = kind_of n) then inl m else inr "wrong type"
    | None => inr "not in the table"
    end;
|}.

Lemma table_lib_ok table : @ProtoLibOk (table_lib table).
Proof.
  split; try done; cbn; intros bs n n'; destruct (head _) as [[b m]|]; try done.
  - case_decide; [|done]. by intros [= <-].
  - by intros ->.
Qed.

(** It decodes what it encoded. *)
Lemma table_roundtrip table m n b :
  NoDup table.*1 → kind_of m = kind_of n →
  @Marshal (table_lib table) (Some m) = inl b → @Unmarshal (table_lib table) b n = inl m.
Proof.
  intros Hnd Hk. cbn. intros Hm.
  destruct (filter (λ c, Some m = Some c.2) table) as [|[b' m'] l] eqn:Hf; [done|].
  cbn in Hm. injection Hm as <-.
  assert ((b', m') ∈ table ∧ m = m') as [Hin ->].
  { assert ((b', m') ∈ filter (λ c, Some m = Some c.2) table) as Hin by (rewrite Hf; apply list_elem_of_here).
    apply list_elem_of_filter in Hin as [[= ->] Hin]. done. }
  assert (filter (λ c : Byte.byte * Message, [b'] = [c.1]) table = [(b', m')]) as ->.
  { clear Hf. induction table as [|[b0 m0] table IH]; [by apply not_elem_of_nil in Hin|].
    apply NoDup_cons in Hnd as [Hb0 Hnd]. cbn in Hb0.
    destruct (decide (b' = b0)) as [<-|Hne].
    - rewrite filter_cons_True by done. apply elem_of_cons in Hin as [[= <-]|Hin].
      + f_equal. apply elem_of_nil_inv. intros [b1 m1] [[= <-] Hin]%list_elem_of_filter.
        apply Hb0, list_elem_of_fmap. by exists (b', m1).
      + exfalso. apply Hb0, list_elem_of_fmap. by exists (b', m').
    - rewrite filter_cons_False by (cbn; congruence). apply IH; [done|].
      apply elem_of_cons in Hin as [[= -> _]|Hin]; [done|done]. }
  cbn. by rewrite decide_True.
Qed.

(** Sample messages for concrete runs. *)
Definition sample_attributes (vehicle stop : string) (status secs : Z) : EventAttributes.t := {|
  EventAttributes.AgencyId := "MBTA";
  EventAttributes.VehicleId := vehicle;
  EventAttributes.RouteId := "Red";
  EventAttributes.StopId := stop;
  EventAttributes.OriginStopId := "";
  EventAttributes.DestinationStopId := "";
  EventAttributes.DirectionId := "0";
  EventAttributes.Direction := "";
  EventAttributes.DirectionDestination := "";
  EventAttributes.ParentStation := "";
  EventAttributes.StopSequence := 5;
  EventAttributes.StopStatus := status;
  EventAttributes.TripId := "t1";
  EventAttributes.ServiceDate := "20240101";
  EventAttributes.Timestamp := Some (Timestamp.mk secs 0);
|}.

Definition sample_vp (vehicle stop : string) (status secs : Z) : any :=
  any_msg (msg_VehiclePositionEvent (Some (VehiclePositionEvent.mk
    (Some (sample_attributes vehicle stop status secs)) (S754_zero false) (S754_zero false)))).

Definition sample_stop (vehicle stop : string) (ty secs : Z) : any :=
  any_msg (msg_StopEvent (Some (StopEvent.mk
    (Some (sample_attributes vehicle stop StopStatus_STOPPED_AT secs)) ty))).
