(* ===== verification/EventMap.v ===== *)
(** * Events as maps ([api/v1/events/events.go])

    The maps of attributes and values that the event server sends and the
    console sink logs, with the values printed as [%v] does. *)
From S2P Require Import Prelude GoTime Fmt Gtfs Events.

(** The values of a [map[string]any] that [events.go] makes. *)
Inductive value :=
| V_string (s : string)
| V_int32 (n : Z)
| V_int64 (n : Z)
| V_uint64 (n : Z)
| V_float64 (f : float64)
| V_StopStatus (n : Z)
| V_Time (t : Time).

#[export] Instance value_eq_dec : EqDecision value.
Proof. solve_decision. Defined.

(** [fmt.Sprintf("%v", v)] *)
Definition Sprintf_v (v : value) : string :=
  match v with
  | V_string s => s
  | V_int32 n | V_int64 n | V_uint64 n => itoa n
  | V_float64 f => Fmt.float64_v f
  | V_StopStatus n => StopStatus_String n
  | V_Time t => Fmt.Time_String t
  end.

Abbreviation event_map := (gmap string value).

Section maps.
Context `{!ProtoLib}.

Definition GetEventAttributesMap (e : Message) : event_map :=
  let a := Event_GetAttributes e in
  list_to_map
    [("event_type", V_string (type_name e));
     ("agency_id", V_string (EventAttributes.GetAgencyId a));
     ("vehicle_id", V_string (EventAttributes.GetVehicleId a));
     ("route_id", V_string (EventAttributes.GetRouteId a));
     ("stop_id", V_string (EventAttributes.GetStopId a));
     ("origin_stop_id", V_string (EventAttributes.GetOriginStopId a));
     ("destination_stop_id", V_string (EventAttributes.GetDestinationStopId a));
     ("direction_id", V_string (EventAttributes.GetDirectionId a));
     ("direction", V_string (EventAttributes.GetDirection a));
     ("direction_destination", V_string (EventAttributes.GetDirectionDestination a));
     ("parent_station", V_string (EventAttributes.GetParentStation a));
     ("stop_sequence", V_int32 (EventAttributes.GetStopSequence a));
     ("stop_status", V_StopStatus (EventAttributes.GetStopStatus a));
     ("trip_id", V_string (EventAttributes.GetTripId a));
     ("service_date", V_string (EventAttributes.GetServiceDate a));
     ("timestamp", V_Time (AsTime (EventAttributes.GetTimestamp a)))].

(** The methods [GetValues]. *)
Definition VehiclePositionEvent_GetValues (e : ptr VehiclePositionEvent.t) : event_map :=
  list_to_map
    [("latitude", V_float64 (VehiclePositionEvent.GetLatitude e));
     ("longitude", V_float64 (VehiclePositionEvent.GetLongitude e))].

Definition StopEvent_GetValues (e : ptr StopEvent.t) : event_map :=
  {["stop_event_type" := V_string (StopEvent_EventType_String (StopEvent.GetStopEventType e))]}.

Definition DwellTimeEvent_GetValues (e : ptr DwellTimeEvent.t) : event_map :=
  list_to_map
    [("arrival_time", V_int64 (Time_Unix (AsTime (DwellTimeEvent.GetArrivalTime e))));
     ("departure_time", V_int64 (Time_Unix (AsTime (DwellTimeEvent.GetDepartureTime e))));
     ("dwell_time_seconds", V_int32 (DwellTimeEvent.GetDwellTimeSeconds e))].

Definition HeadwayTimeEvent_GetValues (e : ptr HeadwayTimeEvent.t) : event_map :=
  list_to_map
    [("leading_vehicle_id", V_string (HeadwayTimeEvent.GetLeadingVehicleId e));
     ("following_vehicle_id", V_string (HeadwayTimeEvent.GetFollowingVehicleId e));
     ("headway_time_seconds", V_int32 (HeadwayTimeEvent.GetHeadwaySeconds e))].

Definition TravelTimeEvent_GetValues (e : ptr TravelTimeEvent.t) : event_map :=
  list_to_map
    [("start_time", V_int64 (Time_Unix (AsTime (TravelTimeEvent.GetStartTime e))));
     ("end_time", V_int64 (Time_Unix (AsTime (TravelTimeEvent.GetEndTime e))));
     ("travel_time_seconds", V_int32 (TravelTimeEvent.GetTravelTimeSeconds e))].

(** [FeedMessageEvent.GetAttributes], which reads fields through pointers that may
    be nil: [None] when it panics.  It is not the method of [events.Event], which
    gives an [*EventAttributes], so that a FeedMessageEvent is no [Event]. *)
Definition FeedMessageEvent_GetAttributes (e : ptr FeedMessageEvent.t) : option event_map :=
  e ← e; m ← FeedMessageEvent.FeedMessage e;
  Some (list_to_map
    [("agency_id", V_string (FeedMessageEvent.AgencyId e));
     ("timestamp", V_uint64 (FeedHeader.GetTimestamp (FeedMessage.Header m)))]).

(** [e.GetValues()] of an [events.Event]. *)
Definition GetEventValuesMap (e : Message) : event_map :=
  match e with
  | msg_gtfs_FeedMessage _ | msg_FeedMessageEvent _ => ∅
  | msg_VehiclePositionEvent p => VehiclePositionEvent_GetValues p
  | msg_StopEvent p => StopEvent_GetValues p
  | msg_DwellTimeEvent p => DwellTimeEvent_GetValues p
  | msg_TravelTimeEvent p => TravelTimeEvent_GetValues p
  | msg_HeadwayTimeEvent p => HeadwayTimeEvent_GetValues p
  end.

(** Both maps are copied, the values over the attributes. *)
Definition GetEventMap (e : Message) : event_map :=
  GetEventValuesMap e ∪ GetEventAttributesMap e.

(** No value hides an attribute. *)
Lemma values_attributes_disjoint e : GetEventValuesMap e ##ₘ GetEventAttributesMap e.
Proof.
  apply map_disjoint_alt. intros k.
  destruct (GetEventValuesMap e !! k) as [v|] eqn:Hv; [right|by left].
  apply not_elem_of_list_to_map_1. apply (elem_of_dom_2 (D := gset string)) in Hv.
  destruct e; cbn in Hv; unfold VehiclePositionEvent_GetValues, StopEvent_GetValues,
    DwellTimeEvent_GetValues, TravelTimeEvent_GetValues, HeadwayTimeEvent_GetValues in Hv;
    cbn in Hv; rewrite ?dom_insert_L, ?dom_singleton_L, ?dom_empty_L in Hv.
  all: intros Hk; set_unfold in Hv; destruct_or?; subst; try done;
    cbn in Hk; rewrite !elem_of_cons, elem_of_nil in Hk; intuition congruence.
Qed.

Lemma GetEventMap_attribute e k v :
  GetEventAttributesMap e !! k = Some v → GetEventMap e !! k = Some v.
Proof.
  intros Hk. unfold GetEventMap. apply lookup_union_Some; [apply values_attributes_disjoint|].
  by right.
Qed.

Lemma GetEventMap_value e k v :
  GetEventValuesMap e !! k = Some v → GetEventMap e !! k = Some v.
Proof. apply lookup_union_Some_l. Qed.
End maps.
