(* ===== verification/StateStore.v ===== *)
(** * State stores ([statestore])

    The [StateStore] interface as a class of operations, the contract its
    clients rely on as a class of laws, and the two implementations: the
    in-memory map with its sweeper and the Redis-backed store. *)
From S2P Require Import Prelude Runs GoTime Events.

(** ** The interface

    [now] is the reading of the clock during the operation, in nanoseconds of
    the monotonic clock. *)
Class StateStore (S : Type) := {
  Get : Z → string → (unit → option Message) → S → option Message * bool;
  Set_ : Z → string → option Message → Z → S → option error * S;
  Delete : Z → string → S → S;
}.

(** ** The contract

    A store used for messages of one dynamic type [kd] only behaves like a map
    from keys to messages with a deadline: [live now k st] is what the store
    holds under [k] at [now]. *)
Class StateStoreOk (S : Type) `{!StateStore S} (kd : kind) := {
  store_inv : S → Prop;
  storable : Message → Prop;
  live : Z → string → S → option Message;
  deadline : Z → Z → Z;
  live_kind : ∀ st now k m,
    store_inv st → live now k st = Some m → kind_of m = kd;
  live_mono : ∀ st now now' k m,
    store_inv st → now ≤ now' → live now' k st = Some m → live now k st = Some m;
  Get_spec : ∀ st now k new m0,
    store_inv st → new tt = Some m0 → kind_of m0 = kd →
    Get now k new st =
      match live now k st with Some m => (Some m, true) | None => (Some m0, false) end;
  Set_spec : ∀ st now k m ttl,
    store_inv st → kind_of m = kd → storable m → 0 < ttl →
    ∃ st', Set_ now k (Some m) ttl st = (None, st') ∧ store_inv st' ∧
      ∀ now' k', now ≤ now' →
        live now' k' st' =
          if decide (k' = k)
          then (if decide (now' ≤ deadline now ttl) then Some m else None)
          else live now' k' st;
  Delete_spec : ∀ st now k,
    store_inv st →
    store_inv (Delete now k st) ∧
    ∀ now' k', now ≤ now' →
      live now' k' (Delete now k st) = if decide (k' = k) then None else live now' k' st;
}.

(** ** The in-memory store ([in_memory_store.go]) *)

Module InMemory.

Record InMemoryState := mkState {
  msg : option Message;
  expiration : Z;
}.

Record InMemoryStateStore := mkStore {
  ttl : Z;
  states : gmap string InMemoryState;
  done_closed : bool;
}.

Record InMemoryStateStoreConfig := mkConfig { Expiry : Z }.

Definition NewInMemoryStateStore (config : InMemoryStateStoreConfig) : InMemoryStateStore :=
  let expiry := if decide (Expiry config = 0) then Hour else Expiry config in
  mkStore expiry ∅ false.

Definition get (now : Z) (key : string) (new : unit → option Message)
    (s : InMemoryStateStore) : option Message * bool :=
  match states s !! key with
  | Some state =>
      if decide (expiration state < now) then (new tt, false) else (msg state, true)
  | None => (new tt, false)
  end.

Definition set (now : Z) (key : string) (m : option Message) (ttl0 : Z)
    (s : InMemoryStateStore) : option error * InMemoryStateStore :=
  let ttl1 := if decide (ttl0 = 0) then ttl s else ttl0 in
  (None, mkStore (ttl s) (<[key := mkState m (now + ttl1)]> (states s)) (done_closed s)).

Definition delete (now : Z) (key : string) (s : InMemoryStateStore) : InMemoryStateStore :=
  mkStore (ttl s) (base.delete key (states s)) (done_closed s).

(** [close(s.done)] panics on a closed channel: [None]. *)
Definition close (s : InMemoryStateStore) : option InMemoryStateStore :=
  if done_closed s then None else Some (mkStore (ttl s) (states s) true).

(** The period of the sweeper's ticker. *)
Definition sweepInterval (s : InMemoryStateStore) : Z :=
  let i := Z.quot (ttl s) 10 in
  if decide (i < 10 * Second) then 10 * Second else i.

(** One tick of [expire]: drop the entries whose expiration is before [now]. *)
Definition sweep (now : Z) (s : InMemoryStateStore) : InMemoryStateStore :=
  mkStore (ttl s) (filter (λ kv, ¬ expiration kv.2 < now) (states s)) (done_closed s).

#[export] Instance in_memory : StateStore InMemoryStateStore :=
  {| Get := get; Set_ := set; Delete := delete |}.

(** What is stored under [k] and not expired at [now]. *)
Definition visible (now : Z) (k : string) (s : InMemoryStateStore) : option Message :=
  match states s !! k with
  | Some st => if decide (expiration st < now) then None else msg st
  | None => None
  end.

(** Every stored message is a [kd]. *)
Definition homogeneous (kd : kind) (s : InMemoryStateStore) : Prop :=
  map_Forall (λ _ st, ∃ m, msg st = Some m ∧ kind_of m = kd) (states s).

Section laws.
  Context (kd : kind).
  Implicit Types s : InMemoryStateStore.

Lemma visible_kind s now k m :
  homogeneous kd s → visible now k s = Some m → kind_of m = kd.
Proof.
  intros Hs. unfold visible. destruct (states s !! k) as [st|] eqn:Hk; [|done].
  destruct (Hs k st Hk) as (m' & -> & <-). by case_decide; intros; simplify_eq.
Qed.

Lemma get_visible s now k new m0 :
  homogeneous kd s → new tt = Some m0 →
  get now k new s =
    match visible now k s with Some m => (Some m, true) | None => (Some m0, false) end.
Proof.
  intros Hs Hnew. unfold get, visible. rewrite Hnew.
  destruct (states s !! k) as [st|] eqn:Hk; [|done].
  destruct (Hs k st Hk) as (m' & -> & _). by case_decide.
Qed.

Lemma visible_mono s now now' k m :
  now ≤ now' → visible now' k s = Some m → visible now k s = Some m.
Proof.
  unfold visible. destruct (states s !! k) as [st|]; [|done].
  intros. repeat case_decide; try done. lia.
Qed.

Lemma set_homogeneous s now k m ttl0 :
  homogeneous kd s → kind_of m = kd → homogeneous kd (set now k (Some m) ttl0 s).2.
Proof. intros Hs Hm. apply map_Forall_insert_2; eauto. Qed.

Lemma visible_set s now k m ttl0 now' k' :
  ttl0 ≠ 0 →
  visible now' k' (set now k (Some m) ttl0 s).2 =
    if decide (k' = k)
    then (if decide (now' ≤ now + ttl0) then Some m else None)
    else visible now' k' s.
Proof.
  intros Ht. unfold visible, set. cbn. rewrite decide_False by done.
  destruct (decide (k' = k)) as [->|Hne].
  - rewrite lookup_insert_eq. cbn. repeat case_decide; auto; lia.
  - by rewrite lookup_insert_ne.
Qed.

Lemma delete_homogeneous s now k : homogeneous kd s → homogeneous kd (delete now k s).
Proof. intros Hs. by apply map_Forall_delete. Qed.

Lemma visible_delete s now k now' k' :
  visible now' k' (delete now k s) = if decide (k' = k) then None else visible now' k' s.
Proof.
  unfold visible, delete. cbn. case_decide; simplify_map_eq; done.
Qed.

Lemma visible_new config now k : visible now k (NewInMemoryStateStore config) = None.
Proof. unfold visible, NewInMemoryStateStore. cbn. by simplify_map_eq. Qed.

Lemma new_homogeneous config : homogeneous kd (NewInMemoryStateStore config).
Proof. apply map_Forall_empty. Qed.
End laws.

#[export] Program Instance in_memory_ok kd : StateStoreOk InMemoryStateStore kd := {|
  store_inv := homogeneous kd;
  storable := λ _, True;
  live := visible;
  deadline := λ now ttl, now + ttl;
|}.
Next Obligation. eauto using visible_kind. Qed.
Next Obligation. eauto using visible_mono. Qed.
Next Obligation. intros. by eapply get_visible. Qed.
Next Obligation.
  intros kd st now k m ttl0 Hs Hm _ Ht. eexists. split; [done|]. split.
  - by apply set_homogeneous.
  - intros now' k' _. apply visible_set. lia.
Qed.
Next Obligation.
  intros kd st now k Hs. split; [by apply delete_homogeneous|].
  intros. apply visible_delete.
Qed.

End InMemory.

(** ** The sweeper runs concurrently with the clients

    A schedule interleaves the calls of the clients with ticks of the sweeper;
    the mutex makes each of them atomic. *)
Module Sweeper.
Import InMemory.

Inductive call :=
| c_Get (now : Z) (k : string) (new : unit → option Message)
| c_Set (now : Z) (k : string) (m : option Message) (ttl0 : Z)
| c_Delete (now : Z) (k : string)
| c_sweep (now : Z).

Definition time_of (c : call) : Z :=
  match c with c_Get t _ _ | c_Set t _ _ _ | c_Delete t _ | c_sweep t => t end.

Definition is_sweep (c : call) : bool := if c is c_sweep _ then true else false.

(** The replies the clients see, in order. *)
Fixpoint replies (cs : list call) (s : InMemoryStateStore)
    : list (option Message * bool) :=
  match cs with
  | [] => []
  | c_Get t k new :: cs => get t k new s :: replies cs s
  | c_Set t k m ttl0 :: cs => replies cs (set t k m ttl0 s).2
  | c_Delete t k :: cs => replies cs (delete t k s)
  | c_sweep t :: cs => replies cs (sweep t s)
  end.

(** Calls happen at non-decreasing times from [t] on. *)
Fixpoint ordered (t : Z) (cs : list call) : Prop :=
  match cs with
  | [] => True
  | c :: cs => t ≤ time_of c ∧ ordered (time_of c) cs
  end.

(** [s] is [s'] less some entries that expired before [t]. *)
Definition swept (t : Z) (s s' : InMemoryStateStore) : Prop :=
  ttl s = ttl s' ∧
  ∀ k, states s !! k = states s' !! k ∨
       states s !! k = None ∧ ∃ st, states s' !! k = Some st ∧ expiration st < t.

Lemma swept_refl t s : swept t s s.
Proof. split; auto. Qed.

Lemma swept_mono t t' s s' : t ≤ t' → swept t s s' → swept t' s s'.
Proof.
  intros Ht [? Hs]. split; [done|]. intros k.
  destruct (Hs k) as [|(? & st & ? & ?)]; [by left|right]. eauto with lia.
Qed.

Lemma swept_get t k new s s' : swept t s s' → get t k new s = get t k new s'.
Proof.
  intros [_ Hs]. unfold get. destruct (Hs k) as [->|(-> & st & -> & ?)]; [done|].
  by rewrite decide_True.
Qed.

Lemma swept_set t k m ttl0 s s' :
  swept t s s' → swept t (set t k m ttl0 s).2 (set t k m ttl0 s').2.
Proof.
  intros [Httl Hs]. split; [done|]. cbn. rewrite Httl. intros k'.
  destruct (decide (k = k')) as [->|]; [rewrite !lookup_insert_eq; auto|].
  rewrite !lookup_insert_ne by done. apply Hs.
Qed.

Lemma swept_delete t k s s' : swept t s s' → swept t (delete t k s) (delete t k s').
Proof.
  intros [Httl Hs]. split; [done|]. cbn. intros k'.
  destruct (decide (k = k')) as [->|]; [rewrite !lookup_delete_eq; auto|].
  rewrite !lookup_delete_ne by done. apply Hs.
Qed.

Lemma swept_sweep t s s' : swept t s s' → swept t (sweep t s) s'.
Proof.
  intros [Httl Hs]. split; [done|]. cbn. intros k.
  destruct (Hs k) as [Hk|(Hk & ?)].
  - destruct (states s !! k) as [st|] eqn:Hst.
    + destruct (decide (expiration st < t)).
      * right. split; [|by rewrite <- Hk; eauto].
        apply map_lookup_filter_None. right. intros ? ?. simplify_eq. cbn. lia.
      * left. rewrite <- Hk. by apply map_lookup_filter_Some.
    + left. rewrite <- Hk. apply map_lookup_filter_None. by left.
  - right. split; [|done]. apply map_lookup_filter_None. by left.
Qed.

Lemma replies_swept cs t s s' :
  ordered t cs → swept t s s' →
  replies cs s = replies (List.filter (λ c, negb (is_sweep c)) cs) s'.
Proof.
  revert t s s'. induction cs as [|c cs IH]; intros t s s' Ho Hs; [done|].
  destruct Ho as [Ht Ho]. apply (swept_mono _ (time_of c)) in Hs; [|done].
  destruct c; cbn in *.
  - rewrite (swept_get _ _ _ _ _ Hs). f_equal. by eapply IH.
  - eapply IH; [done|by apply swept_set].
  - eapply IH; [done|by apply swept_delete].
  - eapply IH; [done|by apply swept_sweep].
Qed.

(** The store after a history of calls. *)
Definition step (s : InMemoryStateStore) (c : call) : InMemoryStateStore :=
  match c with
  | c_Get _ _ _ => s
  | c_Set t k m ttl0 => (set t k m ttl0 s).2
  | c_Delete t k => delete t k s
  | c_sweep t => sweep t s
  end.

Definition after (cs : list call) (s : InMemoryStateStore) : InMemoryStateStore :=
  fold_left step cs s.

(** The last call that wrote under [k], newest first: the message and the time
    until which it is good, or nothing when it was a [Delete]. *)
Fixpoint last_write (expiry : Z) (k : string) (newest_first : list call)
    : option (option Message * Z) :=
  match newest_first with
  | [] => None
  | c_Set t k' m ttl0 :: cs =>
      if decide (k' = k) then Some (m, t + (if decide (ttl0 = 0) then expiry else ttl0))
      else last_write expiry k cs
  | c_Delete _ k' :: cs => if decide (k' = k) then None else last_write expiry k cs
  | _ :: cs => last_write expiry k cs
  end.

Lemma ordered_snoc t cs c :
  ordered t (cs ++ [c]) ↔ ordered t cs ∧ from_option time_of t (last cs) ≤ time_of c.
Proof.
  revert t. induction cs as [|c' cs IH]; intros t; cbn; [tauto|]. rewrite IH.
  change (match cs with [] => Some c' | _ => last cs end) with (last (c' :: cs)).
  rewrite last_cons. destruct (last cs); cbn; tauto.
Qed.

(** The entries of the store are the last writes, but for expired ones that
    were swept. *)
Definition holds (t expiry : Z) (newest_first : list call) (s : InMemoryStateStore) : Prop :=
  ttl s = expiry ∧
  ∀ k, match last_write expiry k newest_first with
       | Some (m, d) => states s !! k = Some (mkState m d) ∨ states s !! k = None ∧ d < t
       | None => states s !! k = None
       end.

Lemma holds_mono t t' e cs s : t ≤ t' → holds t e cs s → holds t' e cs s.
Proof.
  intros Ht [He Hs]. split; [done|]. intros k. specialize (Hs k).
  destruct (last_write e k cs) as [[m d]|]; [|done].
  destruct Hs as [|[? ?]]; [by left|right]. split; [done|lia].
Qed.

Lemma holds_step e cs s c :
  holds (time_of c) e cs s → holds (time_of c) e (c :: cs) (step s c).
Proof.
  intros [He Hs]. destruct c as [t k0 new|t k0 m ttl0|t k0|t]; cbn in *.
  - done.
  - split; [done|]. intros k. cbn. rewrite He. specialize (Hs k).
    destruct (decide (k0 = k)) as [->|]; [left; apply lookup_insert_eq|].
    by rewrite lookup_insert_ne.
  - split; [done|]. intros k. cbn. specialize (Hs k).
    destruct (decide (k0 = k)) as [->|]; [apply lookup_delete_eq|].
    by rewrite lookup_delete_ne.
  - split; [done|]. intros k. cbn. specialize (Hs k).
    destruct (last_write e k cs) as [[m d]|].
    + destruct Hs as [Hs|[Hs Hd]].
      * destruct (decide (d < t)) as [Hd|Hd].
        -- right. split; [|done]. apply map_lookup_filter_None. right.
           rewrite Hs. intros ? [= <-]. cbn. lia.
        -- left. by apply map_lookup_filter_Some.
      * right. split; [|done]. apply map_lookup_filter_None. by left.
    + apply map_lookup_filter_None. by left.
Qed.

Lemma after_snoc cs c s : after (cs ++ [c]) s = step (after cs s) c.
Proof. unfold after. by rewrite fold_left_app. Qed.

Lemma holds_after config t cs :
  ordered t cs →
  holds (from_option time_of t (last cs)) (ttl (NewInMemoryStateStore config))
    (rev cs) (after cs (NewInMemoryStateStore config)).
Proof.
  induction cs as [|c cs IH] using rev_ind; [done|].
  rewrite ordered_snoc, last_snoc, rev_app_distr, after_snoc. intros [Ho Ht]. cbn [from_option].
  apply holds_step. eapply holds_mono; [exact Ht|]. by apply IH.
Qed.

(** After any history of calls and ticks [Get] returns what was written last. *)
Theorem get_returns_last_write config t0 cs t k new :
  ordered t0 (cs ++ [c_Get t k new]) →
  get t k new (after cs (NewInMemoryStateStore config)) =
    match last_write (ttl (NewInMemoryStateStore config)) k (rev cs) with
    | Some (m, d) => if decide (d < t) then (new tt, false) else (m, true)
    | None => (new tt, false)
    end.
Proof.
  rewrite ordered_snoc. intros [Ho Ht].
  destruct (holds_after config t0 cs Ho) as [_ Hs]. specialize (Hs k). unfold get.
  destruct (last_write _ k (rev cs)) as [[m d]|]; [|by rewrite Hs].
  destruct Hs as [->|[-> Hd]]; [done|]. by rewrite decide_True by (cbn in Ht; lia).
Qed.

(** The sweeper is invisible and does its work: with ticks anywhere in a
    history the clients get the replies they get with none, and no entry that
    expired before a tick is left after it. *)
Theorem sweeper_invisible cs s t :
  ordered t cs →
  replies cs s = replies (List.filter (λ c, negb (is_sweep c)) cs) s ∧
  ∀ now k st, states (sweep now s) !! k = Some st → now ≤ expiration st.
Proof.
  intros Ho. split; [by eapply replies_swept, swept_refl|].
  intros now k st [_ Hst]%map_lookup_filter_Some. cbn in Hst. lia.
Qed.

(** The store expires entries after an hour unless configured otherwise,
    and sweeps at a tenth of that, but never more often than every ten seconds. *)
Theorem sweep_interval_bounds config :
  0 ≤ Expiry config →
  0 < ttl (NewInMemoryStateStore config) ∧
  10 * Second ≤ sweepInterval (NewInMemoryStateStore config) ∧
  sweepInterval (NewInMemoryStateStore config)
    ≤ Z.max (10 * Second) (ttl (NewInMemoryStateStore config)).
Proof.
  intros He. unfold sweepInterval, NewInMemoryStateStore. cbn.
  assert (0 < (if decide (Expiry config = 0) then Hour else Expiry config)) as Hp
    by (case_decide; [done|lia]).
  split; [done|]. set (e := if decide _ then _ else _) in *.
  rewrite Z.quot_div_nonneg by lia.
  assert (e `div` 10 ≤ e) by (apply Z.div_le_upper_bound; lia).
  case_decide; lia.
Qed.

(** Closing the store stops the sweeper; a second [Close] panics. *)
Lemma close_twice_panics config :
  ∃ s, close (NewInMemoryStateStore config) = Some s ∧ close s = None.
Proof. by eexists. Qed.

(** *** A concrete history *)

Definition sample_message : option Message := Some (zero_of K_StopEvent).
Definition fresh (_ : unit) : option Message := Some (zero_of K_DwellTimeEvent).

Definition sample_calls : list call := [
  c_Set 0 "a" sample_message Second; c_sweep (2 * Second); c_Set (3 * Second) "a" sample_message 0;
  c_sweep (4 * Second); c_Set (4 * Second) "b" sample_message 0; c_Delete (5 * Second) "b"].

Lemma get_returns_last_write_witness :
  get (6 * Second) "a" fresh (after sample_calls (NewInMemoryStateStore (mkConfig 0)))
    = (sample_message, true).
Proof.
  rewrite (get_returns_last_write (mkConfig 0) 0 sample_calls (6 * Second) "a" fresh); [done|].
  cbn. unfold Second. lia.
Defined.

Lemma sweeper_invisible_witness :
  replies sample_calls (NewInMemoryStateStore (mkConfig 0))
  = replies (List.filter (λ c, negb (is_sweep c)) sample_calls) (NewInMemoryStateStore (mkConfig 0)).
Proof. apply (sweeper_invisible sample_calls _ 0). cbn. unfold Second. lia. Defined.

Lemma sweep_interval_bounds_witness :
  10 * Second ≤ sweepInterval (NewInMemoryStateStore (mkConfig (60 * Minute))).
Proof. apply sweep_interval_bounds. vm_compute. discriminate. Defined.
End Sweeper.

(** ** The goroutine of the sweeper

    [expire] loops over the ticks until [done] is closed; the clients call the store
    meanwhile, and one of them closes it. *)
Module Expire.
Import InMemory Sweeper.

Record state := St {
  store : InMemoryStateStore;
  looping : bool;            (* has [expire] not returned? *)
  history : list call;       (* the calls and ticks so far *)
}.

Inductive step : state → state → Prop :=
| e_call c st l h :
    is_sweep c = false → step (St st l h) (St (Sweeper.step st c) l (h ++ [c]))
| e_Close st st' l h : close st = Some st' → step (St st l h) (St st' l h)
| e_tick now st h : step (St st true h) (St (sweep now st) true (h ++ [c_sweep now]))
| e_done st h : done_closed st = true → step (St st true h) (St st false h).

Definition start (config : InMemoryStateStoreConfig) : state :=
  St (NewInMemoryStateStore config) true [].

(** Closing changes no entry. *)
Definition same_entries (s s' : InMemoryStateStore) : Prop := ttl s = ttl s' ∧ states s = states s'.

Lemma same_step s s' c : same_entries s s' → same_entries (Sweeper.step s c) (Sweeper.step s' c).
Proof. intros [Ht Hs]. destruct c; split; cbn; by rewrite ?Ht, ?Hs. Qed.

Lemma expire_history config σ σ' :
  step σ σ' →
  same_entries (store σ) (after (history σ) (NewInMemoryStateStore config)) →
  same_entries (store σ') (after (history σ') (NewInMemoryStateStore config)).
Proof.
  destruct 1 as [c st l h _|st st' l h Hc|now st h|st h _]; cbn; rewrite ?after_snoc; try done.
  - apply same_step.
  - unfold close in Hc. case_match; simplify_eq. done.
  - apply (same_step _ _ (c_sweep now)).
Qed.

(** C21: Whatever calls of [Set], [Get], [Delete] and [Close] by concurrent clients
    and whatever ticks of the sweeper's goroutine came before, [Get] returns the
    message of the last [Set] under its key, if no [Delete] came after it and its
    time to live (the store's own when the [Set] gave none) has not passed, and
    otherwise a fresh message and [false]. *)
Theorem running_get_returns_last_write config σ t0 t k new :
  rtc step (start config) σ → ordered t0 (history σ ++ [c_Get t k new]) →
  get t k new (store σ) =
    match last_write (ttl (NewInMemoryStateStore config)) k (rev (history σ)) with
    | Some (m, d) => if decide (d < t) then (new tt, false) else (m, true)
    | None => (new tt, false)
    end.
Proof.
  intros Hr Ho.
  assert (same_entries (store σ) (after (history σ) (NewInMemoryStateStore config))) as [_ Hs]
    by (by apply (rtc_keeps step _ _ _ (expire_history config) Hr)).
  rewrite <- (get_returns_last_write config t0 _ t k new Ho). unfold get. by rewrite Hs.
Qed.

(** Once the store is closed the goroutine can return, and then it sweeps no more. *)
Lemma expire_returns σ :
  done_closed (store σ) = true → looping σ = true → ∃ σ', step σ σ' ∧ looping σ' = false.
Proof. destruct σ as [st l h]. cbn. intros Hd ->. eexists. by split; [apply e_done|]. Qed.

Lemma expire_stays σ σ' :
  rtc step σ σ' → looping σ = false →
  looping σ' = false ∧ ∃ cs, history σ' = history σ ++ cs ∧ Forall (λ c, is_sweep c = false) cs.
Proof.
  induction 1 as [σ|σ1 σ2 σ3 Hs _ IH]; intros Hl; [split; [done|]; exists []; by rewrite app_nil_r|].
  destruct Hs; cbn in *; try done.
  - destruct (IH Hl) as (? & cs & -> & ?). split; [done|]. eexists (c :: cs).
    by rewrite <- app_assoc; split; [|constructor].
  - by apply IH.
Qed.

(** *** A run: a value is set, the sweeper ticks, the store is closed *)
Definition sample_end : state :=
  St (mkStore Hour {["a" := mkState sample_message (3 * Second + Hour)]} true) true
    [c_Set (3 * Second) "a" sample_message 0; c_sweep (4 * Second)].

Lemma running_get_returns_last_write_witness :
  get (6 * Second) "a" fresh (store sample_end) = (sample_message, true).
Proof.
  rewrite (running_get_returns_last_write (mkConfig 0) sample_end 0 (6 * Second) "a" fresh); [done| |].
  - eapply rtc_l; [by apply (e_call (c_Set (3 * Second) "a" sample_message 0))|].
    eapply rtc_l; [apply (e_tick (4 * Second))|].
    eapply rtc_l; [by apply e_Close|]. apply rtc_refl.
  - cbn. unfold Second. lia.
Defined.
End Expire.

(** ** The Redis store ([redis_store.go]) *)

(** [redis.Options]: what a client is made from. *)
Record redis_Options := Options { Addr : string; Password : string; DB : Z }.

(** The go-redis client, a parameter: a new client with the server as it finds it,
    replies of [GET], [SET] with an expiration and [DEL] issued at [now], and
    [Close]. *)
Class RedisClient (R : Type) := {
  NewClient : redis_Options → R;
  client_Close : R → option error * R;
  client_Get : Z → string → R → list Byte.byte + error;
  client_Set : Z → string → list Byte.byte → Z → R → option error * R;
  client_Del : Z → string → R → R;
}.

(** A server that answers: a map from keys to byte strings with deadlines. *)
Class RedisClientOk (R : Type) `{!RedisClient R} := {
  redis_entry : string → R → option (list Byte.byte * Z);
  redis_deadline : Z → Z → Z;
  redis_Nil : error;
  client_Get_spec : ∀ r now k,
    client_Get now k r =
      match redis_entry k r with
      | Some (b, d) => if decide (now ≤ d) then inl b else inr redis_Nil
      | None => inr redis_Nil
      end;
  client_Set_spec : ∀ r now k b ttl, 0 < ttl →
    ∃ r', client_Set now k b ttl r = (None, r') ∧
      ∀ k', redis_entry k' r' =
        if decide (k' = k) then Some (b, redis_deadline now ttl) else redis_entry k' r;
  client_Del_spec : ∀ r now k k',
    redis_entry k' (client_Del now k r) =
      if decide (k' = k) then None else redis_entry k' r;
}.

Module Redis.
Section redis.
  Context {R : Type} `{!RedisClient R, !ProtoLib}.

Record RedisStateStore := mkRedis { ttl : Z; client : R }.

(** [RedisStateStoreConfig] *)
Record RedisStateStoreConfig := mkConfig {
  cfg_Addr : string; cfg_Password : string; cfg_DB : Z; Expiry : Z }.

Definition NewRedisStateStore (config : RedisStateStoreConfig) : RedisStateStore :=
  let client :=
    NewClient {| Addr := cfg_Addr config; Password := cfg_Password config; DB := cfg_DB config |} in
  {| ttl := Expiry config; client := client |}.

Definition get (now : Z) (key : string) (new : unit → option Message)
    (s : RedisStateStore) : option Message * bool :=
  match client_Get now key (client s) with
  | inr _ => (new tt, false)
  | inl msgStr =>
      match new tt with
      | None => (None, false)
      | Some msg =>
          match Unmarshal msgStr msg with
          | inr _ => (new tt, false)
          | inl msg => (Some msg, true)
          end
      end
  end.

Definition set (now : Z) (key : string) (m : option Message) (ttl0 : Z)
    (s : RedisStateStore) : option error * RedisStateStore :=
  let ttl1 := if decide (ttl0 = 0) then ttl s else ttl0 in
  match Marshal m with
  | inr err => (Some err, s)
  | inl msgStr =>
      let '(err, c) := client_Set now key msgStr ttl1 (client s) in
      (err, mkRedis (ttl s) c)
  end.

Definition delete (now : Z) (key : string) (s : RedisStateStore) : RedisStateStore :=
  mkRedis (ttl s) (client_Del now key (client s)).

(** The error of closing is dropped. *)
Definition close (s : RedisStateStore) : RedisStateStore :=
  let '(_, c) := client_Close (client s) in mkRedis (ttl s) c.

#[export] Instance redis : StateStore RedisStateStore :=
  {| Get := get; Set_ := set; Delete := delete |}.

Context `{!RedisClientOk R, !ProtoLibOk} (kd : kind).

(** Every value on the server decodes as a [kd]. *)
Definition decodable (s : RedisStateStore) : Prop :=
  ∀ k b d, redis_entry k (client s) = Some (b, d) → ∃ m, Unmarshal b (zero_of kd) = inl m.

Definition visible (now : Z) (k : string) (s : RedisStateStore) : option Message :=
  '(b, d) ← redis_entry k (client s);
  if decide (now ≤ d)
  then match Unmarshal b (zero_of kd) with inl m => Some m | inr _ => None end
  else None.

(** The messages that survive a round trip through the wire format. *)
Definition roundtrips (m : Message) : Prop :=
  ∃ b, Marshal (Some m) = inl b ∧ Unmarshal b (zero_of kd) = inl m.

#[export] Program Instance redis_ok : StateStoreOk RedisStateStore kd := {|
  store_inv := decodable;
  storable := roundtrips;
  live := visible;
  deadline := redis_deadline;
|}.
Next Obligation.
  intros st now k m Hs. unfold visible.
  destruct (redis_entry k (client st)) as [[b d]|] eqn:Hb; [|done]. cbn.
  case_decide; [|done].
  destruct (Unmarshal b (zero_of kd)) as [m'|] eqn:Hu; [|done].
  intros [= <-]. by rewrite (Unmarshal_kind _ _ _ Hu), kind_of_zero.
Qed.
Next Obligation.
  intros st now now' k m Hs Hle. unfold visible.
  destruct (redis_entry k (client st)) as [[b d]|]; [|done]. cbn.
  repeat case_decide; done || lia.
Qed.
Next Obligation.
  intros st now k new m0 Hs Hnew Hkd. cbn. unfold get, visible.
  rewrite client_Get_spec, Hnew.
  destruct (redis_entry k (client st)) as [[b d]|] eqn:Hb; [|done]. cbn.
  case_decide; [|done].
  rewrite (Unmarshal_reset _ m0 (zero_of kd)) by by rewrite kind_of_zero.
  by destruct (Hs _ _ _ Hb) as [m ->].
Qed.
Next Obligation.
  intros st now k m ttl0 Hs Hkd (b & Hm & Hu) Ht. cbn. unfold set.
  rewrite Hm, decide_False by lia.
  destruct (client_Set_spec (client st) now k b ttl0 Ht) as (r' & -> & Hr').
  eexists. split; [done|]. split.
  - intros k' b' d'. cbn. rewrite Hr'. case_decide; [|apply Hs]. naive_solver.
  - intros now' k' _. unfold visible. cbn. rewrite Hr'.
    case_decide; [cbn|done]. case_decide; [|done]. by rewrite Hu.
Qed.
Next Obligation.
  intros st now k Hs. unfold decodable, visible. cbn. split.
  - intros k' b d. rewrite client_Del_spec. case_decide; [done|apply Hs].
  - intros now' k' _. rewrite client_Del_spec. by case_decide.
Qed.
End redis.
End Redis.

(** A server that answers every command, for the concrete runs. *)
Module TableRedis.

Abbreviation server := (gmap string (list Byte.byte * Z)).

#[global] Instance table_client : RedisClient server := {|
  NewClient _ := ∅;
  client_Close r := (None, r);
  client_Get now k r :=
    match r !! k with
    | Some (b, d) => if decide (now ≤ d) then inl b else inr "redis: nil"
    | None => inr "redis: nil"
    end;
  client_Set now k b ttl r := (None, <[k := (b, now + ttl)]> r);
  client_Del now k r := delete k r;
|}.

#[global] Program Instance table_client_ok : RedisClientOk server := {|
  redis_entry k r := r !! k;
  redis_deadline now ttl := now + ttl;
  redis_Nil := "redis: nil";
|}.
Next Obligation. done. Qed.
Next Obligation.
  intros r now k b ttl _. eexists. split; [done|]. intros k'. cbn. case_decide.
  - subst. apply lookup_insert_eq.
  - by rewrite lookup_insert_ne.
Qed.
Next Obligation.
  intros r now k k'. cbn. case_decide.
  - subst. apply lookup_delete_eq.
  - by rewrite lookup_delete_ne.
Qed.
End TableRedis.
