(* ===== verification/Proc.v ===== *)
(** * Stream processors as effectful programs

    The body of a processor reads and writes its state store and sends on its
    output channel.  It is a [prog]: a tree of those effects in the order the
    code performs them.  [exec] runs a program against a store alone; [step]
    (file [Stream]) lets other goroutines run between two effects. *)
From S2P Require Import Prelude GoTime Events StateStore.

Inductive prog :=
| Return
| store_Get (key : string) (new : unit → option Message)
    (c : option Message → bool → prog)
| store_Set (key : string) (m : option Message) (ttl : Z) (c : option error → prog)
| store_Delete (key : string) (c : prog)
| chan_Send (x : any) (c : prog).

(** [for _, x := range xs { out <- x }] *)
Fixpoint send_all (xs : list any) (c : prog) : prog :=
  match xs with
  | [] => c
  | x :: xs => chan_Send x (send_all xs c)
  end.

Section exec.
  Context {S : Type} `{!StateStore S}.

(** [clk i] is the clock reading of the [i]-th effect of the run on the
    store; the result is the final store and what was sent, in order. *)
Fixpoint exec (clk : nat → Z) (i : nat) (p : prog) (s : S) : S * list any :=
  match p with
  | Return => (s, [])
  | store_Get k new c =>
      let '(m, found) := Get (clk i) k new s in exec clk (i + 1) (c m found) s
  | store_Set k m ttl c =>
      let '(err, s') := Set_ (clk i) k m ttl s in exec clk (i + 1) (c err) s'
  | store_Delete k c => exec clk (i + 1) c (Delete (clk i) k s)
  | chan_Send x c => let '(s', xs) := exec clk i c s in (s', x :: xs)
  end.

(** An element taken from the input channel and the clock while it is handled. *)
Record arrival := Arrival { clock : nat → Z; what : any }.

(** The loop of [doStream]: one run of the handler per element; the output is
    kept per element. *)
Fixpoint run (handle : any → prog) (ins : list arrival) (s : S) : S * list (list any) :=
  match ins with
  | [] => (s, [])
  | a :: ins =>
      let '(s1, xs) := exec (clock a) 0 (handle (what a)) s in
      let '(s2, xss) := run handle ins s1 in (s2, xs :: xss)
  end.

(** Everything the processor sends. *)
Definition outputs (handle : any → prog) (ins : list arrival) (s : S) : list any :=
  concat (run handle ins s).2.

Lemma exec_send_all clk i xs c (s : S) :
  exec clk i (send_all xs c) s = let '(s', ys) := exec clk i c s in (s', xs ++ ys).
Proof.
  induction xs as [|x xs IH]; cbn; [by destruct (exec clk i c s)|].
  rewrite IH. by destruct (exec clk i c s).
Qed.

Lemma run_length handle ins (s : S) : length (run handle ins s).2 = length ins.
Proof.
  revert s. induction ins as [|a ins IH]; intros s; [done|]. cbn.
  destruct (exec _ _ _ s) as [s1 xs]. specialize (IH s1). destruct (run handle ins s1). cbn in *. auto.
Qed.

Lemma run_app handle ins1 ins2 (s : S) :
  run handle (ins1 ++ ins2) s =
    let '(s1, xs1) := run handle ins1 s in
    let '(s2, xs2) := run handle ins2 s1 in (s2, xs1 ++ xs2).
Proof.
  revert s. induction ins1 as [|a ins1 IH]; intros s; cbn; [by destruct (run handle ins2 s)|].
  destruct (exec (clock a) 0 (handle (what a)) s) as [s1 xs]. rewrite IH.
  destruct (run handle ins1 s1) as [s2 xs1]. by destruct (run handle ins2 s2).
Qed.
End exec.

(** ** Clocks *)

(** The readings of one handling never go back, and start at [t] at the
    earliest. *)
Definition clock_from (t : Z) (clk : nat → Z) : Prop :=
  ∀ i j, t ≤ clk i ∧ ((i ≤ j)%nat → clk i ≤ clk j).

(** Elements are handled one after the other: the clock of a handling starts
    where the readings of the previous one (there are at most [2]) ended. *)
Fixpoint timely (t : Z) (ins : list arrival) : Prop :=
  match ins with
  | [] => True
  | a :: ins => clock_from t (clock a) ∧ timely (clock a 2%nat) ins
  end.

Lemma clock_le t clk i j : clock_from t clk → (i ≤ j)%nat → clk i ≤ clk j.
Proof. intros H. apply H. Qed.

Lemma clock_ge t clk i : clock_from t clk → t ≤ clk i.
Proof. intros H. apply (H i i). Qed.

Lemma clock_from_mono t t' clk : t ≤ t' → clock_from t' clk → clock_from t clk.
Proof. intros Ht H i j. destruct (H i j). split; [lia|done]. Qed.

Lemma timely_mono t t' ins : t ≤ t' → timely t' ins → timely t ins.
Proof. destruct ins; cbn; [done|]. intros ? [? ?]. eauto using clock_from_mono. Qed.

Lemma timely_filter t ins (P : arrival → Prop) `{!∀ a, Decision (P a)} :
  timely t ins → timely t (filter P ins).
Proof.
  revert t. induction ins as [|a ins IH]; intros t; [done|]. intros [Hclk Ht].
  rewrite filter_cons. case_decide; [split; auto|].
  eapply timely_mono, IH, Ht. by eapply clock_ge.
Qed.

(** When the last element of a list has been handled. *)
Definition end_time (t : Z) (ins : list arrival) : Z :=
  from_option (λ a, clock a 2%nat) t (last ins).

Lemma timely_snoc t ins a :
  timely t (ins ++ [a]) ↔ timely t ins ∧ clock_from (end_time t ins) (clock a).
Proof.
  unfold end_time. revert t. induction ins as [|b ins IH]; intros t; cbn; [tauto|].
  rewrite IH. change (match ins with [] => Some b | _ => last ins end) with (last (b :: ins)).
  rewrite last_cons. destruct (last ins); cbn; tauto.
Qed.

(** A clock that stands still while an element is handled. *)
Definition still (t : Z) : nat → Z := λ _, t.

Lemma clock_from_still t t' : t ≤ t' → clock_from t (still t').
Proof. intros ? i j. unfold still. split; lia. Qed.

(** ** Programs that use one key *)

Section keyed.
  Context {S : Type} `{!StateStore S} (kd : kind) `{!StateStoreOk S kd}.
  Context (k : string).

(** [p] touches the store under the key [k] only, with storable messages of
    the type [kd], and at most [n] times. *)
Inductive keyed : nat → prog → Prop :=
| keyed_Return n : keyed n Return
| keyed_Get n new m0 c :
    new tt = Some m0 → kind_of m0 = kd →
    (∀ m f, kind_of m = kd → keyed n (c (Some m) f)) →
    keyed (1 + n) (store_Get k new c)
| keyed_Set n m ttl c :
    kind_of m = kd → storable m → 0 < ttl → keyed n (c None) →
    keyed (1 + n) (store_Set k (Some m) ttl c)
| keyed_Delete n c : keyed n c → keyed (1 + n) (store_Delete k c)
| keyed_Send n x c : keyed n c → keyed n (chan_Send x c).

(** Two stores agree on [k'] from [t] on. *)
Definition agree_at (t : Z) (k' : string) (s1 s2 : S) : Prop :=
  ∀ now, t ≤ now → live now k' s1 = live now k' s2.

Lemma agree_at_mono t t' k' s1 s2 : t ≤ t' → agree_at t k' s1 s2 → agree_at t' k' s1 s2.
Proof. intros Ht H now Hn. apply H. lia. Qed.

(** A keyed program sends the same and leaves the same under [k] in two
    stores that agree on [k], and leaves the other keys alone. *)
Lemma exec_keyed n p clk i t (s1 s2 : S) :
  keyed n p → clock_from t clk →
  store_inv s1 → store_inv s2 → agree_at (clk i) k s1 s2 →
  (exec clk i p s1).2 = (exec clk i p s2).2 ∧
  store_inv (exec clk i p s1).1 ∧
  agree_at (clk (i + n)%nat) k (exec clk i p s1).1 (exec clk i p s2).1 ∧
  (∀ k', k' ≠ k → agree_at (clk (i + n)%nat) k' (exec clk i p s1).1 s1).
Proof.
  intros Hp Hclk. revert i s1 s2.
  induction Hp as [n|n new m0 c Hnew Hk0 Hc IH|n m ttl c Hm Hst Ht Hc IH|n c Hc IH|n x c Hc IH];
    intros i s1 s2 H1 H2 Ha; cbn [exec].
  - split_and!; [done..| |]; cbn.
    + eapply agree_at_mono; [|done]. eapply clock_le; [done|lia].
    + by intros k' _ now _.
  - rewrite !(Get_spec _ _ _ _ m0) by done. rewrite <- (Ha (clk i)) by lia.
    rewrite Nat.add_assoc.
    assert (agree_at (clk (i + 1)%nat) k s1 s2) as Ha'
      by (eapply agree_at_mono; [|done]; eapply clock_le; [done|lia]).
    destruct (live (clk i) k s1) as [m|] eqn:Hl; apply IH; eauto using live_kind.
  - destruct (Set_spec s1 (clk i) k m ttl H1 Hm Hst Ht) as (s1' & -> & H1' & Hl1).
    destruct (Set_spec s2 (clk i) k m ttl H2 Hm Hst Ht) as (s2' & -> & H2' & Hl2).
    assert (clk i ≤ clk (i + 1)%nat) as Hi by (eapply clock_le; [done|lia]).
    rewrite Nat.add_assoc.
    destruct (IH (i + 1)%nat s1' s2' H1' H2') as (Ho & Hinv & Hk & Hne).
    { intros now Hnow. rewrite Hl1, Hl2 by lia. by case_decide. }
    split_and!; [done..|]. intros k' Hk' now Hnow. rewrite Hne by done.
    pose proof (clock_le _ _ (i + 1) (i + 1 + n) Hclk ltac:(lia)).
    by rewrite Hl1, decide_False by (done || lia).
  - destruct (Delete_spec s1 (clk i) k H1) as [H1' Hl1].
    destruct (Delete_spec s2 (clk i) k H2) as [H2' Hl2].
    assert (clk i ≤ clk (i + 1)%nat) as Hi by (eapply clock_le; [done|lia]).
    rewrite Nat.add_assoc.
    destruct (IH (i + 1)%nat _ _ H1' H2') as (Ho & Hinv & Hk & Hne).
    { intros now Hnow. rewrite Hl1, Hl2 by lia. by case_decide. }
    split_and!; [done..|]. intros k' Hk' now Hnow. rewrite Hne by done.
    pose proof (clock_le _ _ (i + 1) (i + 1 + n) Hclk ltac:(lia)).
    by rewrite Hl1, decide_False by (done || lia).
  - destruct (IH i s1 s2 H1 H2 Ha) as (Ho & Hinv & Hk & Hne).
    destruct (exec clk i c s1), (exec clk i c s2); cbn in *. by rewrite Ho.
Qed.
End keyed.

(** ** Keys are isolated from each other

    When every element is handled by a program keyed on [key_of] the element,
    the elements of one key are processed as if there were no others. *)
Section isolation.
  Context {S : Type} `{!StateStore S} (kd : kind) `{!StateStoreOk S kd}.
  Context (handle : any → prog) (key_of : any → option string).

(** A program that neither changes the store nor sends. *)
Definition inert (p : prog) : Prop := ∀ clk i (s : S), exec clk i p s = (s, []).

(** Keyed handling of an element; one without a key has no effect. *)
Definition keyed_handling (x : any) : Prop :=
  match key_of x with
  | Some k => keyed kd k 2 (handle x)
  | None => inert (handle x)
  end.

Definition has_key (k : string) (a : arrival) : Prop := key_of (what a) = Some k.
#[export] Instance has_key_dec k a : Decision (has_key k a).
Proof. unfold has_key. apply _. Defined.

(** What was sent for the elements of key [k]. *)
Fixpoint sent_for (k : string) (ins : list arrival) (xss : list (list any))
    : list (list any) :=
  match ins, xss with
  | a :: ins, xs :: xss =>
      if decide (has_key k a) then xs :: sent_for k ins xss else sent_for k ins xss
  | _, _ => []
  end.

Lemma run_isolated k t ins (s1 s2 : S) :
  Forall (λ a, keyed_handling (what a)) ins → timely t ins →
  store_inv s1 → store_inv s2 → agree_at kd t k s1 s2 →
  sent_for k ins (run handle ins s1).2 = (run handle (filter (has_key k) ins) s2).2.
Proof.
  intros Hins. revert t s1 s2.
  induction Hins as [|a ins Ha Hins IH]; intros t s1 s2 Ht H1 H2 Hs; [done|].
  destruct Ht as [Hclk Ht]. cbn [run].
  pose proof (clock_ge _ _ 0 Hclk) as H0.
  pose proof (clock_le _ _ 0 2 Hclk ltac:(lia)) as H02.
  unfold keyed_handling in Ha. rewrite filter_cons.
  destruct (decide (has_key k a)) as [Hk|Hk]; unfold has_key in Hk.
  - rewrite Hk in Ha. cbn [run].
    destruct (exec_keyed kd k 2 _ (clock a) 0 t s1 s2 Ha Hclk H1 H2) as (Ho & Hi1 & Hk1 & _).
    { by eapply agree_at_mono. }
    destruct (exec_keyed kd k 2 _ (clock a) 0 t s2 s2 Ha Hclk H2 H2) as (_ & Hi2 & _ & _); [done|].
    destruct (exec (clock a) 0 (handle (what a)) s1) as [s1' xs1].
    destruct (exec (clock a) 0 (handle (what a)) s2) as [s2' xs2]. cbn in *. subst xs2.
    specialize (IH _ s1' s2' Ht Hi1 Hi2 Hk1).
    destruct (run handle ins s1'), (run handle (filter _ ins) s2'). cbn in *.
    rewrite decide_True by done. by rewrite IH.
  - assert (store_inv (exec (clock a) 0 (handle (what a)) s1).1 ∧
      agree_at kd (clock a 2%nat) k (exec (clock a) 0 (handle (what a)) s1).1 s1) as [Hi1 Hk1].
    { destruct (key_of (what a)) as [k'|].
      - destruct (exec_keyed kd k' 2 _ (clock a) 0 t s1 s1 Ha Hclk H1 H1) as (_ & ? & _ & Hne); [done|].
        split; [done|]. apply Hne. congruence.
      - by rewrite Ha. }
    destruct (exec (clock a) 0 (handle (what a)) s1) as [s1' xs1]. cbn in *.
    specialize (IH (clock a 2%nat) s1' s2 Ht Hi1 H2).
    destruct (run handle ins s1'). cbn in *.
    rewrite decide_False by done. apply IH.
    intros now Hnow. rewrite Hk1 by done. apply Hs. lia.
Qed.

(** If only elements of key [k] send values with [Q], the values with [Q] are
    among what is sent for [k]. *)
Lemma filter_outputs (Q : any → Prop) `{!∀ x, Decision (Q x)} k ins (s : S) :
  (∀ a s' y, a ∈ ins → y ∈ (exec (clock a) 0 (handle (what a)) s').2 → y ∈ outputs handle ins s → Q y →
     has_key k a) →
  filter Q (outputs handle ins s) = filter Q (concat (sent_for k ins (run handle ins s).2)).
Proof.
  unfold outputs. revert s. induction ins as [|a ins IH]; intros s HQ; [done|]. cbn [run] in *.
  specialize (HQ) as HQa. specialize (λ y, HQa a s y (list_elem_of_here _ _)) as HQa'.
  specialize (IH (exec (clock a) 0 (handle (what a)) s).1).
  destruct (exec (clock a) 0 (handle (what a)) s) as [s1 xs]. cbn in *.
  destruct (run handle ins s1) as [s2 xss]. cbn in *.
  rewrite filter_app, IH by (intros; eapply HQ; [by apply list_elem_of_further|done|by apply elem_of_app; right|done]).
  case_decide as Hk; cbn; [by rewrite filter_app|].
  assert (∀ y, y ∉ filter Q xs) as Hnil.
  { intros y [Hy Hin]%list_elem_of_filter. apply Hk. eapply HQa'; [done|by apply elem_of_app; left|done]. }
  apply elem_of_nil_inv in Hnil. by rewrite Hnil.
Qed.

Lemma sent_for_incl k ins xss y : y ∈ concat (sent_for k ins xss) → y ∈ concat xss.
Proof.
  revert xss. induction ins as [|a ins IH]; intros [|xs xss]; try (by intros ?%not_elem_of_nil).
  cbn. rewrite elem_of_app. case_decide; cbn; rewrite ?elem_of_app.
  - intros [Hy|Hy]; [by left|right]. by apply IH.
  - intros Hy. right. by apply IH.
Qed.

(** What is sent is sent for some key. *)
Lemma outputs_sent_for ins (s : S) y :
  Forall (λ a, keyed_handling (what a)) ins → y ∈ outputs handle ins s →
  ∃ k, y ∈ concat (sent_for k ins (run handle ins s).2).
Proof.
  unfold outputs. intros Hins. revert s. induction Hins as [|a ins Ha _ IH]; intros s.
  - by intros ?%not_elem_of_nil.
  - cbn [run]. unfold keyed_handling in Ha. specialize (IH (exec (clock a) 0 (handle (what a)) s).1).
    destruct (key_of (what a)) as [k|] eqn:Hk.
    + destruct (exec _ _ _ s) as [s1 xs]. cbn [fst] in IH.
      destruct (run handle ins s1) as [s2 xss]. cbn [snd concat sent_for]. rewrite elem_of_app.
      intros [Hy|Hy].
      * exists k. rewrite decide_True by done. cbn. rewrite elem_of_app. by left.
      * destruct (IH Hy) as [k' Hk']. exists k'.
        case_decide; [|done]. cbn. rewrite elem_of_app. by right.
    + rewrite Ha in IH |- *. cbn [fst] in IH. destruct (run handle ins s) as [s2 xss].
      cbn [snd concat sent_for]. intros Hy. destruct (IH Hy) as [k' Hk']. exists k'.
      case_decide; [|done]. done.
Qed.

(** The elements of a key, without their clocks. *)
Lemma what_filter k (ins : list arrival) :
  what <$> filter (has_key k) ins = filter (λ x, key_of x = Some k) (what <$> ins).
Proof.
  induction ins as [|a ins IH]; [done|]. rewrite fmap_cons.
  destruct (decide (key_of (what a) = Some k));
    [rewrite !filter_cons_True by done|rewrite !filter_cons_False by done]; [|done].
  by rewrite fmap_cons, IH.
Qed.

(** *** Refinement of a per-key machine

    What a processor does for one key is specified by a machine whose state is
    the message recalled under the key with its deadline. *)
Definition memory : Type := option (Message * Z).

Definition view (σ : memory) (now : Z) : option Message :=
  '(m, d) ← σ; if decide (now ≤ d) then Some m else None.

Record machine := {
  next : memory → arrival → memory;
  out : memory → arrival → list any;
}.

Fixpoint machine_run (M : machine) (σ : memory) (ins : list arrival) : list (list any) :=
  match ins with
  | [] => []
  | a :: ins => out M σ a :: machine_run M (next M σ a) ins
  end.

(** From [t] on, the store holds under [k] what [σ] says. *)
Definition remembers (t : Z) (k : string) (st : S) (σ : memory) : Prop :=
  ∀ now, t ≤ now → live now k st = view σ now.

(** Handling an element of key [k] does what the machine does. *)
Definition implements (M : machine) (ok : any → Prop) (k : string) : Prop :=
  ∀ a st σ t, key_of (what a) = Some k → ok (what a) → clock_from t (clock a) →
    store_inv st → remembers t k st σ →
    ∃ st', exec (clock a) 0 (handle (what a)) st = (st', out M σ a) ∧
      store_inv st' ∧ remembers (clock a 2%nat) k st' (next M σ a).

Lemma run_machine M ok k ins t st σ :
  implements M ok k → Forall (λ a, key_of (what a) = Some k ∧ ok (what a)) ins →
  timely t ins → store_inv st → remembers t k st σ →
  (run handle ins st).2 = machine_run M σ ins.
Proof.
  intros HM Hins. revert t st σ.
  induction Hins as [|a ins [Hk Hok] Hins IH]; intros t st σ Ht Hinv Hm; [done|].
  destruct Ht as [Hclk Ht]. cbn.
  destruct (HM a st σ t Hk Hok Hclk Hinv Hm) as (st' & -> & Hinv' & Hm').
  specialize (IH _ _ _ Ht Hinv' Hm').
  destruct (run handle ins st'). cbn in *. by rewrite IH.
Qed.

(** Among elements of other keys, the outputs for [k] are the machine's. *)
Lemma run_refines M ok k ins t st σ :
  implements M ok k → (∀ x, ok x → keyed_handling x) →
  Forall (λ a, ok (what a)) ins → timely t ins → store_inv st → remembers t k st σ →
  sent_for k ins (run handle ins st).2 = machine_run M σ (filter (has_key k) ins).
Proof.
  intros HM Hok Hins Ht Hinv Hm.
  rewrite (run_isolated k t ins st st); [|by eapply Forall_impl; eauto|done..].
  eapply run_machine; [done| |by apply timely_filter|done..].
  apply Forall_forall. intros a [Ha Hin]%list_elem_of_filter.
  rewrite Forall_forall in Hins. auto.
Qed.
End isolation.
