(* ===== verification/Stream.v ===== *)
(** * The goroutines of a processor

    [doStream] takes elements from the input channel and [transmit] copies the
    output channel to the next inlet; both channels are unbuffered, and the
    context may be cancelled at any moment.  The two goroutines are a step
    relation; a run is any interleaving of their steps with those of the
    environment. *)
From stdpp Require Import relations.
From S2P Require Import Prelude Runs GoTime Events StateStore Proc.

Module Stream.

(** Where [doStream] is: at its [select], inside the handling of an element
    (with the index of the next store effect), or returned. *)
Inductive phase :=
| Idle
| Busy (a : arrival) (i : nat) (p : prog)
| Halted.

(** Where [transmit] is: receiving, sending what it received, or returned. *)
Inductive relay :=
| Waiting
| Holding (x : any)
| Finished.

Section stream.
Context {S : Type} `{!StateStore S} (handle : any → prog).

Record state := St {
  pending : list any;         (* what upstream has still to send *)
  upstream_closes : bool;     (* does upstream close the channel after that? *)
  cancelled : bool;           (* [ctx.Done()] *)
  now : Z;
  doStream : phase;
  handled : list arrival;     (* elements whose handling is over *)
  store : S;
  sent : list any;            (* what went over the output channel *)
  out_closes : nat;           (* calls of [close] on the output channel *)
  transmit : relay;
  delivered : list any;       (* what the next inlet received *)
  inlet_closes : nat;         (* calls of [close] on the next inlet *)
}.

Inductive step : state → state → Prop :=
| s_cancel pd uc n ph hs st se oc tr de ic :
    step (St pd uc false n ph hs st se oc tr de ic) (St pd uc true n ph hs st se oc tr de ic)
| s_take a pd uc cn n hs st se oc tr de ic :
    clock_from n (clock a) →
    step (St (what a :: pd) uc cn n Idle hs st se oc tr de ic)
         (St pd uc cn n (Busy a 0 (handle (what a))) hs st se oc tr de ic)
| s_Get a i k new c pd uc cn n hs st se oc tr de ic m f :
    Get (clock a i) k new st = (m, f) →
    step (St pd uc cn n (Busy a i (store_Get k new c)) hs st se oc tr de ic)
         (St pd uc cn n (Busy a (i + 1) (c m f)) hs st se oc tr de ic)
| s_Set a i k m ttl c pd uc cn n hs st se oc tr de ic err st' :
    Set_ (clock a i) k m ttl st = (err, st') →
    step (St pd uc cn n (Busy a i (store_Set k m ttl c)) hs st se oc tr de ic)
         (St pd uc cn n (Busy a (i + 1) (c err)) hs st' se oc tr de ic)
| s_Delete a i k c pd uc cn n hs st se oc tr de ic :
    step (St pd uc cn n (Busy a i (store_Delete k c)) hs st se oc tr de ic)
         (St pd uc cn n (Busy a (i + 1) c) hs (Delete (clock a i) k st) se oc tr de ic)
| s_Send a i x c pd uc cn n hs st se oc de ic :
    step (St pd uc cn n (Busy a i (chan_Send x c)) hs st se oc Waiting de ic)
         (St pd uc cn n (Busy a i c) hs st (se ++ [x]) oc (Holding x) de ic)
| s_return a i pd uc cn n hs st se oc tr de ic :
    step (St pd uc cn n (Busy a i Return) hs st se oc tr de ic)
         (St pd uc cn (clock a 2%nat) Idle (hs ++ [a]) st se oc tr de ic)
| s_done pd uc n hs st se oc tr de ic :
    step (St pd uc true n Idle hs st se oc tr de ic)
         (St pd uc true n Halted hs st se (oc + 1) tr de ic)
| s_closed cn n hs st se oc tr de ic :
    step (St [] true cn n Idle hs st se oc tr de ic)
         (St [] true cn n Halted hs st se (oc + 1) tr de ic)
| t_forward x pd uc cn n ph hs st se oc de ic :
    step (St pd uc cn n ph hs st se oc (Holding x) de ic)
         (St pd uc cn n ph hs st se oc Waiting (de ++ [x]) ic)
| t_close pd uc cn n hs st se oc de ic :
    step (St pd uc cn n Halted hs st se oc Waiting de ic)
         (St pd uc cn n Halted hs st se oc Finished de (ic + 1)).

(** Both goroutines started, nothing received yet. *)
Definition start (input : list any) (closes : bool) (t0 : Z) (s0 : S) : state :=
  St input closes false t0 Idle [] s0 [] 0 Waiting [] 0.

Definition reachable (input : list any) (closes : bool) (t0 : Z) (s0 : S) : state → Prop :=
  rtc step (start input closes t0 s0).

(** ** Invariant *)

Definition held (tr : relay) : list any := match tr with Holding x => [x] | _ => [] end.

(** The elements taken so far, the one being handled included. *)
Definition taken (σ : state) : list arrival :=
  handled σ ++ match doStream σ with Busy a _ _ => [a] | _ => [] end.

(** What was sent agrees with the run of the handler on the elements taken. *)
Definition agrees (s0 : S) (σ : state) : Prop :=
  let '(s1, xss) := run handle (handled σ) s0 in
  match doStream σ with
  | Busy a i p => ∃ s2 ys zs,
      exec (clock a) 0 (handle (what a)) s1 = (s2, ys ++ zs) ∧
      exec (clock a) i p (store σ) = (s2, zs) ∧ sent σ = concat xss ++ ys
  | _ => store σ = s1 ∧ sent σ = concat xss
  end.

Record inv (input : list any) (t0 : Z) (s0 : S) (σ : state) : Prop := {
  i_input : (what <$> taken σ) ++ pending σ = input;
  i_agrees : agrees s0 σ;
  i_timely : timely t0 (taken σ);
  i_now : now σ = end_time t0 (handled σ);
  i_copied : delivered σ ++ held (transmit σ) = sent σ;
  i_out : out_closes σ = match doStream σ with Halted => 1%nat | _ => 0%nat end;
  i_inlet : inlet_closes σ = match transmit σ with Finished => 1%nat | _ => 0%nat end;
  i_order : transmit σ = Finished → doStream σ = Halted;
  i_halted : doStream σ = Halted → cancelled σ = true ∨ pending σ = [] ∧ upstream_closes σ = true;
}.

Lemma inv_start input closes t0 s0 : inv input t0 s0 (start input closes t0 s0).
Proof. split; try done. Qed.

Lemma run_snoc hs a (s0 : S) :
  run handle (hs ++ [a]) s0 =
    let '(s1, xss) := run handle hs s0 in
    let '(s2, xs) := exec (clock a) 0 (handle (what a)) s1 in (s2, xss ++ [xs]).
Proof.
  rewrite run_app. destruct (run handle hs s0) as [s1 xss]. cbn.
  by destruct (exec (clock a) 0 (handle (what a)) s1).
Qed.

(** What was sent is an initial part of what the handler sends on the elements
    taken, and all of it when none is being handled. *)
Lemma agrees_prefix s0 σ :
  agrees s0 σ → ∃ rest, outputs handle (taken σ) s0 = sent σ ++ rest ∧
    (match doStream σ with Busy _ _ _ => True | _ => rest = [] end).
Proof.
  unfold agrees, outputs, taken. destruct (run handle (handled σ) s0) as [s1 xss] eqn:Hrun.
  destruct (doStream σ) as [|a i p|].
  1,3: intros [_ Hs]; exists []; rewrite !app_nil_r, Hrun; by split.
  intros (s2 & ys & zs & Hex & _ & Hs). exists zs. split; [|done].
  rewrite run_snoc, Hrun, Hex. cbn [snd].
  by rewrite concat_app, Hs, <- app_assoc, concat_cons, concat_nil, app_nil_r.
Qed.

Lemma agrees_step s0 σ σ' : step σ σ' → agrees s0 σ → agrees s0 σ'.
Proof.
  unfold agrees. destruct 1 as [ | | | | | | | | | | ]; cbn [handled doStream store sent]; try done.
  - destruct (run handle hs s0) as [s1 xss]. intros [-> ->].
    destruct (exec (clock a) 0 (handle (what a)) s1) as [s2 zs] eqn:Hex.
    exists s2, [], zs. by rewrite app_nil_r.
  - destruct (run handle hs s0) as [s1 xss]. intros (s2 & ys & zs & H1 & H2 & ->).
    exists s2, ys, zs. split_and!; [done| |done]. cbn in H2.
    match goal with H : Get _ _ _ _ = _ |- _ => rewrite H in H2 end. done.
  - destruct (run handle hs s0) as [s1 xss]. intros (s2 & ys & zs & H1 & H2 & ->).
    exists s2, ys, zs. split_and!; [done| |done]. cbn in H2.
    match goal with H : Set_ _ _ _ _ _ = _ |- _ => rewrite H in H2 end. done.
  - destruct (run handle hs s0) as [s1 xss]. intros (s2 & ys & zs & H1 & H2 & ->).
    cbn in H2. destruct (exec (clock a) i c st) as [s3 zs'] eqn:Hex. simplify_eq.
    exists s2, (ys ++ [x]), zs'. rewrite <- !app_assoc. done.
  - rewrite run_snoc. destruct (run handle hs s0) as [s1 xss].
    intros (s2 & ys & zs & H1 & H2 & ->). cbn in H2. simplify_eq. rewrite app_nil_r in H1.
    rewrite H1. split; [done|]. rewrite concat_app. cbn. by rewrite app_nil_r.
Qed.

Lemma inv_step input t0 s0 σ σ' : step σ σ' → inv input t0 s0 σ → inv input t0 s0 σ'.
Proof.
  intros Hstep [H1 H2 H8 H9 H3 H4 H5 H6 H7].
  pose proof (agrees_step s0 σ σ' Hstep H2) as H2'. split; [|exact H2'|..];
    destruct Hstep; unfold taken in *;
    cbn [pending upstream_closes cancelled now doStream handled sent out_closes transmit delivered
         inlet_closes held] in *;
    rewrite ?app_nil_r, ?fmap_app, <- ?app_assoc in *; simplify_eq/=; try done; try tauto;
    try (by intros ?; specialize (H6 ltac:(done))); try (by auto).
  - by apply timely_snoc.
  - unfold end_time. by rewrite last_snoc.
Qed.

Lemma inv_steps input t0 s0 σ σ' : rtc step σ σ' → inv input t0 s0 σ → inv input t0 s0 σ'.
Proof. apply rtc_keeps, inv_step. Qed.

Lemma reachable_inv input closes t0 s0 σ : reachable input closes t0 s0 σ → inv input t0 s0 σ.
Proof. intros Hr. eapply inv_steps; [exact Hr|]. apply inv_start. Qed.

(** ** Termination *)

(** The next program is a continuation of the previous one. *)
Inductive phase_lt : phase → phase → Prop :=
| lt_halted : phase_lt Halted Idle
| lt_idle a i p : phase_lt Idle (Busy a i p)
| lt_get a i j k new c m f : phase_lt (Busy a j (c m f)) (Busy a i (store_Get k new c))
| lt_set a i j k m ttl c err : phase_lt (Busy a j (c err)) (Busy a i (store_Set k m ttl c))
| lt_delete a i j k c : phase_lt (Busy a j c) (Busy a i (store_Delete k c))
| lt_send a i j x c : phase_lt (Busy a j c) (Busy a i (chan_Send x c)).

Lemma phase_lt_wf : well_founded phase_lt.
Proof.
  assert (Acc phase_lt Halted) as Hh by (constructor; inversion 1).
  assert (Acc phase_lt Idle) as Hi by (constructor; inversion 1; done).
  assert (∀ p a i, Acc phase_lt (Busy a i p)) as Hb.
  { induction p; intros a i; constructor; inversion 1; subst; auto. }
  intros [| |]; auto.
Qed.

Definition relay_rank (tr : relay) : nat :=
  match tr with Holding _ => 2 | Waiting => 1 | Finished => 0 end.

Definition cancel_rank (cn : bool) : nat := if cn then 0 else 1.

(** No run goes on for ever. *)
Lemma step_terminates σ : Acc (λ σ2 σ1, step σ1 σ2) σ.
Proof.
  remember (cancel_rank (cancelled σ)) as c eqn:Hc.
  remember (length (pending σ)) as n eqn:Hn.
  remember (doStream σ) as ph eqn:Hph. remember (relay_rank (transmit σ)) as r eqn:Hr.
  revert n ph r σ Hc Hn Hph Hr.
  induction (lt_wf c) as [c _ IHc]. intros n. induction (lt_wf n) as [n _ IHn].
  intros ph. induction (phase_lt_wf ph) as [ph _ IHph].
  intros r. induction (lt_wf r) as [r _ IHr].
  intros σ Hc Hn Hph Hr. constructor. intros σ' Hstep.
  destruct Hstep; cbn in Hc, Hn, Hph, Hr; subst;
    first [ eapply IHc; [|done..]; cbn; lia
          | eapply IHn; [|done..]; cbn; lia
          | eapply IHph; [|done..]; by constructor
          | eapply IHr; [|done..]; cbn; lia ].
Qed.



(** ** Liveness *)

(** The steps of the program itself. *)
Definition works (σ σ' : state) : Prop := step σ σ' ∧ cancelled σ' = cancelled σ.

(** Nothing is under way any more. *)
Definition at_rest (σ : state) : Prop :=
  pending σ = [] ∧ held (transmit σ) = [] ∧
  match doStream σ with Busy _ _ _ => False | _ => True end.

Lemma step_working σ :
  cancelled σ = false → transmit σ ≠ Finished → ¬ at_rest σ → ∃ σ', works σ σ'.
Proof.
  destruct σ as [pd uc cn n ph hs st se oc tr de ic]. unfold at_rest, works. cbn. intros -> Htr Hbusy.
  destruct tr as [|x|]; [|by eexists; split; [apply t_forward|]|done].
  destruct ph as [|a i p|]; [|destruct p as [|k new c|k m ttl c|k c|x c]|].
  - destruct pd as [|x pd]; [by destruct Hbusy|].
    eexists. split; [apply (s_take (Arrival (still n) x)); apply clock_from_still; lia|done].
  - eexists. split; [constructor|done].
  - destruct (Get (clock a i) k new st) as [m f] eqn:Hget. eexists. by split; [apply s_Get|].
  - destruct (Set_ (clock a i) k m ttl st) as [err st'] eqn:Hset. eexists. by split; [apply s_Set|].
  - eexists. split; [constructor|done].
  - eexists. split; [constructor|done].
  - eexists. split; [constructor|done].
Qed.

#[export] Instance at_rest_dec σ : Decision (at_rest σ).
Proof. unfold at_rest. case_match; apply _. Defined.

Lemma eventually_rest σ :
  (transmit σ = Finished → doStream σ = Halted) →
  (doStream σ = Halted → cancelled σ = true ∨ pending σ = []) →
  eventually step works (λ σ, cancelled σ = true ∨ at_rest σ) σ.
Proof.
  intros Hf Hh. apply (eventually_terminates step works (λ σ,
    (transmit σ = Finished → doStream σ = Halted) ∧
    (doStream σ = Halted → cancelled σ = true ∨ pending σ = []))).
  - intros ?. apply _.
  - intros σ1 σ2 Hstep [Hf1 Hh1]. split; destruct Hstep; cbn in *; try done; try tauto;
      intros; subst; first [by auto | by specialize (Hf1 eq_refl)].
  - clear. intros σ [Hf Hh] Hn. destruct (cancelled σ) eqn:Hcn; [by destruct Hn; left|].
    apply step_working; [done|..|by intros Hr; apply Hn; right]. intros Htr. apply Hn. right.
    specialize (Hf Htr). destruct (Hh Hf) as [?|Hp]; [congruence|].
    unfold at_rest. by rewrite Htr, Hf.
  - apply step_terminates.
  - done.
Qed.

(** ** Claims *)

(** Liveness: whatever has happened so far, and however the goroutines are
    scheduled from here, either the context is cancelled or the processor comes
    to rest with the whole input handled and everything the handler sends for it
    received by the next inlet.  No state on the way waits for the
    cancellation. *)
Theorem stream_eventually_delivers input closes t0 s0 σ :
  reachable input closes t0 s0 σ →
  eventually step works (λ σ, cancelled σ = true ∨
    ∃ ins, what <$> ins = input ∧ timely t0 ins ∧ delivered σ = outputs handle ins s0) σ.
Proof.
  intros Hr. pose proof (reachable_inv _ _ _ _ _ Hr) as Hinv.
  eapply eventually_impl, eventually_rest; [|apply Hinv|].
  2: { intros Hh. destruct (i_halted _ _ _ _ Hinv Hh) as [?|[? _]]; auto. }
  intros σ' Hs [Hcn|(Hp & Hh & Hd)]; [by left|right].
  destruct (inv_steps _ _ _ _ _ Hs Hinv) as [Hin Hag Ht _ Hcp _ _ _ _].
  destruct (agrees_prefix _ _ Hag) as (rest & Hout & Hrest).
  exists (taken σ'). rewrite Hp, Hh, ?app_nil_r in *. split_and!; [done..|].
  rewrite Hout, Hcp. destruct (doStream σ'); [subst|done|subst]; by rewrite app_nil_r.
Qed.

(** C32: Back-pressure: a processor has never sent, for the elements it has done
    with, more than one element that the next inlet has not received.  A sink that
    takes nothing therefore stops the processor, and so on up to the source. *)
Theorem stream_backpressure input closes t0 s0 σ :
  reachable input closes t0 s0 σ →
  (length (outputs handle (handled σ) s0) ≤ length (delivered σ) + 1)%nat.
Proof.
  intros Hr. destruct (reachable_inv _ _ _ _ _ Hr) as [_ Hag _ _ Hcp _ _ _ _].
  assert (length (outputs handle (handled σ) s0) ≤ length (sent σ))%nat as Hle.
  { unfold agrees in Hag. unfold outputs. destruct (run handle (handled σ) s0) as [s1 xss]. cbn.
    destruct (doStream σ); [by destruct Hag as [_ ->]| |by destruct Hag as [_ ->]].
    destruct Hag as (? & ys & zs & _ & _ & ->). rewrite length_app. lia. }
  rewrite <- Hcp, length_app in Hle. destruct (transmit σ); cbn in Hle; lia.
Qed.

(** At every moment of every run, what the next inlet has received is an
    initial part of what the handler sends, in order, on the elements taken so
    far, and these are an initial part of the input: nothing is lost, repeated
    or reordered on the way.  Only what follows in [outputs] is in flight or not
    yet sent. *)
Theorem stream_delivers_prefix input closes t0 s0 σ :
  reachable input closes t0 s0 σ →
  ∃ ins in_flight,
    (what <$> ins) ++ pending σ = input ∧ timely t0 ins ∧
    outputs handle ins s0 = delivered σ ++ in_flight.
Proof.
  intros Hr. destruct (reachable_inv _ _ _ _ _ Hr) as [Hin Hag Ht _ Hcp _ _ _ _].
  destruct (agrees_prefix _ _ Hag) as (rest & Hout & _).
  exists (taken σ), (held (transmit σ) ++ rest). split_and!; [done..|].
  by rewrite Hout, app_assoc, Hcp.
Qed.

(** When [transmit] has returned, the output channel and the next inlet were
    each closed exactly once, and the inlet received everything the handler
    sends on the elements taken; these are the whole input unless the context
    was cancelled. *)
Theorem stream_complete input closes t0 s0 σ :
  reachable input closes t0 s0 σ → transmit σ = Finished →
  out_closes σ = 1%nat ∧ inlet_closes σ = 1%nat ∧
  ∃ ins, (what <$> ins) ++ pending σ = input ∧ timely t0 ins ∧
    outputs handle ins s0 = delivered σ ∧ (cancelled σ = false → what <$> ins = input).
Proof.
  intros Hr Hf. destruct (reachable_inv _ _ _ _ _ Hr) as [Hin Hag Ht _ Hcp Ho Hi Hord Hh].
  specialize (Hord Hf). rewrite Hord in Ho. rewrite Hf in Hi, Hcp. specialize (Hh Hord).
  destruct (agrees_prefix _ _ Hag) as (rest & Hout & Hrest). rewrite Hord in Hrest. subst rest.
  split_and!; [done..|]. exists (taken σ). cbn in Hcp. rewrite ?app_nil_r in *. subst.
  split_and!; [done..|by rewrite Hout|].
  intros Hcn. destruct Hh as [Hh|[Hh _]]; [congruence|]. by rewrite Hh, ?app_nil_r.
Qed.

End stream.

(** *** A concrete run: a processor that forwards what it gets, fed one value
    and then closed *)

Section witnesses.
Import InMemory.

Definition forward (x : any) : prog := chan_Send x Return.
Definition st0 : InMemoryStateStore := NewInMemoryStateStore (mkConfig 0).
Definition one : arrival := Arrival (still 7) any_nil.

Definition final : state :=
  St [] true false 7 Halted [one] st0 [any_nil] 1 Finished [any_nil] 1.

Definition midway : state :=
  St [] true false 0 (Busy one 0 Return) [] st0 [any_nil] 0 (Holding any_nil) [] 0.

Lemma reach_midway : reachable forward [any_nil] true 0 st0 midway.
Proof.
  unfold reachable, start.
  eapply rtc_l; [apply (s_take forward one), clock_from_still; lia|].
  eapply rtc_l; [apply s_Send|]. apply rtc_refl.
Qed.

Lemma midway_final : rtc (step forward) midway final.
Proof.
  eapply rtc_l; [apply t_forward|]. eapply rtc_l; [apply s_return|].
  eapply rtc_l; [apply s_closed|]. eapply rtc_l; [apply t_close|]. apply rtc_refl.
Qed.

Lemma stream_delivers_prefix_witness : ∃ ins,
  what <$> ins = [any_nil] ∧ outputs forward ins st0 = [any_nil].
Proof.
  destruct (stream_delivers_prefix forward [any_nil] true 0 st0 final)
    as (ins & l & Hin & _ & Hout).
  { unfold reachable. etrans; [apply reach_midway|apply midway_final]. }
  exists ins. cbn in Hin. rewrite app_nil_r in Hin. split; [exact Hin|].
  destruct ins as [|a [|b ins]]; [done| |done]. cbn in Hin. simplify_eq.
  unfold outputs. cbn. by rewrite H.
Defined.

Lemma stream_complete_witness : ∃ ins,
  what <$> ins = [any_nil] ∧ outputs forward ins st0 = [any_nil].
Proof.
  destruct (stream_complete forward [any_nil] true 0 st0 final)
    as (_ & _ & ins & _ & _ & Hout & Hall); [|done|].
  { unfold reachable. etrans; [apply reach_midway|apply midway_final]. }
  exists ins. split; [exact (Hall eq_refl)|exact Hout].
Defined.

Lemma stream_eventually_delivers_witness :
  eventually (step forward) (works forward) (λ σ, cancelled σ = true ∨ ∃ ins, what <$> ins = [any_nil] ∧ timely 0 ins ∧
    delivered σ = outputs forward ins st0) midway.
Proof. apply (stream_eventually_delivers forward [any_nil] true), reach_midway. Defined.

Lemma stream_backpressure_witness :
  (length (outputs forward (handled final) st0) ≤ length (delivered final) + 1)%nat.
Proof.
  apply (stream_backpressure forward [any_nil] true 0).
  unfold reachable. etrans; [apply reach_midway|apply midway_final].
Defined.

End witnesses.
End Stream.
