(* ===== verification/Chain.v ===== *)
(** * Chains of processors

    Processors joined by [Via]: each is a [doStream] goroutine, between two of them
    one or more goroutines copy one channel to the next ([transmit], and the
    pass-throughs of a pipeline).  All channels are unbuffered, so that an element
    moves when the sender and the receiver meet; closing a channel does not wait.
    A run is any interleaving of the steps of all goroutines, and the context they
    share may be cancelled at any moment. *)
From stdpp Require Import relations.
From S2P Require Import Prelude Runs GoTime Events StateStore Proc Stream.

Module Chain.
Import Stream (phase, Idle, Busy, Halted, phase_lt, phase_lt_wf, relay, Waiting, Holding, Finished,
  held, relay_rank, cancel_rank).


Section chain.
Context {S : Type} `{!StateStore S}.

(** A processor and its store at the start. *)
Record proc := Proc { handler : any → prog; store0 : S }.

(** Where an element passes: a processor, or a goroutine that copies it. *)
Inductive hop :=
| Through (p : proc)
| Along.

(** The goroutines behind a channel, to the inlet of a sink; [closes] counts the
    calls of [close] on the channel that leads to the goroutine. *)
Inductive net :=
| Sink (got : list any) (closes : nat)
| Copy (tr : relay) (closes : nat) (next : net)
| Stage (p : proc) (ph : phase) (now : Z) (handled : list arrival) (st : S)
    (closes : nat) (next : net).

Definition closes (n : net) : nat :=
  match n with Sink _ c | Copy _ c _ | Stage _ _ _ _ _ c _ => c end.

Definition close (n : net) : net :=
  match n with
  | Sink got c => Sink got (c + 1)
  | Copy tr c n => Copy tr (c + 1) n
  | Stage p ph t hs st c n => Stage p ph t hs st (c + 1) n
  end.

(** The goroutine at the receiving end of the channel takes [x]. *)
Inductive takes (x : any) : net → net → Prop :=
| takes_Sink got c : takes x (Sink got c) (Sink (got ++ [x]) c)
| takes_Copy c n : takes x (Copy Waiting c n) (Copy (Holding x) c n)
| takes_Stage a p t hs st c n :
    what a = x → clock_from t (clock a) →
    takes x (Stage p Idle t hs st c n) (Stage p (Busy a 0 (handler p x)) t hs st c n).

(** What was taken from the channel that leads to a goroutine. *)
Definition busy (ph : phase) : list arrival := match ph with Busy a _ _ => [a] | _ => [] end.

Fixpoint received (n : net) : list any :=
  match n with
  | Sink got _ => got
  | Copy tr _ n => received n ++ held tr
  | Stage _ ph _ hs _ _ _ => what <$> hs ++ busy ph
  end.

(** What the sink got, and how often its inlet was closed. *)
Fixpoint delivered (n : net) : list any :=
  match n with Sink got _ => got | Copy _ _ n | Stage _ _ _ _ _ _ n => delivered n end.
Fixpoint sink_closes (n : net) : nat :=
  match n with Sink _ c => c | Copy _ _ n | Stage _ _ _ _ _ _ n => sink_closes n end.

(** A processor alone, for the steps it takes by itself. *)
Definition alone (ph : phase) (t : Z) (hs : list arrival) (st : S) (sent : list any)
  : Stream.state := Stream.St [] false false t ph hs st sent 0 Waiting [] 0.

(** One step of one of the goroutines; [cn] says whether the context is
    cancelled. *)
Inductive step (cn : bool) : net → net → Prop :=
| c_send x c n n' :
    takes x n n' → step cn (Copy (Holding x) c n) (Copy Waiting c n')
| c_close c n :
    (0 < c)%nat → step cn (Copy Waiting c n) (Copy Finished c (close n))
| c_next tr c n n' :
    step cn n n' → step cn (Copy tr c n) (Copy tr c n')
| p_own p ph t hs st ph' t' hs' st' c n :
    Stream.step (handler p) (alone ph t hs st (received n)) (alone ph' t' hs' st' (received n)) →
    step cn (Stage p ph t hs st c n) (Stage p ph' t' hs' st' c n)
| p_send a i x k p t hs st c n n' :
    takes x n n' →
    step cn (Stage p (Busy a i (chan_Send x k)) t hs st c n) (Stage p (Busy a i k) t hs st c n')
| p_done p t hs st c n :
    cn = true → step cn (Stage p Idle t hs st c n) (Stage p Halted t hs st c (close n))
| p_closed p t hs st c n :
    (0 < c)%nat → step cn (Stage p Idle t hs st c n) (Stage p Halted t hs st c (close n))
| p_next p ph t hs st c n n' :
    step cn n n' → step cn (Stage p ph t hs st c n) (Stage p ph t hs st c n').

(** All goroutines started. *)
Fixpoint start (l : list hop) : net :=
  match l with
  | [] => Sink [] 0
  | Along :: l => Copy Waiting 0 (start l)
  | Through p :: l => Stage p Idle 0 [] (store0 p) 0 (start l)
  end.

(** The chain with what feeds it: a source that has [pending] still to send, and
    that closes its channel after that if it [ends]. *)
Record system := Sys {
  pending : list any;
  ends : bool;
  ended : bool;
  cancelled : bool;
  goroutines : net;
}.

Inductive runs : system → system → Prop :=
| r_cancel pd e d n : runs (Sys pd e d false n) (Sys pd e d true n)
| r_feed x pd e cn n n' : takes x n n' → runs (Sys (x :: pd) e false cn n) (Sys pd e false cn n')
| r_end cn n : runs (Sys [] true false cn n) (Sys [] true true cn (close n))
| r_stop pd e n : runs (Sys pd e false true n) (Sys pd e true true (close n))
| r_step pd e d cn n n' : step cn n n' → runs (Sys pd e d cn n) (Sys pd e d cn n').

(** The steps that are not the cancellation. *)
Definition works (σ σ' : system) : Prop := runs σ σ' ∧ cancelled σ' = cancelled σ.

Definition reachable (l : list hop) (input : list any) (e : bool) : system → Prop :=
  rtc runs (Sys input e false false (start l)).

(** ** What a chain computes *)

Definition procs_of (l : list hop) : list proc :=
  omap (λ h, match h with Through p => Some p | Along => None end) l.

(** From the elements [xs] the processors, each handling what the one before sends,
    make [ys]; each for itself is timely. *)
Fixpoint composes (ps : list proc) (xs ys : list any) : Prop :=
  match ps with
  | [] => ys = xs
  | p :: ps => ∃ ins, what <$> ins = xs ∧ timely 0 ins ∧
      composes ps (outputs (handler p) ins (store0 p)) ys
  end.

(** The same for an initial part of the elements at each point of the way. *)
Fixpoint flows (ps : list proc) (xs ys : list any) : Prop :=
  match ps with
  | [] => ys `prefix_of` xs
  | p :: ps => ∃ ins, (what <$> ins) `prefix_of` xs ∧ timely 0 ins ∧
      flows ps (outputs (handler p) ins (store0 p)) ys
  end.

Lemma flows_mono ps xs xs' ys : xs `prefix_of` xs' → flows ps xs ys → flows ps xs' ys.
Proof.
  destruct ps as [|p ps]; cbn; [by intros; etrans|].
  intros Hxs (ins & Hins & ? & ?). exists ins. split_and!; [by etrans|done..].
Qed.
(** ** What each goroutine has taken and sent *)

Lemma takes_received x n n' : takes x n n' → received n' = received n ++ [x].
Proof.
  destruct 1 as [| |a p t hs st c n Ha]; cbn; [done|by rewrite app_nil_r|].
  by rewrite app_nil_r, fmap_app, <- Ha.
Qed.

Lemma close_received n : received (close n) = received n.
Proof. by destruct n. Qed.

Lemma own_taken h ph t hs st ph' t' hs' st' se :
  Stream.step h (alone ph t hs st se) (alone ph' t' hs' st' se) →
  hs' ++ busy ph' = hs ++ busy ph ∧ (t = end_time 0 hs → t' = end_time 0 hs') ∧
  phase_lt ph' ph ∧ ph' ≠ Halted ∧ ph ≠ Halted.
Proof.
  inversion 1; subst; cbn; rewrite ?app_nil_r; try (by split_and!; [done..|constructor|done|done]).
  split_and!; [done| |constructor|done|done]. intros _. unfold end_time. by rewrite last_snoc.
Qed.

Lemma step_received cn n n' : step cn n n' → received n' = received n.
Proof.
  induction 1 as [x c n n' Ht|c n Hc|tr c n n' _ IH|p ph t hs st ph' t' hs' st' c n Hs
    |a i x k p t hs st c n n' Ht|p t hs st c n|p t hs st c n|p ph t hs st c n n' _ IH];
    cbn; rewrite ?close_received, ?app_nil_r; try done.
  - by apply takes_received.
  - by rewrite IH.
  - apply own_taken in Hs as [-> _]. done.
Qed.

(** At each processor what was sent agrees with a run of the handler. *)
Fixpoint traced (n : net) : Prop :=
  match n with
  | Sink _ _ => True
  | Copy _ _ n => traced n
  | Stage p ph t hs st _ n =>
      Stream.agrees (handler p) (store0 p) (alone ph t hs st (received n)) ∧
      timely 0 (hs ++ busy ph) ∧ t = end_time 0 hs ∧ traced n
  end.

Lemma received_start l : received (start l) = [].
Proof. induction l as [|[p|] l IH]; cbn; [done..|]. by rewrite IH. Qed.

Lemma traced_start l : traced (start l).
Proof. induction l as [|[p|] l IH]; cbn; rewrite ?received_start; done. Qed.

Lemma traced_close n : traced (close n) ↔ traced n.
Proof. by destruct n. Qed.

Lemma traced_takes x n n' : takes x n n' → traced n → traced n'.
Proof.
  destruct 1 as [| |a p t hs st c n <- Hc]; cbn; [done..|]. intros (Hag & Ht & -> & Hn).
  split_and!; [|by rewrite app_nil_r in Ht; by apply timely_snoc|done|done].
  set (σ := Stream.St [what a] false false (end_time 0 hs) Idle hs st (received n) 0 Waiting [] 0).
  apply (Stream.agrees_step (handler p) _ σ); [by constructor|exact Hag].
Qed.

Lemma traced_step cn n n' : step cn n n' → traced n → traced n'.
Proof.
  induction 1 as [x c n n' Ht|c n Hc|tr c n n' _ IH|p ph t hs st ph' t' hs' st' c n Hs
    |a i x k p t hs st c n n' Ht|p t hs st c n|p t hs st c n|p ph t hs st c n n' Hs IH]; cbn.
  - by apply traced_takes with x.
  - by rewrite traced_close.
  - done.
  - intros (Hag & Ht & Hn & ?). pose proof (own_taken _ _ _ _ _ _ _ _ _ _ Hs) as (-> & Hend & _).
    split_and!; [by eapply Stream.agrees_step|done|auto|done].
  - intros (Hag & Htm & -> & Hn). split_and!; [|done|done|by eapply traced_takes].
    rewrite (takes_received _ _ _ Ht).
    by eapply Stream.agrees_step in Hag; [|apply Stream.s_Send].
  - by rewrite traced_close, close_received.
  - by rewrite traced_close, close_received.
  - rewrite (step_received _ _ _ Hs). tauto.
Qed.

(** The processors on the way. *)
Fixpoint hops (n : net) : list hop :=
  match n with
  | Sink _ _ => []
  | Copy _ _ n => Along :: hops n
  | Stage p _ _ _ _ _ n => Through p :: hops n
  end.

Lemma hops_start l : hops (start l) = l.
Proof. induction l as [|[p|] l IH]; cbn; by f_equal. Qed.

Lemma hops_close n : hops (close n) = hops n.
Proof. by destruct n. Qed.

Lemma hops_takes x n n' : takes x n n' → hops n' = hops n.
Proof. by destruct 1. Qed.

Lemma hops_step cn n n' : step cn n n' → hops n' = hops n.
Proof.
  induction 1; cbn; rewrite ?hops_close; try done; f_equal; eauto using hops_takes.
Qed.

(** No element is held on the way. *)
Fixpoint quiet (n : net) : Prop :=
  match n with
  | Sink _ _ => True
  | Copy tr c n => match tr with Waiting => c = 0%nat | Holding _ => False | Finished => True end ∧ quiet n
  | Stage _ ph _ _ _ c n =>
      match ph with Idle => c = 0%nat | Busy _ _ _ => False | Halted => True end ∧ quiet n
  end.

#[export] Instance quiet_dec n : Decision (quiet n).
Proof. induction n as [|tr|p ph]; cbn; [apply _|..]; apply and_dec; try apply _; case_match; apply _. Defined.

Lemma traced_flows n : traced n → flows (procs_of (hops n)) (received n) (delivered n).
Proof.
  induction n as [got c|tr c n IH|p ph t hs st c n IH]; cbn; [done|..].
  - intros Hn. eapply flows_mono; [|by apply IH]. by apply prefix_app_r.
  - intros (Hag & Ht & _ & Hn). exists (hs ++ busy ph). split_and!; [done..|].
    apply Stream.agrees_prefix in Hag as (rest & Hout & _).
    change (outputs (handler p) (hs ++ busy ph) (store0 p) = received n ++ rest) in Hout. rewrite Hout.
    eapply flows_mono; [|by apply IH]. by apply prefix_app_r.
Qed.

Lemma traced_composes n :
  traced n → quiet n → composes (procs_of (hops n)) (received n) (delivered n).
Proof.
  induction n as [got c|tr c n IH|p ph t hs st c n IH]; cbn; [done|..].
  - intros Hn [Htr Hq]. destruct tr; [|done|]; cbn; rewrite app_nil_r; auto.
  - intros (Hag & Ht & _ & Hn) [Hph Hq]. exists (hs ++ busy ph). split_and!; [done..|].
    apply Stream.agrees_prefix in Hag as (rest & Hout & Hrest). cbn in Hrest.
    change (outputs (handler p) (hs ++ busy ph) (store0 p) = received n ++ rest) in Hout. rewrite Hout.
    destruct ph; [|done|]; subst; rewrite app_nil_r; auto.
Qed.
(** ** Closing *)

Definition done_with (b : bool) : nat := if b then 1 else 0.
Definition relay_done (tr : relay) : bool := match tr with Finished => true | _ => false end.
Definition phase_done (ph : phase) : bool := match ph with Halted => true | _ => false end.

(** A goroutine that has returned has closed its channel once, others have not; it
    returns when its own is closed, or (a processor) when the context is
    cancelled. *)
Fixpoint wf (cn : bool) (n : net) : Prop :=
  match n with
  | Sink _ _ => True
  | Copy tr c n => (relay_done tr → c = 1%nat) ∧ closes n = done_with (relay_done tr) ∧ wf cn n
  | Stage _ ph _ _ _ c n =>
      (phase_done ph → c = 1%nat ∨ cn = true) ∧ closes n = done_with (phase_done ph) ∧ wf cn n
  end.

Lemma wf_start cn l : wf cn (start l).
Proof. induction l as [|[p|] l IH]; cbn; try done; (split_and!; [done| |done]); by destruct l as [|[]]. Qed.

Lemma wf_cancelled cn n : wf cn n → wf true n.
Proof. induction n; cbn; intuition. Qed.

Lemma closes_close n : closes (close n) = (closes n + 1)%nat.
Proof. by destruct n. Qed.

Lemma wf_close cn n : closes n = 0%nat → wf cn n → wf cn (close n).
Proof.
  destruct n; cbn; [done|..]; intros ->; intros (H & ? & ?); (split_and!; [|done..]);
    intros Hd; specialize (H Hd); intuition lia.
Qed.

Lemma wf_takes cn x n n' : takes x n n' → wf cn n → wf cn n' ∧ closes n' = closes n.
Proof.
  destruct 1; cbn; [done|..]; intros (_ & Hn & Hw); by split_and!.
Qed.

Lemma wf_step cn n n' :
  step cn n n' → (closes n ≤ 1)%nat → wf cn n → wf cn n' ∧ closes n' = closes n.
Proof.
  induction 1 as [x c n n' Ht|c n Hc|tr c n n' _ IH|p ph t hs st ph' t' hs' st' c n Hs
    |a i x k p t hs st c n n' Ht|p t hs st c n ->|p t hs st c n Hc|p ph t hs st c n n' Hs IH];
    cbn; intros Hle (Hd & Hn & Hw).
  - apply (wf_takes cn) in Ht as [? ->]; done.
  - rewrite closes_close, Hn. split_and!; [lia|done|by apply wf_close|done].
  - destruct IH as [? ->]; [rewrite Hn; destruct (relay_done tr); cbn; lia|done|done].
  - apply own_taken in Hs as (_ & _ & _ & H1 & H2). destruct ph, ph'; done.
  - apply (wf_takes cn) in Ht as [? ->]; done.
  - rewrite closes_close, Hn. split_and!; [by right|done|by apply wf_close|done].
  - rewrite closes_close, Hn. split_and!; [left; lia|done|by apply wf_close|done].
  - destruct IH as [? ->]; [rewrite Hn; destruct (phase_done ph); cbn; lia|done|done].
Qed.

(** Nothing can panic: every channel was closed at most once, and not where a
    goroutine still sends on it. *)
Fixpoint sends_on_open (n : net) : Prop :=
  match n with
  | Sink _ c => (c ≤ 1)%nat
  | Copy tr c n =>
      (c ≤ 1)%nat ∧ (match tr with Holding _ => closes n = 0%nat | _ => True end) ∧ sends_on_open n
  | Stage _ ph _ _ _ c n =>
      (c ≤ 1)%nat ∧ (match ph with Busy _ _ _ => closes n = 0%nat | _ => True end) ∧ sends_on_open n
  end.

Lemma wf_sends_on_open cn n : (closes n ≤ 1)%nat → wf cn n → sends_on_open n.
Proof.
  induction n as [|tr c n IH|p ph t hs st c n IH]; cbn; [done|..];
    intros Hc (_ & Hn & Hw).
  - split_and!; [done|by destruct tr|]. apply IH; [|done]. destruct tr; rewrite Hn; cbn; lia.
  - split_and!; [done|by destruct ph|]. apply IH; [|done]. destruct ph; rewrite Hn; cbn; lia.
Qed.

(** ** Progress *)

(** An open channel with nothing held behind it has a receiver that is ready. *)
Lemma quiet_takes x n : wf false n → quiet n → closes n = 0%nat → ∃ n', takes x n n'.
Proof.
  destruct n as [got c|tr c n|p ph t hs st c n]; cbn.
  - intros _ _ _. eexists. constructor.
  - intros (Hd & _) [Hq _] ->. destruct tr; [eexists; constructor|done|by specialize (Hd I)].
  - intros (Hd & _) [Hq _] ->. destruct ph; [|done|by destruct (Hd I)].
    eexists. apply (takes_Stage x (Arrival (still t) x)); [done|]. apply clock_from_still. lia.
Qed.

(** A goroutine can go on, or waits for one behind it that can. *)
Lemma quiet_or_step n : wf false n → quiet n ∨ ∃ n', step false n n'.
Proof.
  induction n as [got c|tr c n IH|p ph t hs st c n IH]; cbn; [by left|..]; intros (Hd & Hn & Hw).
  - destruct (IH Hw) as [Hq|[n' Hs]]; [|right; eexists; by apply c_next].
    destruct tr as [|x|]; [|right|by left].
    + destruct c; [by left|right]. eexists. apply c_close. lia.
    + destruct (quiet_takes x n Hw Hq Hn) as [n' Ht]. eexists. by apply c_send.
  - destruct (IH Hw) as [Hq|[n' Hs]]; [|right; eexists; by apply p_next].
    destruct ph as [|a i q|]; [|right|by left].
    { destruct c; [by left|right]. eexists. apply p_closed. lia. }
    destruct q as [|k new r|k m ttl r|k r|x r].
    + eexists. apply p_own, Stream.s_return.
    + destruct (Get (clock a i) k new st) eqn:Hg. eexists. apply p_own. by apply Stream.s_Get.
    + destruct (Set_ (clock a i) k m ttl st) eqn:Hg. eexists. apply p_own. by apply Stream.s_Set.
    + eexists. apply p_own, Stream.s_Delete.
    + destruct (quiet_takes x n Hw Hq Hn) as [n' Ht]. eexists. by apply p_send.
Qed.

Lemma quiet_closed n : wf false n → quiet n → closes n = 1%nat → sink_closes n = 1%nat.
Proof.
  induction n as [got c|tr c n IH|p ph t hs st c n IH]; cbn; [done|..]; intros (Hd & Hn & Hw) [Hp Hq] ->.
  - apply IH; [done..|]. by destruct tr.
  - apply IH; [done..|]. by destruct ph.
Qed.

Lemma quiet_open n : wf false n → quiet n → closes n = 0%nat → sink_closes n = 0%nat.
Proof.
  induction n as [got c|tr c n IH|p ph t hs st c n IH]; cbn; [done|..]; intros (Hd & Hn & Hw) [Hp Hq] ->.
  - apply IH; [done..|]. destruct tr; [done|done|by specialize (Hd I)].
  - apply IH; [done..|]. destruct ph; [done|done|by destruct (Hd I)].
Qed.

(** ** Termination *)

(** The steps of a goroutine use up its own work and may give work to the next. *)
Lemma net_terminates cn n : Acc (flip (step cn)) n.
Proof.
  remember (hops n) as l eqn:Hl. revert n Hl. induction l as [|[p|] l IH]; intros n Hl.
  - destruct n; [|done..]. constructor. inversion 1.
  - destruct n as [| |p' ph t hs st c n]; [done..|]. injection Hl as _ Hl. revert t hs st c n Hl.
    induction (phase_lt_wf ph) as [ph _ IHph]. intros t hs st c n Hl.
    pose proof (IH n Hl) as Hacc. induction Hacc as [n _ IHn].
    constructor. intros n' Hs. inversion Hs; subst.
    + match goal with H : Stream.step _ _ _ |- _ => apply own_taken in H as (_ & _ & H & _) end.
      by apply IHph.
    + apply IHph; [by constructor|]. symmetry. by eapply hops_takes.
    + apply IHph; [by constructor|]. by rewrite hops_close.
    + apply IHph; [by constructor|]. by rewrite hops_close.
    + apply IHn; [done|]. symmetry. by eapply hops_step.
  - destruct n as [|tr c n|]; [done| |done]. injection Hl as Hl. remember (relay_rank tr) as r eqn:Hr.
    revert tr c n Hr Hl. induction (lt_wf r) as [r _ IHtr]. intros tr c n Hr Hl.
    pose proof (IH n Hl) as Hacc. induction Hacc as [n _ IHn].
    constructor. intros n' Hs. inversion Hs; subst.
    + eapply IHtr; [|done|]; [cbn; lia|]. symmetry. by eapply hops_takes.
    + eapply IHtr; [|done|]; [cbn; lia|]. by rewrite hops_close.
    + apply IHn; [done|]. symmetry. by eapply hops_step.
Qed.

Lemma runs_terminates σ : Acc (flip runs) σ.
Proof.
  remember (cancel_rank (cancelled σ)) as r eqn:Hr. remember (length (pending σ)) as k eqn:Hk.
  remember (cancel_rank (ended σ)) as f eqn:Hf. remember (goroutines σ) as n eqn:Hn.
  revert k f n σ Hr Hk Hf Hn. induction (lt_wf r) as [r _ IHr].
  intros k. induction (lt_wf k) as [k _ IHk]. intros f. induction (lt_wf f) as [f _ IHf].
  intros n. pose proof (net_terminates true n) as Ht. pose proof (net_terminates false n) as Hf0.
  intros σ. destruct (cancelled σ) eqn:Hcn; [clear Hf0; revert σ Hcn; induction Ht as [n _ IHn]
    |clear Ht; revert σ Hcn; induction Hf0 as [n _ IHn]]; intros σ Hcn Hr Hk Hf Hn;
    constructor; intros σ' Hs; destruct Hs; cbn in Hcn, Hr, Hk, Hf, Hn; subst;
    first [ discriminate
          | eapply IHr; [|done..]; cbn; lia
          | eapply IHk; [|done..]; cbn; lia
          | eapply IHf; [|done..]; cbn; lia
          | eapply IHn; done ].
Qed.
(** ** Invariant of the whole *)

Record inv (l : list hop) (input : list any) (e : bool) (σ : system) : Prop := {
  i_input : received (goroutines σ) ++ pending σ = input;
  i_ends : ends σ = e;
  i_hops : hops (goroutines σ) = l;
  i_traced : traced (goroutines σ);
  i_wf : wf (cancelled σ) (goroutines σ);
  i_closes : closes (goroutines σ) = done_with (ended σ);
  i_ended : ended σ = true → cancelled σ = true ∨ pending σ = [] ∧ e = true;
}.

Lemma closes_start l : closes (start l) = 0%nat.
Proof. by destruct l as [|[]]. Qed.

Lemma system_start l input e : inv l input e (Sys input e false false (start l)).
Proof.
  split; cbn; [by rewrite received_start|done|apply hops_start|apply traced_start|apply wf_start
    |apply closes_start|done].
Qed.

Lemma system_step l input e σ σ' : runs σ σ' → inv l input e σ → inv l input e σ'.
Proof.
  destruct 1 as [pd e' d n|x pd e' cn n n' Ht|cn n|pd e' n|pd e' d cn n n' Hs];
    intros [H1 H2 H3 H4 H5 H6 H7]; cbn in *.
  - split; cbn; try done; [by eapply wf_cancelled|by left].
  - destruct (wf_takes cn _ _ _ Ht H5) as [? Hc]. split; cbn; try done.
    + rewrite (takes_received _ _ _ Ht), <- app_assoc. done.
    + by rewrite (hops_takes _ _ _ Ht).
    + by eapply traced_takes.
    + by rewrite Hc.
  - split; cbn; rewrite ?close_received, ?hops_close, ?traced_close, ?closes_close, ?H6;
      try done; [by apply wf_close|by right].
  - split; cbn; rewrite ?close_received, ?hops_close, ?traced_close, ?closes_close, ?H6;
      try done; [by apply wf_close|by left].
  - destruct (wf_step cn _ _ Hs) as [? Hc]; [rewrite H6; by destruct d; cbn; lia|done|].
    split; cbn; try done.
    + by rewrite (step_received _ _ _ Hs).
    + by rewrite (hops_step _ _ _ Hs).
    + by eapply traced_step.
    + by rewrite Hc.
Qed.

Lemma chain_inv l input e σ : reachable l input e σ → inv l input e σ.
Proof. intros Hr. eapply rtc_keeps; [apply system_step|exact Hr|apply system_start]. Qed.

(** Everything has arrived, and the channels are closed if the source closes its
    own. *)
Definition settled (σ : system) : Prop :=
  pending σ = [] ∧ quiet (goroutines σ) ∧ (ends σ = true → ended σ = true).

#[export] Instance settled_dec σ : Decision (settled σ).
Proof. unfold settled. apply _. Defined.

Lemma system_works l input e σ :
  inv l input e σ → cancelled σ = false → ¬ settled σ → ∃ σ', works σ σ'.
Proof.
  destruct σ as [pd e' d cn n]. unfold settled, works. cbn. intros [_ <- _ _ Hw Hc Hd] Hcn Hns.
  cbn in *. subst cn. destruct (quiet_or_step n Hw) as [Hq|[n' Hs]]; [|eexists; by split; [apply r_step|]].
  destruct d.
  - destruct (Hd eq_refl) as [?|[-> _]]; [done|]. by destruct Hns.
  - destruct pd as [|x pd].
    + destruct e'; [|by destruct Hns]. eexists. by split; [apply r_end|].
    + destruct (quiet_takes x n Hw Hq Hc) as [n' Ht]. eexists. by split; [apply r_feed|].
Qed.

(** ** Claims *)

(** C18: Whatever the goroutines of a chain have done so far, in whatever order, and
    whether or not the context was cancelled: what the sink received is an initial
    part of what the processors, one after the other, make of an initial part of
    the input. *)
Theorem chain_delivers_prefix l input e σ :
  reachable l input e σ → flows (procs_of l) input (delivered (goroutines σ)).
Proof.
  intros [<- _ <- Ht _ _ _]%chain_inv. eapply flows_mono; [|by apply traced_flows].
  by apply prefix_app_r.
Qed.

(** C19: However the goroutines of a chain are scheduled, from every reachable state
    either the context is cancelled or the chain comes to rest with everything the
    processors make of the whole input delivered to the sink, whose inlet is closed
    exactly once if the source closes its channel: the goroutines never block each
    other. *)
Theorem chain_eventually_delivers l input e σ :
  reachable l input e σ →
  eventually runs works (λ σ, cancelled σ = true ∨
    composes (procs_of l) input (delivered (goroutines σ)) ∧
    sink_closes (goroutines σ) = done_with e) σ.
Proof.
  intros Hr%chain_inv.
  eapply (eventually_impl _ _ (λ σ, cancelled σ = true ∨ settled σ)).
  2: { eapply (eventually_terminates _ _ (inv l input e)); [|apply system_step| |apply runs_terminates|done].
       - intros ?. apply _.
       - intros σ1 Hi Hn. destruct (cancelled σ1) eqn:Hcn; [by destruct Hn; left|].
         eapply system_works; [done..|]. intros Hs. apply Hn. by right. }
  intros σ' Hs [Hcn|(Hp & Hq & He)]; [by left|].
  destruct (cancelled σ') eqn:Hcn; [by left|right].
  destruct (rtc_keeps runs _ _ _ (system_step l input e) Hs Hr) as [<- He' <- Ht Hw Hc Hd]. rewrite Hcn in Hw. rewrite Hp, app_nil_r. split.
  - by apply traced_composes.
  - destruct (ended σ') eqn:Hed.
    + destruct (Hd eq_refl) as [?|[_ ->]]; [congruence|]. by apply quiet_closed.
    + destruct e; [by specialize (He He')|]. by apply quiet_open.
Qed.

(** No goroutine of a chain panics: no channel is closed twice, and none is closed
    while the goroutine at its other end may still send on it, cancelled or not. *)
Theorem chain_never_panics l input e σ : reachable l input e σ → sends_on_open (goroutines σ).
Proof.
  intros [_ _ _ _ Hw Hc _]%chain_inv. eapply wf_sends_on_open; [|exact Hw].
  rewrite Hc. destruct (ended σ); cbn; lia.
Qed.

(** Every run of a chain ends, whatever the sources send and whenever it is
    cancelled. *)
Theorem chain_terminates σ : Acc (flip runs) σ.
Proof. apply runs_terminates. Qed.
End chain.

(** ** Concrete runs: two processors that forward what they get, joined by
    [transmit], fed one value *)

Section forwarding.
Import InMemory.
Import Stream (forward, st0, one).

Definition forwarder : proc := Proc forward st0.
Definition two : list hop := [Through forwarder; Along; Through forwarder].

(** The first processor while it holds the value, the second in [ph]. *)
Definition sending (tr : relay) (ph : phase) (hs : list arrival) (n : net) : net :=
  Stage forwarder Idle 7 [one] st0 0 (Copy tr 0 (Stage forwarder ph (end_time 0 hs) hs st0 0 n)).

Lemma reach_holding cn :
  reachable two [any_nil] true
    (Sys [] true false cn (sending (Holding any_nil) Idle [] (Sink [] 0))).
Proof.
  unfold reachable. eapply rtc_l.
  { apply r_feed, (takes_Stage any_nil one forwarder 0); [done|]. apply clock_from_still. lia. }
  eapply rtc_l; [apply r_step, p_send; constructor|].
  eapply rtc_l; [apply r_step, p_own, Stream.s_return|].
  destruct cn; [|apply rtc_refl]. eapply rtc_l; [apply r_cancel|]. apply rtc_refl.
Qed.

(** The second processor returned on the cancellation while the value was on its
    way: [transmit] waits for ever to send it. *)
Definition stranded : system :=
  Sys [] true true true
    (Stage forwarder Halted 7 [one] st0 1
      (Copy (Holding any_nil) 1 (Stage forwarder Halted 0 [] st0 0 (Sink [] 1)))).

(** After a cancellation [transmit] may wait for ever: a processor that has
    returned takes nothing any more, and the goroutine that was about to send to it
    does not watch the context.  The element is lost and the goroutine, its channel
    and the inlet it should close are never released. *)
Theorem cancelled_chain_strands :
  reachable two [any_nil] true stranded ∧ (∀ σ, ¬ runs stranded σ) ∧
  delivered (goroutines stranded) = [].
Proof.
  split_and!; [| |done].
  - unfold reachable. etrans; [apply (reach_holding true)|].
    eapply rtc_l; [apply r_step, p_next, c_next, p_done; done|].
    eapply rtc_l; [apply r_step, p_done; done|].
    eapply rtc_l; [apply r_end|]. apply rtc_refl.
  - intros σ Hs. repeat match goal with
      | H : runs _ _ |- _ => inversion H; subst; clear H
      | H : step _ _ _ |- _ => inversion H; subst; clear H
      | H : takes _ _ _ |- _ => inversion H; subst; clear H
      | H : Stream.step _ _ _ |- _ => apply own_taken in H as (_ & _ & _ & _ & H); done
      end.
Qed.

Lemma chain_delivers_prefix_witness :
  flows (procs_of two) [any_nil] (delivered (goroutines stranded)).
Proof. apply (chain_delivers_prefix two [any_nil] true), cancelled_chain_strands. Defined.
Lemma chain_never_panics_witness : sends_on_open (goroutines stranded).
Proof. apply (chain_never_panics two [any_nil] true), cancelled_chain_strands. Defined.

Lemma chain_eventually_delivers_witness :
  eventually runs works (λ σ, cancelled σ = true ∨
    composes (procs_of two) [any_nil] (delivered (goroutines σ)) ∧ sink_closes (goroutines σ) = 1%nat)
    (Sys [] true false false (sending (Holding any_nil) Idle [] (Sink [] 0))).
Proof. apply (chain_eventually_delivers two [any_nil] true), reach_holding. Defined.
End forwarding.
End Chain.
