(* ===== verification/Batching.v ===== *)
(** * Batching

    The loop that the database sink and the Parquet sink share: rows are
    collected until there are [maxBatchSize] of them or the flush ticker fires. *)
From S2P Require Import Prelude GoTime Events.

(** What the [select] of [doSink] may see: cancellation, a tick, a message, or
    the end of the input channel. *)
Inductive input :=
| ctx_Done
| tick
| msg_in (x : any)
| in_closed.

(** A flush: the rows, and whether the sink's own context, which is cancelled
    at shutdown, is used. *)
Record flush (Row : Type) := Flush { rows : list Row; own_ctx : bool }.
Arguments Flush {Row} _ _.
Arguments rows {Row} _.
Arguments own_ctx {Row} _.

Section batching.
Context {Row : Type} (row : any → option Row) (maxBatchSize : Z) (final_own_ctx : bool).

(** One turn of the loop: the batch afterwards, the flushes, and whether the
    loop goes on. *)
Definition turn (batch : list Row) (i : input) : list Row * list (flush Row) * bool :=
  match i with
  | ctx_Done =>
      (batch, if decide (0 < len batch) then [Flush batch final_own_ctx] else [], false)
  | tick => if decide (0 < len batch) then ([], [Flush batch true], true) else (batch, [], true)
  | msg_in x =>
      match row x with
      | None => (batch, [], true)
      | Some r =>
          let batch := batch ++ [r] in
          if decide (maxBatchSize ≤ len batch) then ([], [Flush batch true], true)
          else (batch, [], true)
      end
  | in_closed => (batch, [], false)
  end.

(** The loop, until it returns: what is left in the batch, and the flushes. *)
Fixpoint turns (batch : list Row) (ins : list input) : list Row * list (flush Row) :=
  match ins with
  | [] => (batch, [])
  | i :: ins =>
      let '(batch, fs, on) := turn batch i in
      if on then let '(rest, fs') := turns batch ins in (rest, fs ++ fs')
      else (batch, fs)
  end.

(** The rows of the messages taken before the loop returns. *)
Fixpoint taken (ins : list input) : list Row :=
  match ins with
  | msg_in x :: ins => match row x with Some r => r :: taken ins | None => taken ins end
  | tick :: ins => taken ins
  | _ => []
  end.

(** How the loop returned, if it did. *)
Fixpoint ending (ins : list input) : option input :=
  match ins with
  | [] => None
  | ctx_Done :: _ => Some ctx_Done
  | in_closed :: _ => Some in_closed
  | _ :: ins => ending ins
  end.

Definition flushed (fs : list (flush Row)) : list Row := concat (rows <$> fs).

Lemma flushed_app fs fs' : flushed (fs ++ fs') = flushed fs ++ flushed fs'.
Proof. unfold flushed. by rewrite fmap_app, concat_app. Qed.

(** Rows are neither lost, repeated nor reordered: they were flushed, or are
    still in the batch; a cancelled loop flushes what is left. *)
Lemma turns_conserve batch ins :
  flushed (turns batch ins).2 ++
    (match ending ins with Some ctx_Done => [] | _ => (turns batch ins).1 end)
  = batch ++ taken ins.
Proof.
  revert batch. induction ins as [|i ins IH]; intros batch; [by rewrite app_nil_r|].
  destruct i as [| |x|]; cbn [turns turn ending taken].
  - cbn. rewrite app_nil_r. case_decide; cbn; [by rewrite app_nil_r|]. by destruct batch.
  - case_decide; [specialize (IH [])|specialize (IH batch)];
      destruct (turns _ ins) as [l fs]; cbn in *; [|done].
    change (flushed (Flush batch true :: fs)) with (batch ++ flushed fs).
    by rewrite <- app_assoc, IH.
  - destruct (row x) as [r|]; [case_decide|].
    + specialize (IH []). destruct (turns [] ins) as [l fs]. cbn in *.
      change (flushed (Flush (batch ++ [r]) true :: fs)) with ((batch ++ [r]) ++ flushed fs).
      by rewrite <- app_assoc, IH, <- app_assoc.
    + specialize (IH (batch ++ [r])). destruct (turns (batch ++ [r]) ins) as [l fs]. cbn in *.
      by rewrite IH, <- app_assoc.
    + specialize (IH batch). by destruct (turns batch ins).
  - cbn. by rewrite app_nil_r.
Qed.

(** A cancelled loop flushes what is left last, with the context chosen for that. *)
Lemma turns_last_flush batch ins rest fs :
  turns batch ins = (rest, fs) → ending ins = Some ctx_Done → rest ≠ [] →
  ∃ fs', fs = fs' ++ [Flush rest final_own_ctx].
Proof.
  revert batch rest fs. induction ins as [|i ins IH]; intros batch rest fs Ht He Hr; [done|].
  destruct i as [| |x|]; cbn [turns turn ending] in *; [| | |done].
  - simplify_eq. case_decide as Hl; [by exists []|]. destruct rest; [done|]. unfold len in Hl. cbn in Hl. lia.
  - case_decide; [destruct (turns [] ins) as [l fs0] eqn:H0|destruct (turns batch ins) as [l fs0] eqn:H0];
      simplify_eq; destruct (IH _ _ _ H0 He Hr) as [fs' ->]; eexists; by rewrite app_assoc.
  - destruct (row x) as [r|]; [case_decide|].
    + destruct (turns [] ins) as [l fs0] eqn:H0. simplify_eq.
      destruct (IH _ _ _ H0 He Hr) as [fs' ->]. eexists. by rewrite app_assoc.
    + destruct (turns (batch ++ [r]) ins) as [l fs0] eqn:H0. simplify_eq. by eapply IH.
    + destruct (turns batch ins) as [l fs0] eqn:H0. simplify_eq. by eapply IH.
Qed.

(** Flushes are not empty and no longer than allowed; the batch stays below the
    limit. *)
Lemma turns_bounded batch ins :
  0 < maxBatchSize → len batch < maxBatchSize →
  len (turns batch ins).1 < maxBatchSize ∧
  Forall (λ f, 0 < len (rows f) ≤ maxBatchSize) (turns batch ins).2.
Proof.
  intros Hmax. revert batch. induction ins as [|i ins IH]; intros batch Hb; [done|].
  destruct i as [| |x|]; cbn [turns turn].
  - split; [done|]. case_decide; [|done]. apply Forall_singleton. cbn. lia.
  - case_decide; [specialize (IH [] ltac:(unfold len in *; cbn; lia))|specialize (IH batch Hb)];
      destruct (turns _ ins) as [l fs]; cbn in *; [|done].
    destruct IH. split; [done|]. apply Forall_cons. split; [unfold len in *; cbn; lia|done].
  - destruct (row x) as [r|]; [|specialize (IH batch Hb); by destruct (turns batch ins)].
    case_decide as Hfull; rewrite len_app in Hfull; unfold len in Hfull; cbn in Hfull.
    + specialize (IH [] ltac:(unfold len in *; cbn; lia)). destruct (turns [] ins) as [l fs]. cbn in *.
      destruct IH. split; [done|]. apply Forall_cons. split; [cbn; rewrite len_app; unfold len in *; cbn; lia|done].
    + specialize (IH (batch ++ [r]) ltac:(rewrite len_app; unfold len in *; cbn; lia)).
      by destruct (turns (batch ++ [r]) ins).
  - done.
Qed.
End batching.

(** The rows are those of the messages taken. *)
Lemma taken_omap {Row} (row : any → option Row) ins : taken row ins = omap row (taken Some ins).
Proof.
  induction ins as [|[| |x|] ins IH]; cbn [taken]; try done. rewrite omap_cons_eq, IH. by destruct (row x).
Qed.
