(* ===== verification/DbSink.v ===== *)
(** * DatabaseSink ([sinks/db_sink.go])

    Events are collected in batches; a batch is written with one multi-row
    INSERT statement per table.  [database/sql] is a parameter: opening the
    database and executing a statement, whose errors are only logged. *)
From S2P Require Import Prelude GoTime Events Config Batching.

(** [sql.Open(driver, dsn)] and [db.PingContext(ctx)]: an error or none. *)
Class SqlDB := {
  sql_Open : string → string → option error;
  PingContext : string → string → option error;
}.

Module DatabaseSink.

Inductive arg :=
| A_string (s : string)
| A_int32 (n : Z)
| A_time (t : ptr Time).

(** What [ExecContext] is called with. *)
Record statement := Statement { query : string; args : list arg }.

Section sink.
Context `{!ProtoLib}.

(** ** Rows *)

Definition nullableTime (a : ptr EventAttributes.t) : ptr Time :=
  match a with
  | None => None
  | Some _ =>
      match EventAttributes.GetTimestamp a with
      | None => None
      | Some ts => Some (AsTime (Some ts))
      end
  end.

(** The parameter is an interface: [None] is the nil interface, while a nil
    [*timestamppb.Timestamp] is a non-nil one. *)
Definition nullableTimestamp (ts : option (ptr Timestamp.t)) : ptr Time :=
  match ts with
  | None => None
  | Some p => let t := AsTime p in if Time_IsZero t then None else Some t
  end.

(** The columns the four tables share, and their values. *)
Definition attribute_cols : list string := [
  "agency_id"; "vehicle_id"; "route_id"; "stop_id";
  "origin_stop_id"; "destination_stop_id"; "direction_id";
  "direction"; "direction_destination"; "parent_station";
  "stop_sequence"; "stop_status"; "trip_id"; "service_date"; "event_timestamp"].

Definition attribute_args (a : ptr EventAttributes.t) : list arg := [
  A_string (EventAttributes.GetAgencyId a); A_string (EventAttributes.GetVehicleId a);
  A_string (EventAttributes.GetRouteId a); A_string (EventAttributes.GetStopId a);
  A_string (EventAttributes.GetOriginStopId a); A_string (EventAttributes.GetDestinationStopId a);
  A_string (EventAttributes.GetDirectionId a);
  A_string (EventAttributes.GetDirection a); A_string (EventAttributes.GetDirectionDestination a);
  A_string (EventAttributes.GetParentStation a);
  A_int32 (EventAttributes.GetStopSequence a); A_int32 (int32 (EventAttributes.GetStopStatus a));
  A_string (EventAttributes.GetTripId a); A_string (EventAttributes.GetServiceDate a);
  A_time (nullableTime a)].

(** ** INSERT statements *)

(** The numbers of the placeholders of row [i]. *)
Definition row_numbers (nCols i : nat) : list nat := (λ j, (i * nCols + j + 1)%nat) <$> seq 0 nCols.

Definition placeholder (n : nat) : string := "$" +:+ itoa (Z.of_nat n).

Definition buildInsert (table : string) (cols : list string) (nRows : nat) : string :=
  let nCols := length cols in
  let rowPH :=
    (λ i, "(" +:+ join ", " (placeholder <$> row_numbers nCols i) +:+ ")") <$> seq 0 nRows in
  "INSERT INTO " +:+ table +:+ " (" +:+ join ", " cols +:+ ") VALUES " +:+ join ", " rowPH.

(** One statement for all rows of a table. *)
Definition insert {A} (table : string) (cols : list string) (row : A → list arg) (batch : list A)
    : statement :=
  Statement (buildInsert table cols (length batch)) (concat (row <$> batch)).

Definition stop_event_cols : list string := attribute_cols ++ ["stop_event_type"].
Definition stop_event_args (e : ptr StopEvent.t) : list arg :=
  attribute_args (StopEvent.GetAttributes e) ++
  [A_string (StopEvent_EventType_String (StopEvent.GetStopEventType e))].
Definition insertStopEvents : list (ptr StopEvent.t) → statement :=
  insert "stop_events" stop_event_cols stop_event_args.

Definition dwell_time_event_cols : list string :=
  attribute_cols ++ ["arrival_time"; "departure_time"; "dwell_time_seconds"].
Definition dwell_time_event_args (e : ptr DwellTimeEvent.t) : list arg :=
  attribute_args (DwellTimeEvent.GetAttributes e) ++
  [A_time (nullableTimestamp (Some (DwellTimeEvent.GetArrivalTime e)));
   A_time (nullableTimestamp (Some (DwellTimeEvent.GetDepartureTime e)));
   A_int32 (DwellTimeEvent.GetDwellTimeSeconds e)].
Definition insertDwellTimeEvents : list (ptr DwellTimeEvent.t) → statement :=
  insert "dwell_time_events" dwell_time_event_cols dwell_time_event_args.

Definition travel_time_event_cols : list string :=
  attribute_cols ++ ["start_time"; "end_time"; "travel_time_seconds"].
Definition travel_time_event_args (e : ptr TravelTimeEvent.t) : list arg :=
  attribute_args (TravelTimeEvent.GetAttributes e) ++
  [A_time (nullableTimestamp (Some (TravelTimeEvent.GetStartTime e)));
   A_time (nullableTimestamp (Some (TravelTimeEvent.GetEndTime e)));
   A_int32 (TravelTimeEvent.GetTravelTimeSeconds e)].
Definition insertTravelTimeEvents : list (ptr TravelTimeEvent.t) → statement :=
  insert "travel_time_events" travel_time_event_cols travel_time_event_args.

Definition headway_time_event_cols : list string :=
  attribute_cols ++ ["leading_vehicle_id"; "following_vehicle_id"; "headway_seconds"].
Definition headway_time_event_args (e : ptr HeadwayTimeEvent.t) : list arg :=
  attribute_args (HeadwayTimeEvent.GetAttributes e) ++
  [A_string (HeadwayTimeEvent.GetLeadingVehicleId e);
   A_string (HeadwayTimeEvent.GetFollowingVehicleId e);
   A_int32 (HeadwayTimeEvent.GetHeadwaySeconds e)].
Definition insertHeadwayTimeEvents : list (ptr HeadwayTimeEvent.t) → statement :=
  insert "headway_time_events" headway_time_event_cols headway_time_event_args.

(** ** flush *)

(** The four slices the events of a batch are appended to. *)
Record slices := Slices {
  stopEvents : list (ptr StopEvent.t);
  dwellEvents : list (ptr DwellTimeEvent.t);
  travelEvents : list (ptr TravelTimeEvent.t);
  headwayEvents : list (ptr HeadwayTimeEvent.t);
}.

(** The type switch; events of other types are skipped. *)
Definition append (b : slices) (e : Message) : slices :=
  let '(Slices s d t h) := b in
  match e with
  | msg_StopEvent ev => Slices (s ++ [ev]) d t h
  | msg_DwellTimeEvent ev => Slices s (d ++ [ev]) t h
  | msg_TravelTimeEvent ev => Slices s d (t ++ [ev]) h
  | msg_HeadwayTimeEvent ev => Slices s d t (h ++ [ev])
  | _ => b
  end.

Definition nonempty {A} (l : list A) (insert : list A → statement) : list statement :=
  match l with [] => [] | _ => [insert l] end.

(** The statements of one flush, in order. *)
Definition flush (batch : list Message) : list statement :=
  let b := fold_left append batch (Slices [] [] [] []) in
  nonempty (stopEvents b) insertStopEvents ++
  nonempty (dwellEvents b) insertDwellTimeEvents ++
  nonempty (travelEvents b) insertTravelTimeEvents ++
  nonempty (headwayEvents b) insertHeadwayTimeEvents.

(** ** The sink *)

Record t := mk { maxBatchSize : Z; flushInterval : Z }.

(** [doSink]: what is left in the batch when it returns, and the flushes; the
    last one uses a fresh context. *)
Definition doSink (s : t) (ins : list input) : list Message * list (Batching.flush Message) :=
  turns as_Event (maxBatchSize s) false [] ins.

Definition NewDatabaseSink `{!SqlDB} (cfg : SinkConfig.t) : t + go_error :=
  let db := SinkConfig.Database cfg in
  if decide (DatabaseSinkConfig.DSN db = "") then inr (Errorf "db sink: dsn is required" []) else
  let driver := DatabaseSinkConfig.Driver db in
  let sqlDriverName := if decide (driver = "" ∨ driver = "postgres") then "pgx" else driver in
  match sql_Open sqlDriverName (DatabaseSinkConfig.DSN db) with
  | Some err => inr (Wrapf "db sink: open db: %w" [] (library_error err))
  | None =>
  match PingContext sqlDriverName (DatabaseSinkConfig.DSN db) with
  | Some err => inr (Wrapf "db sink: ping db: %w" [] (library_error err))
  | None =>
      let maxBatchSize :=
        if decide (SinkConfig.MaxBatchSize cfg ≤ 0) then 100 else SinkConfig.MaxBatchSize cfg in
      let flushInterval :=
        if decide (SinkConfig.FlushInterval cfg ≤ 0) then 10 * Second
        else SinkConfig.FlushInterval cfg in
      inl (mk maxBatchSize flushInterval)
  end end.
End sink.
End DatabaseSink.

Module DbSpec.
Import DatabaseSink.

Section spec.
Context `{!ProtoLib}.

(** The events of each type, in the order of the batch. *)
Definition stops (batch : list Message) : list (ptr StopEvent.t) :=
  omap (λ m, match m with msg_StopEvent e => Some e | _ => None end) batch.
Definition dwells (batch : list Message) : list (ptr DwellTimeEvent.t) :=
  omap (λ m, match m with msg_DwellTimeEvent e => Some e | _ => None end) batch.
Definition travels (batch : list Message) : list (ptr TravelTimeEvent.t) :=
  omap (λ m, match m with msg_TravelTimeEvent e => Some e | _ => None end) batch.
Definition headways (batch : list Message) : list (ptr HeadwayTimeEvent.t) :=
  omap (λ m, match m with msg_HeadwayTimeEvent e => Some e | _ => None end) batch.

Lemma fold_append batch s d t h :
  fold_left append batch (Slices s d t h) =
    Slices (s ++ stops batch) (d ++ dwells batch) (t ++ travels batch) (h ++ headways batch).
Proof.
  unfold stops, dwells, travels, headways. revert s d t h.
  induction batch as [|m batch IH]; intros s d t h; [by rewrite !app_nil_r|].
  cbn [fold_left]. rewrite !omap_cons_eq. destruct m; cbn [append]; rewrite IH, <- ?app_assoc; done.
Qed.

(** A row fills its columns. *)
Lemma row_lengths :
  (∀ e, length (stop_event_args e) = length stop_event_cols) ∧
  (∀ e, length (dwell_time_event_args e) = length dwell_time_event_cols) ∧
  (∀ e, length (travel_time_event_args e) = length travel_time_event_cols) ∧
  (∀ e, length (headway_time_event_args e) = length headway_time_event_cols).
Proof. by repeat split. Qed.

(** The placeholders of a statement are numbered through. *)
Lemma row_numbers_concat nCols nRows :
  concat (row_numbers nCols <$> seq 0 nRows) = seq 1 (nRows * nCols).
Proof.
  induction nRows as [|n IH]; [done|].
  rewrite seq_S, fmap_app, concat_app, IH.
  replace (Datatypes.S n * nCols)%nat with (n * nCols + nCols)%nat by lia.
  rewrite seq_app. f_equal. cbn [fmap list_fmap]. rewrite concat_cons, concat_nil, app_nil_r.
  unfold row_numbers. replace (1 + n * nCols)%nat with (1 + n * nCols + 0)%nat by lia.
  rewrite <- fmap_add_seq.
  apply list_fmap_ext. intros _ j _. lia.
Qed.

Lemma length_concat_const {A B} (f : A → list B) k (l : list A) :
  (∀ x, length (f x) = k) → length (concat (f <$> l)) = (length l * k)%nat.
Proof. intros Hf. induction l as [|x l IH]; [done|]. cbn. by rewrite length_app, Hf, IH. Qed.

(** A statement with as many values as placeholders. *)
Definition complete (st : statement) : Prop :=
  ∃ table cols nRows, query st = buildInsert table cols nRows ∧ (0 < nRows)%nat ∧
    length (args st) = (nRows * length cols)%nat ∧
    concat (row_numbers (length cols) <$> seq 0 nRows) = seq 1 (length (args st)).

Lemma insert_complete {A} table cols (row : A → list arg) batch :
  (∀ x, length (row x) = length cols) →
  Forall complete (nonempty batch (insert table cols row)).
Proof.
  intros Hrow. destruct batch as [|x batch]; [constructor|]. apply Forall_singleton.
  exists table, cols, (length (x :: batch)). cbn [query args insert].
  rewrite (length_concat_const _ (length cols)) by done.
  split_and!; [done|cbn; lia|done|apply row_numbers_concat].
Qed.

(** C23: A flush writes every supported event of the batch once: the events of
    each type, in the order they came, as the rows of one statement for that
    type's table, and no statement for a type with no events; each statement has
    exactly as many values as placeholders, numbered from 1. *)
Theorem flush_writes_batch batch :
  flush batch =
    nonempty (stops batch) insertStopEvents ++
    nonempty (dwells batch) insertDwellTimeEvents ++
    nonempty (travels batch) insertTravelTimeEvents ++
    nonempty (headways batch) insertHeadwayTimeEvents ∧
  Forall complete (flush batch).
Proof.
  unfold flush. rewrite fold_append. cbn [app stopEvents dwellEvents travelEvents headwayEvents].
  split; [done|]. destruct row_lengths as (Hs & Hd & Ht & Hh).
  rewrite !Forall_app. split_and!; by apply insert_complete.
Qed.

(** A sink that is cancelled has flushed all the events it took. *)
Lemma cancelled_flushed s ins rest fs :
  doSink s ins = (rest, fs) → ending ins = Some ctx_Done → flushed fs = taken as_Event ins.
Proof.
  intros Hd He. unfold doSink in Hd.
  pose proof (turns_conserve as_Event (maxBatchSize s) false [] ins) as Hc.
  by rewrite Hd, He, app_nil_r in Hc.
Qed.

(** C37: Nothing is lost on shutdown: when the context is cancelled, the flushes
    of the sink contain exactly the events it took, in order; all but the last
    flush may fail with the context, the last one uses a fresh context. *)
Theorem db_shutdown_flushes s ins rest fs :
  doSink s ins = (rest, fs) → ending ins = Some ctx_Done →
  flushed fs = taken as_Event ins ∧
  (rest ≠ [] → ∃ fs' f, fs = fs' ++ [f] ∧ rows f = rest ∧ own_ctx f = false).
Proof.
  intros Hd He. split; [by eapply cancelled_flushed|]. unfold doSink in Hd.
  intros Hl. destruct (turns_last_flush _ _ _ _ _ _ _ Hd He Hl) as [fs' ->].
  by exists fs', (Flush rest false).
Qed.

(** When upstream closes the input instead, the sink returns without a last
    flush: of the events it took, the ones written are followed by those still
    in the batch, fewer than the batch size, which are dropped. *)
Theorem db_closed_drops_batch s ins rest fs :
  0 < maxBatchSize s → doSink s ins = (rest, fs) → ending ins = Some in_closed →
  taken as_Event ins = flushed fs ++ rest ∧ len rest < maxBatchSize s.
Proof.
  intros Hmax Hd He. unfold doSink in Hd.
  pose proof (turns_conserve as_Event (maxBatchSize s) false [] ins) as Hc.
  pose proof (turns_bounded as_Event (maxBatchSize s) false [] ins Hmax Hmax) as [Hb _].
  rewrite Hd in Hb, Hc. rewrite He in Hc. split; [done|exact Hb].
Qed.

(** A sink that could be built writes batches of 1 to its batch size events,
    100 and every ten seconds unless configured otherwise; without a DSN, or when
    the database cannot be opened or reached, there is no sink. *)
Theorem db_sink_batches `{!SqlDB} cfg s ins :
  NewDatabaseSink cfg = inl s →
  DatabaseSinkConfig.DSN (SinkConfig.Database cfg) ≠ "" ∧
  0 < maxBatchSize s ∧ 0 < flushInterval s ∧
  (0 < SinkConfig.MaxBatchSize cfg → maxBatchSize s = SinkConfig.MaxBatchSize cfg) ∧
  Forall (λ f, 0 < len (rows f) ≤ maxBatchSize s) (doSink s ins).2.
Proof.
  unfold NewDatabaseSink. case_decide; [done|].
  destruct (sql_Open _ _); [done|]. destruct (PingContext _ _); [done|]. intros [= <-].
  cbn [maxBatchSize flushInterval]. set (n := if decide (SinkConfig.MaxBatchSize cfg ≤ 0) then _ else _).
  assert (0 < n) as Hn by (unfold n; case_decide; lia).
  split_and!; [done|done|case_decide; unfold Second; lia|unfold n; case_decide; lia|].
  by apply turns_bounded.
Qed.

(** A message that is nil in Go is not NULL in the database: an arrival,
    departure, start or end time that is absent is written as the beginning of
    1970; an absent event timestamp is NULL. *)
Theorem absent_time_is_epoch `{!ProtoLibOk} (e : ptr DwellTimeEvent.t) :
  DwellTimeEvent.GetArrivalTime e = None →
  nullableTimestamp (Some (DwellTimeEvent.GetArrivalTime e)) = Some (Unix 0 0) ∧
  ∀ a, EventAttributes.GetTimestamp a = None → nullableTime a = None.
Proof.
  intros ->. split.
  - unfold nullableTimestamp. by rewrite AsTime_unix.
  - intros [a|] Ha; [|done]. unfold nullableTime. by rewrite Ha.
Qed.
End spec.

(** *** Concrete runs *)

Section witnesses.
Local Existing Instances unix_lib unix_lib_ok.
Local Instance up : SqlDB := {| sql_Open _ _ := None; PingContext _ _ := None |}.

Definition sample_events : list input := [
  msg_in (sample_stop "v1" "s1" StopEvent_ARRIVAL 1000); msg_in any_nil; tick;
  msg_in (sample_stop "v1" "s1" StopEvent_DEPARTURE 1060)].

Lemma db_shutdown_flushes_witness : ∃ f g,
  (doSink (mk 100 Second) (sample_events ++ [ctx_Done])).2 = [f; g] ∧
  flushed [f; g] = taken as_Event (sample_events ++ [ctx_Done]).
Proof.
  eexists _, _. split; [by vm_compute|].
  by eapply (db_shutdown_flushes (mk 100 Second) (sample_events ++ [ctx_Done])).
Defined.

Lemma db_closed_drops_batch_witness : ∃ m rest,
  (doSink (mk 100 Second) (sample_events ++ [in_closed])).1 = m :: rest ∧
  taken as_Event (sample_events ++ [in_closed])
    = flushed (doSink (mk 100 Second) (sample_events ++ [in_closed])).2 ++ m :: rest.
Proof.
  eexists _, _. split; [by vm_compute|].
  by apply (db_closed_drops_batch (mk 100 Second) (sample_events ++ [in_closed])).
Defined.

Definition sample_config : SinkConfig.t :=
  SinkConfig.mk "db" "database" 0 2 0 0 "" (BucketConfig.mk "" "") "" (RedisConfig.mk "" "" 0 "")
    (SSESinkConfig.mk "" "") "" (DatabaseSinkConfig.mk "" "dsn" "")
    (ParquetSinkConfig.mk "" "" "" "" "" "" "").

Lemma db_sink_batches_witness : ∃ s,
  NewDatabaseSink sample_config = inl s ∧ maxBatchSize s = 2.
Proof.
  eexists. split; [done|].
  eapply (db_sink_batches sample_config _ sample_events); [done|vm_compute; reflexivity].
Defined.

Lemma absent_time_is_epoch_witness :
  nullableTimestamp (Some (DwellTimeEvent.GetArrivalTime None)) = Some (Unix 0 0).
Proof. by apply (absent_time_is_epoch None). Defined.
End witnesses.
End DbSpec.
