(* ===== verification/ParquetSink.v ===== *)
(** * ParquetSink ([sinks/parquet_sink.go])

    Events are flattened into rows, collected in batches and uploaded to S3 as
    Parquet files.  The Parquet writer and the AWS client are parameters. *)
From S2P Require Import Prelude GoTime Calendar Events Config Batching.

Module EventRow.
Record t := mk {
  EventType : string;
  AgencyID : string;
  VehicleID : string;
  RouteID : string;
  StopID : string;
  OriginStopID : string;
  DestinationStopID : string;
  DirectionID : string;
  Direction : string;
  DirectionDestination : string;
  ParentStation : string;
  StopSequence : Z;
  StopStatus : Z;
  TripID : string;
  ServiceDate : string;
  Timestamp : Z;
  StopEventType : string;
  ArrivalTime : Z;
  DepartureTime : Z;
  DwellTimeSeconds : Z;
  StartTime : Z;
  EndTime : Z;
  TravelTimeSeconds : Z;
  LeadingVehicleID : string;
  FollowingVehicleID : string;
  HeadwaySeconds : Z;
}.

#[global] Instance row_eq_dec : EqDecision t.
Proof. solve_decision. Defined.
End EventRow.

(** [parquet-go]: a [GenericWriter[EventRow]] and the buffer it writes to. *)
Class ParquetLib := {
  Writer : Type;
  NewGenericWriter : Writer;
  Write : list EventRow.t → Writer → Writer * option error;
  Close : Writer → Writer * option error;
  Bytes : Writer → list Byte.byte;
  (** [parquet.Read[EventRow]]. *)
  Read : list Byte.byte → option (list EventRow.t);
}.

(** Its documentation: a file that was written and closed without an error is read
    back as the rows written. *)
Class ParquetLibOk `{!ParquetLib} : Prop :=
  Read_written : ∀ rows w w', Write rows NewGenericWriter = (w, None) → Close w = (w', None) →
    Read (Bytes w') = Some rows.

(** The AWS SDK: [awsconfig.LoadDefaultConfig] with the optional static credentials
    and region. *)
Class AWS := {
  LoadDefaultConfig : option (string * string) → option string → option error;
}.

(** An S3 client, by what it was made from. *)
Record s3_Client := S3Client {
  Credentials : option (string * string);
  Region : option string;
  BaseEndpoint : option string;
  UsePathStyle : bool;
}.

Module ParquetSink.

Section rows.
Context `{!ProtoLib}.

(** [if ts != nil { x = ts.AsTime().Unix() }] *)
Definition unix_or_zero (ts : ptr Timestamp.t) : Z :=
  match ts with None => 0 | Some _ => Time_Unix (AsTime ts) end.

(** The columns of each event type; the others stay zero. *)
Record columns := Columns {
  c_stop_event_type : string;
  c_arrival : Z; c_departure : Z; c_dwell : Z;
  c_start : Z; c_end : Z; c_travel : Z;
  c_leading : string; c_following : string; c_headway : Z;
}.

Definition type_columns (e : Message) : columns :=
  match e with
  | msg_StopEvent ev =>
      Columns (StopEvent_EventType_String (StopEvent.GetStopEventType ev)) 0 0 0 0 0 0 "" "" 0
  | msg_DwellTimeEvent ev =>
      Columns "" (unix_or_zero (DwellTimeEvent.GetArrivalTime ev))
        (unix_or_zero (DwellTimeEvent.GetDepartureTime ev))
        (DwellTimeEvent.GetDwellTimeSeconds ev) 0 0 0 "" "" 0
  | msg_TravelTimeEvent ev =>
      Columns "" 0 0 0 (unix_or_zero (TravelTimeEvent.GetStartTime ev))
        (unix_or_zero (TravelTimeEvent.GetEndTime ev))
        (TravelTimeEvent.GetTravelTimeSeconds ev) "" "" 0
  | msg_HeadwayTimeEvent ev =>
      Columns "" 0 0 0 0 0 0 (HeadwayTimeEvent.GetLeadingVehicleId ev)
        (HeadwayTimeEvent.GetFollowingVehicleId ev) (HeadwayTimeEvent.GetHeadwaySeconds ev)
  | _ => Columns "" 0 0 0 0 0 0 "" "" 0
  end.

Definition toEventRow (e : Message) : EventRow.t :=
  let a := Event_GetAttributes e in
  let c := type_columns e in {|
  EventRow.EventType := type_name e;
  EventRow.AgencyID := EventAttributes.GetAgencyId a;
  EventRow.VehicleID := EventAttributes.GetVehicleId a;
  EventRow.RouteID := EventAttributes.GetRouteId a;
  EventRow.StopID := EventAttributes.GetStopId a;
  EventRow.OriginStopID := EventAttributes.GetOriginStopId a;
  EventRow.DestinationStopID := EventAttributes.GetDestinationStopId a;
  EventRow.DirectionID := EventAttributes.GetDirectionId a;
  EventRow.Direction := EventAttributes.GetDirection a;
  EventRow.DirectionDestination := EventAttributes.GetDirectionDestination a;
  EventRow.ParentStation := EventAttributes.GetParentStation a;
  EventRow.StopSequence := EventAttributes.GetStopSequence a;
  EventRow.StopStatus := int32 (EventAttributes.GetStopStatus a);
  EventRow.TripID := EventAttributes.GetTripId a;
  EventRow.ServiceDate := EventAttributes.GetServiceDate a;
  EventRow.Timestamp := unix_or_zero (EventAttributes.GetTimestamp a);
  EventRow.StopEventType := c_stop_event_type c;
  EventRow.ArrivalTime := c_arrival c;
  EventRow.DepartureTime := c_departure c;
  EventRow.DwellTimeSeconds := c_dwell c;
  EventRow.StartTime := c_start c;
  EventRow.EndTime := c_end c;
  EventRow.TravelTimeSeconds := c_travel c;
  EventRow.LeadingVehicleID := c_leading c;
  EventRow.FollowingVehicleID := c_following c;
  EventRow.HeadwaySeconds := c_headway c;
|}.
End rows.

(** ** Object keys *)

(** [t.Format("20060102_150405")] *)
Definition format (t : Time) : string :=
  let d := Calendar.date_of t in
  Calendar.four_digits (Calendar.Year d) +:+ Calendar.two_digits (Calendar.Month d) +:+ Calendar.two_digits (Calendar.Day d)
  +:+ "_" +:+ Calendar.two_digits (Calendar.hour_of t) +:+ Calendar.two_digits (Calendar.minute_of t)
  +:+ Calendar.two_digits (Calendar.second_of_minute t).

Record t := mk {
  s3Client : s3_Client;
  bucketName : string;
  prefix : string;
  eventType : string;
  maxBatchSize : Z;
  flushInterval : Z;
}.

(** [t] is in UTC. *)
Definition objectKey (s : t) (t : Time) : string :=
  let name := format t +:+ ".parquet" in
  let d := Calendar.date_of t in
  join "/"
    ((if decide (prefix s ≠ "") then [prefix s] else []) ++
     (if decide (eventType s ≠ "") then [eventType s] else []) ++
     ["year=" +:+ itoa (Calendar.Year d);
      "month=" +:+ Calendar.two_digits (Calendar.Month d);
      "day=" +:+ Calendar.two_digits (Calendar.Day d);
      name]).

(** ** The sink *)

Section sink.
Context `{!ProtoLib, !ParquetLib, !AWS}.

(** [buildS3Client] *)
Definition buildS3Client (pc : ParquetSinkConfig.t) : s3_Client + error :=
  let credentials :=
    if decide (ParquetSinkConfig.AWSAccessKey pc ≠ "")
    then Some (ParquetSinkConfig.AWSAccessKey pc, ParquetSinkConfig.AWSSecretKey pc) else None in
  let region :=
    if decide (ParquetSinkConfig.AWSRegion pc ≠ "")
    then Some (ParquetSinkConfig.AWSRegion pc) else None in
  match LoadDefaultConfig credentials region with
  | Some err => inr err
  | None =>
      if decide (ParquetSinkConfig.AWSEndpointURL pc ≠ "")
      then inl (S3Client credentials region (Some (ParquetSinkConfig.AWSEndpointURL pc)) true)
      else inl (S3Client credentials region None false)
  end.

(** [strings.TrimRight(s, "/")] *)
Fixpoint trim_right_slash (s : string) : string :=
  match s with
  | EmptyString => EmptyString
  | String c s' =>
      let r := trim_right_slash s' in
      if decide (r = "" ∧ String c "" = "/") then "" else String c r
  end.

Definition NewParquetSink (cfg : SinkConfig.t) : t + go_error :=
  let pc := SinkConfig.Parquet cfg in
  if decide (ParquetSinkConfig.BucketName pc = "") then inr (Errorf "parquet sink: bucket_name is required" [])
  else
  match buildS3Client pc with
  | inr err => inr (Wrapf "parquet sink: build s3 client: %w" [] (library_error err))
  | inl client =>
      inl {|
        s3Client := client;
        bucketName := ParquetSinkConfig.BucketName pc;
        prefix := trim_right_slash (ParquetSinkConfig.Prefix pc);
        eventType := ParquetSinkConfig.EventType pc;
        maxBatchSize :=
          if decide (SinkConfig.MaxBatchSize cfg ≤ 0) then 10000 else SinkConfig.MaxBatchSize cfg;
        flushInterval :=
          if decide (SinkConfig.FlushInterval cfg ≤ 0) then Hour else SinkConfig.FlushInterval cfg;
      |}
  end.

(** [serializeRows] *)
Definition serializeRows (rows : list EventRow.t) : list Byte.byte + error :=
  let w := NewGenericWriter in
  match Write rows w with
  | (w, Some err) => let _ := Close w in inr err
  | (w, None) =>
      match Close w with
      | (_, Some err) => inr err
      | (w, None) => inl (Bytes w)
      end
  end.

(** A call of [PutObject]: the object, and whether its context is the sink's own. *)
Record upload := Upload {
  bucket : string; key : string; body : list Byte.byte; upload_own_ctx : bool }.

(** [flush] at the time [now]: the upload it asks for, if any. *)
Definition flush (s : t) (now : Time) (f : Batching.flush EventRow.t) : option upload :=
  if decide (length (rows f) = 0%nat) then None else
  match serializeRows (rows f) with
  | inr _ => None
  | inl buf => Some (Upload (bucketName s) (objectKey s now) buf (own_ctx f))
  end.

(** The bucket of the sink after a flush, by the answer of S3: a file that is refused
    is logged and given up. *)
Definition put (b : gmap string (list Byte.byte)) (s : t) (now : Time)
    (f : Batching.flush EventRow.t) (answer : option error) : gmap string (list Byte.byte) :=
  match flush s now f, answer with
  | Some u, None => <[key u := body u]> b
  | _, _ => b
  end.

(** A run's flushes, each at its time and with its answer. *)
Fixpoint puts (b : gmap string (list Byte.byte)) (s : t)
    (l : list (Time * Batching.flush EventRow.t * option error)) : gmap string (list Byte.byte) :=
  match l with
  | [] => b
  | (now, f, answer) :: l => puts (put b s now f answer) s l
  end.

Definition doSink (s : t) (ins : list input)
    : list EventRow.t * list (Batching.flush EventRow.t) :=
  turns (λ x, toEventRow <$> as_Event x) (maxBatchSize s) true [] ins.
End sink.
End ParquetSink.

Module ParquetSpec.
Import ParquetSink.

(** ** Rows *)

Section rows.
Context `{!ProtoLib}.

(** Reading a row back. *)
Definition row_attributes (r : EventRow.t) : EventAttributes.t := {|
  EventAttributes.AgencyId := EventRow.AgencyID r;
  EventAttributes.VehicleId := EventRow.VehicleID r;
  EventAttributes.RouteId := EventRow.RouteID r;
  EventAttributes.StopId := EventRow.StopID r;
  EventAttributes.OriginStopId := EventRow.OriginStopID r;
  EventAttributes.DestinationStopId := EventRow.DestinationStopID r;
  EventAttributes.DirectionId := EventRow.DirectionID r;
  EventAttributes.Direction := EventRow.Direction r;
  EventAttributes.DirectionDestination := EventRow.DirectionDestination r;
  EventAttributes.ParentStation := EventRow.ParentStation r;
  EventAttributes.StopSequence := EventRow.StopSequence r;
  EventAttributes.StopStatus := EventRow.StopStatus r;
  EventAttributes.TripId := EventRow.TripID r;
  EventAttributes.ServiceDate := EventRow.ServiceDate r;
  EventAttributes.Timestamp := Some (Timestamp.mk (EventRow.Timestamp r) 0);
|}.

Definition stop_event_type (s : string) : Z :=
  if decide (s = "ARRIVAL") then StopEvent_ARRIVAL
  else if decide (s = "DEPARTURE") then StopEvent_DEPARTURE else StopEvent_UNKNOWN.

Definition event_of_row (r : EventRow.t) : option Message :=
  let a := Some (row_attributes r) in
  let at_ s := Some (Timestamp.mk s 0) in
  if decide (EventRow.EventType r = "StopEvent") then
    Some (msg_StopEvent (Some (StopEvent.mk a (stop_event_type (EventRow.StopEventType r)))))
  else if decide (EventRow.EventType r = "DwellTimeEvent") then
    Some (msg_DwellTimeEvent (Some (DwellTimeEvent.mk a (at_ (EventRow.ArrivalTime r))
      (at_ (EventRow.DepartureTime r)) (EventRow.DwellTimeSeconds r))))
  else if decide (EventRow.EventType r = "TravelTimeEvent") then
    Some (msg_TravelTimeEvent (Some (TravelTimeEvent.mk a (at_ (EventRow.StartTime r))
      (at_ (EventRow.EndTime r)) (EventRow.TravelTimeSeconds r))))
  else if decide (EventRow.EventType r = "HeadwayTimeEvent") then
    Some (msg_HeadwayTimeEvent (Some (HeadwayTimeEvent.mk a (EventRow.LeadingVehicleID r)
      (EventRow.FollowingVehicleID r) (EventRow.HeadwaySeconds r))))
  else None.

(** A timestamp in whole seconds. *)
Definition whole_second (ts : ptr Timestamp.t) : Prop :=
  ∃ s, ts = Some (Timestamp.mk s 0) ∧ in_int64 s ∧ in_int64 (s + unixToInternal).

Definition whole_attributes (a : ptr EventAttributes.t) : Prop :=
  ∃ a', a = Some a' ∧ whole_second (EventAttributes.Timestamp a') ∧
    in_int32 (EventAttributes.StopStatus a').

(** The metric events with all their times, in whole seconds. *)
Definition timed (m : Message) : Prop :=
  match m with
  | msg_StopEvent (Some e) =>
      whole_attributes (StopEvent.Attributes e) ∧
      StopEvent.StopEventType e ∈ [StopEvent_UNKNOWN; StopEvent_ARRIVAL; StopEvent_DEPARTURE]
  | msg_DwellTimeEvent (Some e) =>
      whole_attributes (DwellTimeEvent.Attributes e) ∧
      whole_second (DwellTimeEvent.ArrivalTime e) ∧ whole_second (DwellTimeEvent.DepartureTime e)
  | msg_TravelTimeEvent (Some e) =>
      whole_attributes (TravelTimeEvent.Attributes e) ∧
      whole_second (TravelTimeEvent.StartTime e) ∧ whole_second (TravelTimeEvent.EndTime e)
  | msg_HeadwayTimeEvent (Some e) => whole_attributes (HeadwayTimeEvent.Attributes e)
  | _ => False
  end.

#[export] Instance whole_second_dec ts : Decision (whole_second ts).
Proof.
  destruct ts as [[s n]|]; [|right; by intros (? & ? & _)].
  destruct (decide (n = 0 ∧ in_int64 s ∧ in_int64 (s + unixToInternal))) as [Hs|Hs].
  - left. destruct Hs as (-> & ? & ?). by exists s.
  - right. intros (s' & [= <- ->] & ? & ?). by apply Hs.
Defined.
#[export] Instance whole_attributes_dec a : Decision (whole_attributes a).
Proof.
  destruct a as [a|]; [|right; by intros (? & ? & _)].
  destruct (decide (whole_second (EventAttributes.Timestamp a) ∧ in_int32 (EventAttributes.StopStatus a)))
    as [Ha|Ha].
  - left. destruct Ha. by exists a.
  - right. intros (a' & [= <-] & ? & ?). by apply Ha.
Defined.
#[export] Instance timed_dec m : Decision (timed m).
Proof. unfold timed. repeat case_match; apply _. Defined.

Lemma unix_whole `{!ProtoLibOk} ts :
  whole_second ts → Some (Timestamp.mk (unix_or_zero ts) 0) = ts.
Proof.
  intros (s & -> & Hs & Hs'). unfold unix_or_zero. rewrite AsTime_unix. cbn.
  rewrite Unix_whole by done. unfold Time_Unix. cbn. f_equal. f_equal.
  replace (s + unixToInternal - unixToInternal) with s by lia. by apply int64_small.
Qed.

Lemma attributes_roundtrip `{!ProtoLibOk} m :
  whole_attributes (Event_GetAttributes m) →
  Some (row_attributes (toEventRow m)) = Event_GetAttributes m.
Proof.
  intros (a & Ha & Ht & Hs). unfold row_attributes, toEventRow. rewrite Ha. f_equal.
  cbn. rewrite int32_small, unix_whole by done. by destruct a.
Qed.

(** The flat row loses nothing: a stop, dwell, travel-time or headway event
    whose times are given in whole seconds can be read back from its row. *)
Theorem row_roundtrip `{!ProtoLibOk} m : timed m → event_of_row (toEventRow m) = Some m.
Proof.
  intros Hm. unfold event_of_row.
  destruct m as [| | |[e|]|[e|]|[e|]|[e|]]; try done; destruct e; cbn in Hm.
  all: rewrite attributes_roundtrip by (cbn; tauto); cbn [toEventRow type_columns type_name].
  all: try destruct Hm as (_ & Hs & He); cbn.
  1: destruct Hm as [_ Hty]; cbn in Hty; rewrite !elem_of_cons, elem_of_nil in Hty;
    destruct_or! Hty; subst; by vm_compute.
  all: rewrite ?decide_False by done; rewrite ?decide_True by done; by rewrite ?unix_whole by done.
Qed.
End rows.

(** ** Files *)

Section files.
Context `{!ProtoLib, !ParquetLib, !AWS}.

Lemma format_second t t' : time_sec t = time_sec t' → format t = format t'.
Proof.
  intros Ht. unfold format, Calendar.date_of, Calendar.day_of, Calendar.hour_of,
    Calendar.minute_of, Calendar.second_of_minute. by rewrite Ht.
Qed.

(** *** Names of objects *)

Lemma join_cons_app sep x (l : list string) y k :
  join sep (x :: (l ++ y :: k)) = x +:+ sep +:+ join sep (l ++ y :: k).
Proof. by destruct l. Qed.

Lemma join_app_cons sep (l : list string) y k :
  join sep (l ++ y :: k) = join sep (l ++ [""]) +:+ join sep (y :: k).
Proof.
  induction l as [|x l IH]; [done|]. cbn [app]. by rewrite !join_cons_app, IH, !append_assoc.
Qed.

(** The part of an object's name that tells its time. *)
Definition dated (t : Time) : string :=
  let d := Calendar.date_of t in
  join "/" ["year=" +:+ itoa (Calendar.Year d); "month=" +:+ Calendar.two_digits (Calendar.Month d);
    "day=" +:+ Calendar.two_digits (Calendar.Day d); format t +:+ ".parquet"].

Lemma objectKey_dated s : ∃ pre, ∀ t, objectKey s t = pre +:+ dated t.
Proof. eexists. intros t. unfold objectKey. rewrite app_assoc. apply join_app_cons. Qed.

(** The numbers of a time that are written with two digits. *)
Lemma clock_ranges t :
  0 ≤ Calendar.Month (Calendar.date_of t) < 100 ∧ 0 ≤ Calendar.Day (Calendar.date_of t) < 100 ∧
  0 ≤ Calendar.hour_of t < 100 ∧ 0 ≤ Calendar.minute_of t < 100 ∧
  0 ≤ Calendar.second_of_minute t < 100.
Proof.
  destruct (Calendar.date_ranges (Calendar.day_of t)) as (? & ? & _).
  unfold Calendar.date_of, Calendar.hour_of, Calendar.minute_of, Calendar.second_of_minute.
  split_and!; try lia; Z.to_euclidean_division_equations; lia.
Qed.

(** From the year 1 on, the name tells the second. *)
Lemma dated_inj t t' :
  0 ≤ time_sec t → 0 ≤ time_sec t' → dated t = dated t' → time_sec t = time_sec t'.
Proof.
  intros Ht Ht' Heq.
  destruct (clock_ranges t) as (Hm & Hd & Hh & Hmin & Hs), (clock_ranges t') as (Hm' & Hd' & Hh' & Hmin' & Hs').
  destruct (Calendar.date_ranges (Calendar.day_of t)) as (_ & _ & Hy).
  destruct (Calendar.date_ranges (Calendar.day_of t')) as (_ & _ & Hy').
  specialize (Hy ltac:(unfold Calendar.day_of; Z.to_euclidean_division_equations; lia)).
  specialize (Hy' ltac:(unfold Calendar.day_of; Z.to_euclidean_division_equations; lia)).
  fold (Calendar.date_of t) in Hy. fold (Calendar.date_of t') in Hy'.
  pose proof Calendar.two_digits_length as Hl. pose proof Calendar.two_digits_inj as Hi.
  unfold dated, format in Heq. cbn [join] in Heq. rewrite !append_assoc in Heq.
  assert (∀ a a' n n', 0 ≤ n < 100 → 0 ≤ n' < 100 →
    a +:+ Calendar.two_digits n = a' +:+ Calendar.two_digits n' → a = a' ∧ n = n') as Hcut.
  { intros a a' n n' Hn Hn' [-> He]%append_suffix_inj; [split; [done|by apply Hi]|by rewrite !Hl]. }
  apply append_suffix_inj in Heq as [Heq _]; [|done].
  apply Hcut in Heq as [Heq Hes]; [|done..]. apply Hcut in Heq as [Heq Hem]; [|done..].
  apply Hcut in Heq as [Heq Heh]; [|done..]. apply append_suffix_inj in Heq as [Heq _]; [|done].
  apply Hcut in Heq as [Heq Hed]; [|done..]. apply Hcut in Heq as [Heq Hemo]; [|done..].
  apply Calendar.clock_inj; [|done..].
  assert (String.length (itoa (Calendar.Year (Calendar.date_of t))) =
    String.length (itoa (Calendar.Year (Calendar.date_of t')))) as Hlen.
  { apply (f_equal String.length) in Heq. unfold Calendar.four_digits in Heq.
    rewrite !length_append, !Calendar.zero_pad_length, !Hl in Heq by done. lia. }
  apply append_suffix_inj in Heq as [_ Heq];
    [|unfold Calendar.four_digits; rewrite !Calendar.zero_pad_length by done; by rewrite Hlen].
  apply Calendar.zero_pad_inj in Heq; [|done..].
  destruct (Calendar.date_of t), (Calendar.date_of t'). cbn in *. by subst.
Qed.

(** Files are named after the second of their upload: two flushes of a sink
    within one second ask for the same object, and the later file replaces the
    earlier one. *)
Theorem same_second_same_key s t t' f f' u u' :
  time_sec t = time_sec t' → flush s t f = Some u → flush s t' f' = Some u' → key u = key u'.
Proof.
  intros Ht. unfold flush.
  case_decide; [done|]. destruct (serializeRows (rows f)); [|done]. intros [= <-].
  case_decide; [done|]. destruct (serializeRows (rows f')); [|done]. intros [= <-]. cbn.
  unfold objectKey, Calendar.date_of, Calendar.day_of. by rewrite Ht, (format_second t t').
Qed.

Lemma objectKey_iff s t t' :
  0 ≤ time_sec t → 0 ≤ time_sec t' → objectKey s t = objectKey s t' ↔ time_sec t = time_sec t'.
Proof.
  intros Ht Ht'. split.
  - destruct (objectKey_dated s) as [pre Hpre]. rewrite !Hpre.
    intros [_ Heq]%append_prefix_inj; [|done]. by apply dated_inj.
  - intros Heq. unfold objectKey, Calendar.date_of, Calendar.day_of.
    by rewrite Heq, (format_second t t').
Qed.

(** *** What ends up in the bucket *)

Lemma serialize_read `{!ParquetLibOk} rows buf : serializeRows rows = inl buf → Read buf = Some rows.
Proof.
  unfold serializeRows. destruct (Write rows NewGenericWriter) as [w [err|]] eqn:Hw; [done|].
  destruct (Close w) as [w' [err|]] eqn:Hc; [done|]. intros [= <-]. by eapply Read_written.
Qed.

Lemma put_lookup_ne b s now f answer k : objectKey s now ≠ k → put b s now f answer !! k = b !! k.
Proof.
  intros Hk. unfold put, flush. case_decide; [done|].
  destruct (serializeRows (rows f)); [|done]. destruct answer; [done|]. cbn. by apply lookup_insert_ne.
Qed.

Lemma puts_lookup_ne b s l k :
  Forall (λ x : Time * Batching.flush EventRow.t * option error, objectKey s x.1.1 ≠ k) l →
  puts b s l !! k = b !! k.
Proof.
  intros Hl. revert b. induction Hl as [|[[now f] answer] l Hk _ IH]; intros b; [done|].
  cbn [puts]. rewrite IH. by apply put_lookup_ne.
Qed.

(** A flush that is the only one of its second leaves its rows in the bucket. *)
Lemma puts_holds `{!ParquetLibOk} b s l1 now f buf l2 :
  0 < len (rows f) → serializeRows (rows f) = inl buf →
  Forall (λ x : Time * Batching.flush EventRow.t * option error, objectKey s x.1.1 ≠ objectKey s now) l2 →
  ∃ file, puts b s (l1 ++ (now, f, None) :: l2) !! objectKey s now = Some file ∧
    Read file = Some (rows f).
Proof.
  intros Hr Hbuf Hl2. exists buf. split; [|by apply serialize_read].
  revert b. induction l1 as [|[[now' f'] answer'] l1 IH]; intros b; [|apply IH].
  cbn [app puts]. rewrite puts_lookup_ne by done. unfold put, flush.
  rewrite decide_False by (unfold len in Hr; lia). rewrite Hbuf. cbn. by rewrite lookup_insert_eq.
Qed.

(** The events a sink takes before it returns. *)
Definition events_taken (ins : list input) : list Message := taken as_Event ins.

Lemma taken_rows ins : taken (λ x, toEventRow <$> as_Event x) ins = toEventRow <$> events_taken ins.
Proof.
  unfold events_taken. induction ins as [|[| |x|] ins IH]; cbn [taken]; try done.
  destruct (as_Event x) as [m|]; cbn; [|done]. by rewrite IH.
Qed.

(** Row by row, what a sink flushes, with what one that was not cancelled has left, is
    the events it took, in order. *)
Lemma sink_conserves_rows s ins rest fs :
  doSink s ins = (rest, fs) →
  flushed fs ++ (match ending ins with Some ctx_Done => [] | _ => rest end)
    = toEventRow <$> events_taken ins.
Proof.
  intros Hrun. pose proof (turns_conserve (λ x, toEventRow <$> as_Event x) (maxBatchSize s) true [] ins) as Hc.
  change (turns _ _ _ _ _) with (doSink s ins) in Hc. rewrite Hrun in Hc. cbn [fst snd app] in Hc.
  by rewrite Hc, taken_rows.
Qed.

Lemma sink_bounded s ins :
  0 < maxBatchSize s → len (doSink s ins).1 < maxBatchSize s ∧
  Forall (λ f, 0 < len (rows f) ≤ maxBatchSize s) (doSink s ins).2.
Proof. intros Hmax. by apply turns_bounded. Qed.

Lemma sink_rest_bounded s ins rest fs :
  0 < maxBatchSize s → doSink s ins = (rest, fs) → len rest < maxBatchSize s.
Proof. intros Hmax Hrun. pose proof (sink_bounded s ins Hmax) as [Hlen _]. by rewrite Hrun in Hlen. Qed.

(** What a run of the sink leaves in S3.  [l] are its flushes, with their times, no
    two in the same second, and S3's answers.  Every batch that could be encoded and
    that S3 took is in the bucket under its own name and reads back as its rows. *)
Lemma bucket_holds_batches `{!ParquetLibOk} s ins rest l b :
  doSink s ins = (rest, l.*1.*2) → 0 < maxBatchSize s →
  Forall (λ x, 0 ≤ time_sec x) l.*1.*1 → NoDup (time_sec <$> l.*1.*1) →
  Forall (λ x, x.2 = None → ∀ buf, serializeRows (rows x.1.2) = inl buf →
      puts b s l !! objectKey s x.1.1 ≫= Read = Some (rows x.1.2)) l.
Proof.
  intros Hrun Hmax Hpos Hnd.
  pose proof (sink_bounded s ins Hmax) as [_ Hlen]. rewrite Hrun in Hlen. cbn in Hlen.
  apply Forall_forall. intros [[now f] answer] Hin Hok buf Hbuf. cbn in Hok, Hbuf |- *. subst answer.
  apply list_elem_of_split in Hin as (l1 & l2 & ->).
  rewrite !fmap_app, !fmap_cons in Hpos. rewrite !fmap_app, !fmap_cons in Hnd.
  rewrite !fmap_app, !fmap_cons in Hlen. cbn in Hpos, Hnd, Hlen.
  apply Forall_app in Hpos as [_ [Hnow Hpos]%Forall_cons].
  apply Forall_app in Hlen as [_ [[Hf _] _]%Forall_cons].
  apply NoDup_app in Hnd as (_ & _ & [Hnd _]%NoDup_cons).
  destruct (puts_holds b s l1 now f buf l2) as (file & -> & Hread); [done..| |exact Hread].
  apply Forall_forall. intros [[t f'] answer] Hx Hk. cbn in Hk. apply Hnd.
  rewrite Forall_forall in Hpos.
  assert (t ∈ l2.*1.*1) as Ht by (apply list_elem_of_fmap; exists (t, f'); split; [done|];
    apply list_elem_of_fmap; by exists (t, f', answer)).
  apply objectKey_iff in Hk; [|by apply Hpos|done]. rewrite <- Hk. by apply list_elem_of_fmap_2.
Qed.

(** On cancellation the sink flushes every row it has left, in order, but the
    last upload uses the context that was just cancelled. *)
Theorem parquet_shutdown s ins rest fs :
  doSink s ins = (rest, fs) → ending ins = Some ctx_Done →
  flushed fs = taken (λ x, toEventRow <$> as_Event x) ins ∧
  (rest ≠ [] → ∃ fs', fs = fs' ++ [Flush rest true]).
Proof.
  intros Hd He. unfold doSink in Hd. split.
  - pose proof (turns_conserve (λ x, toEventRow <$> as_Event x) (maxBatchSize s) true [] ins) as Hc.
    by rewrite Hd, He, app_nil_r in Hc.
  - intros Hr. by eapply turns_last_flush.
Qed.

Lemma trim_right_no_slash s r : trim_right_slash s = r +:+ "/" → False.
Proof.
  revert r. induction s as [|c s IH]; intros r; cbn [trim_right_slash]; [by destruct r|].
  case_decide as Hc; [by destruct r|]. destruct r as [|c' r].
  - intros Heq. assert (String c "" = "/" ∧ trim_right_slash s = "") as [] by
      (change ("" +:+ "/") with "/" in Heq; injection Heq as -> ->; done). tauto.
  - change (String c' r +:+ "/") with (String c' (r +:+ "/")). intros [= _ Heq]. by eapply IH.
Qed.

(** A sink that could be built has a bucket, a positive batch size (10 000
    unless configured) and interval (an hour unless configured), and a prefix
    that does not end in a slash; its flushes hold 1 to its batch size rows. *)
Theorem parquet_sink_batches cfg s ins :
  NewParquetSink cfg = inl s →
  bucketName s ≠ "" ∧ 0 < maxBatchSize s ∧ 0 < flushInterval s ∧
  (∀ r, prefix s ≠ r +:+ "/") ∧
  Forall (λ f, 0 < len (rows f) ≤ maxBatchSize s) (doSink s ins).2.
Proof.
  unfold NewParquetSink. case_decide; [done|]. destruct (buildS3Client _); [|done].
  intros [= <-]. cbn [bucketName prefix maxBatchSize flushInterval].
  assert (0 < (if decide (SinkConfig.MaxBatchSize cfg ≤ 0) then 10000
               else SinkConfig.MaxBatchSize cfg)) as Hn by (case_decide; lia).
  split_and!; [done|done| | |by apply turns_bounded].
  { destruct (decide (SinkConfig.FlushInterval cfg ≤ 0)); [done|lia]. }
  intros r Hr. by eapply trim_right_no_slash.
Qed.
End files.

(** *** Concrete runs *)

(** A format of one file: it writes this table and refuses all others. *)
Definition format_of (table : list EventRow.t) : ParquetLib := {|
  Writer := list EventRow.t;
  NewGenericWriter := [];
  Write rows _ := if decide (rows = table) then (rows, None) else ([], Some "unknown table");
  Close w := (w, None);
  Bytes _ := [Byte.x00];
  Read _ := Some table;
|}.
Lemma format_of_ok table : @ParquetLibOk (format_of table).
Proof. intros rows w w'. cbn. case_decide as Hr; intros [= <-] [= <-]; by subst. Qed.

Section witnesses.
Local Existing Instances unix_lib unix_lib_ok.
Local Instance any_aws : AWS := {| LoadDefaultConfig _ _ := None |}.

Definition sample_sink : t := mk (S3Client None None None false) "bucket" "transit/events" "stop_events" 100 Hour.

Example sample_key : objectKey sample_sink (Unix 1709208005 0)
  = "transit/events/stop_events/year=2024/month=02/day=29/20240229_120005.parquet".
Proof. by vm_compute. Qed.

Definition sample_stop_message : Message :=
  match sample_stop "v1" "s1" StopEvent_ARRIVAL 1000 with any_msg m => m | _ => zero_of K_StopEvent end.

Lemma row_roundtrip_witness :
  event_of_row (toEventRow sample_stop_message) = Some sample_stop_message.
Proof.
  apply row_roundtrip. split; [|apply list_elem_of_further, list_elem_of_here].
  eexists. split; [done|]. cbn. split; [|unfold in_int32, StopStatus_STOPPED_AT; lia].
  exists 1000. split; [done|]. unfold in_int64, unixToInternal. lia.
Defined.

Definition sample_table : list EventRow.t := [toEventRow sample_stop_message].
Local Existing Instance format_of_ok.
Local Instance one_table : ParquetLib := format_of sample_table.

Definition sample_rows : Batching.flush EventRow.t := Flush [toEventRow sample_stop_message] true.

Lemma same_second_same_key_witness : ∃ u u',
  flush sample_sink (Unix 1709208005 1) sample_rows = Some u ∧
  flush sample_sink (Unix 1709208005 999999999) sample_rows = Some u' ∧ key u = key u'.
Proof.
  eexists _, _. split_and!; [done|done|].
  by apply (same_second_same_key sample_sink (Unix 1709208005 1) (Unix 1709208005 999999999)
    sample_rows sample_rows).
Defined.

Definition sample_inputs : list input := [
  msg_in (sample_stop "v1" "s1" StopEvent_ARRIVAL 1000); msg_in (any_other "string"); ctx_Done].

Lemma parquet_shutdown_witness : ∃ f,
  (doSink sample_sink sample_inputs).2 = [f] ∧
  flushed [f] = taken (λ x, toEventRow <$> as_Event x) sample_inputs.
Proof.
  eexists. split; [by vm_compute|]. by eapply (parquet_shutdown sample_sink sample_inputs).
Defined.

Definition sample_time : Time := Unix 1709208005 0.

Lemma bucket_holds_batches_witness :
  puts ∅ sample_sink [(sample_time, sample_rows, None)] !! objectKey sample_sink sample_time ≫= Read
  = Some sample_table.
Proof.
  pose proof (bucket_holds_batches sample_sink sample_inputs sample_table
    [(sample_time, sample_rows, None)] ∅) as Hall.
  apply Forall_singleton in Hall; [apply (Hall eq_refl [Byte.x00]); by vm_compute|..].
  - by vm_compute.
  - done.
  - each (by vm_compute).
  - apply NoDup_singleton.
Defined.

Definition sample_config : SinkConfig.t :=
  SinkConfig.mk "pq" "parquet" 0 2 0 0 "" (BucketConfig.mk "" "") "" (RedisConfig.mk "" "" 0 "")
    (SSESinkConfig.mk "" "") "" (DatabaseSinkConfig.mk "" "" "")
    (ParquetSinkConfig.mk "bucket" "transit/events//" "stop_events" "" "" "" "").

Lemma parquet_sink_batches_witness : ∃ s,
  NewParquetSink sample_config = inl s ∧ prefix s = "transit/events" ∧ 0 < maxBatchSize s.
Proof.
  eexists. split_and!; [done|done|]. by eapply (parquet_sink_batches sample_config _ sample_inputs).
Defined.
End witnesses.
End ParquetSpec.
