(* ===== verification/FeedEvents.v ===== *)
(** * From feeds to vehicle positions ([processors/transit/feed_message_events],
    [processors/transit/vehicle_position_events])

    Two processors without state: the FeedMessageProcessor decodes a
    GTFS-realtime feed, and the VehiclePositionEventProcessor sends one event per
    vehicle of the feed that reports a stop. *)
From S2P Require Import Prelude GoTime Gtfs Events StateStore Proc.

Module FeedMessageProcessor.

(** The body of the loop of [doStream]; [agencyID] is the field of the
    processor. *)
Definition handle `{!ProtoLib} (agencyID : string) (event : any) : prog :=
  let send feedMessage :=
    chan_Send (any_msg (msg_FeedMessageEvent (Some {|
      FeedMessageEvent.AgencyId := agencyID;
      FeedMessageEvent.FeedMessage := feedMessage;
    |}))) Return in
  match event with
  | any_bytes v =>
      match Unmarshal v (msg_gtfs_FeedMessage (Some (FeedMessage.mk None []))) with
      | inr _ => Return
      | inl (msg_gtfs_FeedMessage msg) => send msg
      | inl _ => Return (* [Unmarshal] fills in the message it is given *)
      end
  | any_msg (msg_gtfs_FeedMessage v) => send v
  | _ => Return
  end.
End FeedMessageProcessor.

Module VehiclePositionEventProcessor.

Section processor.
Context `{!ProtoLib}.

(** The switch on [vehicle.GetCurrentStatus().Number()]. *)
Definition stop_status (currentStatus : Z) : Z :=
  if decide (currentStatus = VehiclePosition_IN_TRANSIT_TO) then StopStatus_IN_TRANSIT_TO
  else if decide (currentStatus = VehiclePosition_STOPPED_AT) then StopStatus_STOPPED_AT
  else if decide (currentStatus = VehiclePosition_INCOMING_AT) then StopStatus_INCOMING_AT
  else StopStatus_UNKNOWN.

(** The composite literal that is sent. *)
Definition make_position (agencyId vehicleId stopId : string) (status : Z)
    (vehicle : ptr VehiclePosition.t) : VehiclePositionEvent.t := {|
  VehiclePositionEvent.Attributes := Some {|
    EventAttributes.AgencyId := agencyId;
    EventAttributes.VehicleId := vehicleId;
    EventAttributes.RouteId := TripDescriptor.GetRouteId (VehiclePosition.GetTrip vehicle);
    EventAttributes.StopId := stopId;
    EventAttributes.OriginStopId := "";
    EventAttributes.DestinationStopId := "";
    EventAttributes.DirectionId :=
      itoa (TripDescriptor.GetDirectionId (VehiclePosition.GetTrip vehicle));
    EventAttributes.Direction := "";
    EventAttributes.DirectionDestination := "";
    EventAttributes.ParentStation := "";
    EventAttributes.StopSequence := int32 (VehiclePosition.GetCurrentStopSequence vehicle);
    EventAttributes.StopStatus := status;
    EventAttributes.TripId := TripDescriptor.GetTripId (VehiclePosition.GetTrip vehicle);
    EventAttributes.ServiceDate := TripDescriptor.GetStartDate (VehiclePosition.GetTrip vehicle);
    EventAttributes.Timestamp :=
      Some (timestamppb_New (Unix (int64 (VehiclePosition.GetTimestamp vehicle)) 0));
  |};
  VehiclePositionEvent.Latitude :=
    float64_of_float32 (Position.GetLatitude (VehiclePosition.GetPosition vehicle));
  VehiclePositionEvent.Longitude :=
    float64_of_float32 (Position.GetLongitude (VehiclePosition.GetPosition vehicle));
|}.

(** The loop over the entities of a feed. *)
Fixpoint each_entity (agencyId : string) (entities : list (ptr FeedEntity.t)) : prog :=
  match entities with
  | [] => Return
  | entity :: rest =>
      match FeedEntity.GetVehicle entity with
      | None => each_entity agencyId rest
      | Some v =>
          let vehicle := Some v in
          let status := stop_status (VehiclePosition.GetCurrentStatus vehicle) in
          let stopId := VehiclePosition.GetStopId vehicle in
          if decide (stopId = "") then each_entity agencyId rest
          else
            let vehicleId := VehicleDescriptor.GetId (VehiclePosition.GetVehicle vehicle) in
            let vehicleId :=
              if decide (vehicleId = "")
              then TripDescriptor.GetTripId (VehiclePosition.GetTrip vehicle) else vehicleId in
            chan_Send (any_msg (msg_VehiclePositionEvent (Some
              (make_position agencyId vehicleId stopId status vehicle))))
              (each_entity agencyId rest)
      end
  end.

(** The body of the loop of [doStream] for one element of [v.in]. *)
Definition handle (event : any) : prog :=
  match event with
  | any_msg (msg_FeedMessageEvent feedMessageEvent) =>
      let agencyId := FeedMessageEvent.GetAgencyId feedMessageEvent in
      match FeedMessageEvent.GetFeedMessage feedMessageEvent with
      | Some feedMessage => each_entity agencyId (FeedMessage.GetEntity (Some feedMessage))
      | None => Return
      end
  | _ => Return
  end.
End processor.
End VehiclePositionEventProcessor.

Module FeedSpec.

(** The vehicles of a feed that report a stop, in the order of the feed. *)
Definition stopped_vehicle (entity : ptr FeedEntity.t) : option VehiclePosition.t :=
  v ← FeedEntity.GetVehicle entity;
  if decide (VehiclePosition.GetStopId (Some v) = "") then None else Some v.

Definition vehicles (fm : FeedMessage.t) : list VehiclePosition.t :=
  omap stopped_vehicle (FeedMessage.Entity fm).

(** How a vehicle is identified: by its trip when it has no id of its own. *)
Definition identity (v : VehiclePosition.t) : string :=
  let id := VehicleDescriptor.GetId (VehiclePosition.GetVehicle (Some v)) in
  if decide (id = "") then TripDescriptor.GetTripId (VehiclePosition.GetTrip (Some v)) else id.

(** The GTFS status a vehicle reports and the event's status correspond. *)
Definition same_status (gtfs ours : Z) : Prop :=
  gtfs = VehiclePosition_INCOMING_AT ∧ ours = StopStatus_INCOMING_AT ∨
  gtfs = VehiclePosition_STOPPED_AT ∧ ours = StopStatus_STOPPED_AT ∨
  gtfs = VehiclePosition_IN_TRANSIT_TO ∧ ours = StopStatus_IN_TRANSIT_TO ∨
  (gtfs < 0 ∨ 2 < gtfs) ∧ ours = StopStatus_UNKNOWN.

(** What an event says of the vehicle [v] of the feed of [agency]. *)
Record describes (agency : string) (v : VehiclePosition.t) (a : EventAttributes.t) : Prop := {
  d_agency : EventAttributes.AgencyId a = agency;
  d_vehicle : EventAttributes.VehicleId a = identity v;
  d_stop : EventAttributes.StopId a = VehiclePosition.GetStopId (Some v);
  d_stop_given : EventAttributes.StopId a ≠ "";
  d_route : EventAttributes.RouteId a =
    TripDescriptor.GetRouteId (VehiclePosition.GetTrip (Some v));
  d_trip : EventAttributes.TripId a =
    TripDescriptor.GetTripId (VehiclePosition.GetTrip (Some v));
  d_status : same_status (VehiclePosition.GetCurrentStatus (Some v))
    (EventAttributes.StopStatus a);
  d_sequence : in_int32 (VehiclePosition.GetCurrentStopSequence (Some v)) →
    EventAttributes.StopSequence a = VehiclePosition.GetCurrentStopSequence (Some v);
  d_time : ∀ s, VehiclePosition.GetTimestamp (Some v) = s →
    in_int64 s → in_int64 (s + unixToInternal) →
    EventAttributes.Timestamp a = Some (Timestamp.mk s 0);
}.

Section spec.
Context `{!ProtoLib} {S : Type} `{!StateStore S}.
Import VehiclePositionEventProcessor.

(** The event of a vehicle. *)
Definition position_of (agency : string) (v : VehiclePosition.t) : VehiclePositionEvent.t :=
  make_position agency (identity v) (VehiclePosition.GetStopId (Some v))
    (stop_status (VehiclePosition.GetCurrentStatus (Some v))) (Some v).

Definition positions (agency : string) (fm : FeedMessage.t) : list VehiclePositionEvent.t :=
  position_of agency <$> vehicles fm.

Lemma exec_each_entity agency entities clk i (st : S) :
  exec clk i (each_entity agency entities) st =
    (st, (λ v, any_msg (msg_VehiclePositionEvent (Some (position_of agency v))))
           <$> omap stopped_vehicle entities).
Proof.
  induction entities as [|en rest IH]; [done|].
  rewrite omap_cons_eq. cbn [each_entity]. unfold stopped_vehicle at 1.
  destruct (FeedEntity.GetVehicle en) as [v|]; [cbn [mbind option_bind]|exact IH].
  case_decide as Hs; [exact IH|]. cbn [exec]. by rewrite IH.
Qed.

Lemma stop_status_same z : same_status z (stop_status z).
Proof.
  unfold stop_status, same_status, VehiclePosition_INCOMING_AT, VehiclePosition_STOPPED_AT,
    VehiclePosition_IN_TRANSIT_TO. repeat case_decide; lia.
Qed.

Lemma elem_of_vehicles v fm : v ∈ vehicles fm → VehiclePosition.GetStopId (Some v) ≠ "".
Proof.
  unfold vehicles. intros (en & _ & Hen)%list_elem_of_omap. revert Hen. unfold stopped_vehicle.
  destruct (FeedEntity.GetVehicle en); cbn; [|done]. case_decide; naive_solver.
Qed.

Lemma position_describes `{!ProtoLibOk} agency v :
  VehiclePosition.GetStopId (Some v) ≠ "" → ∃ a,
    VehiclePositionEvent.Attributes (position_of agency v) = Some a ∧ describes agency v a.
Proof.
  intros Hs. eexists. split; [done|]. split; cbn; try done.
  - apply stop_status_same.
  - apply int32_small.
  - intros s <- Hs1 Hs2. rewrite timestamppb_New_unix, int64_small, Unix_whole by done.
    unfold Time_Unix. cbn. f_equal. f_equal.
    replace (_ - _) with (default 0 (VehiclePosition.Timestamp v)) by lia. by apply int64_small.
Qed.

(** A feed gives one VehiclePositionEvent for each of its vehicles that
    reports a stop, in the order of the feed and nothing else; each event
    carries the agency, the vehicle's stop, route, trip, status and whole-second
    timestamp, and is identified by the vehicle's id or, when there is none, by
    its trip. *)
Theorem feed_gives_positions `{!ProtoLibOk} agency fm clk i (st : S) :
  ∃ vs,
    exec clk i (handle (any_msg (msg_FeedMessageEvent (Some
      (FeedMessageEvent.mk agency (Some fm)))))) st
      = (st, (λ v, any_msg (msg_VehiclePositionEvent (Some v))) <$> vs) ∧
    Forall2 (λ v ev, ∃ a, VehiclePositionEvent.Attributes ev = Some a ∧ describes agency v a)
      (vehicles fm) vs.
Proof.
  exists (positions agency fm). split.
  - cbn. rewrite exec_each_entity. unfold positions. by rewrite <- list_fmap_compose.
  - unfold positions. apply Forall2_fmap_r, Forall_Forall2_diag, Forall_forall.
    intros v Hv. apply position_describes. by eapply elem_of_vehicles.
Qed.

(** The FeedMessageProcessor forwards what it can read as a feed, under its
    agency: the bytes that decode, and feeds that are already decoded.
    Everything else, bytes that do not decode included, is dropped. *)
Lemma feed_message_forwards agency x clk i (st : S) :
  exec clk i (FeedMessageProcessor.handle agency x) st =
    (st, (λ fm, any_msg (msg_FeedMessageEvent (Some (FeedMessageEvent.mk agency fm)))) <$>
      match x with
      | any_bytes b =>
          match Unmarshal b (zero_of K_gtfs_FeedMessage) with
          | inl (msg_gtfs_FeedMessage fm) => [fm]
          | _ => []
          end
      | any_msg (msg_gtfs_FeedMessage fm) => [fm]
      | _ => []
      end).
Proof.
  destruct x as [|b|[]|]; try done. cbn.
  by destruct (Unmarshal b _) as [[]|].
Qed.
End spec.
End FeedSpec.
