(* ===== verification/StopEvents.v ===== *)
(** * StopEventProcessor ([processors/transit/stop_events/stop_event.go])

    A state machine per vehicle: the previous position of the vehicle, kept in
    the state store under its id, is compared with the current one to detect
    arrivals at and departures from stops. *)
From S2P Require Import Prelude GoTime Events StateStore Proc.

Module StopEventProcessor.

(** The receiver: whether its [vehiclesState] interface is set.  The programs
    below act on that store. *)
Record t := mk { vehiclesState_set : bool }.

Section processor.
  Context `{!ProtoLib}.

Definition makeStopEvent (vp : ptr VehiclePositionEvent.t) (stopID : string) (eventType : Z)
    : ptr StopEvent.t :=
  match vp with
  | None => None
  | Some _ =>
      let attrs := VehiclePositionEvent.GetAttributes vp in
      let vehicleID := EventAttributes.GetVehicleId attrs in
      if decide (vehicleID = "" ∨ stopID = "") then None
      else Some (StopEvent.mk
        (Some {|
          EventAttributes.AgencyId := EventAttributes.GetAgencyId attrs;
          EventAttributes.VehicleId := vehicleID;
          EventAttributes.RouteId := EventAttributes.GetRouteId attrs;
          EventAttributes.StopId := stopID;
          EventAttributes.OriginStopId := "";
          EventAttributes.DestinationStopId := "";
          EventAttributes.DirectionId := EventAttributes.GetDirectionId attrs;
          EventAttributes.Direction := "";
          EventAttributes.DirectionDestination := "";
          EventAttributes.ParentStation := "";
          EventAttributes.StopSequence := int32 (EventAttributes.GetStopSequence attrs);
          EventAttributes.StopStatus := EventAttributes.GetStopStatus attrs;
          EventAttributes.TripId := EventAttributes.GetTripId attrs;
          EventAttributes.ServiceDate := EventAttributes.GetServiceDate attrs;
          EventAttributes.Timestamp := EventAttributes.GetTimestamp attrs;
        |})
        eventType)
  end.

(** [s.out <- s.makeStopEvent(...)]: a nil result is sent as a nil [*StopEvent]. *)
Definition emit (vp : ptr VehiclePositionEvent.t) (stopID : string) (eventType : Z) : prog → prog :=
  chan_Send (any_msg (msg_StopEvent (makeStopEvent vp stopID eventType))).

(** The switch on the current status at the end of [process]. *)
Definition transition (event : ptr VehiclePositionEvent.t) (prevAttrs attrs : ptr EventAttributes.t)
    : prog :=
  let prevStatus := EventAttributes.GetStopStatus prevAttrs in
  let prevStop := EventAttributes.GetStopId prevAttrs in
  let stop := EventAttributes.GetStopId attrs in
  if decide (EventAttributes.GetStopStatus attrs = StopStatus_STOPPED_AT) then
    if decide (prevStatus = StopStatus_IN_TRANSIT_TO ∨ prevStatus = StopStatus_INCOMING_AT) then
      emit event stop StopEvent_ARRIVAL Return
    else if decide (prevStatus = StopStatus_STOPPED_AT ∧ prevStop ≠ stop) then
      emit event prevStop StopEvent_DEPARTURE (emit event stop StopEvent_ARRIVAL Return)
    else Return
  else if decide (EventAttributes.GetStopStatus attrs = StopStatus_IN_TRANSIT_TO) then
    if decide (prevStatus = StopStatus_STOPPED_AT) then
      emit event prevStop StopEvent_DEPARTURE Return
    else if decide ((prevStatus = StopStatus_IN_TRANSIT_TO ∨ prevStatus = StopStatus_INCOMING_AT)
                    ∧ prevStop ≠ stop) then
      emit event prevStop StopEvent_ARRIVAL (emit event prevStop StopEvent_DEPARTURE Return)
    else Return
  else Return.

Definition newMsg (_ : unit) : option Message :=
  Some (msg_VehiclePositionEvent (Some VehiclePositionEvent.zero)).

Definition process (s : ptr t) (event : ptr VehiclePositionEvent.t) : prog :=
  match s with
  | None => Return
  | Some s =>
  if negb (vehiclesState_set s) then Return else
  match event with
  | None => Return
  | Some _ =>
  let attrs := VehiclePositionEvent.GetAttributes event in
  match attrs with
  | None => Return
  | Some _ =>
  let vehicleID := EventAttributes.GetVehicleId attrs in
  if decide (vehicleID = "") then Return else
  store_Get vehicleID newMsg (λ previousState found,
  match previousState with
  | None => Return
  | Some previousState =>
  store_Set vehicleID (Some (msg_VehiclePositionEvent event)) Hour (λ err,
  match err with
  | Some _ => Return
  | None =>
  if negb found then Return else
  match previousState with
  | msg_VehiclePositionEvent (Some previous) =>
      let prevAttrs := VehiclePositionEvent.GetAttributes (Some previous) in
      match prevAttrs with
      | None => Return
      | Some _ =>
          if decide (EventAttributes.GetStopStatus prevAttrs = EventAttributes.GetStopStatus attrs ∧
                     EventAttributes.GetStopId prevAttrs = EventAttributes.GetStopId attrs)
          then Return
          else transition event prevAttrs attrs
      end
  | _ => Return
  end
  end)
  end)
  end end end.

(** The body of the loop of [doStream] for one element of [s.in]. *)
Definition handle (event : any) : prog :=
  let s := Some (mk true) in
  match event with
  | any_msg (msg_VehiclePositionEvent v) => process s v
  | any_bytes v =>
      match Unmarshal v (zero_of K_VehiclePositionEvent) with
      | inl (msg_VehiclePositionEvent msg) => process s msg
      | _ => Return
      end
  | _ => Return
  end.
End processor.
End StopEventProcessor.

(** ** Specification *)

Module StopSpec.
Import StopEventProcessor.

(** Status and stop of a snapshot. *)
Definition status_of (e : VehiclePositionEvent.t) : Z :=
  EventAttributes.GetStopStatus (VehiclePositionEvent.Attributes e).
Definition stop_of (e : VehiclePositionEvent.t) : string :=
  EventAttributes.GetStopId (VehiclePositionEvent.Attributes e).
Definition vehicle_of (e : VehiclePositionEvent.t) : string :=
  EventAttributes.GetVehicleId (VehiclePositionEvent.Attributes e).

Definition moving (st : Z) : Prop := st = StopStatus_IN_TRANSIT_TO ∨ st = StopStatus_INCOMING_AT.
#[export] Instance moving_dec st : Decision (moving st).
Proof. unfold moving. apply _. Defined.

(** The changes between two consecutive snapshots of a vehicle, as pairs of a
    stop and an event type. *)
Definition detect (prev cur : VehiclePositionEvent.t) : list (string * Z) :=
  let arrive s := (s, StopEvent_ARRIVAL) in
  let depart s := (s, StopEvent_DEPARTURE) in
  let moved := stop_of prev ≠ stop_of cur in
  if decide (status_of cur = StopStatus_STOPPED_AT) then
    if decide (moving (status_of prev)) then [arrive (stop_of cur)]
    else if decide (status_of prev = StopStatus_STOPPED_AT ∧ moved)
    then [depart (stop_of prev); arrive (stop_of cur)] else []
  else if decide (status_of cur = StopStatus_IN_TRANSIT_TO) then
    if decide (status_of prev = StopStatus_STOPPED_AT) then [depart (stop_of prev)]
    else if decide (moving (status_of prev) ∧ moved)
    then [arrive (stop_of prev); depart (stop_of prev)] else []
  else [].

(** The messages that report a list of changes seen at snapshot [cur]. *)
Definition report (cur : VehiclePositionEvent.t) (l : list (string * Z)) : list any :=
  (λ c, any_msg (msg_StopEvent (makeStopEvent (Some cur) c.1 c.2))) <$> l.

Definition changes (prev cur : VehiclePositionEvent.t) : list any := report cur (detect prev cur).

(** Two snapshots with the same status and stop give no change: the early
    return of [process] is only an optimisation. *)
Lemma detect_unchanged prev cur :
  status_of prev = status_of cur → stop_of prev = stop_of cur → detect prev cur = [].
Proof.
  intros Hs Hp. unfold detect, moving. rewrite Hs, Hp.
  repeat case_decide; destruct_or?; destruct_and?; try congruence;
    unfold StopStatus_STOPPED_AT, StopStatus_IN_TRANSIT_TO, StopStatus_INCOMING_AT in *; lia.
Qed.

Lemma transition_changes prev cur :
  transition (Some cur) (VehiclePositionEvent.Attributes prev) (VehiclePositionEvent.Attributes cur)
  = send_all (changes prev cur) Return.
Proof.
  unfold transition, changes, detect, emit, moving, status_of, stop_of.
  repeat case_decide; try done; exfalso; tauto.
Qed.

(** A snapshot the processor does not drop. *)
Definition usable (e : VehiclePositionEvent.t) : Prop :=
  VehiclePositionEvent.Attributes e ≠ None ∧ vehicle_of e ≠ "".

(** What the processor recalls about a vehicle. *)
Definition recall (m : option Message) : option VehiclePositionEvent.t :=
  match m with
  | Some (msg_VehiclePositionEvent (Some prev)) =>
      if VehiclePositionEvent.Attributes prev is Some _ then Some prev else None
  | _ => None
  end.

Section spec.
  Context `{!ProtoLib} {S : Type} `{!StateStore S} `{!StateStoreOk S K_VehiclePositionEvent}.

(** One snapshot: it becomes the recalled snapshot of its vehicle for an
    hour, other vehicles are unaffected, and the changes since the recalled
    snapshot are sent. *)
Lemma exec_process clk t (st : S) e :
  store_inv st → clock_from t clk → usable e → storable (msg_VehiclePositionEvent (Some e)) →
  ∃ st', exec clk 0 (process (Some (mk true)) (Some e)) st =
      (st', from_option (λ prev, changes prev e) [] (recall (live (clk 0%nat) (vehicle_of e) st)))
    ∧ store_inv st' ∧
    ∀ now k, clk 1%nat ≤ now → live now k st' =
      if decide (k = vehicle_of e)
      then (if decide (now ≤ deadline (clk 1%nat) Hour)
            then Some (msg_VehiclePositionEvent (Some e)) else None)
      else live now k st.
Proof.
  intros Hinv Hclk [Ha Hv] Hst. cbn.
  destruct (VehiclePositionEvent.Attributes e) as [attrs|] eqn:Hattrs; [cbn|done].
  unfold vehicle_of in *. rewrite Hattrs in *. cbn in *. rewrite decide_False by done.
  cbn. rewrite (Get_spec _ _ _ _ (msg_VehiclePositionEvent (Some VehiclePositionEvent.zero))) by done.
  destruct (Set_spec st (clk 1%nat) (EventAttributes.VehicleId attrs)
    (msg_VehiclePositionEvent (Some e)) Hour Hinv) as (st' & Hset & Hinv' & Hlive); [done..|].
  exists st'. split; [|done].
  destruct (live (clk 0%nat) (EventAttributes.VehicleId attrs) st) as [m|]; cbn;
    rewrite Hset; cbn; [|done].
  destruct m as [| |[prev|]| | | |]; cbn; try done.
  destruct (VehiclePositionEvent.Attributes prev) as [pattrs|] eqn:Hp; cbn; [|done].
  case_decide as Hsame; cbn.
  - unfold changes. rewrite detect_unchanged; [done|..];
      unfold status_of, stop_of; rewrite Hp, Hattrs; tauto.
  - rewrite <- Hp, <- Hattrs, transition_changes, exec_send_all. cbn. by rewrite app_nil_r.
Qed.

(** The snapshot an element carries, if the processor does not drop it. *)
Definition snapshot (x : any) : option VehiclePositionEvent.t :=
  e ← match x with
      | any_msg (msg_VehiclePositionEvent v) => v
      | any_bytes b =>
          match Unmarshal b (zero_of K_VehiclePositionEvent) with
          | inl (msg_VehiclePositionEvent v) => v
          | _ => None
          end
      | _ => None
      end;
  if VehiclePositionEvent.Attributes e is Some _
  then (if decide (vehicle_of e = "") then None else Some e) else None.

Definition key_of (x : any) : option string := vehicle_of <$> snapshot x.

Lemma snapshot_usable x e : snapshot x = Some e → usable e.
Proof.
  unfold snapshot, usable. intros (e' & _ & He)%bind_Some.
  destruct (VehiclePositionEvent.Attributes e') eqn:Ha; [|done].
  case_decide; [done|]. simplify_eq. by rewrite Ha.
Qed.

Lemma handle_snapshot x :
  handle x = match snapshot x with
             | Some e => process (Some (mk true)) (Some e)
             | None => Return
             end.
Proof.
  assert (∀ v : ptr VehiclePositionEvent.t, process (Some (mk true)) v =
    match (e ← v; if VehiclePositionEvent.Attributes e is Some _
                  then (if decide (vehicle_of e = "") then None else Some e) else None) with
    | Some e => process (Some (mk true)) (Some e)
    | None => Return
    end) as Hv.
  { intros [e|]; [cbn|done]. unfold vehicle_of.
    destruct (VehiclePositionEvent.Attributes e) eqn:Ha; [|done]. cbn.
    case_decide; [done|]. cbn. rewrite Ha. cbn. by rewrite decide_False. }
  unfold snapshot. destruct x as [|b|m|]; cbn; try done.
  - destruct (Unmarshal b _) as [[]|]; cbn; try done. apply Hv.
  - destruct m; cbn; try done. apply Hv.
Qed.

(** Elements whose snapshot can be stored. *)
Definition acceptable (x : any) : Prop :=
  ∀ e, snapshot x = Some e → storable (msg_VehiclePositionEvent (Some e)).

Lemma handle_keyed x :
  acceptable x → keyed_handling K_VehiclePositionEvent handle key_of x.
Proof.
  intros Hx. unfold keyed_handling, key_of. rewrite handle_snapshot.
  destruct (snapshot x) as [e|] eqn:He; [cbn|done].
  destruct (snapshot_usable _ _ He) as [Ha Hv]. unfold vehicle_of in *.
  destruct (VehiclePositionEvent.Attributes e) as [attrs|] eqn:Hattrs; [|done]. cbn in *.
  rewrite decide_False by done. cbn.
  apply (keyed_Get _ _ 1 _ (zero_of K_VehiclePositionEvent)); [done..|]. intros m f Hm.
  apply (keyed_Set _ _ 0); [done|by apply Hx|done|].
  destruct f; cbn; [|constructor].
  destruct m as [| |[prev|]| | | |]; try constructor. cbn.
  destruct (VehiclePositionEvent.Attributes prev) as [pattrs|] eqn:Hp; [|constructor].
  case_decide; [constructor|]. rewrite <- Hp, <- Hattrs, transition_changes.
  induction (changes prev e); cbn; constructor. done.
Qed.

(** The next snapshot of a vehicle is handled before the previous one expires. *)
Fixpoint punctual (ins : list arrival) : Prop :=
  match ins with
  | a :: (b :: _) as rest => clock b 0%nat ≤ deadline (clock a 1%nat) Hour ∧ punctual rest
  | _ => True
  end.

(** Comparing each snapshot with the one before. *)
Definition pairwise (l : list VehiclePositionEvent.t) : list (list any) :=
  match l with
  | [] => []
  | e :: es => [] :: ((λ p, changes p.1 p.2) <$> adjacent e es)
  end.

Definition snapshots (ins : list arrival) : list VehiclePositionEvent.t :=
  omap (λ a, snapshot (what a)) ins.

(** The processor, for one vehicle, as a machine: it recalls the last snapshot. *)
Definition stop_machine : machine := {|
  next σ a :=
    match snapshot (what a) with
    | Some e => Some (msg_VehiclePositionEvent (Some e), deadline (clock a 1%nat) Hour)
    | None => σ
    end;
  out σ a :=
    match snapshot (what a), recall (view σ (clock a 0%nat)) with
    | Some e, Some prev => changes prev e
    | _, _ => []
    end;
|}.

Lemma stop_implements v :
  implements K_VehiclePositionEvent handle key_of stop_machine acceptable v.
Proof.
  intros a st σ t Hk Hacc Hclk Hinv Hm. unfold key_of in Hk. cbn.
  destruct (snapshot (what a)) as [e|] eqn:He; [|done]. cbn in Hk. injection Hk as <-.
  rewrite handle_snapshot, He.
  destruct (exec_process (clock a) t st e Hinv Hclk (snapshot_usable _ _ He) (Hacc _ He))
    as (st' & -> & Hinv' & Hlive).
  rewrite Hm by eauto using clock_ge.
  exists st'. split; [by destruct (recall _)|]. split; [done|].
  intros now Hnow. rewrite Hlive by (pose proof (clock_le _ _ 1 2 Hclk); lia).
  by rewrite decide_True.
Qed.

(** Punctual snapshots are each compared with the one before. *)
Lemma stop_machine_pairwise prev d ins :
  VehiclePositionEvent.Attributes prev ≠ None →
  Forall (λ a, is_Some (snapshot (what a))) ins → punctual ins →
  (if ins is a :: _ then clock a 0%nat ≤ d else True) →
  machine_run stop_machine (Some (msg_VehiclePositionEvent (Some prev), d)) ins =
    (λ p, changes p.1 p.2) <$> adjacent prev (snapshots ins).
Proof.
  intros Hprev Hins. revert prev d Hprev.
  induction Hins as [|a ins [e He] Hins IH]; intros prev d Hprev Hp Hd; [done|].
  cbn [machine_run out next stop_machine snapshots omap list_omap]. rewrite He.
  unfold view. cbn [mbind option_bind]. rewrite decide_True by done. unfold recall.
  destruct (VehiclePositionEvent.Attributes prev) eqn:Hpa; [|done].
  cbn. f_equal. apply IH; [by apply (snapshot_usable _ _ He)|..];
    destruct ins; try done; apply Hp.
Qed.

(** Any interleaving of vehicles: [v]'s part of the output is the pairwise
    comparison of [v]'s snapshots. *)
Lemma run_pairwise v t ins (st : S) :
  timely t ins → store_inv st → Forall (λ a, acceptable (what a)) ins →
  punctual (filter (has_key key_of v) ins) →
  (∀ now, t ≤ now → live now v st = None) →
  sent_for key_of v ins (run handle ins st).2 =
    pairwise (snapshots (filter (has_key key_of v) ins)).
Proof.
  intros Ht Hinv Hacc Hp Hlive.
  rewrite (run_refines _ _ _ _ _ _ _ t st None (stop_implements v)) by eauto using handle_keyed.
  assert (Forall (λ a, is_Some (snapshot (what a))) (filter (has_key key_of v) ins)) as Hall.
  { apply Forall_forall. intros a [Ha _]%list_elem_of_filter. unfold has_key, key_of in Ha.
    by apply fmap_Some in Ha as (e & -> & _). }
  destruct Hall as [|a l [e He] Hall]; [done|].
  cbn [machine_run out next stop_machine snapshots omap list_omap]. rewrite He. cbn.
  f_equal. apply stop_machine_pairwise; [by apply (snapshot_usable _ _ He)|done|..];
    destruct l; try done; apply Hp.
Qed.

(** *** All vehicles together *)

(** The snapshot [e] compared with the last one of its vehicle among [seen]. *)
Definition compare (seen : list VehiclePositionEvent.t) (e : VehiclePositionEvent.t) : list any :=
  match last (filter (λ p, vehicle_of p = vehicle_of e) seen) with
  | Some p => changes p e
  | None => []
  end.

(** Each snapshot of a sequence compared in its turn. *)
Fixpoint scan (seen es : list VehiclePositionEvent.t) : list any :=
  match es with
  | [] => []
  | e :: es => compare seen e ++ scan (seen ++ [e]) es
  end.

Lemma scan_snoc seen es e : scan seen (es ++ [e]) = scan seen es ++ compare (seen ++ es) e.
Proof.
  revert seen. induction es as [|e' es IH]; intros seen; cbn; [by rewrite !app_nil_r|].
  by rewrite IH, <- !app_assoc.
Qed.

Lemma adjacent_snoc {A} (x : A) l y : adjacent x (l ++ [y]) = adjacent x l ++ [(default x (last l), y)].
Proof.
  revert x. induction l as [|z l IH]; intros x; [done|]. cbn [app adjacent]. rewrite IH, last_cons.
  by destruct (last l).
Qed.

Lemma pairwise_snoc es e :
  pairwise (es ++ [e]) = pairwise es ++ [match last es with Some p => changes p e | None => [] end].
Proof.
  destruct es as [|e' es]; [done|]. cbn [app pairwise]. rewrite adjacent_snoc, fmap_app, last_cons.
  by destruct (last es).
Qed.

Lemma snapshots_filter v ins :
  snapshots (filter (has_key key_of v) ins) = filter (λ e, vehicle_of e = v) (snapshots ins).
Proof.
  unfold snapshots. induction ins as [|a ins IH]; [done|]. rewrite omap_cons_eq.
  destruct (decide (has_key key_of v a)) as [Hk|Hk];
    [rewrite filter_cons_True by done; rewrite omap_cons_eq|rewrite filter_cons_False by done];
    unfold has_key, key_of in Hk; destruct (snapshot (what a)) as [e|]; cbn in Hk; try done.
  - rewrite filter_cons_True by congruence. by rewrite IH.
  - by rewrite filter_cons_False by congruence.
Qed.

Lemma punctual_app l l' : punctual (l ++ l') → punctual l.
Proof.
  induction l as [|a l IH]; [done|]. destruct l as [|b l]; [done|]. intros [Ha Hl].
  split; [exact Ha|]. by apply IH.
Qed.

Lemma timely_app t l l' : timely t (l ++ l') → timely t l.
Proof. revert t. induction l as [|a l IH]; intros t; [done|]. cbn. intros [? ?]. eauto. Qed.

Lemma sent_for_snoc v ins a xss xs :
  length xss = length ins →
  sent_for key_of v (ins ++ [a]) (xss ++ [xs]) =
    sent_for key_of v ins xss ++ (if decide (has_key key_of v a) then [xs] else []).
Proof.
  revert xss. induction ins as [|b ins IH]; intros [|ys xss] Hl; try done; cbn.
  injection Hl as Hl. rewrite IH by done. by destruct (decide (has_key key_of v b)).
Qed.

(** The output of the processor, in order, is that of the scan. *)
Lemma outputs_scan t ins (st : S) :
  timely t ins → store_inv st → Forall (λ a, acceptable (what a)) ins →
  (∀ v, punctual (filter (has_key key_of v) ins)) →
  (∀ v now, t ≤ now → live now v st = None) →
  outputs handle ins st = scan [] (snapshots ins).
Proof.
  intros Ht Hinv Hacc Hp Hlive. induction ins as [|a ins IH] using rev_ind; [done|].
  assert (∀ v, punctual (filter (has_key key_of v) ins)) as Hp'
    by (intros v; specialize (Hp v); rewrite filter_app in Hp; by apply punctual_app in Hp).
  assert (outputs handle ins st = scan [] (snapshots ins)) as Hsc
    by (apply IH; [by eapply timely_app|by apply Forall_app in Hacc as [? _]|done]).
  destruct (snapshot (what a)) as [e|] eqn:He.
  - pose proof (run_pairwise (vehicle_of e) t _ st Ht Hinv Hacc (Hp _) (Hlive _)) as Hnew.
    apply Forall_app in Hacc as [Hacc _].
    pose proof (run_pairwise (vehicle_of e) t ins st (timely_app _ _ _ Ht) Hinv Hacc (Hp' _) (Hlive _)) as Hold.
    assert (snapshots (ins ++ [a]) = snapshots ins ++ [e]) as Hs
      by (unfold snapshots; rewrite omap_app; cbn; by rewrite He).
    assert (has_key key_of (vehicle_of e) a) as Hk by (unfold has_key, key_of; by rewrite He).
    rewrite snapshots_filter, Hs, filter_app in Hnew. rewrite snapshots_filter in Hold.
    rewrite Hs. unfold outputs in *. rewrite run_app in Hnew |- *.
    pose proof (run_length handle ins st) as Hlen.
    destruct (run handle ins st) as [s1 xss]. cbn [run] in *.
    destruct (exec (clock a) 0 (handle (what a)) s1) as [s2 xs]. cbn [fst snd] in *.
    rewrite sent_for_snoc, decide_True, Hold, (filter_cons_True _ e) in Hnew by done. cbn in Hnew.
    rewrite pairwise_snoc in Hnew. apply (inj (app _)) in Hnew. injection Hnew as ->.
    rewrite concat_app, scan_snoc, Hsc. cbn. by rewrite app_nil_r.
  - assert (snapshots (ins ++ [a]) = snapshots ins) as ->
      by (unfold snapshots; rewrite omap_app; cbn; by rewrite He, app_nil_r).
    unfold outputs in *. rewrite run_app. destruct (run handle ins st) as [s1 xss]. cbn [run].
    rewrite handle_snapshot, He, <- Hsc. cbn. by rewrite concat_app, app_nil_r.
Qed.

(** What is sent is a change between two snapshots that were seen. *)
Lemma machine_changes σ ins x :
  x ∈ concat (machine_run stop_machine σ ins) → ∃ p e,
    (recall (fst <$> σ) = Some p ∨ p ∈ snapshots ins) ∧ e ∈ snapshots ins ∧ x ∈ changes p e.
Proof.
  revert σ. induction ins as [|a ins IH]; intros σ; [by intros ?%not_elem_of_nil|].
  cbn [machine_run concat stop_machine out next snapshots omap list_omap]. rewrite elem_of_app.
  intros [Hx|Hx].
  - destruct (snapshot (what a)) as [e|]; [|by apply not_elem_of_nil in Hx].
    destruct σ as [[m d]|]; [|by apply not_elem_of_nil in Hx].
    unfold view in Hx. cbn [mbind option_bind] in Hx.
    case_decide; [|by apply not_elem_of_nil in Hx].
    destruct (recall (Some m)) as [p|] eqn:Hp; [|by apply not_elem_of_nil in Hx].
    exists p, e. split_and!; [by left|apply list_elem_of_here|done].
  - destruct (IH _ Hx) as (p & e & Hp & He & Hc).
    destruct (snapshot (what a)) as [e'|] eqn:Hs; [|by exists p, e].
    exists p, e. split_and!; [|by apply list_elem_of_further|done].
    right. destruct Hp as [Hp|Hp]; [|by apply list_elem_of_further]. cbn in Hp.
    destruct (VehiclePositionEvent.Attributes e'); [|done]. injection Hp as ->.
    apply list_elem_of_here.
Qed.

Lemma outputs_changes t ins (st : S) x :
  timely t ins → store_inv st → Forall (λ a, acceptable (what a)) ins →
  (∀ v now, t ≤ now → live now v st = None) → x ∈ outputs handle ins st →
  ∃ p e, p ∈ snapshots ins ∧ e ∈ snapshots ins ∧ x ∈ changes p e.
Proof.
  intros Ht Hinv Hacc Hlive Hx.
  apply (outputs_sent_for K_VehiclePositionEvent handle key_of) in Hx as [v Hx];
    [|by eapply Forall_impl; [done|]; intros a; apply handle_keyed].
  specialize (Hlive v). rewrite (run_refines _ _ _ _ _ _ _ t st None (stop_implements v)) in Hx
    by eauto using handle_keyed.
  destruct (machine_changes _ _ _ Hx) as (p & e & [Hp|Hp] & He & Hc); [done|].
  assert (∀ e', e' ∈ snapshots (filter (has_key key_of v) ins) → e' ∈ snapshots ins) as Hincl.
  { intros e' (a & [_ Ha]%list_elem_of_filter & He')%list_elem_of_omap.
    apply list_elem_of_omap. by exists a. }
  exists p, e. auto.
Qed.
End spec.

(** ** Presence at stops *)

(** The stop a vehicle stands at according to a snapshot. *)
Definition presence (e : VehiclePositionEvent.t) : option string :=
  if decide (status_of e = StopStatus_STOPPED_AT) then Some (stop_of e) else None.

(** An ARRIVAL needs a vehicle that stands nowhere, a DEPARTURE one that stands
    at that stop; any other sequence of events is refused. *)
Fixpoint replay (at_stop : option string) (l : list (string * Z)) : option (option string) :=
  match l with
  | [] => Some at_stop
  | (s, ty) :: l =>
      if decide (ty = StopEvent_ARRIVAL ∧ at_stop = None) then replay (Some s) l
      else if decide (ty = StopEvent_DEPARTURE ∧ at_stop = Some s) then replay None l
      else None
  end.

(** The statuses the GTFS-realtime feed knows. *)
Definition known (e : VehiclePositionEvent.t) : Prop :=
  moving (status_of e) ∨ status_of e = StopStatus_STOPPED_AT.

(** Standing at a stop is not followed directly by an approach to one. *)
Definition no_lost_departure (p : VehiclePositionEvent.t * VehiclePositionEvent.t) : Prop :=
  ¬ (status_of p.1 = StopStatus_STOPPED_AT ∧ status_of p.2 = StopStatus_INCOMING_AT).

(** The stop and type a stop event reports. *)
Definition reading (x : any) : option (string * Z) :=
  match x with
  | any_msg (msg_StopEvent (Some e)) =>
      Some (EventAttributes.GetStopId (StopEvent.Attributes e), StopEvent.StopEventType e)
  | _ => None
  end.

Lemma replay_app a l1 l2 : replay a (l1 ++ l2) = replay a l1 ≫= λ a', replay a' l2.
Proof.
  revert a. induction l1 as [|[s ty] l1 IH]; intros a; cbn; [done|].
  by repeat case_decide.
Qed.

Ltac statuses :=
  unfold moving, StopStatus_STOPPED_AT, StopStatus_IN_TRANSIT_TO, StopStatus_INCOMING_AT,
    StopEvent_ARRIVAL, StopEvent_DEPARTURE in *.

(** One step of the presence automaton. *)
Lemma replay_detect prev cur :
  known prev → known cur → no_lost_departure (prev, cur) →
  replay (presence prev) (detect prev cur) = Some (presence cur).
Proof.
  unfold known, no_lost_departure, presence, detect. statuses. cbn. intros Hp Hc Hn.
  destruct (decide (stop_of prev = stop_of cur)) as [->|Hne];
    repeat (case_decide; cbn; destruct_and?); simplify_eq;
    try done; exfalso; first [lia | tauto].
Qed.

Lemma replay_adjacent e es :
  Forall known (e :: es) → Forall no_lost_departure (adjacent e es) →
  replay (presence e) (concat ((λ p, detect p.1 p.2) <$> adjacent e es))
    = Some (presence (default e (last es))).
Proof.
  revert e. induction es as [|e' es IH]; intros e Hk Hn; [done|]. cbn in *.
  apply Forall_cons in Hk as [He Hk]. apply Forall_cons in Hn as [Hee Hn].
  rewrite replay_app, replay_detect by (done || by inversion Hk). cbn.
  rewrite IH by done. rewrite last_cons. by destruct (last es).
Qed.

(** ** The claims about [process] and [doStream] *)

Section claims.
  Context `{!ProtoLib} {S : Type} `{!StateStore S} `{!StateStoreOk S K_VehiclePositionEvent}.

Definition named (e : VehiclePositionEvent.t) : Prop := stop_of e ≠ "".

Lemma reading_event cur s ty :
  usable cur → s ≠ "" →
  reading (any_msg (msg_StopEvent (makeStopEvent (Some cur) s ty))) = Some (s, ty).
Proof.
  intros [Ha Hv] Hs. cbn.
  destruct (VehiclePositionEvent.Attributes cur) as [a|] eqn:Hattrs; [|done].
  unfold vehicle_of in Hv. rewrite Hattrs in Hv. cbn in *.
  by rewrite decide_False by tauto.
Qed.

Lemma reading_report cur l :
  usable cur → Forall (λ c, c.1 ≠ "") l → omap reading (report cur l) = l.
Proof.
  intros Hu Hl. induction Hl as [|[s ty] l Hs Hl IH]; [done|].
  unfold report. rewrite fmap_cons, omap_cons_eq. fold (report cur l).
  by rewrite reading_event, IH.
Qed.

Lemma report_cons cur c l : report cur (c :: l) = report cur [c] ++ report cur l.
Proof. done. Qed.

Lemma detect_named prev cur :
  named prev → named cur → Forall (λ c, c.1 ≠ "") (detect prev cur).
Proof. unfold detect, named. intros. repeat case_decide; eauto. Qed.

Lemma reading_pairwise e es :
  Forall (λ e, usable e ∧ named e) (e :: es) →
  omap reading (concat (pairwise (e :: es))) = concat ((λ p, detect p.1 p.2) <$> adjacent e es).
Proof.
  cbn. revert e. induction es as [|e' es IH]; intros e Hes; [done|]. cbn in *.
  apply Forall_cons in Hes as [[He Hn] Hes]. pose proof (Forall_inv Hes) as [He' Hn'].
  rewrite omap_app, IH by done. unfold changes.
  by rewrite reading_report by auto using detect_named.
Qed.

Lemma snapshots_usable ins : Forall usable (snapshots ins).
Proof.
  apply Forall_forall. intros e (a & _ & Ha)%list_elem_of_omap. eauto using snapshot_usable.
Qed.

(** The stops and types of what is sent for [v], whatever is interleaved. *)
Lemma run_readings v t ins (st : S) e es :
  timely t ins → store_inv st → Forall (λ a, acceptable (what a)) ins →
  punctual (filter (has_key key_of v) ins) →
  (∀ now, t ≤ now → live now v st = None) →
  snapshots (filter (has_key key_of v) ins) = e :: es → Forall named (e :: es) →
  omap reading (concat (sent_for key_of v ins (run handle ins st).2)) =
    concat ((λ p, detect p.1 p.2) <$> adjacent e es).
Proof.
  intros Ht Hinv Hacc Hp Hlive Hs Hn. rewrite (run_pairwise v t) by done.
  rewrite Hs. apply reading_pairwise.
  pose proof (snapshots_usable (filter (has_key key_of v) ins)) as Hu. rewrite Hs in Hu.
  by apply Forall_and.
Qed.

(** What is sent for a vehicle without memory, when [seen] is followed by [a]: the
    changes since the last snapshot, if that has not expired. *)
Definition answer (seen : list arrival) (a : arrival) : list any :=
  match last seen with
  | Some b =>
      match snapshot (what b), snapshot (what a) with
      | Some p, Some e => if decide (clock a 0%nat ≤ deadline (clock b 1%nat) Hour) then changes p e else []
      | _, _ => []
      end
  | None => []
  end.

(** The memory after some elements of one vehicle. *)
Definition recollection (seen : list arrival) : memory :=
  b ← last seen; p ← snapshot (what b);
  Some (msg_VehiclePositionEvent (Some p), deadline (clock b 1%nat) Hour).

Lemma machine_answer seen a :
  Forall (λ a, is_Some (snapshot (what a))) seen →
  out stop_machine (recollection seen) a = answer seen a.
Proof.
  intros Hall. unfold recollection, answer. cbn.
  destruct (last seen) as [b|] eqn:Hb; [|by destruct (snapshot (what a))].
  apply last_Some_elem_of in Hb. rewrite Forall_forall in Hall. destruct (Hall b Hb) as [p Hp]. cbn.
  rewrite Hp. cbn. destruct (snapshot (what a)) as [e|]; [|done]. unfold view. cbn.
  case_decide; [|done]. destruct (snapshot_usable _ _ Hp) as [Ha _]. unfold recall.
  by destruct (VehiclePositionEvent.Attributes p).
Qed.

Lemma machine_run_from pre seen a :
  Forall (λ a, is_Some (snapshot (what a))) seen →
  machine_run stop_machine (recollection pre) (seen ++ [a]) =
    machine_run stop_machine (recollection pre) seen ++ [out stop_machine (recollection (pre ++ seen)) a].
Proof.
  intros Hall. revert pre. induction Hall as [|b seen [p Hp] _ IH]; intros pre;
    [by cbn [app machine_run]; rewrite app_nil_r|].
  cbn [app machine_run]. f_equal.
  assert (next stop_machine (recollection pre) b = recollection (pre ++ [b])) as ->
    by (unfold recollection; rewrite last_snoc; cbn; by rewrite Hp).
  rewrite IH. by rewrite <- app_assoc.
Qed.

Lemma machine_run_snoc seen a :
  Forall (λ a, is_Some (snapshot (what a))) seen →
  machine_run stop_machine None (seen ++ [a]) = machine_run stop_machine None seen ++ [answer seen a].
Proof. intros Hall. rewrite <- machine_answer by done. by apply (machine_run_from []). Qed.

(** A snapshot that shows its vehicle standing at [s]. *)
Definition stands (s : string) (a : arrival) : Prop :=
  ∃ e, snapshot (what a) = Some e ∧ status_of e = StopStatus_STOPPED_AT ∧ stop_of e = s.

(** The statuses that [transition] has no case for. *)
Definition unknown_status (b : arrival) : Prop :=
  ∃ p, snapshot (what b) = Some p ∧ ¬ known p.

(** A vehicle that stands at [s], by its last snapshots, has got there unnoticed: the
    first of them is the first at all, comes more than an hour after the one before,
    or follows one of unknown status. *)
Definition unnoticed (s : string) (seen : list arrival) : Prop :=
  ∃ pre a mid, seen = pre ++ a :: mid ∧ Forall (stands s) (a :: mid) ∧
    match last pre with
    | None => True
    | Some b => ¬ clock a 0%nat ≤ deadline (clock b 1%nat) Hour ∨ unknown_status b
    end.

Lemma unnoticed_first s pre a :
  stands s a →
  match last pre with
  | None => True
  | Some b => ¬ clock a 0%nat ≤ deadline (clock b 1%nat) Hour ∨ unknown_status b
  end →
  unnoticed s (pre ++ [a]).
Proof. intros Ha Hb. exists pre, a, []. by rewrite Forall_singleton. Qed.

Lemma unnoticed_snoc s seen a : unnoticed s seen → stands s a → unnoticed s (seen ++ [a]).
Proof.
  intros (pre & b & mid & -> & Hall & Hpre) Ha. exists pre, b, (mid ++ [a]).
  split_and!; [by rewrite <- app_assoc| |done].
  change (b :: mid ++ [a]) with ((b :: mid) ++ [a]). by rewrite Forall_app, Forall_singleton.
Qed.

Lemma reading_named e s ty c :
  usable e → reading (any_msg (msg_StopEvent (makeStopEvent (Some e) s ty))) = Some c →
  s ≠ "" ∧ c = (s, ty).
Proof.
  intros Hu Hc. destruct (decide (s = "")) as [->|Hs].
  - exfalso. revert Hc. unfold makeStopEvent. by rewrite decide_True by auto.
  - rewrite reading_event in Hc by done. by injection Hc.
Qed.

Lemma last_app_Some {A} (l1 l2 : list A) x : last l2 = Some x → last (l1 ++ l2) = Some x.
Proof. intros [l ->]%last_Some. by rewrite app_assoc, last_snoc. Qed.

(** A DEPARTURE among the changes: the vehicle stood there, or an ARRIVAL is right
    before. *)
Lemma changes_departure p e xs1 x xs2 s :
  usable e → changes p e = xs1 ++ x :: xs2 → reading x = Some (s, StopEvent_DEPARTURE) →
  (xs1 = [] ∧ status_of p = StopStatus_STOPPED_AT ∧ stop_of p = s ∧ s ≠ "") ∨
  last (omap reading xs1) = Some (s, StopEvent_ARRIVAL).
Proof.
  intros Hu Hx Hr. unfold changes, report in Hx.
  apply fmap_app_inv in Hx as (l1 & l & -> & Hx & Hl). symmetry in Hx.
  apply fmap_cons_inv in Hx as ([s' ty] & l2 & -> & _ & ->).
  apply reading_named in Hr as [Hs Heq]; [|done]. cbn in Hs, Heq. injection Heq as <- <-.
  unfold detect in Hl.
  repeat case_decide; destruct l1 as [|c1 [|c2 [|c3 l1]]]; try done; injection Hl as; subst; auto.
  - left. tauto.
  - right. fold (report e [(stop_of p, StopEvent_ARRIVAL)]).
    by rewrite reading_report by done || by apply Forall_singleton.
Qed.

(** A vehicle that stands at a named stop was last reported to arrive there, or has
    got there unnoticed. *)
Lemma standing_reported seen b s :
  Forall (λ a, is_Some (snapshot (what a))) seen → last seen = Some b → stands s b → s ≠ "" →
  last (omap reading (concat (machine_run stop_machine None seen))) = Some (s, StopEvent_ARRIVAL) ∨
  unnoticed s seen.
Proof.
  revert b. induction seen as [|a seen IH] using rev_ind; intros b Hall Hlast Hb Hs; [done|].
  apply Forall_app in Hall as [Hall _].
  rewrite last_snoc in Hlast. injection Hlast as ->. rewrite machine_run_snoc, concat_app, omap_app by done.
  cbn [concat]. rewrite app_nil_r. unfold answer.
  destruct Hb as (e & He & Hst & Hse).
  assert (stands s b) as Hb by (by exists e).
  destruct (last seen) as [c|] eqn:Hc; [|right; apply unnoticed_first; [done|by rewrite Hc]].
  destruct (proj1 (Forall_forall _ _) Hall c (last_Some_elem_of _ _ Hc)) as [p Hp].
  rewrite Hp, He.
  case_decide; [|right; apply unnoticed_first; [done|rewrite Hc; by left]].
  pose proof (snapshot_usable _ _ He) as Hu.
  destruct (decide (moving (status_of p))) as [Hm|Hm].
  { left. unfold changes, detect. rewrite !decide_True, Hse, reading_report by done || by apply Forall_singleton.
    apply last_snoc. }
  destruct (decide (status_of p = StopStatus_STOPPED_AT)) as [Hp'|Hp'];
    [|right; apply unnoticed_first; [done|rewrite Hc; right; exists p; by intros; split; [|intros []]]].
  destruct (decide (stop_of p = stop_of e)) as [Heq|Hne].
  - unfold changes. rewrite detect_unchanged by congruence. cbn. rewrite app_nil_r.
    destruct (IH c Hall eq_refl) as [IH'|IH']; [exists p; by rewrite Heq|done|by left|].
    right. by apply unnoticed_snoc.
  - left. unfold changes, detect. rewrite decide_True, decide_False, decide_True by done.
    rewrite report_cons, Hse, omap_app, (reading_report e [(s, StopEvent_ARRIVAL)])
      by done || by apply Forall_singleton.
    rewrite app_assoc. apply last_snoc.
Qed.

Lemma has_key_snapshot v ins : Forall (λ a, is_Some (snapshot (what a))) (filter (has_key key_of v) ins).
Proof.
  apply Forall_forall. intros a [Ha _]%list_elem_of_filter. unfold has_key, key_of in Ha.
  by apply fmap_Some in Ha as (e & -> & _).
Qed.

(** One more element of [v], in a run: what was sent for [v] before, and what is sent. *)
Lemma run_answer v t ins a (st : S) :
  timely t (ins ++ [a]) → store_inv st → Forall (λ a, acceptable (what a)) (ins ++ [a]) →
  (∀ now, t ≤ now → live now v st = None) → has_key key_of v a →
  let seen := filter (has_key key_of v) ins in
  sent_for key_of v ins (run handle ins st).2 = machine_run stop_machine None seen ∧
  (exec (clock a) 0 (handle (what a)) (run handle ins st).1).2 = answer seen a.
Proof.
  intros Ht Hinv Hacc Hlive Hk seen.
  assert (∀ l, timely t l → Forall (λ a, acceptable (what a)) l →
    sent_for key_of v l (run handle l st).2 = machine_run stop_machine None (filter (has_key key_of v) l))
    as Hrun by (intros l Hl Hal; by apply (run_refines _ _ _ _ _ _ _ t st None (stop_implements v) handle_keyed)).
  pose proof (Hrun _ Ht Hacc) as Hall. apply Forall_app in Hacc as [Hacc _].
  specialize (Hrun ins (timely_app _ _ _ Ht) Hacc). split; [done|].
  rewrite filter_app, filter_cons_True in Hall by done.
  rewrite machine_run_snoc in Hall by apply has_key_snapshot.
  rewrite run_app in Hall. pose proof (run_length handle ins st) as Hlen.
  destruct (run handle ins st) as [s1 xss]. cbn [run fst] in Hall |- *.
  destruct (exec (clock a) 0 (handle (what a)) s1) as [s2 xs]. cbn [fst snd] in *.
  rewrite sent_for_snoc, decide_True, Hrun in Hall by done.
  apply (inj (app _)) in Hall. by injection Hall.
Qed.

(** What comes before a DEPARTURE, for one vehicle. *)
Lemma answer_departure seen a xs1 x xs2 s :
  Forall (λ a, is_Some (snapshot (what a))) seen → answer seen a = xs1 ++ x :: xs2 →
  reading x = Some (s, StopEvent_DEPARTURE) →
  last (omap reading (concat (machine_run stop_machine None seen) ++ xs1)) = Some (s, StopEvent_ARRIVAL) ∨
  unnoticed s seen.
Proof.
  intros Hall Hx Hr. unfold answer in Hx.
  destruct (last seen) as [b|] eqn:Hb; [|by destruct xs1].
  destruct (snapshot (what b)) as [p|] eqn:Hp; [|by destruct xs1].
  destruct (snapshot (what a)) as [e|] eqn:He; [|by destruct xs1].
  case_decide; [|by destruct xs1]. pose proof (snapshot_usable _ _ He) as Hu.
  destruct (changes_departure p e xs1 x xs2 s Hu Hx Hr) as [(-> & Hst & Hs & Hne)|Hxs1].
  - rewrite app_nil_r. apply (standing_reported seen b); [done..|by exists p|done].
  - left. rewrite omap_app. by rewrite (last_app_Some _ _ _ Hxs1).
Qed.

(** C1: However the snapshots of several vehicles are interleaved, what the
    StopEventProcessor sends for a vehicle [v] it has no memory of is the
    pairwise comparison of [v]'s successive snapshots: nothing for the first,
    and for each later one the changes since the one before.  The state store
    is any lawful one, and each snapshot of [v] is handled before the previous
    one expires. *)
Theorem stop_run_pairwise v t ins (st : S) :
  timely t ins → store_inv st → Forall (λ a, acceptable (what a)) ins →
  punctual (filter (has_key key_of v) ins) →
  (∀ now, t ≤ now → live now v st = None) →
  sent_for key_of v ins (run handle ins st).2 =
    pairwise (snapshots (filter (has_key key_of v) ins)).
Proof. apply run_pairwise. Qed.

(** C2: If a vehicle's snapshots have known statuses and named stops, and
    standing at a stop is never followed directly by INCOMING_AT, the events
    sent for it are a run of the presence automaton (arrive only when
    nowhere, depart only from the stop arrived at) that leads from where the
    first snapshot shows the vehicle to where the last one does. *)
Theorem stop_events_track_presence v t ins (st : S) e es :
  timely t ins → store_inv st → Forall (λ a, acceptable (what a)) ins →
  punctual (filter (has_key key_of v) ins) →
  (∀ now, t ≤ now → live now v st = None) →
  snapshots (filter (has_key key_of v) ins) = e :: es →
  Forall named (e :: es) → Forall known (e :: es) →
  Forall no_lost_departure (adjacent e es) →
  replay (presence e)
    (omap reading (concat (sent_for key_of v ins (run handle ins st).2)))
  = Some (presence (default e (last es))).
Proof.
  intros. rewrite (run_readings v t ins st e es) by done. by apply replay_adjacent.
Qed.

(** C25: Where a DEPARTURE comes from.  Among any elements, a vehicle [v] is handled
    that the state store has no memory of at first.  Whenever a DEPARTURE from a stop
    is sent for it, the stop event sent for it right before is the ARRIVAL at that
    stop; or it has stood at that stop, by all its snapshots since, from a snapshot on
    that was its first, came more than an hour after the one before, or followed one of
    a status other than STOPPED_AT, IN_TRANSIT_TO and INCOMING_AT: these are the ways to
    get to a stop for which no ARRIVAL is sent.  Statuses, stops and the time between
    snapshots are arbitrary; the clock does not go back, and the store is a lawful one
    that takes every snapshot. *)
Theorem departures_follow_arrivals v t ins a (st : S) xs1 x xs2 s :
  timely t (ins ++ [a]) → store_inv st → Forall (λ a, acceptable (what a)) (ins ++ [a]) →
  (∀ now, t ≤ now → live now v st = None) →
  has_key key_of v a →
  (exec (clock a) 0 (handle (what a)) (run handle ins st).1).2 = xs1 ++ x :: xs2 →
  reading x = Some (s, StopEvent_DEPARTURE) →
  last (omap reading (concat (sent_for key_of v ins (run handle ins st).2) ++ xs1))
    = Some (s, StopEvent_ARRIVAL) ∨
  unnoticed s (filter (has_key key_of v) ins).
Proof.
  intros Ht Hinv Hacc Hlive Hk Hx Hr.
  destruct (run_answer v t ins a st) as [Hold Hnew]; [done..|]. rewrite Hnew in Hx. rewrite Hold.
  exact (answer_departure _ a xs1 x xs2 s (has_key_snapshot v ins) Hx Hr).
Qed.

(** Handling one snapshot [e], as a message or as bytes, stores it as the
    vehicle's last snapshot for one hour, leaves every other vehicle alone,
    and sends exactly the changes since the snapshot recalled for the vehicle
    (none when nothing usable is recalled). *)
Theorem stop_step x e t clk (st : S) :
  snapshot x = Some e → acceptable x → store_inv st → clock_from t clk →
  ∃ st', exec clk 0 (handle x) st =
      (st', from_option (λ prev, changes prev e) [] (recall (live (clk 0%nat) (vehicle_of e) st)))
    ∧ store_inv st' ∧
    ∀ now k, clk 1%nat ≤ now → live now k st' =
      if decide (k = vehicle_of e)
      then (if decide (now ≤ deadline (clk 1%nat) Hour)
            then Some (msg_VehiclePositionEvent (Some e)) else None)
      else live now k st.
Proof.
  intros Hx Hacc Hinv Hclk. rewrite handle_snapshot, Hx.
  eapply exec_process; eauto using snapshot_usable.
Qed.
End claims.

(** ** Claims that hold of any store, lawful or not *)

Section any_store.
  Context `{!ProtoLib} {S : Type} `{!StateStore S}.

(** Undecodable bytes, values of other types, nil messages, nil attributes
    and empty vehicle ids are dropped: no store access, nothing sent. *)
Theorem stop_drops_unusable x clk i (st : S) :
  snapshot x = None → exec clk i (handle x) st = (st, []).
Proof. intros Hx. by rewrite handle_snapshot, Hx. Qed.

(** When the store refuses the new snapshot, nothing is sent. *)
Theorem stop_store_error_silences x e clk i (st : S) err st' :
  snapshot x = Some e →
  Set_ (clk (i + 1)%nat) (vehicle_of e) (Some (msg_VehiclePositionEvent (Some e))) Hour st
    = (Some err, st') →
  (exec clk i (handle x) st).2 = [].
Proof.
  intros Hx Hset. rewrite handle_snapshot, Hx.
  destruct (snapshot_usable _ _ Hx) as [Ha Hv]. unfold vehicle_of in *. cbn.
  destruct (VehiclePositionEvent.Attributes e) as [attrs|] eqn:Hattrs; [|done]. cbn in *.
  rewrite decide_False by done. cbn.
  destruct (Get _ _ newMsg st) as [[m|] f]; [|done]. cbn. by rewrite Hset.
Qed.

Lemma detect_types prev cur :
  Forall (λ c, c.2 = StopEvent_ARRIVAL ∨ c.2 = StopEvent_DEPARTURE) (detect prev cur).
Proof. unfold detect. repeat case_decide; repeat (apply Forall_cons; split; [cbn; auto|]); auto. Qed.

(** Sends of a program that does nothing else. *)
Lemma exec_changes clk i prev e (st : S) :
  exec clk i (transition (Some e) (VehiclePositionEvent.Attributes prev)
                (VehiclePositionEvent.Attributes e)) st = (st, changes prev e).
Proof. rewrite transition_changes, exec_send_all. cbn. by rewrite app_nil_r. Qed.

(** Whatever the store answers, what is sent for [e] is [[]] or its changes
    since some snapshot. *)
Lemma handle_sends x e clk i (st : S) :
  snapshot x = Some e →
  (exec clk i (handle x) st).2 = [] ∨
  ∃ prev, (exec clk i (handle x) st).2 = changes prev e.
Proof.
  intros Hx. rewrite handle_snapshot, Hx.
  destruct (snapshot_usable _ _ Hx) as [Ha Hv]. unfold vehicle_of in *. cbn.
  destruct (VehiclePositionEvent.Attributes e) as [attrs|] eqn:Hattrs; [|done]. cbn in *.
  rewrite decide_False by done. cbn.
  destruct (Get _ _ newMsg st) as [[m|] f]; [|by left]. cbn.
  destruct (Set_ _ _ _ _ st) as [[err|] st']; [by left|].
  destruct f; [|by left]. cbn.
  destruct m as [| |[prev|]| | | |]; try by left. cbn.
  destruct (VehiclePositionEvent.Attributes prev) as [pattrs|] eqn:Hp; [|by left].
  case_decide; [by left|]. rewrite <- Hp, <- Hattrs, exec_changes. eauto.
Qed.

(** Every stop event sent while a snapshot is handled carries the
    snapshot's own agency, vehicle, route, direction, trip, service date,
    status and timestamp; only the stop and the type differ.  In particular an
    arrival synthesised for the previous stop has the time of the current
    snapshot. *)
Theorem stop_events_carry_snapshot x e clk i (st : S) se :
  snapshot x = Some e →
  any_msg (msg_StopEvent (Some se)) ∈ (exec clk i (handle x) st).2 →
  ∃ a a', VehiclePositionEvent.Attributes e = Some a ∧ StopEvent.Attributes se = Some a' ∧
    EventAttributes.AgencyId a' = EventAttributes.AgencyId a ∧
    EventAttributes.VehicleId a' = EventAttributes.VehicleId a ∧
    EventAttributes.RouteId a' = EventAttributes.RouteId a ∧
    EventAttributes.DirectionId a' = EventAttributes.DirectionId a ∧
    EventAttributes.TripId a' = EventAttributes.TripId a ∧
    EventAttributes.ServiceDate a' = EventAttributes.ServiceDate a ∧
    EventAttributes.StopStatus a' = EventAttributes.StopStatus a ∧
    EventAttributes.Timestamp a' = EventAttributes.Timestamp a ∧
    EventAttributes.StopId a' ≠ "" ∧ EventAttributes.VehicleId a' ≠ "" ∧
    (StopEvent.StopEventType se = StopEvent_ARRIVAL ∨
     StopEvent.StopEventType se = StopEvent_DEPARTURE).
Proof.
  intros Hx Hin. destruct (snapshot_usable _ _ Hx) as [Ha _].
  destruct (handle_sends x e clk i st Hx) as [Hs|[prev Hs]]; rewrite Hs in Hin.
  { by apply not_elem_of_nil in Hin. }
  apply list_elem_of_fmap in Hin as ([s ty] & Heq & Hd).
  assert (ty = StopEvent_ARRIVAL ∨ ty = StopEvent_DEPARTURE) as Hty.
  { apply (proj1 (Forall_forall _ _) (detect_types prev e)) in Hd. done. }
  destruct (VehiclePositionEvent.Attributes e) as [a|] eqn:Hattrs; [|done].
  unfold makeStopEvent in Heq. cbn in Heq. rewrite Hattrs in Heq. cbn in Heq.
  case_decide; [done|]. simplify_eq. cbn. exists a. eexists. split_and!; try done; tauto.
Qed.

(** A snapshot with status INCOMING_AT never sends an event, also when the
    vehicle was standing at another stop: that departure is lost. *)
Theorem incoming_sends_nothing x e clk i (st : S) :
  snapshot x = Some e → status_of e = StopStatus_INCOMING_AT →
  (exec clk i (handle x) st).2 = [].
Proof.
  intros Hx Hst. destruct (handle_sends x e clk i st Hx) as [->|[prev ->]]; [done|].
  unfold changes, detect. by rewrite Hst.
Qed.
End any_store.

(** ** Concrete runs, on the in-memory store *)

Section witnesses.
  Local Existing Instance unix_lib.
  Import InMemory.

Definition st0 : InMemoryStateStore := NewInMemoryStateStore (mkConfig (2 * Hour)).

(** Two vehicles interleaved; "v1" skips a stop. *)
Definition sample_ins : list arrival := [
  Arrival (still 10) (sample_vp "v1" "s1" StopStatus_IN_TRANSIT_TO 1000);
  Arrival (still 20) (sample_vp "v2" "s9" StopStatus_STOPPED_AT 1000);
  Arrival (still 30) (sample_vp "v1" "s1" StopStatus_STOPPED_AT 1030);
  Arrival (still 40) (sample_vp "v1" "s2" StopStatus_STOPPED_AT 1090);
  Arrival (still 50) (sample_vp "v2" "s8" StopStatus_IN_TRANSIT_TO 1030);
  Arrival (still 60) (sample_vp "v1" "s3" StopStatus_IN_TRANSIT_TO 1120)].

Lemma sample_timely : timely 0 sample_ins.
Proof. cbn. split_and!; try apply clock_from_still; done || (unfold still; lia). Qed.

Lemma snapshot_in_memory x : acceptable (S := InMemoryStateStore) x.
Proof. by intros ? ?. Qed.

Lemma sample_acceptable :
  Forall (λ a, acceptable (S := InMemoryStateStore) (what a)) sample_ins.
Proof. apply Forall_true. intros. apply snapshot_in_memory. Qed.

Lemma sample_punctual :
  punctual (S := InMemoryStateStore) (filter (has_key key_of "v1") sample_ins).
Proof.
  vm_compute. repeat split; discriminate.
Qed.

Lemma stop_run_pairwise_witness :
  sent_for key_of "v1" sample_ins (run handle sample_ins st0).2 =
    pairwise (snapshots (filter (has_key key_of "v1") sample_ins)).
Proof.
  apply (stop_run_pairwise "v1" 0); [apply sample_timely|apply new_homogeneous|
    apply sample_acceptable|apply sample_punctual|intros; apply visible_new].
Defined.

Lemma sample_snapshots :
  ∃ e es, snapshots (filter (has_key key_of "v1") sample_ins) = e :: es ∧
    Forall named (e :: es) ∧ Forall known (e :: es) ∧
    Forall no_lost_departure (adjacent e es).
Proof.
  eexists _, _. split; [by vm_compute|].
  split_and!;
    repeat (apply Forall_cons; split); try apply Forall_nil;
    unfold named, known, moving, no_lost_departure; cbn; intuition discriminate.
Qed.

Lemma stop_events_track_presence_witness : ∃ a,
  replay a (omap reading (concat (sent_for key_of "v1" sample_ins (run handle sample_ins st0).2)))
  = Some None.
Proof.
  destruct sample_snapshots as (e & es & Hs & Hn & Hk & Hl).
  exists (presence e).
  rewrite (stop_events_track_presence "v1" 0 sample_ins st0 e es);
    [|apply sample_timely|apply new_homogeneous|apply sample_acceptable|apply sample_punctual|
      intros; apply visible_new|done..].
  vm_compute in Hs. injection Hs as <- <-. by vm_compute.
Defined.

(** "v1" leaves "s1" for "s2", where it stands. *)
Definition leaving : arrival := Arrival (still 40) (sample_vp "v1" "s2" StopStatus_STOPPED_AT 1090).
Definition departure_of (a : arrival) (s : string) : any :=
  any_msg (msg_StopEvent (makeStopEvent (snapshot (what a)) s StopEvent_DEPARTURE)).

Lemma departures_follow_arrivals_witness :
  last (omap reading (concat (sent_for key_of "v1" (take 3 sample_ins) (run handle (take 3 sample_ins) st0).2)))
    = Some ("s1", StopEvent_ARRIVAL).
Proof.
  destruct (departures_follow_arrivals "v1" 0 (take 3 sample_ins) leaving st0 []
    (departure_of leaving "s1")
    [any_msg (msg_StopEvent (makeStopEvent (snapshot (what leaving)) "s2" StopEvent_ARRIVAL))] "s1") as [H|H].
  - cbn. split_and!; try apply clock_from_still; done || (unfold still; lia).
  - apply new_homogeneous.
  - apply Forall_true. intros. apply snapshot_in_memory.
  - intros. apply visible_new.
  - by vm_compute.
  - by vm_compute.
  - by vm_compute.
  - by rewrite app_nil_r in H.
  - by vm_compute.
Defined.

(** A vehicle whose status is unknown until it stands at "s1": nothing is sent when it
    does, but its DEPARTURE is. *)
Definition unknown_ins : list arrival := [
  Arrival (still 10) (sample_vp "v1" "s1" StopStatus_UNKNOWN 1000);
  Arrival (still 20) (sample_vp "v1" "s1" StopStatus_STOPPED_AT 1030);
  Arrival (still 30) (sample_vp "v1" "s2" StopStatus_IN_TRANSIT_TO 1090)].

Example departure_without_arrival :
  omap reading (outputs handle unknown_ins st0) = [("s1", StopEvent_DEPARTURE)].
Proof. by vm_compute. Qed.

Lemma stop_step_witness : ∃ st', ∃ e,
  exec (still 10) 0 (handle (sample_vp "v1" "s1" StopStatus_IN_TRANSIT_TO 1000)) st0 = (st', []) ∧
  visible 10 "v1" st' = Some (msg_VehiclePositionEvent (Some e)).
Proof.
  destruct (stop_step (sample_vp "v1" "s1" StopStatus_IN_TRANSIT_TO 1000) _ 10 (still 10) st0
    eq_refl (snapshot_in_memory _) (new_homogeneous _ _) (clock_from_still 10 10 ltac:(lia)))
    as (st' & Hex & _ & Hlive).
  eexists st', _. split; [exact Hex|]. exact (Hlive 10 _ ltac:(done)).
Defined.

Lemma stop_drops_unusable_witness :
  exec (still 10) 0 (handle (sample_vp "" "s1" StopStatus_STOPPED_AT 1000)) st0 = (st0, []).
Proof. apply stop_drops_unusable. by vm_compute. Defined.

(** A store whose writes fail. *)
Local Instance failing_store : StateStore unit :=
  {| Get _ _ new _ := (new tt, false); Set_ _ _ _ _ _ := (Some "down", tt); Delete _ _ _ := tt |}.

Lemma stop_store_error_silences_witness :
  (exec (still 10) 0 (handle (sample_vp "v1" "s1" StopStatus_STOPPED_AT 1000)) tt).2 = [].
Proof. eapply stop_store_error_silences; by vm_compute. Defined.

(** "v1" at "s1" is recalled when "s2" is reported. *)
Definition st1 : InMemoryStateStore :=
  (exec (still 10) 0 (handle (sample_vp "v1" "s1" StopStatus_STOPPED_AT 1000)) st0).1.

Lemma stop_events_carry_snapshot_witness : ∃ se a',
  any_msg (msg_StopEvent (Some se)) ∈
    (exec (still 20) 0 (handle (sample_vp "v1" "s2" StopStatus_IN_TRANSIT_TO 1060)) st1).2 ∧
  StopEvent.Attributes se = Some a' ∧ EventAttributes.VehicleId a' = "v1".
Proof.
  eexists (StopEvent.mk (Some (sample_attributes "v1" "s1" StopStatus_IN_TRANSIT_TO 1060))
    StopEvent_DEPARTURE).
  assert (any_msg (msg_StopEvent (Some (StopEvent.mk
      (Some (sample_attributes "v1" "s1" StopStatus_IN_TRANSIT_TO 1060)) StopEvent_DEPARTURE)))
    ∈ (exec (still 20) 0 (handle (sample_vp "v1" "s2" StopStatus_IN_TRANSIT_TO 1060)) st1).2) as Hin
    by (vm_compute; apply list_elem_of_here).
  destruct (stop_events_carry_snapshot
    (sample_vp "v1" "s2" StopStatus_IN_TRANSIT_TO 1060) _ (still 20) 0 st1 _ eq_refl Hin)
    as (a & a' & Ha & Ha' & _ & Hv & _).
  exists a'. split_and!; [done..|]. rewrite Hv. by injection Ha as <-.
Defined.

Lemma incoming_sends_nothing_witness :
  (exec (still 20) 0 (handle (sample_vp "v1" "s2" StopStatus_INCOMING_AT 1060)) st1).2 = [].
Proof. by eapply incoming_sends_nothing. Defined.

(** A vehicle that leaves a stop reported with an empty id makes the
    processor send a nil [*StopEvent] downstream instead of discarding it. *)
Theorem empty_stop_sends_nil :
  outputs handle [
    Arrival (still 10) (sample_vp "v1" "" StopStatus_STOPPED_AT 1000);
    Arrival (still 20) (sample_vp "v1" "s2" StopStatus_IN_TRANSIT_TO 1060)] st0
  = [any_msg (msg_StopEvent None)].
Proof. by vm_compute. Qed.
End witnesses.
End StopSpec.
