(* ===== verification/Metrics.v ===== *)
(** * What the metric processors share

    The dwell, headway and travel-time processors consume [*pb.StopEvent]
    values and measure the time between two of them. *)
From S2P Require Import Prelude GoTime Events StateStore Proc.

(** [func() proto.Message { return &pb.StopEvent{} }] *)
Definition new_StopEvent (_ : unit) : option Message := Some (msg_StopEvent (Some StopEvent.zero)).

(** The attributes of a stop event, and its fields. *)
Definition attrs (e : StopEvent.t) : ptr EventAttributes.t := StopEvent.GetAttributes (Some e).
Definition agency_of (e : StopEvent.t) : string := EventAttributes.GetAgencyId (attrs e).
Definition vehicle_of (e : StopEvent.t) : string := EventAttributes.GetVehicleId (attrs e).
Definition route_of (e : StopEvent.t) : string := EventAttributes.GetRouteId (attrs e).
Definition stop_of (e : StopEvent.t) : string := EventAttributes.GetStopId (attrs e).
Definition direction_of (e : StopEvent.t) : string := EventAttributes.GetDirectionId (attrs e).
Definition trip_of (e : StopEvent.t) : string := EventAttributes.GetTripId (attrs e).
Definition type_of (e : StopEvent.t) : Z := StopEvent.StopEventType e.

Abbreviation is_arrival e := (type_of e = StopEvent_ARRIVAL).
Abbreviation is_departure e := (type_of e = StopEvent_DEPARTURE).

(** The stop event an element carries. *)
Definition stop_event (x : any) : option StopEvent.t :=
  match x with any_msg (msg_StopEvent e) => e | _ => None end.

(** The stop event recalled from a store. *)
Definition recall (m : option Message) : option StopEvent.t :=
  match m with Some (msg_StopEvent e) => e | _ => None end.

(** The stop event a machine remembers at [now]. *)
Definition recall_at (σ : memory) (now : Z) : option StopEvent.t := recall (view σ now).

(** The events of a list of elements. *)
Definition stop_events (ins : list arrival) : list StopEvent.t :=
  omap (λ a, stop_event (what a)) ins.

Section metrics.
Context `{!ProtoLib, !Platform}.

(** The instant of a stop event. *)
Definition instant (e : StopEvent.t) : Time := AsTime (EventAttributes.GetTimestamp (attrs e)).

(** [int32(later.Sub(earlier).Seconds())] for the timestamps of two events. *)
Definition seconds_between (earlier later : StopEvent.t) : Z :=
  elapsed_int32 (instant later) (instant earlier).

(** An event whose timestamp has whole seconds [s], far from the ends of int64. *)
Definition at_second (s : Z) (e : StopEvent.t) : Prop :=
  EventAttributes.GetTimestamp (attrs e) = Some (Timestamp.mk s 0) ∧
  in_int64 s ∧ in_int64 (s + unixToInternal).

(** Whole-second timestamps less than 2^31 seconds apart are subtracted
    exactly. *)
Lemma seconds_between_whole `{!ProtoLibOk} s1 s2 e1 e2 :
  at_second s1 e1 → at_second s2 e2 → in_int32 (s2 - s1) →
  seconds_between e1 e2 = s2 - s1.
Proof.
  intros (Ht1 & _ & Hr1) (Ht2 & _ & Hr2) Hd. unfold seconds_between, instant.
  rewrite Ht1, Ht2, !AsTime_unix. cbn. by apply elapsed_whole.
Qed.

(** [timestamppb.New(ts.AsTime())] gives the timestamp back. *)
Lemma New_AsTime_whole `{!ProtoLibOk} s e :
  at_second s e → timestamppb_New (instant e) = Timestamp.mk s 0.
Proof.
  intros (Ht & Hs & Hr). unfold instant.
  rewrite Ht, AsTime_unix, timestamppb_New_unix. cbn.
  rewrite Unix_whole by done. unfold Time_Unix, Time_Nanosecond. cbn.
  f_equal. rewrite int64_small; [lia|]. by replace (_ - _) with s by lia.
Qed.
End metrics.

Section store.
Context {S : Type} `{!StateStore S} `{!StateStoreOk S K_StopEvent}.

(** Elements whose stop event can be stored. *)
Definition acceptable (x : any) : Prop :=
  ∀ e, stop_event x = Some e → storable (msg_StopEvent (Some e)).

Lemma Get_StopEvent (st : S) now k :
  store_inv st →
  Get now k new_StopEvent st =
    match live now k st with
    | Some m => (Some m, true)
    | None => (Some (msg_StopEvent (Some StopEvent.zero)), false)
    end.
Proof. intros Hinv. by apply Get_spec. Qed.

(** A remembered message is a stop event. *)
Lemma live_StopEvent (st : S) now k m :
  store_inv st → live now k st = Some m → ∃ e, m = msg_StopEvent e.
Proof. intros Hinv Hl. pose proof (live_kind _ _ _ _ Hinv Hl). destruct m; naive_solver. Qed.

(** What [Set] does to what is remembered. *)
Lemma Set_remembers (st : S) now k m :
  store_inv st → kind_of m = K_StopEvent → storable m →
  ∃ st', Set_ now k (Some m) Hour st = (None, st') ∧ store_inv st' ∧
    remembers K_StopEvent now k st' (Some (m, deadline now Hour)).
Proof.
  intros Hinv Hk Hs.
  destruct (Set_spec st now k m Hour Hinv Hk Hs) as (st' & Hset & Hinv' & Hl); [done|].
  exists st'. split_and!; [done..|]. intros now' Hn. rewrite Hl by done.
  by rewrite (decide_True (P := k = k)).
Qed.

Lemma Delete_remembers (st : S) now k :
  store_inv st →
  store_inv (Delete now k st) ∧ remembers K_StopEvent now k (Delete now k st) None.
Proof.
  intros Hinv. destruct (Delete_spec st now k Hinv) as [Hinv' Hl]. split; [done|].
  intros now' Hn. rewrite Hl by done. by rewrite decide_True.
Qed.

Lemma remembers_mono t t' k (st : S) σ :
  t ≤ t' → remembers K_StopEvent t k st σ → remembers K_StopEvent t' k st σ.
Proof. intros Ht Hr now Hn. apply Hr. lia. Qed.
End store.

(** ** Trackers

    The headway and travel-time processors keep, per key, the event they
    measure from.  An event that finds none becomes it; otherwise [judge prev e]
    says whether [e] replaces the event kept and what is sent. *)

(** The event of an element, and its whole-second timestamp. *)
Definition event_of (a : arrival) : StopEvent.t := default StopEvent.zero (stop_event (what a)).
Definition second_of (a : arrival) : Z :=
  Timestamp.GetSeconds (EventAttributes.GetTimestamp (attrs (event_of a))).
Definition whole (a : arrival) : Prop := at_second (second_of a) (event_of a).

(** [b] is stamped later than [a], by less than 2^31 seconds. *)
Definition later (a b : arrival) : Prop := second_of a < second_of b < second_of a + 2 ^ 31.

Lemma seconds_between_later `{!ProtoLib, !Platform, !ProtoLibOk} a b :
  whole a → whole b → later a b →
  seconds_between (event_of a) (event_of b) = second_of b - second_of a.
Proof.
  intros Ha Hb [? ?]. apply seconds_between_whole; [done..|]. unfold in_int32. lia.
Qed.

(** Measured from one event to the next, times add up to the time from the
    first to the last. *)
Lemma seconds_telescope `{!ProtoLib, !Platform, !ProtoLibOk} a l :
  Forall whole (a :: l) → Forall (λ p, later p.1 p.2) (adjacent a l) →
  foldr Z.add 0 ((λ p, seconds_between (event_of p.1) (event_of p.2)) <$> adjacent a l)
    = second_of (default a (last l)) - second_of a.
Proof.
  intros Hw Hl. rewrite <- telescope. f_equal. apply fmap_Forall_ext.
  apply Forall_adjacent in Hw. eapply Forall_impl; [apply Forall_and, (conj Hw Hl)|].
  intros [x y] [[? ?] ?]. by apply seconds_between_later.
Qed.

Section tracker.
Context {S : Type} `{!StateStore S} `{!StateStoreOk S K_StopEvent}.
Context (judge : StopEvent.t → StopEvent.t → bool * list any).

Definition kept (e : StopEvent.t) (a : arrival) : memory :=
  Some (msg_StopEvent (Some e), deadline (clock a 1%nat) Hour).

Definition tracker_machine : machine := {|
  next σ a :=
    match stop_event (what a), recall_at σ (clock a 0%nat) with
    | Some e, Some prev => if (judge prev e).1 then kept e a else σ
    | Some e, None => kept e a
    | None, _ => σ
    end;
  out σ a :=
    match stop_event (what a), recall_at σ (clock a 0%nat) with
    | Some e, Some prev => (judge prev e).2
    | _, _ => []
    end;
|}.

(** Has the event of [a] expired when [b] is handled? *)
Definition expired (a b : arrival) : Prop := deadline (clock a 1%nat) Hour < clock b 0%nat.
#[export] Instance expired_dec a b : Decision (expired a b).
Proof. unfold expired. apply _. Defined.

(** What is sent for each of the later events of a key when the event of [a]
    is the one kept. *)
Fixpoint tracked (a : arrival) (l : list arrival) : list (list any) :=
  match l with
  | [] => []
  | b :: l =>
      if decide (expired a b) then [] :: tracked b l
      else (judge (event_of a) (event_of b)).2
             :: tracked (if (judge (event_of a) (event_of b)).1 then b else a) l
  end.

Lemma tracker_run a l :
  Forall (λ b, is_Some (stop_event (what b))) l →
  machine_run tracker_machine (kept (event_of a) a) l = tracked a l.
Proof.
  intros Hl. revert a. induction Hl as [|b l [e He] Hl IH]; intros a; [done|].
  assert (event_of b = e) as Hb by (unfold event_of; by rewrite He).
  cbn [machine_run tracked tracker_machine next out]. rewrite He, Hb.
  unfold recall_at at 1 2, view, kept at 1 2. cbn [mbind option_bind].
  unfold expired. destruct (decide (clock b 0%nat ≤ _)) as [Hle|Hgt].
  - rewrite decide_False by lia. cbn. f_equal. destruct (judge _ e) as [[] ys]; cbn.
    + rewrite <- Hb. apply IH.
    + apply IH.
  - rewrite decide_True by lia. cbn. f_equal. rewrite <- Hb. apply IH.
Qed.

(** Every event is measured from the one just before when each is accepted in
    its turn. *)
Lemma tracked_adjacent a l :
  Forall (λ p, ¬ expired p.1 p.2 ∧ (judge (event_of p.1) (event_of p.2)).1 = true)
    (adjacent a l) →
  tracked a l = (λ p, (judge (event_of p.1) (event_of p.2)).2) <$> adjacent a l.
Proof.
  revert a. induction l as [|b l IH]; intros a; [done|]. cbn [adjacent].
  intros [[He Hj] Hl]%Forall_cons. cbn [fst snd] in *. cbn [tracked].
  rewrite decide_False by done. rewrite Hj. cbn. f_equal. by apply IH.
Qed.

(** A processor whose handling of a key is this tracker's. *)
Lemma tracker_refines handle key_of k t ins (st : S) :
  implements K_StopEvent handle key_of tracker_machine acceptable k →
  (∀ x, acceptable x → keyed_handling K_StopEvent handle key_of x) →
  (∀ x, is_Some (key_of x) → is_Some (stop_event x)) →
  timely t ins → store_inv st → Forall (λ a, acceptable (what a)) ins →
  (∀ now, t ≤ now → live now k st = None) →
  sent_for key_of k ins (run handle ins st).2 =
    match filter (has_key key_of k) ins with
    | [] => []
    | a :: l => [] :: tracked a l
    end.
Proof.
  intros HM Hkeyed Hsome Ht Hinv Hacc Hlive.
  rewrite (run_refines _ _ _ _ _ _ _ t st None HM) by eauto.
  assert (Forall (λ b, is_Some (stop_event (what b))) (filter (has_key key_of k) ins)) as Hall.
  { apply Forall_forall. intros b [Hb _]%list_elem_of_filter. apply Hsome. by exists k. }
  destruct (filter (has_key key_of k) ins) as [|a l]; [done|].
  apply Forall_cons in Hall as [[e He] Hall].
  cbn [machine_run]. cbn [tracker_machine out next]. rewrite He. cbn [recall_at]. f_equal.
  assert (event_of a = e) as <- by (unfold event_of; by rewrite He).
  by apply tracker_run.
Qed.
End tracker.

Section in_memory.
Import InMemory.

Lemma acceptable_in_memory x : acceptable (S := InMemoryStateStore) x.
Proof. by intros ? ?. Qed.
End in_memory.
