(* ===== verification/DwellEvents.v ===== *)
(** * DwellEventProcessor ([processors/transit/dwell_events])

    The time a vehicle spends at a stop: the ARRIVAL is kept in the state store
    until the matching DEPARTURE. *)
From S2P Require Import Prelude GoTime Events StateStore Proc Metrics.

Module DwellEventProcessor.

Record DwellStopKey := mkKey {
  agencyID : string;
  routeID : string;
  stopID : string;
  directionID : string;
  vehicleID : string;
}.

Definition NewDwellStopKey (stopEvent : ptr StopEvent.t) : DwellStopKey := {|
  agencyID := EventAttributes.GetAgencyId (StopEvent.GetAttributes stopEvent);
  routeID := EventAttributes.GetRouteId (StopEvent.GetAttributes stopEvent);
  stopID := EventAttributes.GetStopId (StopEvent.GetAttributes stopEvent);
  directionID := EventAttributes.GetDirectionId (StopEvent.GetAttributes stopEvent);
  vehicleID := EventAttributes.GetVehicleId (StopEvent.GetAttributes stopEvent);
|}.

Definition key_String (k : DwellStopKey) : string :=
  agencyID k +:+ "-" +:+ routeID k +:+ "-" +:+ stopID k +:+ "-" +:+ directionID k
  +:+ "-" +:+ vehicleID k.

Section processor.
Context `{!ProtoLib, !Platform}.

(** The composite literal for [dwellEvent]. *)
Definition make_dwell (event : ptr StopEvent.t) (arrivalTime departureTime : Time)
    (dwellSeconds : Z) : DwellTimeEvent.t :=
  let attrs := StopEvent.GetAttributes event in {|
  DwellTimeEvent.Attributes := Some {|
    EventAttributes.AgencyId := EventAttributes.GetAgencyId attrs;
    EventAttributes.VehicleId := EventAttributes.GetVehicleId attrs;
    EventAttributes.RouteId := EventAttributes.GetRouteId attrs;
    EventAttributes.StopId := EventAttributes.GetStopId attrs;
    EventAttributes.OriginStopId := "";
    EventAttributes.DestinationStopId := "";
    EventAttributes.DirectionId := EventAttributes.GetDirectionId attrs;
    EventAttributes.Direction := "";
    EventAttributes.DirectionDestination := "";
    EventAttributes.ParentStation := "";
    EventAttributes.StopSequence := EventAttributes.GetStopSequence attrs;
    EventAttributes.StopStatus := StopStatus_UNKNOWN;
    EventAttributes.TripId := EventAttributes.GetTripId attrs;
    EventAttributes.ServiceDate := EventAttributes.GetServiceDate attrs;
    EventAttributes.Timestamp := EventAttributes.GetTimestamp attrs;
  |};
  DwellTimeEvent.ArrivalTime := Some (timestamppb_New arrivalTime);
  DwellTimeEvent.DepartureTime := Some (timestamppb_New departureTime);
  DwellTimeEvent.DwellTimeSeconds := dwellSeconds;
|}.

Definition process (event : ptr StopEvent.t) : prog :=
  match event with
  | None => Return
  | Some _ =>
  let key := key_String (NewDwellStopKey event) in
  store_Get key new_StopEvent (λ currentState found,
  if decide (found = true ∧ StopEvent.GetStopEventType event = StopEvent_DEPARTURE) then
    match currentState with
    | Some (msg_StopEvent (Some arrivalEvent)) =>
        let arrivalTime :=
          AsTime (EventAttributes.GetTimestamp (StopEvent.GetAttributes (Some arrivalEvent))) in
        let departureTime :=
          AsTime (EventAttributes.GetTimestamp (StopEvent.GetAttributes event)) in
        let dwellSeconds := elapsed_int32 departureTime arrivalTime in
        if decide (dwellSeconds < 0) then store_Delete key Return
        else
          store_Delete key
            (chan_Send (any_msg (msg_DwellTimeEvent (Some
              (make_dwell event arrivalTime departureTime dwellSeconds)))) Return)
    | _ => store_Delete key Return
    end
  else if decide (StopEvent.GetStopEventType event = StopEvent_ARRIVAL) then
    store_Set key (Some (msg_StopEvent event)) Hour (λ _, Return)
  else Return)
  end.

(** The body of the loop of [doStream] for one element of [d.in]. *)
Definition handle (event : any) : prog :=
  match event with
  | any_msg (msg_StopEvent vp) => process vp
  | _ => Return
  end.
End processor.
End DwellEventProcessor.

Module DwellSpec.
Import DwellEventProcessor.

Definition dwell_key (e : StopEvent.t) : string := key_String (NewDwellStopKey (Some e)).

(** The key of the stop events that matter. *)
Definition key_of (x : any) : option string :=
  e ← stop_event x; if decide (is_arrival e ∨ is_departure e) then Some (dwell_key e) else None.

Section spec.
Context `{!ProtoLib, !Platform}.

(** The dwell between an arrival and a departure: reported unless negative. *)
Definition dwell (arr dep : StopEvent.t) : list any :=
  let s := seconds_between arr dep in
  if decide (s < 0) then []
  else [any_msg (msg_DwellTimeEvent (Some (make_dwell (Some dep) (instant arr) (instant dep) s)))].

Context {S : Type} `{!StateStore S} `{!StateStoreOk S K_StopEvent}.

(** For one key, the processor recalls the last event if it is an arrival. *)
Definition dwell_machine : machine := {|
  next σ a :=
    match stop_event (what a) with
    | Some e =>
        if decide (is_arrival e) then Some (msg_StopEvent (Some e), deadline (clock a 1%nat) Hour)
        else if view σ (clock a 0%nat) is Some _ then None
        else σ
    | None => σ
    end;
  out σ a :=
    match stop_event (what a), recall_at σ (clock a 0%nat) with
    | Some e, Some arr => if decide (is_departure e) then dwell arr e else []
    | _, _ => []
    end;
|}.

Lemma key_of_event x k :
  key_of x = Some k →
  ∃ e, stop_event x = Some e ∧ x = any_msg (msg_StopEvent (Some e)) ∧ dwell_key e = k ∧
    (is_arrival e ∨ is_departure e).
Proof.
  unfold key_of. intros (e & He & Hk)%bind_Some. case_decide; [|done]. simplify_eq.
  exists e. split_and!; try done. destruct x as [| |[]|]; naive_solver.
Qed.

Lemma dwell_implements k : implements K_StopEvent handle key_of dwell_machine acceptable k.
Proof.
  intros a st σ t Hk Hacc Hclk Hinv Hm.
  destruct (key_of_event _ _ Hk) as (e & He & Hx & <- & Hty).
  pose proof (clock_le _ _ 0 1 Hclk ltac:(lia)). pose proof (clock_le _ _ 1 2 Hclk ltac:(lia)).
  pose proof (clock_ge _ _ 0 Hclk).
  unfold dwell_machine, next, out. rewrite He, Hx. cbn [handle process exec]. unfold recall_at.
  rewrite Get_StopEvent, <- Hm by done. fold (dwell_key e).
  change (StopEvent.GetStopEventType (Some e)) with (type_of e).
  destruct Hty as [Hty|Hty]; rewrite Hty.
  - destruct (Set_remembers st (clock a 1%nat) (dwell_key e) (msg_StopEvent (Some e)) Hinv)
      as (st' & Hset & Hinv' & Hr); [done|by apply Hacc|].
    exists st'. destruct (live (clock a 0%nat) (dwell_key e) st) as [m|]; cbn; solve_decides; cbn;
      rewrite Hset; (split_and!; [by repeat case_match|done|by eapply remembers_mono]).
  - destruct (Delete_remembers st (clock a 1%nat) (dwell_key e) Hinv) as [Hinv' Hr].
    destruct (live (clock a 0%nat) (dwell_key e) st) as [m|] eqn:Hl; cbn; solve_decides.
    + destruct (live_StopEvent _ _ _ _ Hinv Hl) as [[arr|] ->]; cbn.
      * unfold dwell, seconds_between, instant, attrs. cbn. case_decide; cbn;
          (eexists; split_and!; [done|done|by eapply remembers_mono]).
      * eexists. split_and!; [done|done|by eapply remembers_mono].
    + exists st. split_and!; [done|done|]. eapply remembers_mono; [|done]. lia.
Qed.

Lemma dwell_keyed x : acceptable x → keyed_handling K_StopEvent handle key_of x.
Proof.
  intros Hacc. unfold keyed_handling. destruct (key_of x) as [k|] eqn:Hk.
  - destruct (key_of_event _ _ Hk) as (e & He & -> & <- & _). cbn. fold (dwell_key e).
    apply (keyed_Get _ _ 1 _ (msg_StopEvent (Some StopEvent.zero))); [done..|]. intros m f Hm.
    case_decide; [destruct m as [| | |[arr|]| | |]|]; try case_decide;
      repeat first [ apply (keyed_Delete _ _ 0) | apply (keyed_Set _ _ 0) | constructor ];
      done || by apply Hacc.
  - intros clk i st. destruct x as [| |[| | |[e|]| | |]|]; try done.
    unfold key_of in Hk. cbn in Hk. case_decide as Hty; [done|].
    cbn. change (StopEvent.GetStopEventType (Some e)) with (type_of e).
    destruct (Get _ _ _ st) as [m f]. solve_decides. done.
Qed.

(** What is sent for an element [b] whose predecessor of the same key is [a]. *)
Definition dwell_after (p : arrival * arrival) : list any :=
  match stop_event (what p.1), stop_event (what p.2) with
  | Some arr, Some dep =>
      if decide (is_arrival arr ∧ is_departure dep ∧
                 clock p.2 0%nat ≤ deadline (clock p.1 1%nat) Hour)
      then dwell arr dep else []
  | _, _ => []
  end.

(** What the machine remembers after [a] has been handled. *)
Definition remembered_arrival (a : arrival) : memory :=
  match stop_event (what a) with
  | Some e => if decide (is_arrival e)
              then Some (msg_StopEvent (Some e), deadline (clock a 1%nat) Hour) else None
  | None => None
  end.

(** Memories that recall the same from [t] on. *)
Definition same_view (t : Z) (σ σ' : memory) : Prop := ∀ now, t ≤ now → view σ now = view σ' now.

Lemma machine_run_view t σ σ' ins :
  same_view t σ σ' → timely t ins →
  machine_run dwell_machine σ ins = machine_run dwell_machine σ' ins.
Proof.
  revert t σ σ'. induction ins as [|a ins IH]; intros t σ σ' Hv Ht; [done|].
  destruct Ht as [Hclk Ht]. pose proof (clock_ge _ _ 0 Hclk). pose proof (clock_ge _ _ 2 Hclk).
  cbn. unfold recall_at. rewrite (Hv (clock a 0%nat)) by done. f_equal.
  apply (IH (clock a 2%nat)); [|done]. intros now Hn.
  destruct (stop_event (what a)); [|apply Hv; lia].
  case_decide; [done|]. destruct (view σ' (clock a 0%nat)); [done|]. apply Hv. lia.
Qed.

Lemma next_dwell t a k σ :
  key_of (what a) = Some k → clock_from t (clock a) →
  same_view (clock a 2%nat) (next dwell_machine σ a) (remembered_arrival a).
Proof.
  intros Hk Hclk. destruct (key_of_event _ _ Hk) as (e & He & _ & _ & _).
  pose proof (clock_le _ _ 0 2 Hclk ltac:(lia)).
  cbn. unfold remembered_arrival. rewrite He. case_decide; [done|].
  intros now Hn. unfold view. destruct σ as [[m d]|]; [cbn|done].
  destruct (decide (clock a 0%nat ≤ d)); cbn; [done|]. by solve_decides.
Qed.

Lemma dwell_machine_adjacent t k a ins :
  timely t (a :: ins) → Forall (λ a, key_of (what a) = Some k) (a :: ins) →
  machine_run dwell_machine (remembered_arrival a) ins = dwell_after <$> adjacent a ins.
Proof.
  revert t a. induction ins as [|b ins IH]; intros t a Ht Hk; [done|].
  destruct Ht as [_ Ht]. apply Forall_cons in Hk as [Ha Hk].
  assert (key_of (what b) = Some k) as Hb by exact (Forall_inv Hk).
  destruct (Ht) as [Hclk Ht'].
  cbn [machine_run adjacent fmap list_fmap]. f_equal.
  - destruct (key_of_event _ _ Ha) as (ea & Hea & _), (key_of_event _ _ Hb) as (eb & Heb & _).
    unfold dwell_after, remembered_arrival, dwell_machine, out. cbn [fst snd]. rewrite Hea, Heb.
    unfold recall_at, view.
    destruct (decide (is_arrival ea)); cbn; [|by solve_decides].
    destruct (decide (clock b 0%nat ≤ deadline (clock a 1%nat) Hour)); cbn;
      repeat case_decide; tauto || done.
  - rewrite (machine_run_view (clock b 2%nat) _ (remembered_arrival b));
      [by eapply IH|by eapply next_dwell|done].
Qed.

(** The dwells of a key, whatever else is interleaved. *)
Lemma dwell_run k t ins (st : S) :
  timely t ins → store_inv st → Forall (λ a, acceptable (what a)) ins →
  (∀ now, t ≤ now → live now k st = None) →
  sent_for key_of k ins (run handle ins st).2 =
    match filter (has_key key_of k) ins with
    | [] => []
    | a :: l => [] :: (dwell_after <$> adjacent a l)
    end.
Proof.
  intros Ht Hinv Hacc Hlive.
  rewrite (run_refines _ _ _ _ _ _ _ t st None (dwell_implements k)) by eauto using dwell_keyed.
  apply (timely_filter _ _ (has_key key_of k)) in Ht.
  assert (Forall (λ a, key_of (what a) = Some k) (filter (has_key key_of k) ins)) as Hall
    by (apply Forall_forall; by intros a [? _]%list_elem_of_filter).
  destruct (filter (has_key key_of k) ins) as [|a l]; [done|].
  cbn [machine_run]. f_equal; [by cbn; destruct (stop_event (what a))|].
  destruct (Ht) as [Hclk Ht'].
  assert (key_of (what a) = Some k) as Hka by exact (Forall_inv Hall).
  rewrite (machine_run_view (clock a 2%nat) _ (remembered_arrival a));
    [by eapply dwell_machine_adjacent|by eapply next_dwell|done].
Qed.

(** C17: Dwell times are measured between adjacent events of a key.  Whatever
    else is interleaved, what the DwellEventProcessor sends for a key it has no
    memory of is: nothing for the first event of the key, and for each later one
    the dwell since the event just before, provided that one is an ARRIVAL, this
    one is a DEPARTURE and the arrival has not expired; negative dwells are
    suppressed.  A repeated arrival restarts the measurement, and a second
    departure finds nothing. *)
Theorem dwell_run_adjacent k t ins (st : S) :
  timely t ins → store_inv st → Forall (λ a, acceptable (what a)) ins →
  (∀ now, t ≤ now → live now k st = None) →
  sent_for key_of k ins (run handle ins st).2 =
    match filter (has_key key_of k) ins with
    | [] => []
    | a :: l => [] :: (dwell_after <$> adjacent a l)
    end.
Proof. apply dwell_run. Qed.

(** A vehicle seen to arrive and then depart, with whole-second timestamps
    less than 2^31 seconds apart, gives one DwellTimeEvent: its seconds are the
    exact difference, its times are the two timestamps, and its identifying
    attributes are those of the departure. *)
Theorem arrive_depart_dwell `{!ProtoLibOk} a b arr dep s1 s2 t (st : S) :
  stop_event (what a) = Some arr → stop_event (what b) = Some dep →
  is_arrival arr → is_departure dep → dwell_key arr = dwell_key dep →
  at_second s1 arr → at_second s2 dep → 0 ≤ s2 - s1 < 2 ^ 31 →
  timely t [a; b] → clock b 0%nat ≤ deadline (clock a 1%nat) Hour →
  store_inv st → acceptable (what a) → acceptable (what b) →
  (∀ now, t ≤ now → live now (dwell_key dep) st = None) →
  ∃ d attrs', (run handle [a; b] st).2 = [[]; [any_msg (msg_DwellTimeEvent (Some d))]] ∧
    DwellTimeEvent.DwellTimeSeconds d = s2 - s1 ∧
    DwellTimeEvent.ArrivalTime d = Some (Timestamp.mk s1 0) ∧
    DwellTimeEvent.DepartureTime d = Some (Timestamp.mk s2 0) ∧
    DwellTimeEvent.Attributes d = Some attrs' ∧
    EventAttributes.AgencyId attrs' = agency_of dep ∧
    EventAttributes.RouteId attrs' = route_of dep ∧
    EventAttributes.StopId attrs' = stop_of dep ∧
    EventAttributes.VehicleId attrs' = vehicle_of dep ∧
    EventAttributes.TripId attrs' = trip_of dep.
Proof.
  intros Ha Hb Harr Hdep Hkey Hs1 Hs2 Hd Ht Hdl Hinv Hacca Haccb Hlive.
  assert (key_of (what a) = Some (dwell_key dep)) as Hka.
  { unfold key_of. rewrite Ha. cbn. rewrite decide_True by auto. by rewrite Hkey. }
  assert (key_of (what b) = Some (dwell_key dep)) as Hkb.
  { unfold key_of. rewrite Hb. cbn. by rewrite decide_True by auto. }
  rewrite (run_machine _ handle key_of dwell_machine acceptable (dwell_key dep) [a; b] t st None
    (dwell_implements _)) by (done || by repeat constructor).
  cbn [machine_run dwell_machine next out]. rewrite Ha, Hb, (decide_True (P := is_arrival arr)) by done.
  unfold recall_at, view at 2. cbn [mbind option_bind]. rewrite decide_True by done. cbn.
  rewrite decide_True by done. unfold dwell.
  rewrite (seconds_between_whole s1 s2) by (done || (unfold in_int32; lia)).
  rewrite decide_False by lia.
  eexists _, _. split; [done|]. cbn. rewrite (New_AsTime_whole s1), (New_AsTime_whole s2) by done.
  by split_and!.
Qed.
End spec.

Section any_store.
Context `{!ProtoLib, !Platform} {S : Type} `{!StateStore S}.

(** Whatever the store answers, at most one value is sent per element, and
    a dwell that is sent is between 0 and 2^31 - 1 seconds. *)
Theorem dwell_sent_in_bounds `{!PlatformOk} x clk i (st : S) y :
  y ∈ (exec clk i (handle x) st).2 →
  ∃ d, (exec clk i (handle x) st).2 = [any_msg (msg_DwellTimeEvent (Some d))] ∧
    0 ≤ DwellTimeEvent.DwellTimeSeconds d < 2 ^ 31.
Proof.
  destruct x as [| |[| | |[e|]| | |]|]; cbn; try (by intros ?%not_elem_of_nil).
  destruct (Get _ _ _ st) as [m f].
  case_decide; [destruct m as [[| | |[arr|]| | |]|]; try case_decide|case_decide];
    cbn; try destruct (Set_ _ _ _ _ st); cbn; try (by intros ?%not_elem_of_nil).
  intros _. eexists. split; [done|]. cbn.
  match goal with |- context [elapsed_int32 ?t ?u] => pose proof (elapsed_range t u) as Hr end.
  unfold in_int32 in Hr. lia.
Qed.
End any_store.

(** ** Keys *)

Lemma same_dwell_key e1 e2 :
  Forall dash_free [agency_of e1; route_of e1; stop_of e1; direction_of e1] →
  Forall dash_free [agency_of e2; route_of e2; stop_of e2; direction_of e2] →
  dwell_key e1 = dwell_key e2 →
  agency_of e1 = agency_of e2 ∧ route_of e1 = route_of e2 ∧ stop_of e1 = stop_of e2 ∧
  direction_of e1 = direction_of e2 ∧ vehicle_of e1 = vehicle_of e2.
Proof.
  unfold dwell_key, key_String, NewDwellStopKey. cbn [agencyID routeID stopID directionID vehicleID].
  fold (attrs e1) (attrs e2). fold (agency_of e1) (agency_of e2) (route_of e1) (route_of e2)
    (stop_of e1) (stop_of e2) (direction_of e1) (direction_of e2) (vehicle_of e1) (vehicle_of e2).
  intros (Ha1 & Hr1 & Hs1 & Hd1 & _)%Forall_cons_4 (Ha2 & Hr2 & Hs2 & Hd2 & _)%Forall_cons_4 Heq.
  by dash_split Heq.
Qed.

(** Two stop events share a dwell key only if they agree on agency, route,
    stop, direction and vehicle, provided the first four are written without
    dashes in both. *)
Theorem dwell_key_inj e1 e2 :
  Forall dash_free [agency_of e1; route_of e1; stop_of e1; direction_of e1] →
  Forall dash_free [agency_of e2; route_of e2; stop_of e2; direction_of e2] →
  dwell_key e1 = dwell_key e2 →
  agency_of e1 = agency_of e2 ∧ route_of e1 = route_of e2 ∧ stop_of e1 = stop_of e2 ∧
  direction_of e1 = direction_of e2 ∧ vehicle_of e1 = vehicle_of e2.
Proof. apply same_dwell_key. Qed.

(** *** Concrete runs *)

Section witnesses.
Local Existing Instances unix_lib unix_lib_ok amd64 amd64_ok.
Import InMemory.

Definition st0 : InMemoryStateStore := NewInMemoryStateStore (mkConfig Hour).

Definition with_ids (agency route stop : string) (ty secs : Z) : any :=
  any_msg (msg_StopEvent (Some (StopEvent.mk (Some {|
    EventAttributes.AgencyId := agency;
    EventAttributes.VehicleId := "v1";
    EventAttributes.RouteId := route;
    EventAttributes.StopId := stop;
    EventAttributes.OriginStopId := "";
    EventAttributes.DestinationStopId := "";
    EventAttributes.DirectionId := "0";
    EventAttributes.Direction := "";
    EventAttributes.DirectionDestination := "";
    EventAttributes.ParentStation := "";
    EventAttributes.StopSequence := 0;
    EventAttributes.StopStatus := StopStatus_STOPPED_AT;
    EventAttributes.TripId := "t1";
    EventAttributes.ServiceDate := "20240101";
    EventAttributes.Timestamp := Some (Timestamp.mk secs 0);
  |}) ty))).

(** The dashes of the key are not unique separators: an arrival of a
    vehicle at stop "B-1" of route "CR" is taken for its arrival at stop "1" of
    route "CR-B", and a dwell is reported for a stop the vehicle never arrived
    at. *)
Theorem dwell_key_collision :
  ∃ d attrs',
    outputs handle [
      Arrival (still 10) (with_ids "MBTA" "CR" "B-1" StopEvent_ARRIVAL 1000);
      Arrival (still 20) (with_ids "MBTA" "CR-B" "1" StopEvent_DEPARTURE 1060)] st0
    = [any_msg (msg_DwellTimeEvent (Some d))] ∧
    DwellTimeEvent.Attributes d = Some attrs' ∧
    EventAttributes.RouteId attrs' = "CR-B" ∧ EventAttributes.StopId attrs' = "1" ∧
    DwellTimeEvent.DwellTimeSeconds d = 60.
Proof. eexists _, _. split_and!; by vm_compute. Qed.

(** "v1" arrives twice and departs twice; "v2" passes in between. *)
Definition sample_ins : list arrival := [
  Arrival (still 10) (sample_stop "v1" "s1" StopEvent_ARRIVAL 1000);
  Arrival (still 20) (sample_stop "v2" "s1" StopEvent_ARRIVAL 1005);
  Arrival (still 30) (sample_stop "v1" "s1" StopEvent_ARRIVAL 1010);
  Arrival (still 40) (sample_stop "v1" "s1" StopEvent_DEPARTURE 1060);
  Arrival (still 50) (sample_stop "v1" "s1" StopEvent_DEPARTURE 1070)].

Definition sample_key : string := "MBTA-Red-s1-0-v1".

Lemma dwell_sample_timely : timely 0 sample_ins.
Proof. cbn. split_and!; try apply clock_from_still; done || (unfold still; lia). Qed.

Lemma dwell_run_adjacent_witness :
  sent_for key_of sample_key sample_ins (run handle sample_ins st0).2 =
    match filter (has_key key_of sample_key) sample_ins with
    | [] => []
    | a :: l => [] :: (dwell_after (S := InMemoryStateStore) <$> adjacent a l)
    end.
Proof.
  apply (dwell_run_adjacent sample_key 0); [apply dwell_sample_timely|apply new_homogeneous| |
    intros; apply visible_new].
  apply Forall_true. intros. apply acceptable_in_memory.
Defined.

Lemma arrive_depart_dwell_witness : ∃ d,
  (run handle [
     Arrival (still 10) (sample_stop "v1" "s1" StopEvent_ARRIVAL 1000);
     Arrival (still 20) (sample_stop "v1" "s1" StopEvent_DEPARTURE 1060)] st0).2
  = [[]; [any_msg (msg_DwellTimeEvent (Some d))]] ∧ DwellTimeEvent.DwellTimeSeconds d = 60.
Proof.
  destruct (arrive_depart_dwell
    (Arrival (still 10) (sample_stop "v1" "s1" StopEvent_ARRIVAL 1000))
    (Arrival (still 20) (sample_stop "v1" "s1" StopEvent_DEPARTURE 1060))
    _ _ 1000 1060 0 st0 eq_refl eq_refl) as (d & attrs' & Hrun & Hs & _).
  1-3: done.
  1-2: split; [done|unfold in_int64, unixToInternal; lia].
  1: lia.
  1: cbn; split_and!; try apply clock_from_still; done || (unfold still; lia).
  1: done.
  1: apply new_homogeneous.
  1-2: apply acceptable_in_memory.
  1: intros; apply visible_new.
  exists d. split; [exact Hrun|exact Hs].
Defined.

Definition st1 : InMemoryStateStore :=
  (exec (still 10) 0 (handle (sample_stop "v1" "s1" StopEvent_ARRIVAL 1000)) st0).1.

Lemma dwell_sent_in_bounds_witness : ∃ d,
  (exec (still 20) 0 (handle (sample_stop "v1" "s1" StopEvent_DEPARTURE 1060)) st1).2
    = [any_msg (msg_DwellTimeEvent (Some d))] ∧
  0 ≤ DwellTimeEvent.DwellTimeSeconds d < 2 ^ 31.
Proof.
  eapply dwell_sent_in_bounds. vm_compute. apply list_elem_of_here.
Defined.

Lemma dwell_key_inj_witness : ∃ e1 e2,
  stop_event (with_ids "MBTA" "Red" "s1" StopEvent_ARRIVAL 1) = Some e1 ∧
  stop_event (with_ids "MBTA" "Red" "s1" StopEvent_DEPARTURE 2) = Some e2 ∧
  route_of e1 = route_of e2.
Proof.
  eexists _, _. split_and!; [done|done|].
  edestruct dwell_key_inj as (_ & Hroute & _); [..|exact Hroute].
  1-2: each (by vm_compute).
  by vm_compute.
Defined.
End witnesses.
End DwellSpec.
