(* ===== verification/HeadwayEvents.v ===== *)
(** * HeadwayEventProcessor ([processors/transit/headway_events])

    The time between the departures of two consecutive vehicles from a stop of
    a route: the last departure is kept in the state store. *)
From S2P Require Import Prelude GoTime Events StateStore Proc Metrics.

Module HeadwayEventProcessor.

Record headwayStopKey := mkKey {
  routeID : string;
  stopID : string;
  directionID : string;
}.

Definition key_String (k : headwayStopKey) : string :=
  routeID k +:+ "-" +:+ directionID k +:+ "-" +:+ stopID k.

(** The composite literal for [key]. *)
Definition make_key (event : ptr StopEvent.t) : headwayStopKey := {|
  routeID := EventAttributes.GetRouteId (StopEvent.GetAttributes event);
  stopID := EventAttributes.GetStopId (StopEvent.GetAttributes event);
  directionID := EventAttributes.GetDirectionId (StopEvent.GetAttributes event);
|}.

Section processor.
Context `{!ProtoLib, !Platform}.

(** The composite literal for [headwayEvent]. *)
Definition make_headway (stopEvent event : ptr StopEvent.t) (headwaySeconds : Z)
    : HeadwayTimeEvent.t :=
  let attrs := StopEvent.GetAttributes event in {|
  HeadwayTimeEvent.Attributes := Some {|
    EventAttributes.AgencyId := EventAttributes.GetAgencyId attrs;
    EventAttributes.VehicleId := EventAttributes.GetVehicleId attrs;
    EventAttributes.RouteId := EventAttributes.GetRouteId attrs;
    EventAttributes.StopId := EventAttributes.GetStopId attrs;
    EventAttributes.OriginStopId := "";
    EventAttributes.DestinationStopId := "";
    EventAttributes.DirectionId := EventAttributes.GetDirectionId attrs;
    EventAttributes.Direction := "";
    EventAttributes.DirectionDestination := "";
    EventAttributes.ParentStation := "";
    EventAttributes.StopSequence := EventAttributes.GetStopSequence attrs;
    EventAttributes.StopStatus := StopStatus_UNKNOWN;
    EventAttributes.TripId := EventAttributes.GetTripId attrs;
    EventAttributes.ServiceDate := EventAttributes.GetServiceDate attrs;
    EventAttributes.Timestamp := EventAttributes.GetTimestamp attrs;
  |};
  HeadwayTimeEvent.LeadingVehicleId :=
    EventAttributes.GetVehicleId (StopEvent.GetAttributes stopEvent);
  HeadwayTimeEvent.FollowingVehicleId := EventAttributes.GetVehicleId attrs;
  HeadwayTimeEvent.HeadwaySeconds := headwaySeconds;
|}.

Definition process (event : ptr StopEvent.t) : prog :=
  match event with
  | None => Return
  | Some _ =>
  if decide (StopEvent.GetStopEventType event ≠ StopEvent_DEPARTURE) then Return else
  let key := key_String (make_key event) in
  store_Get key new_StopEvent (λ state found,
  match state with
  | Some (msg_StopEvent (Some e)) =>
      let stopEvent := Some e in
      if negb found then store_Set key (Some (msg_StopEvent event)) Hour (λ _, Return)
      else if decide (EventAttributes.GetVehicleId (StopEvent.GetAttributes stopEvent) =
                      EventAttributes.GetVehicleId (StopEvent.GetAttributes event)) then Return
      else
        let currentTime :=
          AsTime (EventAttributes.GetTimestamp (StopEvent.GetAttributes event)) in
        let lastTime :=
          AsTime (EventAttributes.GetTimestamp (StopEvent.GetAttributes stopEvent)) in
        let headwaySeconds := elapsed_int32 currentTime lastTime in
        if decide (headwaySeconds ≤ 0) then Return
        else
          store_Set key (Some (msg_StopEvent event)) Hour (λ _,
          chan_Send (any_msg (msg_HeadwayTimeEvent (Some
            (make_headway stopEvent event headwaySeconds)))) Return)
  | _ => store_Set key (Some (msg_StopEvent event)) Hour (λ _, Return)
  end)
  end.

(** The body of the loop of [doStream] for one element of [f.in]. *)
Definition handle (event : any) : prog :=
  match event with
  | any_msg (msg_StopEvent stopEvent) => process stopEvent
  | _ => Return
  end.
End processor.
End HeadwayEventProcessor.

Module HeadwaySpec.
Import HeadwayEventProcessor.

Definition headway_key (e : StopEvent.t) : string := key_String (make_key (Some e)).

(** The key of the departures, the only events that matter. *)
Definition key_of (x : any) : option string :=
  e ← stop_event x; if decide (is_departure e) then Some (headway_key e) else None.

Lemma key_of_departure x k :
  key_of x = Some k →
  ∃ e, stop_event x = Some e ∧ x = any_msg (msg_StopEvent (Some e)) ∧ headway_key e = k ∧
    is_departure e.
Proof.
  unfold key_of. intros (e & He & Hk)%bind_Some. case_decide; [|done]. simplify_eq.
  exists e. split_and!; try done. destruct x as [| |[]|]; naive_solver.
Qed.

Section spec.
Context `{!ProtoLib, !Platform}.

(** Does the departure [e] follow [prev]: another vehicle, later? *)
Definition follows (prev e : StopEvent.t) : Prop :=
  vehicle_of prev ≠ vehicle_of e ∧ 0 < seconds_between prev e.
#[export] Instance follows_dec prev e : Decision (follows prev e).
Proof. unfold follows. apply _. Defined.

(** The headway between two departures. *)
Definition headway (prev e : StopEvent.t) : HeadwayTimeEvent.t :=
  make_headway (Some prev) (Some e) (seconds_between prev e).

Definition headway_judge (prev e : StopEvent.t) : bool * list any :=
  if decide (follows prev e)
  then (true, [any_msg (msg_HeadwayTimeEvent (Some (headway prev e)))])
  else (false, []).

(** The program for a departure, by what the store answers. *)
Definition answer (e : StopEvent.t) (m : option Message) (found : bool) : prog :=
  match (if found then recall m else None) with
  | Some prev =>
      if decide (follows prev e)
      then store_Set (headway_key e) (Some (msg_StopEvent (Some e))) Hour
             (λ _, chan_Send (any_msg (msg_HeadwayTimeEvent (Some (headway prev e)))) Return)
      else Return
  | None => store_Set (headway_key e) (Some (msg_StopEvent (Some e))) Hour (λ _, Return)
  end.

Lemma process_departure e :
  is_departure e → ∃ c,
    process (Some e) = store_Get (headway_key e) new_StopEvent c ∧ ∀ m f, c m f = answer e m f.
Proof.
  intros Hd. eexists. split.
  - unfold process. rewrite decide_False by (by intros []). done.
  - intros m f. unfold answer. destruct m as [[| | |[prev|]| | |]|]; try by destruct f.
    destruct f; [|done]. cbn [negb recall].
    fold (attrs prev) (attrs e). fold (vehicle_of prev) (vehicle_of e).
    fold (instant e) (instant prev). change (elapsed_int32 (instant e) (instant prev))
      with (seconds_between prev e).
    destruct (decide (follows prev e)) as [[Hv Hs]|Hn].
    + rewrite decide_False by done. rewrite decide_False by lia. done.
    + case_decide as Hv; [done|]. case_decide as Hs; [done|].
      exfalso. apply Hn. split; [done|lia].
Qed.

Context {S : Type} `{!StateStore S} `{!StateStoreOk S K_StopEvent}.

Lemma headway_implements k :
  implements K_StopEvent handle key_of (tracker_machine headway_judge) acceptable k.
Proof.
  intros a st σ t Hk Hacc Hclk Hinv Hm.
  destruct (key_of_departure _ _ Hk) as (e & He & Hx & <- & Hd).
  destruct (process_departure e Hd) as (c & Hp & Hc).
  pose proof (clock_le _ _ 0 1 Hclk ltac:(lia)). pose proof (clock_le _ _ 1 2 Hclk ltac:(lia)).
  pose proof (clock_ge _ _ 0 Hclk).
  destruct (Set_remembers st (clock a 1%nat) (headway_key e) (msg_StopEvent (Some e)) Hinv)
    as (st' & Hset & Hinv' & Hr); [done|by apply Hacc|].
  apply (remembers_mono _ (clock a 2%nat)) in Hr; [|lia].
  apply (remembers_mono _ (clock a 2%nat)) in Hm as Hm2; [|lia].
  cbn [tracker_machine next out]. rewrite He, Hx. cbn [handle]. rewrite Hp. cbn [exec].
  unfold recall_at. rewrite Get_StopEvent, <- Hm by done. unfold kept, headway_judge.
  destruct (live (clock a 0%nat) (headway_key e) st) as [m|]; rewrite Hc; unfold answer;
    [destruct (recall (Some m)); [case_decide|]|];
    cbn [recall exec]; try (cbn [Nat.add]; rewrite Hset); by eexists.
Qed.

Lemma headway_keyed x : acceptable x → keyed_handling K_StopEvent handle key_of x.
Proof.
  intros Hacc. unfold keyed_handling. destruct (key_of x) as [k|] eqn:Hk.
  - destruct (key_of_departure _ _ Hk) as (e & He & -> & <- & Hd).
    destruct (process_departure e Hd) as (c & Hp & Hc). cbn [handle]. rewrite Hp.
    apply (keyed_Get _ _ 1 _ (msg_StopEvent (Some StopEvent.zero))); [done..|]. intros m f Hm.
    rewrite Hc. unfold answer. destruct (if f then _ else _); [case_decide|];
      repeat first [apply (keyed_Set _ _ 0) | constructor]; done || by apply Hacc.
  - intros clk i st. destruct x as [| |[| | |[e|]| | |]|]; try done.
    unfold key_of in Hk. cbn in Hk. case_decide as Hty; [done|].
    cbn. change (StopEvent.GetStopEventType (Some e)) with (type_of e). by solve_decides.
Qed.

Lemma headway_key_of_some x : is_Some (key_of x) → is_Some (stop_event x).
Proof. intros [k (e & He & _)%key_of_departure]. by exists e. Qed.

(** C26: Headways are measured per route, direction and stop.  Whatever else is
    interleaved, the HeadwayEventProcessor keeps one departure per key: the
    first departure sends nothing; a later one of the same vehicle, or one that
    is not later in time, is ignored and the departure kept stays; one of
    another vehicle sends its headway to the departure kept and replaces it; and
    when the departure kept has expired it is replaced with nothing sent. *)
Theorem headway_run_tracked k t ins (st : S) :
  timely t ins → store_inv st → Forall (λ a, acceptable (what a)) ins →
  (∀ now, t ≤ now → live now k st = None) →
  sent_for key_of k ins (run handle ins st).2 =
    match filter (has_key key_of k) ins with
    | [] => []
    | a :: l => [] :: tracked headway_judge a l
    end.
Proof.
  intros. by apply (tracker_refines headway_judge _ _ _ t);
    eauto using headway_implements, headway_keyed, headway_key_of_some.
Qed.

(** Each departure but the first is measured from the one before. *)
Lemma headway_adjacent `{!ProtoLibOk} k t ins a l (st : S) :
  timely t ins → store_inv st → Forall (λ a, acceptable (what a)) ins →
  (∀ now, t ≤ now → live now k st = None) →
  filter (has_key key_of k) ins = a :: l →
  Forall whole (a :: l) →
  Forall (λ p, later p.1 p.2) (adjacent a l) →
  Forall (λ p, ¬ expired p.1 p.2 ∧ vehicle_of (event_of p.1) ≠ vehicle_of (event_of p.2))
    (adjacent a l) →
  concat (sent_for key_of k ins (run handle ins st).2) =
    (λ p, any_msg (msg_HeadwayTimeEvent (Some (headway (event_of p.1) (event_of p.2))))) <$> adjacent a l.
Proof.
  intros Ht Hinv Hacc Hlive Hf Hw Hlat Hv.
  rewrite (tracker_refines headway_judge _ _ _ t) by
    eauto using headway_implements, headway_keyed, headway_key_of_some.
  rewrite Hf. cbn [concat app].
  assert (Forall (λ p, follows (event_of p.1) (event_of p.2)) (adjacent a l)) as Hfol.
  { apply Forall_adjacent in Hw.
    eapply Forall_impl; [apply Forall_and, (conj Hw), Forall_and, (conj Hlat Hv)|].
    intros [x y] ([? ?] & Hl & _ & ?). split; [done|].
    rewrite seconds_between_later by done. destruct Hl. lia. }
  rewrite tracked_adjacent.
  - rewrite <- (concat_singletons (λ p : arrival * arrival, any_msg _)). f_equal.
    apply fmap_Forall_ext. eapply Forall_impl; [exact Hfol|]. intros p Hp.
    unfold headway_judge. by rewrite decide_True.
  - eapply Forall_impl; [apply Forall_and, (conj Hv Hfol)|]. intros p [[? _] ?].
    split; [done|]. unfold headway_judge. by rewrite decide_True.
Qed.

(** C15: Nothing is lost between vehicles.  When the departures of a key are of
    a different vehicle each time, with whole-second timestamps that increase
    and none later than an hour after the one before was handled, every
    departure but the first sends one headway, between the two vehicles, and the
    headways add up to the time from the first to the last departure. *)
Theorem headways_add_up `{!ProtoLibOk} k t ins a l (st : S) :
  timely t ins → store_inv st → Forall (λ a, acceptable (what a)) ins →
  (∀ now, t ≤ now → live now k st = None) →
  filter (has_key key_of k) ins = a :: l →
  Forall whole (a :: l) →
  Forall (λ p, later p.1 p.2) (adjacent a l) →
  Forall (λ p, ¬ expired p.1 p.2 ∧ vehicle_of (event_of p.1) ≠ vehicle_of (event_of p.2))
    (adjacent a l) →
  ∃ hs,
    concat (sent_for key_of k ins (run handle ins st).2)
      = (λ h, any_msg (msg_HeadwayTimeEvent (Some h))) <$> hs ∧
    (λ h, (HeadwayTimeEvent.LeadingVehicleId h, HeadwayTimeEvent.FollowingVehicleId h)) <$> hs
      = (λ p, (vehicle_of (event_of p.1), vehicle_of (event_of p.2))) <$> adjacent a l ∧
    foldr Z.add 0 (HeadwayTimeEvent.HeadwaySeconds <$> hs)
      = second_of (default a (last l)) - second_of a.
Proof.
  intros Ht Hinv Hacc Hlive Hf Hw Hlat Hv.
  exists ((λ p, headway (event_of p.1) (event_of p.2)) <$> adjacent a l). split_and!.
  - rewrite (headway_adjacent k t ins a l) by done. by rewrite <- list_fmap_compose.
  - by rewrite <- list_fmap_compose.
  - rewrite <- list_fmap_compose. by apply seconds_telescope.
Qed.
End spec.

Section any_store.
Context `{!ProtoLib, !Platform} {S : Type} `{!StateStore S}.

(** Whatever the store answers, at most one value is sent per element: a
    headway from 1 to 2^31 - 1 seconds between two different vehicles, for a
    departure, with the departure's identifying attributes. *)
Theorem headway_sent_sound `{!PlatformOk} x clk i (st : S) y :
  y ∈ (exec clk i (handle x) st).2 →
  ∃ e h attrs', stop_event x = Some e ∧ is_departure e ∧
    (exec clk i (handle x) st).2 = [any_msg (msg_HeadwayTimeEvent (Some h))] ∧
    0 < HeadwayTimeEvent.HeadwaySeconds h < 2 ^ 31 ∧
    HeadwayTimeEvent.LeadingVehicleId h ≠ HeadwayTimeEvent.FollowingVehicleId h ∧
    HeadwayTimeEvent.FollowingVehicleId h = vehicle_of e ∧
    HeadwayTimeEvent.Attributes h = Some attrs' ∧
    EventAttributes.RouteId attrs' = route_of e ∧
    EventAttributes.StopId attrs' = stop_of e ∧
    EventAttributes.DirectionId attrs' = direction_of e ∧
    EventAttributes.Timestamp attrs' = EventAttributes.GetTimestamp (attrs e).
Proof.
  destruct x as [| |[| | |[e|]| | |]|]; try (by intros ?%not_elem_of_nil).
  destruct (decide (is_departure e)) as [Hd|Hd].
  - destruct (process_departure e Hd) as (c & Hp & Hc). cbn [handle]. rewrite Hp. cbn [exec].
    destruct (Get _ _ _ st) as [m f]. rewrite Hc. unfold answer.
    destruct (if f then _ else _) as [prev|]; [case_decide as Hf|]; cbn;
      try destruct (Set_ _ _ _ _ st); try (by intros ?%not_elem_of_nil).
    intros _. destruct Hf as [Hv Hs].
    eexists _, _, _. split_and!; try done; cbn.
    pose proof (elapsed_range (instant e) (instant prev)) as Hr. unfold in_int32 in Hr.
    fold (seconds_between prev e) in Hr. lia.
  - cbn. change (StopEvent.GetStopEventType (Some e)) with (type_of e).
    solve_decides. by intros ?%not_elem_of_nil.
Qed.
End any_store.

(** ** Keys *)

(** Two departures share a headway key only if they agree on route,
    direction and stop, provided route and direction are written without dashes
    in both. *)
Theorem headway_key_inj e1 e2 :
  Forall dash_free [route_of e1; direction_of e1] →
  Forall dash_free [route_of e2; direction_of e2] →
  headway_key e1 = headway_key e2 →
  route_of e1 = route_of e2 ∧ direction_of e1 = direction_of e2 ∧ stop_of e1 = stop_of e2.
Proof.
  unfold headway_key, key_String, make_key. cbn [routeID stopID directionID].
  fold (attrs e1) (attrs e2). fold (route_of e1) (route_of e2) (stop_of e1) (stop_of e2)
    (direction_of e1) (direction_of e2).
  intros [Hr1 [Hd1 _]%Forall_cons]%Forall_cons [Hr2 [Hd2 _]%Forall_cons]%Forall_cons Heq.
  by dash_split Heq.
Qed.

(** *** Concrete runs *)

Section witnesses.
Local Existing Instances unix_lib unix_lib_ok amd64 amd64_ok.
Import InMemory.

Definition st0 : InMemoryStateStore := NewInMemoryStateStore (mkConfig Hour).

(** A departure of a vehicle of [agency]. *)
Definition departure_of (agency vehicle : string) (secs : Z) : any :=
  match sample_attributes vehicle "s1" StopStatus_STOPPED_AT secs with
  | EventAttributes.mk _ v r s o d di dr dd ps sq ss tr sd ts =>
      any_msg (msg_StopEvent (Some (StopEvent.mk (Some
        (EventAttributes.mk agency v r s o d di dr dd ps sq ss tr sd ts)) StopEvent_DEPARTURE)))
  end.

(** The key names no agency: vehicles of two agencies with the same names for
    routes and stops give a headway. *)
Lemma headway_mixes_agencies : ∃ h,
  outputs handle [Arrival (still 10) (departure_of "MBTA" "v1" 1000);
                  Arrival (still 20) (departure_of "MTA" "v2" 1060)] st0
    = [any_msg (msg_HeadwayTimeEvent (Some h))] ∧ HeadwayTimeEvent.HeadwaySeconds h = 60.
Proof. eexists. by vm_compute. Qed.

(** Three vehicles leave "s1"; a departure from "s2" is interleaved. *)
Definition sample_ins : list arrival := [
  Arrival (still 10) (sample_stop "v1" "s1" StopEvent_DEPARTURE 1000);
  Arrival (still 20) (sample_stop "v9" "s2" StopEvent_DEPARTURE 1005);
  Arrival (still 30) (sample_stop "v2" "s1" StopEvent_DEPARTURE 1300);
  Arrival (still 35) (sample_stop "v2" "s1" StopEvent_ARRIVAL 1300);
  Arrival (still 40) (sample_stop "v3" "s1" StopEvent_DEPARTURE 1900)].

Definition sample_key : string := "Red-0-s1".

Lemma headway_sample_timely : timely 0 sample_ins.
Proof. cbn. split_and!; try apply clock_from_still; done || (unfold still; lia). Qed.

Lemma headway_run_tracked_witness :
  sent_for key_of sample_key sample_ins (run handle sample_ins st0).2 =
    match filter (has_key key_of sample_key) sample_ins with
    | [] => []
    | a :: l => [] :: tracked (S := InMemoryStateStore) headway_judge a l
    end.
Proof.
  apply (headway_run_tracked sample_key 0); [apply headway_sample_timely|apply new_homogeneous| |
    intros; apply visible_new].
  apply Forall_true. intros. apply acceptable_in_memory.
Defined.

Lemma headways_add_up_witness : ∃ hs,
  concat (sent_for key_of sample_key sample_ins (run handle sample_ins st0).2)
    = (λ h, any_msg (msg_HeadwayTimeEvent (Some h))) <$> hs ∧
  foldr Z.add 0 (HeadwayTimeEvent.HeadwaySeconds <$> hs) = 900.
Proof.
  destruct (headways_add_up (S := InMemoryStateStore) sample_key 0 sample_ins
    (Arrival (still 10) (sample_stop "v1" "s1" StopEvent_DEPARTURE 1000))
    [Arrival (still 30) (sample_stop "v2" "s1" StopEvent_DEPARTURE 1300);
     Arrival (still 40) (sample_stop "v3" "s1" StopEvent_DEPARTURE 1900)] st0)
    as (hs & Hsent & _ & Hsum).
  1: apply headway_sample_timely.
  1: apply new_homogeneous.
  1: apply Forall_true; intros; apply acceptable_in_memory.
  1: intros; apply visible_new.
  1: done.
  1: each (split; [done|unfold in_int64, unixToInternal, second_of; cbn; lia]).
  1: each (unfold later, second_of; cbn; lia).
  1: each (split; [by vm_compute|done]).
  exists hs. split; [exact Hsent|exact Hsum].
Defined.

Definition st1 : InMemoryStateStore :=
  (exec (still 10) 0 (handle (sample_stop "v1" "s1" StopEvent_DEPARTURE 1000)) st0).1.

Lemma headway_sent_sound_witness : ∃ h,
  (exec (still 20) 0 (handle (sample_stop "v2" "s1" StopEvent_DEPARTURE 1060)) st1).2
    = [any_msg (msg_HeadwayTimeEvent (Some h))] ∧
  0 < HeadwayTimeEvent.HeadwaySeconds h < 2 ^ 31.
Proof.
  edestruct (headway_sent_sound (sample_stop "v2" "s1" StopEvent_DEPARTURE 1060)
    (still 20) 0 st1) as (e & h & attrs' & _ & _ & Hsent & Hb & _).
  { vm_compute. apply list_elem_of_here. }
  exists h. split; [exact Hsent|exact Hb].
Defined.

Lemma headway_key_inj_witness : ∃ e1 e2,
  stop_event (sample_stop "v1" "s1" StopEvent_DEPARTURE 1) = Some e1 ∧
  stop_event (sample_stop "v2" "s1" StopEvent_DEPARTURE 2) = Some e2 ∧
  stop_of e1 = stop_of e2.
Proof.
  eexists _, _. split_and!; [done|done|].
  edestruct headway_key_inj as (_ & _ & Hstop); [..|exact Hstop].
  1-2: each (by vm_compute).
  by vm_compute.
Defined.
End witnesses.
End HeadwaySpec.
