(* ===== verification/TravelTimeEvents.v ===== *)
(** * TravelTimeEventProcessor ([processors/transit/travel_time_events])

    The time a vehicle takes from one stop of a trip to the next: the last
    arrival of the trip is kept in the state store. *)
From S2P Require Import Prelude GoTime Events StateStore Proc Metrics.

Module TravelTimeEventProcessor.

Record tripKey := mkKey {
  routeID : string;
  directionID : string;
  vehicleID : string;
  tripID : string;
}.

Definition key_String (k : tripKey) : string :=
  routeID k +:+ "-" +:+ directionID k +:+ "-" +:+ vehicleID k +:+ "-" +:+ tripID k.

(** The composite literal for [key]. *)
Definition make_key (event : ptr StopEvent.t) : tripKey := {|
  routeID := EventAttributes.GetRouteId (StopEvent.GetAttributes event);
  directionID := EventAttributes.GetDirectionId (StopEvent.GetAttributes event);
  vehicleID := EventAttributes.GetVehicleId (StopEvent.GetAttributes event);
  tripID := EventAttributes.GetTripId (StopEvent.GetAttributes event);
|}.

Section processor.
Context `{!ProtoLib, !Platform}.

(** The composite literal that is sent. *)
Definition make_travel (prev event : ptr StopEvent.t) (startTime endTime : Time)
    (travelSeconds : Z) : TravelTimeEvent.t :=
  let attrs := StopEvent.GetAttributes event in {|
  TravelTimeEvent.Attributes := Some {|
    EventAttributes.AgencyId := EventAttributes.GetAgencyId attrs;
    EventAttributes.VehicleId := EventAttributes.GetVehicleId attrs;
    EventAttributes.RouteId := EventAttributes.GetRouteId attrs;
    EventAttributes.StopId := "";
    EventAttributes.OriginStopId :=
      EventAttributes.GetStopId (StopEvent.GetAttributes prev);
    EventAttributes.DestinationStopId := EventAttributes.GetStopId attrs;
    EventAttributes.DirectionId := EventAttributes.GetDirectionId attrs;
    EventAttributes.Direction := "";
    EventAttributes.DirectionDestination := "";
    EventAttributes.ParentStation := "";
    EventAttributes.StopSequence := EventAttributes.GetStopSequence attrs;
    EventAttributes.StopStatus := StopStatus_UNKNOWN;
    EventAttributes.TripId := EventAttributes.GetTripId attrs;
    EventAttributes.ServiceDate := EventAttributes.GetServiceDate attrs;
    EventAttributes.Timestamp := EventAttributes.GetTimestamp attrs;
  |};
  TravelTimeEvent.StartTime := Some (timestamppb_New startTime);
  TravelTimeEvent.EndTime := Some (timestamppb_New endTime);
  TravelTimeEvent.TravelTimeSeconds := travelSeconds;
|}.

Definition process (event : ptr StopEvent.t) : prog :=
  match event with
  | None => Return
  | Some _ =>
  if decide (StopEvent.GetStopEventType event ≠ StopEvent_ARRIVAL) then Return else
  let currentArrival := event in
  let key := key_String (make_key event) in
  let setCurrent := store_Set key (Some (msg_StopEvent currentArrival)) Hour (λ _, Return) in
  store_Get key new_StopEvent (λ previousArrival found,
  if negb found then setCurrent else
  match previousArrival with
  | Some (msg_StopEvent (Some p)) =>
      let prev := Some p in
      if decide (EventAttributes.GetStopId (StopEvent.GetAttributes prev) ≠
                 EventAttributes.GetStopId (StopEvent.GetAttributes currentArrival)) then
        let startTime :=
          AsTime (EventAttributes.GetTimestamp (StopEvent.GetAttributes prev)) in
        let endTime :=
          AsTime (EventAttributes.GetTimestamp (StopEvent.GetAttributes currentArrival)) in
        let travelSeconds := elapsed_int32 endTime startTime in
        if decide (travelSeconds ≤ 0) then setCurrent
        else
          chan_Send (any_msg (msg_TravelTimeEvent (Some
            (make_travel prev event startTime endTime travelSeconds)))) setCurrent
      else Return
  | _ => setCurrent
  end)
  end.

(** The body of the loop of [doStream] for one element of [f.in]. *)
Definition handle (event : any) : prog :=
  match event with
  | any_nil => Return
  | any_msg (msg_StopEvent stopEvent) => process stopEvent
  | _ => Return
  end.
End processor.
End TravelTimeEventProcessor.

Module TravelSpec.
Import TravelTimeEventProcessor.

Definition trip_key (e : StopEvent.t) : string := key_String (make_key (Some e)).

(** The key of the arrivals, the only events that matter. *)
Definition key_of (x : any) : option string :=
  e ← stop_event x; if decide (is_arrival e) then Some (trip_key e) else None.

Lemma key_of_arrival x k :
  key_of x = Some k →
  ∃ e, stop_event x = Some e ∧ x = any_msg (msg_StopEvent (Some e)) ∧ trip_key e = k ∧
    is_arrival e.
Proof.
  unfold key_of. intros (e & He & Hk)%bind_Some. case_decide; [|done]. simplify_eq.
  exists e. split_and!; try done. destruct x as [| |[]|]; naive_solver.
Qed.

Section spec.
Context `{!ProtoLib, !Platform}.

(** The travel time between two arrivals of a trip. *)
Definition travel (prev e : StopEvent.t) : TravelTimeEvent.t :=
  make_travel (Some prev) (Some e) (instant prev) (instant e) (seconds_between prev e).

Definition travel_judge (prev e : StopEvent.t) : bool * list any :=
  if decide (stop_of prev = stop_of e) then (false, [])
  else if decide (0 < seconds_between prev e)
  then (true, [any_msg (msg_TravelTimeEvent (Some (travel prev e)))])
  else (true, []).

(** The program for an arrival, by what the store answers. *)
Definition answer (e : StopEvent.t) (m : option Message) (found : bool) : prog :=
  let set := store_Set (trip_key e) (Some (msg_StopEvent (Some e))) Hour (λ _, Return) in
  match (if found then recall m else None) with
  | Some prev =>
      send_all (travel_judge prev e).2 (if (travel_judge prev e).1 then set else Return)
  | None => set
  end.

Lemma process_arrival e :
  is_arrival e → ∃ c,
    process (Some e) = store_Get (trip_key e) new_StopEvent c ∧ ∀ m f, c m f = answer e m f.
Proof.
  intros Hd. eexists. split.
  - unfold process. rewrite decide_False by (by intros []). done.
  - intros m f. unfold answer. destruct f; [|done].
    destruct m as [[| | |[prev|]| | |]|]; try done. cbn [negb recall].
    fold (attrs prev) (attrs e). fold (stop_of prev) (stop_of e).
    fold (instant e) (instant prev). change (elapsed_int32 (instant e) (instant prev))
      with (seconds_between prev e). unfold travel_judge, travel.
    destruct (decide (stop_of prev = stop_of e)) as [Hs|Hs].
    + by rewrite decide_False by (by intros []).
    + rewrite decide_True by done.
      destruct (decide (0 < seconds_between prev e)).
      * by rewrite decide_False by lia.
      * by rewrite decide_True by lia.
Qed.

Context {S : Type} `{!StateStore S} `{!StateStoreOk S K_StopEvent}.

Lemma travel_implements k :
  implements K_StopEvent handle key_of (tracker_machine travel_judge) acceptable k.
Proof.
  intros a st σ t Hk Hacc Hclk Hinv Hm.
  destruct (key_of_arrival _ _ Hk) as (e & He & Hx & <- & Hd).
  destruct (process_arrival e Hd) as (c & Hp & Hc).
  pose proof (clock_le _ _ 0 1 Hclk ltac:(lia)). pose proof (clock_le _ _ 1 2 Hclk ltac:(lia)).
  pose proof (clock_ge _ _ 0 Hclk).
  destruct (Set_remembers st (clock a 1%nat) (trip_key e) (msg_StopEvent (Some e)) Hinv)
    as (st' & Hset & Hinv' & Hr); [done|by apply Hacc|].
  apply (remembers_mono _ (clock a 2%nat)) in Hr; [|lia].
  apply (remembers_mono _ (clock a 2%nat)) in Hm as Hm2; [|lia].
  cbn [tracker_machine next out]. rewrite He, Hx. cbn [handle]. rewrite Hp. cbn [exec].
  unfold recall_at. rewrite Get_StopEvent, <- Hm by done. unfold kept.
  destruct (live (clock a 0%nat) (trip_key e) st) as [m|]; rewrite Hc; unfold answer;
    [destruct (recall (Some m)) as [p|];
      [destruct (travel_judge p e) as [[] ys]; rewrite exec_send_all|]|];
    cbn [recall exec fst snd]; try (cbn [Nat.add]; rewrite Hset);
    rewrite ?app_nil_r; by eexists.
Qed.

Lemma keyed_send_all k n xs p :
  keyed (S := S) K_StopEvent k n p → keyed (S := S) K_StopEvent k n (send_all xs p).
Proof. intros Hp. induction xs; [done|]. by constructor. Qed.

Lemma travel_keyed x : acceptable x → keyed_handling K_StopEvent handle key_of x.
Proof.
  intros Hacc. unfold keyed_handling. destruct (key_of x) as [k|] eqn:Hk.
  - destruct (key_of_arrival _ _ Hk) as (e & He & -> & <- & Hd).
    destruct (process_arrival e Hd) as (c & Hp & Hc). cbn [handle]. rewrite Hp.
    apply (keyed_Get _ _ 1 _ (msg_StopEvent (Some StopEvent.zero))); [done..|]. intros m f Hm.
    rewrite Hc. unfold answer. destruct (if f then _ else _) as [p|];
      [apply keyed_send_all; destruct (travel_judge p e).1|];
      repeat first [apply (keyed_Set _ _ 0) | constructor]; done || by apply Hacc.
  - intros clk i st. destruct x as [| |[| | |[e|]| | |]|]; try done.
    unfold key_of in Hk. cbn in Hk. case_decide as Hty; [done|].
    cbn. change (StopEvent.GetStopEventType (Some e)) with (type_of e). by solve_decides.
Qed.

Lemma travel_key_of_some x : is_Some (key_of x) → is_Some (stop_event x).
Proof. intros [k (e & He & _)%key_of_arrival]. by exists e. Qed.

(** C27: Travel times are measured per route, direction, vehicle and trip.
    Whatever else is interleaved, the TravelTimeEventProcessor keeps one arrival
    per key: the first arrival sends nothing; one at the stop of the arrival
    kept is ignored, so that repeated arrivals do not shorten the time to the
    next stop; one at another stop replaces it, and sends the travel time
    between the two when it is positive; an arrival that has expired is replaced
    with nothing sent. *)
Theorem travel_run_tracked k t ins (st : S) :
  timely t ins → store_inv st → Forall (λ a, acceptable (what a)) ins →
  (∀ now, t ≤ now → live now k st = None) →
  sent_for key_of k ins (run handle ins st).2 =
    match filter (has_key key_of k) ins with
    | [] => []
    | a :: l => [] :: tracked travel_judge a l
    end.
Proof.
  intros. by apply (tracker_refines travel_judge _ _ _ t);
    eauto using travel_implements, travel_keyed, travel_key_of_some.
Qed.

(** Each arrival but the first is measured from the one before. *)
Lemma travel_adjacent `{!ProtoLibOk} k t ins a l (st : S) :
  timely t ins → store_inv st → Forall (λ a, acceptable (what a)) ins →
  (∀ now, t ≤ now → live now k st = None) →
  filter (has_key key_of k) ins = a :: l →
  Forall whole (a :: l) →
  Forall (λ p, later p.1 p.2) (adjacent a l) →
  Forall (λ p, ¬ expired p.1 p.2 ∧ stop_of (event_of p.1) ≠ stop_of (event_of p.2))
    (adjacent a l) →
  concat (sent_for key_of k ins (run handle ins st).2) =
    (λ p, any_msg (msg_TravelTimeEvent (Some (travel (event_of p.1) (event_of p.2))))) <$> adjacent a l.
Proof.
  intros Ht Hinv Hacc Hlive Hf Hw Hlat Hs.
  rewrite (tracker_refines travel_judge _ _ _ t) by
    eauto using travel_implements, travel_keyed, travel_key_of_some.
  rewrite Hf. cbn [concat app].
  assert (Forall (λ p, travel_judge (event_of p.1) (event_of p.2) =
    (true, [any_msg (msg_TravelTimeEvent (Some (travel (event_of p.1) (event_of p.2))))]))
    (adjacent a l)) as Hj.
  { apply Forall_adjacent in Hw.
    eapply Forall_impl; [apply Forall_and, (conj Hw), Forall_and, (conj Hlat Hs)|].
    intros [x y] ([? ?] & Hl & _ & ?). unfold travel_judge.
    rewrite decide_False by done. rewrite decide_True; [done|].
    rewrite seconds_between_later by done. destruct Hl. lia. }
  rewrite tracked_adjacent.
  - rewrite <- (concat_singletons (λ p : arrival * arrival, any_msg _)). f_equal.
    apply fmap_Forall_ext. eapply Forall_impl; [exact Hj|]. by intros p ->.
  - eapply Forall_impl; [apply Forall_and, (conj Hs Hj)|]. by intros p [[? _] ->].
Qed.

(** C16: The travel times of a trip add up.  When the arrivals of a trip are at
    a different stop each time, with whole-second timestamps that increase and
    none later than an hour after the one before was handled, every arrival but
    the first sends one travel time, from the stop before to its own, and the
    times add up to the time from the first to the last arrival. *)
Theorem travel_times_add_up `{!ProtoLibOk} k t ins a l (st : S) :
  timely t ins → store_inv st → Forall (λ a, acceptable (what a)) ins →
  (∀ now, t ≤ now → live now k st = None) →
  filter (has_key key_of k) ins = a :: l →
  Forall whole (a :: l) →
  Forall (λ p, later p.1 p.2) (adjacent a l) →
  Forall (λ p, ¬ expired p.1 p.2 ∧ stop_of (event_of p.1) ≠ stop_of (event_of p.2))
    (adjacent a l) →
  ∃ ts,
    concat (sent_for key_of k ins (run handle ins st).2)
      = (λ x, any_msg (msg_TravelTimeEvent (Some x))) <$> ts ∧
    (λ x, (EventAttributes.GetOriginStopId (TravelTimeEvent.GetAttributes (Some x)),
           EventAttributes.GetDestinationStopId (TravelTimeEvent.GetAttributes (Some x)))) <$> ts
      = (λ p, (stop_of (event_of p.1), stop_of (event_of p.2))) <$> adjacent a l ∧
    foldr Z.add 0 (TravelTimeEvent.TravelTimeSeconds <$> ts)
      = second_of (default a (last l)) - second_of a.
Proof.
  intros Ht Hinv Hacc Hlive Hf Hw Hlat Hs.
  exists ((λ p, travel (event_of p.1) (event_of p.2)) <$> adjacent a l). split_and!.
  - rewrite (travel_adjacent k t ins a l) by done. by rewrite <- list_fmap_compose.
  - by rewrite <- list_fmap_compose.
  - rewrite <- list_fmap_compose. by apply seconds_telescope.
Qed.
End spec.

Section any_store.
Context `{!ProtoLib, !Platform} {S : Type} `{!StateStore S}.

(** Whatever the store answers, at most one value is sent per element: a
    travel time from 1 to 2^31 - 1 seconds between two different stops, for an
    arrival at the second one, with the arrival's identifying attributes. *)
Theorem travel_sent_sound `{!PlatformOk} x clk i (st : S) y :
  y ∈ (exec clk i (handle x) st).2 →
  ∃ e d attrs', stop_event x = Some e ∧ is_arrival e ∧
    (exec clk i (handle x) st).2 = [any_msg (msg_TravelTimeEvent (Some d))] ∧
    0 < TravelTimeEvent.TravelTimeSeconds d < 2 ^ 31 ∧
    TravelTimeEvent.Attributes d = Some attrs' ∧
    EventAttributes.OriginStopId attrs' ≠ EventAttributes.DestinationStopId attrs' ∧
    EventAttributes.DestinationStopId attrs' = stop_of e ∧
    EventAttributes.RouteId attrs' = route_of e ∧
    EventAttributes.DirectionId attrs' = direction_of e ∧
    EventAttributes.VehicleId attrs' = vehicle_of e ∧
    EventAttributes.TripId attrs' = trip_of e ∧
    EventAttributes.Timestamp attrs' = EventAttributes.GetTimestamp (attrs e).
Proof.
  destruct x as [| |[| | |[e|]| | |]|]; try (by intros ?%not_elem_of_nil).
  destruct (decide (is_arrival e)) as [Hd|Hd].
  - destruct (process_arrival e Hd) as (c & Hp & Hc). cbn [handle]. rewrite Hp. cbn [exec].
    destruct (Get _ _ _ st) as [m f]. rewrite Hc. unfold answer, travel_judge.
    destruct (if f then _ else _) as [prev|]; [case_decide as Hs; [|case_decide as Ht]|]; cbn;
      try destruct (Set_ _ _ _ _ st); try (by intros ?%not_elem_of_nil).
    intros _. eexists _, _, _. split_and!; try done; cbn.
    pose proof (elapsed_range (instant e) (instant prev)) as Hr. unfold in_int32 in Hr.
    fold (seconds_between prev e) in Hr. lia.
  - cbn. change (StopEvent.GetStopEventType (Some e)) with (type_of e).
    solve_decides. by intros ?%not_elem_of_nil.
Qed.
End any_store.

(** ** Keys *)

(** Two arrivals share a trip key only if they agree on route, direction,
    vehicle and trip, provided route, direction and vehicle are written without
    dashes in both. *)
Theorem trip_key_inj e1 e2 :
  Forall dash_free [route_of e1; direction_of e1; vehicle_of e1] →
  Forall dash_free [route_of e2; direction_of e2; vehicle_of e2] →
  trip_key e1 = trip_key e2 →
  route_of e1 = route_of e2 ∧ direction_of e1 = direction_of e2 ∧
  vehicle_of e1 = vehicle_of e2 ∧ trip_of e1 = trip_of e2.
Proof.
  unfold trip_key, key_String, make_key. cbn [routeID directionID vehicleID tripID].
  fold (attrs e1) (attrs e2). fold (route_of e1) (route_of e2) (vehicle_of e1) (vehicle_of e2)
    (direction_of e1) (direction_of e2) (trip_of e1) (trip_of e2).
  intros [Hr1 [Hd1 [Hv1 _]%Forall_cons]%Forall_cons]%Forall_cons
    [Hr2 [Hd2 [Hv2 _]%Forall_cons]%Forall_cons]%Forall_cons Heq.
  by dash_split Heq.
Qed.

(** *** Concrete runs *)

Section witnesses.
Local Existing Instances unix_lib unix_lib_ok amd64 amd64_ok.
Import InMemory.

Definition st0 : InMemoryStateStore := NewInMemoryStateStore (mkConfig Hour).

(** "v1" calls at three stops; another vehicle and a departure are
    interleaved. *)
Definition sample_ins : list arrival := [
  Arrival (still 10) (sample_stop "v1" "s1" StopEvent_ARRIVAL 1000);
  Arrival (still 20) (sample_stop "v2" "s1" StopEvent_ARRIVAL 1005);
  Arrival (still 25) (sample_stop "v1" "s1" StopEvent_DEPARTURE 1020);
  Arrival (still 30) (sample_stop "v1" "s2" StopEvent_ARRIVAL 1120);
  Arrival (still 40) (sample_stop "v1" "s3" StopEvent_ARRIVAL 1300)].

Definition sample_key : string := "Red-0-v1-t1".

Lemma travel_sample_timely : timely 0 sample_ins.
Proof. cbn. split_and!; try apply clock_from_still; done || (unfold still; lia). Qed.

Lemma travel_run_tracked_witness :
  sent_for key_of sample_key sample_ins (run handle sample_ins st0).2 =
    match filter (has_key key_of sample_key) sample_ins with
    | [] => []
    | a :: l => [] :: tracked (S := InMemoryStateStore) travel_judge a l
    end.
Proof.
  apply (travel_run_tracked sample_key 0); [apply travel_sample_timely|apply new_homogeneous| |
    intros; apply visible_new].
  apply Forall_true. intros. apply acceptable_in_memory.
Defined.

Lemma travel_times_add_up_witness : ∃ ts,
  concat (sent_for key_of sample_key sample_ins (run handle sample_ins st0).2)
    = (λ x, any_msg (msg_TravelTimeEvent (Some x))) <$> ts ∧
  foldr Z.add 0 (TravelTimeEvent.TravelTimeSeconds <$> ts) = 300.
Proof.
  destruct (travel_times_add_up (S := InMemoryStateStore) sample_key 0 sample_ins
    (Arrival (still 10) (sample_stop "v1" "s1" StopEvent_ARRIVAL 1000))
    [Arrival (still 30) (sample_stop "v1" "s2" StopEvent_ARRIVAL 1120);
     Arrival (still 40) (sample_stop "v1" "s3" StopEvent_ARRIVAL 1300)] st0)
    as (ts & Hsent & _ & Hsum).
  1: apply travel_sample_timely.
  1: apply new_homogeneous.
  1: apply Forall_true; intros; apply acceptable_in_memory.
  1: intros; apply visible_new.
  1: done.
  1: each (split; [done|unfold in_int64, unixToInternal, second_of; cbn; lia]).
  1: each (unfold later, second_of; cbn; lia).
  1: each (split; [by vm_compute|done]).
  exists ts. split; [exact Hsent|exact Hsum].
Defined.

Definition st1 : InMemoryStateStore :=
  (exec (still 10) 0 (handle (sample_stop "v1" "s1" StopEvent_ARRIVAL 1000)) st0).1.

Lemma travel_sent_sound_witness : ∃ d,
  (exec (still 20) 0 (handle (sample_stop "v1" "s2" StopEvent_ARRIVAL 1060)) st1).2
    = [any_msg (msg_TravelTimeEvent (Some d))] ∧
  0 < TravelTimeEvent.TravelTimeSeconds d < 2 ^ 31.
Proof.
  edestruct (travel_sent_sound (sample_stop "v1" "s2" StopEvent_ARRIVAL 1060)
    (still 20) 0 st1) as (e & d & attrs' & _ & _ & Hsent & Hb & _).
  { vm_compute. apply list_elem_of_here. }
  exists d. split; [exact Hsent|exact Hb].
Defined.

Lemma trip_key_inj_witness : ∃ e1 e2,
  stop_event (sample_stop "v1" "s1" StopEvent_ARRIVAL 1) = Some e1 ∧
  stop_event (sample_stop "v1" "s2" StopEvent_ARRIVAL 2) = Some e2 ∧
  trip_of e1 = trip_of e2.
Proof.
  eexists _, _. split_and!; [done|done|].
  edestruct trip_key_inj as (_ & _ & _ & Htrip); [..|exact Htrip].
  1-2: each (by vm_compute).
  by vm_compute.
Defined.
End witnesses.
End TravelSpec.
