(* ===== verification/StoreChoice.v ===== *)
(** * The choice of the state store does not show

    A processor is given a [StateStore] and cannot tell a lawful one from
    another: on an in-memory store and on Redis it sends the same events, as
    long as the two agree on deadlines and Redis can encode the messages. *)
From S2P Require Import Prelude GoTime Events StateStore Proc.
From S2P Require Import StopEvents Metrics DwellEvents HeadwayEvents TravelTimeEvents.

Section across.
Context {S1 S2 : Type} `{!StateStore S1, !StateStore S2} (kd : kind).
Context `{!StateStoreOk S1 kd, !StateStoreOk S2 kd}.
Context (Hdeadline : ∀ now t, deadline (S := S1) now t = deadline (S := S2) now t).
Context (Hstorable : ∀ m, storable (S := S2) m → storable (S := S1) m).

(** Two stores hold the same from [t] on. *)
Definition same_content (t : Z) (s1 : S1) (s2 : S2) : Prop :=
  store_inv s1 ∧ store_inv s2 ∧ ∀ now k, t ≤ now → live now k s1 = live now k s2.

Lemma same_content_mono t t' s1 s2 : t ≤ t' → same_content t s1 s2 → same_content t' s1 s2.
Proof. intros Ht (? & ? & H). split_and!; [done..|]. intros now k Hn. apply H. lia. Qed.

(** A keyed program sends the same on both. *)
Lemma exec_across k n p clk i t (s1 : S1) (s2 : S2) :
  keyed (S := S2) kd k n p → clock_from t clk → same_content (clk i) s1 s2 →
  (exec clk i p s1).2 = (exec clk i p s2).2 ∧
  same_content (clk (i + n)%nat) (exec clk i p s1).1 (exec clk i p s2).1.
Proof.
  intros Hp Hclk. revert i s1 s2.
  induction Hp as [n|n new m0 c Hnew Hk0 Hc IH|n m ttl c Hm Hst Ht Hc IH|n c Hc IH|n x c Hc IH];
    intros i s1 s2 Hs; cbn [exec].
  all: assert (clk i ≤ clk (i + 1)%nat) as Hi by (eapply clock_le; [done|lia]).
  - split; [done|]. eapply same_content_mono; [|done]. eapply clock_le; [done|lia].
  - destruct (Hs) as (H1 & H2 & Hl). rewrite !(Get_spec _ _ _ _ m0), Hl by (done || lia).
    rewrite Nat.add_assoc. apply (same_content_mono _ (clk (i + 1)%nat)) in Hs; [|done].
    destruct (live (clk i) k s2) as [m|] eqn:Hm; apply IH; eauto using live_kind.
  - destruct Hs as (H1 & H2 & Hl).
    destruct (Set_spec s1 (clk i) k m ttl H1 Hm (Hstorable _ Hst) Ht) as (s1' & -> & H1' & Hl1).
    destruct (Set_spec s2 (clk i) k m ttl H2 Hm Hst Ht) as (s2' & -> & H2' & Hl2).
    rewrite Nat.add_assoc. apply IH. split_and!; [done..|]. intros now k' Hn.
    rewrite Hl1, Hl2, Hl, Hdeadline by lia. done.
  - destruct Hs as (H1 & H2 & Hl).
    destruct (Delete_spec s1 (clk i) k H1) as [H1' Hl1].
    destruct (Delete_spec s2 (clk i) k H2) as [H2' Hl2].
    rewrite Nat.add_assoc. apply IH. split_and!; [done..|]. intros now k' Hn.
    by rewrite Hl1, Hl2, Hl by lia.
  - destruct (IH i s1 s2 Hs) as (Ho & Hs').
    destruct (exec clk i c s1), (exec clk i c s2); cbn in *. by rewrite Ho.
Qed.

Context (handle : any → prog) (key_of : any → option string).

Lemma run_across t ins (s1 : S1) (s2 : S2) :
  Forall (λ a, keyed_handling (S := S2) kd handle key_of (what a)) ins →
  (∀ x, key_of x = None → inert (S := S1) (handle x)) →
  timely t ins → same_content t s1 s2 →
  (run handle ins s1).2 = (run handle ins s2).2.
Proof.
  intros Hins Hinert. revert t s1 s2.
  induction Hins as [|a ins Ha Hins IH]; intros t s1 s2 Ht Hs; [done|].
  destruct Ht as [Hclk Ht]. cbn [run]. unfold keyed_handling in Ha.
  assert ((exec (clock a) 0 (handle (what a)) s1).2 = (exec (clock a) 0 (handle (what a)) s2).2 ∧
    same_content (clock a 2%nat) (exec (clock a) 0 (handle (what a)) s1).1
      (exec (clock a) 0 (handle (what a)) s2).1) as [Ho Hs'].
  { pose proof (clock_ge _ _ 0 Hclk) as H0. pose proof (clock_ge _ _ 2 Hclk) as H2.
    destruct (key_of (what a)) as [k|] eqn:Hk.
    - apply (exec_across k 2 _ (clock a) 0 t); [done..|]. by eapply same_content_mono.
    - rewrite Hinert, Ha by done. split; [done|]. by eapply same_content_mono. }
  destruct (exec (clock a) 0 (handle (what a)) s1) as [s1' xs1].
  destruct (exec (clock a) 0 (handle (what a)) s2) as [s2' xs2]. cbn in *. subst xs2.
  specialize (IH _ _ _ Ht Hs').
  destruct (run handle ins s1'), (run handle ins s2'). cbn in *. by rewrite IH.
Qed.
End across.

(** ** In memory or on Redis *)

Section redis_or_memory.
Import InMemory.
Local Existing Instances Redis.redis Redis.redis_ok.
Context {R : Type} `{!RedisClient R, !ProtoLib, !Platform, !RedisClientOk R, !ProtoLibOk}.
Context (Hexact : ∀ now t, redis_deadline now t = now + t).

(** Two stores that are both empty, as far as the program can see. *)
Definition both_empty kd (mem : InMemoryStateStore) (red : Redis.RedisStateStore) : Prop :=
  homogeneous kd mem ∧ Redis.decodable kd red ∧
  ∀ now k, visible now k mem = None ∧ Redis.visible kd now k red = None.

Lemma both_empty_same kd t mem red :
  both_empty kd mem red → same_content kd t mem red.
Proof. intros (Hm & Hr & Hv). split_and!; [done..|]. intros now k _. cbn. by destruct (Hv now k) as [-> ->]. Qed.

Lemma deadline_same kd now t :
  deadline (S := InMemoryStateStore) (kd := kd) now t
  = deadline (S := Redis.RedisStateStore) (kd := kd) now t.
Proof. cbn. by rewrite Hexact. Qed.

(** C28: From empty stores, the StopEventProcessor sends on Redis exactly what it
    sends on the in-memory store, element by element, provided Redis expires
    keys when it was told to and every snapshot survives the wire format. *)
Theorem stop_store_choice t ins mem red :
  both_empty K_VehiclePositionEvent mem red → timely t ins →
  Forall (λ a, StopSpec.acceptable (S := Redis.RedisStateStore) (what a)) ins →
  (run StopEventProcessor.handle ins mem).2 = (run StopEventProcessor.handle ins red).2.
Proof.
  intros He Ht Hacc.
  apply (run_across K_VehiclePositionEvent (deadline_same _)
    ltac:(done) _ StopSpec.key_of t); [| |done|by apply both_empty_same].
  - eapply Forall_impl; [done|]. intros a. apply StopSpec.handle_keyed.
  - intros x Hx. assert (StopSpec.acceptable (S := InMemoryStateStore) x) as Hok by by intros ? ?.
    pose proof (StopSpec.handle_keyed x Hok) as Hk. unfold keyed_handling in Hk. by rewrite Hx in Hk.
Qed.

(** C29: The same holds of the processors of stop events. *)
Theorem metric_store_choice t ins mem red handle :
  handle = DwellEventProcessor.handle ∨ handle = HeadwayEventProcessor.handle ∨
    handle = TravelTimeEventProcessor.handle →
  both_empty K_StopEvent mem red → timely t ins →
  Forall (λ a, acceptable (S := Redis.RedisStateStore) (what a)) ins →
  (run handle ins mem).2 = (run handle ins red).2.
Proof.
  intros Hh He Ht Hacc.
  assert (∃ key_of, ∀ x,
    (acceptable (S := Redis.RedisStateStore) x →
     keyed_handling (S := Redis.RedisStateStore) K_StopEvent handle key_of x) ∧
    keyed_handling (S := InMemoryStateStore) K_StopEvent handle key_of x) as (key_of & Hk).
  { destruct Hh as [->|[->| ->]].
    - exists DwellSpec.key_of. intros x. split; [apply DwellSpec.dwell_keyed|].
      apply DwellSpec.dwell_keyed, acceptable_in_memory.
    - exists HeadwaySpec.key_of. intros x. split; [apply HeadwaySpec.headway_keyed|].
      apply HeadwaySpec.headway_keyed, acceptable_in_memory.
    - exists TravelSpec.key_of. intros x. split; [apply TravelSpec.travel_keyed|].
      apply TravelSpec.travel_keyed, acceptable_in_memory. }
  apply (run_across K_StopEvent (deadline_same _) ltac:(done) _ key_of t);
    [| |done|by apply both_empty_same].
  - eapply Forall_impl; [done|]. intros a. apply Hk.
  - intros x Hx. destruct (Hk x) as [_ Hm]. unfold keyed_handling in Hm. by rewrite Hx in Hm.
Qed.
End redis_or_memory.

(** ** Concrete runs *)

Module StoreRuns.
Local Existing Instances amd64 Redis.redis Redis.redis_ok.
Import InMemory.

Definition vp (status secs : Z) : Message :=
  match sample_vp "v1" "s1" status secs with any_msg m => m | _ => zero_of K_StopEvent end.
Definition se (ty secs : Z) : Message :=
  match sample_stop "v1" "s1" ty secs with any_msg m => m | _ => zero_of K_StopEvent end.

(** A wire format for the messages of the runs below. *)
Local Instance lib : ProtoLib := table_lib [
  (Byte.x00, vp StopStatus_STOPPED_AT 1000); (Byte.x01, vp StopStatus_IN_TRANSIT_TO 1060);
  (Byte.x02, se StopEvent_ARRIVAL 1000); (Byte.x03, se StopEvent_DEPARTURE 1060)].
Local Instance lib_ok : ProtoLibOk := table_lib_ok _.

Definition mem : InMemoryStateStore := NewInMemoryStateStore (mkConfig Hour).
Definition red : Redis.RedisStateStore := Redis.mkRedis Hour (∅ : TableRedis.server).

Lemma empty_mem_red kd : both_empty kd mem red.
Proof.
  split_and!; [apply new_homogeneous|by intros k b d|].
  intros now k. split; [apply visible_new|done].
Qed.

Definition vp_ins : list arrival := [
  Arrival (still 10) (any_msg (vp StopStatus_STOPPED_AT 1000));
  Arrival (still 20) (any_msg (vp StopStatus_IN_TRANSIT_TO 1060))].
Definition se_ins : list arrival := [
  Arrival (still 10) (any_msg (se StopEvent_ARRIVAL 1000));
  Arrival (still 20) (any_msg (se StopEvent_DEPARTURE 1060))].

Lemma stop_store_choice_witness :
  (run StopEventProcessor.handle vp_ins mem).2 = (run StopEventProcessor.handle vp_ins red).2.
Proof.
  apply (stop_store_choice ltac:(done) 0 vp_ins mem red (empty_mem_red _)).
  - cbn. split_and!; try apply clock_from_still; done || (unfold still; lia).
  - each (intros ? [= <-]; eexists; split; by vm_compute).
Defined.

Lemma metric_store_choice_witness :
  (run DwellEventProcessor.handle se_ins mem).2 = (run DwellEventProcessor.handle se_ins red).2.
Proof.
  apply (metric_store_choice ltac:(done) 0 se_ins mem red _ (or_introl eq_refl) (empty_mem_red _)).
  - cbn. split_and!; try apply clock_from_still; done || (unfold still; lia).
  - each (intros ? [= <-]; eexists; split; by vm_compute).
Defined.
End StoreRuns.
