(* ===== verification/Transit.v ===== *)
(** * From vehicle positions to dwell times

    The processors composed as the shipped configurations compose them: what one
    sends is what the next one receives, in order, at whatever times.  Each has a
    state store of its own. *)
From S2P Require Import Prelude GoTime Gtfs Events StateStore Proc.
From S2P Require Import FeedEvents StopEvents Metrics DwellEvents.

(** [ins] carries what the previous stage sent. *)
Definition carries (ins : list arrival) (sent : list any) : Prop := what <$> ins = sent.

Module FeedPipeline.
Section feeds.
Context `{!ProtoLib} {S1 S2 : Type} `{!StateStore S1, !StateStore S2}.

(** The feed an element holds, if it can be read as one. *)
Definition feed_of (x : any) : option FeedMessage.t :=
  match x with
  | any_bytes b =>
      match Unmarshal b (zero_of K_gtfs_FeedMessage) with
      | inl (msg_gtfs_FeedMessage fm) => fm
      | _ => None
      end
  | any_msg (msg_gtfs_FeedMessage fm) => fm
  | _ => None
  end.

(** The vehicles with a stop in a sequence of elements. *)
Definition all_vehicles (ins : list arrival) : list VehiclePosition.t :=
  concat (FeedSpec.vehicles <$> omap (λ a, feed_of (what a)) ins).

Lemma positions_outputs agency (ins1 : list arrival) (st1 : S1) (ins2 : list arrival) (st2 : S2) :
  carries ins2 (outputs (FeedMessageProcessor.handle agency) ins1 st1) →
  outputs VehiclePositionEventProcessor.handle ins2 st2 =
    (λ v, any_msg (msg_VehiclePositionEvent (Some (FeedSpec.position_of agency v))))
      <$> all_vehicles ins1.
Proof.
  unfold carries. revert st1 ins2 st2.
  induction ins1 as [|a ins1 IH]; intros st1 ins2 st2 Hins; [by destruct ins2|].
  unfold outputs in Hins. cbn [run] in Hins. rewrite FeedSpec.feed_message_forwards in Hins.
  specialize (IH st1). unfold outputs in IH at 1.
  destruct (run (FeedMessageProcessor.handle agency) ins1 st1) as [st1' xss]. cbn in Hins, IH.
  unfold all_vehicles. rewrite omap_cons_eq.
  assert (∀ fm ins st, outputs VehiclePositionEventProcessor.handle
      (Arrival ins (any_msg (msg_FeedMessageEvent (Some (FeedMessageEvent.mk agency fm)))) :: st) st2
    = ((λ v, any_msg (msg_VehiclePositionEvent (Some (FeedSpec.position_of agency v))))
        <$> from_option FeedSpec.vehicles [] fm)
      ++ outputs VehiclePositionEventProcessor.handle st st2) as Hone.
  { intros [fm|] clk rest; unfold outputs; cbn [run what clock].
    - cbn [VehiclePositionEventProcessor.handle]. cbn. rewrite FeedSpec.exec_each_entity.
      by destruct (run _ rest st2).
    - cbn. by destruct (run _ rest st2). }
  unfold feed_of at 1. destruct (what a) as [|b|m|]; cbn in Hins; [by apply IH| | |by apply IH].
  - destruct (Unmarshal b _) as [[fm| | | | | |]|]; cbn in Hins; try by apply IH.
    destruct ins2 as [|[clk x] ins2]; [done|]. cbn in Hins. injection Hins as -> Hins.
    rewrite Hone, (IH ins2 st2 Hins). destruct fm; cbn; [|done]. by rewrite fmap_app.
  - destruct m as [fm| | | | | |]; cbn in Hins; try by apply IH.
    destruct ins2 as [|[clk x] ins2]; [done|]. cbn in Hins. injection Hins as -> Hins.
    rewrite Hone, (IH ins2 st2 Hins). destruct fm; cbn; [|done]. by rewrite fmap_app.
Qed.

(** Through the FeedMessageProcessor and the VehiclePositionEventProcessor,
    a sequence of polled feeds becomes one VehiclePositionEvent for each vehicle
    that reports a stop, feed by feed and in the order of each feed, describing
    that vehicle; bodies that do not decode and values that are no feed leave
    no trace. *)
Theorem feeds_to_positions `{!ProtoLibOk} agency
    (ins1 : list arrival) (st1 : S1) (ins2 : list arrival) (st2 : S2) :
  carries ins2 (outputs (FeedMessageProcessor.handle agency) ins1 st1) →
  Forall2 (λ v x, ∃ ev a, x = any_msg (msg_VehiclePositionEvent (Some ev)) ∧
      VehiclePositionEvent.Attributes ev = Some a ∧ FeedSpec.describes agency v a)
    (all_vehicles ins1) (outputs VehiclePositionEventProcessor.handle ins2 st2).
Proof.
  intros Hins. rewrite (positions_outputs agency ins1 st1 ins2 st2 Hins).
  apply Forall2_fmap_r, Forall_Forall2_diag, Forall_forall. intros v Hv.
  unfold all_vehicles in Hv. apply list_elem_of_In, in_concat in Hv as (vs & Hvs & Hv).
  apply list_elem_of_In in Hvs, Hv. apply list_elem_of_fmap in Hvs as (fm & -> & _).
  destruct (FeedSpec.position_describes agency v) as (a & Ha & Hd);
    [by eapply FeedSpec.elem_of_vehicles|].
  by exists (FeedSpec.position_of agency v), a.
Qed.
End feeds.
End FeedPipeline.

(** ** Positions to dwells *)

Module VisitPipeline.
Import StopEventProcessor.

Section visits.
Context `{!ProtoLib, !Platform}.
Context {S1 S2 : Type} `{!StateStore S1, !StateStore S2}.
Context `{!StateStoreOk S1 K_VehiclePositionEvent, !StateStoreOk S2 K_StopEvent}.

(** A stop event made of the snapshot [e]. *)
Definition made_of (e : VehiclePositionEvent.t) (s : string) (ty : Z) (se : StopEvent.t) : Prop :=
  makeStopEvent (Some e) s ty = Some se.

Lemma make_made e s ty : StopSpec.usable e → s ≠ "" → ∃ se, made_of e s ty se.
Proof.
  intros [Ha Hv] Hs. unfold made_of, makeStopEvent. unfold StopSpec.vehicle_of in Hv.
  change (VehiclePositionEvent.GetAttributes (Some e)) with (VehiclePositionEvent.Attributes e).
  destruct (VehiclePositionEvent.Attributes e) as [a|]; [|done]. cbn in *.
  rewrite decide_False by tauto. by eexists.
Qed.

(** The attributes of a snapshot. *)
Definition at_ (e : VehiclePositionEvent.t) : ptr EventAttributes.t :=
  VehiclePositionEvent.Attributes e.

(** The dwell key of a visit at the stop [s] by the vehicle of [e]. *)
Definition visit_key (e : VehiclePositionEvent.t) (s : string) : string :=
  DwellEventProcessor.key_String {|
    DwellEventProcessor.agencyID := EventAttributes.GetAgencyId (at_ e);
    DwellEventProcessor.routeID := EventAttributes.GetRouteId (at_ e);
    DwellEventProcessor.stopID := s;
    DwellEventProcessor.directionID := EventAttributes.GetDirectionId (at_ e);
    DwellEventProcessor.vehicleID := StopSpec.vehicle_of e;
  |}.

Lemma made_fields e s ty se :
  made_of e s ty se →
  vehicle_of se = StopSpec.vehicle_of e ∧ stop_of se = s ∧ type_of se = ty ∧
  DwellSpec.dwell_key se = visit_key e s ∧
  EventAttributes.GetTimestamp (attrs se) = EventAttributes.GetTimestamp (at_ e).
Proof.
  unfold made_of, makeStopEvent.
  change (VehiclePositionEvent.GetAttributes (Some e)) with (at_ e).
  case_decide; intros; by simplify_eq.
Qed.

(** A stop event comes from a snapshot of its vehicle. *)
Lemma sent_vehicle x clk i (st : S1) y se :
  y ∈ (exec clk i (handle x) st).2 → stop_event y = Some se →
  StopSpec.key_of x = Some (vehicle_of se).
Proof.
  unfold StopSpec.key_of. destruct (StopSpec.snapshot x) as [e|] eqn:Hx.
  - intros Hin Hse. change (Some (StopSpec.vehicle_of e) = Some (vehicle_of se)).
    destruct (StopSpec.handle_sends x e clk i st Hx) as [Hs|[prev Hs]]; rewrite Hs in Hin;
      [by apply not_elem_of_nil in Hin|].
    apply list_elem_of_fmap in Hin as ([s ty] & -> & _). cbn in Hse.
    by apply made_fields in Hse as (-> & _).
  - rewrite StopSpec.handle_snapshot, Hx. by intros ?%not_elem_of_nil.
Qed.

(** No component of the dwell key but the vehicle holds a dash. *)
Definition plain (x : any) : Prop :=
  ∀ se, stop_event x = Some se →
    Forall dash_free [agency_of se; route_of se; Metrics.stop_of se; direction_of se].

(** Nothing expires while [ins] is handled. *)
Definition prompt (ins : list arrival) : Prop :=
  Forall (λ a, Forall (λ b, ¬ expired (S := S2) a b) ins) ins.

(** The dwell stage gets the arrival and the departure under their key. *)
Lemma dwell_what ins1 (st1 : S1) ins2 A D :
  carries ins2 (outputs handle ins1 st1) →
  concat (sent_for StopSpec.key_of (vehicle_of D) ins1 (run handle ins1 st1).2)
    = [any_msg (msg_StopEvent (Some A)); any_msg (msg_StopEvent (Some D))] →
  is_arrival A → is_departure D → DwellSpec.dwell_key A = DwellSpec.dwell_key D →
  Forall plain (outputs handle ins1 st1) →
  what <$> filter (has_key DwellSpec.key_of (DwellSpec.dwell_key D)) ins2
    = [any_msg (msg_StopEvent (Some A)); any_msg (msg_StopEvent (Some D))].
Proof.
  intros Hins Hsent HA HD Hkey Hplain. rewrite what_filter, Hins.
  rewrite Forall_forall in Hplain.
  assert (plain (any_msg (msg_StopEvent (Some D)))) as HpD.
  { apply Hplain, (sent_for_incl StopSpec.key_of (vehicle_of D) ins1).
    rewrite Hsent. apply list_elem_of_further, list_elem_of_here. }
  rewrite (filter_outputs _ StopSpec.key_of _ (vehicle_of D)).
  - rewrite Hsent. rewrite !filter_cons_True; [done|..]; unfold DwellSpec.key_of; cbn.
    + by rewrite decide_True by tauto.
    + by rewrite decide_True, Hkey by tauto.
  - intros a s' y _ Hy Hout Hk. unfold has_key.
    destruct (DwellSpec.key_of_event _ _ Hk) as (se & Hse & _ & Heq & _).
    rewrite (sent_vehicle _ _ _ _ _ _ Hy Hse). f_equal.
    destruct (DwellSpec.same_dwell_key se D) as (_ & _ & _ & _ & ?); [by eapply Hplain|by apply HpD|done..].
Qed.

(** The vehicle of a dwell. *)
Definition dwell_vehicle (x : any) : option string :=
  match x with
  | any_msg (msg_DwellTimeEvent (Some d)) =>
      Some (EventAttributes.GetVehicleId (DwellTimeEvent.Attributes d))
  | _ => None
  end.

(** A dwell is sent for a departure of its vehicle. *)
Lemma dwell_sender x clk i (s : S2) y v :
  y ∈ (exec clk i (DwellEventProcessor.handle x) s).2 → dwell_vehicle y = Some v →
  ∃ se, x = any_msg (msg_StopEvent (Some se)) ∧ vehicle_of se = v.
Proof.
  destruct x as [| |[| | |[se|]| | |]|]; try by intros ?%not_elem_of_nil.
  cbn [DwellEventProcessor.handle DwellEventProcessor.process]. cbn [exec].
  destruct (Get _ _ _ s) as [m f]. intros Hy Hv. exists se. split; [done|].
  destruct (decide _); [|case_decide; cbn in Hy; [destruct (Set_ _ _ _ _ s)|];
    by apply not_elem_of_nil in Hy].
  destruct m as [[| | |[arr|]| | |]|]; try (by apply not_elem_of_nil in Hy).
  case_decide; cbn in Hy; [by apply not_elem_of_nil in Hy|].
  apply list_elem_of_singleton in Hy as ->. cbn in Hv. by injection Hv.
Qed.

(** The events of a vehicle reach the dwell stage as they were sent for it. *)
Lemma events_of ins1 (st1 : S1) ins2 a se :
  carries ins2 (outputs handle ins1 st1) → a ∈ ins2 → what a = any_msg (msg_StopEvent (Some se)) →
  what a ∈ concat (sent_for StopSpec.key_of (vehicle_of se) ins1 (run handle ins1 st1).2).
Proof.
  intros Hins Ha Hse. assert (what a ∈ outputs handle ins1 st1) as Hin
    by (unfold carries in Hins; rewrite <- Hins; by apply list_elem_of_fmap_2).
  assert (what a ∈ filter (λ y, vehicle_of <$> stop_event y = Some (vehicle_of se))
    (outputs handle ins1 st1)) as Hf
    by (apply list_elem_of_filter; split; [by rewrite Hse|done]).
  rewrite (filter_outputs _ StopSpec.key_of _ (vehicle_of se)) in Hf.
  - by apply list_elem_of_filter in Hf as [_ ?].
  - intros b s' y _ Hy _ (e & He & Hv)%fmap_Some. unfold has_key.
    by rewrite (sent_vehicle _ _ _ _ _ _ Hy He), Hv.
Qed.

(** All dwells of the vehicle are sent for the key of its visit. *)
Lemma sole_dwell ins1 (st1 : S1) ins2 (st2 : S2) A D :
  carries ins2 (outputs handle ins1 st1) →
  concat (sent_for StopSpec.key_of (vehicle_of D) ins1 (run handle ins1 st1).2)
    = [any_msg (msg_StopEvent (Some A)); any_msg (msg_StopEvent (Some D))] →
  is_arrival A → is_departure D → DwellSpec.dwell_key A = DwellSpec.dwell_key D →
  filter (λ y, dwell_vehicle y = Some (vehicle_of D)) (outputs DwellEventProcessor.handle ins2 st2)
  = filter (λ y, dwell_vehicle y = Some (vehicle_of D))
      (concat (sent_for DwellSpec.key_of (DwellSpec.dwell_key D) ins2
        (run DwellEventProcessor.handle ins2 st2).2)).
Proof.
  intros Hins Hsent HA HD Hkey. apply filter_outputs. intros a s' y Ha Hy _ Hv.
  destruct (dwell_sender _ _ _ _ _ _ Hy Hv) as (se & Hse & Hv').
  pose proof (events_of ins1 st1 ins2 a se Hins Ha Hse) as Hin. rewrite Hv', Hsent in Hin.
  unfold has_key, DwellSpec.key_of. rewrite !elem_of_cons, elem_of_nil in Hin.
  destruct Hin as [Hin|[Hin|[]]]; rewrite Hin; cbn; rewrite decide_True by tauto; [by rewrite Hkey|done].
Qed.

(** If the events of a vehicle are an arrival and a departure with the same
    dwell key, the dwell between them is what is sent for that key. *)
Lemma dwell_of_visit t ins1 (st1 : S1) ins2 (st2 : S2) A D :
  carries ins2 (outputs handle ins1 st1) →
  concat (sent_for StopSpec.key_of (vehicle_of D) ins1 (run handle ins1 st1).2)
    = [any_msg (msg_StopEvent (Some A)); any_msg (msg_StopEvent (Some D))] →
  is_arrival A → is_departure D → DwellSpec.dwell_key A = DwellSpec.dwell_key D →
  Forall plain (outputs handle ins1 st1) →
  timely t ins2 → prompt (filter (has_key DwellSpec.key_of (DwellSpec.dwell_key D)) ins2) →
  store_inv st2 →
  Forall (λ a, acceptable (S := S2) (what a)) ins2 →
  (∀ now, t ≤ now → live now (DwellSpec.dwell_key D) st2 = None) →
  concat (sent_for DwellSpec.key_of (DwellSpec.dwell_key D) ins2
    (run DwellEventProcessor.handle ins2 st2).2) = DwellSpec.dwell A D.
Proof.
  intros Hins Hsent HA HD Hkey Hplain Ht Hprompt Hinv Hacc Hlive.
  pose proof (dwell_what ins1 st1 ins2 A D Hins Hsent HA HD Hkey Hplain) as Hwhat.
  rewrite (DwellSpec.dwell_run _ t) by done.
  destruct (filter _ ins2) as [|a [|b [|c l]]]; try done. cbn in Hwhat. simplify_eq/=.
  rewrite app_nil_r. unfold DwellSpec.dwell_after. cbn [fst snd].
  assert (¬ expired (S := S2) a b) as Hexp.
  { unfold prompt in Hprompt. apply Forall_cons in Hprompt as [Hprompt _].
    rewrite Forall_forall in Hprompt. apply Hprompt, list_elem_of_further, list_elem_of_here. }
  match goal with H : what a = _ |- _ => rewrite H end.
  match goal with H : what b = _ |- _ => rewrite H end. cbn.
  rewrite decide_True; [done|]. unfold expired in Hexp. split_and!; [done..|lia].
Qed.

(** A snapshot with the whole-second timestamp [s]. *)
Definition seen_at (s : Z) (e : VehiclePositionEvent.t) : Prop :=
  EventAttributes.GetTimestamp (at_ e) = Some (Timestamp.mk s 0) ∧
  in_int64 s ∧ in_int64 (s + unixToInternal).

(** Two snapshots of a vehicle on the same route and in the same direction. *)
Definition same_service (e e' : VehiclePositionEvent.t) : Prop :=
  EventAttributes.GetAgencyId (at_ e) = EventAttributes.GetAgencyId (at_ e') ∧
  EventAttributes.GetRouteId (at_ e) = EventAttributes.GetRouteId (at_ e') ∧
  EventAttributes.GetDirectionId (at_ e) = EventAttributes.GetDirectionId (at_ e').

(** The two stages: the snapshots of vehicle [v] reach the StopEventProcessor
    as [es], among others; its events reach the DwellEventProcessor, which has no
    memory of the key [k]. *)
Record connected (v k : string) (es : list VehiclePositionEvent.t)
    (ins1 : list arrival) (st1 : S1) (ins2 : list arrival) (st2 : S2) : Prop := {
  c_timely1 : timely 0 ins1;
  c_inv1 : store_inv st1;
  c_acceptable1 : Forall (λ a, StopSpec.acceptable (S := S1) (what a)) ins1;
  c_punctual : StopSpec.punctual (S := S1) (filter (has_key StopSpec.key_of v) ins1);
  c_unknown1 : ∀ now, 0 ≤ now → live now v st1 = None;
  c_snapshots : StopSpec.snapshots (filter (has_key StopSpec.key_of v) ins1) = es;
  c_carries : carries ins2 (outputs handle ins1 st1);
  c_plain : Forall plain (outputs handle ins1 st1);
  c_timely2 : timely 0 ins2;
  c_prompt : prompt (filter (has_key DwellSpec.key_of k) ins2);
  c_inv2 : store_inv st2;
  c_acceptable2 : Forall (λ a, acceptable (S := S2) (what a)) ins2;
  c_unknown2 : ∀ now, 0 ≤ now → live now k st2 = None;
}.

(** A dwell that was measured: its seconds, stop, vehicle and times. *)
Definition measures (x : any) (s v : string) (arrived departed : Z) : Prop :=
  ∃ d a, x = any_msg (msg_DwellTimeEvent (Some d)) ∧ DwellTimeEvent.Attributes d = Some a ∧
    DwellTimeEvent.DwellTimeSeconds d = departed - arrived ∧
    DwellTimeEvent.ArrivalTime d = Some (Timestamp.mk arrived 0) ∧
    DwellTimeEvent.DepartureTime d = Some (Timestamp.mk departed 0) ∧
    EventAttributes.StopId a = s ∧ EventAttributes.VehicleId a = v.

Lemma snapshots_vehicle v ins e :
  e ∈ StopSpec.snapshots (filter (has_key StopSpec.key_of v) ins) →
  StopSpec.vehicle_of e = v ∧ StopSpec.usable e.
Proof.
  intros (a & [Hk _]%list_elem_of_filter & Ha)%list_elem_of_omap.
  unfold has_key, StopSpec.key_of in Hk. rewrite Ha in Hk. cbn in Hk.
  split; [congruence|by eapply StopSpec.snapshot_usable].
Qed.

(** The events of a visit, seen at snapshots [eA] and [eD], give its dwell. *)
Lemma visit_measured `{!ProtoLibOk} v s eA eD es ins1 st1 ins2 st2 arrived departed :
  connected v (visit_key eD s) es ins1 st1 ins2 st2 →
  concat (StopSpec.pairwise es) =
    StopSpec.report eA [(s, StopEvent_ARRIVAL)] ++ StopSpec.report eD [(s, StopEvent_DEPARTURE)] →
  eA ∈ es → eD ∈ es → s ≠ "" → same_service eA eD →
  seen_at arrived eA → seen_at departed eD → 0 ≤ departed - arrived < 2 ^ 31 →
  ∃ x, filter (λ y, dwell_vehicle y = Some v) (outputs DwellEventProcessor.handle ins2 st2) = [x] ∧
       measures x s v arrived departed.
Proof.
  intros C Hpair HeA HeD Hs (Hag & Hro & Hdi) (HtA & HrA) (HtD & HrD) Hlt.
  rewrite <- (c_snapshots _ _ _ _ _ _ _ C) in HeA, HeD.
  destruct (snapshots_vehicle _ _ _ HeA) as [HvA HuA], (snapshots_vehicle _ _ _ HeD) as [HvD HuD].
  destruct (make_made eA s StopEvent_ARRIVAL HuA Hs) as [A HA].
  destruct (make_made eD s StopEvent_DEPARTURE HuD Hs) as [D HD].
  destruct (made_fields _ _ _ _ HA) as (HA1 & HA2 & HA3 & HA4 & HA5).
  destruct (made_fields _ _ _ _ HD) as (HD1 & HD2 & HD3 & HD4 & HD5).
  assert (visit_key eA s = visit_key eD s) as Hkey
    by (unfold visit_key; by rewrite Hag, Hro, Hdi, HvA, HvD).
  assert (concat (sent_for StopSpec.key_of (vehicle_of D) ins1 (run handle ins1 st1).2)
    = [any_msg (msg_StopEvent (Some A)); any_msg (msg_StopEvent (Some D))]) as Hsent.
  { rewrite HD1, HvD, (StopSpec.run_pairwise v 0) by apply C.
    rewrite (c_snapshots _ _ _ _ _ _ _ C), Hpair. unfold StopSpec.report. cbn. by rewrite HA, HD. }
  assert (DwellSpec.dwell_key A = DwellSpec.dwell_key D) as HAD by (by rewrite HA4, HD4).
  assert (vehicle_of D = v) as HvD' by (by rewrite HD1).
  assert (filter (λ y, dwell_vehicle y = Some v) (outputs DwellEventProcessor.handle ins2 st2) =
    filter (λ y, dwell_vehicle y = Some v) (concat (sent_for DwellSpec.key_of (DwellSpec.dwell_key D)
      ins2 (run DwellEventProcessor.handle ins2 st2).2))) as ->
    by (rewrite <- HvD'; apply (sole_dwell ins1 st1 ins2 st2 A D); done || apply C).
  rewrite (dwell_of_visit 0 ins1 st1 ins2 st2 A D); try apply C; try done.
  - unfold DwellSpec.dwell. rewrite (seconds_between_whole arrived departed);
      [|by split; [rewrite HA5|]|by split; [rewrite HD5|]|unfold in_int32; lia].
    rewrite decide_False by lia. rewrite filter_cons_True by exact (f_equal Some HvD').
    eexists. split; [done|].
    eexists _, _. do 2 (split; [done|]).
    cbn [DwellTimeEvent.ArrivalTime DwellTimeEvent.DepartureTime
         DwellTimeEvent.DwellTimeSeconds DwellEventProcessor.make_dwell].
    rewrite (New_AsTime_whole arrived) by (by split; [rewrite HA5|]).
    rewrite (New_AsTime_whole departed) by (by split; [rewrite HD5|]).
    split_and!; [done..|exact HD2|by rewrite <- HvD].
  - rewrite HD4. by apply (c_prompt _ _ _ _ _ _ _ C).
  - intros. rewrite HD4. by apply (c_unknown2 _ _ _ _ _ _ _ C).
Qed.

(** A vehicle seen approaching, standing and leaving. *)
Lemma visit_dwell `{!ProtoLibOk} v e0 e1 e2 ins1 st1 ins2 st2 arrived departed :
  connected v (visit_key e2 (StopSpec.stop_of e1)) [e0; e1; e2] ins1 st1 ins2 st2 →
  StopSpec.moving (StopSpec.status_of e0) →
  StopSpec.status_of e1 = StopStatus_STOPPED_AT →
  StopSpec.status_of e2 = StopStatus_IN_TRANSIT_TO →
  StopSpec.stop_of e1 ≠ "" → same_service e1 e2 →
  seen_at arrived e1 → seen_at departed e2 → 0 ≤ departed - arrived < 2 ^ 31 →
  ∃ x, filter (λ y, dwell_vehicle y = Some v) (outputs DwellEventProcessor.handle ins2 st2) = [x] ∧
       measures x (StopSpec.stop_of e1) v arrived departed.
Proof.
  intros C Hm0 Hs1 Hs2 Hn Hsame Ha Hd Hlt.
  apply (visit_measured _ _ e1 e2 _ _ _ _ _ _ _ C); try done; [|rewrite !elem_of_cons; tauto..].
  cbn. unfold StopSpec.changes, StopSpec.detect. rewrite Hs1, Hs2.
  by rewrite (decide_True (P := StopSpec.moving _)).
Qed.

(** From positions to a dwell.  A vehicle seen under way to a stop, then
    standing at it, then under way again, gives one dwell at that stop, however
    the positions and stop events of other vehicles are interleaved: its time is
    from the snapshot that showed it standing to the one that showed it under
    way, with whole-second timestamps less than 2^31 seconds apart. *)
Theorem visit_gives_dwell `{!ProtoLibOk} v e0 e1 e2 ins1 st1 ins2 st2 arrived departed :
  connected v (visit_key e2 (StopSpec.stop_of e1)) [e0; e1; e2] ins1 st1 ins2 st2 →
  StopSpec.moving (StopSpec.status_of e0) →
  StopSpec.status_of e1 = StopStatus_STOPPED_AT →
  StopSpec.status_of e2 = StopStatus_IN_TRANSIT_TO →
  StopSpec.stop_of e1 ≠ "" → same_service e1 e2 →
  seen_at arrived e1 → seen_at departed e2 → 0 ≤ departed - arrived < 2 ^ 31 →
  ∃ x, filter (λ y, dwell_vehicle y = Some v) (outputs DwellEventProcessor.handle ins2 st2) = [x] ∧
       measures x (StopSpec.stop_of e1) v arrived departed.
Proof. apply visit_dwell. Qed.

(** A vehicle that is under way to one stop in a snapshot and to another in
    the next is taken to have called at the first: it gives a dwell of zero
    seconds there, at the time of the second snapshot. *)
Theorem passing_gives_zero_dwell `{!ProtoLibOk} v e0 e1 ins1 st1 ins2 st2 seen :
  connected v (visit_key e1 (StopSpec.stop_of e0)) [e0; e1] ins1 st1 ins2 st2 →
  StopSpec.moving (StopSpec.status_of e0) →
  StopSpec.status_of e1 = StopStatus_IN_TRANSIT_TO →
  StopSpec.stop_of e0 ≠ StopSpec.stop_of e1 → StopSpec.stop_of e0 ≠ "" →
  seen_at seen e1 →
  ∃ x, filter (λ y, dwell_vehicle y = Some v) (outputs DwellEventProcessor.handle ins2 st2) = [x] ∧
       measures x (StopSpec.stop_of e0) v seen seen.
Proof.
  intros C Hm0 Hs1 Hne Hn Hseen.
  apply (visit_measured _ _ e1 e1 _ _ _ _ _ _ _ C); try done; [|rewrite !elem_of_cons; tauto..|lia].
  cbn. unfold StopSpec.changes, StopSpec.detect. rewrite Hs1.
  destruct Hm0 as [Hm0|Hm0]; rewrite Hm0; unfold StopSpec.moving; by solve_decides.
Qed.
End visits.
End VisitPipeline.

(** ** Concrete runs *)

Module TransitRuns.
Local Existing Instances unix_lib unix_lib_ok amd64 amd64_ok.
Import InMemory.

Definition st0 : InMemoryStateStore := NewInMemoryStateStore (mkConfig (2 * Hour)).

(** Values that are all handled at [t]. *)
Definition received (t : Z) (xs : list any) : list arrival := Arrival (still t) <$> xs.

Lemma received_carries t xs : carries (received t xs) xs.
Proof.
  unfold carries, received. rewrite <- list_fmap_compose.
  induction xs as [|x xs IH]; cbn; [done|]. by f_equal.
Qed.

Lemma received_timely t t' xs : t ≤ t' → timely t (received t' xs).
Proof.
  revert t. induction xs as [|x xs IH]; intros t Ht; [done|].
  split; [by apply clock_from_still|]. apply IH. unfold still. cbn. lia.
Qed.

Lemma received_prompt t xs (P : arrival → Prop) `{!∀ a, Decision (P a)} :
  VisitPipeline.prompt (S2 := InMemoryStateStore) (filter P (received t xs)).
Proof.
  assert (∀ a, a ∈ filter P (received t xs) → clock a = still t) as Hc.
  { intros a [_ (x & -> & _)%list_elem_of_fmap]%list_elem_of_filter. done. }
  unfold VisitPipeline.prompt. apply Forall_forall. intros a Ha. apply Forall_forall. intros b Hb.
  unfold expired. rewrite (Hc a Ha), (Hc b Hb). unfold still, Hour, Minute, Second. cbn. lia.
Qed.

(** Values handled at one time are punctual. *)
Lemma received_punctual t xs (P : arrival → Prop) `{!∀ a, Decision (P a)} :
  StopSpec.punctual (S := InMemoryStateStore) (filter P (received t xs)).
Proof.
  assert (Forall (λ a, clock a = still t) (filter P (received t xs))) as Hc.
  { apply Forall_forall. intros a [_ (x & -> & _)%list_elem_of_fmap]%list_elem_of_filter. done. }
  induction Hc as [|a l Ha Hl IH]; [done|]. destruct Hl as [|b l Hb Hl]; [done|]. split; [|exact IH].
  rewrite Ha, Hb. unfold still, Hour, Minute, Second. cbn. lia.
Qed.

(** A feed with a vehicle at a stop, one without a stop, and no vehicle. *)
Definition sample_vehicle (stop : ptr string) : VehiclePosition.t := {|
  VehiclePosition.Trip := Some (TripDescriptor.mk (Some "t1") (Some "Red") (Some 1) (Some "20240101"));
  VehiclePosition.Vehicle := None;
  VehiclePosition.Position := None;
  VehiclePosition.CurrentStopSequence := Some 3;
  VehiclePosition.StopId := stop;
  VehiclePosition.CurrentStatus := None;
  VehiclePosition.Timestamp := Some 1700000000;
|}.

Definition sample_feed : FeedMessage.t := FeedMessage.mk None [
  Some (FeedEntity.mk (Some "1") (Some (sample_vehicle (Some "s1"))));
  Some (FeedEntity.mk (Some "2") (Some (sample_vehicle None)));
  Some (FeedEntity.mk (Some "3") None); None].

Lemma feed_gives_positions_witness : ∃ ev a,
  exec (still 0) 0 (VehiclePositionEventProcessor.handle (any_msg (msg_FeedMessageEvent (Some
    (FeedMessageEvent.mk "MBTA" (Some sample_feed)))))) st0
    = (st0, [any_msg (msg_VehiclePositionEvent (Some ev))]) ∧
  VehiclePositionEvent.Attributes ev = Some a ∧
  EventAttributes.VehicleId a = "t1" ∧ EventAttributes.Timestamp a = Some (Timestamp.mk 1700000000 0).
Proof.
  destruct (FeedSpec.feed_gives_positions "MBTA" sample_feed (still 0) 0 st0) as (vs & Hex & Hvs).
  destruct (Forall2_cons_inv_l _ _ _ _ Hvs) as (ev & vs' & (a & Ha & Hd) & Hnil & ->).
  apply Forall2_nil_inv_l in Hnil as ->.
  exists ev, a. split_and!; [exact Hex|exact Ha|exact (FeedSpec.d_vehicle _ _ _ Hd)|].
  apply (FeedSpec.d_time _ _ _ Hd); [done|unfold in_int64; lia|unfold in_int64, unixToInternal; lia].
Defined.

Definition feed_ins : list arrival := received 5 [
  any_bytes []; any_msg (msg_gtfs_FeedMessage (Some sample_feed)); any_other "string"].

Lemma feeds_to_positions_witness : ∃ ev,
  outputs VehiclePositionEventProcessor.handle
    (received 6 (outputs (FeedMessageProcessor.handle "MBTA") feed_ins st0)) st0
  = [any_msg (msg_VehiclePositionEvent (Some ev))].
Proof.
  pose proof (FeedPipeline.feeds_to_positions "MBTA" feed_ins st0 _ st0
    (received_carries 6 (outputs (FeedMessageProcessor.handle "MBTA") feed_ins st0))) as H.
  destruct (Forall2_cons_inv_l _ _ _ _ H) as (x & xs & (ev & a & Hx & _) & Hnil & Heq).
  apply Forall2_nil_inv_l in Hnil. exists ev. by rewrite Heq, Hx, Hnil.
Defined.

(** "v1" calls at "s1"; "v2" is elsewhere. *)
Definition visit_ins : list arrival := [
  Arrival (still 10) (sample_vp "v1" "s1" StopStatus_IN_TRANSIT_TO 1000);
  Arrival (still 20) (sample_vp "v2" "s9" StopStatus_STOPPED_AT 1000);
  Arrival (still 30) (sample_vp "v1" "s1" StopStatus_STOPPED_AT 1030);
  Arrival (still 35) (sample_vp "v2" "s8" StopStatus_IN_TRANSIT_TO 1040);
  Arrival (still 40) (sample_vp "v1" "s2" StopStatus_IN_TRANSIT_TO 1090)].

(** "v1" is seen on its way to "s1", then to "s2". *)
Definition passing_ins : list arrival := [
  Arrival (still 10) (sample_vp "v1" "s1" StopStatus_IN_TRANSIT_TO 1000);
  Arrival (still 40) (sample_vp "v1" "s2" StopStatus_IN_TRANSIT_TO 1090)].

Definition position (x : any) : VehiclePositionEvent.t :=
  default VehiclePositionEvent.zero (StopSpec.snapshot x).

Definition at_s1 : VehiclePositionEvent.t := position (sample_vp "v1" "s1" StopStatus_STOPPED_AT 1030).
Definition to_s1 : VehiclePositionEvent.t := position (sample_vp "v1" "s1" StopStatus_IN_TRANSIT_TO 1000).
Definition to_s2 : VehiclePositionEvent.t := position (sample_vp "v1" "s2" StopStatus_IN_TRANSIT_TO 1090).

Definition stage2 (ins : list arrival) : list arrival :=
  received 100 (outputs StopEventProcessor.handle ins st0).

Definition sample_visit_key : string := "MBTA-Red-s1-0-v1".

Lemma sample_connected ins es :
  timely 0 ins →
  StopSpec.punctual (S := InMemoryStateStore) (filter (has_key StopSpec.key_of "v1") ins) →
  StopSpec.snapshots (filter (has_key StopSpec.key_of "v1") ins) = es →
  Forall VisitPipeline.plain (outputs StopEventProcessor.handle ins st0) →
  VisitPipeline.connected (S1 := InMemoryStateStore) (S2 := InMemoryStateStore)
    "v1" sample_visit_key es ins st0 (stage2 ins) st0.
Proof.
  intros Ht Hp Hs Hplain.
  split; try done; try apply new_homogeneous.
  - apply Forall_true. intros. apply StopSpec.snapshot_in_memory.
  - apply received_carries.
  - apply received_timely. lia.
  - apply received_prompt.
  - apply Forall_true. intros. apply acceptable_in_memory.
Qed.

Lemma visit_gives_dwell_witness : ∃ x,
  filter (λ y, VisitPipeline.dwell_vehicle y = Some "v1")
    (outputs DwellEventProcessor.handle (stage2 visit_ins) st0) = [x] ∧
  VisitPipeline.measures x "s1" "v1" 1030 1090.
Proof.
  apply (VisitPipeline.visit_gives_dwell "v1" to_s1 at_s1 to_s2 visit_ins st0 (stage2 visit_ins) st0).
  - apply sample_connected.
    + cbn. split_and!; try apply clock_from_still; done || (unfold still; lia).
    + vm_compute. repeat split; discriminate.
    + by vm_compute.
    + vm_compute. each (intros ? [= <-]; each (by vm_compute)).
  - by left.
  - done.
  - done.
  - done.
  - done.
  - split; [done|]. unfold in_int64, unixToInternal. lia.
  - split; [done|]. unfold in_int64, unixToInternal. lia.
  - lia.
Defined.

Lemma passing_gives_zero_dwell_witness : ∃ x,
  filter (λ y, VisitPipeline.dwell_vehicle y = Some "v1")
    (outputs DwellEventProcessor.handle (stage2 passing_ins) st0) = [x] ∧
  VisitPipeline.measures x "s1" "v1" 1090 1090.
Proof.
  apply (VisitPipeline.passing_gives_zero_dwell "v1" to_s1 to_s2 passing_ins st0
    (stage2 passing_ins) st0).
  - apply sample_connected.
    + cbn. split_and!; try apply clock_from_still; done || (unfold still; lia).
    + vm_compute. repeat split; discriminate.
    + by vm_compute.
    + vm_compute. each (intros ? [= <-]; each (by vm_compute)).
  - by left.
  - done.
  - done.
  - done.
  - split; [done|]. unfold in_int64, unixToInternal. lia.
Defined.
End TransitRuns.
