(* ===== verification/Journey.v ===== *)
(** * From reports to dwell times

    What the vehicles of a sequence of feeds report becomes positions, positions
    become stop events, and these the dwell times that are sent.  The hypotheses are
    about the reports and about when elements are handled. *)
From S2P Require Import Prelude GoTime Gtfs Events StateStore Proc.
From S2P Require Import FeedEvents StopEvents Metrics DwellEvents Transit.

Import FeedPipeline VisitPipeline FeedSpec.

(** ** Positions as the stop-event processor sees them *)

(** The GTFS status and the time of a report. *)
Definition gtfs_status (r : VehiclePosition.t) : Z := VehiclePosition.GetCurrentStatus (Some r).
Definition gtfs_time (r : VehiclePosition.t) : Z := VehiclePosition.GetTimestamp (Some r).
Definition gtfs_stop (r : VehiclePosition.t) : string := VehiclePosition.GetStopId (Some r).
Definition gtfs_route (r : VehiclePosition.t) : string :=
  TripDescriptor.GetRouteId (VehiclePosition.GetTrip (Some r)).
Definition gtfs_direction (r : VehiclePosition.t) : string :=
  itoa (TripDescriptor.GetDirectionId (VehiclePosition.GetTrip (Some r))).

(** No route, stop or direction of a report holds a dash. *)
Definition dashless (r : VehiclePosition.t) : Prop :=
  Forall dash_free [gtfs_route r; gtfs_stop r; gtfs_direction r].

Section reports.
Context `{!ProtoLib}.

(** The elements that report the vehicles [l] of feeds of [agency]. *)
Definition reports (agency : string) (l : list VehiclePosition.t) : list any :=
  (λ r, any_msg (msg_VehiclePositionEvent (Some (position_of agency r)))) <$> l.


Lemma snapshot_report agency r :
  StopSpec.snapshot (any_msg (msg_VehiclePositionEvent (Some (position_of agency r)))) =
    if decide (identity r = "") then None else Some (position_of agency r).
Proof. unfold StopSpec.snapshot. cbn. unfold StopSpec.vehicle_of. cbn. done. Qed.

Lemma snapshots_what ins : StopSpec.snapshots ins = omap StopSpec.snapshot (what <$> ins).
Proof. unfold StopSpec.snapshots. induction ins as [|a ins IH]; cbn; [done|]. by rewrite IH. Qed.

Definition named (r : VehiclePosition.t) : Prop := identity r ≠ "".

(** [ins] shows the StopEventProcessor the reports [l] and nothing else, be it as
    messages or encoded; it ignores vehicles without a name. *)
Definition reported (agency : string) (l : list VehiclePosition.t) (ins : list arrival) : Prop :=
  StopSpec.snapshots ins = position_of agency <$> filter named l.

Lemma carries_reported agency l ins : carries ins (reports agency l) → reported agency l ins.
Proof.
  unfold carries, reported. rewrite snapshots_what. intros ->. unfold reports.
  induction l as [|r l IH]; [done|]. rewrite fmap_cons, omap_cons_eq, snapshot_report.
  destruct (decide (identity r = "")) as [Hr|Hr].
  - rewrite filter_cons_False by (intros Hn; by apply Hn). exact IH.
  - rewrite filter_cons_True by done. rewrite fmap_cons. by f_equal.
Qed.

Lemma filter_named agency v (l : list VehiclePosition.t) :
  v ≠ "" → filter (λ e, StopSpec.vehicle_of e = v) (position_of agency <$> filter named l) =
    position_of agency <$> filter (λ p, identity p = v) l.
Proof.
  intros Hv. induction l as [|r l IH]; [done|].
  destruct (decide (identity r = v)) as [Hr|Hr].
  - rewrite (filter_cons_True named) by (unfold named; congruence). rewrite (filter_cons_True _ r) by done.
    rewrite !fmap_cons. rewrite filter_cons_True by done. by rewrite IH.
  - rewrite (filter_cons_False _ r l Hr). destruct (decide (named r)) as [Hn|Hn].
    + rewrite filter_cons_True by done. rewrite fmap_cons. by rewrite filter_cons_False.
    + by rewrite filter_cons_False.
Qed.

Lemma reported_snapshots agency v l ins :
  v ≠ "" → reported agency l ins →
  StopSpec.snapshots (filter (has_key StopSpec.key_of v) ins) =
    position_of agency <$> filter (λ r, identity r = v) l.
Proof. intros Hv Hins. rewrite StopSpec.snapshots_filter, Hins. by apply filter_named. Qed.

Lemma elem_of_snapshots agency l ins e :
  reported agency l ins → e ∈ StopSpec.snapshots ins → ∃ r, r ∈ l ∧ e = position_of agency r.
Proof.
  intros ->. intros (r & -> & [_ Hr]%list_elem_of_filter)%list_elem_of_fmap. by exists r.
Qed.

Lemma detect_stops prev cur s ty :
  (s, ty) ∈ StopSpec.detect prev cur → s = StopSpec.stop_of prev ∨ s = StopSpec.stop_of cur.
Proof.
  unfold StopSpec.detect. repeat case_decide;
    rewrite ?elem_of_cons, ?elem_of_nil; intros Hin; destruct_or? Hin; simplify_eq; auto.
Qed.

(** Stop events made from dashless reports have dashless keys. *)
Lemma reports_plain `{!Platform} {S : Type} `{!StateStore S, !StateStoreOk S K_VehiclePositionEvent}
    agency l ins (st : S) t :
  dash_free agency → Forall dashless l → reported agency l ins →
  timely t ins → store_inv st → Forall (λ a, StopSpec.acceptable (S := S) (what a)) ins →
  (∀ v now, t ≤ now → live now v st = None) →
  Forall plain (outputs StopEventProcessor.handle ins st).
Proof.
  intros Hag Hl Hins Ht Hinv Hacc Hlive. apply Forall_forall. intros x Hx se Hse.
  destruct (StopSpec.outputs_changes t ins st x) as (p & e & Hp & He & Hc); [done..|].
  destruct (elem_of_snapshots _ _ _ _ Hins Hp) as (rp & Hrp & ->).
  destruct (elem_of_snapshots _ _ _ _ Hins He) as (re & Hre & ->).
  rewrite Forall_forall in Hl.
  pose proof (Hl _ Hrp) as Hdp. pose proof (Hl _ Hre) as Hde. unfold dashless in Hdp, Hde.
  rewrite !Forall_cons in Hdp, Hde. destruct Hdp as (_ & Hsp & _ & _), Hde as (Hr & Hs & Hd & _).
  unfold StopSpec.changes, StopSpec.report in Hc.
  apply list_elem_of_fmap in Hc as ([s ty] & -> & Hdet). cbn in Hse.
  assert (dash_free s) as Hstop by (by apply detect_stops in Hdet as [->| ->]).
  unfold StopEventProcessor.makeStopEvent in Hse. cbn in Hse. case_decide; [done|].
  injection Hse as <-. repeat (apply Forall_cons; split; [done|]). constructor.
Qed.

(** What the FeedMessageProcessor and the VehiclePositionEventProcessor make of
    feeds. *)
Lemma all_vehicles_stop ins : Forall (λ r, gtfs_stop r ≠ "") (all_vehicles ins).
Proof.
  apply Forall_forall. intros r. unfold all_vehicles. rewrite list_elem_of_In, in_concat.
  intros (l & Hl & Hr). apply list_elem_of_In in Hl, Hr. apply list_elem_of_fmap in Hl as (fm & -> & _).
  by eapply elem_of_vehicles.
Qed.

Lemma feeds_reported {S0 S1 : Type} `{!StateStore S0, !StateStore S1} agency ins0 (st0 : S0) ins1 (st1 : S1) :
  carries ins1 (outputs (FeedMessageProcessor.handle agency) ins0 st0) →
  outputs VehiclePositionEventProcessor.handle ins1 st1 = reports agency (all_vehicles ins0).
Proof. apply positions_outputs. Qed.
End reports.

(** ** Reports to dwells *)

Section journey.
Context `{!ProtoLib, !ProtoLibOk, !Platform}.
Context {S2 S3 : Type} `{!StateStore S2, !StateStore S3}.
Context `{!StateStoreOk S2 K_VehiclePositionEvent, !StateStoreOk S3 K_StopEvent}.

(** What the StopEventProcessor and the processor behind it take: the reports [l]
    of vehicles of [agency], and what the first sends.  Both start with an empty
    store. *)
Record chain (agency : string) (l : list VehiclePosition.t) (ins2 : list arrival) (st2 : S2)
    (ins3 : list arrival) (st3 : S3) : Prop := {
  ch_stopping : Forall (λ r, gtfs_stop r ≠ "") l;
  ch_reports : reported agency l ins2;
  ch_stops : carries ins3 (outputs StopEventProcessor.handle ins2 st2);
  ch_timely2 : timely 0 ins2;
  ch_inv2 : store_inv st2;
  ch_acceptable2 : Forall (λ a, StopSpec.acceptable (S := S2) (what a)) ins2;
  ch_empty2 : ∀ k now, 0 ≤ now → live now k st2 = None;
  ch_timely3 : timely 0 ins3;
  ch_inv3 : store_inv st3;
  ch_acceptable3 : Forall (λ a, acceptable (S := S3) (what a)) ins3;
  ch_empty3 : ∀ k now, 0 ≤ now → live now k st3 = None;
}.

(** The dwell key of a visit of the vehicle [v] to the stop [s], left with the
    report [r]. *)
Definition call_key (agency v s : string) (r : VehiclePosition.t) : string :=
  DwellEventProcessor.key_String {|
    DwellEventProcessor.agencyID := agency;
    DwellEventProcessor.routeID := gtfs_route r;
    DwellEventProcessor.stopID := s;
    DwellEventProcessor.directionID := gtfs_direction r;
    DwellEventProcessor.vehicleID := v;
  |}.

(** The vehicle [v] calls once: of all the reports [l], its own are of an
    approach [r0], of a stop [r1] and of its departure [r2]. *)
Record calls (v : string) (l : list VehiclePosition.t) (r0 r1 r2 : VehiclePosition.t) : Prop := {
  ca_named : v ≠ "";
  ca_reports : filter (λ r, identity r = v) l = [r0; r1; r2];
  ca_approach : gtfs_status r0 = VehiclePosition_IN_TRANSIT_TO ∨
    gtfs_status r0 = VehiclePosition_INCOMING_AT;
  ca_standing : gtfs_status r1 = VehiclePosition_STOPPED_AT;
  ca_departs : gtfs_status r2 = VehiclePosition_IN_TRANSIT_TO;
  ca_route : gtfs_route r1 = gtfs_route r2;
  ca_direction : gtfs_direction r1 = gtfs_direction r2;
  ca_times : 0 ≤ gtfs_time r1 ≤ gtfs_time r2;
  ca_span : gtfs_time r2 - gtfs_time r1 < 2 ^ 31;
  ca_range : gtfs_time r2 + unixToInternal < 2 ^ 63;
}.

Lemma position_seen agency r t :
  gtfs_stop r ≠ "" → gtfs_time r = t → 0 ≤ t → t + unixToInternal < 2 ^ 63 →
  seen_at t (position_of agency r).
Proof.
  intros Hs Ht Hlo Hhi. destruct (position_describes agency r Hs) as (a & Ha & Hd).
  assert (in_int64 t ∧ in_int64 (t + unixToInternal)) as [Hr1 Hr2]
    by (unfold in_int64, unixToInternal in *; lia).
  split; [|done]. unfold at_. rewrite Ha. by apply (d_time _ _ _ Hd t Ht).
Qed.

(** A stop event of the vehicle [v]. *)
Definition of_vehicle (v : string) (a : arrival) : Prop := vehicle_of <$> stop_event (what a) = Some v.
#[export] Instance of_vehicle_dec v a : Decision (of_vehicle v a).
Proof. unfold of_vehicle. apply _. Defined.

(** Where the keys are dashless, the events of a call's key are its vehicle's. *)
Lemma call_key_vehicle agency v s r a :
  Forall dash_free [agency; gtfs_route r; s; gtfs_direction r] → plain (what a) →
  has_key DwellSpec.key_of (call_key agency v s r) a → of_vehicle v a.
Proof.
  intros Hf Hp Hk. destruct (DwellSpec.key_of_event _ _ Hk) as (se & Hse & _ & Heq & _).
  unfold of_vehicle. rewrite Hse. cbn. f_equal. specialize (Hp se Hse).
  rewrite !Forall_cons in Hf, Hp. destruct Hf as (? & ? & ? & ? & _), Hp as (? & ? & ? & ? & _).
  unfold DwellSpec.dwell_key, call_key, DwellEventProcessor.key_String in Heq.
  cbn [DwellEventProcessor.agencyID DwellEventProcessor.routeID DwellEventProcessor.stopID
    DwellEventProcessor.directionID DwellEventProcessor.vehicleID DwellEventProcessor.NewDwellStopKey]
    in Heq.
  by dash_split Heq.
Qed.

Lemma prompt_incl (ins ins' : list arrival) :
  (∀ a, a ∈ ins → a ∈ ins') → prompt (S2 := S3) ins' → prompt (S2 := S3) ins.
Proof.
  unfold prompt. intros Hincl. rewrite !Forall_forall. intros Hp a Ha.
  specialize (Hp a (Hincl a Ha)). rewrite Forall_forall in Hp |- *. auto.
Qed.

(** One dwell is sent for a vehicle that calls once: at the stop of the call, and
    between the times of the reports. *)
Lemma call_measured agency l v ins2 st2 ins3 st3 r0 r1 r2 :
  chain agency l ins2 st2 ins3 st3 →
  dash_free agency → Forall dashless l →
  calls v l r0 r1 r2 →
  StopSpec.punctual (S := S2) (filter (has_key StopSpec.key_of v) ins2) →
  prompt (S2 := S3) (filter (of_vehicle v) ins3) →
  ∃ x, filter (λ y, dwell_vehicle y = Some v) (outputs DwellEventProcessor.handle ins3 st3) = [x] ∧
       measures x (gtfs_stop r1) v (gtfs_time r1) (gtfs_time r2).
Proof.
  intros C Hag Hl K Hpunctual Hprompt.
  pose proof (ca_reports _ _ _ _ _ K) as Hrep.
  assert (∀ r, r ∈ [r0; r1; r2] → identity r = v ∧ gtfs_stop r ≠ "" ∧ dashless r) as Hmine.
  { intros r. rewrite <- Hrep. intros [Hid Hin]%list_elem_of_filter. rewrite Forall_forall in Hl.
    split_and!; [done| |auto]. pose proof (ch_stopping _ _ _ _ _ _ C) as Hstop.
    rewrite Forall_forall in Hstop. auto. }
  destruct (Hmine r1 ltac:(rewrite !elem_of_cons; auto)) as (Hid1 & Hs1 & Hd1).
  destruct (Hmine r2 ltac:(rewrite !elem_of_cons; auto)) as (Hid2 & Hs2 & Hd2).
  destruct (ca_times _ _ _ _ _ K) as [Ht1 Ht2].
  pose proof (ca_span _ _ _ _ _ K). pose proof (ca_range _ _ _ _ _ K).
  assert (call_key agency v (gtfs_stop r1) r2 =
    visit_key (position_of agency r2) (StopSpec.stop_of (position_of agency r1))) as Hkey
    by (unfold call_key, visit_key; change (StopSpec.vehicle_of (position_of agency r2))
          with (identity r2); by rewrite Hid2).
  assert (Forall plain (outputs StopEventProcessor.handle ins2 st2)) as Hplain
    by (eapply reports_plain; try done; apply C).
  assert (prompt (S2 := S3)
    (filter (has_key DwellSpec.key_of (call_key agency v (gtfs_stop r1) r2)) ins3)) as Hprompt'.
  { eapply prompt_incl; [|exact Hprompt]. intros a [Hk Ha]%list_elem_of_filter.
    apply list_elem_of_filter. split; [|done]. eapply call_key_vehicle; [|..|exact Hk].
    - unfold dashless in Hd1, Hd2. rewrite !Forall_cons in Hd1, Hd2. rewrite !Forall_cons. tauto.
    - rewrite Forall_forall in Hplain. apply Hplain. rewrite <- (ch_stops _ _ _ _ _ _ C).
      by apply list_elem_of_fmap_2. }
  rewrite Hkey in Hprompt'.
  apply (visit_dwell v (position_of agency r0) (position_of agency r1) (position_of agency r2)
    ins2 st2 ins3 st3); try done.
  - split; try apply C; try done.
    + by rewrite (reported_snapshots agency v l), Hrep by (apply K || apply C).
  - change (StopSpec.moving (VehiclePositionEventProcessor.stop_status (gtfs_status r0))).
    unfold StopSpec.moving. destruct (ca_approach _ _ _ _ _ K) as [-> | ->]; [by left|by right].
  - change (VehiclePositionEventProcessor.stop_status (gtfs_status r1) = StopStatus_STOPPED_AT).
    by rewrite (ca_standing _ _ _ _ _ K).
  - change (VehiclePositionEventProcessor.stop_status (gtfs_status r2) = StopStatus_IN_TRANSIT_TO).
    by rewrite (ca_departs _ _ _ _ _ K).
  - split; [done|]. split; apply K.
  - apply position_seen; done || lia.
  - apply position_seen; done || lia.
  - lia.
Qed.
End journey.
