(* ===== verification/Trips.v ===== *)
(** * From reports to travel times and headways

    What all vehicles report, told as a list of arrivals and departures, is what the
    StopEventProcessor sends; the travel times of a trip and the headways at a stop
    are read off that list. *)
From S2P Require Import Prelude GoTime Gtfs Events StateStore Proc.
From S2P Require Import FeedEvents StopEvents Metrics HeadwayEvents TravelTimeEvents Transit Journey.

Import FeedPipeline VisitPipeline FeedSpec.

(** ** The arrivals and departures that reports tell of *)

Section story.
Context `{!ProtoLib} (agency : string).

(** A change that a report shows: the stop, and whether it is an arrival. *)
Abbreviation change := (VehiclePosition.t * (string * Z))%type.

(** A report after those [seen]: it is compared with the last one of its vehicle. *)
Definition told (seen : list VehiclePosition.t) (r : VehiclePosition.t) : list change :=
  if decide (identity r = "") then [] else
  match last (filter (λ p, identity p = identity r) seen) with
  | Some p => pair r <$> StopSpec.detect (position_of agency p) (position_of agency r)
  | None => []
  end.

Fixpoint story (seen l : list VehiclePosition.t) : list change :=
  match l with
  | [] => []
  | r :: l => told seen r ++ story (seen ++ [r]) l
  end.

(** The stop event for a change. *)
Definition announce (c : change) : any :=
  any_msg (msg_StopEvent
    (StopEventProcessor.makeStopEvent (Some (position_of agency c.1)) c.2.1 c.2.2)).

Lemma scan_story (seen l : list VehiclePosition.t) :
  StopSpec.scan (position_of agency <$> filter named seen) (position_of agency <$> filter named l) =
    announce <$> story seen l.
Proof.
  revert seen. induction l as [|r l IH]; intros seen; [done|]. cbn [story].
  specialize (IH (seen ++ [r])). rewrite filter_app, fmap_app in IH.
  unfold told. destruct (decide (named r)) as [Hn|Hn].
  - rewrite filter_cons_True by done. rewrite (filter_cons_True _ r) in IH by done.
    rewrite fmap_cons. cbn [StopSpec.scan]. rewrite fmap_app. rewrite <- IH. cbn.
    rewrite decide_False by done. unfold StopSpec.compare.
    change (StopSpec.vehicle_of (position_of agency r)) with (identity r).
    rewrite filter_named, fmap_last by done.
    destruct (last (filter _ seen)) as [p|]; cbn; [|done].
    rewrite <- list_fmap_compose. done.
  - rewrite filter_cons_False by done. rewrite (filter_cons_False _ r) in IH by done.
    rewrite decide_True by (by apply dec_stable). cbn in IH. rewrite app_nil_r in IH. apply IH.
Qed.

(** What the StopEventProcessor sends for reports is their story. *)
Lemma outputs_story `{!Platform} {S : Type} `{!StateStore S, !StateStoreOk S K_VehiclePositionEvent}
    l ins (st : S) t :
  reported agency l ins → timely t ins → store_inv st →
  Forall (λ a, StopSpec.acceptable (S := S) (what a)) ins →
  (∀ v, StopSpec.punctual (S := S) (filter (has_key StopSpec.key_of v) ins)) →
  (∀ v now, t ≤ now → live now v st = None) →
  outputs StopEventProcessor.handle ins st = announce <$> story [] l.
Proof.
  intros Hins Ht Hinv Hacc Hp Hlive. rewrite (StopSpec.outputs_scan t) by done.
  rewrite <- scan_story. unfold reported in Hins. by rewrite Hins.
Qed.
End story.

(** ** The events of a story *)

Section events.
Context `{!ProtoLib, !Platform} (agency : string).
Abbreviation change := (VehiclePosition.t * (string * Z))%type.

Definition told_event (c : change) : StopEvent.t :=
  default StopEvent.zero
    (StopEventProcessor.makeStopEvent (Some (position_of agency c.1)) c.2.1 c.2.2).

Definition gtfs_trip (r : VehiclePosition.t) : string :=
  TripDescriptor.GetTripId (VehiclePosition.GetTrip (Some r)).

(** The event for a change says what the report says. *)
Record announced (c : change) : Prop := {
  an_event : announce agency c = any_msg (msg_StopEvent (Some (told_event c)));
  an_vehicle : vehicle_of (told_event c) = identity c.1;
  an_stop : Metrics.stop_of (told_event c) = c.2.1;
  an_type : type_of (told_event c) = c.2.2;
  an_route : route_of (told_event c) = gtfs_route c.1;
  an_direction : direction_of (told_event c) = gtfs_direction c.1;
  an_trip : trip_of (told_event c) = gtfs_trip c.1;
  an_time : EventAttributes.GetTimestamp (attrs (told_event c)) =
    EventAttributes.GetTimestamp (at_ (position_of agency c.1));
}.

Lemma change_announced c : named c.1 → c.2.1 ≠ "" → announced c.
Proof.
  destruct c as [r [s ty]]. cbn [fst snd]. intros Hn Hs.
  assert (StopEventProcessor.makeStopEvent (Some (position_of agency r)) s ty =
    Some (told_event (r, (s, ty)))) as He.
  { unfold told_event. cbn [fst snd]. unfold StopEventProcessor.makeStopEvent.
    change (VehiclePositionEvent.GetAttributes (Some (position_of agency r)))
      with (VehiclePositionEvent.Attributes (position_of agency r)). cbn.
    rewrite decide_False; [done|]. by intros [|]. }
  assert (announce agency (r, (s, ty)) = any_msg (msg_StopEvent (Some (told_event (r, (s, ty))))))
    as Ha by (unfold announce; cbn [fst snd]; by rewrite He).
  split; [exact Ha|..]; cbn [fst snd]; revert He; generalize (told_event (r, (s, ty)));
    intros se He; unfold StopEventProcessor.makeStopEvent in He; case_decide; by simplify_eq.
Qed.

(** A story is of named vehicles, and of stops of reports. *)
Lemma told_changes seen r c :
  c ∈ told agency seen r → named r ∧ c.1 = r ∧ ∃ p, p ∈ seen ++ [r] ∧ c.2.1 = gtfs_stop p.
Proof.
  unfold told. case_decide as Hn; [by intros ?%not_elem_of_nil|].
  destruct (last _) as [p|] eqn:Hp; [|by intros ?%not_elem_of_nil].
  intros ([s ty] & -> & Hd)%list_elem_of_fmap. split_and!; [done|done|]. cbn.
  apply last_Some_elem_of, list_elem_of_filter in Hp as [_ Hp].
  apply detect_stops in Hd as [-> | ->]; [exists p|exists r]; rewrite elem_of_app; split;
    auto using list_elem_of_here.
Qed.

Lemma story_changes seen l c :
  c ∈ story agency seen l → named c.1 ∧ c.1 ∈ l ∧ ∃ p, p ∈ seen ++ l ∧ c.2.1 = gtfs_stop p.
Proof.
  revert seen. induction l as [|r l IH]; intros seen; [by intros ?%not_elem_of_nil|].
  cbn [story]. rewrite elem_of_app. intros [Hc|Hc].
  - destruct (told_changes _ _ _ Hc) as (Hn & -> & p & Hp & Hs). split_and!; [done|apply list_elem_of_here|].
    exists p. split; [|done]. rewrite !elem_of_app, !elem_of_cons, elem_of_nil in *. tauto.
  - destruct (IH _ Hc) as (Hn & Hin & p & Hp & Hs). split_and!; [done|by apply list_elem_of_further|].
    exists p. split; [|done]. by rewrite <- app_assoc in Hp.
Qed.

Lemma story_announced l : Forall (λ r, gtfs_stop r ≠ "") l → Forall announced (story agency [] l).
Proof.
  rewrite !Forall_forall. intros Hl c Hc. destruct (story_changes _ _ _ Hc) as (Hn & _ & p & Hp & Hs).
  apply change_announced; [done|]. rewrite Hs. by apply Hl.
Qed.

(** The elements of a key, where the key says what the changes are. *)
Lemma keyed_story key_of k (P : change → Prop) `{!∀ c, Decision (P c)} l ins :
  what <$> ins = announce agency <$> story agency [] l →
  Forall (λ c, key_of (announce agency c) = Some k ↔ P c) (story agency [] l) →
  what <$> filter (has_key key_of k) ins = announce agency <$> filter P (story agency [] l).
Proof.
  intros Hins HP. rewrite what_filter, Hins. clear Hins.
  induction HP as [|c cs Hc _ IH]; [done|]. rewrite fmap_cons.
  destruct (decide (P c)) as [Hp|Hp].
  - rewrite !filter_cons_True by tauto. by rewrite fmap_cons, IH.
  - by rewrite !filter_cons_False by tauto.
Qed.
End events.

(** ** Pairs of changes and pairs of events *)

Lemma adjacent_fmap {A B} (f : A → B) x l :
  adjacent (f x) (f <$> l) = (λ p, (f p.1, f p.2)) <$> adjacent x l.
Proof. revert x. induction l as [|y l IH]; intros x; [done|]. rewrite fmap_cons. cbn. by rewrite IH. Qed.

Section pairs.
Context {A B E : Type} (f : A → E) (g : B → E) (a : A) (l : list A) (b : B) (k : list B).
Hypothesis Hsame : f <$> a :: l = g <$> b :: k.

Lemma adjacent_same : (λ p, (f p.1, f p.2)) <$> adjacent a l = (λ p, (g p.1, g p.2)) <$> adjacent b k.
Proof. rewrite !fmap_cons in Hsame. injection Hsame as Ha Hl. by rewrite <- !adjacent_fmap, Ha, Hl. Qed.

Lemma adjacent_map {C} (h : E → E → C) :
  (λ p, h (f p.1) (f p.2)) <$> adjacent a l = (λ p, h (g p.1) (g p.2)) <$> adjacent b k.
Proof.
  etrans; [|etrans; [exact (f_equal (fmap (λ q, h q.1 q.2)) adjacent_same)|]].
  - apply (list_fmap_compose (λ p, (f p.1, f p.2)) (λ q, h q.1 q.2)).
  - symmetry. apply (list_fmap_compose (λ p, (g p.1, g p.2)) (λ q, h q.1 q.2)).
Qed.

Lemma adjacent_Forall (Q : E → E → Prop) :
  Forall (λ p, Q (g p.1) (g p.2)) (adjacent b k) → Forall (λ p, Q (f p.1) (f p.2)) (adjacent a l).
Proof.
  intros HQ. assert (Forall (λ q, Q q.1 q.2) ((λ p, (g p.1, g p.2)) <$> adjacent b k)) as H
    by (by apply Forall_fmap).
  rewrite <- adjacent_same in H. by apply Forall_fmap in H.
Qed.

Lemma list_Forall (Q : E → Prop) : Forall (λ y, Q (g y)) (b :: k) → Forall (λ x, Q (f x)) (a :: l).
Proof.
  intros HQ. assert (Forall Q (g <$> b :: k)) as H by (by apply Forall_fmap).
  rewrite <- Hsame in H. rewrite Forall_fmap in H. exact H.
Qed.
End pairs.

(** ** Measured from reports *)

Section measured.
Context `{!ProtoLib, !ProtoLibOk, !Platform}.
Context {S2 S3 : Type} `{!StateStore S2, !StateStore S3}.
Context `{!StateStoreOk S2 K_VehiclePositionEvent, !StateStoreOk S3 K_StopEvent}.
Context (agency : string) (rs : list VehiclePosition.t).
Context (ins2 : list arrival) (st2 : S2) (ins3 : list arrival) (st3 : S3).
Context (C : chain agency rs ins2 st2 ins3 st3).
Context (Hpunctual : ∀ v, StopSpec.punctual (S := S2) (filter (has_key StopSpec.key_of v) ins2)).

(** All that the reports tell. *)
Definition the_story : list (VehiclePosition.t * (string * Z)) := story agency [] rs.

Lemma the_story_announced : Forall (announced agency) the_story.
Proof. apply story_announced, C. Qed.

Lemma stops_announced : what <$> ins3 = announce agency <$> the_story.
Proof.
  rewrite (ch_stops _ _ _ _ _ _ C).
  by apply (outputs_story agency rs ins2 st2 0); try apply C.
Qed.

(** The report of a change has a time in range. *)
Definition in_time (c : VehiclePosition.t * (string * Z)) : Prop :=
  0 ≤ gtfs_time c.1 ∧ gtfs_time c.1 + unixToInternal < 2 ^ 63.

Lemma told_at_second c : c ∈ the_story → in_time c → at_second (gtfs_time c.1) (told_event agency c).
Proof.
  intros Hc [Hlo Hhi]. pose proof the_story_announced as Ha. rewrite Forall_forall in Ha.
  destruct (story_changes _ _ _ _ Hc) as (_ & Hin & _).
  pose proof (ch_stopping _ _ _ _ _ _ C) as Hstop. rewrite Forall_forall in Hstop.
  destruct (position_seen agency c.1 (gtfs_time c.1) (Hstop _ Hin) eq_refl Hlo Hhi) as [Ht Hr].
  split; [|exact Hr]. rewrite (an_time _ _ (Ha c Hc)). exact Ht.
Qed.

(** What the elements of a key are, once the key is known to be that of [cs]. *)
Lemma key_events key_of k (P : VehiclePosition.t * (string * Z) → Prop) `{!∀ c, Decision (P c)} d ds :
  Forall (λ c, key_of (announce agency c) = Some k ↔ P c) the_story →
  filter P the_story = d :: ds →
  ∃ a l, filter (has_key key_of k) ins3 = a :: l ∧ event_of <$> a :: l = told_event agency <$> d :: ds.
Proof.
  intros HP Hd. pose proof (keyed_story agency key_of k P _ _ stops_announced HP) as Hw.
  fold the_story in Hw. rewrite Hd in Hw.
  destruct (filter (has_key key_of k) ins3) as [|a l]; [done|]. exists a, l. split; [done|].
  assert (Forall (λ c, c ∈ the_story) (d :: ds)) as Hin.
  { apply Forall_forall. intros c Hc. rewrite <- Hd in Hc. by apply list_elem_of_filter in Hc as [_ ?]. }
  pose proof (f_equal (fmap (default StopEvent.zero ∘ stop_event)) Hw) as He.
  rewrite <- !list_fmap_compose in He. etrans; [exact He|]. apply fmap_Forall_ext.
  eapply Forall_impl; [exact Hin|]. intros c Hc. pose proof the_story_announced as Ha.
  rewrite Forall_forall in Ha.
  change (default StopEvent.zero (stop_event (announce agency c)) = told_event agency c).
  by rewrite (an_event _ _ (Ha c Hc)).
Qed.

(** None of the elements of a key is handled after the one before has expired. *)
Definition lasting (key_of : any → option string) (k : string) : Prop :=
  match filter (has_key key_of k) ins3 with
  | [] => True
  | a :: l => Forall (λ p, ¬ expired (S := S3) p.1 p.2) (adjacent a l)
  end.

(** The reports of consecutive changes are each later than the one before, by
    less than 2^31 seconds. *)
Definition increasing (d : VehiclePosition.t * (string * Z)) ds : Prop :=
  Forall in_time (d :: ds) ∧
  Forall (λ p, gtfs_time p.1.1 < gtfs_time p.2.1 < gtfs_time p.1.1 + 2 ^ 31) (adjacent d ds).

(** The elements of a key, with their times. *)
Lemma key_times key_of k (P : VehiclePosition.t * (string * Z) → Prop) `{!∀ c, Decision (P c)} d ds :
  Forall (λ c, key_of (announce agency c) = Some k ↔ P c) the_story →
  filter P the_story = d :: ds → increasing d ds →
  Forall (λ c, at_second (gtfs_time c.1) (told_event agency c)) (d :: ds) ∧
  ∃ a l, filter (has_key key_of k) ins3 = a :: l ∧
    event_of <$> a :: l = told_event agency <$> d :: ds ∧
    Forall whole (a :: l) ∧ Forall (λ p, later p.1 p.2) (adjacent a l).
Proof.
  intros HP Hd [Hin Hinc].
  destruct (key_events key_of k P d ds HP Hd) as (a & l & Hf & He).
  assert (Forall (λ c, at_second (gtfs_time c.1) (told_event agency c)) (d :: ds)) as Hsec.
  { rewrite Forall_forall in Hin |- *. intros c Hc. apply told_at_second; [|by apply Hin].
    rewrite <- Hd in Hc. by apply list_elem_of_filter in Hc as [_ ?]. }
  split; [done|]. exists a, l. do 2 (split; [done|]).
  set (sec e := Timestamp.GetSeconds (EventAttributes.GetTimestamp (attrs e))).
  assert (∀ c, at_second (gtfs_time c.1) (told_event agency c) →
    sec (told_event agency c) = gtfs_time c.1) as Hsec'
    by (intros c (Ht & _); unfold sec; by rewrite Ht).
  split.
  - apply (list_Forall event_of (told_event agency) a l d ds He (λ e, at_second (sec e) e)).
    eapply Forall_impl; [exact Hsec|]. intros c Hc. by rewrite Hsec'.
  - apply (adjacent_Forall event_of (told_event agency) a l d ds He
      (λ e1 e2, sec e1 < sec e2 < sec e1 + 2 ^ 31)).
    apply Forall_adjacent in Hsec. eapply Forall_impl; [apply Forall_and, (conj Hsec Hinc)|].
    intros [x y] [[Hx Hy] Hxy]. cbn in *. by rewrite !Hsec'.
Qed.

(** What holds of the changes of a sequence holds of the pairs of them. *)
Lemma pairs_announced (P : VehiclePosition.t * (string * Z) → Prop) `{!∀ c, Decision (P c)} d ds :
  filter P the_story = d :: ds →
  Forall (λ c, announced agency c ∧ P c ∧ c ∈ the_story) (d :: ds).
Proof.
  intros Hd. rewrite <- Hd. apply Forall_forall. intros c [Hp Hc]%list_elem_of_filter.
  pose proof the_story_announced as Ha. rewrite Forall_forall in Ha. auto.
Qed.

(** Consecutive changes are measured by the times of their reports. *)
Lemma adjacent_pairs (P : VehiclePosition.t * (string * Z) → Prop) d ds :
  Forall (λ c, announced agency c ∧ P c ∧ c ∈ the_story) (d :: ds) →
  Forall (λ c, at_second (gtfs_time c.1) (told_event agency c)) (d :: ds) → increasing d ds →
  Forall (λ p, announced agency p.1 ∧ announced agency p.2 ∧
    seconds_between (told_event agency p.1) (told_event agency p.2) = gtfs_time p.2.1 - gtfs_time p.1.1)
    (adjacent d ds).
Proof.
  intros Han%Forall_adjacent Hsec%Forall_adjacent [_ Hinc].
  eapply Forall_impl; [apply Forall_and, (conj Han), Forall_and, (conj Hsec Hinc)|].
  intros p ([(Hx & _) (Hy & _)] & [Hsx Hsy] & Hlt). split_and!; [done..|].
  apply seconds_between_whole; [done..|]. unfold in_int32. lia.
Qed.

(** What a processor that measures each event of a key from the one before sends
    for a story: [mk] of each pair of the changes [P] that the key stands for. *)
Lemma measured_key handle (key_of : any → option string) k P (Q : any → Prop)
    (mk : StopEvent.t → StopEvent.t → any) (differ : StopEvent.t → StopEvent.t → Prop)
    `{!∀ c, Decision (P c), !∀ y, Decision (Q y)} d ds :
  (∀ x clk n (st : S3) y, y ∈ (exec clk n (handle x) st).2 → Q y → key_of x = Some k) →
  (∀ a l, filter (has_key key_of k) ins3 = a :: l → Forall whole (a :: l) →
    Forall (λ p, later p.1 p.2) (adjacent a l) →
    Forall (λ p, ¬ expired (S := S3) p.1 p.2 ∧ differ (event_of p.1) (event_of p.2)) (adjacent a l) →
    concat (sent_for key_of k ins3 (run handle ins3 st3).2) =
      (λ p, mk (event_of p.1) (event_of p.2)) <$> adjacent a l) →
  Forall (λ c, key_of (announce agency c) = Some k ↔ P c) the_story →
  filter P the_story = d :: ds → increasing d ds → lasting key_of k →
  Forall (λ p, differ (told_event agency p.1) (told_event agency p.2)) (adjacent d ds) →
  Forall (λ p, Q (mk (told_event agency p.1) (told_event agency p.2))) (adjacent d ds) →
  filter Q (outputs handle ins3 st3) =
    (λ p, mk (told_event agency p.1) (told_event agency p.2)) <$> adjacent d ds.
Proof.
  intros Hsend Hrun HP Hd Hinc Hlast Hdiff HQ.
  destruct (key_times _ _ _ _ _ HP Hd Hinc) as (_ & a & l & Hf & Hsame & Hw & Hlat).
  unfold lasting in Hlast. rewrite Hf in Hlast.
  rewrite (filter_outputs _ key_of _ k) by (intros b s y _ Hy _ HQy; exact (Hsend _ _ _ _ _ Hy HQy)).
  rewrite (Hrun a l) by (done || (apply Forall_and; split; [done|];
    by apply (adjacent_Forall event_of (told_event agency) a l d ds Hsame differ))).
  rewrite (adjacent_map event_of (told_event agency) a l d ds Hsame mk).
  apply filter_all, Forall_fmap. exact HQ.
Qed.

(** *** Headways *)

(** Neither the route nor the direction of a report holds a dash. *)
Definition dashless_line (r : VehiclePosition.t) : Prop :=
  dash_free (gtfs_route r) ∧ dash_free (gtfs_direction r).

(** The vehicle of a change is among those of the feeds. *)
Lemma story_line c :
  Forall dashless_line rs → c ∈ the_story → dashless_line c.1.
Proof.
  rewrite Forall_forall. intros Hl Hc. destruct (story_changes _ _ _ _ Hc) as (_ & Hin & _). auto.
Qed.

(** A departure from the stop [s] on a route and in a direction. *)
Definition departs (s R D : string) (c : VehiclePosition.t * (string * Z)) : Prop :=
  c.2 = (s, StopEvent_DEPARTURE) ∧ gtfs_route c.1 = R ∧ gtfs_direction c.1 = D.
#[export] Instance departs_dec s R D c : Decision (departs s R D c).
Proof. unfold departs. apply _. Defined.

(** The stop, route and direction of a headway. *)
Definition headway_place (y : any) : option (string * string * string) :=
  match y with
  | any_msg (msg_HeadwayTimeEvent (Some h)) =>
      let a := HeadwayTimeEvent.GetAttributes (Some h) in
      Some (EventAttributes.GetStopId a, EventAttributes.GetRouteId a, EventAttributes.GetDirectionId a)
  | _ => None
  end.

(** A headway is sent for a departure at its place. *)
Lemma headway_sender {S : Type} `{!StateStore S} x clk i (s : S) y place :
  y ∈ (exec clk i (HeadwayEventProcessor.handle x) s).2 → headway_place y = Some place →
  ∃ e, x = any_msg (msg_StopEvent (Some e)) ∧ is_departure e ∧
    place = (Metrics.stop_of e, route_of e, direction_of e).
Proof.
  destruct x as [| |[| | |[e|]| | |]|]; try by intros ?%not_elem_of_nil.
  intros Hy Hp. exists e. split; [done|]. destruct (decide (is_departure e)) as [Hd|Hd].
  - split; [done|]. destruct (HeadwaySpec.process_departure e Hd) as (c & Hc & Ha).
    cbn [HeadwayEventProcessor.handle] in Hy. rewrite Hc in Hy. cbn [exec] in Hy.
    destruct (Get _ _ _ s) as [m f]. rewrite Ha in Hy. unfold HeadwaySpec.answer in Hy.
    destruct (if f then _ else _) as [prev|]; [case_decide|]; cbn in Hy;
      try destruct (Set_ _ _ _ _ s); try (by apply not_elem_of_nil in Hy).
    apply list_elem_of_singleton in Hy as ->. by injection Hp as <-.
  - exfalso. cbn in Hy. change (StopEvent.GetStopEventType (Some e)) with (type_of e) in Hy.
    revert Hy. solve_decides. by intros ?%not_elem_of_nil.
Qed.

Definition headway_key_for (s R D : string) : string :=
  HeadwayEventProcessor.key_String (HeadwayEventProcessor.mkKey R s D).

Lemma headway_key_told c :
  announced agency c →
  HeadwaySpec.headway_key (told_event agency c) = headway_key_for c.2.1 (gtfs_route c.1) (gtfs_direction c.1).
Proof.
  intros [_ _ Hs _ HR HD _ _]. unfold headway_key_for. by rewrite <- Hs, <- HR, <- HD.
Qed.

Lemma departures_key s R D :
  Forall dashless_line rs →
  dash_free R → dash_free D →
  Forall (λ c, HeadwaySpec.key_of (announce agency c) = Some (headway_key_for s R D) ↔ departs s R D c)
    the_story.
Proof.
  intros Hl HR HD. apply Forall_forall. intros c Hc. pose proof the_story_announced as Ha.
  rewrite Forall_forall in Ha. specialize (Ha c Hc).
  destruct (story_line c Hl Hc) as [HRc HDc].
  rewrite (an_event _ _ Ha).
  change (HeadwaySpec.key_of _) with
    (if decide (is_departure (told_event agency c))
     then Some (HeadwaySpec.headway_key (told_event agency c)) else None).
  rewrite headway_key_told by done. pose proof (an_type _ _ Ha) as Hty. unfold departs.
  destruct c as [r [s' ty]]. cbn [fst snd] in *. rewrite Hty. split.
  - intros Hk. case_decide; [|done]. injection Hk as Hk.
    unfold headway_key_for, HeadwayEventProcessor.key_String in Hk. cbn in Hk. clear Hty. subst ty.
    dash_split Hk. by subst.
  - intros ([= -> ->] & -> & ->). by rewrite decide_True.
Qed.

(** The headways at a place, from each departure to the next, as the reports tell
    them. *)
Lemma headways_measured s R D d ds :
  Forall dashless_line rs →
  filter (departs s R D) the_story = d :: ds → increasing d ds →
  Forall (λ p, identity p.1.1 ≠ identity p.2.1) (adjacent d ds) →
  lasting HeadwaySpec.key_of (headway_key_for s R D) →
  ∃ hs,
    filter (λ y, headway_place y = Some (s, R, D)) (outputs HeadwayEventProcessor.handle ins3 st3)
      = (λ h, any_msg (msg_HeadwayTimeEvent (Some h))) <$> hs ∧
    (λ h, (HeadwayTimeEvent.LeadingVehicleId h, HeadwayTimeEvent.FollowingVehicleId h,
           HeadwayTimeEvent.HeadwaySeconds h)) <$> hs
      = (λ p, (identity p.1.1, identity p.2.1, gtfs_time p.2.1 - gtfs_time p.1.1)) <$> adjacent d ds.
Proof.
  intros Hl Hd Hinc Hveh Hlast. pose proof (pairs_announced _ _ _ Hd) as Han.
  assert (dash_free R ∧ dash_free D) as [HR HD].
  { destruct (proj1 (Forall_cons _ _ _) Han) as [(_ & (_ & <- & <-) & Hin) _].
    by apply story_line. }
  pose proof (departures_key s R D Hl HR HD) as Hkey.
  destruct (key_times _ _ _ _ _ Hkey Hd Hinc) as (Hsec & _).
  pose proof (adjacent_pairs (departs s R D) d ds Han Hsec Hinc) as Hpairs.
  exists ((λ p, HeadwaySpec.headway (told_event agency p.1) (told_event agency p.2)) <$> adjacent d ds).
  rewrite <- !list_fmap_compose. split.
  - apply (measured_key HeadwayEventProcessor.handle HeadwaySpec.key_of (headway_key_for s R D)
      (departs s R D) _ (λ e1 e2, any_msg (msg_HeadwayTimeEvent (Some (HeadwaySpec.headway e1 e2))))
      (λ e1 e2, vehicle_of e1 ≠ vehicle_of e2)); try done.
    + intros x clk n st y Hy Hp. destruct (headway_sender _ _ _ _ _ _ Hy Hp) as (e & -> & Hdep & Hpl).
      unfold HeadwaySpec.key_of. cbn. rewrite decide_True by done. by injection Hpl as -> -> ->.
    + intros a l Hf Hw Hlat Hdiff. apply (HeadwaySpec.headway_adjacent _ 0); done || apply C.
    + eapply Forall_impl; [apply Forall_and, (conj Hpairs Hveh)|].
      intros p [(Hx & Hy & _) Hp]. by rewrite (an_vehicle _ _ Hx), (an_vehicle _ _ Hy).
    + eapply Forall_impl; [apply Forall_adjacent, Han|].
      intros p [_ (Hy & (HP & HR' & HD') & _)].
      change (Some (Metrics.stop_of (told_event agency p.2), route_of (told_event agency p.2),
        direction_of (told_event agency p.2)) = Some (s, R, D)).
      by rewrite (an_stop _ _ Hy), (an_route _ _ Hy), (an_direction _ _ Hy), HP, HR', HD'.
  - apply fmap_Forall_ext. eapply Forall_impl; [exact Hpairs|]. intros p (Hx & Hy & Hs).
    change ((vehicle_of (told_event agency p.1), vehicle_of (told_event agency p.2),
      seconds_between (told_event agency p.1) (told_event agency p.2)) =
      (identity p.1.1, identity p.2.1, gtfs_time p.2.1 - gtfs_time p.1.1)).
    by rewrite (an_vehicle _ _ Hx), (an_vehicle _ _ Hy), Hs.
Qed.

(** *** Travel times *)

(** An arrival of the vehicle [v] on a trip of a route, in a direction. *)
Definition arrives (R D v T : string) (c : VehiclePosition.t * (string * Z)) : Prop :=
  c.2.2 = StopEvent_ARRIVAL ∧ gtfs_route c.1 = R ∧ gtfs_direction c.1 = D ∧
  identity c.1 = v ∧ gtfs_trip c.1 = T.
#[export] Instance arrives_dec R D v T c : Decision (arrives R D v T c).
Proof. unfold arrives. apply _. Defined.

(** The route, direction, vehicle and trip of a travel time. *)
Definition travel_trip (y : any) : option (string * string * string * string) :=
  match y with
  | any_msg (msg_TravelTimeEvent (Some x)) =>
      let a := TravelTimeEvent.GetAttributes (Some x) in
      Some (EventAttributes.GetRouteId a, EventAttributes.GetDirectionId a,
            EventAttributes.GetVehicleId a, EventAttributes.GetTripId a)
  | _ => None
  end.

(** A travel time is sent for an arrival of its trip. *)
Lemma travel_sender {S : Type} `{!StateStore S} x clk i (s : S) y trip :
  y ∈ (exec clk i (TravelTimeEventProcessor.handle x) s).2 → travel_trip y = Some trip →
  ∃ e, x = any_msg (msg_StopEvent (Some e)) ∧ is_arrival e ∧
    trip = (route_of e, direction_of e, vehicle_of e, trip_of e).
Proof.
  destruct x as [| |[| | |[e|]| | |]|]; try by intros ?%not_elem_of_nil.
  intros Hy Hp. exists e. split; [done|]. destruct (decide (is_arrival e)) as [Hd|Hd].
  - split; [done|]. destruct (TravelSpec.process_arrival e Hd) as (c & Hc & Ha).
    cbn [TravelTimeEventProcessor.handle] in Hy. rewrite Hc in Hy. cbn [exec] in Hy.
    destruct (Get _ _ _ s) as [m f]. rewrite Ha in Hy.
    unfold TravelSpec.answer, TravelSpec.travel_judge in Hy.
    destruct (if f then _ else _) as [prev|]; [case_decide; [|case_decide]|]; cbn in Hy;
      try destruct (Set_ _ _ _ _ s); try (by apply not_elem_of_nil in Hy).
    apply list_elem_of_singleton in Hy as ->. by injection Hp as <-.
  - exfalso. cbn in Hy. change (StopEvent.GetStopEventType (Some e)) with (type_of e) in Hy.
    revert Hy. solve_decides. by intros ?%not_elem_of_nil.
Qed.

Definition trip_key_for (R D v T : string) : string :=
  TravelTimeEventProcessor.key_String (TravelTimeEventProcessor.mkKey R D v T).

Lemma trip_key_told c :
  announced agency c →
  TravelSpec.trip_key (told_event agency c) =
    trip_key_for (gtfs_route c.1) (gtfs_direction c.1) (identity c.1) (gtfs_trip c.1).
Proof.
  intros [_ Hv _ _ HR HD HT _]. unfold trip_key_for. by rewrite <- Hv, <- HR, <- HD, <- HT.
Qed.

(** Neither does its vehicle. *)
Definition dashless_trip (r : VehiclePosition.t) : Prop := dashless_line r ∧ dash_free (identity r).

Lemma arrivals_key R D v T :
  Forall dashless_trip rs → dash_free R → dash_free D → dash_free v →
  Forall (λ c, TravelSpec.key_of (announce agency c) = Some (trip_key_for R D v T) ↔ arrives R D v T c)
    the_story.
Proof.
  intros Hl HR HD Hv. apply Forall_forall. intros c Hc. pose proof the_story_announced as Ha.
  rewrite Forall_forall in Ha. specialize (Ha c Hc). rewrite Forall_forall in Hl.
  destruct (story_changes _ _ _ _ Hc) as (_ & Hin & _).
  destruct (Hl _ Hin) as [[HRc HDc] Hvc].
  rewrite (an_event _ _ Ha).
  change (TravelSpec.key_of _) with
    (if decide (is_arrival (told_event agency c))
     then Some (TravelSpec.trip_key (told_event agency c)) else None).
  rewrite trip_key_told by done. pose proof (an_type _ _ Ha) as Hty. unfold arrives.
  rewrite <- Hty. clear Hty. case_decide as Hd; [|split; [done|tauto]]. split.
  - intros [= Hk]. unfold trip_key_for, TravelTimeEventProcessor.key_String in Hk. cbn in Hk.
    by dash_split Hk.
  - by intros (_ & -> & -> & -> & ->).
Qed.

(** The travel times of a trip, from each arrival to the next, as the reports tell
    them. *)
Lemma travel_measured R D v T d ds :
  Forall dashless_trip rs →
  filter (arrives R D v T) the_story = d :: ds → increasing d ds →
  Forall (λ p, p.1.2.1 ≠ p.2.2.1) (adjacent d ds) →
  lasting TravelSpec.key_of (trip_key_for R D v T) →
  ∃ xs,
    filter (λ y, travel_trip y = Some (R, D, v, T)) (outputs TravelTimeEventProcessor.handle ins3 st3)
      = (λ x, any_msg (msg_TravelTimeEvent (Some x))) <$> xs ∧
    (λ x, (EventAttributes.GetOriginStopId (TravelTimeEvent.GetAttributes (Some x)),
           EventAttributes.GetDestinationStopId (TravelTimeEvent.GetAttributes (Some x)),
           TravelTimeEvent.TravelTimeSeconds x)) <$> xs
      = (λ p, (p.1.2.1, p.2.2.1, gtfs_time p.2.1 - gtfs_time p.1.1)) <$> adjacent d ds.
Proof.
  intros Hl Hd Hinc Hstops Hlast. pose proof (pairs_announced _ _ _ Hd) as Han.
  assert (dash_free R ∧ dash_free D ∧ dash_free v) as (HR & HD & Hv).
  { destruct (proj1 (Forall_cons _ _ _) Han) as [(_ & (_ & <- & <- & <- & _) & Hin) _].
    destruct (story_changes _ _ _ _ Hin) as (_ & Hr & _). rewrite Forall_forall in Hl.
    destruct (Hl _ Hr) as [[? ?] ?]. done. }
  pose proof (arrivals_key R D v T Hl HR HD Hv) as Hkey.
  destruct (key_times _ _ _ _ _ Hkey Hd Hinc) as (Hsec & _).
  pose proof (adjacent_pairs (arrives R D v T) d ds Han Hsec Hinc) as Hpairs.
  exists ((λ p, TravelSpec.travel (told_event agency p.1) (told_event agency p.2)) <$> adjacent d ds).
  rewrite <- !list_fmap_compose. split.
  - apply (measured_key TravelTimeEventProcessor.handle TravelSpec.key_of (trip_key_for R D v T)
      (arrives R D v T) _ (λ e1 e2, any_msg (msg_TravelTimeEvent (Some (TravelSpec.travel e1 e2))))
      (λ e1 e2, Metrics.stop_of e1 ≠ Metrics.stop_of e2)); try done.
    + intros x clk n st y Hy Hp. destruct (travel_sender _ _ _ _ _ _ Hy Hp) as (e & -> & Har & Htr).
      unfold TravelSpec.key_of. cbn. rewrite decide_True by done. by injection Htr as -> -> -> ->.
    + intros a l Hf Hw Hlat Hdiff. apply (TravelSpec.travel_adjacent _ 0); done || apply C.
    + eapply Forall_impl; [apply Forall_and, (conj Hpairs Hstops)|].
      intros p [(Hx & Hy & _) Hp]. by rewrite (an_stop _ _ Hx), (an_stop _ _ Hy).
    + eapply Forall_impl; [apply Forall_adjacent, Han|].
      intros p [_ (Hy & (_ & HR' & HD' & Hv' & HT') & _)].
      change (Some (route_of (told_event agency p.2), direction_of (told_event agency p.2),
        vehicle_of (told_event agency p.2), trip_of (told_event agency p.2)) = Some (R, D, v, T)).
      by rewrite (an_route _ _ Hy), (an_direction _ _ Hy), (an_vehicle _ _ Hy), (an_trip _ _ Hy),
        HR', HD', Hv', HT'.
  - apply fmap_Forall_ext. eapply Forall_impl; [exact Hpairs|]. intros p (Hx & Hy & Hs).
    change ((Metrics.stop_of (told_event agency p.1), Metrics.stop_of (told_event agency p.2),
      seconds_between (told_event agency p.1) (told_event agency p.2)) =
      (p.1.2.1, p.2.2.1, gtfs_time p.2.1 - gtfs_time p.1.1)).
    by rewrite (an_stop _ _ Hx), (an_stop _ _ Hy), Hs.
Qed.
End measured.
