(* ===== verification/Endpoints.v ===== *)
(** * Sources and sinks at the edge of the process

    The polling HTTP source ([sources/http_source.go]), the Redis source and
    sink ([sources/redis_source.go], [sinks/redis_sink.go]) and the console sink
    ([sinks/log_sink.go]).  The HTTP client and the Redis client are parameters:
    what they answer is an input, what they are asked to do is the output. *)
From S2P Require Import Prelude GoTime ParseDuration Events EventMap StateStore Proc Config.
From S2P Require Import StopEvents DwellEvents HeadwayEvents TravelTimeEvents FeedEvents.

(** ** HTTP polling *)

Module HTTPSource.

(** What [client.Get(url)] and [io.ReadAll(resp.Body)] give on one tick. *)
Inductive response :=
| request_failed
| Response (StatusCode : Z) (body : list Byte.byte + error).

(** One tick of [init]: what is sent on [s.out]. *)
Definition poll (r : response) : list any :=
  match r with
  | request_failed => []
  | Response code body =>
      if decide (code < 200 ∨ 300 ≤ code) then []
      else match body with
           | inr _ => []
           | inl body => [any_bytes body]
           end
  end.

Record t := mk { cfg : HTTPSourceConfig.t; interval : Z }.

(** The text of [time.ParseDuration]'s error, which says what is wrong with the
    string, is left out. *)
Definition NewHTTPSource (cfg : HTTPSourceConfig.t) : t + go_error :=
  match ParseDuration.parse (HTTPSourceConfig.Interval cfg) with
  | ParseDuration.Err =>
      inr (Wrapf "invalid polling interval %q: %w" [HTTPSourceConfig.Interval cfg]
             (library_error "time: invalid duration"))
  | ParseDuration.Ok d => inl (mk cfg d)
  end.

(** What [init] sends for the responses of its ticks; [None] when
    [time.NewTicker] panics, which it does on an interval that is not positive. *)
Definition init (s : t) (rs : list response) : option (list any) :=
  if decide (interval s ≤ 0) then None else Some (concat (poll <$> rs)).
End HTTPSource.

(** ** Redis pub/sub *)

Module RedisLink.

(** A sink publishes on a channel through a client of its own. *)
Record RedisSink := mkSink { client : redis_Options; channel : string }.

Definition NewRedisSink (cfg : RedisConfig.t) : RedisSink :=
  mkSink (Options (RedisConfig.Addr cfg) (RedisConfig.Password cfg) (RedisConfig.DB cfg))
    (RedisConfig.Channel cfg).

(** A source has a subscription to a channel. *)
Record RedisSource := mkSource { source_client : redis_Options; pubsub : string }.

Definition NewRedisSource (cfg : RedisConfig.t) : RedisSource :=
  mkSource (Options (RedisConfig.Addr cfg) (RedisConfig.Password cfg) (RedisConfig.DB cfg))
    (RedisConfig.Channel cfg).

(** A source hears a sink: the same server, and the same channel.  The channels of a
    server are shared by its databases. *)
Definition linked (k : RedisSink) (s : RedisSource) : Prop :=
  Addr (client k) = Addr (source_client s) ∧ channel k = pubsub s.

Section link.
Context `{!ProtoLib}.

(** [RedisSink.doSink] for one element: the payload published, if any. *)
Definition doSink (msg : any) : option (list Byte.byte) :=
  match msg with
  | any_msg protoMsg =>
      match Marshal (Some protoMsg) with
      | inr _ => None
      | inl b => Some b
      end
  | _ => None
  end.

(** [RedisSource.init] for one message received: what is sent on [s.out]. *)
Definition init (payload : list Byte.byte) : any := any_bytes payload.
End link.
End RedisLink.

(** ** Console *)

Module LogSink.

Inductive Level := LevelInfo | LevelWarn | LevelError.

Record t := mk { level : Level }.

(** The switch of [NewLogSink]. *)
Definition NewLogSink (cfg_Level : string) : t :=
  let level :=
    if decide (cfg_Level ≠ "") then
      if decide (cfg_Level = "info") then LevelInfo
      else if decide (cfg_Level = "warn") then LevelWarn
      else if decide (cfg_Level = "error") then LevelError
      else LevelInfo
    else LevelInfo in
  mk level.

(** A logged line; the order of the attributes is that of a map. *)
Record line := mkLine { line_level : Level; text : string; args : gmap string (value + any) }.

(** One element of [doSink]: what is logged for it.  Fields that print as the
    empty string are left out. *)
Definition log_line `{!ProtoLib} (s : t) (msg : any) : line :=
  match as_Event msg with
  | None => mkLine LevelWarn "log sink: invalid event type" {["event" := inr msg]}
  | Some event =>
      mkLine (level s) ("Event: " +:+ type_name event)
        (inl <$> filter (λ kv, Sprintf_v kv.2 ≠ "") (GetEventMap event))
  end.
End LogSink.

Module EndpointSpec.

(** ** Polling *)

Definition good_body (r : HTTPSource.response) : option (list Byte.byte) :=
  match r with
  | HTTPSource.Response code (inl b) => if decide (200 ≤ code < 300) then Some b else None
  | _ => None
  end.

(** A source polls on without failing: of the answers to its requests it
    sends the bodies of the successful ones, in order, and nothing for failed
    requests, other statuses and bodies that cannot be read; this needs a
    positive interval. *)
Theorem polling_sends_bodies c s rs :
  HTTPSource.NewHTTPSource c = inl s → 0 < HTTPSource.interval s →
  ParseDuration.parse (HTTPSourceConfig.Interval c) = ParseDuration.Ok (HTTPSource.interval s) ∧
  HTTPSource.init s rs = Some (any_bytes <$> omap good_body rs).
Proof.
  unfold HTTPSource.NewHTTPSource. destruct (ParseDuration.parse _) as [d|]; [|done].
  intros [= <-] Hd. cbn [HTTPSource.interval] in Hd. split; [done|].
  unfold HTTPSource.init. rewrite decide_False by (cbn; lia). f_equal.
  induction rs as [|r rs IH]; [done|]. rewrite omap_cons_eq, fmap_cons. cbn [concat]. rewrite IH.
  destruct r as [|code [b|e]]; cbn [good_body HTTPSource.poll]; [done| |by case_decide].
  destruct (decide (200 ≤ code < 300)); [by rewrite decide_False by lia|by rewrite decide_True by lia].
Qed.

(** [Validate] accepts polling intervals that make the source panic: "0s",
    and negative ones. *)
Theorem zero_interval_panics : ∃ g src s,
  Validate g = None ∧ lookup_map (GraphConfig.Sources g) "feed" = Some src ∧
  HTTPSource.NewHTTPSource (SourceConfig.HTTP src) = inl s ∧
  HTTPSource.init s [] = None.
Proof.
  set (src := SourceConfig.mk "feed" "http" (HTTPSourceConfig.mk "http://x" "0s")
    (BucketConfig.mk "" "") "" (RedisConfig.mk "" "" 0 "") "").
  exists (GraphConfig.mk (Some {["feed" := src]}) None None None None), src, (HTTPSource.mk (HTTPSourceConfig.mk "http://x" "0s") 0).
  split_and!; by vm_compute.
Qed.

(** ** Over Redis *)

Section redis.
Context `{!ProtoLib, !Platform} {S : Type} `{!StateStore S}.

(** The elements of a run as they arrive over Redis. *)
Definition over_redis (a : arrival) : option arrival :=
  b ← RedisLink.doSink (what a); Some (Arrival (clock a) (RedisLink.init b)).

(** A position that survives the wire format. *)
Definition encodes (x : any) : Prop :=
  ∃ e b, x = any_msg (msg_VehiclePositionEvent (Some e)) ∧
    Marshal (Some (msg_VehiclePositionEvent (Some e))) = inl b ∧
    Unmarshal b (zero_of K_VehiclePositionEvent) = inl (msg_VehiclePositionEvent (Some e)).

(** Splitting the pipeline at the vehicle positions does not change it: the
    StopEventProcessor sends the same for positions that come over a Redis sink
    and source as for the positions themselves. *)
Theorem positions_over_redis ins (st : S) :
  Forall (λ a, encodes (what a)) ins →
  run StopEventProcessor.handle (omap over_redis ins) st = run StopEventProcessor.handle ins st.
Proof.
  intros Hins. revert st. induction Hins as [|a ins (e & b & Ha & Hm & Hu) Hins IH]; intros st; [done|].
  rewrite omap_cons_eq. unfold over_redis at 1, RedisLink.doSink. rewrite Ha, Hm.
  cbn [mbind option_bind run clock what RedisLink.init]. rewrite Ha.
  assert (StopEventProcessor.handle (RedisLink.init b)
    = StopEventProcessor.handle (any_msg (msg_VehiclePositionEvent (Some e)))) as ->
    by (unfold RedisLink.init; cbn [StopEventProcessor.handle]; by rewrite Hu).
  destruct (exec (clock a) 0 _ st) as [s1 xs]. by rewrite IH.
Qed.

(** No other stage can be moved behind a Redis source: whatever arrives as
    bytes is dropped by the processors of vehicle positions' feeds and of stop
    events. *)
Theorem bytes_dropped b clk i (st : S) handle :
  handle ∈ [VehiclePositionEventProcessor.handle; DwellEventProcessor.handle;
    HeadwayEventProcessor.handle; TravelTimeEventProcessor.handle] →
  exec clk i (handle (RedisLink.init b)) st = (st, []).
Proof.
  rewrite !elem_of_cons, elem_of_nil. intros Hh. by destruct_or! Hh; subst.
Qed.
End redis.

(** ** Console *)

(** The console sink does not know all the levels the configuration names:
    "warning", "debug" and "fatal" are logged as information. *)
Theorem console_levels :
  LogSink.level (LogSink.NewLogSink ConsoleSinkLevelWarning) = LogSink.LevelInfo ∧
  LogSink.level (LogSink.NewLogSink ConsoleSinkLevelDebug) = LogSink.LevelInfo ∧
  LogSink.level (LogSink.NewLogSink ConsoleSinkLevelFatal) = LogSink.LevelInfo ∧
  LogSink.level (LogSink.NewLogSink ConsoleSinkLevelInfo) = LogSink.LevelInfo ∧
  LogSink.level (LogSink.NewLogSink ConsoleSinkLevelError) = LogSink.LevelError ∧
  ∀ l, LogSink.level (LogSink.NewLogSink l) = LogSink.LevelWarn ↔ l = "warn".
Proof.
  split_and!; [done..|]. intros l. unfold LogSink.NewLogSink. cbn.
  destruct (decide (l = "warn")) as [->|]; [done|]. split_cases.
Qed.

(** *** Concrete runs *)

Section witnesses.
Local Existing Instance amd64.
Import InMemory.

Definition sample_source : HTTPSourceConfig.t := HTTPSourceConfig.mk "http://x" "1s".

Lemma polling_sends_bodies_witness : ∃ s,
  HTTPSource.NewHTTPSource sample_source = inl s ∧
  HTTPSource.init s [HTTPSource.Response 200 (inl []); HTTPSource.Response 304 (inl []);
    HTTPSource.request_failed] = Some [any_bytes []].
Proof.
  exists (HTTPSource.mk sample_source Second). split; [done|].
  by apply (polling_sends_bodies sample_source).
Defined.

Definition sample_position : Message :=
  match sample_vp "v1" "s1" StopStatus_STOPPED_AT 1000 with
  | any_msg m => m | _ => zero_of K_StopEvent end.
Local Instance one_message : ProtoLib := table_lib [(Byte.x00, sample_position)].
Definition st0 : InMemoryStateStore := NewInMemoryStateStore (mkConfig Hour).
Definition sample_ins : list arrival := [Arrival (still 10) (any_msg sample_position)].

Lemma positions_over_redis_witness :
  run StopEventProcessor.handle (omap over_redis sample_ins) st0
  = run StopEventProcessor.handle sample_ins st0.
Proof.
  apply positions_over_redis. each (eexists _, _; split_and!; [done|by vm_compute|by vm_compute]).
Defined.

Lemma bytes_dropped_witness :
  exec (still 10) 0 (DwellEventProcessor.handle (RedisLink.init [])) st0 = (st0, []).
Proof. apply bytes_dropped. apply list_elem_of_further, list_elem_of_here. Defined.
End witnesses.
End EndpointSpec.
