(* ===== verification/Edges.v ===== *)
(** * The goroutines at the edges ([sources], [sinks])

    A source waits for something to happen outside (a tick with its response, a
    message on a subscription) and sends what that gives on its channel; a sink
    takes elements and does something outside for each (a line logged, a payload
    published).  Both watch the context.  Each is a step relation, over what one
    event or one element gives. *)
From stdpp Require Import relations.
From S2P Require Import Prelude GoTime Events Config Endpoints.

(** ** Sources *)

Module SourceLoop.

Inductive phase :=
| Selecting
| Sending (x : any)
| Returned.

Section source.
Context {E : Type} (emit : E → option any).

Record state := St {
  outside : list E;         (* what is still to happen *)
  outside_ends : bool;      (* is the subscription closed after that? *)
  cancelled : bool;
  at_ : phase;
  seen : list E;
  received : list any;      (* by the reader of the channel *)
}.

(** The send is not part of a [select]: only the reader ends it. *)
Inductive step : state → state → Prop :=
| s_cancel ev en ph sn rc : step (St ev en false ph sn rc) (St ev en true ph sn rc)
| s_event e ev en cn sn rc :
    step (St (e :: ev) en cn Selecting sn rc)
         (St ev en cn (from_option Sending Selecting (emit e)) (sn ++ [e]) rc)
| s_receive x ev en cn sn rc :
    step (St ev en cn (Sending x) sn rc) (St ev en cn Selecting sn (rc ++ [x]))
| s_done ev en sn rc : step (St ev en true Selecting sn rc) (St ev en true Returned sn rc)
| s_ended cn sn rc : step (St [] true cn Selecting sn rc) (St [] true cn Returned sn rc).

Definition start (events : list E) (ends : bool) : state := St events ends false Selecting [] [].

Definition held (ph : phase) : list any := match ph with Sending x => [x] | _ => [] end.

(** What the reader has is what the events so far gave, but for one element. *)
Definition faithful (events : list E) (σ : state) : Prop :=
  seen σ ++ outside σ = events ∧ received σ ++ held (at_ σ) = omap emit (seen σ).

Lemma faithful_step events σ σ' : step σ σ' → faithful events σ → faithful events σ'.
Proof.
  unfold faithful. destruct 1 as [|e ev en cn sn rc| | |]; cbn; intros [H1 H2]; try done.
  - rewrite app_nil_r in H2. subst rc. rewrite <- app_assoc. split; [done|].
    rewrite omap_app. cbn. by destruct (emit e); cbn; rewrite ?app_nil_r.
  - by rewrite app_nil_r.
Qed.

Lemma source_faithful events ends σ :
  rtc step (start events ends) σ → faithful events σ.
Proof.
  intros Hr. assert (faithful events (start events ends)) as Hf by done. revert Hf.
  induction Hr; eauto using faithful_step.
Qed.

(** A source whose reader is gone stays where it is: cancellation does not end the
    send, and the channel is closed in no case. *)
Lemma source_stuck σ x σ' :
  at_ σ = Sending x → rtc (λ σ1 σ2, step σ1 σ2 ∧ received σ2 = received σ1) σ σ' →
  at_ σ' = Sending x.
Proof.
  intros Hx Hr. induction Hr as [|σ1 σ2 σ3 [Hs Hrc] _ IH]; [done|]. apply IH.
  destruct Hs; cbn in *; try done. exfalso. apply (f_equal length) in Hrc.
  rewrite length_app in Hrc. cbn in Hrc. lia.
Qed.
End source.
End SourceLoop.

(** ** Sinks *)

Module SinkLoop.
Section sink.
Context {O : Type} (act : any → option O).

Record state := St {
  pending : list any;        (* what upstream has still to send *)
  upstream_closes : bool;
  cancelled : bool;
  returned : bool;
  taken : list any;
  acts : list O;             (* what was done outside *)
}.

Inductive step : state → state → Prop :=
| k_cancel pd uc rt tk ac : step (St pd uc false rt tk ac) (St pd uc true rt tk ac)
| k_take x pd uc cn tk ac :
    step (St (x :: pd) uc cn false tk ac)
         (St pd uc cn false (tk ++ [x]) (ac ++ option_list (act x)))
| k_done pd uc tk ac : step (St pd uc true false tk ac) (St pd uc true true tk ac)
| k_closed cn tk ac : step (St [] true cn false tk ac) (St [] true cn true tk ac).

Definition start (input : list any) (closes : bool) : state := St input closes false false [] [].

Record inv (input : list any) (σ : state) : Prop := {
  k_input : taken σ ++ pending σ = input;
  k_acts : acts σ = omap act (taken σ);
  k_returned : returned σ = true → cancelled σ = true ∨ pending σ = [];
}.

Lemma omap_option_list x : omap act [x] = option_list (act x).
Proof. cbn. by destruct (act x). Qed.

Lemma sink_inv_step input σ σ' : step σ σ' → inv input σ → inv input σ'.
Proof.
  destruct 1; intros [H1 H2 H3]; split; cbn in *; try done; try (by auto).
  - by rewrite <- app_assoc.
  - by rewrite omap_app, omap_option_list, H2.
Qed.

Lemma sink_inv input closes σ : rtc step (start input closes) σ → inv input σ.
Proof.
  intros Hr. assert (inv input (start input closes)) as Hi by (by split). revert Hi.
  induction Hr; eauto using sink_inv_step.
Qed.
End sink.
End SinkLoop.

(** ** The four of the program *)

Section edges.
Context `{!ProtoLib, !Platform}.

Definition HTTP_source : relation (SourceLoop.state (E := HTTPSource.response)) :=
  SourceLoop.step (λ r, head (HTTPSource.poll r)).
Definition Redis_source : relation (SourceLoop.state (E := list Byte.byte)) :=
  SourceLoop.step (λ payload, Some (RedisLink.init payload)).
Definition Log_sink (s : LogSink.t) : relation (SinkLoop.state (O := LogSink.line)) :=
  SinkLoop.step (λ msg, Some (LogSink.log_line s msg)).
Definition Redis_sink : relation (SinkLoop.state (O := list Byte.byte)) :=
  SinkLoop.step RedisLink.doSink.

Lemma omap_total {A B} (f : A → B) (l : list A) : omap (λ x, Some (f x)) l = f <$> l.
Proof. induction l as [|x l IH]; [done|]. rewrite omap_cons_eq, fmap_cons. by rewrite IH. Qed.

(** A tick of the polling source gives one body at most. *)
Lemma poll_head r : option_list (head (HTTPSource.poll r)) = HTTPSource.poll r.
Proof. destruct r as [|code [b|e]]; cbn [HTTPSource.poll]; [done|..]; by destruct (decide _). Qed.

(** The HTTP source sends what its responses so far give; a body that is not taken
    blocks it. *)
Lemma http_source_sends s rs ends σ :
  0 < HTTPSource.interval s → rtc HTTP_source (SourceLoop.start rs ends) σ →
  HTTPSource.init s (SourceLoop.seen σ) =
    Some (SourceLoop.received σ ++ SourceLoop.held (SourceLoop.at_ σ)).
Proof.
  intros Hi Hr. apply SourceLoop.source_faithful in Hr as [_ ->].
  unfold HTTPSource.init. rewrite decide_False by lia. f_equal.
  induction (SourceLoop.seen σ) as [|r l IH]; [done|]. rewrite fmap_cons. cbn [concat].
  rewrite IH, <- poll_head, omap_cons_eq. by destruct (head (HTTPSource.poll r)).
Qed.

(** The console sink logs one line for each element it takes, in order; when it
    has returned uncancelled, these are all. *)
Lemma console_logs_all s input closes σ :
  rtc (Log_sink s) (SinkLoop.start input closes) σ →
  SinkLoop.acts σ = LogSink.log_line s <$> SinkLoop.taken σ ∧
  (SinkLoop.returned σ = true → SinkLoop.cancelled σ = false → SinkLoop.taken σ = input).
Proof.
  intros Hr. destruct (SinkLoop.sink_inv _ _ _ _ Hr) as [Hin Ha Hret]. split.
  - by rewrite Ha, omap_total.
  - intros Hrt Hcn. destruct (Hret Hrt) as [?|Hp]; [congruence|]. by rewrite <- Hin, Hp, app_nil_r.
Qed.

(** Elements that encode are published, each as one payload, and what the source makes
    of the payload is handled like the element itself. *)
Lemma link_handles l :
  Forall EndpointSpec.encodes l →
  Forall2 (λ x p, StopEvents.StopEventProcessor.handle (RedisLink.init p) =
                  StopEvents.StopEventProcessor.handle x) l (omap RedisLink.doSink l).
Proof.
  induction 1 as [|x l (e & b & -> & Hm & Hu) _ IH]; [by constructor|].
  rewrite omap_cons_eq. unfold RedisLink.doSink at 1. rewrite Hm. constructor; [|exact IH].
  unfold RedisLink.init. cbn [StopEvents.StopEventProcessor.handle]. by rewrite Hu.
Qed.

(** What is left of the right list, with what it stands for on the left. *)
Lemma Forall2_sublist {A B} (R : A → B → Prop) (l : list A) (k k' : list B) :
  Forall2 R l k → k' `sublist_of` k → ∃ l', l' `sublist_of` l ∧ Forall2 R l' k'.
Proof.
  intros Hl. revert k'. induction Hl as [|x y l k Hxy Hl IH]; intros k' Hk.
  - apply sublist_nil_r in Hk as ->. by exists [].
  - apply sublist_cons_r in Hk as [Hk|(k2 & -> & Hk)].
    + destruct (IH _ Hk) as (l' & Hl' & Hall). exists l'. split; [by apply sublist_cons|done].
    + destruct (IH _ Hk) as (l' & Hl' & Hall). exists (x :: l').
      split; [by apply sublist_skip|by constructor].
Qed.

Lemma Forall2_handled {A B C} (f : A → C) (g : B → C) (l : list A) (k : list B) :
  Forall2 (λ x y, g y = f x) l k → g <$> k = f <$> l.
Proof. induction 1; [done|]. rewrite !fmap_cons. by f_equal. Qed.

(** C40: Positions over Redis.  A Redis sink is given positions that encode, and of the
    messages it has published Redis delivers any to a Redis source, each at most once
    and in order; others are lost.  At every moment, under any scheduling of both
    goroutines, there are the positions whose messages were delivered, [delivered], some
    of those the sink has taken and in that order: the elements that have come out of
    the source, with the one it is about to send, are to the StopEventProcessor what as
    many of the first of these positions are.  Nothing but what Redis loses is lost,
    nothing is made up, repeated or swapped, and no position is changed. *)
Theorem redis_link_faithful input closes σ payloads ends τ :
  Forall EndpointSpec.encodes input →
  rtc Redis_sink (SinkLoop.start input closes) σ → payloads `sublist_of` SinkLoop.acts σ →
  rtc Redis_source (SourceLoop.start payloads ends) τ →
  SinkLoop.taken σ `prefix_of` input ∧
  ∃ delivered, delivered `sublist_of` SinkLoop.taken σ ∧ length delivered = length payloads ∧
    StopEvents.StopEventProcessor.handle <$> SourceLoop.received τ ++ SourceLoop.held (SourceLoop.at_ τ) =
      StopEvents.StopEventProcessor.handle <$> take (length (SourceLoop.seen τ)) delivered.
Proof.
  intros Henc Hk Hp Hs. destruct (SinkLoop.sink_inv _ _ _ _ Hk) as [Hin Ha _].
  split; [rewrite <- Hin; by eexists|].
  destruct (SourceLoop.source_faithful _ _ _ _ Hs) as [Hseen Hrc]. rewrite omap_total in Hrc.
  rewrite <- Hin in Henc. apply Forall_app in Henc as [Henc _].
  rewrite Ha in Hp. destruct (Forall2_sublist _ _ _ _ (link_handles _ Henc) Hp) as (delivered & Hsub & Hd).
  exists delivered. split_and!; [done|by eapply Forall2_length|].
  rewrite Hrc, <- list_fmap_compose. apply Forall2_handled.
  rewrite <- Hseen in Hd. apply (Forall2_take _ _ _ (length (SourceLoop.seen τ))) in Hd.
  by rewrite take_app_length in Hd.
Qed.
End edges.

(** *** A run *)

Section witness.
Local Existing Instance amd64.

Definition sent_position : Message :=
  match sample_vp "v1" "s1" StopStatus_STOPPED_AT 1000 with any_msg m => m | _ => zero_of K_StopEvent end.
Definition next_position : Message :=
  match sample_vp "v1" "s2" StopStatus_IN_TRANSIT_TO 1060 with any_msg m => m | _ => zero_of K_StopEvent end.
Local Instance link_lib : ProtoLib := table_lib [(Byte.x00, sent_position); (Byte.x01, next_position)].

(** Two positions are published, the first message is lost. *)
Definition sent_positions : list any := [any_msg sent_position; any_msg next_position].

Lemma redis_link_faithful_witness : ∃ delivered,
  delivered `sublist_of` sent_positions ∧ length delivered = 1%nat ∧
  [StopEvents.StopEventProcessor.handle (any_bytes [Byte.x01])] =
    StopEvents.StopEventProcessor.handle <$> take 1 delivered.
Proof.
  destruct (redis_link_faithful sent_positions true
    (SinkLoop.St [] true false false sent_positions [[Byte.x00]; [Byte.x01]]) [[Byte.x01]] false
    (SourceLoop.St [] false false SourceLoop.Selecting [[Byte.x01]] [any_bytes [Byte.x01]]))
    as (_ & delivered & Hd).
  - each (eexists _, _; split_and!; [done|by vm_compute|by vm_compute]).
  - do 2 (eapply rtc_l; [apply SinkLoop.k_take|]). apply rtc_refl.
  - apply sublist_cons. done.
  - eapply rtc_l; [apply SourceLoop.s_event|]. eapply rtc_l; [apply SourceLoop.s_receive|].
    apply rtc_refl.
  - by exists delivered.
Defined.
End witness.
