(* ===== verification/EventServer.v ===== *)
(** * Event server ([event_server/event_server.go])

    Subscribers over HTTP, each with a filter and a channel of its own, to which
    every matching event is offered without waiting.  The handlers of the
    requests are goroutines; what they and the sink do is a sequence of actions. *)
From S2P Require Import Prelude GoTime Fmt Gtfs Events EventMap Config.

Module EventServer.

Abbreviation SubscriberId := string (only parsing).

(** A channel that was made with [make(chan any, 16)]. *)
Record channel := mkChannel { buffer : list event_map; closed : bool }.
Definition capacity : Z := 16.

(** The map of subscribers, and the channels of all subscribers there have been,
    which the handlers still refer to after they have unsubscribed. *)
Record t := mk {
  clients : gmap SubscriberId (gmap string string);
  channels : gmap SubscriberId channel;
}.

Definition NewEventServer : t := mk ∅ ∅.

(** [id] is the fresh identifier that [uuid.New] gives. *)
Definition Subscribe (id : SubscriberId) (subscription : gmap string string) (s : t) : t :=
  mk (<[id := subscription]> (clients s)) (<[id := mkChannel [] false]> (channels s)).

(** [None]: [close] panics on a closed channel. *)
Definition Unsubscribe (id : SubscriberId) (s : t) : option t :=
  match channels s !! id with
  | Some c =>
      if closed c then None
      else Some (mk (delete id (clients s)) (<[id := mkChannel (buffer c) true]> (channels s)))
  | None => None
  end.

(** [r.URL.Query()]: every key has a value at least. *)
Abbreviation Query := (gmap string (string * list string)).

Section server.
Context `{!ProtoLib, !MapOrder}.

(** The loop over the filters; [n] is the number of the loop. *)
Definition matches (n : nat) (subscription : gmap string string) (eventMap : event_map) : bool :=
  forallb (λ kv, match eventMap !! kv.1 with
                 | None => false
                 | Some eventVal => bool_decide (kv.2 = Sprintf_v eventVal)
                 end) (iterate n _ subscription).

(** The [select] with [default]; [None]: sending on a closed channel panics. *)
Definition offer (eventMap : event_map) (c : channel) : option channel :=
  if closed c then None
  else if decide (len (buffer c) < capacity) then Some (mkChannel (buffer c ++ [eventMap]) false)
  else Some c.

Fixpoint offer_all (n : nat) (eventMap : event_map) (l : list (SubscriberId * gmap string string))
    (chs : gmap SubscriberId channel) : option (gmap SubscriberId channel) :=
  match l with
  | [] => Some chs
  | (id, subscription) :: l =>
      if matches n subscription eventMap then
        c ← chs !! id; c ← offer eventMap c; offer_all n eventMap l (<[id := c]> chs)
      else offer_all n eventMap l chs
  end.

(** [clientsMux] keeps the set of clients as it is meanwhile. *)
Definition Broadcast (n : nat) (event : Message) (s : t) : option t :=
  chs ← offer_all n (GetEventMap event) (iterate n _ (clients s)) (channels s);
  Some (mk (clients s) chs).

(** ** Requests *)

(** [json.Marshal] has no representation for a float that is not a number or
    infinite, nor for an instant whose year does not have four digits. *)
Definition marshals (v : value) : bool :=
  match v with
  | V_float64 S754_nan | V_float64 (S754_infinity _) => false
  | V_Time t => bool_decide (0 ≤ Calendar.Calendar.Year (Calendar.Calendar.date_of t) < 10000)
  | _ => true
  end.
Definition Marshal_ok (m : event_map) : bool := bool_decide (map_Forall (λ _ v, marshals v) m).

(** The first value of each key is taken. *)
Definition subscription_of (query : Query) : gmap string string := fst <$> query.

(** A run of [handleSSE]: whether the [ResponseWriter] is a [Flusher], and the
    events written to it; [served] is over when the handler has returned. *)
Record request := mkRequest { flusher : bool; written : list event_map; served : bool }.

Record world := mkWorld { server : t; requests : gmap SubscriberId request }.

Inductive action :=
| Request (id : SubscriberId) (query : Query) (flusher : bool)
| Publish (n : nat) (event : Message)
| Receive (id : SubscriberId)
| Return (id : SubscriberId).

Inductive outcome :=
| Next (w : world)
| Panicked
| Disabled.

(** A request subscribes.  Its handler then receives from its channel, which is
    possible when the buffer is not empty, until the client disconnects, which
    may be at any time, or returns at once without a [Flusher]; either way
    [Unsubscribe] is deferred. *)
Definition act (w : world) (a : action) : outcome :=
  let '(mkWorld s rs) := w in
  match a with
  | Request id query fl =>
      match rs !! id with
      | Some _ => Disabled
      | None => Next (mkWorld (Subscribe id (subscription_of query) s)
                        (<[id := mkRequest fl [] false]> rs))
      end
  | Publish n event =>
      match Broadcast n event s with
      | Some s' => Next (mkWorld s' rs)
      | None => Panicked
      end
  | Receive id =>
      match rs !! id, channels s !! id with
      | Some (mkRequest true ws false), Some (mkChannel (m :: b) cl) =>
          Next (mkWorld (mk (clients s) (<[id := mkChannel b cl]> (channels s)))
            (<[id := mkRequest true (if Marshal_ok m then ws ++ [m] else ws) false]> rs))
      | _, _ => Disabled
      end
  | Return id =>
      match rs !! id with
      | Some (mkRequest fl ws false) =>
          match Unsubscribe id s with
          | Some s' => Next (mkWorld s' (<[id := mkRequest fl ws true]> rs))
          | None => Panicked
          end
      | _ => Disabled
      end
  end.

Fixpoint run (w : world) (l : list action) : outcome :=
  match l with
  | [] => Next w
  | a :: l => match act w a with Next w => run w l | o => o end
  end.

Definition start : world := mkWorld NewEventServer ∅.
End server.
End EventServer.

(** ** Specification

    To a subscriber the server is a queue of its own of at most 16 events, which
    takes an event that passes the filter when there is room and drops it
    otherwise; what is done for other subscribers makes no difference. *)
Module ServerSpec.
Import EventServer.

Inductive client :=
| Absent
| Present (flusher : bool) (subscription : gmap string string) (queue written : list event_map)
| Gone (written : list event_map).

(** Every filter is the printed value of the field of its name. *)
Definition wants (subscription : gmap string string) (m : event_map) : Prop :=
  map_Forall (λ k v, Sprintf_v <$> m !! k = Some v) subscription.

#[export] Instance wants_dec sub m : Decision (wants sub m).
Proof. unfold wants. apply _. Defined.

Definition enqueue (sub : gmap string string) (m : event_map) (queue : list event_map)
    : list event_map :=
  if decide (wants sub m ∧ len queue < capacity) then queue ++ [m] else queue.

Definition deliver (m : event_map) (ws : list event_map) : list event_map :=
  if Marshal_ok m then ws ++ [m] else ws.

Section spec.
Context `{!ProtoLib, !MapOrder, !MapOrderOk}.

Definition client_step (id : SubscriberId) (c : client) (a : action) : client :=
  match a, c with
  | Request id' query fl, Absent =>
      if decide (id' = id) then Present fl (subscription_of query) [] [] else c
  | Publish _ event, Present fl sub queue ws =>
      Present fl sub (enqueue sub (GetEventMap event) queue) ws
  | Receive id', Present fl sub (m :: queue) ws =>
      if decide (id' = id) then Present fl sub queue (deliver m ws) else c
  | Return id', Present _ _ _ ws => if decide (id' = id) then Gone ws else c
  | _, _ => c
  end.

(** What the state of the server is to a subscriber. *)
Definition view (id : SubscriberId) (w : world) : client :=
  match requests w !! id, clients (server w) !! id, channels (server w) !! id with
  | None, _, _ => Absent
  | Some r, Some sub, Some c => Present (flusher r) sub (buffer c) (written r)
  | Some r, _, _ => Gone (written r)
  end.

(** A subscriber is registered while its handler runs, and its channel is open
    exactly then. *)
Definition consistent (w : world) : Prop := ∀ id,
  match requests w !! id with
  | None => clients (server w) !! id = None ∧ channels (server w) !! id = None
  | Some r => ∃ c, channels (server w) !! id = Some c ∧ closed c = served r ∧
      (is_Some (clients (server w) !! id) ↔ served r = false)
  end.

Lemma matches_wants n sub m : matches n sub m = bool_decide (wants sub m).
Proof.
  apply Bool.eq_iff_eq_true. unfold matches. rewrite bool_decide_eq_true, forallb_forall.
  setoid_rewrite <- list_elem_of_In. unfold wants. rewrite map_Forall_to_list, Forall_forall.
  assert (∀ kv, kv ∈ iterate n _ sub ↔ kv ∈ map_to_list sub) as Hp
    by (intros kv; by rewrite iterate_perm).
  split; intros Hall kv Hkv; apply Hp in Hkv; specialize (Hall kv Hkv); destruct kv as [k v];
    cbn in *; destruct (m !! k) as [x|]; cbn in *; try done.
  - apply bool_decide_eq_true in Hall. congruence.
  - apply bool_decide_eq_true. congruence.
Qed.

(** The channel of a client after an event was offered to it. *)
Definition offered (m : event_map) (sub : option (gmap string string)) (c : channel) : channel :=
  match sub with
  | Some sub => mkChannel (enqueue sub m (buffer c)) (closed c)
  | None => c
  end.

Lemma offer_all_spec n m l chs :
  NoDup l.*1 → (∀ id sub, (id, sub) ∈ l → ∃ c, chs !! id = Some c ∧ closed c = false) →
  ∃ chs', offer_all n m l chs = Some chs' ∧
    ∀ id, chs' !! id = offered m ((list_to_map l : gmap _ _) !! id) <$> chs !! id.
Proof.
  revert chs. induction l as [|[id sub] l IH]; intros chs Hnd Hopen; cbn.
  { exists chs. split; [done|]. intros id. rewrite lookup_empty. by destruct (chs !! id). }
  apply NoDup_cons in Hnd as [Hid Hnd].
  destruct (Hopen id sub (list_elem_of_here _ _)) as ([b cl] & Hc & Hcl). cbn in Hcl. subst cl.
  assert ((list_to_map l : gmap SubscriberId _) !! id = None) as Hl
    by by apply not_elem_of_list_to_map_1.
  set (chs1 := <[id := mkChannel (enqueue sub m b) false]> chs).
  destruct (IH chs1 Hnd) as (chs' & Hoff & Hch).
  { intros id' sub' Hin. unfold chs1. rewrite lookup_insert_ne.
    - eapply Hopen. by apply list_elem_of_further.
    - intros <-. apply Hid. apply list_elem_of_fmap. by exists (id, sub'). }
  exists chs'. split.
  - revert Hoff. unfold chs1, enqueue. rewrite matches_wants.
    destruct (decide (wants sub m)) as [Hw|Hw].
    + rewrite bool_decide_eq_true_2, Hc by done. cbn. unfold offer. cbn.
      destruct (decide (len b < capacity)); by rewrite ?decide_True, ?decide_False by tauto.
    + rewrite bool_decide_eq_false_2, decide_False by tauto. by rewrite insert_id.
  - intros id'. rewrite Hch. unfold chs1. destruct (decide (id = id')) as [<-|Hne].
    + by rewrite !lookup_insert_eq, Hl, Hc.
    + by rewrite !lookup_insert_ne.
Qed.

Lemma Broadcast_spec n e s :
  (∀ id, is_Some (clients s !! id) → ∃ c, channels s !! id = Some c ∧ closed c = false) →
  ∃ s', Broadcast n e s = Some s' ∧ clients s' = clients s ∧
    ∀ id, channels s' !! id = offered (GetEventMap e) (clients s !! id) <$> channels s !! id.
Proof.
  intros Hopen. unfold Broadcast.
  assert (NoDup (iterate n _ (clients s)).*1) as Hnd
    by (rewrite iterate_perm; apply NoDup_fst_map_to_list).
  destruct (offer_all_spec n (GetEventMap e) (iterate n _ (clients s)) (channels s) Hnd)
    as (chs & -> & Hch).
  { intros id sub Hin. apply Hopen. rewrite iterate_perm in Hin.
    apply elem_of_map_to_list in Hin. by eexists. }
  cbn. eexists. split; [done|]. split; [done|]. intros id. cbn. rewrite Hch.
  by rewrite (list_to_map_proper _ (map_to_list (clients s))), list_to_map_to_list
    by (done || apply iterate_perm).
Qed.

Lemma view_start id : view id start = Absent.
Proof. done. Qed.

Lemma consistent_start : consistent start.
Proof. intros id. done. Qed.

(** The actions of one request touch only what belongs to it. *)
Lemma local_consistent id r sub c w w' :
  (∀ id', id' ≠ id → requests w' !! id' = requests w !! id' ∧
     clients (server w') !! id' = clients (server w) !! id' ∧
     channels (server w') !! id' = channels (server w) !! id') →
  requests w' !! id = Some r → clients (server w') !! id = sub → channels (server w') !! id = Some c →
  closed c = served r → (is_Some sub ↔ served r = false) →
  consistent w → consistent w'.
Proof.
  intros Hother Hr Hs Hc Hcl Hsub Hcon id'. destruct (decide (id' = id)) as [->|Hne].
  - rewrite Hr, Hs. by exists c.
  - destruct (Hother id' Hne) as (-> & -> & ->). apply Hcon.
Qed.

Ltac other_ids := intros ? ?; cbn; by rewrite ?lookup_insert_ne, ?lookup_delete_ne by done.

Lemma act_Request cs chs rs id q fl :
  consistent (mkWorld (mk cs chs) rs) →
  match act (mkWorld (mk cs chs) rs) (Request id q fl) with
  | Next w' => consistent w' ∧ ∀ id', view id' w' =
      client_step id' (view id' (mkWorld (mk cs chs) rs)) (Request id q fl)
  | Panicked => False
  | Disabled => True
  end.
Proof.
  intros Hcon. cbn. destruct (rs !! id) as [r|] eqn:Hr; [done|]. split.
  - eapply (local_consistent id); cbn; rewrite ?lookup_insert_eq; try done. other_ids.
  - intros id'. unfold view. cbn. destruct (decide (id = id')) as [<-|Hne].
    + by rewrite !lookup_insert_eq, Hr.
    + rewrite !lookup_insert_ne by done. destruct (rs !! id'); [|done].
      by destruct (cs !! id'), (chs !! id').
Qed.

Lemma act_Publish w n e :
  consistent w →
  match act w (Publish n e) with
  | Next w' => consistent w' ∧ ∀ id', view id' w' = client_step id' (view id' w) (Publish n e)
  | Panicked => False
  | Disabled => True
  end.
Proof.
  intros Hcon. destruct w as [s rs]. cbn.
  destruct (Broadcast_spec n e s) as (s' & -> & Hcs & Hchs).
  { intros id Hid. specialize (Hcon id). cbn in Hcon. destruct (rs !! id) as [r|].
    - destruct Hcon as (c & ? & ? & Hiff). exists c. split; [done|]. apply Hiff in Hid. congruence.
    - destruct Hcon as [Hnone _]. rewrite Hnone in Hid. by destruct Hid. }
  split; intros id; specialize (Hcon id); unfold view; cbn in *; rewrite Hcs, Hchs;
    destruct (rs !! id) as [r|]; try done.
  - destruct Hcon as (c & -> & Hcl & Hiff). eexists. split; [done|]. split; [|done].
    by destruct (clients s !! id).
  - destruct Hcon as [-> ->]. done.
  - destruct Hcon as (c & -> & _). by destruct (clients s !! id).
Qed.

Lemma act_Receive cs chs rs id :
  consistent (mkWorld (mk cs chs) rs) →
  match act (mkWorld (mk cs chs) rs) (Receive id) with
  | Next w' => consistent w' ∧ ∀ id', view id' w' =
      client_step id' (view id' (mkWorld (mk cs chs) rs)) (Receive id)
  | Panicked => False
  | Disabled => True
  end.
Proof.
  intros Hcon. cbn. destruct (rs !! id) as [[[] ws []]|] eqn:Hr; try done.
  destruct (chs !! id) as [[[|m b] cl]|] eqn:Hch; [done| |done].
  pose proof (Hcon id) as Hid. cbn in Hid. rewrite Hr in Hid.
  destruct Hid as (c & Hc & Hcl & Hiff). rewrite Hch in Hc. injection Hc as <-. cbn in Hcl, Hiff.
  destruct (proj2 Hiff eq_refl) as [sub Hsub]. split.
  - eapply (local_consistent id); cbn; rewrite ?lookup_insert_eq, ?Hsub; try done. other_ids.
  - intros id'. unfold view. cbn. destruct (decide (id = id')) as [<-|Hne].
    + by rewrite !lookup_insert_eq, Hr, Hsub, Hch.
    + rewrite !lookup_insert_ne by done. destruct (rs !! id'); [|done].
      destruct (cs !! id'), (chs !! id') as [[[|? ?] ?]|]; done.
Qed.

Lemma act_Return cs chs rs id :
  consistent (mkWorld (mk cs chs) rs) →
  match act (mkWorld (mk cs chs) rs) (Return id) with
  | Next w' => consistent w' ∧ ∀ id', view id' w' =
      client_step id' (view id' (mkWorld (mk cs chs) rs)) (Return id)
  | Panicked => False
  | Disabled => True
  end.
Proof.
  intros Hcon. cbn. destruct (rs !! id) as [[fl ws []]|] eqn:Hr; try done.
  pose proof (Hcon id) as Hid. cbn in Hid. rewrite Hr in Hid.
  destruct Hid as ([b cl] & Hc & Hcl & Hiff). cbn in Hcl, Hiff. subst cl.
  destruct (proj2 Hiff eq_refl) as [sub Hsub]. unfold Unsubscribe. cbn. rewrite Hc. cbn. split.
  - eapply (local_consistent id); cbn; rewrite ?lookup_insert_eq, ?lookup_delete_eq; try done; other_ids.
  - intros id'. unfold view. cbn. destruct (decide (id = id')) as [<-|Hne].
    + by rewrite lookup_insert_eq, lookup_delete_eq, Hr, Hsub, Hc.
    + rewrite !lookup_insert_ne, lookup_delete_ne by done. destruct (rs !! id'); [|done].
      by destruct (cs !! id'), (chs !! id').
Qed.

Lemma act_spec w a :
  consistent w →
  match act w a with
  | Next w' => consistent w' ∧ ∀ id, view id w' = client_step id (view id w) a
  | Panicked => False
  | Disabled => True
  end.
Proof.
  intros Hcon. destruct w as [[cs chs] rs]. destruct a as [id q fl|n e|id|id].
  - apply act_Request, Hcon.
  - apply act_Publish, Hcon.
  - apply act_Receive, Hcon.
  - apply act_Return, Hcon.
Qed.

Lemma run_spec w l :
  consistent w →
  match run w l with
  | Next w' => consistent w' ∧ ∀ id, view id w' = fold_left (client_step id) l (view id w)
  | Panicked => False
  | Disabled => True
  end.
Proof.
  revert w. induction l as [|a l IH]; intros w Hcon; cbn; [done|].
  pose proof (act_spec w a Hcon) as Ha. destruct (act w a) as [w1| |]; [|done..].
  destruct Ha as [Hcon1 Hv]. specialize (IH w1 Hcon1). destruct (run w1 l); [|done..].
  destruct IH as [? IH]. split; [done|]. intros id. by rewrite IH, Hv.
Qed.

(** ** What a subscriber gets *)

(** The events of a history, and those of them a subscriber is to get. *)
Definition published (l : list action) : list event_map :=
  omap (λ a, match a with Publish _ e => Some (GetEventMap e) | _ => None end) l.

Definition due (sub : gmap string string) (l : list action) : list event_map :=
  filter (λ m, wants sub m ∧ Marshal_ok m) (published l).

(** Those in the queue that can be written. *)
Definition sendable : list event_map → list event_map := filter (λ m, Marshal_ok m).

(** There is room in the queue whenever an event comes that passes the filter. *)
Fixpoint keeps_up (id : SubscriberId) (c : client) (l : list action) : Prop :=
  match l with
  | [] => True
  | a :: l =>
      match a, c with
      | Publish _ e, Present _ sub queue _ => wants sub (GetEventMap e) → len queue < capacity
      | _, _ => True
      end ∧ keeps_up id (client_step id c a) l
  end.

Lemma deliver_sendable m ws : deliver m ws = ws ++ sendable [m].
Proof.
  unfold deliver, sendable. rewrite filter_cons, filter_nil.
  destruct (Marshal_ok m); cbn; by rewrite ?app_nil_r.
Qed.

Lemma due_Publish sub n e l :
  due sub (Publish n e :: l) =
    (if decide (wants sub (GetEventMap e)) then sendable [GetEventMap e] else []) ++ due sub l.
Proof.
  unfold due, sendable. change (published (Publish n e :: l)) with (GetEventMap e :: published l).
  rewrite !filter_cons, filter_nil. repeat case_decide; done || tauto.
Qed.

Lemma sendable_enqueue_sublist sub m queue :
  sendable (enqueue sub m queue) `sublist_of`
    sendable queue ++ (if decide (wants sub m) then sendable [m] else []).
Proof.
  unfold enqueue. destruct (decide (wants sub m ∧ _)) as [[Hw _]|_].
  - rewrite decide_True by done. unfold sendable. by rewrite filter_app.
  - by apply sublist_inserts_r.
Qed.

Lemma sendable_enqueue sub m queue :
  (wants sub m → len queue < capacity) →
  sendable (enqueue sub m queue) =
    sendable queue ++ (if decide (wants sub m) then sendable [m] else []).
Proof.
  intros Hroom. unfold enqueue, sendable. destruct (decide (wants sub m)) as [Hw|Hw].
  - rewrite decide_True by tauto. by rewrite filter_app.
  - rewrite decide_False by tauto. by rewrite app_nil_r.
Qed.

(** The events a subscriber has been sent and those in its queue. *)
Definition in_flight (c : client) : list event_map :=
  match c with
  | Absent => []
  | Present _ _ queue ws => ws ++ sendable queue
  | Gone ws => ws
  end.

Definition present (c : client) : Prop := match c with Present _ _ _ _ => True | _ => False end.

Lemma fold_Gone id l ws : fold_left (client_step id) l (Gone ws) = Gone ws.
Proof. induction l as [|[] l IH]; done. Qed.

Lemma in_flight_sublist id l fl sub queue ws :
  in_flight (fold_left (client_step id) l (Present fl sub queue ws)) `sublist_of`
    (ws ++ sendable queue) ++ due sub l.
Proof.
  revert queue ws. induction l as [|a l IH]; intros queue ws; cbn [fold_left].
  { cbn. by rewrite app_nil_r. }
  destruct a as [id' q' fl'|n e|id'|id']; cbn [client_step].
  - apply IH.
  - etrans; [apply IH|]. rewrite due_Publish, !(assoc_L (++)).
    apply sublist_app; [|done]. rewrite <- !(assoc_L (++)).
    apply sublist_app; [done|apply sendable_enqueue_sublist].
  - destruct queue as [|m queue]; [apply IH|]. case_decide; [|apply IH].
    etrans; [apply IH|]. rewrite deliver_sendable, <- (assoc_L (++) ws).
    unfold sendable. by rewrite <- filter_app.
  - case_decide; [|apply IH]. rewrite fold_Gone. by apply sublist_inserts_r, sublist_inserts_r.
Qed.

Lemma in_flight_keeps_up id l fl sub queue ws :
  keeps_up id (Present fl sub queue ws) l →
  present (fold_left (client_step id) l (Present fl sub queue ws)) →
  in_flight (fold_left (client_step id) l (Present fl sub queue ws)) =
    (ws ++ sendable queue) ++ due sub l.
Proof.
  revert queue ws. induction l as [|a l IH]; intros queue ws; cbn [fold_left keeps_up].
  { cbn. by rewrite app_nil_r. }
  intros [Hroom Hk] Hp. destruct a as [id' q' fl'|n e|id'|id']; cbn [client_step] in *.
  - by apply IH.
  - rewrite IH by done. rewrite sendable_enqueue, due_Publish by done. by rewrite !(assoc_L (++)).
  - destruct queue as [|m queue]; [by apply IH|]. case_decide; [|by apply IH].
    rewrite IH by done. rewrite deliver_sendable, <- (assoc_L (++) ws).
    unfold sendable. by rewrite <- filter_app.
  - case_decide; [|by apply IH]. by rewrite fold_Gone in Hp.
Qed.

(** Sixteen events that pass the filter fit in any case. *)
Lemma keeps_up_few id l fl sub queue ws :
  len queue + len (filter (wants sub) (published l)) ≤ capacity → keeps_up id (Present fl sub queue ws) l.
Proof.
  revert queue ws. induction l as [|a l IH]; intros queue ws Hlen; [done|].
  destruct a as [id' q' fl'|n e|id'|id']; cbn [keeps_up client_step].
  - split; [done|]. by apply IH.
  - change (published (Publish n e :: l)) with (GetEventMap e :: published l) in Hlen.
    unfold len, enqueue in *. rewrite filter_cons in Hlen. destruct (decide (wants sub (GetEventMap e))) as [Hw|Hw].
    + cbn [length] in Hlen. split; [lia|]. apply IH. unfold len.
      case_decide; rewrite ?length_app; cbn [length]; lia.
    + split; [done|]. apply IH. rewrite decide_False by tauto. done.
  - change (published (Receive id' :: l)) with (published l) in Hlen. split; [done|].
    destruct queue as [|m queue]; [by apply IH|]. case_decide; apply IH; [|done].
    unfold len in *. cbn [length] in Hlen. lia.
  - split; [done|]. case_decide; [|by apply IH]. clear.
    induction l as [|[] l IH]; cbn [keeps_up client_step]; done.
Qed.

(** The state of a subscriber after the history that follows its request. *)
Lemma view_after_Request l1 id q fl l2 w :
  run start (l1 ++ Request id q fl :: l2) = Next w →
  view id w = fold_left (client_step id) l2 (Present fl (subscription_of q) [] []).
Proof.
  assert (∀ w l l', run w (l ++ l') = match run w l with Next w' => run w' l' | o => o end) as Happ.
  { intros w0 l. revert w0. induction l as [|a l IH]; intros w0 l'; cbn; [done|].
    destruct (act w0 a); [apply IH|done..]. }
  rewrite Happ. pose proof (run_spec start l1 consistent_start) as Hr1.
  destruct (run start l1) as [w1| |]; [|done..]. destruct Hr1 as [Hcon Hv].
  cbn [run]. intros Hrun. pose proof (act_spec w1 (Request id q fl) Hcon) as Ha.
  destruct (act w1 (Request id q fl)) as [w2| |] eqn:Hact; [|done..].
  destruct Ha as [Hcon2 Hv2]. pose proof (run_spec w2 l2 Hcon2) as Hr2. rewrite Hrun in Hr2.
  destruct Hr2 as [_ Hv3]. rewrite Hv3, Hv2. f_equal.
  unfold view. destruct w1 as [s1 rs1]. cbn in *. destruct (rs1 !! id); [done|].
  cbn. by rewrite decide_True by done.
Qed.

(** C38: Whatever requests come and go while events are broadcast, no send on a
    closed channel and no second close happens: the server never panics. *)
Theorem server_never_panics l : run start l ≠ Panicked.
Proof. intros Hp. pose proof (run_spec start l consistent_start) as Hs. by rewrite Hp in Hs. Qed.

(** C24: To each subscriber the server is a bounded queue of its own: its state
    follows from the broadcasts and its own actions alone, whatever other
    subscribers do and in whatever order the server visits them. *)
Theorem subscriber_isolated l w id :
  run start l = Next w → view id w = fold_left (client_step id) l Absent.
Proof.
  intros Hr. pose proof (run_spec start l consistent_start) as Hs. rewrite Hr in Hs.
  destruct Hs as [_ Hs]. by rewrite Hs.
Qed.

(** What is written to a subscriber are events broadcast after its request
    that pass all its filters, each once at most and in the order they were
    broadcast. *)
Theorem sse_in_order l1 id q fl l2 w r :
  run start (l1 ++ Request id q fl :: l2) = Next w → requests w !! id = Some r →
  written r `sublist_of` due (subscription_of q) l2.
Proof.
  intros Hr Hreq. apply view_after_Request in Hr.
  pose proof (in_flight_sublist id l2 fl (subscription_of q) [] []) as Hs. rewrite <- Hr in Hs.
  etrans; [|exact Hs]. unfold view. rewrite Hreq.
  destruct (clients (server w) !! id), (channels (server w) !! id); cbn; try done.
  by apply sublist_inserts_r.
Qed.

(** A subscriber that keeps up loses nothing: as long as its queue has room
    for every event that passes its filters, what was written to it and what is
    in its queue are all of them. *)
Theorem sse_lossless l1 id q fl l2 w fl' sub queue ws :
  run start (l1 ++ Request id q fl :: l2) = Next w →
  keeps_up id (Present fl (subscription_of q) [] []) l2 →
  view id w = Present fl' sub queue ws →
  ws ++ sendable queue = due (subscription_of q) l2.
Proof.
  intros Hr Hk Hv. apply view_after_Request in Hr. rewrite Hv in Hr.
  pose proof (in_flight_keeps_up id l2 fl (subscription_of q) [] [] Hk) as Hs.
  rewrite <- Hr in Hs. by apply Hs.
Qed.
End spec.
End ServerSpec.

(** ** A session *)

Module ServerRuns.
Import EventServer ServerSpec.

Section witnesses.
Local Existing Instance unix_lib.

Definition position_on (route : string) : Message :=
  msg_VehiclePositionEvent (Some {|
    VehiclePositionEvent.Attributes :=
      Some (EventAttributes.mk "MBTA" "v1" route "s1" "" "" "0" "" "" "" 3 StopStatus_STOPPED_AT
              "t1" "20240229" (Some (Timestamp.mk 1709208000 0)));
    VehiclePositionEvent.Latitude := float64_of_int 42;
    VehiclePositionEvent.Longitude := float64_of_int (-71);
  |}).

Definition red_only : Query := {["route_id" := ("Red", [])]}.

(** Two subscribers, one for a route and one for everything. *)
Definition before : list action := [Request "b" ∅ true; Publish 0 (position_on "Red")].
Definition after : list action :=
  [Publish 1 (position_on "Blue"); Publish 2 (position_on "Red"); Receive "a"; Return "b";
   Publish 3 (position_on "Red")].
Definition session : list action := before ++ Request "a" red_only true :: after.

Definition session_end : world :=
  match run start session with Next w => w | _ => start end.

Lemma session_runs : run start session = Next session_end.
Proof. unfold session_end. by destruct (run start session) eqn:Hr; vm_compute in Hr. Qed.

Definition red_map : event_map := GetEventMap (position_on "Red").

Example session_view :
  view "a" session_end = Present true (subscription_of red_only) [red_map] [red_map].
Proof. by vm_compute. Qed.

Lemma subscriber_isolated_witness :
  view "a" session_end = fold_left (client_step "a") session Absent.
Proof. exact (subscriber_isolated session session_end "a" session_runs). Defined.

Lemma sse_in_order_witness : [red_map] `sublist_of` due (subscription_of red_only) after.
Proof.
  exact (sse_in_order before "a" red_only true after session_end (mkRequest true [red_map] false)
    session_runs ltac:(by vm_compute)).
Defined.

Lemma sse_lossless_witness :
  [red_map] ++ sendable [red_map] = due (subscription_of red_only) after.
Proof.
  assert (keeps_up "a" (Present true (subscription_of red_only) [] []) after) as Hk
    by (apply keeps_up_few; by vm_compute).
  exact (sse_lossless before "a" red_only true after session_end true (subscription_of red_only)
    [red_map] [red_map] session_runs Hk session_view).
Defined.

Lemma server_never_panics_witness : run start session ≠ Panicked.
Proof. exact (server_never_panics session). Defined.

(** A field that events do not have, or a value printed differently, filters
    everything out. *)
Example wrong_filters :
  (λ f : string * string, bool_decide (wants {[f.1 := f.2]} red_map)) <$>
    [("route", "Red"); ("stop_status", "3"); ("event_type", "VehiclePositionEvent");
     ("stop_status", "STOPPED_AT"); ("latitude", "42"); ("stop_sequence", "3");
     ("timestamp", "2024-02-29 12:00:00 +0000 UTC")]
  = [false; false; true; true; true; true; true].
Proof. by vm_compute. Qed.
End witnesses.
End ServerRuns.
