(* ===== verification/SSESink.v ===== *)
(** * SSESink ([sinks/http_sink.go])

    The goroutine that hands events to the event server, and the end of its
    input channel, which it closes as well as upstream does. *)
From stdpp Require Import relations.
From S2P Require Import Prelude GoTime Events.

Module SSESink.

Record state := St {
  pending : list any;        (* what upstream has still to send *)
  upstream_closes : bool;    (* does upstream close the channel after that? *)
  cancelled : bool;          (* [ctx.Done()] *)
  in_closed : bool;          (* the channel [sink.in] *)
  returned : bool;           (* the goroutine of the sink *)
  broadcast : list Message;  (* the calls of [server.Broadcast] *)
  panicked : bool;
}.

(** [in_] is unbuffered: a receive is a send of upstream.  [close(sink.in)] is
    deferred, so it is done however the loop returns; closing a closed channel
    and sending on one panic. *)
Inductive step : state → state → Prop :=
| s_cancel pd uc cl rt bs :
    step (St pd uc false cl rt bs false) (St pd uc true cl rt bs false)
| s_receive x pd uc cn bs :
    step (St (x :: pd) uc cn false false bs false)
         (St pd uc cn false false (match as_Event x with Some e => bs ++ [e] | None => bs end) false)
| s_done pd uc cl bs :
    step (St pd uc true cl false bs false) (St pd uc true true true bs cl)
| s_closed pd uc cn bs :
    step (St pd uc cn true false bs false) (St pd uc cn true true bs true)
| u_send_on_closed x pd uc cn rt bs :
    step (St (x :: pd) uc cn true rt bs false) (St (x :: pd) uc cn true rt bs true)
| u_close cn cl rt bs :
    step (St [] true cn cl rt bs false) (St [] false cn true rt bs cl).

Definition start (input : list any) (closes : bool) : state :=
  St input closes false false false [] false.

Definition reachable (input : list any) (closes : bool) : state → Prop :=
  rtc step (start input closes).

(** ** Invariant *)

(** Who has closed the channel: the goroutine when it returned, upstream when it
    no longer is to. *)
Record inv (input : list any) (closes : bool) (σ : state) : Prop := {
  i_taken : ∃ taken, input = taken ++ pending σ ∧ broadcast σ = omap as_Event taken;
  i_closed : in_closed σ = true → panicked σ = false →
    returned σ = true ∨ closes = true ∧ upstream_closes σ = false ∧ pending σ = [];
  i_upstream : upstream_closes σ = false → closes = true → in_closed σ = true ∧ pending σ = [];
  i_both : panicked σ = false → returned σ = true → closes = true →
    upstream_closes σ = true ∧ in_closed σ = true;
  i_may : upstream_closes σ = true → closes = true;
}.

Lemma sse_inv_start input closes : inv input closes (start input closes).
Proof. split; cbn; try done; [by exists []|]. intros -> [=]. Qed.

Lemma sse_inv_step input closes σ σ' : step σ σ' → inv input closes σ → inv input closes σ'.
Proof.
  intros Hs [(tk & Hin & Hb) Hc Hu Hr Hm].
  destruct Hs; cbn in *; split; cbn; try (by eauto); try (intuition congruence).
  - exists (tk ++ [x]). split; [by rewrite Hin, <- (assoc_L (++))|].
    rewrite omap_app, <- Hb. cbn. destruct (as_Event x); cbn; by rewrite ?app_nil_r.
  - intros -> _ Hcl. split; [|done]. destruct uc; [done|]. by destruct (Hu eq_refl Hcl).
Qed.

Lemma sse_inv_steps input closes σ σ' : rtc step σ σ' → inv input closes σ → inv input closes σ'.
Proof. induction 1; eauto using sse_inv_step. Qed.

Lemma sse_reachable_inv input closes σ : reachable input closes σ → inv input closes σ.
Proof. intros Hr. eapply sse_inv_steps, sse_inv_start. exact Hr. Qed.

(** ** Termination *)

Definition rank (σ : state) : nat :=
  length (pending σ) + (if upstream_closes σ then 1 else 0) + (if cancelled σ then 0 else 1)
  + (if returned σ then 0 else 1) + (if panicked σ then 0 else 1).

Lemma step_rank σ σ' : step σ σ' → (rank σ' < rank σ)%nat.
Proof. destruct 1 as [| |? ? [] ?| | |? [] ? ?]; unfold rank; cbn; lia. Qed.

Lemma sse_step_terminates σ : Acc (λ σ2 σ1, step σ1 σ2) σ.
Proof.
  remember (rank σ) as n eqn:Hn. revert σ Hn. induction (lt_wf n) as [n _ IH].
  intros σ ->. constructor. intros σ' Hs. eapply IH; [|done]. by apply step_rank.
Qed.

(** The events the sink has broadcast are those among the first elements of
    its input, in order. *)
Theorem sse_broadcasts_prefix input closes σ :
  reachable input closes σ →
  ∃ taken rest, input = taken ++ rest ∧ broadcast σ = omap as_Event taken.
Proof.
  intros Hr. destruct (sse_reachable_inv _ _ _ Hr) as [(tk & Hin & Hb) _ _ _ _].
  by exists tk, (pending σ).
Qed.

(** C39: When upstream closes the channel after its last element, as every stage
    of a pipeline does, the sink cannot shut down: each run ends, and it ends
    with a second close of the channel, or a send on it after it was closed,
    which panics. *)
Theorem sse_shutdown_panics input σ :
  reachable input true σ →
  Acc (λ σ2 σ1, step σ1 σ2) σ ∧
  ∀ σ', rtc step σ σ' → (∀ σ'', ¬ step σ' σ'') → panicked σ' = true.
Proof.
  intros Hr. split; [apply sse_step_terminates|]. intros σ' Hs Hstuck.
  assert (inv input true σ') as [_ Hc Hu Hb _] by eauto using sse_inv_steps, sse_reachable_inv.
  destruct σ' as [pd uc cn cl rt bs []]; [done|]. cbn in *.
  destruct pd as [|x pd].
  - destruct uc; [by edestruct Hstuck; apply u_close|]. destruct (Hu eq_refl eq_refl) as [-> _].
    destruct rt; [by destruct Hb|]. by edestruct Hstuck; apply s_closed.
  - destruct cl; [by edestruct Hstuck; apply u_send_on_closed|].
    destruct rt; [by destruct Hb|]. by edestruct Hstuck; apply s_receive.
Qed.

(** ** A run *)

Definition one_event : any := any_msg (msg_StopEvent (Some StopEvent.zero)).

(** The event was taken, the context is cancelled and the goroutine of the sink
    has returned; upstream is still to close. *)
Definition late : state :=
  St [] true true true true [msg_StopEvent (Some StopEvent.zero)] false.

Lemma reach_late : reachable [one_event] true late.
Proof.
  eapply rtc_l; [apply s_receive|]. eapply rtc_l; [apply s_cancel|].
  eapply rtc_l; [apply s_done|]. apply rtc_refl.
Qed.

Lemma sse_broadcasts_prefix_witness : ∃ taken rest,
  [one_event] = taken ++ rest ∧ broadcast late = omap as_Event taken.
Proof. apply (sse_broadcasts_prefix [one_event] true late). apply reach_late. Defined.

Lemma sse_shutdown_panics_witness : Acc (λ σ2 σ1, step σ1 σ2) late ∧
  panicked (St [] false true true true (broadcast late) true) = true.
Proof.
  destruct (sse_shutdown_panics [one_event] late reach_late) as [Ht Hp]. split; [exact Ht|].
  apply Hp; [|intros σ'' Hs; inversion Hs].
  apply rtc_once, u_close.
Defined.
End SSESink.
