(* ===== verification/Graph.v ===== *)
(** * Building the graph ([graphs/graph.go], [pipelines/pipeline.go] and the
    factories of [sources], [sinks], [processors] and [statestore])

    The factories look up what the configuration names and fail on what they do
    not know.  Running the graph (merging, fan-out) is done by [go-streams]. *)
From S2P Require Import Prelude GoTime ParseDuration Events Proc Config.
From S2P Require Import FeedEvents StopEvents DwellEvents HeadwayEvents TravelTimeEvents.
From S2P Require Import DbSink ParquetSink Endpoints.

(** A channel made for a connector; [None] is the nil channel. *)
Abbreviation channel := (option ID).

Inductive outcome (A : Type) :=
| Built (x : A)
| Failed (e : go_error)
| Panicked.
Arguments Built {A} _.
Arguments Failed {A} _.
Arguments Panicked {A}.

Module Graph.

(** ** Sources and sinks *)

Inductive Source :=
| src_HTTP (s : HTTPSource.t)
| src_Connector (ch : channel)
| src_Redis (s : RedisLink.RedisSource).

Inductive Sink :=
| sink_Log (s : LogSink.t)
| sink_Connector (ch : channel)
| sink_SSE (cfg : SSESinkConfig.t)
| sink_Database (s : DatabaseSink.t)
| sink_Parquet (s : ParquetSink.t)
| sink_Redis (s : RedisLink.RedisSink).

#[local] Instance Level_eq_dec : EqDecision LogSink.Level.
Proof. solve_decision. Defined.
#[local] Instance LogSink_eq_dec : EqDecision LogSink.t.
Proof. solve_decision. Defined.
#[local] Instance SSE_eq_dec : EqDecision SSESinkConfig.t.
Proof. solve_decision. Defined.
#[local] Instance DatabaseSink_eq_dec : EqDecision DatabaseSink.t.
Proof. solve_decision. Defined.
#[local] Instance s3_Client_eq_dec : EqDecision ParquetSink.s3_Client.
Proof. solve_decision. Defined.
#[local] Instance ParquetSink_eq_dec : EqDecision ParquetSink.t.
Proof. solve_decision. Defined.
#[local] Instance redis_Options_eq_dec : EqDecision StateStore.redis_Options.
Proof. solve_decision. Defined.
#[local] Instance RedisSink_eq_dec : EqDecision RedisLink.RedisSink.
Proof. solve_decision. Defined.
#[export] Instance Sink_eq_dec : EqDecision Sink.
Proof. solve_decision. Defined.

(** [connectors[id]] *)
Definition connector (connectors : gset ID) (id : ID) : channel :=
  if decide (id ∈ connectors) then Some id else None.

Definition NewConnectorSource (cfg_ID : ID) (connectors : gset ID) : Source :=
  src_Connector (connector connectors cfg_ID).
Definition NewConnectorSink (cfg_ID : ID) (connectors : gset ID) : Sink :=
  sink_Connector (connector connectors cfg_ID).

Definition NewSource (cfg : SourceConfig.t) (connectors : gset ID) : Source + go_error :=
  if decide (SourceConfig.Type_ cfg = SourceTypeHTTP) then
    match HTTPSource.NewHTTPSource (SourceConfig.HTTP cfg) with
    | inl s => inl (src_HTTP s)
    | inr e => inr e
    end
  else if decide (SourceConfig.Type_ cfg = SourceTypeConnector) then
    inl (NewConnectorSource (SourceConfig.Connector_ID cfg) connectors)
  else if decide (SourceConfig.Type_ cfg = SourceTypeRedis) then
    inl (src_Redis (RedisLink.NewRedisSource (SourceConfig.Redis cfg)))
  else inr (Errorf "invalid source type: %s" [SourceConfig.Type_ cfg]).

Section sinks.
Context `{!SqlDB, !AWS}.

Definition NewSink (cfg : SinkConfig.t) (connectors : gset ID) : Sink + go_error :=
  let type := SinkConfig.Type_ cfg in
  if decide (type = SinkTypeConsole) then
    inl (sink_Log (LogSink.NewLogSink (SinkConfig.Console_Level cfg)))
  else if decide (type = SinkTypeConnector) then
    inl (NewConnectorSink (SinkConfig.Connector_ID cfg) connectors)
  else if decide (type = SinkTypeSSE) then inl (sink_SSE (SinkConfig.SSE cfg))
  else if decide (type = SinkTypeDatabase) then
    match DatabaseSink.NewDatabaseSink cfg with
    | inl s => inl (sink_Database s)
    | inr e => inr e
    end
  else if decide (type = SinkTypeParquet) then
    match ParquetSink.NewParquetSink cfg with
    | inl s => inl (sink_Parquet s)
    | inr e => inr e
    end
  else if decide (type = SinkTypeRedis) then 
    inl (sink_Redis (RedisLink.NewRedisSink (SinkConfig.Redis cfg)))
  else inr (Errorf "unknown sink type: %s" [type]).

(** ** State stores *)

Inductive Backend :=
| backend_InMemory (expiry : Z)
| backend_Redis (addr password : string) (db expiry : Z).

Definition NewStateStore (cfg : StateStoreConfig.t) : Backend :=
  if decide (StateStoreConfig.Type_ cfg = RedisStateStoreType) then
    backend_Redis (StateStoreConfig.Redis_Addr cfg) (StateStoreConfig.Redis_Password cfg)
      (StateStoreConfig.Redis_DB cfg) (StateStoreConfig.Redis_Expiry cfg)
  else backend_InMemory (StateStoreConfig.InMemory_Expiry cfg).

(** A store of the graph, shared by the pipelines that name it, or one that a
    processor made for itself. *)
Inductive Store :=
| Shared (id : ID) (b : Backend)
| Own (b : Backend).

(** ** Processors *)

Inductive Processor :=
| P_FeedMessage (agencyID : ID)
| P_VehiclePosition
| P_StopEvent (store : Store)
| P_DwellEvent (store : Store)
| P_HeadwayEvent (store : Store)
| P_TravelTime (store : Store).

#[export] Instance Backend_eq_dec : EqDecision Backend.
Proof. solve_decision. Defined.
#[export] Instance Store_eq_dec : EqDecision Store.
Proof. solve_decision. Defined.
#[export] Instance Processor_eq_dec : EqDecision Processor.
Proof. solve_decision. Defined.

(** The store a constructor settles on. *)
Definition store_or (expiry : Z) (store : option Store) : Store :=
  default (Own (backend_InMemory expiry)) store.

Definition NewFeedMessageProcessor (agencyID : ID) : Processor := P_FeedMessage agencyID.
Definition NewVehiclePositionEventProcessor : Processor := P_VehiclePosition.
Definition NewStopEventProcessor (store : option Store) : Processor :=
  P_StopEvent (store_or (2 * Hour) store).
Definition NewDwellEventProcessor (store : option Store) : Processor :=
  P_DwellEvent (store_or Hour store).
Definition NewHeadwayEventProcessor (store : option Store) : Processor :=
  P_HeadwayEvent (store_or (2 * Hour) store).
Definition NewTravelTimeEventProcessor (store : option Store) : Processor :=
  P_TravelTime (store_or (2 * Hour) store).

(** [None] is the nil processor. *)
Definition NewProcessor (agencyID : ID) (pipelineType : string) (store : option Store)
    : option Processor :=
  if decide (pipelineType = PipelineTypeFeedMessage) then
    Some (NewFeedMessageProcessor agencyID)
  else if decide (pipelineType = PipelineTypeVehiclePosition) then
    Some NewVehiclePositionEventProcessor
  else if decide (pipelineType = PipelineTypeStopEvent) then Some (NewStopEventProcessor store)
  else if decide (pipelineType = PipelineTypeDwellEvent) then Some (NewDwellEventProcessor store)
  else if decide (pipelineType = PipelineTypeHeadwayEvent) then
    Some (NewHeadwayEventProcessor store)
  else if decide (pipelineType = PipelineTypeTravelTime) then
    Some (NewTravelTimeEventProcessor store)
  else None.

(** What a processor does with an element. *)
Definition handle_of `{!ProtoLib, !Platform} (p : Processor) : any → prog :=
  match p with
  | P_FeedMessage agencyID => FeedMessageProcessor.handle agencyID
  | P_VehiclePosition => VehiclePositionEventProcessor.handle
  | P_StopEvent _ => StopEventProcessor.handle
  | P_DwellEvent _ => DwellEventProcessor.handle
  | P_HeadwayEvent _ => HeadwayEventProcessor.handle
  | P_TravelTime _ => TravelTimeEventProcessor.handle
  end.

(** ** Pipelines *)

Record Pipeline := mkPipeline {
  pipeline_ID : ID;
  agencyID : ID;
  pipelineType : string;
  sources : list Source;
  stateStore : option Store;
  sinks : list Sink;
  processor : option Processor;
}.

(** A loop that looks each identifier up, and stops at the first it misses. *)
Fixpoint lookup_all {A} (missing : ID → go_error) (byID : gmap ID A) (ids : list ID)
    : list A + go_error :=
  match ids with
  | [] => inl []
  | id :: ids =>
      match byID !! id with
      | None => inr (missing id)
      | Some x =>
          match lookup_all missing byID ids with
          | inl xs => inl (x :: xs)
          | inr e => inr e
          end
      end
  end.

Definition NewPipeline (cfg : PipelineConfig.t) (sourcesByID : gmap ID Source)
    (sinksByID : gmap ID Sink) (stateStoresByID : gmap ID Store) : Pipeline + go_error :=
  match lookup_all (λ id, Errorf "pipeline %q: source %q not found" [PipelineConfig.id cfg; id])
          sourcesByID (PipelineConfig.Sources cfg) with
  | inr e => inr e
  | inl pipelineSources =>
      let stateStore := stateStoresByID !! PipelineConfig.StateStore cfg in
      match lookup_all (λ id, Errorf "pipeline %q: sink %q not found" [PipelineConfig.id cfg; id])
              sinksByID (PipelineConfig.Sinks cfg) with
      | inr e => inr e
      | inl pipelineSinks =>
          inl {|
            pipeline_ID := PipelineConfig.id cfg;
            agencyID := PipelineConfig.AgencyID cfg;
            pipelineType := PipelineConfig.Type_ cfg;
            sources := pipelineSources;
            stateStore := stateStore;
            sinks := pipelineSinks;
            processor := NewProcessor (PipelineConfig.AgencyID cfg) (PipelineConfig.Type_ cfg) stateStore;
          |}
      end
  end.

(** ** The graph *)

Record t := mk { pipelines : list Pipeline; stateStores : list Store }.

(** A loop that builds a map from the entries of another, and stops at the first
    failure. *)
Fixpoint build_all {A B} (build : ID → A → B + go_error) (l : list (ID * A)) : gmap ID B + go_error :=
  match l with
  | [] => inl ∅
  | (id, x) :: l =>
      match build id x with
      | inr e => inr e
      | inl y =>
          match build_all build l with
          | inl m => inl (<[id := y]> m)
          | inr e => inr e
          end
      end
  end.

(** The same, collecting a list. *)
Fixpoint collect_all {A B} (build : A → B + go_error) (l : list (ID * A)) : list B + go_error :=
  match l with
  | [] => inl []
  | (_, x) :: l =>
      match build x with
      | inr e => inr e
      | inl y =>
          match collect_all build l with inl ys => inl (y :: ys) | inr e => inr e end
      end
  end.

(** The entries the first loop writes for a connector. *)
Definition connector_source (id : ID) : SourceConfig.t :=
  SourceConfig.mk "" SourceTypeConnector (HTTPSourceConfig.mk "" "") (BucketConfig.mk "" "") ""
    (RedisConfig.mk "" "" 0 "") id.
Definition connector_sink (id : ID) : SinkConfig.t :=
  SinkConfig.mk "" SinkTypeConnector 0 0 0 0 "" (BucketConfig.mk "" "") "" (RedisConfig.mk "" "" 0 "")
    (SSESinkConfig.mk "" "") id (DatabaseSinkConfig.mk "" "" "")
    (ParquetSinkConfig.mk "" "" "" "" "" "" "").

(** [cfg.Sources[connectorID] = ...; cfg.Sinks[connectorID] = ...] for every
    connector; [None] when a map is nil. *)
Fixpoint add_connectors (ids : list (ID * unit)) (srcs : gomap SourceConfig.t)
    (snks : gomap SinkConfig.t) : option (gomap SourceConfig.t * gomap SinkConfig.t) :=
  match ids with
  | [] => Some (srcs, snks)
  | (id, _) :: ids =>
      srcs ← srcs; snks ← snks;
      add_connectors ids (Some (<[id := connector_source id]> srcs))
        (Some (<[id := connector_sink id]> snks))
  end.

Context `{!MapOrder}.

(** [NewGraph] with no options, as [main] calls it. *)
Definition NewGraph (cfg : GraphConfig.t) : outcome t :=
  let connectors := dom (entries (GraphConfig.Connectors cfg)) in
  match add_connectors (iterate 0 _ (entries (GraphConfig.Connectors cfg)))
          (GraphConfig.Sources cfg) (GraphConfig.Sinks cfg) with
  | None => Panicked
  | Some (srcs, snks) =>
  match build_all (λ _ source, NewSource source connectors) (iterate 1 _ (entries srcs)) with
  | inr e => Failed e
  | inl sourcesByID =>
  match build_all (λ sinkID sinkCfg,
           wrap_error "sink %q: %w" [sinkID] (NewSink sinkCfg connectors)) (iterate 2 _ (entries snks)) with
  | inr e => Failed e
  | inl sinksByID =>
  let storeEntries := iterate 3 _ (entries (GraphConfig.StateStores cfg)) in
  let stateStoresByID :=
    list_to_map ((λ kv, (kv.1, Shared kv.1 (NewStateStore kv.2))) <$> storeEntries) in
  match collect_all (λ pipelineConfig, wrap_error "pipeline %q: %w" [PipelineConfig.id pipelineConfig]
           (NewPipeline pipelineConfig sourcesByID sinksByID stateStoresByID))
          (iterate 4 _ (entries (GraphConfig.Pipelines cfg))) with
  | inr e => Failed e
  | inl ps => Built (mk ps ((λ kv, Shared kv.1 (NewStateStore kv.2)) <$> storeEntries))
  end end end end.
End sinks.
End Graph.

Module GraphSpec.
Import Graph.

Section spec.
Context `{!SqlDB, !AWS, !MapOrder, !MapOrderOk}.

(** What an identifier stands for: a connector hides a source or sink of the
    same name. *)
Definition effective {A} (of_connector : ID → A) (connectors : gomap unit) (m : gomap A) (id : ID)
    : option A :=
  if decide (is_Some (lookup_map connectors id)) then Some (of_connector id) else lookup_map m id.

Definition channels (g : GraphConfig.t) : gset ID := dom (entries (GraphConfig.Connectors g)).

Definition source_for (g : GraphConfig.t) (id : ID) (s : Source) : Prop :=
  ∃ c, effective connector_source (GraphConfig.Connectors g) (GraphConfig.Sources g) id = Some c ∧
       NewSource c (channels g) = inl s.
Definition sink_for (g : GraphConfig.t) (id : ID) (s : Sink) : Prop :=
  ∃ c, effective connector_sink (GraphConfig.Connectors g) (GraphConfig.Sinks g) id = Some c ∧
       NewSink c (channels g) = inl s.

(** The store a pipeline is given: the one of that name, if there is one. *)
Definition store_for (g : GraphConfig.t) (id : ID) : option Store :=
  (λ c, Shared id (NewStateStore c)) <$> lookup_map (GraphConfig.StateStores g) id.

(** [pl] is the pipeline the configuration [p] describes. *)
Record built_from (g : GraphConfig.t) (p : PipelineConfig.t) (pl : Pipeline) : Prop := {
  b_id : pipeline_ID pl = PipelineConfig.id p;
  b_sources : Forall2 (source_for g) (PipelineConfig.Sources p) (sources pl);
  b_sinks : Forall2 (sink_for g) (PipelineConfig.Sinks p) (sinks pl);
  b_store : stateStore pl = store_for g (PipelineConfig.StateStore p);
  b_processor : processor pl =
    NewProcessor (PipelineConfig.AgencyID p) (PipelineConfig.Type_ p) (stateStore pl);
  b_running : is_Some (processor pl);
}.

Lemma add_connectors_writable ids srcs snks :
  ∃ srcs' snks', add_connectors ids (Some srcs) (Some snks) = Some (Some srcs', Some snks') ∧
    (∀ id, srcs' !! id = if decide (id ∈ ids.*1) then Some (connector_source id) else srcs !! id) ∧
    (∀ id, snks' !! id = if decide (id ∈ ids.*1) then Some (connector_sink id) else snks !! id).
Proof.
  revert srcs snks. induction ids as [|[id []] ids IH]; intros srcs snks.
  - by exists srcs, snks.
  - cbn. destruct (IH (<[id:=connector_source id]> srcs) (<[id:=connector_sink id]> snks))
      as (srcs' & snks' & Hadd & Hs & Hk).
    exists srcs', snks'. split_and!; [done|..]; intros id'; rewrite ?Hs, ?Hk;
      (destruct (decide (id' ∈ ids.*1)) as [Hin|Hin];
        [by rewrite decide_True by (by apply list_elem_of_further)|]);
      destruct (decide (id' = id)) as [->|Hne];
      rewrite ?lookup_insert_eq, ?lookup_insert_ne by done;
      try (by rewrite decide_True by (apply list_elem_of_here));
      by rewrite decide_False by (by rewrite elem_of_cons; intros [?|?]).
Qed.

Lemma build_all_ok {A B} (build : ID → A → B + go_error) (l : list (ID * A)) :
  NoDup l.*1 → (∀ id x, (id, x) ∈ l → ∃ y, build id x = inl y) →
  ∃ m, build_all build l = inl m ∧
    ∀ id x, (id, x) ∈ l → ∃ y, m !! id = Some y ∧ build id x = inl y.
Proof.
  induction l as [|[id x] l IH]; intros Hnd Hall; cbn.
  - exists ∅. split; [done|]. by intros id x ?%not_elem_of_nil.
  - apply NoDup_cons in Hnd as [Hid Hnd].
    destruct (Hall id x (list_elem_of_here _ _)) as [y Hy]. rewrite Hy.
    destruct IH as (m & -> & Hm); [done|by intros; apply Hall, list_elem_of_further|].
    eexists. split; [done|]. intros id' x' [Heq|Hin]%elem_of_cons.
    + simplify_eq. exists y. by rewrite lookup_insert_eq.
    + rewrite lookup_insert_ne; [by apply Hm|]. intros ->. apply Hid.
      apply list_elem_of_fmap. by exists (id', x').
Qed.

Lemma lookup_all_ok {A} missing (byID : gmap ID A) (P : ID → A → Prop) ids :
  Forall (λ id, ∃ x, byID !! id = Some x ∧ P id x) ids →
  ∃ xs, lookup_all missing byID ids = inl xs ∧ Forall2 P ids xs.
Proof.
  induction 1 as [|id ids (x & Hx & HP) _ (xs & Hxs & Hall)]; cbn; [by exists []|].
  rewrite Hx, Hxs. exists (x :: xs). split; [done|by constructor].
Qed.

Lemma collect_all_ok {A B} (build : A → B + go_error) (P : A → B → Prop) (l : list (ID * A)) :
  Forall (λ kv, ∃ y, build kv.2 = inl y ∧ P kv.2 y) l →
  ∃ ys, collect_all build l = inl ys ∧ Forall2 (λ kv y, P kv.2 y) l ys.
Proof.
  induction 1 as [|[id x] l (y & Hy & HP) _ (ys & Hys & Hall)]; cbn; [by exists []|].
  cbn in Hy. rewrite Hy, Hys. exists (y :: ys). split; [done|by constructor].
Qed.

Lemma iterate_keys {A} n (m : gmap ID A) : NoDup (iterate n A m).*1.
Proof. rewrite iterate_perm. apply NoDup_fst_map_to_list. Qed.

(** An HTTP source that passed [Validate] can be built. *)
Lemma NewSource_ok src connectors :
  ConfigSpec.source_ok src →
  SourceConfig.Type_ src ∈ [SourceTypeHTTP; SourceTypeConnector; SourceTypeRedis] →
  ∃ s, NewSource src connectors = inl s.
Proof.
  unfold ConfigSpec.source_ok, NewSource, HTTPSource.NewHTTPSource.
  rewrite !elem_of_cons, elem_of_nil. intros Hok Hty.
  case_decide; [destruct Hok as (_ & d & ->); [done|]; by eexists|].
  case_decide; [by eexists|]. case_decide; [by eexists|]. tauto.
Qed.

Lemma NewProcessor_valid agencyID type store :
  validPipelineTypes type = true → is_Some (NewProcessor agencyID type store).
Proof.
  unfold validPipelineTypes, NewProcessor. rewrite bool_decide_eq_true, !elem_of_cons, elem_of_nil.
  intros Hty. repeat (case_decide; [by eexists|]). tauto.
Qed.

(** The maps the connectors are written to are there, if there are connectors. *)
Definition writable (g : GraphConfig.t) : Prop :=
  entries (GraphConfig.Connectors g) = ∅ ∨
  is_Some (GraphConfig.Sources g) ∧ is_Some (GraphConfig.Sinks g).

Lemma elem_of_keys {A} n (m : gomap A) id :
  id ∈ (iterate n A (entries m)).*1 ↔ is_Some (lookup_map m id).
Proof.
  rewrite list_elem_of_fmap. split.
  - intros ([id' x] & -> & Hin). exists x. by apply ConfigSpec.elem_of_iterate in Hin.
  - intros [x Hx]. exists (id, x). split; [done|]. by apply ConfigSpec.elem_of_iterate.
Qed.

Lemma add_connectors_effective g :
  writable g → ∃ srcs snks,
    add_connectors (iterate 0 _ (entries (GraphConfig.Connectors g)))
      (GraphConfig.Sources g) (GraphConfig.Sinks g) = Some (srcs, snks) ∧
    (∀ id, lookup_map srcs id =
       effective connector_source (GraphConfig.Connectors g) (GraphConfig.Sources g) id) ∧
    (∀ id, lookup_map snks id =
       effective connector_sink (GraphConfig.Connectors g) (GraphConfig.Sinks g) id).
Proof.
  intros [He|[[srcs Hsrcs] [snks Hsnks]]].
  - exists (GraphConfig.Sources g), (GraphConfig.Sinks g).
    assert (∀ id, ¬ is_Some (lookup_map (GraphConfig.Connectors g) id)) as Hno.
    { intros id [x Hx]. apply (ConfigSpec.elem_of_iterate 0) in Hx. rewrite He, iterate_perm in Hx.
      rewrite map_to_list_empty in Hx. by apply not_elem_of_nil in Hx. }
    assert (iterate 0 _ (entries (GraphConfig.Connectors g)) = []) as ->.
    { apply Permutation_nil_r. rewrite iterate_perm, He. by rewrite map_to_list_empty. }
    split_and!; [done|..]; intros id; unfold effective; by rewrite decide_False by apply Hno.
  - destruct (add_connectors_writable (iterate 0 _ (entries (GraphConfig.Connectors g))) srcs snks)
      as (srcs' & snks' & Hadd & Hs & Hk).
    exists (Some srcs'), (Some snks'). rewrite Hsrcs, Hsnks.
    split_and!; [done|..]; intros id; unfold effective; cbn; rewrite ?Hs, ?Hk;
      destruct (decide (is_Some (lookup_map (GraphConfig.Connectors g) id))) as [Hin|Hin];
      rewrite <- (elem_of_keys 0) in Hin; by rewrite ?decide_True, ?decide_False by done.
Qed.

(** Every source is of a type the program has and every sink can be built, but for
    those that a connector of the same name hides. *)
Definition sources_known (g : GraphConfig.t) : Prop :=
  ∀ id src, lookup_map (GraphConfig.Sources g) id = Some src →
    ¬ is_Some (lookup_map (GraphConfig.Connectors g) id) →
    SourceConfig.Type_ src ∈ [SourceTypeHTTP; SourceTypeConnector; SourceTypeRedis].
Definition sinks_built (g : GraphConfig.t) : Prop :=
  ∀ id snk, lookup_map (GraphConfig.Sinks g) id = Some snk →
    ¬ is_Some (lookup_map (GraphConfig.Connectors g) id) → ∃ s, NewSink snk (channels g) = inl s.

Lemma effective_source g id src :
  ConfigSpec.well_formed g → sources_known g →
  effective connector_source (GraphConfig.Connectors g) (GraphConfig.Sources g) id = Some src →
  ∃ s, NewSource src (channels g) = inl s.
Proof.
  intros [Hok _] Hknown. unfold effective. case_decide; [intros [= <-]; by eexists|].
  intros Hsrc. apply NewSource_ok; eauto.
Qed.

Lemma effective_sink g id snk :
  sinks_built g →
  effective connector_sink (GraphConfig.Connectors g) (GraphConfig.Sinks g) id = Some snk →
  ∃ s, NewSink snk (channels g) = inl s.
Proof.
  intros Hb. unfold effective. case_decide; [intros [= <-]; by eexists|]. intros Hs. by eapply Hb.
Qed.

Lemma names_effective {A} (f : ID → A) m c id :
  ConfigSpec.names m c id → is_Some (effective f c m id).
Proof. unfold ConfigSpec.names, effective. case_decide; [by eexists|]. tauto. Qed.

(** What was built by the loops over sources and sinks, for a name a pipeline
    may use. *)
Lemma built_lookup {A B} n (build : A → B + go_error) (m : gomap A) (byID : gmap ID B) eff id :
  (∀ id, lookup_map m id = eff id) →
  (∀ id x, (id, x) ∈ iterate n A (entries m) → ∃ y, byID !! id = Some y ∧ build x = inl y) →
  is_Some (eff id) → ∃ y, byID !! id = Some y ∧ ∃ c, eff id = Some c ∧ build c = inl y.
Proof.
  intros Hm Hall [c Hc]. destruct (Hall id c) as (y & Hy & Hb).
  { apply ConfigSpec.elem_of_iterate. by rewrite Hm. }
  exists y. split; [done|]. by exists c.
Qed.

Lemma stores_lookup n (m : gomap StateStoreConfig.t) id :
  (list_to_map ((λ kv : ID * StateStoreConfig.t, (kv.1, Shared kv.1 (NewStateStore kv.2)))
    <$> iterate n _ (entries m)) : gmap ID Store) !! id
  = (λ c, Shared id (NewStateStore c)) <$> lookup_map m id.
Proof.
  assert (NoDup ((λ kv : ID * StateStoreConfig.t, (kv.1, Shared kv.1 (NewStateStore kv.2)))
    <$> iterate n _ (entries m)).*1) as Hnd.
  { rewrite <- list_fmap_compose.
    rewrite (list_fmap_ext (fst ∘ _) fst) by done. apply iterate_keys. }
  destruct (lookup_map m id) as [c|] eqn:Hc; cbn.
  - apply elem_of_list_to_map_1; [done|]. apply list_elem_of_fmap. exists (id, c).
    split; [done|]. by apply ConfigSpec.elem_of_iterate.
  - apply not_elem_of_list_to_map_1. rewrite <- list_fmap_compose.
    rewrite (list_fmap_ext (fst ∘ _) fst) by done. intros Hin. apply elem_of_keys in Hin as [x Hx].
    congruence.
Qed.

(** An entry whose names were all built becomes a pipeline. *)
Lemma NewPipeline_ok g p sourcesByID sinksByID stores :
  ConfigSpec.pipeline_ok g p →
  (∀ id, stores !! id = (λ c, Shared id (NewStateStore c)) <$>
                          lookup_map (GraphConfig.StateStores g) id) →
  (∀ id, ConfigSpec.names (GraphConfig.Sources g) (GraphConfig.Connectors g) id →
     ∃ s, sourcesByID !! id = Some s ∧ source_for g id s) →
  (∀ id, ConfigSpec.names (GraphConfig.Sinks g) (GraphConfig.Connectors g) id →
     ∃ k, sinksByID !! id = Some k ∧ sink_for g id k) →
  ∃ pl, NewPipeline p sourcesByID sinksByID stores = inl pl ∧ built_from g p pl.
Proof.
  intros (Hty & _ & _ & Hns & Hnk) Hst Hss Hks. unfold NewPipeline.
  destruct (lookup_all_ok (λ id, Errorf "pipeline %q: source %q not found" [PipelineConfig.id p; id])
    sourcesByID (source_for g) (PipelineConfig.Sources p)) as (ss & -> & Hss');
    [by eapply Forall_impl|].
  destruct (lookup_all_ok (λ id, Errorf "pipeline %q: sink %q not found" [PipelineConfig.id p; id])
    sinksByID (sink_for g) (PipelineConfig.Sinks p)) as (ks & -> & Hks');
    [by eapply Forall_impl|].
  eexists. split; [done|]. split; try done; [apply Hst|by apply NewProcessor_valid].
Qed.

Lemma valid_builds g :
  Validate g = None → writable g → sources_known g → sinks_built g →
  ∃ gr, NewGraph g = Built gr ∧
    ∃ ps, ps ≡ₚ map_to_list (entries (GraphConfig.Pipelines g)) ∧
      Forall2 (λ kv pl, built_from g kv.2 pl) ps (pipelines gr).
Proof.
  intros Hv Hw Hsrc Hsnk. apply ConfigSpec.validate_None in Hv as Hwf.
  destruct (add_connectors_effective g Hw) as (srcs & snks & Hadd & Hs & Hk).
  unfold NewGraph. rewrite Hadd. fold (channels g).
  destruct (build_all_ok (λ _ source, NewSource source (channels g)) (iterate 1 _ (entries srcs)))
    as (sourcesByID & -> & Hsrcs); [apply iterate_keys| |].
  { intros id src Hin%ConfigSpec.elem_of_iterate. rewrite Hs in Hin. by eapply effective_source. }
  destruct (build_all_ok (λ sinkID sinkCfg, wrap_error "sink %q: %w" [sinkID]
      (NewSink sinkCfg (channels g))) (iterate 2 _ (entries snks)))
    as (sinksByID & -> & Hsnks); [apply iterate_keys| |].
  { intros id snk Hin%ConfigSpec.elem_of_iterate. rewrite Hk in Hin. setoid_rewrite wrap_error_inl.
    by eapply effective_sink. }
  set (stores := list_to_map _).
  destruct (collect_all_ok (λ p, wrap_error "pipeline %q: %w" [PipelineConfig.id p]
      (NewPipeline p sourcesByID sinksByID stores)) (built_from g)
    (iterate 4 _ (entries (GraphConfig.Pipelines g)))) as (ps & -> & Hps).
  { apply ConfigSpec.Forall_iterate. intros id p Hp. destruct Hwf as [_ Hwf].
    setoid_rewrite wrap_error_inl.
    apply NewPipeline_ok; [by eapply Hwf|apply stores_lookup|..]; intros n Hn.
    - apply (built_lookup 1 (λ c, NewSource c (channels g)) srcs sourcesByID _ n Hs Hsrcs).
      by apply names_effective.
    - apply (built_lookup 2 (λ c, NewSink c (channels g)) snks sinksByID _ n Hk);
        [|by apply names_effective].
      intros k c Hkc. destruct (Hsnks k c Hkc) as (y & ? & ?%wrap_error_inl). eauto. }
  eexists. split; [done|]. eexists. split; [|exact Hps]. apply iterate_perm.
Qed.

(** A graph that was built has all its sources and sinks. *)
Lemma build_all_inl {A B} (build : ID → A → B + go_error) l m id x :
  build_all build l = inl m → (id, x) ∈ l → ∃ y, build id x = inl y.
Proof.
  revert m. induction l as [|[id' x'] l IH]; intros m Hm Hin; [by apply not_elem_of_nil in Hin|].
  cbn in Hm. destruct (build id' x') as [y|] eqn:Hy; [|done].
  destruct (build_all build l) as [m'|]; [|done].
  apply elem_of_cons in Hin as [[= -> ->]|Hin]; [by exists y|by eapply IH].
Qed.

Lemma NewSource_inl src connectors s :
  NewSource src connectors = inl s →
  SourceConfig.Type_ src ∈ [SourceTypeHTTP; SourceTypeConnector; SourceTypeRedis].
Proof.
  unfold NewSource. rewrite !elem_of_cons. case_decide; [by auto|]. case_decide; [by auto|].
  case_decide; [by auto|done].
Qed.

Lemma add_connectors_panics ids srcs snks :
  add_connectors ids srcs snks = None ↔ ids ≠ [] ∧ (srcs = None ∨ snks = None).
Proof.
  destruct ids as [|[id []] ids]; [cbn; split; [done|by intros []]|]. cbn.
  destruct srcs as [srcs|], snks as [snks|]; cbn; [|by intuition..].
  destruct (add_connectors_writable ids (<[id:=connector_source id]> srcs)
    (<[id:=connector_sink id]> snks)) as (? & ? & -> & _).
  split; [done|by intros [_ []]].
Qed.

Lemma panics_iff g : NewGraph g = Panicked ↔ ¬ writable g.
Proof.
  assert (NewGraph g = Panicked ↔
    add_connectors (iterate 0 _ (entries (GraphConfig.Connectors g)))
      (GraphConfig.Sources g) (GraphConfig.Sinks g) = None) as ->.
  { unfold NewGraph. destruct (add_connectors _ _ _) as [[srcs snks]|]; [|done].
    destruct (build_all _ _); [|done]. destruct (build_all _ _); [|done].
    by destruct (collect_all _ _). }
  rewrite add_connectors_panics. unfold writable. split.
  - intros [Hids Hnil] [He|[[? Hs] [? Hk]]]; [|destruct Hnil; congruence].
    apply Hids, Permutation_nil_r. rewrite iterate_perm, He. by rewrite map_to_list_empty.
  - intros Hw. split.
    + intros Hids. apply Hw. left. apply map_to_list_empty_iff, Permutation_nil_r.
      by rewrite <- (iterate_perm 0), Hids.
    + destruct (GraphConfig.Sources g); [|by left]. destruct (GraphConfig.Sinks g); [|by right].
      destruct Hw. right. split; by eexists.
Qed.

#[export] Instance writable_dec g : Decision (writable g).
Proof. unfold writable. apply _. Defined.

Lemma built_ends g gr :
  NewGraph g = Built gr → writable g ∧ sources_known g ∧ sinks_built g.
Proof.
  intros Hgr. destruct (decide (writable g)) as [Hw|Hw]; cycle 1.
  { exfalso. apply panics_iff in Hw. congruence. }
  unfold NewGraph in Hgr.
  destruct (add_connectors_effective g Hw) as (srcs & snks & Hadd & Hsrc & Hsnk).
  rewrite Hadd in Hgr. fold (channels g) in Hgr.
  destruct (build_all _ (iterate 1 _ _)) eqn:Hs; [|done].
  destruct (build_all _ (iterate 2 _ _)) eqn:Hk; [|done]. split_and!; [done|..].
  - intros id src Hid Hno.
    destruct (build_all_inl _ _ _ id src Hs) as [s Hbs]; [|by eapply NewSource_inl].
    apply ConfigSpec.elem_of_iterate. rewrite Hsrc. unfold effective. by rewrite decide_False.
  - intros id snk Hid Hno.
    destruct (build_all_inl _ _ _ id snk Hk) as [k Hbk%wrap_error_inl]; [|by exists k].
    apply ConfigSpec.elem_of_iterate. rewrite Hsnk. unfold effective. by rewrite decide_False.
Qed.

(** C22: What a configuration that passes [Validate] still needs to become a graph:
    that there are maps to write its connectors to, that its sources are of the types
    the program has, and that its sinks can be built, where a source or sink whose name
    a connector has does not count.  With exactly these [NewGraph] builds it, so that
    no name an entry uses can fail to resolve; and the graph then has one pipeline per
    entry of the configuration, connected to what the entry names, with the processor
    of its type. *)
Theorem valid_config_builds g :
  Validate g = None →
  ((∃ gr, NewGraph g = Built gr) ↔ writable g ∧ sources_known g ∧ sinks_built g) ∧
  ∀ gr, NewGraph g = Built gr →
    ∃ ps, ps ≡ₚ map_to_list (entries (GraphConfig.Pipelines g)) ∧
      Forall2 (λ kv pl, built_from g kv.2 pl) ps (pipelines gr).
Proof.
  intros Hv. split; [split|].
  - intros [gr Hgr]. by eapply built_ends.
  - intros (Hw & Hs & Hk). destruct (valid_builds g Hv Hw Hs Hk) as (gr & Hgr & _). by exists gr.
  - intros gr Hgr. destruct (built_ends g gr Hgr) as (Hw & Hs & Hk).
    destruct (valid_builds g Hv Hw Hs Hk) as (gr' & Hgr' & Hps).
    rewrite Hgr in Hgr'. by injection Hgr' as <-.
Qed.

(** C36: [NewGraph] panics exactly when the configuration has connectors but no
    [sources] or no [sinks] map to put them in. *)
Theorem graph_panics_iff g : NewGraph g = Panicked ↔ ¬ writable g.
Proof. apply panics_iff. Qed.

(** A connector links pipelines: as a source and as a sink its name stands for
    the two ends of the same channel, also when the configuration has a source or
    sink of that name. *)
Lemma connector_links g id :
  is_Some (lookup_map (GraphConfig.Connectors g) id) →
  (∀ s, source_for g id s ↔ s = src_Connector (Some id)) ∧
  (∀ k, sink_for g id k ↔ k = sink_Connector (Some id)).
Proof.
  intros Hid. unfold source_for, sink_for, effective.
  assert (id ∈ channels g) as Hch.
  { unfold channels. apply elem_of_dom. revert Hid. unfold lookup_map, entries.
    by destruct (GraphConfig.Connectors g); cbn; [|intros []]. }
  assert (NewSource (connector_source id) (channels g) = inl (src_Connector (Some id))) as Hs
    by (change (inl (src_Connector (connector (channels g) id)) =
                inl (src_Connector (Some id)) :> Source + go_error);
        unfold connector; by rewrite decide_True by done).
  assert (NewSink (connector_sink id) (channels g) = inl (sink_Connector (Some id))) as Hk
    by (change (inl (sink_Connector (connector (channels g) id)) =
                inl (sink_Connector (Some id)) :> Sink + go_error);
        unfold connector; by rewrite decide_True by done).
  split; intros x; rewrite decide_True by done;
    (split; [intros (c & [= <-] & Hb); congruence|intros ->; by eexists]).
Qed.

(** The store a processor keeps its state in. *)
Definition store_of (p : Processor) : option Store :=
  match p with
  | P_FeedMessage _ | P_VehiclePosition => None
  | P_StopEvent st | P_DwellEvent st | P_HeadwayEvent st | P_TravelTime st => Some st
  end.

(** A pipeline whose state store is declared shares that store with the other
    pipelines that name it; one whose state store is not declared is not an
    error: its processor keeps its state in a store of its own, in memory, for an
    hour at least. *)
Theorem store_of_pipeline g p pl proc st :
  built_from g p pl → processor pl = Some proc → store_of proc = Some st →
  match lookup_map (GraphConfig.StateStores g) (PipelineConfig.StateStore p) with
  | Some c => st = Shared (PipelineConfig.StateStore p) (NewStateStore c)
  | None => ∃ expiry, st = Own (backend_InMemory expiry) ∧ Hour ≤ expiry
  end.
Proof.
  intros Hb Hproc Hst. destruct Hb as [_ _ _ Hs Hp _]. rewrite Hproc, Hs in Hp. unfold store_for in Hp.
  unfold NewProcessor in Hp.
  repeat case_decide; simplify_eq; cbn in Hst; simplify_eq;
    destruct (lookup_map _ _); cbn; try done; eexists; split; try done; unfold Hour; lia.
Qed.
End spec.

(** *** Concrete configurations *)

Section witnesses.
Local Instance up : SqlDB := {| sql_Open _ _ := None; PingContext _ _ := None |}.
Local Instance aws : AWS := {| LoadDefaultConfig _ _ := None |}.

Definition sample_pipeline (type : string) (from to : ID) : PipelineConfig.t :=
  PipelineConfig.mk type "MBTA" type [from] "undeclared" [to].

Definition sample_source : SourceConfig.t :=
  SourceConfig.mk "feed" "http" (HTTPSourceConfig.mk "http://x" "1s") (BucketConfig.mk "" "") ""
    (RedisConfig.mk "" "" 0 "") "".
Definition sample_sink : SinkConfig.t :=
  SinkConfig.mk "console" "console" 0 0 0 0 "info" (BucketConfig.mk "" "") ""
    (RedisConfig.mk "" "" 0 "") (SSESinkConfig.mk "" "") "" (DatabaseSinkConfig.mk "" "" "")
    (ParquetSinkConfig.mk "" "" "" "" "" "" "").

(** Two pipelines connected by "c". *)
Definition sample_config : GraphConfig.t := GraphConfig.mk
  (Some {["feed" := sample_source]}) None (Some {["c" := tt]}) (Some {["console" := sample_sink]})
  (Some (<["vp" := sample_pipeline "vehicle_position" "c" "console"]>
         {["fm" := sample_pipeline "feed_message" "feed" "c"]})).

(** A configuration whose only source and sink is a connector. *)
Definition loop_config : GraphConfig.t := GraphConfig.mk None None (Some {["c" := tt]}) None
  (Some {["p" := sample_pipeline "stop_event" "c" "c"]}).

Lemma valid_config_builds_witness :
  (∃ gr, NewGraph sample_config = Built gr) ∧
  ∀ gr, NewGraph sample_config = Built gr → ∃ ps, ps ≡ₚ map_to_list (entries (GraphConfig.Pipelines sample_config)) ∧
    Forall2 (λ kv pl, built_from sample_config kv.2 pl) ps (pipelines gr).
Proof.
  destruct (valid_config_builds sample_config) as [Hiff Hps]; [by vm_compute|]. split; [|exact Hps].
  apply Hiff. split_and!.
  - right. split; by eexists.
  - intros id src. cbn. intros [<- <-]%lookup_singleton_Some _. apply list_elem_of_here.
  - intros id snk. cbn. intros [<- <-]%lookup_singleton_Some _. by eexists.
Defined.

Lemma graph_panics_iff_witness : Validate loop_config = None ∧ NewGraph loop_config = Panicked.
Proof.
  split; [by vm_compute|]. apply graph_panics_iff.
  intros [He|[[? Hs] _]]; [|done]. by vm_compute in He.
Defined.

Lemma connector_links_witness :
  source_for sample_config "c" (src_Connector (Some "c")) ∧
  sink_for sample_config "c" (sink_Connector (Some "c")).
Proof. split; apply (connector_links sample_config "c"); done || by eexists. Defined.

Lemma store_of_pipeline_witness : ∃ expiry,
  store_or (2 * Hour) None = Own (backend_InMemory expiry) ∧ Hour ≤ expiry.
Proof.
  set (g := GraphConfig.mk (Some ∅) None (Some {["c" := tt]}) (Some ∅) None).
  apply (store_of_pipeline g (sample_pipeline "stop_event" "c" "c")
    (mkPipeline "stop_event" "MBTA" "stop_event" [src_Connector (Some "c")] None
       [sink_Connector (Some "c")] (Some (NewStopEventProcessor None)))
    (NewStopEventProcessor None)); [|done|done].
  split; [done| | |done|done|by eexists].
  - apply Forall2_cons. split; [by exists (connector_source "c")|by apply Forall2_nil].
  - apply Forall2_cons. split; [by exists (connector_sink "c")|by apply Forall2_nil].
Defined.
End witnesses.
End GraphSpec.
