(* ===== verification/SharedStore.v ===== *)
(** * Processors that share a state store

    Pipelines that name the same declared store get the same object, and the
    goroutines of their processors use it at the same time; every call on the
    in-memory store takes its lock, so the calls are interleaved one by one.
    Processors whose keys do not overlap do not notice each other. *)
From stdpp Require Import relations.
From S2P Require Import Prelude GoTime Events StateStore Proc.
From S2P Require Import StopEvents Metrics DwellEvents HeadwayEvents TravelTimeEvents.
From S2P Require Import DbSink ParquetSink Endpoints Graph.

Import InMemory.

(** ** Programs that use some keys only *)

Fixpoint touches (K : string → Prop) (p : prog) : Prop :=
  match p with
  | Return => True
  | store_Get k _ c => K k ∧ ∀ m f, touches K (c m f)
  | store_Set k _ _ c => K k ∧ ∀ err, touches K (c err)
  | store_Delete k c => K k ∧ touches K c
  | chan_Send _ c => touches K c
  end.

(** The part of a store under the keys [K]. *)
Definition part (K : string → Prop) `{!∀ k, Decision (K k)} (s : InMemoryStateStore)
    : InMemoryStateStore :=
  mkStore (ttl s) (filter (λ kv, K kv.1) (states s)) (done_closed s).

Section part.
Context (K : string → Prop) `{!∀ k, Decision (K k)}.
Implicit Types s : InMemoryStateStore.

Lemma lookup_part s k : K k → states (part K s) !! k = states s !! k.
Proof.
  intros Hk. cbn. destruct (states s !! k) as [st|] eqn:Hs.
  - by apply map_lookup_filter_Some.
  - apply map_lookup_filter_None. by left.
Qed.

Lemma part_get now k new s : K k → get now k new (part K s) = get now k new s.
Proof. intros Hk. unfold get. by rewrite lookup_part. Qed.

Lemma part_set now k m d s :
  K k → set now k m d (part K s) = ((set now k m d s).1, part K (set now k m d s).2).
Proof.
  intros Hk. unfold set, part. cbn. f_equal. f_equal. by rewrite map_filter_insert_True.
Qed.

Lemma part_delete now k s : part K (delete now k s) = delete now k (part K s).
Proof. unfold part, delete. cbn. f_equal. by rewrite map_filter_delete. Qed.

(** Calls under other keys do not change the part. *)
Lemma part_set_other now k m d s : ¬ K k → part K (set now k m d s).2 = part K s.
Proof.
  intros Hk. unfold set, part. cbn. f_equal.
  rewrite map_filter_insert_False by done. by rewrite map_filter_delete_not; [|intros; cbn].
Qed.

Lemma part_delete_other now k s : ¬ K k → part K (delete now k s) = part K s.
Proof. intros Hk. unfold part, delete. cbn. f_equal. by rewrite map_filter_delete_not; [|intros; cbn]. Qed.

(** A processor alone works on its part only. *)
Lemma exec_part clk i p s :
  touches K p → exec clk i p (part K s) = (part K (exec clk i p s).1, (exec clk i p s).2).
Proof.
  revert i s. induction p as [|k new c IH|k m d c IH|k c IH|x c IH]; intros i s;
    cbn [exec touches Get Set_ Delete in_memory]; [done|..].
  - intros [Hk Hc]. rewrite part_get by done. destruct (get _ _ _ s). by apply IH.
  - intros [Hk Hc]. rewrite part_set by done. destruct (set _ _ _ _ s). by apply IH.
  - intros [Hk Hc]. rewrite <- part_delete. by apply IH.
  - intros Hc. rewrite IH by done. by destruct (exec clk i c s).
Qed.
End part.

(** ** Interleaved calls *)

Record worker := mkWorker {
  todo : list arrival;                       (* elements still to take *)
  current : option (arrival * nat * prog);   (* the handling under way *)
  sent : list any;
}.

(** One step of a worker: it takes an element, makes one call on the store, sends,
    or is done with an element. *)
Inductive call (handle : any → prog)
    : worker → InMemoryStateStore → worker → InMemoryStateStore → Prop :=
| w_take a td xs s :
    call handle (mkWorker (a :: td) None xs) s (mkWorker td (Some (a, 0%nat, handle (what a))) xs) s
| w_Get a i k new c td xs s m f :
    get (clock a i) k new s = (m, f) →
    call handle (mkWorker td (Some (a, i, store_Get k new c)) xs) s
      (mkWorker td (Some (a, (i + 1)%nat, c m f)) xs) s
| w_Set a i k m d c td xs s err s' :
    set (clock a i) k m d s = (err, s') →
    call handle (mkWorker td (Some (a, i, store_Set k m d c)) xs) s
      (mkWorker td (Some (a, (i + 1)%nat, c err)) xs) s'
| w_Delete a i k c td xs s :
    call handle (mkWorker td (Some (a, i, store_Delete k c)) xs) s
      (mkWorker td (Some (a, (i + 1)%nat, c)) xs) (delete (clock a i) k s)
| w_Send a i x c td xs s :
    call handle (mkWorker td (Some (a, i, chan_Send x c)) xs) s
      (mkWorker td (Some (a, i, c)) (xs ++ [x])) s
| w_return a i td xs s :
    call handle (mkWorker td (Some (a, i, Return)) xs) s (mkWorker td None xs) s.

(** What a worker would still send if it had the store for itself. *)
Definition ahead (handle : any → prog) (w : worker) (s : InMemoryStateStore) : list any :=
  match current w with
  | Some (a, i, p) =>
      let '(s1, xs) := exec (clock a) i p s in xs ++ outputs handle (todo w) s1
  | None => outputs handle (todo w) s
  end.

Lemma outputs_cons handle a ins (s : InMemoryStateStore) :
  outputs handle (a :: ins) s =
    let '(s1, xs) := exec (clock a) 0 (handle (what a)) s in xs ++ outputs handle ins s1.
Proof.
  unfold outputs. cbn [run]. destruct (exec _ _ _ s) as [s1 xs]. by destruct (run handle ins s1).
Qed.

Lemma call_ahead handle w s w' s' :
  call handle w s w' s' → sent w' ++ ahead handle w' s' = sent w ++ ahead handle w s.
Proof.
  destruct 1 as [a td xs s|a i k new c td xs s m f Hg|a i k m d c td xs s err s' Hs| |a i x c td xs s|];
    unfold ahead; cbn [current todo sent exec Get Set_ Delete in_memory].
  - by rewrite outputs_cons.
  - by rewrite Hg.
  - by rewrite Hs.
  - done.
  - destruct (exec (clock a) i c s). by rewrite <- app_assoc.
  - done.
Qed.

(** The keys a worker may still use. *)
Definition confined (K : string → Prop) (handle : any → prog) (w : worker) : Prop :=
  Forall (λ a, touches K (handle (what a))) (todo w) ∧
  match current w with Some (_, _, p) => touches K p | None => True end.

Lemma call_confined K handle w s w' s' :
  call handle w s w' s' → confined K handle w → confined K handle w'.
Proof.
  destruct 1; unfold confined; cbn [current todo touches]; rewrite ?Forall_cons; intuition.
Qed.

Section confined.
Context (K : string → Prop) `{!∀ k, Decision (K k)}.

(** Calls of a confined worker are calls on its part of the store. *)
Lemma call_part handle w s w' s' :
  call handle w s w' s' → confined K handle w → call handle w (part K s) w' (part K s').
Proof.
  destruct 1 as [a td xs s|a i k new c td xs s m f Hg|a i k m d c td xs s err s' Hs|a i k c td xs s| |];
    unfold confined; cbn [current touches]; intros [_ Hc]; try by constructor.
  - constructor. by rewrite part_get by tauto.
  - constructor. rewrite part_set by tauto. by rewrite Hs.
  - rewrite part_delete. constructor.
Qed.

(** Calls of a worker that is confined elsewhere leave the part alone. *)
Lemma call_other (K' : string → Prop) handle w s w' s' :
  call handle w s w' s' → confined K' handle w → (∀ k, K' k → ¬ K k) → part K s' = part K s.
Proof.
  destruct 1 as [a td xs s|a i k new c td xs s m f Hg|a i k m d c td xs s err s' Hs|a i k c td xs s| |];
    unfold confined; cbn [current touches]; intros [_ Hc] HK; try done.
  - assert (s' = (set (clock a i) k m d s).2) as -> by by rewrite Hs.
    apply part_set_other, HK, Hc.
  - apply part_delete_other, HK, Hc.
Qed.
End confined.

(** ** Several processors on one store *)

(** How many dashes there are in a string. *)
Fixpoint dashes (s : string) : nat :=
  match s with
  | EmptyString => 0
  | String c s => (if decide (c = dash) then 1 else 0) + dashes s
  end.

Lemma dashes_app a b : dashes (a +:+ b) = (dashes a + dashes b)%nat.
Proof.
  induction a as [|c a IH]; [done|]. change (String c a +:+ b) with (String c (a +:+ b)).
  cbn [dashes]. rewrite IH. lia.
Qed.

Lemma dashes_dash : dashes "-" = 1%nat.
Proof. by vm_compute. Qed.

Lemma dash_free_dashes s : dash_free s → dashes s = 0%nat.
Proof.
  unfold dash_free. induction s as [|c s IH]; [done|]. cbn.
  rewrite orb_false_iff, bool_decide_eq_false. intros [Hc Hs]. rewrite decide_False by done. auto.
Qed.

(** Processors with what they are to take, by number. *)
Abbreviation clients := (list (Graph.Processor * list arrival)).

Section sharing.
Context `{!ProtoLib, !Platform}.
Import Graph.

(** The number of dashes in the keys of each processor, when identifiers have
    none: the vehicle; route, direction and stop; route, direction, vehicle and
    trip; agency, route, stop, direction and vehicle. *)
Definition key_shape (p : Processor) : option nat :=
  match p with
  | P_FeedMessage _ | P_VehiclePosition => None
  | P_StopEvent _ => Some 0%nat
  | P_HeadwayEvent _ => Some 2%nat
  | P_TravelTime _ => Some 3%nat
  | P_DwellEvent _ => Some 4%nat
  end.

Definition keys_of (p : Processor) (k : string) : Prop := key_shape p = Some (dashes k).
#[export] Instance keys_of_dec p k : Decision (keys_of p k).
Proof. unfold keys_of. apply _. Defined.

(** The identifiers an element's key is made of have no dashes. *)
Definition clean (p : Processor) (x : any) : Prop :=
  match p with
  | P_FeedMessage _ | P_VehiclePosition => True
  | P_StopEvent _ => ∀ e, StopSpec.snapshot x = Some e → dash_free (StopSpec.vehicle_of e)
  | _ => ∀ e, stop_event x = Some e →
      Forall dash_free [EventAttributes.GetAgencyId (attrs e); EventAttributes.GetRouteId (attrs e);
        EventAttributes.GetStopId (attrs e); EventAttributes.GetDirectionId (attrs e);
        EventAttributes.GetVehicleId (attrs e); EventAttributes.GetTripId (attrs e)]
  end.

Lemma touches_if K (P : Prop) `{!Decision P} p q :
  touches K p → touches K q → touches K (if decide P then p else q).
Proof. by case_decide. Qed.

Lemma touches_transition K e prev cur : touches K (StopEventProcessor.transition e prev cur).
Proof. unfold StopEventProcessor.transition. repeat apply touches_if; by cbn. Qed.

Lemma touches_each_entity K agency l :
  touches K (FeedEvents.VehiclePositionEventProcessor.each_entity agency l).
Proof.
  induction l as [|entity l IH]; cbn; [done|]. destruct (Gtfs.FeedEntity.GetVehicle entity); [|done].
  by apply touches_if.
Qed.

Ltac touches_cases :=
  repeat first
    [ progress (cbn [touches]) | apply touches_if | done | intros ?
    | apply touches_transition
    | match goal with
      | |- touches _ (match ?x with _ => _ end) => destruct x
      | |- touches _ (if ?b then _ else _) => destruct b
      | |- _ ∧ _ => split
      end ].

(** Count the dashes of a key. *)
Lemma dashless_dashes l : Forall dash_free l → Forall (λ s, dashes s = 0%nat) l.
Proof. intros Hl. eapply Forall_impl; [exact Hl|]. apply dash_free_dashes. Qed.

Ltac by_dashes H :=
  apply dashless_dashes in H; rewrite !Forall_cons in H; destruct H as (?&?&?&?&?&?&_);
  unfold keys_of, DwellSpec.dwell_key, HeadwaySpec.headway_key, TravelSpec.trip_key,
    DwellEventProcessor.key_String, HeadwayEventProcessor.key_String,
    TravelTimeEventProcessor.key_String, attrs in *;
  cbn [DwellEventProcessor.agencyID DwellEventProcessor.routeID DwellEventProcessor.stopID
    DwellEventProcessor.directionID DwellEventProcessor.vehicleID
    DwellEventProcessor.NewDwellStopKey HeadwayEventProcessor.routeID HeadwayEventProcessor.stopID
    HeadwayEventProcessor.directionID HeadwayEventProcessor.make_key
    TravelTimeEventProcessor.routeID TravelTimeEventProcessor.directionID
    TravelTimeEventProcessor.vehicleID TravelTimeEventProcessor.tripID
    TravelTimeEventProcessor.make_key key_shape];
  rewrite !dashes_app, !dashes_dash; f_equal; lia.

Lemma handle_touches p x : clean p x → touches (keys_of p) (handle_of p x).
Proof.
  destruct p as [agency| |st|st|st|st]; cbn [clean handle_of]; intros Hx.
  - unfold FeedEvents.FeedMessageProcessor.handle. touches_cases.
  - destruct x as [| |[]|]; cbn; try done. destruct (FeedMessageEvent.GetFeedMessage _); [|done].
    apply touches_each_entity.
  - rewrite StopSpec.handle_snapshot. destruct (StopSpec.snapshot x) as [e|]; [|done].
    specialize (Hx e eq_refl). unfold StopEventProcessor.process, StopSpec.vehicle_of in *.
    change (VehiclePositionEvent.GetAttributes (Some e)) with (VehiclePositionEvent.Attributes e).
    destruct (VehiclePositionEvent.Attributes e) as [a|]; [|done].
    apply dash_free_dashes in Hx.
    assert (keys_of (P_StopEvent st) (EventAttributes.GetVehicleId (Some a))) as Hk
      by (unfold keys_of; by rewrite Hx).
    touches_cases.
  - destruct x as [| |[| | |[se|]| | |]|]; try done. specialize (Hx se eq_refl).
    assert (keys_of (P_DwellEvent st) (DwellSpec.dwell_key se)) as Hk by (by_dashes Hx).
    unfold DwellEventProcessor.handle, DwellEventProcessor.process. touches_cases.
  - destruct x as [| |[| | |[se|]| | |]|]; try done. specialize (Hx se eq_refl).
    assert (keys_of (P_HeadwayEvent st) (HeadwaySpec.headway_key se)) as Hk by (by_dashes Hx).
    unfold HeadwayEventProcessor.handle, HeadwayEventProcessor.process. touches_cases.
  - destruct x as [| |[| | |[se|]| | |]|]; try done. specialize (Hx se eq_refl).
    assert (keys_of (P_TravelTime st) (TravelSpec.trip_key se)) as Hk by (by_dashes Hx).
    unfold TravelTimeEventProcessor.handle, TravelTimeEventProcessor.process. touches_cases.
Qed.
(** Where each of the processors is, and the store. *)
Record system := mkSystem { workers : list worker; shared : InMemoryStateStore }.

Definition start (cs : clients) (s0 : InMemoryStateStore) : system :=
  mkSystem ((λ c, mkWorker c.2 None []) <$> cs) s0.

(** Any one of the processors takes its next step. *)
Inductive step (cs : clients) : system → system → Prop :=
| step_of i p ins w w' ws s s' :
    cs !! i = Some (p, ins) → ws !! i = Some w → call (handle_of p) w s w' s' →
    step cs (mkSystem ws s) (mkSystem (<[i := w']> ws) s').

(** No two of the processors have keys of the same shape. *)
Definition distinct (cs : clients) : Prop :=
  ∀ i j p q ins ins', cs !! i = Some (p, ins) → cs !! j = Some (q, ins') → i ≠ j →
    key_shape p = key_shape q → key_shape p = None.

Definition all_clean (cs : clients) : Prop :=
  Forall (λ c, Forall (λ a, clean c.1 (what a)) c.2) cs.

(** Worker [i] is where it would be on a store of its own. *)
Definition undisturbed (cs : clients) (s0 : InMemoryStateStore) (σ : system) : Prop :=
  ∀ i p ins, cs !! i = Some (p, ins) → ∃ w, workers σ !! i = Some w ∧
    confined (keys_of p) (handle_of p) w ∧
    sent w ++ ahead (handle_of p) w (part (keys_of p) (shared σ)) =
      outputs (handle_of p) ins (part (keys_of p) s0).

Lemma undisturbed_step cs s0 σ σ' :
  distinct cs → step cs σ σ' → undisturbed cs s0 σ → undisturbed cs s0 σ'.
Proof.
  intros Hd Hs Hu. destruct Hs as [j q ins' w w' ws s s' Hj Hw Hcall]. intros i p ins Hi.
  destruct (Hu j q ins' Hj) as (w0 & Hw0 & Hconf & Hahead). cbn in Hw0, Hahead.
  rewrite Hw in Hw0. injection Hw0 as <-.
  destruct (decide (i = j)) as [->|Hne].
  - rewrite Hj in Hi. injection Hi as -> ->. exists w'. cbn. split_and!.
    + apply list_lookup_insert_eq. by eapply lookup_lt_Some.
    + by eapply call_confined.
    + rewrite <- Hahead. by apply call_ahead, call_part.
  - destruct (Hu i p ins Hi) as (v & Hv & Hvc & Hva). cbn in Hv, Hva. exists v. cbn. split_and!.
    + by rewrite list_lookup_insert_ne.
    + done.
    + rewrite <- Hva. f_equal. f_equal. apply (call_other _ (keys_of q) _ _ _ _ _ Hcall Hconf).
      unfold keys_of. intros k Hkq Hkp.
      rewrite (Hd i j p q ins ins' Hi Hj Hne) in Hkp; [done|congruence].
Qed.

Lemma undisturbed_start cs s0 : all_clean cs → undisturbed cs s0 (start cs s0).
Proof.
  intros Hclean i p ins Hi. exists (mkWorker ins None []). cbn.
  split; [by rewrite list_lookup_fmap, Hi|]. split; [|done]. split; [cbn|done].
  unfold all_clean in Hclean. rewrite Forall_lookup in Hclean. specialize (Hclean i _ Hi).
  eapply Forall_impl; [exact Hclean|]. intros a. apply handle_touches.
Qed.

Lemma undisturbed_steps cs s0 σ :
  distinct cs → all_clean cs → rtc (step cs) (start cs s0) σ → undisturbed cs s0 σ.
Proof.
  intros Hd Hc Hr. pose proof (undisturbed_start cs s0 Hc) as Hu. revert Hu.
  induction Hr as [|σ1 σ2 σ3 Hs _ IH]; [done|]. intros Hu. by eapply IH, undisturbed_step.
Qed.

(** C6: Processors of different types can share a state store.  Let any number of
    processors, with keys of different shapes, use one in-memory store at the same
    time, their calls interleaved in any way: at every moment each of them has sent
    an initial part of what it would send on a store of its own, and all of it when
    it is done.  The identifiers in what they take are to be free of dashes. *)
Theorem shared_store_invisible cs expiry σ i p ins w :
  distinct cs → all_clean cs →
  rtc (step cs) (start cs (NewInMemoryStateStore (mkConfig expiry))) σ →
  cs !! i = Some (p, ins) → workers σ !! i = Some w →
  let alone := outputs (handle_of p) ins (NewInMemoryStateStore (mkConfig expiry)) in
  sent w `prefix_of` alone ∧ (todo w = [] → current w = None → sent w = alone).
Proof.
  intros Hd Hc Hr Hi Hw.
  destruct (undisturbed_steps _ _ _ Hd Hc Hr i p ins Hi) as (w0 & Hw0 & _ & Hahead).
  rewrite Hw in Hw0. injection Hw0 as <-.
  assert (part (keys_of p) (NewInMemoryStateStore (mkConfig expiry))
    = NewInMemoryStateStore (mkConfig expiry)) as Hfresh
    by (unfold part, NewInMemoryStateStore; cbn; by rewrite map_filter_empty).
  rewrite Hfresh in Hahead. cbn zeta. rewrite <- Hahead. split; [by eexists|].
  intros Ht Hcur. unfold ahead. rewrite Hcur, Ht. by rewrite app_nil_r.
Qed.
End sharing.

(** *** The stop-event and dwell processors on one store *)

Section witness.
Local Existing Instances unix_lib amd64.
Import Graph.

Definition sample_store : InMemoryStateStore := NewInMemoryStateStore (mkConfig Hour).
Definition sample_backend : Store := Shared "store" (backend_InMemory Hour).

Definition sample_departure : any := sample_stop "v1" "s1" StopEvent_DEPARTURE 1000.

Definition sample_clients : clients := [
  (P_StopEvent sample_backend, [Arrival (still 10) (sample_vp "v1" "s1" StopStatus_STOPPED_AT 1000)]);
  (P_DwellEvent sample_backend, [Arrival (still 10) sample_departure])].

(** The dwell processor takes its element and looks for the arrival between the
    two calls of the other. *)
Lemma sample_steps : ∃ ws s, rtc (step sample_clients) (start sample_clients sample_store)
  (mkSystem ws s) ∧ ws !! 1%nat = Some (mkWorker [] None []) ∧ length ws = 2%nat.
Proof.
  eexists _, _. split.
  - eapply rtc_l; [by eapply (step_of _ 0); [done|done|apply w_take]|].
    eapply rtc_l; [by eapply (step_of _ 1); [done|done|apply w_take]|].
    eapply rtc_l; [by eapply (step_of _ 0); [done|done|by apply w_Get]|].
    eapply rtc_l; [by eapply (step_of _ 1); [done|done|by apply w_Get]|].
    eapply rtc_l; [by eapply (step_of _ 1); [done|done|apply w_return]|].
    apply rtc_refl.
  - done.
Qed.

Lemma shared_store_invisible_witness :
  outputs DwellEvents.DwellEventProcessor.handle [Arrival (still 10) sample_departure] sample_store = [].
Proof.
  destruct sample_steps as (ws & s & Hr & Hw & _).
  destruct (shared_store_invisible sample_clients Hour (mkSystem ws s) 1 (P_DwellEvent sample_backend)
    [Arrival (still 10) sample_departure] (mkWorker [] None [])) as [_ Hall].
  - intros [|[|i]] [|[|j]] p q ins ins' Hi Hj Hne Hs; try done; cbn in Hi, Hj; simplify_eq; done.
  - each (each (intros e; vm_compute; intros [= <-]; repeat (constructor; [done|]); done || constructor)).
  - exact Hr.
  - done.
  - exact Hw.
  - symmetry. exact (Hall eq_refl eq_refl).
Defined.
End witness.
