(* ===== verification/Typing.v ===== *)
(** * What travels on which channel

    Channels carry [any]; a processor switches on the dynamic type of an element
    and drops what it does not know.  Each processor has a type of element it
    sends, and a graph is well typed when every connector joins a processor to
    one that knows what it sends. *)
From S2P Require Import Prelude GoTime ParseDuration Gtfs Events StateStore Proc Stream Config.
From S2P Require Import FeedEvents StopEvents DwellEvents HeadwayEvents TravelTimeEvents.
From S2P Require Import Endpoints Graph.

Import Graph.

(** The dynamic type of an element. *)
Inductive element_type :=
| T_bytes
| T_message (kd : kind)
| T_none.

#[export] Instance element_type_eq_dec : EqDecision element_type.
Proof. solve_decision. Defined.

Definition type_of_element (x : any) : element_type :=
  match x with
  | any_bytes _ => T_bytes
  | any_msg m => T_message (kind_of m)
  | any_nil | any_other _ => T_none
  end.

(** The type of what a processor sends. *)
Definition produces (p : Processor) : kind :=
  match p with
  | P_FeedMessage _ => K_FeedMessageEvent
  | P_VehiclePosition => K_VehiclePositionEvent
  | P_StopEvent _ => K_StopEvent
  | P_DwellEvent _ => K_DwellTimeEvent
  | P_HeadwayEvent _ => K_HeadwayTimeEvent
  | P_TravelTime _ => K_TravelTimeEvent
  end.

(** The types in the type switch of a processor. *)
Definition accepts (p : Processor) (ty : element_type) : bool :=
  match p, ty with
  | P_FeedMessage _, (T_bytes | T_message K_gtfs_FeedMessage) => true
  | P_VehiclePosition, T_message K_FeedMessageEvent => true
  | P_StopEvent _, (T_bytes | T_message K_VehiclePositionEvent) => true
  | (P_DwellEvent _ | P_HeadwayEvent _ | P_TravelTime _), T_message K_StopEvent => true
  | _, _ => false
  end.

(** ** What a program may send *)

Definition is_message (kd : kind) (x : any) : Prop := type_of_element x = T_message kd.

#[export] Instance is_message_dec kd x : Decision (is_message kd x).
Proof. unfold is_message. apply _. Defined.

Fixpoint sends_only (kd : kind) (p : prog) : Prop :=
  match p with
  | Return => True
  | store_Get _ _ c => ∀ m f, sends_only kd (c m f)
  | store_Set _ _ _ c => ∀ err, sends_only kd (c err)
  | store_Delete _ c => sends_only kd c
  | chan_Send x c => is_message kd x ∧ sends_only kd c
  end.

Section typing.
Context `{!ProtoLib, !Platform}.

Lemma exec_sends_only {S : Type} `{!StateStore S} kd p clk i (s : S) :
  sends_only kd p → Forall (is_message kd) (exec clk i p s).2.
Proof.
  revert i s. induction p as [|k new c IH|k m ttl c IH|k c IH|x c IH]; intros i s Hp; cbn in *.
  - constructor.
  - destruct (Get _ _ _ s) as [m f]. by apply IH.
  - destruct (Set_ _ _ _ _ s) as [err s']. by apply IH.
  - by apply IH.
  - destruct Hp as [Hx Hp]. specialize (IH i s Hp). destruct (exec clk i c s). by constructor.
Qed.

(** Programs are built with the combinators below; what they send is read off. *)
Lemma sends_only_if kd (P : Prop) `{!Decision P} p q :
  sends_only kd p → sends_only kd q → sends_only kd (if decide P then p else q).
Proof. by case_decide. Qed.

Lemma each_entity_sends agency l :
  sends_only K_VehiclePositionEvent (VehiclePositionEventProcessor.each_entity agency l).
Proof.
  induction l as [|entity l IH]; cbn; [done|]. destruct (FeedEntity.GetVehicle entity); [|done].
  by apply sends_only_if.
Qed.

Lemma transition_sends e prev cur :
  sends_only K_StopEvent (StopEventProcessor.transition e prev cur).
Proof. unfold StopEventProcessor.transition. repeat apply sends_only_if; by cbn. Qed.

Ltac by_cases :=
  repeat first
    [ progress (cbn [sends_only]) | apply sends_only_if | done | intros ?
    | apply transition_sends
    | match goal with
      | |- sends_only _ (match ?x with _ => _ end) => destruct x
      | |- sends_only _ (if ?b then _ else _) => destruct b
      | |- _ ∧ _ => split
      end ].

Lemma stop_process_sends s e : sends_only K_StopEvent (StopEventProcessor.process s e).
Proof. unfold StopEventProcessor.process. by_cases. Qed.

Lemma dwell_process_sends e : sends_only K_DwellTimeEvent (DwellEventProcessor.process e).
Proof. unfold DwellEventProcessor.process. by_cases. Qed.

Lemma headway_process_sends e : sends_only K_HeadwayTimeEvent (HeadwayEventProcessor.process e).
Proof. unfold HeadwayEventProcessor.process. by_cases. Qed.

Lemma travel_process_sends e : sends_only K_TravelTimeEvent (TravelTimeEventProcessor.process e).
Proof. unfold TravelTimeEventProcessor.process. by_cases. Qed.

Lemma handle_sends_only p x : sends_only (produces p) (handle_of p x).
Proof.
  destruct p; cbn [handle_of produces].
  - unfold FeedMessageProcessor.handle. by_cases.
  - destruct x as [| |[]|]; cbn; try done. destruct (FeedMessageEvent.GetFeedMessage _); [|done].
    apply each_entity_sends.
  - unfold StopEventProcessor.handle. repeat case_match; done || apply stop_process_sends.
  - destruct x as [| |[]|]; try done. apply dwell_process_sends.
  - destruct x as [| |[]|]; try done. apply headway_process_sends.
  - destruct x as [| |[]|]; try done. apply travel_process_sends.
Qed.

(** An element of a type that is not in its switch makes a processor do nothing. *)
Lemma rejected_ignored p x : accepts p (type_of_element x) = false → handle_of p x = Return.
Proof. destruct p, x as [| |[]|]; done. Qed.
End typing.

(** ** The goroutines of each processor

    [doStream] with its deferred [close], and [transmit], over the handler of the
    processor: the step relation of [Stream]. *)
Section goroutines.
Context `{!ProtoLib, !Platform} {S : Type} `{!StateStore S}.

Definition FeedMessage_goroutines (agencyID : string) : relation (Stream.state (S := S)) :=
  Stream.step (FeedMessageProcessor.handle agencyID).
Definition VehiclePosition_goroutines : relation (Stream.state (S := S)) :=
  Stream.step VehiclePositionEventProcessor.handle.
Definition StopEvent_goroutines : relation (Stream.state (S := S)) :=
  Stream.step StopEventProcessor.handle.
Definition DwellEvent_goroutines : relation (Stream.state (S := S)) :=
  Stream.step DwellEventProcessor.handle.
Definition HeadwayEvent_goroutines : relation (Stream.state (S := S)) :=
  Stream.step HeadwayEventProcessor.handle.
Definition TravelTime_goroutines : relation (Stream.state (S := S)) :=
  Stream.step TravelTimeEventProcessor.handle.

Definition goroutines (p : Processor) : relation (Stream.state (S := S)) :=
  match p with
  | P_FeedMessage agencyID => FeedMessage_goroutines agencyID
  | P_VehiclePosition => VehiclePosition_goroutines
  | P_StopEvent _ => StopEvent_goroutines
  | P_DwellEvent _ => DwellEvent_goroutines
  | P_HeadwayEvent _ => HeadwayEvent_goroutines
  | P_TravelTime _ => TravelTime_goroutines
  end.

Lemma goroutines_step p : goroutines p = Stream.step (handle_of p).
Proof. by destruct p. Qed.

Lemma run_typed p ins (s : S) :
  Forall (Forall (is_message (produces p))) (run (handle_of p) ins s).2.
Proof.
  revert s. induction ins as [|a ins IH]; intros s; cbn [run]; [constructor|].
  pose proof (exec_sends_only (produces p) _ (clock a) 0 s (handle_sends_only p (what a))) as Ha.
  destruct (exec _ _ _ s) as [s1 xs]. specialize (IH s1).
  destruct (run (handle_of p) ins s1). by constructor.
Qed.

Lemma outputs_typed p ins (s : S) :
  Forall (is_message (produces p)) (outputs (handle_of p) ins s).
Proof. apply Forall_concat, run_typed. Qed.

(** A processor sends one type of element.  At every moment of every
    interleaving of its goroutines with its neighbours, whatever it was given and
    whatever its state store answers, everything that the next inlet has received
    from a processor is a message of the type of that processor: a
    FeedMessageEvent, a VehiclePositionEvent, a StopEvent, and so on. *)
Theorem delivered_typed p input closes t0 (s0 : S) σ :
  rtc (goroutines p) (Stream.start input closes t0 s0) σ →
  Forall (is_message (produces p)) (Stream.delivered σ).
Proof.
  rewrite goroutines_step. intros Hr. apply Stream.reachable_inv in Hr.
  pose proof (Stream.i_copied _ _ _ _ _ Hr) as Hc.
  assert (Forall (is_message (produces p)) (Stream.sent σ)) as Hs;
    [|rewrite <- Hc in Hs; by apply Forall_app in Hs as [? _]].
  pose proof (Stream.i_agrees _ _ _ _ _ Hr) as Ha. unfold Stream.agrees in Ha.
  pose proof (run_typed p (Stream.handled σ) s0) as Hx. apply Forall_concat in Hx.
  destruct (run (handle_of p) (Stream.handled σ) s0) as [s1 xss]. cbn in Hx.
  destruct (Stream.doStream σ) as [|a i q|].
  - by destruct Ha as [_ ->].
  - destruct Ha as (s2 & ys & zs & He & _ & ->). apply Forall_app. split; [done|].
    pose proof (exec_sends_only (produces p) _ (clock a) 0 s1 (handle_sends_only p (what a))) as Hy.
    rewrite He in Hy. by apply Forall_app in Hy as [? _].
  - by destruct Ha as [_ ->].
Qed.
End goroutines.

(** *** A run *)

Section witness.
Local Existing Instances unix_lib amd64.
Import InMemory Stream.

Definition typed_store : InMemoryStateStore := NewInMemoryStateStore (mkConfig Hour).
Definition typed_input : list any := [any_msg (msg_gtfs_FeedMessage None)].
Definition typed_state : state :=
  St [] true false 0 (Busy (Arrival (still 0) (any_msg (msg_gtfs_FeedMessage None))) 0 Return) []
    typed_store [any_msg (msg_FeedMessageEvent (Some (FeedMessageEvent.mk "MBTA" None)))] 0 Waiting
    [any_msg (msg_FeedMessageEvent (Some (FeedMessageEvent.mk "MBTA" None)))] 0.

Lemma reach_typed_state :
  rtc (goroutines (P_FeedMessage "MBTA")) (start typed_input true 0 typed_store) typed_state.
Proof.
  eapply rtc_l; [apply (s_take _ (Arrival (still 0) (any_msg (msg_gtfs_FeedMessage None))));
                 apply clock_from_still; lia|].
  eapply rtc_l; [apply s_Send|]. eapply rtc_l; [apply t_forward|]. apply rtc_refl.
Qed.

Lemma delivered_typed_witness : Forall (is_message K_FeedMessageEvent) (delivered typed_state).
Proof.
  exact (delivered_typed (P_FeedMessage "MBTA") typed_input true 0 typed_store typed_state
    reach_typed_state).
Defined.
End witness.
