(* ===== verification/Network.v ===== *)
(** * Running a graph ([pipelines/pipeline.go], [graphs/graph.go])

    [Pipeline.Run] joins sources, processor and sinks with the operators of
    go-streams, and [Graph.Run] starts all pipelines; connectors are channels
    between them.  The go-streams operators are a parameter.  A run of a graph is
    described by what went over each channel until the sources ended. *)
From S2P Require Import Prelude Interleave GoTime ParseDuration Gtfs Events StateStore Proc Config.
From S2P Require Import Endpoints Graph Typing.

Import Graph GraphSpec.
#[local] Existing Instances InMemory.in_memory InMemory.in_memory_ok.

(** [flow.NewPassThrough], [flow.Merge] and [flow.FanOut]: what comes out of them,
    from what went in.  The order in which [Merge] takes from its inputs is open. *)
Class GoStreams := {
  PassThrough : list any → list any;
  Merge : list (list any) → list any → Prop;
  FanOut : nat → list any → list (list any);
}.

(** Their documentation: a pass-through retransmits elements as they are, [Merge]
    merges several flows into one, [FanOut] makes identical flows of one. *)
Class GoStreamsOk `{!GoStreams} : Prop := {
  PassThrough_same : ∀ xs, PassThrough xs = xs;
  Merge_interleaves : ∀ xss ys, Merge xss ys → interleaved xss ys;
  FanOut_copies : ∀ n xs, FanOut n xs = replicate n xs;
}.

(** Operators that do that and no more, for the concrete runs. *)
Definition plain_streams : GoStreams := {|
  PassThrough xs := xs;
  Merge := interleaved;
  FanOut n xs := replicate n xs;
|}.

Lemma plain_streams_ok : @GoStreamsOk plain_streams.
Proof. by split. Qed.

(** ** What a processor sends *)

(** What a program may send when the store may answer anything. *)
Inductive may_send : prog → list any → Prop :=
| may_Return : may_send Return []
| may_Get k new c m f xs : may_send (c m f) xs → may_send (store_Get k new c) xs
| may_Set k m ttl c err xs : may_send (c err) xs → may_send (store_Set k m ttl c) xs
| may_Delete k c xs : may_send c xs → may_send (store_Delete k c) xs
| may_Send x c xs : may_send c xs → may_send (chan_Send x c) (x :: xs).

(** The store a processor has for itself, as it is at the start; a processor that
    uses none has one all the same, and one on a store of the graph has [None]. *)
Definition own_store (p : Processor) : option InMemory.InMemoryStateStore :=
  match store_of p with
  | None => Some (InMemory.NewInMemoryStateStore (InMemory.mkConfig 0))
  | Some (Own (backend_InMemory expiry)) =>
      Some (InMemory.NewInMemoryStateStore (InMemory.mkConfig expiry))
  | Some _ => None
  end.

Section network.
Context `{!ProtoLib, !Platform, !GoStreams}.

(** A processor on its own store does what [run] says; what others write to a
    store of the graph meanwhile is left open here. *)
Definition emits (p : Processor) (ins : list arrival) (out : list any) : Prop :=
  match own_store p with
  | Some s => out = outputs (handle_of p) ins s
  | None => ∃ xss, out = concat xss ∧ Forall2 (λ a xs, may_send (handle_of p (what a)) xs) ins xss
  end.

(** [Pipeline.Run]: [from] is what each source gave, [ins] what the processor took
    and when, [to] what each sink was sent. *)
Definition Pipeline_Run (p : Pipeline) (from : list (list any)) (ins : list arrival)
    (to : list (list any)) : Prop :=
  ∃ pr out, processor p = Some pr ∧
    Merge (PassThrough <$> from) (what <$> ins) ∧ timely 0 ins ∧
    emits pr ins out ∧ to = FanOut (length (sinks p)) out.

(** What a source may give a pipeline.  A source that several pipelines name
    divides its elements among them: each element is received once. *)
Definition source_yields (s : Source) (xs : list any) : Prop :=
  match s with
  | src_HTTP h => ∃ rs all, HTTPSource.init h rs = Some all ∧ xs `sublist_of` all
  | src_Redis _ => ∃ payloads, xs = RedisLink.init <$> payloads
  | src_Connector None => xs = []
  | src_Connector (Some _) => True
  end.

(** ** The channels of a graph *)

(** The traffic of a run: by number of the pipeline and of its source or sink. *)
Record flow := mkFlow {
  taken : nat → nat → list any;
  arrivals : nat → list arrival;
  given : nat → nat → list any;
}.

Definition source_at (g : Graph.t) (e : nat * nat) : option Source :=
  p ← pipelines g !! e.1; sources p !! e.2.
Definition sink_at (g : Graph.t) (e : nat * nat) : option Sink :=
  p ← pipelines g !! e.1; sinks p !! e.2.

(** All ends of pipelines, numbered. *)
Definition ends (count : Pipeline → nat) (g : Graph.t) : list (nat * nat) :=
  concat (imap (λ i p, pair i <$> seq 0 (count p)) (pipelines g)).

Definition reads (g : Graph.t) (c : ID) (e : nat * nat) : Prop :=
  match source_at g e with Some (src_Connector (Some c')) => c' = c | _ => False end.
Definition writes (g : Graph.t) (c : ID) (e : nat * nat) : Prop :=
  match sink_at g e with Some (sink_Connector (Some c')) => c' = c | _ => False end.

#[export] Instance reads_dec g c e : Decision (reads g c e).
Proof. unfold reads. repeat case_match; apply _. Defined.
#[export] Instance writes_dec g c e : Decision (writes g c e).
Proof. unfold writes. repeat case_match; apply _. Defined.

Definition all_taken (g : Graph.t) (fl : flow) (c : ID) : list (list any) :=
  (λ e, taken fl e.1 e.2) <$> filter (reads g c) (ends (λ p, length (sources p)) g).
Definition all_given (g : Graph.t) (fl : flow) (c : ID) : list (list any) :=
  (λ e, given fl e.1 e.2) <$> filter (writes g c) (ends (λ p, length (sinks p)) g).

(** [Graph.Run]: every pipeline runs.  Nothing can be sent on a nil channel.  On the channel of a connector the elements
    of all its writers meet in some order, and each goes to one of its readers. *)
Definition Graph_Run (g : Graph.t) (fl : flow) : Prop :=
  (∀ i p, pipelines g !! i = Some p →
     Pipeline_Run p (taken fl i <$> seq 0 (length (sources p))) (arrivals fl i)
       (given fl i <$> seq 0 (length (sinks p))) ∧
     (∀ j s, sources p !! j = Some s → source_yields s (taken fl i j)) ∧
     (∀ j, sinks p !! j = Some (sink_Connector None) → given fl i j = [])) ∧
  (∀ c, ∃ channel, interleaved (all_given g fl c) channel ∧ interleaved (all_taken g fl c) channel).

(** ** Ends of channels *)

Lemma elem_of_ends count g e :
  e ∈ ends count g ↔ ∃ p, pipelines g !! e.1 = Some p ∧ (e.2 < count p)%nat.
Proof.
  unfold ends. rewrite list_elem_of_In, in_concat. setoid_rewrite <- list_elem_of_In. split.
  - intros (l & Hl & He). apply elem_of_lookup_imap in Hl as (i & p & -> & Hp).
    apply list_elem_of_fmap in He as (j & -> & Hj%elem_of_seq). exists p. split; [done|]. cbn. lia.
  - intros (p & Hp & Hj). exists (pair e.1 <$> seq 0 (count p)). split.
    + apply elem_of_lookup_imap. by exists e.1, p.
    + apply list_elem_of_fmap. exists e.2. split; [by destruct e|]. apply elem_of_seq. lia.
Qed.

Lemma NoDup_ends count g : NoDup (ends count g).
Proof.
  unfold ends. generalize (pipelines g). intros l. induction l as [|p l IH] using rev_ind; [constructor|].
  rewrite imap_app. cbn. rewrite concat_app. cbn. rewrite app_nil_r. apply NoDup_app. split_and!.
  - done.
  - intros e He Hin. apply list_elem_of_fmap in Hin as (j & -> & _).
    apply list_elem_of_In, in_concat in He as (x & Hx & He). apply list_elem_of_In in Hx, He.
    apply elem_of_lookup_imap in Hx as (i & q & -> & Hq%lookup_lt_Some).
    apply list_elem_of_fmap in He as (? & [= <- _] & _). lia.
  - apply NoDup_fmap_2; [by intros ?? [= ->]|]. apply NoDup_seq.
Qed.

Lemma reads_end g c e : reads g c e → e ∈ ends (λ p, length (sources p)) g.
Proof.
  unfold reads, source_at. intros He. apply elem_of_ends.
  destruct (pipelines g !! e.1) as [p|]; [|done]. exists p. split; [done|]. cbn in He.
  destruct (sources p !! e.2) eqn:Hs; [|done]. by eapply lookup_lt_Some.
Qed.

Lemma writes_end g c e : writes g c e → e ∈ ends (λ p, length (sinks p)) g.
Proof.
  unfold writes, sink_at. intros He. apply elem_of_ends.
  destruct (pipelines g !! e.1) as [p|]; [|done]. exists p. split; [done|]. cbn in He.
  destruct (sinks p !! e.2) eqn:Hs; [|done]. by eapply lookup_lt_Some.
Qed.

(** What a reader took is among what was given to the connector. *)
Lemma taken_given g fl c e x :
  Graph_Run g fl → reads g c e → x ∈ taken fl e.1 e.2 →
  ∃ e', writes g c e' ∧ x ∈ given fl e'.1 e'.2.
Proof.
  intros [_ Hc] He Hx. destruct (Hc c) as (ch & Hw & Hr).
  assert (x ∈ ch) as Hin.
  { apply (interleaved_elem _ _ x Hr). exists (taken fl e.1 e.2). split; [|done].
    apply list_elem_of_fmap. exists e. split; [done|].
    apply list_elem_of_filter. split; [done|by eapply reads_end]. }
  apply (interleaved_elem _ _ x Hw) in Hin as (xs & Hxs & Hin).
  apply list_elem_of_fmap in Hxs as (e' & -> & [He' _]%list_elem_of_filter). by exists e'.
Qed.

(** With one writer and one reader, the reader takes what the writer gives. *)
Lemma one_to_one g fl c w r :
  Graph_Run g fl → (∀ e, writes g c e ↔ e = w) → (∀ e, reads g c e ↔ e = r) →
  taken fl r.1 r.2 = given fl w.1 w.2.
Proof.
  intros [_ Hc] Hw Hr. destruct (Hc c) as (ch & Hiw & Hir). unfold all_given, all_taken in *.
  rewrite (filter_sole _ _ w) in Hiw; [|apply NoDup_ends|by eapply writes_end, Hw|done].
  rewrite (filter_sole _ _ r) in Hir; [|apply NoDup_ends|by eapply reads_end, Hr|done].
  apply interleaved_one in Hiw, Hir. by subst.
Qed.

(** ** Pipelines *)

Context `{!GoStreamsOk}.

(** A sink is sent all that the processor sends. *)
Lemma pipeline_given g fl i p j :
  Graph_Run g fl → pipelines g !! i = Some p → (j < length (sinks p))%nat →
  ∃ pr, processor p = Some pr ∧ emits pr (arrivals fl i) (given fl i j).
Proof.
  intros [Hp _] Hi Hj. destruct (Hp i p Hi) as [(pr & out & Hpr & _ & _ & Hout & Hto) _].
  exists pr. split; [done|]. rewrite FanOut_copies in Hto.
  assert ((given fl i <$> seq 0 (length (sinks p))) !! j = Some (given fl i j)) as Hl
    by (rewrite list_lookup_fmap, lookup_seq_lt by lia; done).
  rewrite Hto in Hl. apply lookup_replicate in Hl as [-> _]. done.
Qed.

(** The processor takes the elements of all sources, each once and those of a
    source in order. *)
Lemma pipeline_taken g fl i p :
  Graph_Run g fl → pipelines g !! i = Some p →
  interleaved (taken fl i <$> seq 0 (length (sources p))) (what <$> arrivals fl i).
Proof.
  intros [Hp _] Hi. destruct (Hp i p Hi) as [(pr & out & _ & Hm & _) _].
  apply Merge_interleaves in Hm. revert Hm. generalize (taken fl i <$> seq 0 (length (sources p))).
  intros l. assert (PassThrough <$> l = l) as ->; [|done].
  rewrite <- (list_fmap_id l) at 2. apply list_fmap_ext. intros. apply PassThrough_same.
Qed.
(** ** What arrives where *)

Lemma may_send_typed kd p xs : sends_only kd p → may_send p xs → Forall (is_message kd) xs.
Proof.
  intros Hp Hs. induction Hs; cbn in Hp; eauto using Forall_nil_2.
  destruct Hp. constructor; auto.
Qed.

Lemma emits_typed p ins out : emits p ins out → Forall (is_message (produces p)) out.
Proof.
  unfold emits. destruct (own_store p) as [s|]; [intros ->; apply outputs_typed|].
  intros (xss & -> & Hall). apply Forall_concat. induction Hall as [|a xs ins xss Hxs _ IH]; [constructor|].
  constructor; [|done]. eapply may_send_typed; [apply handle_sends_only|done].
Qed.

Lemma polled_bytes h rs all x :
  HTTPSource.init h rs = Some all → x ∈ all → type_of_element x = T_bytes.
Proof.
  unfold HTTPSource.init. case_decide; [done|]. intros [= <-] Hx.
  apply list_elem_of_In, in_concat in Hx as (xs & Hxs & Hx). apply list_elem_of_In in Hxs, Hx.
  apply list_elem_of_fmap in Hxs as (r & -> & _).
  destruct r as [|code [b|e]]; cbn in Hx; repeat case_decide;
    rewrite ?elem_of_cons, ?elem_of_nil in Hx; by destruct_or? Hx; subst.
Qed.

(** A source that gives the processor elements it knows. *)
Definition source_ok (g : Graph.t) (pr : Processor) (s : Source) : bool :=
  match s with
  | src_HTTP _ | src_Redis _ => accepts pr T_bytes
  | src_Connector None => true
  | src_Connector (Some c) =>
      forallb (λ e, match pipelines g !! e.1 ≫= processor with
                    | Some w => accepts pr (T_message (produces w))
                    | None => true
                    end)
        (filter (writes g c) (ends (λ p, length (sinks p)) g))
  end.

Definition well_typed (g : Graph.t) : bool :=
  forallb (λ p, match processor p with
                | Some pr => forallb (source_ok g pr) (sources p)
                | None => true
                end) (pipelines g).

(** What the reader of a connector takes was sent by a processor that writes to
    it. *)
Lemma taken_from g fl c e x :
  Graph_Run g fl → reads g c e → x ∈ taken fl e.1 e.2 →
  ∃ e' p w, writes g c e' ∧ pipelines g !! e'.1 = Some p ∧ processor p = Some w ∧
    is_message (produces w) x.
Proof.
  intros Hrun He Hx. destruct (taken_given _ _ _ _ _ Hrun He Hx) as (e' & He' & Hx').
  pose proof (writes_end _ _ _ He') as (p & Hp & Hj)%elem_of_ends.
  destruct (pipeline_given _ _ _ _ _ Hrun Hp Hj) as (w & Hw & Hem).
  exists e', p, w. split_and!; [done..|]. apply emits_typed in Hem.
  rewrite Forall_forall in Hem. by apply Hem.
Qed.

Lemma source_ok_accepts g fl i p j s pr x :
  Graph_Run g fl → pipelines g !! i = Some p → sources p !! j = Some s →
  source_ok g pr s = true → x ∈ taken fl i j → accepts pr (type_of_element x) = true.
Proof.
  intros Hrun Hi Hj Hok Hx. destruct (Hrun) as [Hp _]. destruct (Hp i p Hi) as (_ & Hy & _).
  specialize (Hy j s Hj). destruct s as [h|[c|]|r]; cbn [source_yields source_ok] in *.
  - destruct Hy as (rs & all & Hall & Hsub). rewrite (polled_bytes h rs all x Hall); [done|].
    by eapply sublist_subseteq.
  - destruct (taken_from g fl c (i, j) x Hrun) as (e & q & w & He & Hq & Hw & Hm).
    { unfold reads, source_at. cbn. rewrite Hi. cbn. by rewrite Hj. }
    { done. }
    rewrite Hm. rewrite forallb_forall in Hok. specialize (Hok e). rewrite Hq in Hok. cbn in Hok.
    rewrite Hw in Hok. apply Hok, list_elem_of_In, list_elem_of_filter.
    split; [done|]. by eapply writes_end.
  - rewrite Hy in Hx. by apply not_elem_of_nil in Hx.
  - destruct Hy as (payloads & Hy). rewrite Hy in Hx.
    apply list_elem_of_fmap in Hx as (b & -> & _). done.
Qed.

(** C20: In a graph whose connectors join processors to others that know what they
    send, every element that a processor takes, in any run and whatever the
    sources give, is of a type in its type switch. *)
Theorem well_typed_network g fl i p pr a :
  well_typed g = true → Graph_Run g fl → pipelines g !! i = Some p → processor p = Some pr →
  a ∈ arrivals fl i → accepts pr (type_of_element (what a)) = true.
Proof.
  intros Hwt Hrun Hi Hpr Ha.
  assert (what a ∈ what <$> arrivals fl i) as Hw by (by apply list_elem_of_fmap_2).
  apply (interleaved_elem _ _ _ (pipeline_taken g fl i p Hrun Hi)) in Hw as (xs & Hxs & Hx).
  apply list_elem_of_fmap in Hxs as (j & -> & [_ Hj]%elem_of_seq).
  destruct (lookup_lt_is_Some_2 (sources p) j) as [s Hs]; [done|].
  unfold well_typed in Hwt. rewrite forallb_forall in Hwt. specialize (Hwt p).
  rewrite Hpr in Hwt. eapply source_ok_accepts; [done|done|done| |done].
  rewrite forallb_forall in Hwt. apply Hwt.
  - apply list_elem_of_In. by eapply list_elem_of_lookup_2.
  - apply list_elem_of_In. by eapply list_elem_of_lookup_2.
Qed.
End network.
