(* ===== verification/Moments.v ===== *)
(** * A graph while it runs

    [Network] describes a run by what went over the channels until the sources
    ended.  Here the graph is taken step by step: at any moment some elements have
    been polled and not yet merged, some have been sent and not yet reached a sink.
    Every moment leads, in whatever order the rest is done, to a moment at which
    nothing is on its way; and there the channels are those of a run. *)
From stdpp Require Import relations.
From S2P Require Import Prelude Runs Interleave GoTime Gtfs Events StateStore Proc Config.
From S2P Require Import Endpoints Graph Typing Network.

Import Graph GraphSpec.
#[local] Existing Instances InMemory.in_memory InMemory.in_memory_ok.
#[local] Existing Instances plain_streams plain_streams_ok.

Module Moments.
Section moments.
Context `{!ProtoLib, !Platform} (g : Graph.t).

(** ** Moments *)

(** What has gone over each channel so far, by number of the pipeline and of its
    source or sink. *)
Record moment := Moment {
  received : nat * nat → list any;   (* what a source has given *)
  merged : nat * nat → nat;          (* how much of that the processor has taken *)
  handled : nat → list arrival;      (* what a processor has taken, and when *)
  sent : nat → list any;             (* what it has sent for that *)
  passed : nat * nat → list any;     (* what a sink has been sent *)
}.

Definition at_start : moment :=
  Moment (λ _, []) (λ _, 0%nat) (λ _, []) (λ _, []) (λ _, []).

(** The traffic so far. *)
Definition traffic (m : moment) : flow :=
  mkFlow (λ i j, received m (i, j)) (handled m) (λ i j, passed m (i, j)).

(** What a processor sends for an element, after others. *)
Definition handles (pr : Processor) (ins : list arrival) (a : arrival) (xs : list any) : Prop :=
  match own_store pr with
  | Some s => xs = (exec (clock a) 0 (handle_of pr (what a)) (run (handle_of pr) ins s).1).2
  | None => may_send (handle_of pr (what a)) xs
  end.

Definition is_connector_source (s : Source) : bool :=
  match s with src_Connector _ => true | _ => false end.
Definition is_connector_sink (k : Sink) : bool :=
  match k with sink_Connector _ => true | _ => false end.

(** The graph at work: a processor takes the next element of one of its sources, in
    the loop of [doStream]; what it has sent reaches a sink, over [transmit] and
    the copies that [FanOut] makes; or it is sent on the channel of a connector and
    received by a pipeline that has that as a source. *)
Inductive works : moment → moment → Prop :=
| w_handle m i p pr j a xs :
    pipelines g !! i = Some p → processor p = Some pr → (j < length (sources p))%nat →
    received m (i, j) !! merged m (i, j) = Some (what a) →
    clock_from (end_time 0 (handled m i)) (clock a) → handles pr (handled m i) a xs →
    works m (Moment (received m) (<[(i, j) := S (merged m (i, j))]> (merged m))
      (<[i := handled m i ++ [a]]> (handled m)) (<[i := sent m i ++ xs]> (sent m)) (passed m))
| w_deliver m e k x :
    sink_at g e = Some k → is_connector_sink k = false →
    sent m e.1 !! length (passed m e) = Some x →
    works m (Moment (received m) (merged m) (handled m) (sent m)
      (<[e := passed m e ++ [x]]> (passed m)))
| w_connect m c w r x :
    writes g c w → reads g c r → sent m w.1 !! length (passed m w) = Some x →
    works m (Moment (<[r := received m r ++ [x]]> (received m)) (merged m) (handled m) (sent m)
      (<[w := passed m w ++ [x]]> (passed m))).

(** What comes from outside: a source polls or is delivered something. *)
Inductive polls : moment → moment → Prop :=
| p_receive m e s x :
    source_at g e = Some s → is_connector_source s = false →
    source_yields s (received m e ++ [x]) →
    polls m (Moment (<[e := received m e ++ [x]]> (received m)) (merged m) (handled m) (sent m)
      (passed m)).

(** A moment of a run.  A goroutine that has returned, after a cancellation or at
    the end of its input, takes no more steps; no step is compulsory. *)
Definition occurs : moment → Prop := rtc (λ m m', works m m' ∨ polls m m') at_start.

Definition sources_of : list (nat * nat) := ends (λ p, length (sources p)) g.
Definition sinks_of : list (nat * nat) := ends (λ p, length (sinks p)) g.

(** Nothing is on its way. *)
Definition at_rest (m : moment) : Prop :=
  Forall (λ e, merged m e = length (received m e)) sources_of ∧
  Forall (λ e, length (passed m e) = length (sent m e.1)) sinks_of.
#[export] Instance at_rest_dec m : Decision (at_rest m).
Proof. unfold at_rest. apply _. Defined.

(** The channels of [m'] have carried what those of [m] have, and perhaps more; the
    sources have given no more than they had. *)
Definition leads_to (m m' : moment) : Prop :=
  (∀ e, received m e `prefix_of` received m' e) ∧
  (∀ i, handled m i `prefix_of` handled m' i) ∧
  (∀ e, passed m e `prefix_of` passed m' e) ∧
  (∀ e s, source_at g e = Some s → is_connector_source s = false → received m' e = received m e).

(** ** Every moment is sound *)

(** What of a source has been taken. *)
Definition drawn (m : moment) (e : nat * nat) : list any := take (merged m e) (received m e).

Record sound_moment (m : moment) : Prop := {
  s_passed : ∀ e, passed m e `prefix_of` sent m e.1;
  s_emits : ∀ i p pr, pipelines g !! i = Some p → processor p = Some pr →
    emits pr (handled m i) (sent m i);
  s_timely : ∀ i, timely 0 (handled m i);
  s_merged : ∀ e, (merged m e ≤ length (received m e))%nat;
  s_drawn : ∀ i p, pipelines g !! i = Some p →
    interleaved (drawn m <$> (pair i <$> seq 0 (length (sources p)))) (what <$> handled m i);
  s_yields : ∀ e s, source_at g e = Some s → source_yields s (received m e);
  s_nil : ∀ e, sink_at g e = Some (sink_Connector None) → passed m e = [];
  s_channel : ∀ c, ∃ channel,
    interleaved (passed m <$> filter (writes g c) sinks_of) channel ∧
    interleaved (received m <$> filter (reads g c) sources_of) channel;
}.

Lemma start_emits pr : emits pr [] [].
Proof. unfold emits. destruct (own_store pr); [done|]. by exists []. Qed.

Lemma handles_emits pr ins out a xs :
  emits pr ins out → handles pr ins a xs → emits pr (ins ++ [a]) (out ++ xs).
Proof.
  unfold emits, handles. destruct (own_store pr) as [s|].
  - intros -> ->. unfold outputs. rewrite run_app.
    destruct (run (handle_of pr) ins s) as [s1 xss]. cbn.
    destruct (exec _ _ _ s1) as [s2 xs]. cbn. by rewrite concat_app, <- (app_nil_r xs) at 1.
  - intros (xss & -> & Hall) Hxs. exists (xss ++ [xs]). split; [by rewrite concat_app; cbn; rewrite app_nil_r|].
    apply Forall2_app; [done|]. by constructor.
Qed.

(** The interval of an HTTP source is one that [time.NewTicker] takes. *)
Definition ticks (s : Source) : bool :=
  match s with src_HTTP h => bool_decide (0 < HTTPSource.interval h) | _ => true end.
Definition ticking : Prop := ∀ e s, source_at g e = Some s → ticks s = true.

Lemma start_yields s : ticks s = true → source_yields s [].
Proof.
  destruct s as [h|[c|]|r]; cbn; try done; [|by exists []].
  intros Hh%bool_decide_eq_true. exists [], []. split; [|apply sublist_nil_l].
  unfold HTTPSource.init. by rewrite decide_False by lia.
Qed.

Lemma fmap_nils {A} (f : A → list any) (l : list A) : (∀ x, f x = []) → interleaved (f <$> l) [].
Proof. intros Hf. constructor. apply Forall_fmap, Forall_true. done. Qed.

Lemma start_sound : ticking → sound_moment at_start.
Proof.
  intros Ht. split; cbn; try done.
  - intros. apply start_emits.
  - intros. by apply fmap_nils.
  - intros e s Hs. by eapply start_yields, Ht.
  - intros c. exists []. split; by apply fmap_nils.
Qed.

(** The channel between two ends, when one more element goes over it. *)
Lemma passes_on (f : nat * nat → list any) l ch e x :
  NoDup l → e ∈ l → interleaved (f <$> l) ch →
  interleaved (<[e := f e ++ [x]]> f <$> l) (ch ++ [x]).
Proof.
  intros Hnd [k Hk]%list_elem_of_lookup Hch. rewrite (fmap_update f l k e) by done.
  apply interleaved_snoc; [done|]. by rewrite list_lookup_fmap, Hk.
Qed.

Lemma NoDup_writers c : NoDup (filter (writes g c) sinks_of).
Proof. apply NoDup_filter, NoDup_ends. Qed.
Lemma NoDup_readers c : NoDup (filter (reads g c) sources_of).
Proof. apply NoDup_filter, NoDup_ends. Qed.

Lemma not_writer c e k :
  sink_at g e = Some k → is_connector_sink k = false → e ∉ filter (writes g c) sinks_of.
Proof. intros Hk Hc [Hw _]%list_elem_of_filter. unfold writes in Hw. rewrite Hk in Hw. by destruct k. Qed.

Lemma not_reader c e s :
  source_at g e = Some s → is_connector_source s = false → e ∉ filter (reads g c) sources_of.
Proof. intros Hs Hc [Hr _]%list_elem_of_filter. unfold reads in Hr. rewrite Hs in Hr. by destruct s. Qed.

Lemma writes_once c c' e : writes g c e → writes g c' e → c = c'.
Proof. unfold writes. destruct (sink_at g e) as [[|[]| | | |]|]; try done; intros; by subst. Qed.
Lemma reads_once c c' e : reads g c e → reads g c' e → c = c'.
Proof. unfold reads. destruct (source_at g e) as [[|[]|]|]; try done; intros; by subst. Qed.

(** An element sent and not yet passed on keeps what was passed on a first part. *)
Lemma passes_prefix (xs ys : list any) x :
  xs `prefix_of` ys → ys !! length xs = Some x → xs ++ [x] `prefix_of` ys.
Proof.
  intros [[|y k] ->]; [by rewrite app_nil_r, lookup_ge_None_2|].
  rewrite list_lookup_middle by done. intros [= ->]. exists k. by rewrite <- (assoc_L (++)).
Qed.

(** What was drawn does not depend on what has come since. *)
Lemma drawn_more n (xs : list any) x : (n ≤ length xs)%nat → take n (xs ++ [x]) = take n xs.
Proof. apply take_app_le. Qed.

Lemma drawn_next m e x :
  received m e !! merged m e = Some x →
  take (S (merged m e)) (received m e) = drawn m e ++ [x].
Proof. intros Hx. by apply take_S_r. Qed.

Lemma NoDup_pairs (i n : nat) : NoDup (pair i <$> seq 0 n).
Proof. apply NoDup_fmap_2; [by intros ?? [= ->]|]. apply NoDup_seq. Qed.

Lemma pairs_elem (i n : nat) e : e ∈ pair i <$> seq 0 n ↔ e.1 = i ∧ (e.2 < n)%nat.
Proof.
  rewrite list_elem_of_fmap. split.
  - intros (j & -> & Hj%elem_of_seq). cbn. lia.
  - intros [<- Hn]. exists e.2. split; [by destruct e|]. apply elem_of_seq. lia.
Qed.

(** A handling keeps a moment sound. *)
Lemma handle_sound m i p pr j a xs :
  pipelines g !! i = Some p → processor p = Some pr → (j < length (sources p))%nat →
  received m (i, j) !! merged m (i, j) = Some (what a) →
  clock_from (end_time 0 (handled m i)) (clock a) → handles pr (handled m i) a xs →
  sound_moment m →
  sound_moment (Moment (received m) (<[(i, j) := S (merged m (i, j))]> (merged m))
      (<[i := handled m i ++ [a]]> (handled m)) (<[i := sent m i ++ xs]> (sent m)) (passed m)).
Proof.
  intros Hi Hpr Hj Hx Hclk Hxs [Hpas Hem Hti Hme Hdr Hy Hn Hch]. split; cbn; try done.
  - intros e. destruct (decide (i = e.1)) as [->|Hne]; [|by rewrite fn_lookup_insert_ne].
    rewrite fn_lookup_insert. by apply prefix_app_r.
  - intros i' p' pr' Hi' Hpr'. destruct (decide (i = i')) as [<-|Hne];
      [|rewrite !fn_lookup_insert_ne by done; by eapply Hem].
    rewrite !fn_lookup_insert. simplify_eq. apply handles_emits; [by eapply Hem|done].
  - intros i'. destruct (decide (i = i')) as [<-|Hne]; [|by rewrite fn_lookup_insert_ne].
    rewrite fn_lookup_insert. by apply timely_snoc.
  - intros e. destruct (decide ((i, j) = e)) as [<-|Hne]; [|by rewrite fn_lookup_insert_ne].
    rewrite fn_lookup_insert. by apply lookup_lt_Some in Hx.
  - intros i' p' Hi'. set (es := pair i' <$> seq 0 (length (sources p'))).
    assert (∀ e, drawn (Moment (received m) (<[(i, j) := S (merged m (i, j))]> (merged m))
        (<[i := handled m i ++ [a]]> (handled m)) (<[i := sent m i ++ xs]> (sent m)) (passed m)) e
      = (<[(i, j) := drawn m (i, j) ++ [what a]]> (drawn m)) e) as Hd.
    { intros e. unfold drawn at 1. cbn. destruct (decide ((i, j) = e)) as [<-|Hne].
      - rewrite !fn_lookup_insert. by apply drawn_next.
      - by rewrite !fn_lookup_insert_ne. }
    rewrite (list_fmap_ext _ _ es (λ _ e _, Hd e)). destruct (decide (i = i')) as [<-|Hne].
    + rewrite fn_lookup_insert, fmap_app. simplify_eq. apply passes_on; [apply NoDup_pairs| |by apply Hdr].
      by apply pairs_elem.
    + rewrite fmap_update_out, fn_lookup_insert_ne; [by apply Hdr|done|].
      intros [Hin _]%pairs_elem. by apply Hne.
Qed.
(** What has been drawn stays as it is when more comes in. *)
Lemma receive_drawn m m' e x l ys :
  sound_moment m → received m' = <[e := received m e ++ [x]]> (received m) → merged m' = merged m →
  interleaved (drawn m <$> l) ys → interleaved (drawn m' <$> l) ys.
Proof.
  intros Hm Hr Hme Hd. rewrite (list_fmap_ext _ (drawn m) l); [done|]. intros _ e' _.
  unfold drawn. rewrite Hme, Hr. destruct (decide (e = e')) as [<-|Hne].
  - rewrite fn_lookup_insert. apply drawn_more, Hm.
  - by rewrite fn_lookup_insert_ne.
Qed.

Lemma receive_merged m e x e' :
  sound_moment m → (merged m e' ≤ length (<[e := received m e ++ [x]]> (received m) e'))%nat.
Proof.
  intros Hm. pose proof (s_merged m Hm e') as Hle. destruct (decide (e = e')) as [<-|Hne].
  - rewrite fn_lookup_insert, length_app. lia.
  - by rewrite fn_lookup_insert_ne.
Qed.

Lemma pass_prefix m e x e' :
  sound_moment m → sent m e.1 !! length (passed m e) = Some x →
  <[e := passed m e ++ [x]]> (passed m) e' `prefix_of` sent m e'.1.
Proof.
  intros Hm Hx. destruct (decide (e = e')) as [<-|Hne].
  - rewrite fn_lookup_insert. apply passes_prefix; [apply Hm|done].
  - rewrite fn_lookup_insert_ne by done. apply Hm.
Qed.

Lemma pass_nil m e x e' c :
  sound_moment m → sink_at g e = Some c → c ≠ sink_Connector None →
  sink_at g e' = Some (sink_Connector None) → <[e := passed m e ++ [x]]> (passed m) e' = [].
Proof.
  intros Hm Hc Hne He'. rewrite fn_lookup_insert_ne; [by apply Hm|]. intros ->. congruence.
Qed.

Lemma deliver_sound m e k x :
  sink_at g e = Some k → is_connector_sink k = false → sent m e.1 !! length (passed m e) = Some x →
  sound_moment m →
  sound_moment (Moment (received m) (merged m) (handled m) (sent m)
      (<[e := passed m e ++ [x]]> (passed m))).
Proof.
  intros Hk Hc Hx Hm. pose proof Hm as [Hpas Hem Hti Hme Hdr Hy Hn Hch]. split; cbn; try done.
  - intros e'. by apply pass_prefix.
  - intros e'. eapply pass_nil; [done..|]. by intros ->.
  - intros c. rewrite fmap_update_out by (by eapply not_writer). apply Hch.
Qed.

Lemma connect_sound m c w r x :
  writes g c w → reads g c r → sent m w.1 !! length (passed m w) = Some x → sound_moment m →
  sound_moment (Moment (<[r := received m r ++ [x]]> (received m)) (merged m) (handled m) (sent m)
      (<[w := passed m w ++ [x]]> (passed m))).
Proof.
  intros Hw Hr Hx Hm. pose proof Hm as [Hpas Hem Hti Hme Hdr Hy Hn Hch]. split; cbn; try done.
  - intros e'. by apply pass_prefix.
  - intros e'. by apply receive_merged.
  - intros i p Hi. by apply (receive_drawn m _ r x), Hdr.
  - intros e s Hs. destruct (decide (r = e)) as [<-|Hne]; [|rewrite fn_lookup_insert_ne by done; by apply Hy].
    unfold reads in Hr. rewrite Hs in Hr. by destruct s as [|[]|].
  - intros e' He'. rewrite fn_lookup_insert_ne; [by apply Hn|]. intros ->. unfold writes in Hw. by rewrite He' in Hw.
  - intros c'. destruct (decide (c = c')) as [<-|Hne].
    + destruct (Hch c) as (ch & Hcw & Hcr). exists (ch ++ [x]). split.
      * apply passes_on; [apply NoDup_writers| |done].
        apply list_elem_of_filter. split; [done|by eapply writes_end].
      * apply passes_on; [apply NoDup_readers| |done].
        apply list_elem_of_filter. split; [done|by eapply reads_end].
    + rewrite !fmap_update_out; [apply Hch|intros [? _]%list_elem_of_filter..]; apply Hne;
        [by eapply reads_once|by eapply writes_once].
Qed.

Lemma receive_sound m e s x :
  source_at g e = Some s → is_connector_source s = false → source_yields s (received m e ++ [x]) →
  sound_moment m →
  sound_moment (Moment (<[e := received m e ++ [x]]> (received m)) (merged m) (handled m) (sent m)
      (passed m)).
Proof.
  intros Hs Hc Hx Hm. pose proof Hm as [Hpas Hem Hti Hme Hdr Hy Hn Hch]. split; cbn; try done.
  - intros e'. by apply receive_merged.
  - intros i p Hi. by apply (receive_drawn m _ e x), Hdr.
  - intros e' s' Hs'. destruct (decide (e = e')) as [<-|Hne]; [|rewrite fn_lookup_insert_ne by done; by apply Hy].
    rewrite fn_lookup_insert. by simplify_eq.
  - intros c. rewrite (fmap_update_out (received m)) by (by eapply not_reader). apply Hch.
Qed.

Lemma works_sound m m' : works m m' → sound_moment m → sound_moment m'.
Proof. destruct 1; [by eapply handle_sound|by eapply deliver_sound|by eapply connect_sound]. Qed.

Lemma polls_sound m m' : polls m m' → sound_moment m → sound_moment m'.
Proof. destruct 1. by eapply receive_sound. Qed.

Lemma occurs_sound m : ticking → occurs m → sound_moment m.
Proof.
  intros Ht Ho. eapply rtc_keeps; [|exact Ho|by apply start_sound].
  intros x y [Hs|Hs]; eauto using works_sound, polls_sound.
Qed.

(** ** Nothing on its way *)

(** A graph that can work: every pipeline has a processor, the intervals of its
    sources are positive, and somebody hears each connector that is written to. *)
Definition heard (k : Sink) : bool :=
  match k with
  | sink_Connector None => false
  | sink_Connector (Some c) => existsb (λ e, bool_decide (reads g c e)) sources_of
  | _ => true
  end.
Definition pipeline_alive (p : Pipeline) : bool :=
  bool_decide (is_Some (processor p)) && forallb ticks (sources p) && forallb heard (sinks p).
Definition alive : bool := forallb pipeline_alive (pipelines g).

Lemma alive_pipeline i p :
  alive = true → pipelines g !! i = Some p →
  is_Some (processor p) ∧ (∀ j s, sources p !! j = Some s → ticks s = true) ∧
  ∀ j k, sinks p !! j = Some k → heard k = true.
Proof.
  unfold alive. rewrite forallb_forall. intros Ha Hi%list_elem_of_lookup_2%list_elem_of_In.
  specialize (Ha p Hi). unfold pipeline_alive in Ha.
  rewrite !andb_true_iff, bool_decide_eq_true, !forallb_forall in Ha. destruct Ha as [[Hp Hs] Hk].
  split_and!; [done|..]; intros j x Hx%list_elem_of_lookup_2%list_elem_of_In; auto.
Qed.

Lemma alive_ticking : alive = true → ticking.
Proof.
  intros Ha e s Hs. unfold source_at in Hs. destruct (pipelines g !! e.1) as [p|] eqn:Hp; [|done].
  by eapply (alive_pipeline e.1 p).
Qed.

Lemma rest_merged m i p j :
  at_rest m → pipelines g !! i = Some p → (j < length (sources p))%nat →
  merged m (i, j) = length (received m (i, j)).
Proof.
  intros [Hr _] Hi Hj. rewrite Forall_forall in Hr. apply Hr, elem_of_ends. by exists p.
Qed.

Lemma rest_passed m i p j :
  sound_moment m → at_rest m → pipelines g !! i = Some p → (j < length (sinks p))%nat →
  passed m (i, j) = sent m i.
Proof.
  intros Hm [_ Hr] Hi Hj. rewrite Forall_forall in Hr.
  assert ((i, j) ∈ sinks_of) as He by (apply elem_of_ends; by exists p).
  specialize (Hr _ He). cbn in Hr. apply prefix_length_eq; [apply (s_passed m Hm (i, j))|]. cbn. lia.
Qed.

Lemma traffic_taken m (l : list (nat * nat)) : (λ e, taken (traffic m) e.1 e.2) <$> l = received m <$> l.
Proof. apply list_fmap_ext. by intros _ [i j] _. Qed.
Lemma traffic_given m (l : list (nat * nat)) : (λ e, given (traffic m) e.1 e.2) <$> l = passed m <$> l.
Proof. apply list_fmap_ext. by intros _ [i j] _. Qed.

(** Where nothing is on its way the traffic is that of a run. *)
Lemma rest_runs m : alive = true → occurs m → at_rest m → Graph_Run g (traffic m).
Proof.
  intros Ha Ho Hrest. pose proof (occurs_sound m (alive_ticking Ha) Ho) as Hm. split.
  - intros i p Hi. destruct (alive_pipeline i p Ha Hi) as ([pr Hpr] & _ & _). split_and!.
    + exists pr, (sent m i). split_and!; [done|..|apply Hm|by eapply Hm|].
      * pose proof (s_drawn m Hm i p Hi) as Hd. cbn. rewrite list_fmap_id.
        rewrite <- list_fmap_compose in Hd. erewrite list_fmap_ext; [exact Hd|].
        intros _ j [_ Hj]%list_elem_of_lookup_2%elem_of_seq. cbn. unfold drawn.
        by rewrite (rest_merged m i p j), firstn_all by done.
      * apply list_eq. intros j. cbn. rewrite list_lookup_fmap.
        destruct (decide (j < length (sinks p))%nat) as [Hj|Hj].
        -- rewrite lookup_seq_lt, lookup_replicate_2 by done. cbn. f_equal. by eapply rest_passed.
        -- by rewrite lookup_seq_ge, (lookup_ge_None_2 (replicate _ _)) by (rewrite ?length_replicate; lia).
    + intros j s Hs. apply (s_yields m Hm (i, j)). unfold source_at. cbn. by rewrite Hi.
    + intros j Hs. apply (s_nil m Hm (i, j)). unfold sink_at. cbn. by rewrite Hi.
  - intros c. unfold all_given, all_taken. rewrite traffic_taken, traffic_given. apply (s_channel m Hm c).
Qed.

(** ** Progress *)

Lemma may_send_something (pg : prog) : ∃ xs, may_send pg xs.
Proof.
  induction pg as [|k new c IH|k x ttl c IH|k c [xs IH]|x c [xs IH]].
  - exists []. constructor.
  - destruct (IH None false) as [xs Hxs]. exists xs. by econstructor.
  - destruct (IH None) as [xs Hxs]. exists xs. by econstructor.
  - exists xs. by constructor.
  - exists (x :: xs). by constructor.
Qed.

Lemma handles_something pr ins a : ∃ xs, handles pr ins a xs.
Proof. unfold handles. destruct (own_store pr); [by eexists|]. apply may_send_something. Qed.

Lemma rest_or_works m : alive = true → sound_moment m → ¬ at_rest m → ∃ m', works m m'.
Proof.
  intros Ha Hm Hrest. destruct (decide (Forall (λ e, merged m e = length (received m e)) sources_of)) as [Hs|Hs].
  - assert (¬ Forall (λ e, length (passed m e) = length (sent m e.1)) sinks_of) as Hk by (intros ?; by apply Hrest).
    apply not_Forall_Exists, Exists_exists in Hk as (e & He & Hne); [|intros ?; apply _].
    apply elem_of_ends in He as (p & Hp & Hj). destruct (lookup_lt_is_Some_2 (sinks p) e.2) as [k Hk]; [done|].
    pose proof (s_passed m Hm e) as Hpre. apply prefix_length in Hpre as Hlen. cbn in Hne.
    destruct (lookup_lt_is_Some_2 (sent m e.1) (length (passed m e))) as [x Hx]; [lia|].
    assert (sink_at g e = Some k) as Hat by (unfold sink_at; by rewrite Hp).
    destruct (alive_pipeline e.1 p Ha Hp) as (_ & _ & Hheard). specialize (Hheard e.2 k Hk).
    destruct (is_connector_sink k) eqn:Hc; [|by eexists; eapply w_deliver].
    destruct k as [|[c|]| | | |]; try done. cbn in Hheard.
    apply existsb_exists in Hheard as (r & _ & Hr%bool_decide_eq_true).
    eexists. apply (w_connect m c e r x); [|done..]. unfold writes. by rewrite Hat.
  - apply not_Forall_Exists, Exists_exists in Hs as (e & He & Hne); [|intros ?; apply _].
    apply elem_of_ends in He as (p & Hp & Hj). pose proof (s_merged m Hm e) as Hle. cbn in Hne.
    destruct (lookup_lt_is_Some_2 (received m e) (merged m e)) as [x Hx]; [lia|].
    destruct (alive_pipeline e.1 p Ha Hp) as ([pr Hpr] & _ & _). destruct e as [i j].
    set (a := Arrival (still (end_time 0 (handled m i))) x).
    destruct (handles_something pr (handled m i) a) as [xs Hxs].
    eexists. apply (w_handle m i p pr j a xs); first [done|by apply clock_from_still].
Qed.

(** ** Levels

    In a well-typed graph elements go from one type of processor to the next, so
    that there is no way round. *)

Definition level (p : Processor) : nat :=
  match p with
  | P_FeedMessage _ => 0
  | P_VehiclePosition => 1
  | P_StopEvent _ => 2
  | P_DwellEvent _ | P_HeadwayEvent _ | P_TravelTime _ => 3
  end.

Lemma accepts_level p q : accepts q (T_message (produces p)) = true → (level p < level q)%nat.
Proof. destruct p, q; cbn; (done || lia). Qed.

Definition level_at (i : nat) : nat := from_option level 0%nat (pipelines g !! i ≫= processor).

Lemma level_bound i : (level_at i < 4)%nat.
Proof. unfold level_at. destruct (_ ≫= _) as [[]|]; cbn; lia. Qed.

Lemma connector_level c w r :
  alive = true → well_typed g = true → writes g c w → reads g c r → (level_at w.1 < level_at r.1)%nat.
Proof.
  intros Ha Hwt Hw Hr. pose proof (writes_end _ _ _ Hw) as Hwe.
  pose proof (reads_end _ _ _ Hr) as (q & Hq & _)%elem_of_ends.
  pose proof Hwe as (p & Hp & _)%elem_of_ends.
  destruct (alive_pipeline w.1 p Ha Hp) as ([x Hx] & _ & _).
  destruct (alive_pipeline r.1 q Ha Hq) as ([y Hy] & _ & _).
  unfold level_at. rewrite Hp, Hq. cbn. rewrite Hx, Hy. cbn. apply accepts_level.
  unfold well_typed in Hwt. rewrite forallb_forall in Hwt.
  specialize (Hwt q (proj1 (list_elem_of_In _ _) (list_elem_of_lookup_2 _ _ _ Hq))).
  rewrite Hy, forallb_forall in Hwt. unfold reads, source_at in Hr. rewrite Hq in Hr. cbn in Hr.
  destruct (sources q !! r.2) as [[|[c'|]|]|] eqn:Hs; try done. subst c'.
  specialize (Hwt _ (proj1 (list_elem_of_In _ _) (list_elem_of_lookup_2 _ _ _ Hs))).
  cbn [source_ok] in Hwt. rewrite forallb_forall in Hwt. specialize (Hwt w). rewrite Hp in Hwt.
  cbn in Hwt. rewrite Hx in Hwt. apply Hwt. by apply list_elem_of_In, list_elem_of_filter.
Qed.

(** What waits on a level: in front of its processors, and behind them. *)
Definition waiting (m : moment) (l : nat) : nat :=
  sum_list_with (λ e, if decide (level_at e.1 = l) then length (received m e) - merged m e else 0)%nat
    sources_of.
Definition unsent (m : moment) (l : nat) : nat :=
  sum_list_with (λ e, if decide (level_at e.1 = l) then length (sent m e.1) - length (passed m e) else 0)%nat
    sinks_of.

Lemma pass_unsent m m' e x :
  e ∈ sinks_of → sent m e.1 !! length (passed m e) = Some x →
  sent m' = sent m → passed m' = <[e := passed m e ++ [x]]> (passed m) →
  (unsent m' (level_at e.1) < unsent m (level_at e.1))%nat ∧
  ∀ l, l ≠ level_at e.1 → unsent m' l = unsent m l.
Proof.
  intros He Hx%lookup_lt_Some Hsent Hpas. unfold unsent. rewrite Hsent, Hpas. split.
  - apply (sum_smaller _ _ _ e); [done|..].
    + rewrite !decide_True, fn_lookup_insert, length_app by done. cbn. lia.
    + intros e' _. case_decide; [|done]. destruct (decide (e = e')) as [<-|Hne].
      * rewrite fn_lookup_insert, length_app. cbn. lia.
      * by rewrite fn_lookup_insert_ne.
  - intros l Hl. apply sum_same. intros e' _. case_decide; [|done].
    rewrite fn_lookup_insert_ne; [done|]. by intros ->.
Qed.

(** Each step takes from what waits on a level and adds behind it only. *)
Lemma works_descends m m' :
  alive = true → well_typed g = true → works m m' →
  descends (2 * 4) (loads (waiting m') (unsent m')) (loads (waiting m) (unsent m)).
Proof.
  intros Ha Hwt Hs. destruct Hs as [m i p pr j a xs Hi Hpr Hj Hx _ _|m e k x Hk _ Hx|m c w r x Hw Hr Hx].
  - apply lookup_lt_Some in Hx. apply (descends_first 4 _ _ _ _ (level_at i)); [apply level_bound|..].
    + apply (sum_smaller _ _ _ (i, j)); cbn; [apply elem_of_ends; by exists p|..].
      * rewrite !decide_True, fn_lookup_insert by done. lia.
      * intros e _. case_decide; [|done]. destruct (decide ((i, j) = e)) as [<-|Hne].
        -- rewrite fn_lookup_insert. lia.
        -- by rewrite fn_lookup_insert_ne.
    + intros l Hl. split; apply sum_same; intros e _; cbn; case_decide; try done;
        rewrite fn_lookup_insert_ne; try done; intros He; subst; cbn in *; lia.
  - assert (e ∈ sinks_of) as He.
    { unfold sink_at in Hk. apply elem_of_ends. destruct (pipelines g !! e.1) as [p|]; [|done].
      exists p. split; [done|]. by eapply lookup_lt_Some. }
    match goal with |- descends _ (loads _ (unsent ?m')) _ =>
      destruct (pass_unsent m m' e x He Hx eq_refl eq_refl) as [Hlt Hsame] end.
    apply (descends_second 4 _ _ _ _ (level_at e.1)); [apply level_bound|done|done|].
    intros l Hl. split; [done|]. apply Hsame. lia.
  - pose proof (connector_level c w r Ha Hwt Hw Hr) as Hlevel.
    match goal with |- descends _ (loads _ (unsent ?m')) _ =>
      destruct (pass_unsent m m' w x (writes_end _ _ _ Hw) Hx eq_refl eq_refl) as [Hlt Hsame] end.
    assert (∀ l, (l ≤ level_at w.1)%nat → waiting (Moment (<[r := received m r ++ [x]]> (received m))
      (merged m) (handled m) (sent m) (<[w := passed m w ++ [x]]> (passed m))) l = waiting m l) as Hwait.
    { intros l Hl. apply sum_same. intros e _. case_decide; [|done]. cbn.
      rewrite fn_lookup_insert_ne; [done|]. intros ->. lia. }
    apply (descends_second 4 _ _ _ _ (level_at w.1)); [apply level_bound|done|by apply Hwait|].
    intros l Hl. split; [apply Hwait; lia|]. apply Hsame. lia.
Qed.

Lemma works_terminates m : alive = true → well_typed g = true → Acc (flip works) m.
Proof.
  intros Ha Hwt. remember (loads (waiting m) (unsent m)) as f eqn:Hf. revert m Hf.
  induction (descends_wf (2 * 4) f) as [f _ IH]. intros m ->. constructor. intros m' Hs.
  eapply IH; [|done]. by apply works_descends.
Qed.

(** ** What a moment leads to *)

Lemma leads_to_refl m : leads_to m m.
Proof. by split_and!. Qed.

Lemma leads_to_trans m1 m2 m3 : leads_to m1 m2 → leads_to m2 m3 → leads_to m1 m3.
Proof.
  intros (Hr1 & Hh1 & Hp1 & Hs1) (Hr2 & Hh2 & Hp2 & Hs2). split_and!; [intros; etrans; eauto..|].
  intros e s He Hc. rewrite (Hs2 e s), (Hs1 e s); done.
Qed.

Lemma update_prefix {A} `{!EqDecision A} {B} (f : A → list B) a ys b :
  f b `prefix_of` <[a := f a ++ ys]> f b.
Proof.
  destruct (decide (a = b)) as [<-|Hne]; [|by rewrite fn_lookup_insert_ne].
  rewrite fn_lookup_insert. by eexists.
Qed.

Lemma works_leads m m' : works m m' → leads_to m m'.
Proof.
  destruct 1 as [m i p pr j a xs|m e k x Hk _ _|m c w r x Hw Hr _]; split_and!; cbn; try done;
    try (intros; apply update_prefix).
  intros e s Hs Hc. rewrite fn_lookup_insert_ne; [done|]. intros ->.
  unfold reads in Hr. rewrite Hs in Hr. by destruct s.
Qed.

(** C9: From every moment of a run of a well-typed graph, in whatever order the
    processors, the copies and the channels do the rest, the graph comes to a moment
    where nothing is on its way; until then there is always something to do.  There
    every channel has carried what it had and perhaps more, the sources have given
    no more than they had, and the traffic is that of a run.  So whatever has
    reached the sinks at any moment, also when the goroutines are stopped then, is a
    first part of what a run gives them. *)
Theorem graph_settles m :
  alive = true → well_typed g = true → occurs m →
  eventually works works (λ m', at_rest m' ∧ leads_to m m' ∧ Graph_Run g (traffic m')) m.
Proof.
  intros Ha Hwt Ho. pose proof (occurs_sound m (alive_ticking Ha) Ho) as Hm.
  apply (eventually_impl _ _ at_rest).
  - intros m' Hs Hrest. split; [done|]. split.
    + clear -Hs. induction Hs as [m|m1 m2 m3 Hs _ IH]; [apply leads_to_refl|].
      eapply leads_to_trans; [by apply works_leads|done].
    + apply rest_runs; [done| |done]. unfold occurs. etrans; [exact Ho|].
      eapply rtc_subrel; [|exact Hs]. intros x y Hxy. by left.
  - apply (eventually_terminates _ _ sound_moment); [intros; apply _|intros x y; apply works_sound| |
      by apply works_terminates|done].
    intros x Hx Hrest. by apply rest_or_works.
Qed.

(** C10: Step by step a graph does what [Graph_Run] says.  At every moment that can be
    reached and at which nothing is on its way, each processor has taken the elements
    of all its sources, each once and those of a source in order; each of its sinks
    has been sent everything that it sent for them, in order; and on each connector
    the readers have taken what the writers sent. *)
Theorem rest_is_run m : alive = true → occurs m → at_rest m → Graph_Run g (traffic m).
Proof. apply rest_runs. Qed.
End moments.
End Moments.
