(* ===== verification/Wiring.v ===== *)
(** * From the configuration to the channels

    What the connectors of a configuration mean for a run of the graph built from
    it: a connector that one pipeline names as a sink and one as its source hands
    everything the processor of the first sends, and nothing else, to the
    processor of the second. *)
From S2P Require Import Prelude Interleave GoTime ParseDuration Events StateStore Proc Config.
From S2P Require Import DbSink ParquetSink Endpoints Graph Typing Network.

Import Graph GraphSpec.

Section wiring.
Context `{!SqlDB, !AWS, !MapOrder, !MapOrderOk, !ProtoLib, !Platform, !GoStreams, !GoStreamsOk}.

Lemma lookup_entries {A} (m : gomap A) id : entries m !! id = lookup_map m id.
Proof. destruct m; cbn; [done|]. apply lookup_empty. Qed.

(** What [valid_config_builds] asks of a configuration. *)
Record sound (g : GraphConfig.t) : Prop := {
  so_valid : Validate g = None;
  so_writable : writable g;
  so_sources : sources_known g;
  so_sinks : sinks_built g;
}.

(** The entries of the configuration in the order of the pipelines of the graph,
    which is that of a map. *)
Record layout (g : GraphConfig.t) (gr : Graph.t) (ps : list (ID * PipelineConfig.t)) : Prop := {
  l_entries : ps ≡ₚ map_to_list (entries (GraphConfig.Pipelines g));
  l_built : Forall2 (λ kv pl, built_from g kv.2 pl) ps (pipelines gr);
}.

Lemma sound_layout g gr : sound g → NewGraph g = Built gr → ∃ ps, layout g gr ps.
Proof.
  intros [Hv Hw Hs Hk] Hgr. destruct (valid_builds g Hv Hw Hs Hk) as (gr' & Hgr' & ps & ? & ?).
  rewrite Hgr in Hgr'. injection Hgr' as <-. by exists ps.
Qed.

Lemma layout_at g gr ps i id p :
  layout g gr ps → ps !! i = Some (id, p) →
  ∃ pl pr, pipelines gr !! i = Some pl ∧ built_from g p pl ∧ processor pl = Some pr.
Proof.
  intros [_ Hb] Hi. destruct (Forall2_lookup_l _ _ _ _ _ Hb Hi) as (pl & Hpl & Hpb).
  destruct (b_running _ _ _ Hpb) as [pr Hpr]. by exists pl, pr.
Qed.

Lemma layout_of g gr ps i pl :
  layout g gr ps → pipelines gr !! i = Some pl →
  ∃ id p, ps !! i = Some (id, p) ∧ built_from g p pl ∧
    lookup_map (GraphConfig.Pipelines g) id = Some p.
Proof.
  intros [He Hb] Hi. destruct (Forall2_lookup_r _ _ _ _ _ Hb Hi) as ([id p] & Hp & Hpb).
  exists id, p. split_and!; [done..|]. rewrite <- lookup_entries.
  apply elem_of_map_to_list. rewrite <- He. by eapply list_elem_of_lookup_2.
Qed.

Lemma layout_find g gr ps id p :
  layout g gr ps → lookup_map (GraphConfig.Pipelines g) id = Some p → ∃ i, ps !! i = Some (id, p).
Proof.
  intros [He _] Hp. apply list_elem_of_lookup. rewrite He.
  apply elem_of_map_to_list. by rewrite lookup_entries.
Qed.

Lemma layout_key g gr ps i i' id p p' :
  layout g gr ps → ps !! i = Some (id, p) → ps !! i' = Some (id, p') → i = i'.
Proof.
  intros [He _] Hi Hi'. assert (NoDup ps.*1) as Hnd by (rewrite He; apply NoDup_fst_map_to_list).
  eapply NoDup_lookup; [done|..]; by rewrite list_lookup_fmap, ?Hi, ?Hi'.
Qed.

(** Connectors are declared under [connectors] and nowhere else. *)
Record plain_ends (g : GraphConfig.t) : Prop := {
  pe_sources : ∀ id c, lookup_map (GraphConfig.Sources g) id = Some c →
    SourceConfig.Type_ c ≠ SourceTypeConnector;
  pe_sinks : ∀ id c, lookup_map (GraphConfig.Sinks g) id = Some c →
    SinkConfig.Type_ c ≠ SinkTypeConnector;
}.

Lemma NewSource_connector cfg cs ch :
  NewSource cfg cs = inl (src_Connector ch) → SourceConfig.Type_ cfg = SourceTypeConnector.
Proof. unfold NewSource. split_cases. Qed.

Lemma NewSink_connector cfg cs ch :
  NewSink cfg cs = inl (sink_Connector ch) → SinkConfig.Type_ cfg = SinkTypeConnector.
Proof. unfold NewSink. split_cases. Qed.
Lemma source_for_connector g id c :
  is_Some (lookup_map (GraphConfig.Connectors g) c) → plain_ends g →
  source_for g id (src_Connector (Some c)) ↔ id = c.
Proof.
  intros Hc [Hplain _]. split.
  - intros (cfg & Hcfg & Hnew). unfold effective in Hcfg. case_decide as Hid.
    + destruct (connector_links g id Hid) as [Hl _].
      assert (source_for g id (src_Connector (Some c))) as Hs%Hl
        by (exists cfg; split; [unfold effective; by rewrite decide_True|done]). congruence.
    + by apply NewSource_connector, Hplain with (id := id) in Hnew.
  - intros ->. by apply (connector_links g c Hc).
Qed.

Lemma sink_for_connector g id c :
  is_Some (lookup_map (GraphConfig.Connectors g) c) → plain_ends g →
  sink_for g id (sink_Connector (Some c)) ↔ id = c.
Proof.
  intros Hc [_ Hplain]. split.
  - intros (cfg & Hcfg & Hnew). unfold effective in Hcfg. case_decide as Hid.
    + destruct (connector_links g id Hid) as [_ Hl].
      assert (sink_for g id (sink_Connector (Some c))) as Hs%Hl
        by (exists cfg; split; [unfold effective; by rewrite decide_True|done]). congruence.
    + by apply NewSink_connector, Hplain with (id := id) in Hnew.
  - intros ->. by apply (connector_links g c Hc).
Qed.

Lemma reads_iff g gr ps c i j :
  is_Some (lookup_map (GraphConfig.Connectors g) c) → plain_ends g → layout g gr ps →
  reads gr c (i, j) ↔ ∃ id p, ps !! i = Some (id, p) ∧ PipelineConfig.Sources p !! j = Some c.
Proof.
  intros Hc Hplain Hl. unfold reads, source_at. cbn. split.
  - destruct (pipelines gr !! i) as [pl|] eqn:Hpl; [cbn|done].
    destruct (sources pl !! j) as [s|] eqn:Hs; [|done].
    destruct (layout_of _ _ _ _ _ Hl Hpl) as (id & p & Hi & Hb & _).
    destruct (Forall2_lookup_r _ _ _ _ _ (b_sources _ _ _ Hb) Hs) as (n & Hn & Hf).
    destruct s as [|[c'|]|]; try done. intros ->. exists id, p. split; [done|].
    apply (source_for_connector g n c Hc Hplain) in Hf. by subst.
  - intros (id & p & Hi & Hj). destruct (layout_at _ _ _ _ _ _ Hl Hi) as (pl & pr & Hpl & Hb & _).
    rewrite Hpl. cbn.
    destruct (Forall2_lookup_l _ _ _ _ _ (b_sources _ _ _ Hb) Hj) as (s & Hs & Hf).
    rewrite Hs. apply (connector_links g c Hc) in Hf. by subst.
Qed.

Lemma writes_iff g gr ps c i j :
  is_Some (lookup_map (GraphConfig.Connectors g) c) → plain_ends g → layout g gr ps →
  writes gr c (i, j) ↔ ∃ id p, ps !! i = Some (id, p) ∧ PipelineConfig.Sinks p !! j = Some c.
Proof.
  intros Hc Hplain Hl. unfold writes, sink_at. cbn. split.
  - destruct (pipelines gr !! i) as [pl|] eqn:Hpl; [cbn|done].
    destruct (sinks pl !! j) as [s|] eqn:Hs; [|done].
    destruct (layout_of _ _ _ _ _ Hl Hpl) as (id & p & Hi & Hb & _).
    destruct (Forall2_lookup_r _ _ _ _ _ (b_sinks _ _ _ Hb) Hs) as (n & Hn & Hf).
    destruct s as [|[c'|]| | | |]; try done. intros ->. exists id, p. split; [done|].
    apply (sink_for_connector g n c Hc Hplain) in Hf. by subst.
  - intros (id & p & Hi & Hj). destruct (layout_at _ _ _ _ _ _ Hl Hi) as (pl & pr & Hpl & Hb & _).
    rewrite Hpl. cbn.
    destruct (Forall2_lookup_l _ _ _ _ _ (b_sinks _ _ _ Hb) Hj) as (s & Hs & Hf).
    rewrite Hs. apply (connector_links g c Hc) in Hf. by subst.
Qed.

(** Only the pipeline [id] names [c] among its [names], at the position [j]. *)
Definition named_once (names : PipelineConfig.t → list ID) (g : GraphConfig.t) (c : ID)
    (id : ID) (p : PipelineConfig.t) (j : nat) : Prop :=
  lookup_map (GraphConfig.Pipelines g) id = Some p ∧ names p !! j = Some c ∧
  ∀ id' p' j', lookup_map (GraphConfig.Pipelines g) id' = Some p' → names p' !! j' = Some c →
    id' = id ∧ j' = j.

Lemma named_once_at names g gr ps c id p j i :
  layout g gr ps → named_once names g c id p j → ps !! i = Some (id, p) →
  ∀ e : nat * nat, (∃ id' p', ps !! e.1 = Some (id', p') ∧ names p' !! e.2 = Some c) ↔ e = (i, j).
Proof.
  intros Hl (Hp & Hj & Hsole) Hi [i' j']. cbn. split.
  - intros (id' & p' & Hi' & Hj').
    destruct (layout_at _ _ _ _ _ _ Hl Hi') as (pl & pr & Hpl & _).
    destruct (layout_of _ _ _ _ _ Hl Hpl) as (id2 & p2 & Hi2 & _ & Hlook).
    rewrite Hi' in Hi2. injection Hi2 as <- <-.
    destruct (Hsole id' p' j' Hlook Hj') as [-> ->].
    by rewrite (layout_key _ _ _ _ _ _ _ _ Hl Hi Hi').
  - intros [= -> ->]. by exists id, p.
Qed.

(** The connector [c] joins the pipeline [w], where it is sink number [j], to the
    pipeline [r], of which it is the only source. *)
Record joins (g : GraphConfig.t) (c w : ID) (pw : PipelineConfig.t) (j : nat)
    (r : ID) (pr : PipelineConfig.t) : Prop := {
  j_connector : is_Some (lookup_map (GraphConfig.Connectors g) c);
  j_writer : named_once PipelineConfig.Sinks g c w pw j;
  j_reader : named_once PipelineConfig.Sources g c r pr 0;
  j_alone : PipelineConfig.Sources pr = [c];
}.

Lemma joined_carries g gr ps fl c w pw j r pr iw ir :
  layout g gr ps → plain_ends g → joins g c w pw j r pr → Graph_Run gr fl →
  ps !! iw = Some (w, pw) → ps !! ir = Some (r, pr) →
  ∃ plw x, pipelines gr !! iw = Some plw ∧ built_from g pw plw ∧ processor plw = Some x ∧
    emits x (arrivals fl iw) (what <$> arrivals fl ir).
Proof.
  intros Hl Hplain [Hc Hw Hr Hone] Hrun Hiw Hir.
  destruct (layout_at _ _ _ _ _ _ Hl Hiw) as (plw & x & Hplw & Hbw & Hx).
  destruct (layout_at _ _ _ _ _ _ Hl Hir) as (plr & y & Hplr & Hbr & Hy).
  assert (taken fl ir 0 = given fl iw j) as Hch.
  { apply (one_to_one gr fl c (iw, j) (ir, 0%nat) Hrun).
    - intros [i' j']. rewrite (writes_iff _ _ _ _ _ _ Hc Hplain Hl).
      apply (named_once_at _ _ _ _ _ _ _ _ _ Hl Hw Hiw (i', j')).
    - intros [i' j']. rewrite (reads_iff _ _ _ _ _ _ Hc Hplain Hl).
      apply (named_once_at _ _ _ _ _ _ _ _ _ Hl Hr Hir (i', j')). }
  pose proof (pipeline_taken gr fl ir plr Hrun Hplr) as Htk.
  pose proof (Forall2_length _ _ _ (b_sources _ _ _ Hbr)) as Hlen. rewrite Hone in Hlen.
  rewrite <- Hlen in Htk. cbn in Htk. apply interleaved_one in Htk. rewrite Htk, Hch.
  destruct (pipeline_given gr fl iw plw j Hrun Hplw) as (x' & Hx' & Hem).
  { rewrite <- (Forall2_length _ _ _ (b_sinks _ _ _ Hbw)). eapply lookup_lt_Some, Hw. }
  rewrite Hx in Hx'. injection Hx' as <-. by exists plw, x.
Qed.

(** C7: A connector that joins two pipelines in the configuration joins their
    processors in every run of the graph built from it: what the reader's
    processor takes is, element for element and in order, what the processor of
    the writer sends, whatever else is connected and in whatever order the graph
    was built. *)
Theorem connector_carries g gr fl c w pw j r pr :
  sound g → NewGraph g = Built gr → plain_ends g → joins g c w pw j r pr → Graph_Run gr fl →
  ∃ iw ir plw plr x,
    pipelines gr !! iw = Some plw ∧ built_from g pw plw ∧ processor plw = Some x ∧
    pipelines gr !! ir = Some plr ∧ built_from g pr plr ∧
    emits x (arrivals fl iw) (what <$> arrivals fl ir).
Proof.
  intros Hs Hgr Hplain Hj Hrun. destruct (sound_layout g gr Hs Hgr) as [ps Hl].
  destruct (layout_find _ _ _ _ _ Hl (proj1 (j_writer _ _ _ _ _ _ _ Hj))) as [iw Hiw].
  destruct (layout_find _ _ _ _ _ Hl (proj1 (j_reader _ _ _ _ _ _ _ Hj))) as [ir Hir].
  destruct (joined_carries _ _ _ _ _ _ _ _ _ _ _ _ Hl Hplain Hj Hrun Hiw Hir)
    as (plw & x & ? & ? & ? & ?).
  destruct (layout_at _ _ _ _ _ _ Hl Hir) as (plr & y & ? & ? & _).
  by exists iw, ir, plw, plr, x.
Qed.
End wiring.
