(* ===== verification/Deploy.v ===== *)
(** * Deployments

    A configuration as the shipped YAML files are written: lists of sources,
    connectors, sinks and pipelines under names of their own, and no state stores.
    What every run of the graph built from one looks like: which pipeline is where,
    what reaches its processor, and what its sinks are sent. *)
From S2P Require Import Prelude Interleave GoTime ParseDuration Gtfs Events StateStore Proc Config.
From S2P Require Import DbSink ParquetSink Endpoints Graph Typing Network Moments Wiring Transit.

Import Graph GraphSpec InMemory.
#[local] Existing Instances InMemory.in_memory InMemory.in_memory_ok.

Record deployment := Deployment {
  d_sources : list (ID * SourceConfig.t);
  d_connectors : list ID;
  d_sinks : list (ID * SinkConfig.t);
  d_pipelines : list (ID * PipelineConfig.t);
}.

Definition yaml (d : deployment) : GraphConfig.t := GraphConfig.mk
  (Some (list_to_map (d_sources d)))
  None
  (Some (list_to_map ((λ id, (id, tt)) <$> d_connectors d)))
  (Some (list_to_map (d_sinks d)))
  (Some (list_to_map (d_pipelines d))).

(** The processor of an entry: it has a store of its own, since none is declared. *)
Definition role (p : PipelineConfig.t) : option Processor :=
  NewProcessor (PipelineConfig.AgencyID p) (PipelineConfig.Type_ p) None.

(** No name is used twice, connectors are declared as such only, the sources are of
    known types, and the processors differ. *)
Record tidy (d : deployment) : Prop := {
  t_sources : NoDup (d_sources d).*1;
  t_sinks : NoDup (d_sinks d).*1;
  t_pipelines : NoDup (d_pipelines d).*1;
  t_apart : Forall (λ c, (c ∉ (d_sources d).*1) ∧ (c ∉ (d_sinks d).*1)) (d_connectors d);
  t_known : Forall (λ kv, SourceConfig.Type_ kv.2 ∈ [SourceTypeHTTP; SourceTypeRedis]) (d_sources d);
  t_plain : Forall (λ kv, SinkConfig.Type_ kv.2 ≠ SinkTypeConnector) (d_sinks d);
  t_roles : NoDup ((λ kv, role (snd kv)) <$> (d_pipelines d));
}.

(** Who names [c]: pipelines and positions. *)
Definition users (names : PipelineConfig.t → list ID) (c : ID) (l : list (ID * PipelineConfig.t))
    : list (ID * nat) :=
  concat ((λ kv, pair kv.1 <$> filter (λ j, names kv.2 !! j = Some c) (seq 0 (length (names kv.2))))
    <$> l).

Lemma elem_of_users names c l id p j :
  (id, p) ∈ l → names p !! j = Some c → (id, j) ∈ users names c l.
Proof.
  intros Hp Hj. apply list_elem_of_In, in_concat.
  exists (pair id <$> filter (λ j, names p !! j = Some c) (seq 0 (length (names p)))).
  rewrite <- !list_elem_of_In, !list_elem_of_fmap. split; [by exists (id, p)|].
  exists j. split; [done|]. apply list_elem_of_filter. split; [done|].
  apply elem_of_seq. apply lookup_lt_Some in Hj. lia.
Qed.

Lemma users_named_once names g l c id p j :
  GraphConfig.Pipelines g = Some (list_to_map l) → NoDup l.*1 → (id, p) ∈ l →
  users names c l = [(id, j)] → named_once names g c id p j.
Proof.
  intros Hg Hnd Hp Hu. unfold named_once, lookup_map. rewrite Hg. cbn. split_and!.
  - by apply elem_of_list_to_map_1.
  - assert ((id, j) ∈ users names c l) as Hj by (rewrite Hu; apply list_elem_of_here).
    unfold users in Hj. apply list_elem_of_In, in_concat in Hj as (x & Hx & Hj).
    apply list_elem_of_In in Hx, Hj. apply list_elem_of_fmap in Hx as ([id' p'] & -> & Hp').
    cbn in Hj. apply list_elem_of_fmap in Hj as (j' & [= <- <-] & [Hj' _]%list_elem_of_filter).
    apply elem_of_list_to_map_1 in Hp, Hp'; [|done..]. congruence.
  - intros id' p' j' Hp'%elem_of_list_to_map_2 Hj'.
    pose proof (elem_of_users names c l id' p' j' Hp' Hj') as Hin. rewrite Hu in Hin.
    apply list_elem_of_singleton in Hin. by injection Hin.
Qed.

(** ** It builds *)

Section deployed.
Context `{!SqlDB, !AWS, !MapOrder, !MapOrderOk} (d : deployment) (T : tidy d).

Lemma lookup_source id c :
  lookup_map (GraphConfig.Sources (yaml d)) id = Some c ↔ (id, c) ∈ d_sources d.
Proof. cbn. symmetry. apply elem_of_list_to_map, T. Qed.

Lemma lookup_sink id c : lookup_map (GraphConfig.Sinks (yaml d)) id = Some c ↔ (id, c) ∈ d_sinks d.
Proof. cbn. symmetry. apply elem_of_list_to_map, T. Qed.

Lemma lookup_pipeline id p :
  lookup_map (GraphConfig.Pipelines (yaml d)) id = Some p ↔ (id, p) ∈ d_pipelines d.
Proof. cbn. symmetry. apply elem_of_list_to_map, T. Qed.

Lemma lookup_connector id :
  is_Some (lookup_map (GraphConfig.Connectors (yaml d)) id) ↔ id ∈ d_connectors d.
Proof.
  cbn. split.
  - intros [[] Hid%elem_of_list_to_map_2]. by apply list_elem_of_fmap in Hid as (? & [= <-] & ?).
  - intros Hid. apply not_eq_None_Some. rewrite <- not_elem_of_list_to_map. intros Hn. apply Hn.
    rewrite <- list_fmap_compose. apply list_elem_of_fmap. by exists id.
Qed.

(** A declared source or sink is not a connector. *)
Lemma declared_source id c :
  (id, c) ∈ d_sources d → effective connector_source (GraphConfig.Connectors (yaml d))
    (GraphConfig.Sources (yaml d)) id = Some c.
Proof.
  intros Hid. unfold effective. rewrite decide_False; [by apply lookup_source|].
  rewrite lookup_connector. intros Hc. pose proof (t_apart _ T) as Ha. rewrite Forall_forall in Ha.
  apply (proj1 (Ha id Hc)). apply list_elem_of_fmap. by exists (id, c).
Qed.

Lemma declared_sink id c :
  (id, c) ∈ d_sinks d → effective connector_sink (GraphConfig.Connectors (yaml d))
    (GraphConfig.Sinks (yaml d)) id = Some c.
Proof.
  intros Hid. unfold effective. rewrite decide_False; [by apply lookup_sink|].
  rewrite lookup_connector. intros Hc. pose proof (t_apart _ T) as Ha. rewrite Forall_forall in Ha.
  apply (proj2 (Ha id Hc)). apply list_elem_of_fmap. by exists (id, c).
Qed.

Lemma deployed_plain : plain_ends (yaml d).
Proof.
  split; intros id c Hc.
  - apply lookup_source in Hc. pose proof (t_known _ T) as Hk. rewrite Forall_forall in Hk.
    specialize (Hk _ Hc). cbn in Hk. intros He. rewrite He in Hk.
    rewrite !elem_of_cons, elem_of_nil in Hk. by destruct_or? Hk.
  - apply lookup_sink in Hc. pose proof (t_plain _ T) as Hk. rewrite Forall_forall in Hk.
    apply (Hk _ Hc).
Qed.

(** A deployment that validates and whose sinks can be built is sound. *)
Lemma deployed_sound :
  Validate (yaml d) = None → sinks_built (yaml d) → sound (yaml d).
Proof.
  intros Hv Hk. split; [done|right; split; by eexists| |done].
  intros id src Hs%lookup_source _. pose proof (t_known _ T) as Hkn. rewrite Forall_forall in Hkn.
  specialize (Hkn _ Hs). cbn in Hkn. rewrite !elem_of_cons, elem_of_nil in *. tauto.
Qed.

Lemma deployed_layout gr :
  Validate (yaml d) = None → NewGraph (yaml d) = Built gr → ∃ ps, layout (yaml d) gr ps.
Proof.
  intros Hv Hgr. apply sound_layout; [|done]. apply deployed_sound; [done|].
  by eapply built_ends.
Qed.

Lemma deployed_processor p pl : built_from (yaml d) p pl → processor pl = role p.
Proof. intros Hb. by rewrite (b_processor _ _ _ Hb), (b_store _ _ _ Hb). Qed.

Context (gr : Graph.t) (ps : list (ID * PipelineConfig.t)) (L : layout (yaml d) gr ps).

(** The pipeline of each entry. *)
Lemma deployed_at :
  ∃ at_ : nat → nat, ∀ n e, d_pipelines d !! n = Some e → ps !! at_ n = Some e.
Proof.
  assert (∀ e, e ∈ d_pipelines d → ∃ i, ps !! i = Some e) as Hex.
  { intros [id p] He%lookup_pipeline. by apply (layout_find _ _ _ _ _ L). }
  exists (λ n, default 0%nat (fst <$> list_find (λ kv, Some kv.1 = fst <$> d_pipelines d !! n) ps)).
  intros n [id p] Hn. rewrite Hn. cbn. destruct (Hex (id, p)) as [i Hi]; [by eapply list_elem_of_lookup_2|].
  destruct (list_find_elem_of (λ kv, Some kv.1 = Some id) ps (id, p)) as [[i' [id' p']] Hf];
    [by eapply list_elem_of_lookup_2|done|].
  rewrite Hf. cbn. apply list_find_Some in Hf as (Hi' & [= ->] & _). cbn in Hi'.
  by rewrite (layout_key _ _ _ _ _ _ _ _ L Hi' Hi), Hi in Hi' |- *.
Qed.

(** The entry of each pipeline. *)
Lemma deployed_entry i pl :
  pipelines gr !! i = Some pl → ∃ id p, (id, p) ∈ d_pipelines d ∧ ps !! i = Some (id, p) ∧
    built_from (yaml d) p pl ∧ processor pl = role p.
Proof.
  intros Hpl. destruct (layout_of _ _ _ _ _ L Hpl) as (id & p & Hps & Hb & Hp%lookup_pipeline).
  exists id, p. auto using deployed_processor.
Qed.

(** The processor tells the entry. *)
Lemma deployed_only n e i :
  d_pipelines d !! n = Some e → pipelines gr !! i ≫= processor = role e.2 → is_Some (role e.2) →
  ps !! i = Some e.
Proof.
  intros Hn Hi [pr Hpr]. destruct (pipelines gr !! i) as [pl|] eqn:Hpl; cbn in Hi; [|congruence].
  destruct (deployed_entry i pl Hpl) as (id & p & Hin & Hps & _ & Hp).
  apply list_elem_of_lookup in Hin as [m Hm].
  assert (m = n) as ->.
  { eapply NoDup_lookup; [apply (t_roles _ T)|..]; rewrite list_lookup_fmap, ?Hm, ?Hn; [done|].
    cbn. by rewrite <- Hi, Hp. }
  congruence.
Qed.
End deployed.

(** ** It runs *)

Definition fresh (expiry : Z) : InMemoryStateStore := NewInMemoryStateStore (mkConfig expiry).

(** The connector [c] joins the entry [w], where it is sink number [j], to the entry
    [r], which has no other source. *)
Record joint (d : deployment) (c : ID) (w : ID * PipelineConfig.t) (j : nat)
    (r : ID * PipelineConfig.t) : Prop := {
  jo_connector : c ∈ d_connectors d;
  jo_writer : w ∈ d_pipelines d;
  jo_reader : r ∈ d_pipelines d;
  jo_writes : users PipelineConfig.Sinks c (d_pipelines d) = [(w.1, j)];
  jo_reads : users PipelineConfig.Sources c (d_pipelines d) = [(r.1, 0%nat)];
  jo_alone : PipelineConfig.Sources r.2 = [c];
}.

Lemma joint_joins d c w j r :
  tidy d → joint d c w j r → joins (yaml d) c w.1 w.2 j r.1 r.2.
Proof.
  destruct w as [w pw], r as [r pr]. intros T [Hc Hw Hr Hws Hrs Hone].
  split; [by apply lookup_connector|..|done];
    (eapply users_named_once; [done|apply T|done|done]).
Qed.

(** The sinks of an entry that are not connectors. *)
Definition outlets (d : deployment) (p : PipelineConfig.t) : list ID :=
  filter (λ s, s ∈ (d_sinks d).*1) (PipelineConfig.Sinks p).

Section runs.
Context `{!SqlDB, !AWS, !MapOrder, !MapOrderOk, !ProtoLib, !Platform, !GoStreams, !GoStreamsOk}.

(** What a processor on a new store of its own sends. *)
Definition sends (pr : Processor) (ins : list arrival) : list any :=
  outputs (handle_of pr) ins (default (fresh 0) (own_store pr)).

Lemma role_emits p pr ins out : role p = Some pr → emits pr ins out ↔ out = sends pr ins.
Proof. unfold role, NewProcessor. repeat case_decide; intros; simplify_eq; done. Qed.

(** The sinks with the names [names] are among those of the pipeline [i], all of
    which are sent [xs]. *)
Definition publishes (d : deployment) (gr : Graph.t) (fl : flow) (i : nat) (names : list ID)
    (xs : list any) : Prop :=
  ∃ pl, pipelines gr !! i = Some pl ∧
    (∀ s snk, s ∈ names → (s, snk) ∈ d_sinks d →
       ∃ k, NewSink snk (channels (yaml d)) = inl k ∧ k ∈ sinks pl) ∧
    ∀ j k, sinks pl !! j = Some k → given fl i j = xs.

Lemma run_timely g fl i p : Graph_Run g fl → pipelines g !! i = Some p → timely 0 (arrivals fl i).
Proof. intros [Hp _] Hi. by destruct (Hp i p Hi) as [(? & ? & ? & ? & ? & _) _]. Qed.

Context (d : deployment) (T : tidy d).
Context (gr : Graph.t) (ps : list (ID * PipelineConfig.t)) (L : layout (yaml d) gr ps).
Context (fl : flow) (R : Graph_Run gr fl).

Lemma deployed_role i e :
  ps !! i = Some e → pipelines gr !! i ≫= processor = role e.2.
Proof.
  destruct e as [id p]. intros Hi. destruct (layout_at _ _ _ _ _ _ L Hi) as (pl & pr & -> & Hb & Hpr). cbn.
  by apply (deployed_processor d).
Qed.

Lemma deployed_timely i e : ps !! i = Some e → timely 0 (arrivals fl i).
Proof. destruct e as [id p]. intros Hi. destruct (layout_at _ _ _ _ _ _ L Hi) as (pl & _ & Hpl & _). by eapply run_timely. Qed.

(** All sinks of an entry are sent what its processor sends. *)
Lemma deployed_published i e pr :
  ps !! i = Some e → role e.2 = Some pr →
  publishes d gr fl i (outlets d e.2) (sends pr (arrivals fl i)).
Proof.
  destruct e as [id p]. cbn [snd]. intros Hi Hr. destruct (layout_at _ _ _ _ _ _ L Hi) as (pl & x & Hpl & Hb & Hx). exists pl.
  split_and!; [done|..].
  - intros s snk [Hs Hin]%list_elem_of_filter Hsnk. apply list_elem_of_lookup in Hin as [j Hj].
    destruct (Forall2_lookup_l _ _ _ _ _ (b_sinks _ _ _ Hb) Hj) as (k & Hk & c & Hc & Hnew).
    rewrite (declared_sink d T s snk Hsnk) in Hc. injection Hc as <-. exists k.
    split; [done|]. by eapply list_elem_of_lookup_2.
  - intros j k Hj%lookup_lt_Some.
    destruct (pipeline_given gr fl i pl j R Hpl Hj) as (y & Hy & Hem).
    rewrite (deployed_processor d p pl Hb), Hr in Hy. injection Hy as <-.
    by apply (role_emits p) in Hem.
Qed.

(** What a joint carries. *)
Lemma deployed_carries c w j r iw ir pr :
  joint d c w j r → ps !! iw = Some w → ps !! ir = Some r → role w.2 = Some pr →
  carries (arrivals fl ir) (sends pr (arrivals fl iw)).
Proof.
  intros Hjoint%(joint_joins _ _ _ _ _ T) Hiw Hir Hpr. destruct w as [w pw], r as [r pr'].
  cbn [fst snd] in Hjoint.
  destruct (joined_carries _ _ _ _ _ _ _ _ _ _ _ _ L (deployed_plain d T) Hjoint R Hiw Hir)
    as (plw & x & Hpl & Hb & Hx & Hem).
  rewrite (deployed_processor d pw plw Hb) in Hx. cbn in Hpr. rewrite Hpr in Hx.
  injection Hx as <-. by apply (role_emits pw) in Hem.
Qed.

(** An entry with one declared source takes what that yields. *)
Lemma deployed_source i e s c k :
  ps !! i = Some e → PipelineConfig.Sources e.2 = [s] → (s, c) ∈ d_sources d →
  NewSource c (channels (yaml d)) = inl k →
  source_at gr (i, 0%nat) = Some k ∧ what <$> arrivals fl i = taken fl i 0 ∧
  source_yields k (what <$> arrivals fl i).
Proof.
  destruct e as [id p]. cbn [snd].
  intros Hi Hs Hc Hk. destruct (layout_at _ _ _ _ _ _ L Hi) as (pl & x & Hpl & Hb & Hx).
  pose proof (b_sources _ _ _ Hb) as Hss. rewrite Hs in Hss.
  apply Forall2_cons_inv_l in Hss as (k' & ks & (c' & Hc' & Hk') & Hnil & Hpls).
  apply Forall2_nil_inv_l in Hnil as ->.
  rewrite (declared_source d T s c Hc) in Hc'. injection Hc' as <-.
  rewrite Hk in Hk'. injection Hk' as <-.
  pose proof (pipeline_taken gr fl i pl R Hpl) as Htk. rewrite Hpls in Htk.
  apply interleaved_one in Htk. split_and!; [|done|].
  - unfold source_at. cbn. rewrite Hpl. cbn. by rewrite Hpls.
  - rewrite Htk. destruct (proj1 R i pl Hpl) as (_ & Hy & _). apply Hy. by rewrite Hpls.
Qed.

(** A sink that is no connector is one that is declared. *)
Lemma declared_sink_at i j k :
  sink_at gr (i, j) = Some k → (∀ ch, k ≠ sink_Connector ch) →
  ∃ e s c, ps !! i = Some e ∧ PipelineConfig.Sinks e.2 !! j = Some s ∧ (s, c) ∈ d_sinks d ∧
    NewSink c (channels (yaml d)) = inl k.
Proof.
  unfold sink_at. cbn. intros (pl & Hpl & Hj)%bind_Some Hk.
  destruct (layout_of _ _ _ _ _ L Hpl) as (id & p & Hps & Hb & _).
  destruct (Forall2_lookup_r _ _ _ _ _ (b_sinks _ _ _ Hb) Hj) as (s & Hs & c & Hc & Hnew).
  exists (id, p), s, c. do 2 (split; [done|]). unfold effective in Hc. case_decide.
  - injection Hc as <-. exfalso. revert Hnew. cbn. unfold NewSink. split_cases.
    intros [= <-]. by eapply Hk.
  - by apply (lookup_sink d T) in Hc.
Qed.
End runs.

(** ** Types *)

(** What comes under the name [s] is known to the processor. *)
Definition feeds_known (d : deployment) (pr : Processor) (s : ID) : bool :=
  if decide (s ∈ d_connectors d)
  then forallb (λ w, if decide (s ∈ PipelineConfig.Sinks w.2)
                     then match role w.2 with
                          | Some x => accepts pr (T_message (produces x))
                          | None => true
                          end
                     else true) (d_pipelines d)
  else accepts pr T_bytes.

(** Every processor is named sources whose elements it knows. *)
Definition typed (d : deployment) : bool :=
  forallb (λ kv, match role kv.2 with
                 | Some pr => forallb (feeds_known d pr) (PipelineConfig.Sources kv.2)
                 | None => true
                 end) (d_pipelines d).

Section types.
Context `{!SqlDB, !AWS, !MapOrder, !MapOrderOk} (d : deployment) (T : tidy d).
Context (gr : Graph.t) (ps : list (ID * PipelineConfig.t)) (L : layout (yaml d) gr ps).

Lemma known_source_ok pr s k :
  source_for (yaml d) s k → feeds_known d pr s = true → source_ok gr pr k = true.
Proof.
  intros Hk. unfold feeds_known. case_decide as Hs.
  - apply (lookup_connector d) in Hs as Hc. apply (connector_links _ _ Hc) in Hk as ->.
    intros Hw. rewrite forallb_forall in Hw. cbn [source_ok]. apply forallb_forall.
    intros [i j] Hin%list_elem_of_In. apply list_elem_of_filter in Hin as [Hwr _].
    apply (writes_iff _ _ _ _ _ _ Hc (deployed_plain d T) L) in Hwr as (id & p & Hps & Hsk).
    destruct (layout_at _ _ _ _ _ _ L Hps) as (pl & x & Hpl & Hb & Hx). cbn [fst]. rewrite Hpl. cbn.
    rewrite Hx. rewrite (deployed_processor d p pl Hb) in Hx.
    destruct (layout_of _ _ _ _ _ L Hpl) as (id2 & p2 & Hps2 & _ & Hp2%(lookup_pipeline d T)).
    rewrite Hps in Hps2. injection Hps2 as <- <-.
    specialize (Hw (id, p) (proj1 (list_elem_of_In _ _) Hp2)). cbn in Hw.
    rewrite decide_True in Hw by (by eapply list_elem_of_lookup_2). by rewrite Hx in Hw.
  - intros Hb. destruct Hk as (c & Hc & Hnew). unfold effective in Hc.
    rewrite decide_False in Hc by (by rewrite lookup_connector).
    apply (lookup_source d T) in Hc. pose proof (t_known _ T) as Hkn. rewrite Forall_forall in Hkn.
    specialize (Hkn _ Hc). cbn in Hkn. unfold NewSource in Hnew.
    rewrite !elem_of_cons, elem_of_nil in Hkn. repeat case_decide; try done.
    + destruct (HTTPSource.NewHTTPSource _); [|done]. by injection Hnew as <-.
    + exfalso. match goal with H : _ = SourceTypeConnector |- _ => rewrite H in Hkn end.
      by destruct_or? Hkn.
    + by injection Hnew as <-.
Qed.

(** A typed deployment builds into a well-typed graph. *)
Lemma typed_well_typed : typed d = true → well_typed gr = true.
Proof.
  intros Ht. unfold typed in Ht. rewrite forallb_forall in Ht. apply forallb_forall.
  intros pl [i Hpl]%list_elem_of_In%list_elem_of_lookup.
  destruct (deployed_entry d T gr ps L i pl Hpl) as (id & p & Hin & Hps & Hb & Hpr).
  specialize (Ht (id, p) (proj1 (list_elem_of_In _ _) Hin)). cbn in Ht. rewrite Hpr.
  destruct (role p) as [pr|]; [|done]. rewrite forallb_forall in Ht. apply forallb_forall.
  intros k [j Hj]%list_elem_of_In%list_elem_of_lookup.
  destruct (Forall2_lookup_r _ _ _ _ _ (b_sources _ _ _ Hb) Hj) as (s & Hs & Hk).
  apply (known_source_ok pr s k Hk), Ht, list_elem_of_In. by eapply list_elem_of_lookup_2.
Qed.
End types.

(** ** It settles *)

(** The intervals are positive, and each connector that is written to is read. *)
Definition joined_up (d : deployment) : bool :=
  forallb (λ kv, match HTTPSource.NewHTTPSource (SourceConfig.HTTP kv.2) with
                 | inl h => bool_decide (0 < HTTPSource.interval h)
                 | inr _ => true
                 end) (d_sources d) &&
  forallb (λ w, forallb (λ s, bool_decide (s ∉ d_connectors d) ||
      existsb (λ r, bool_decide (s ∈ PipelineConfig.Sources r.2)) (d_pipelines d))
    (PipelineConfig.Sinks w.2)) (d_pipelines d).

Section alive.
Context `{!SqlDB, !AWS, !MapOrder, !MapOrderOk} (d : deployment) (T : tidy d).
Context (gr : Graph.t) (ps : list (ID * PipelineConfig.t)) (L : layout (yaml d) gr ps).
Context (J : joined_up d = true).

Lemma deployed_ticks id p j k pl :
  (id, p) ∈ d_pipelines d → built_from (yaml d) p pl → sources pl !! j = Some k → Moments.ticks k = true.
Proof.
  intros Hp Hb Hj. destruct (Forall2_lookup_r _ _ _ _ _ (b_sources _ _ _ Hb) Hj) as (s & Hs & c & Hc & Hnew).
  destruct k as [h| |]; try done. unfold effective in Hc. case_decide as Hcon.
  - injection Hc as <-. unfold NewSource in Hnew. revert Hnew. cbn. split_cases.
  - apply (lookup_source d T) in Hc. unfold joined_up in J. rewrite andb_true_iff, !forallb_forall in J.
    destruct J as [Jh _]. specialize (Jh (s, c) (proj1 (list_elem_of_In _ _) Hc)). cbn in Jh.
    unfold NewSource in Hnew. revert Hnew Jh.
    destruct (HTTPSource.NewHTTPSource _) as [t|]; repeat case_decide; intros Hnew Ht; simplify_eq/=;
    by apply bool_decide_eq_true.
Qed.

Lemma deployed_heard i p pl j k :
  ps !! i = Some p → p ∈ d_pipelines d → built_from (yaml d) p.2 pl → sinks pl !! j = Some k →
  Moments.heard gr k = true.
Proof.
  intros Hi Hp Hb Hj. destruct (Forall2_lookup_r _ _ _ _ _ (b_sinks _ _ _ Hb) Hj) as (s & Hs & c & Hc & Hnew).
  destruct k as [|ch| | | |]; try done. apply NewSink_connector in Hnew as Hty.
  unfold effective in Hc. case_decide as Hcon.
  - injection Hc as <-. destruct (connector_links _ _ Hcon) as [_ Hl].
    assert (sink_for (yaml d) s (sink_Connector ch)) as [= ->]%Hl
      by (exists (connector_sink s); split; [unfold effective; by rewrite decide_True|done]).
    cbn. apply existsb_exists. unfold joined_up in J. rewrite andb_true_iff, !forallb_forall in J.
    destruct J as [_ Jr]. specialize (Jr p (proj1 (list_elem_of_In _ _) Hp)). rewrite forallb_forall in Jr.
    specialize (Jr s (proj1 (list_elem_of_In _ _) (list_elem_of_lookup_2 _ _ _ Hs))).
    apply (lookup_connector d) in Hcon as Hdecl. rewrite bool_decide_eq_false_2 in Jr by tauto. cbn in Jr.
    apply existsb_exists in Jr as ([id r] & Hr%list_elem_of_In & Hin%bool_decide_eq_true). cbn in Hin.
    apply (lookup_pipeline d T), (layout_find _ _ _ _ _ L) in Hr as [i' Hi'].
    apply list_elem_of_lookup in Hin as [j' Hj'].
    assert (reads gr s (i', j')) as Hread
      by (apply (reads_iff _ _ _ _ _ _ Hcon (deployed_plain d T) L); by exists id, r).
    exists (i', j'). split; [by eapply list_elem_of_In, reads_end|by apply bool_decide_eq_true].
  - apply (lookup_sink d T) in Hc. pose proof (t_plain _ T) as Hpl. rewrite Forall_forall in Hpl.
    by specialize (Hpl _ Hc).
Qed.

(** A graph that is joined up can work. *)
Lemma deployed_alive : Moments.alive gr = true.
Proof.
  apply forallb_forall. intros pl [i Hpl]%list_elem_of_In%list_elem_of_lookup.
  destruct (deployed_entry d T gr ps L i pl Hpl) as (id & p & Hin & Hps & Hb & _).
  unfold Moments.pipeline_alive. rewrite !andb_true_iff, bool_decide_eq_true, !forallb_forall. split_and!.
  - destruct (b_running _ _ _ Hb) as [pr Hpr]. by eexists.
  - intros k [j Hj]%list_elem_of_In%list_elem_of_lookup. by eapply deployed_ticks.
  - intros k [j Hj]%list_elem_of_In%list_elem_of_lookup. by apply (deployed_heard i (id, p) pl j).
Qed.
End alive.
