(* ===== verification/Outlets.v ===== *)
(** * What a sink takes

    A sink of several pipelines has one channel, on which what they send meets in some
    order.  Elements of one type keep their order when only one pipeline sends them. *)
From S2P Require Import Prelude Interleave GoTime ParseDuration Gtfs Events StateStore Proc Config.
From S2P Require Import Batching DbSink ParquetSink Endpoints Graph Typing Network Wiring Deploy Shipped.

Import Graph GraphSpec InMemory.
#[local] Existing Instances InMemory.in_memory InMemory.in_memory_ok.

(** ** A sink of several pipelines *)

(** What comes in over the channel of a sink: what the pipelines that have it among
    their sinks are given for it, in some order. *)
Definition sink_takes (g : Graph.t) (fl : flow) (k : Sink) (xs : list any) : Prop :=
  interleaved ((λ e, given fl e.1 e.2) <$>
    filter (λ e, sink_at g e = Some k) (ends (λ p, length (sinks p)) g)) xs.

Section takes.
Context `{!ProtoLib, !Platform, !GoStreams, !GoStreamsOk}.

(** Elements that only the processor of one end sends are taken as it sends them. *)
Lemma sink_takes_filter g fl k xs (P : any → Prop) `{!∀ x, Decision (P x)} kd e :
  Graph_Run g fl → sink_takes g fl k xs → sink_at g e = Some k →
  (∀ x, P x → is_message kd x) →
  (∀ e' p pr, sink_at g e' = Some k → pipelines g !! e'.1 = Some p → processor p = Some pr →
     produces pr = kd → e' = e) →
  filter P xs = filter P (given fl e.1 e.2).
Proof.
  intros R Hxs He HP Honly. set (es := filter (λ e, sink_at g e = Some k) (ends (λ p, length (sinks p)) g)).
  unfold sink_takes in Hxs. fold es in Hxs.
  assert (e ∈ es) as [i Hi]%list_elem_of_lookup.
  { apply list_elem_of_filter. split; [done|]. unfold sink_at in He. apply elem_of_ends.
    destruct (pipelines g !! e.1) as [p|]; [|done]. exists p. split; [done|]. cbn in He.
    by eapply lookup_lt_Some. }
  apply (interleaved_filter P _ xs i _ Hxs); [by rewrite list_lookup_fmap, Hi|].
  intros j zs Hj Hzs. rewrite list_lookup_fmap in Hzs. destruct (es !! j) as [e'|] eqn:He'; [|done].
  injection Hzs as <-. pose proof He' as [Hk Hin]%list_elem_of_lookup_2%list_elem_of_filter.
  apply elem_of_ends in Hin as (p & Hp & Hlt).
  destruct (pipeline_given g fl e'.1 p e'.2 R Hp Hlt) as (pr & Hpr & Hem).
  apply elem_of_nil_inv. intros x [Hx Hin]%list_elem_of_filter. apply Hj.
  apply emits_typed in Hem. rewrite Forall_forall in Hem. specialize (Hem x Hin).
  assert (produces pr = kd) as Hkd.
  { specialize (HP x Hx). unfold is_message in *. rewrite Hem in HP. by injection HP. }
  rewrite (Honly e' p pr Hk Hp Hpr Hkd) in He'. eapply NoDup_lookup; [|exact He'|exact Hi].
  apply NoDup_filter, NoDup_ends.
Qed.
End takes.

(** ** Sinks of a deployment *)

(** The sink declared as [id] is among the sinks of the entry [e], as number [j], and
    of no other entry whose processor sends elements of the type [kd]. *)
Record outlet (d : deployment) (id : ID) (snk : SinkConfig.t) (kd : kind)
    (e : ID * PipelineConfig.t) (j : nat) : Prop := {
  ou_declared : (id, snk) ∈ d_sinks d;
  ou_entry : e ∈ d_pipelines d;
  ou_sole : users PipelineConfig.Sinks id
    (filter (λ kv, produces <$> role kv.2 = Some kd) (d_pipelines d)) = [(e.1, j)];
}.

Section outlets.
Context `{!SqlDB, !AWS, !MapOrder, !MapOrderOk, !ProtoLib, !Platform, !GoStreams, !GoStreamsOk}.
Context (d : deployment) (T : tidy d).
Context (gr : Graph.t) (ps : list (ID * PipelineConfig.t)) (L : layout (yaml d) gr ps).

(** The sink [k] is that of the declaration [id], and of no other. *)
Definition made_from (id : ID) (k : Sink) : Prop :=
  (∀ ch, k ≠ sink_Connector ch) ∧
  (∃ snk, (id, snk) ∈ d_sinks d ∧ NewSink snk (channels (yaml d)) = inl k) ∧
  ∀ id' snk, (id', snk) ∈ d_sinks d → NewSink snk (channels (yaml d)) = inl k → id' = id.

Lemma outlet_at id k i e j :
  made_from id k → ps !! i = Some e → PipelineConfig.Sinks e.2 !! j = Some id →
  sink_at gr (i, j) = Some k.
Proof.
  destruct e as [id' p]. intros (_ & (snk & Hs & Hk) & _) Hi Hj. cbn in Hj.
  destruct (layout_at _ _ _ _ _ _ L Hi) as (pl & _ & Hpl & Hb & _). unfold sink_at. cbn. rewrite Hpl. cbn.
  destruct (Forall2_lookup_l _ _ _ _ _ (b_sinks _ _ _ Hb) Hj) as (k' & Hk' & c & Hc & Hnew).
  rewrite (declared_sink d T id snk Hs) in Hc. injection Hc as <-. rewrite Hk'. congruence.
Qed.

Lemma outlet_named id k i j :
  made_from id k → sink_at gr (i, j) = Some k →
  ∃ e, ps !! i = Some e ∧ PipelineConfig.Sinks e.2 !! j = Some id.
Proof.
  intros (Hno & _ & Hone) Hk.
  destruct (declared_sink_at d T gr ps L i j k Hk Hno) as (e & s & c & Hi & Hj & Hs & Hnew).
  exists e. split; [done|]. by rewrite <- (Hone s c Hs Hnew).
Qed.

(** What the sink takes of the type that a processor sends is what it sends. *)
Lemma outlet_takes fl id snk k e j i pr xs :
  Graph_Run gr fl → outlet d id snk (produces pr) e j → made_from id k →
  ps !! i = Some e → role e.2 = Some pr → sink_takes gr fl k xs →
  filter (is_message (produces pr)) xs = sends pr (arrivals fl i).
Proof.
  intros R [_ He Hsole] Hk Hi Hr Hxs.
  set (same := filter (λ kv, produces <$> role kv.2 = Some (produces pr)) (d_pipelines d)) in Hsole.
  assert (∀ id' p j', (id', p) ∈ same → PipelineConfig.Sinks p !! j' = Some id →
    (id', j') = (e.1, j)) as Hone.
  { intros id' p j' Hp Hj'. pose proof (elem_of_users _ _ _ _ _ _ Hp Hj') as Hin.
    rewrite Hsole in Hin. by apply list_elem_of_singleton in Hin. }
  assert (PipelineConfig.Sinks e.2 !! j = Some id) as Hj.
  { assert ((e.1, j) ∈ users PipelineConfig.Sinks id same) as Hin by (rewrite Hsole; apply list_elem_of_here).
    unfold users in Hin. apply list_elem_of_In, in_concat in Hin as (l & Hl & Hin).
    apply list_elem_of_In in Hl, Hin. apply list_elem_of_fmap in Hl as ([id' p] & -> & Hp).
    apply list_elem_of_fmap in Hin as (j' & [= Hid <-] & [Hj' _]%list_elem_of_filter). cbn in Hid, Hj'.
    subst id'. apply list_elem_of_filter in Hp as [_ Hp]. destruct e as [id' p']. cbn in *.
    apply elem_of_list_to_map_1 in He, Hp; [|apply T..]. congruence. }
  pose proof (outlet_at id k i e j Hk Hi Hj) as Hat.
  rewrite (sink_takes_filter gr fl k xs (is_message (produces pr)) (produces pr) (i, j) R Hxs Hat).
  - destruct (deployed_published d T gr ps L fl R i e pr Hi Hr) as (pl & Hpl & _ & Hgiven).
    unfold sink_at in Hat. cbn in Hat. rewrite Hpl in Hat. cbn in Hat. cbn [fst snd].
    rewrite (Hgiven j k Hat). apply filter_all, outputs_typed.
  - done.
  - intros [i' j'] p pr' Hk' Hp Hpr' Hkd. cbn [fst] in Hp.
    destruct (outlet_named id k i' j' Hk Hk') as ([id' p'] & Hi' & Hj').
    destruct (deployed_entry d T gr ps L i' p Hp) as (id2 & p2 & Hin & Hi2 & _ & Hr2).
    rewrite Hi' in Hi2. injection Hi2 as <- <-.
    assert ((id', p') ∈ same) as Hsame
      by (apply list_elem_of_filter; cbn; rewrite <- Hr2, Hpr'; cbn; by rewrite Hkd).
    destruct e as [ide pe]. injection (Hone id' p' j' Hsame Hj') as -> ->.
    by rewrite (layout_key _ _ _ _ _ _ _ _ L Hi' Hi).
Qed.

(** A sink that one entry alone names takes one type of elements. *)
Lemma outlet_only fl id k e j i pr xs :
  Graph_Run gr fl → made_from id k → users PipelineConfig.Sinks id (d_pipelines d) = [(e.1, j)] →
  ps !! i = Some e → role e.2 = Some pr → sink_takes gr fl k xs →
  Forall (is_message (produces pr)) xs.
Proof.
  intros R Hk Hu Hi Hr Hxs. apply Forall_forall. intros x Hx.
  apply (interleaved_elem _ _ x Hxs) in Hx as (ys & Hys & Hx).
  apply list_elem_of_fmap in Hys as ([i' j'] & -> & [Hk' Hin]%list_elem_of_filter).
  apply elem_of_ends in Hin as (pl & Hpl & Hj). cbn [fst snd] in *.
  destruct (outlet_named id k i' j' Hk Hk') as ([id' p'] & Hi' & Hj').
  destruct (deployed_entry d T gr ps L i' pl Hpl) as (id2 & p2 & Hp2 & Hi2 & _ & Hr2).
  rewrite Hi' in Hi2. injection Hi2 as <- <-.
  pose proof (elem_of_users _ _ _ _ _ _ Hp2 Hj') as Hone. rewrite Hu in Hone.
  apply list_elem_of_singleton in Hone as [= -> ->]. destruct e as [ide pe]. cbn in *.
  assert (i' = i) as -> by exact (layout_key _ _ _ _ _ _ _ _ L Hi' Hi).
  rewrite Hi in Hi'. injection Hi' as <-.
  destruct (pipeline_given gr fl i pl j R Hpl Hj) as (w & Hw & Hem). apply emits_typed in Hem.
  rewrite Forall_forall in Hem. assert (w = pr) as -> by congruence. by apply Hem.
Qed.
End outlets.

(** ** The sinks of the shipped configurations *)

(** The events of one type among what comes in. *)
Definition event_kind (kd : kind) : Prop := kd ≠ K_gtfs_FeedMessage ∧ kd ≠ K_FeedMessageEvent.

Lemma events_of_kind kd (xs : list any) :
  event_kind kd → filter (λ m, kind_of m = kd) (omap as_Event xs) = omap as_Event (filter (is_message kd) xs).
Proof.
  intros [Hg Hf]. induction xs as [|x xs IH]; [done|]. rewrite omap_cons_eq, filter_cons.
  destruct x as [| |m|]; try done. unfold is_message at 1. cbn [type_of_element].
  destruct (decide (T_message (kind_of m) = T_message kd)) as [[= Hm]|Hm].
  - rewrite omap_cons_eq. assert (is_Event m = true) as He by (subst kd; by destruct m). cbn. rewrite He.
    rewrite filter_cons, decide_True, IH by done. done.
  - cbn. destruct (is_Event m); [|done]. rewrite filter_cons, decide_False; [done|]. congruence.
Qed.

(** The types that the four measuring pipelines send. *)
Definition measured : list kind :=
  [K_StopEvent; K_HeadwayTimeEvent; K_DwellTimeEvent; K_TravelTimeEvent].

Lemma measured_event kd : kd ∈ measured → event_kind kd.
Proof. unfold measured. rewrite !elem_of_cons, elem_of_nil. intros Hk. by destruct_or? Hk; subst. Qed.

(** The configurations that write to a database and to S3. *)
Definition recording : list deployment := [all_in_one; processing].

Lemma recording_shipped d : d ∈ recording → d ∈ shipped.
Proof. unfold recording, shipped. rewrite !elem_of_cons, !elem_of_nil. tauto. Qed.

(** The Parquet sink of a type. *)
Definition parquet_of (kd : kind) : ID * SinkConfig.t :=
  match kd with
  | K_HeadwayTimeEvent => parquet_sink "parquet-headway-events" "transit/headway_events" "headway_event"
  | K_DwellTimeEvent => parquet_sink "parquet-dwell-events" "transit/dwell_events" "dwell_event"
  | K_TravelTimeEvent =>
      parquet_sink "parquet-travel-time-events" "transit/travel_time_events" "travel_time_event"
  | _ => parquet_sink "parquet-stop-events" "transit/stop_events" "stop_event"
  end.

Ltac in_list := repeat first [apply list_elem_of_here|apply list_elem_of_further].
Ltac outlet := split; [in_list|assumption|by apply (bool_decide_unpack _)].

(** Each entry that measures has the database and its own Parquet sink, and nobody
    else sends them what it sends. *)
Lemma recording_outlets d e pr :
  d ∈ recording → e ∈ d_pipelines d → role e.2 = Some pr → produces pr ∈ measured →
  (∃ j, outlet d "db-sink" db_sink.2 (produces pr) e j) ∧
  ∃ j, outlet d (parquet_of (produces pr)).1 (parquet_of (produces pr)).2 (produces pr) e j ∧
    users PipelineConfig.Sinks (parquet_of (produces pr)).1 (d_pipelines d) = [(e.1, j)].
Proof.
  intros Hd He Hr Hk. pose proof He as [n Hn]%list_elem_of_lookup. unfold recording in Hd.
  rewrite !elem_of_cons, elem_of_nil in Hd. destruct_or? Hd; subst d;
    destruct n as [|[|[|[|[|[|n]]]]]]; cbn in Hn; try done; injection Hn as <-; cbn in Hr; injection Hr as <-;
    try (exfalso; revert Hk; by apply (bool_decide_unpack _)).
  all: split; [first [exists 5%nat; outlet|exists 2%nat; outlet]|].
  all: first [exists 6%nat; split; [outlet|by apply (bool_decide_unpack _)]
             |exists 3%nat; split; [outlet|by apply (bool_decide_unpack _)]].
Qed.

Section made.
Context `{!SqlDB, !AWS, !MapOrder, !MapOrderOk}.

Lemma NewSink_database snk ch s :
  NewSink snk ch = inl (sink_Database s) ↔
    SinkConfig.Type_ snk = SinkTypeDatabase ∧ DatabaseSink.NewDatabaseSink snk = inl s.
Proof.
  unfold NewSink. split.
  - repeat case_decide; try done; repeat case_match; by intros [= <-].
  - intros [-> ->]. done.
Qed.

Lemma NewSink_parquet snk ch s :
  NewSink snk ch = inl (sink_Parquet s) ↔
    SinkConfig.Type_ snk = SinkTypeParquet ∧ ParquetSink.NewParquetSink snk = inl s.
Proof.
  unfold NewSink. split.
  - repeat case_decide; try done; repeat case_match; by intros [= <-].
  - intros [-> ->]. done.
Qed.

Lemma NewSink_sse snk ch c :
  NewSink snk ch = inl (sink_SSE c) ↔ SinkConfig.Type_ snk = SinkTypeSSE ∧ SinkConfig.SSE snk = c.
Proof.
  unfold NewSink. split.
  - repeat case_decide; try done; repeat case_match; by intros [= <-].
  - intros [-> <-]. done.
Qed.

Lemma parquet_event_type snk s :
  ParquetSink.NewParquetSink snk = inl s →
  ParquetSink.eventType s = ParquetSinkConfig.EventType (SinkConfig.Parquet snk).
Proof.
  unfold ParquetSink.NewParquetSink. case_decide; [done|].
  destruct (ParquetSink.buildS3Client _); [|done]. by intros [= <-].
Qed.

(** A check of all sinks that are declared. *)
Lemma sinks_checked d (P : ID → SinkConfig.t → Prop) `{!∀ id snk, Decision (P id snk)} id snk :
  forallb (λ kv, bool_decide (P kv.1 kv.2)) (d_sinks d) = true → (id, snk) ∈ d_sinks d → P id snk.
Proof.
  rewrite forallb_forall. intros Hall Hin%list_elem_of_In. specialize (Hall _ Hin).
  by apply bool_decide_eq_true in Hall.
Qed.

Lemma database_made d s :
  d ∈ recording → DatabaseSink.NewDatabaseSink db_sink.2 = inl s →
  made_from d "db-sink" (sink_Database s).
Proof.
  intros Hd Hs. split; [done|]. unfold recording in Hd. rewrite !elem_of_cons, elem_of_nil in Hd. split.
  - exists db_sink.2. split; [destruct_or? Hd; subst d; in_list|]. by apply NewSink_database.
  - intros id snk Hin [Hty _]%NewSink_database. revert Hty.
    apply (sinks_checked d (λ id snk, SinkConfig.Type_ snk = SinkTypeDatabase → id = "db-sink")); [|done].
    destruct_or? Hd; subst d; by vm_compute.
Qed.

Lemma parquet_made d kd s :
  d ∈ recording → kd ∈ measured → ParquetSink.NewParquetSink (parquet_of kd).2 = inl s →
  made_from d (parquet_of kd).1 (sink_Parquet s).
Proof.
  intros Hd Hk Hs. split; [done|]. unfold recording in Hd. rewrite !elem_of_cons, elem_of_nil in Hd.
  unfold measured in Hk. rewrite !elem_of_cons, elem_of_nil in Hk. split.
  - exists (parquet_of kd).2. split; [destruct_or? Hd; destruct_or? Hk; subst; in_list|].
    apply NewSink_parquet. split; [|done]. by destruct_or? Hk; subst.
  - intros id snk Hin [Hty Hnew]%NewSink_parquet.
    assert (ParquetSinkConfig.EventType (SinkConfig.Parquet snk) =
      ParquetSinkConfig.EventType (SinkConfig.Parquet (parquet_of kd).2)) as Hev
      by (rewrite <- (parquet_event_type _ _ Hs); symmetry; by apply parquet_event_type).
    revert Hty Hev.
    apply (sinks_checked d (λ id snk, SinkConfig.Type_ snk = SinkTypeParquet →
      ParquetSinkConfig.EventType (SinkConfig.Parquet snk) =
        ParquetSinkConfig.EventType (SinkConfig.Parquet (parquet_of kd).2) → id = (parquet_of kd).1)); [|done].
    destruct_or? Hd; destruct_or? Hk; subst; by vm_compute.
Qed.

(** Every shipped configuration has one SSE sink, on a port. *)
Lemma sse_declared d : d ∈ shipped → ∃ port, sse_sink port ∈ d_sinks d.
Proof. intros Hd. each_deployment Hd; eexists; in_list. Qed.

Lemma sse_made d port :
  d ∈ shipped → sse_sink port ∈ d_sinks d → made_from d "sse-sink" (sink_SSE (SSESinkConfig.mk port "/events")).
Proof.
  intros Hd Hin. split; [done|]. split; [by exists (sse_sink port).2|].
  intros id snk Hin' [Hty _]%NewSink_sse. revert Hty.
  apply (sinks_checked d (λ id snk, SinkConfig.Type_ snk = SinkTypeSSE → id = "sse-sink")); [|done].
  each_deployment Hd; by vm_compute.
Qed.
End made.

(** ** What they take *)

Section recorded.
Context `{!SqlDB, !AWS, !MapOrder, !MapOrderOk, !ProtoLib, !Platform, !GoStreams, !GoStreamsOk}.

(** The entry of a pipeline, from its processor. *)
Lemma shipped_entry d gr i pr :
  d ∈ shipped → NewGraph (yaml d) = Built gr → pipelines gr !! i ≫= processor = Some pr →
  ∃ ps e, layout (yaml d) gr ps ∧ ps !! i = Some e ∧ e ∈ d_pipelines d ∧ role e.2 = Some pr.
Proof.
  intros Hd Hgr Hi. pose proof (shipped_tidy d Hd) as T.
  destruct (deployed_layout d T gr (shipped_valid d Hd) Hgr) as [ps L].
  destruct (pipelines gr !! i) as [pl|] eqn:Hpl; [|done]. cbn in Hi.
  destruct (deployed_entry d T gr ps L i pl Hpl) as (id & p & Hin & Hps & _ & Hr).
  exists ps, (id, p). split_and!; [done..|]. cbn. congruence.
Qed.

(** The database and the Parquet sink of its type take all that a measuring processor
    sends, and nothing else of its type. *)
Lemma database_takes d gr fl i pr s xs :
  d ∈ recording → NewGraph (yaml d) = Built gr → Graph_Run gr fl →
  pipelines gr !! i ≫= processor = Some pr → produces pr ∈ measured →
  DatabaseSink.NewDatabaseSink db_sink.2 = inl s → sink_takes gr fl (sink_Database s) xs →
  filter (is_message (produces pr)) xs = sends pr (arrivals fl i).
Proof.
  intros Hd Hgr R Hi Hk Hs Hxs. pose proof (recording_shipped d Hd) as Hsh.
  destruct (shipped_entry d gr i pr Hsh Hgr Hi) as (ps & e & L & Hps & He & Hr).
  destruct (recording_outlets d e pr Hd He Hr Hk) as [[j Ho] _].
  exact (outlet_takes d (shipped_tidy d Hsh) gr ps L fl _ _ _ e j i pr xs R Ho
    (database_made d s Hd Hs) Hps Hr Hxs).
Qed.

Lemma parquet_takes d gr fl i pr s xs :
  d ∈ recording → NewGraph (yaml d) = Built gr → Graph_Run gr fl →
  pipelines gr !! i ≫= processor = Some pr → produces pr ∈ measured →
  ParquetSink.NewParquetSink (parquet_of (produces pr)).2 = inl s →
  sink_takes gr fl (sink_Parquet s) xs → xs = sends pr (arrivals fl i).
Proof.
  intros Hd Hgr R Hi Hk Hs Hxs. pose proof (recording_shipped d Hd) as Hsh.
  destruct (shipped_entry d gr i pr Hsh Hgr Hi) as (ps & e & L & Hps & He & Hr).
  destruct (recording_outlets d e pr Hd He Hr Hk) as (_ & j & Ho & Hu).
  pose proof (parquet_made d _ s Hd Hk Hs) as Hm.
  rewrite <- (outlet_takes d (shipped_tidy d Hsh) gr ps L fl _ _ _ e j i pr xs R Ho Hm Hps Hr Hxs).
  symmetry. apply filter_all.
  by eapply (outlet_only d (shipped_tidy d Hsh) gr ps L fl _ _ e j i pr xs R Hm).
Qed.
End recorded.
