(* ===== verification/Persist.v ===== *)
(** * The database ([config/configs/all-in-one.yaml], [distributed-processing.yaml])

    The database sink is one of the sinks of four pipelines, whose outputs meet on its
    channel in some order.  Each of the four tables is written what one of them sends;
    a visit that the feeds report ends up as one row of one INSERT statement. *)
From S2P Require Import Prelude Interleave GoTime ParseDuration Gtfs Events StateStore Proc Config.
From S2P Require Import FeedEvents StopEvents Metrics DwellEvents HeadwayEvents TravelTimeEvents.
From S2P Require Import Transit Journey Trips Batching DbSink ParquetSink Endpoints Graph Typing.
From S2P Require Import Network Wiring Deploy Shipped Outlets.

Import Graph GraphSpec InMemory.
#[local] Existing Instances InMemory.in_memory InMemory.in_memory_ok.

(** ** Rows *)

Section rows.
Context `{!ProtoLib}.

(** The dwells of a vehicle among the events of a batch. *)
Definition dwell_of (v : string) (m : Message) : Prop :=
  VisitPipeline.dwell_vehicle (any_msg m) = Some v.
#[export] Instance dwell_of_dec v m : Decision (dwell_of v m).
Proof. unfold dwell_of. apply _. Defined.

Lemma events_dwells v (xs : list any) :
  filter (dwell_of v) (omap as_Event xs) =
    omap as_Event (filter (λ y, VisitPipeline.dwell_vehicle y = Some v) xs).
Proof.
  induction xs as [|x xs IH]; [done|]. rewrite omap_cons_eq.
  destruct (decide (VisitPipeline.dwell_vehicle x = Some v)) as [Hx|Hx].
  - rewrite (filter_cons_True _ x) by done. rewrite omap_cons_eq, <- IH.
    destruct x as [| |m|]; try done. destruct m as [| | | |[d|]| |]; try done.
    change (filter (dwell_of v) (msg_DwellTimeEvent (Some d) :: omap as_Event xs) =
      msg_DwellTimeEvent (Some d) :: filter (dwell_of v) (omap as_Event xs)).
    by rewrite filter_cons_True.
  - rewrite (filter_cons_False _ x), <- IH by done. destruct (as_Event x) as [m|] eqn:Hm; [|done].
    assert (x = any_msg m) as -> by (destruct x as [| |m'|]; try done; cbn in Hm; by case_match; simplify_eq).
    change (filter (dwell_of v) (m :: omap as_Event xs) = filter (dwell_of v) (omap as_Event xs)).
    by rewrite filter_cons_False.
Qed.

(** A statement that inserts the row [row] into [table], among others. *)
Definition inserts (table : string) (cols : list string) (row : list DatabaseSink.arg)
    (st : DatabaseSink.statement) : Prop :=
  ∃ n before after, DatabaseSink.query st = DatabaseSink.buildInsert table cols n ∧
    DatabaseSink.args st = before ++ row ++ after ∧
    length (DatabaseSink.args st) = (n * length cols)%nat ∧
    ∃ i, length before = (i * length cols)%nat.

(** A dwell of a batch is a row of a statement of its flush. *)
Lemma flush_inserts_dwell batch d :
  msg_DwellTimeEvent d ∈ batch → ∃ st, st ∈ DatabaseSink.flush batch ∧
    inserts "dwell_time_events" DatabaseSink.dwell_time_event_cols
      (DatabaseSink.dwell_time_event_args d) st.
Proof.
  intros Hd. assert (d ∈ DbSpec.dwells batch) as Hin
    by (apply list_elem_of_omap; by exists (msg_DwellTimeEvent d)).
  exists (DatabaseSink.insertDwellTimeEvents (DbSpec.dwells batch)). split.
  - unfold DatabaseSink.flush. rewrite DbSpec.fold_append. cbn [app DatabaseSink.dwellEvents].
    rewrite !elem_of_app. right. left. unfold DatabaseSink.nonempty.
    destruct (DbSpec.dwells batch); [by apply not_elem_of_nil in Hin|apply list_elem_of_here].
  - apply list_elem_of_split in Hin as (l1 & l2 & ->).
    set (row := DatabaseSink.dwell_time_event_args).
    assert (∀ x, length (row x) = length DatabaseSink.dwell_time_event_cols) as Hrow by done.
    exists (length (l1 ++ d :: l2)), (concat (row <$> l1)), (concat (row <$> l2)). split_and!; [done|..].
    + unfold DatabaseSink.insertDwellTimeEvents, DatabaseSink.insert. cbn [DatabaseSink.args].
      by rewrite fmap_app, concat_app.
    + by apply (DbSpec.length_concat_const row (length DatabaseSink.dwell_time_event_cols)).
    + exists (length l1). by apply (DbSpec.length_concat_const row).
Qed.

Lemma flushed_inserts_dwell fs d :
  msg_DwellTimeEvent d ∈ flushed fs → ∃ f st, f ∈ fs ∧ st ∈ DatabaseSink.flush (rows f) ∧
    inserts "dwell_time_events" DatabaseSink.dwell_time_event_cols
      (DatabaseSink.dwell_time_event_args d) st.
Proof.
  intros (batch & Hb & Hd)%list_elem_of_In%in_concat. apply list_elem_of_In in Hb, Hd.
  apply list_elem_of_fmap in Hb as (f & -> & Hf).
  destruct (flush_inserts_dwell _ _ Hd) as (st & Hst & Hi). by exists f, st.
Qed.
End rows.

(** ** Tables *)

Section tables.
Context `{!ProtoLib}.
Import DatabaseSink.

(** A table, the type of the events in it, and the row of an event. *)
Record table := Table { t_name : string; t_kind : kind; t_row : Message → list arg }.

Definition stop_table : table := Table "stop_events" K_StopEvent
  (λ m, match m with msg_StopEvent e => stop_event_args e | _ => [] end).
Definition dwell_table : table := Table "dwell_time_events" K_DwellTimeEvent
  (λ m, match m with msg_DwellTimeEvent e => dwell_time_event_args e | _ => [] end).
Definition travel_table : table := Table "travel_time_events" K_TravelTimeEvent
  (λ m, match m with msg_TravelTimeEvent e => travel_time_event_args e | _ => [] end).
Definition headway_table : table := Table "headway_time_events" K_HeadwayTimeEvent
  (λ m, match m with msg_HeadwayTimeEvent e => headway_time_event_args e | _ => [] end).
Definition tables : list table := [stop_table; dwell_table; travel_table; headway_table].

(** The statement inserts into the table. *)
Fixpoint starts_with (p s : string) : bool :=
  match p, s with
  | EmptyString, _ => true
  | String a p, String b s => bool_decide (a = b) && starts_with p s
  | _, EmptyString => false
  end.
Definition into (t : table) (st : statement) : bool :=
  starts_with ("INSERT INTO " +:+ t_name t +:+ " (") (query st).

(** The values that statements write into a table, row after row. *)
Definition written (t : table) (sts : list statement) : list arg :=
  concat (args <$> filter (λ st, into t st = true) sts).

Lemma written_app t sts1 sts2 : written t (sts1 ++ sts2) = written t sts1 ++ written t sts2.
Proof. unfold written. by rewrite filter_app, fmap_app, concat_app. Qed.

(** What one of the four statements of a flush writes into a table. *)
Lemma written_insert {A} t name cols (row : A → list arg) l same :
  (∀ n, into t (Statement (buildInsert name cols n) (concat (row <$> l))) = same) →
  written t (nonempty l (insert name cols row)) = if same then concat (row <$> l) else [].
Proof.
  intros Hsame. destruct l as [|x l]; [by destruct same|]. unfold nonempty, insert, written.
  rewrite filter_cons. rewrite Hsame. destruct same; cbn [decide]; [|done].
  rewrite decide_True by done. cbn. by rewrite app_nil_r.
Qed.

Lemma rows_of_kind {A} t (proj : Message → option A) (row : A → list arg) batch :
  (∀ m, match proj m with Some e => kind_of m = t_kind t ∧ t_row t m = row e
                        | None => kind_of m ≠ t_kind t end) →
  concat (row <$> omap proj batch) = concat (t_row t <$> filter (λ m, kind_of m = t_kind t) batch).
Proof.
  intros Hm. induction batch as [|m batch IH]; [done|]. rewrite omap_cons_eq, filter_cons.
  specialize (Hm m). destruct (proj m) as [e|].
  - destruct Hm as [Hk Hr]. rewrite decide_True by done. cbn. by rewrite Hr, IH.
  - by rewrite decide_False.
Qed.

(** A flush writes into each table the rows of the events of its type. *)
Lemma flush_written t batch :
  t ∈ tables →
  written t (flush batch) = concat (t_row t <$> filter (λ m, kind_of m = t_kind t) batch).
Proof.
  intros Ht. unfold flush. rewrite DbSpec.fold_append.
  cbn [app stopEvents dwellEvents travelEvents headwayEvents]. rewrite !written_app.
  unfold insertStopEvents, insertDwellTimeEvents, insertTravelTimeEvents, insertHeadwayTimeEvents.
  assert (∀ name cols (args : list arg) n, name ∈ t_name <$> tables →
    into t (Statement (buildInsert name cols n) args) = bool_decide (t_name t = name)) as Hinto.
  { intros name cols args n Hn. unfold tables in Ht.
    change (t_name <$> tables) with
      ["stop_events"; "dwell_time_events"; "travel_time_events"; "headway_time_events"] in Hn.
    rewrite !elem_of_cons, elem_of_nil in Ht. rewrite !elem_of_cons, elem_of_nil in Hn. destruct_or? Ht; destruct_or? Hn; subst; reflexivity. }
  rewrite !(written_insert t _ _ _ _ (bool_decide (t_name t = _))) by
    (intros n; apply Hinto; by apply (bool_decide_unpack _)).
  clear Hinto. unfold tables in Ht. rewrite !elem_of_cons, elem_of_nil in Ht.
  destruct_or? Ht; subst t; cbn [t_name stop_table dwell_table travel_table headway_table];
    rewrite ?bool_decide_eq_true_2, ?bool_decide_eq_false_2 by done;
    rewrite ?app_nil_r; cbn [app]; apply rows_of_kind; by intros [].
Qed.

(** Over all flushes. *)
Lemma flushes_written t (fs : list (Batching.flush Message)) :
  t ∈ tables →
  written t (concat (flush ∘ rows <$> fs)) =
    concat (t_row t <$> filter (λ m, kind_of m = t_kind t) (flushed fs)).
Proof.
  intros Ht. unfold flushed. induction fs as [|f fs IH]; [done|].
  rewrite !fmap_cons, !concat_cons, written_app, IH. unfold compose at 1. rewrite flush_written by done.
  by rewrite filter_app, fmap_app, concat_app.
Qed.
End tables.

(** ** What is in the database *)

Section persist.
Context `{!SqlDB, !AWS, !MapOrder, !MapOrderOk, !ProtoLib, !Platform, !GoStreams, !GoStreamsOk}.

Lemma tables_measured t : t ∈ tables → t_kind t ∈ measured.
Proof.
  unfold tables, measured. rewrite !elem_of_cons, elem_of_nil. intros Ht.
  destruct_or? Ht; subst t; cbn; tauto.
Qed.

(** The events of a type that a cancelled sink has flushed are those its processor
    sent. *)
Lemma flushed_sent d gr fl i pr s ins rest fs :
  d ∈ recording → NewGraph (yaml d) = Built gr → Graph_Run gr fl →
  pipelines gr !! i ≫= processor = Some pr → produces pr ∈ measured →
  DatabaseSink.NewDatabaseSink db_sink.2 = inl s →
  sink_takes gr fl (sink_Database s) (Batching.taken Some ins) →
  ending ins = Some ctx_Done → DatabaseSink.doSink s ins = (rest, fs) →
  filter (λ m, kind_of m = produces pr) (flushed fs) = omap as_Event (sends pr (arrivals fl i)).
Proof.
  intros Hd Hgr R Hi Hk Hs Hin Hend Hsink.
  rewrite (DbSpec.cancelled_flushed s ins rest fs Hsink Hend), taken_omap.
  rewrite events_of_kind by (by apply measured_event).
  by rewrite (database_takes d gr fl i pr s _ Hd Hgr R Hi Hk Hs Hin).
Qed.

(** C11: The database mirrors what is measured.  In a run of all-in-one.yaml or of
    distributed-processing.yaml the outputs of four pipelines meet in some order on
    the channel of the database sink, with ticks of its timer between.  Once the sink
    is cancelled, the statements of all its flushes together have written into the
    table of each type exactly one row for every event that the processor of that
    type has sent, in order, and nothing else. *)
Theorem database_mirrors d gr fl i pr t s ins rest fs :
  d ∈ recording → NewGraph (yaml d) = Built gr → Graph_Run gr fl →
  pipelines gr !! i ≫= processor = Some pr → t ∈ tables → t_kind t = produces pr →
  DatabaseSink.NewDatabaseSink db_sink.2 = inl s →
  sink_takes gr fl (sink_Database s) (Batching.taken Some ins) →
  ending ins = Some ctx_Done → DatabaseSink.doSink s ins = (rest, fs) →
  written t (concat (DatabaseSink.flush ∘ rows <$> fs)) =
    concat (t_row t <$> omap as_Event (sends pr (arrivals fl i))).
Proof.
  intros Hd Hgr R Hi Ht Hk Hs Hin Hend Hsink.
  rewrite flushes_written, Hk by done. do 2 f_equal.
  eapply flushed_sent; [done..| |done|done|done|done]. rewrite <- Hk. by apply tables_measured.
Qed.

(** ** The visit of a vehicle *)

Lemma all_in_one_single : all_in_one ∈ single.
Proof. unfold single. rewrite !elem_of_cons. tauto. Qed.

(** From the feed to the database.  In a run of all-in-one.yaml the decoded feeds
    report a vehicle three times, approaching, standing at a stop and on its way
    again.  In whatever order the outputs of the four pipelines meet on the channel of
    the database sink, and whatever ticks of its flush timer are between, once the
    sink is cancelled its flushes hold exactly one dwell of that vehicle, at that stop
    and between the timestamps of the second and the third report; and that dwell is
    one row of a statement that inserts into dwell_time_events. *)
Theorem all_in_one_stores_visit `{!ProtoLibOk} gr fl fm se dw v r0 r1 r2 s ins rest fs :
  NewGraph (yaml all_in_one) = Built gr → Graph_Run gr fl →
  pipelines gr !! fm ≫= processor = Some (P_FeedMessage "MBTA") →
  pipelines gr !! se ≫= processor = Some (NewStopEventProcessor None) →
  pipelines gr !! dw ≫= processor = Some (NewDwellEventProcessor None) →
  Forall dashless (FeedPipeline.all_vehicles (arrivals fl fm)) →
  calls v (FeedPipeline.all_vehicles (arrivals fl fm)) r0 r1 r2 →
  StopSpec.punctual (S := InMemoryStateStore) (filter (has_key StopSpec.key_of v) (arrivals fl se)) →
  VisitPipeline.prompt (S2 := InMemoryStateStore) (filter (of_vehicle v) (arrivals fl dw)) →
  DatabaseSink.NewDatabaseSink db_sink.2 = inl s →
  sink_takes gr fl (sink_Database s) (Batching.taken Some ins) →
  ending ins = Some ctx_Done → DatabaseSink.doSink s ins = (rest, fs) →
  ∃ d, filter (dwell_of v) (flushed fs) = [msg_DwellTimeEvent d] ∧
    VisitPipeline.measures (any_msg (msg_DwellTimeEvent d)) (gtfs_stop r1) v (gtfs_time r1) (gtfs_time r2) ∧
    ∃ f st, f ∈ fs ∧ st ∈ DatabaseSink.flush (rows f) ∧
      inserts "dwell_time_events" DatabaseSink.dwell_time_event_cols
        (DatabaseSink.dwell_time_event_args d) st.
Proof.
  intros Hgr R Hfm Hse Hdw Hdash Hcalls Hpun Hprompt Hs Hin Hend Hsink.
  pose proof all_in_one_single as Hd.
  destruct (single_places all_in_one gr fl fm se dw 4 Hd Hgr R ltac:(rewrite !elem_of_cons; tauto)
    Hfm Hse Hdw) as [_ C].
  destruct (call_measured _ _ _ _ _ _ _ _ _ _ C eq_refl Hdash Hcalls Hpun Hprompt) as (x & Hx & Hm).
  assert (filter (λ m, kind_of m = K_DwellTimeEvent) (flushed fs) =
    omap as_Event (stage_output 4 (arrivals fl dw))) as Hfl.
  { apply (flushed_sent all_in_one gr fl dw (stage_processor 4) s ins rest fs); try done;
      [apply list_elem_of_here|]. cbn. unfold measured. rewrite !elem_of_cons. tauto. }
  destruct Hm as (d & a & -> & Ha & Hm). exists (Some d).
  assert (filter (dwell_of v) (flushed fs) = [msg_DwellTimeEvent (Some d)]) as Hone.
  { rewrite <- (list_filter_filter_l (dwell_of v) (λ m, kind_of m = K_DwellTimeEvent)).
    - rewrite Hfl, events_dwells. unfold stage_output.
      change (sends (stage_processor 4) (arrivals fl dw))
        with (outputs DwellEventProcessor.handle (arrivals fl dw) (metric_store 4)). by rewrite Hx.
    - by intros []. }
  split; [done|]. split; [by exists d, a|].
  eapply flushed_inserts_dwell, (list_elem_of_filter (dwell_of v)). rewrite Hone. apply list_elem_of_here.
Qed.
End persist.
