(* ===== verification/Archive.v ===== *)
(** * The bucket ([config/configs/all-in-one.yaml], [distributed-processing.yaml])

    Each measuring pipeline has a Parquet sink of its own.  What the objects in S3 read
    back as, with the rows that wait for the next flush, is what the processor sent. *)
From S2P Require Import Prelude Interleave GoTime Gtfs Events StateStore Proc Config.
From S2P Require Import Batching DbSink ParquetSink Endpoints Graph Typing Network Wiring Deploy Shipped Outlets.

Import Graph GraphSpec InMemory.
#[local] Existing Instances InMemory.in_memory InMemory.in_memory_ok.
Import ParquetSink ParquetSpec.

Section archive.
Context `{!SqlDB, !AWS, !MapOrder, !MapOrderOk, !ProtoLib, !ProtoLibOk, !Platform, !GoStreams, !GoStreamsOk}.
Context `{!ParquetLib, !ParquetLibOk}.

(** A flush at a time, that could be encoded and that S3 took. *)
Definition uploaded (x : Time * Batching.flush EventRow.t * option error) : Prop :=
  x.2 = None ∧ ∃ buf, serializeRows (rows x.1.2) = inl buf.

#[export] Instance uploaded_dec x : Decision (uploaded x).
Proof.
  destruct (decide (x.2 = None)) as [Ha|Ha]; [|by right; intros []].
  destruct (serializeRows (rows x.1.2)) as [buf|err] eqn:Hs.
  - left. split; [done|by exists buf].
  - right. intros (_ & buf & Hbuf). congruence.
Defined.

(** The batches of some flushes, and what the objects under their names read back as. *)
Definition batches (l : list (Time * Batching.flush EventRow.t * option error)) : list (list EventRow.t) :=
  (λ x, rows x.1.2) <$> l.
Definition read_back (b : gmap string (list Byte.byte)) (s : ParquetSink.t)
    (l : list (Time * Batching.flush EventRow.t * option error)) : option (list (list EventRow.t)) :=
  mapM (λ x, b !! objectKey s x.1.1 ≫= Read) l.

(** The rows a sink has not tried to upload: a cancelled one tries them all. *)
Definition unflushed (ins : list input) (rest : list EventRow.t) : list EventRow.t :=
  match ending ins with Some ctx_Done => [] | _ => rest end.

Lemma parquet_of_declared kd : kd ∈ measured → ((parquet_of kd).1, (parquet_of kd).2) ∈ parquet_sinks.
Proof.
  unfold measured. rewrite !elem_of_cons, elem_of_nil. intros Hk. destruct_or? Hk; subst kd; in_list.
Qed.

(** C12: The bucket mirrors what is measured.  In a run of all-in-one.yaml or of
    distributed-processing.yaml the Parquet sink of a type has taken everything that
    was sent to it, and flushed at times of which no two are in the same second.  S3
    has taken some of the files and refused others, and some could not be encoded.
    - The objects under the names of the flushes that were encoded and taken read back
      as the rows of those flushes.
    - The rows of all flushes, in their order, followed by those not flushed, are the
      rows of the events that the processor of the type sent, one each and in order:
      so, when every flush was encoded and taken, are the objects read back.
    - A row tells its event when the times of the event are all there and in whole
      seconds ([timed]); a row keeps Unix seconds, and 0 for no time.
    - Fewer than 10000 rows wait in the sink. *)
Theorem bucket_mirrors d gr fl i pr s ins rest l b :
  d ∈ recording → NewGraph (yaml d) = Built gr → Graph_Run gr fl →
  pipelines gr !! i ≫= processor = Some pr → produces pr ∈ measured →
  NewParquetSink (parquet_of (produces pr)).2 = inl s →
  sink_takes gr fl (sink_Parquet s) (Batching.taken Some ins) → doSink s ins = (rest, l.*1.*2) →
  Forall (λ t, 0 ≤ time_sec t) l.*1.*1 → NoDup (time_sec <$> l.*1.*1) →
  let sent := omap as_Event (sends pr (arrivals fl i)) in
  let stored := filter uploaded l in
  read_back (puts b s l) s stored = Some (batches stored) ∧
  concat (batches l) ++ unflushed ins rest = toEventRow <$> sent ∧
  (Forall uploaded l → ∃ files, read_back (puts b s l) s l = Some files ∧
     concat files ++ unflushed ins rest = toEventRow <$> sent) ∧
  Forall (λ m, timed m → event_of_row (toEventRow m) = Some m) sent ∧
  len rest < 10000.
Proof.
  intros Hd Hgr R Hi Hk Hs Hin Hsink Hpos Hnd sent stored.
  pose proof (parquet_takes d gr fl i pr s _ Hd Hgr R Hi Hk Hs Hin) as Htk.
  assert (events_taken ins = sent) as Hev by (unfold events_taken, sent; by rewrite taken_omap, Htk).
  destruct (flush_threshold_ignored _ _ s (parquet_of_declared _ Hk) Hs) as (_ & Hmax & _).
  assert (0 < maxBatchSize s) as Hpos' by lia.
  pose proof (bucket_holds_batches s ins rest l b Hsink Hpos' Hpos Hnd) as Hall.
  pose proof (sink_conserves_rows s ins rest l.*1.*2 Hsink) as Hrows.
  assert (concat (batches l) ++ unflushed ins rest = toEventRow <$> sent) as Hconcat.
  { rewrite <- Hev, <- Hrows. unfold batches, flushed, unflushed. by rewrite <- !list_fmap_compose. }
  assert (∀ l', (∀ x, x ∈ l' → x ∈ l) → Forall uploaded l' →
    read_back (puts b s l) s l' = Some (batches l')) as Hread.
  { intros l' Hin' Hup. apply mapM_Some, Forall2_fmap_r, Forall_Forall2_diag.
    rewrite Forall_forall in Hall, Hup. apply Forall_forall. intros x Hx.
    destruct (Hup x Hx) as (Hok & buf & Hbuf). eapply Hall; eauto. }
  split_and!; [|done|..].
  - apply Hread; [by intros x [_ ?]%list_elem_of_filter|].
    apply Forall_forall. by intros x [? _]%list_elem_of_filter.
  - intros Hup. exists (batches l). split; [by apply Hread|done].
  - apply Forall_forall. intros m _. apply row_roundtrip.
  - rewrite <- Hmax. by eapply sink_rest_bounded.
Qed.
End archive.
