(* ===== verification/Live.v ===== *)
(** * The event server ([config/configs/*.yaml])

    All pipelines but the first have the SSE sink.  What a browser that has subscribed
    to one type of event gets is what the processor of that type sends. *)
From stdpp Require Import relations.
From S2P Require Import Prelude Interleave GoTime Gtfs Events EventMap StateStore Proc Config.
From S2P Require Import DbSink ParquetSink EventServer SSESink Endpoints Graph Typing Network Wiring Deploy Shipped Outlets.

Import Graph GraphSpec InMemory.
#[local] Existing Instances InMemory.in_memory InMemory.in_memory_ok.
Import EventServer ServerSpec.

(** Each pipeline that sends events has the SSE sink, once. *)
Lemma sse_outlets d e pr :
  d ∈ shipped → e ∈ d_pipelines d → role e.2 = Some pr → event_kind (produces pr) →
  ∃ snk j, outlet d "sse-sink" snk (produces pr) e j.
Proof.
  intros Hd He Hr Hk. pose proof He as [n Hn]%list_elem_of_lookup. each_deployment Hd;
    destruct n as [|[|[|[|[|[|n]]]]]]; cbn in Hn; try done; injection Hn as <-; cbn in Hr; injection Hr as <-;
    try (by destruct Hk).
  all: eexists; first [exists 1%nat; outlet|exists 2%nat; outlet|exists 4%nat; outlet].
Qed.

Section live.
Context `{!SqlDB, !AWS, !MapOrder, !MapOrderOk, !ProtoLib, !Platform, !GoStreams, !GoStreamsOk}.

(** The SSE sink takes of each type of events what its processor sends. *)
Lemma sse_takes d gr fl i pr port xs :
  d ∈ shipped → NewGraph (yaml d) = Built gr → Graph_Run gr fl →
  pipelines gr !! i ≫= processor = Some pr → event_kind (produces pr) →
  sse_sink port ∈ d_sinks d → sink_takes gr fl (sink_SSE (SSESinkConfig.mk port "/events")) xs →
  filter (is_message (produces pr)) xs = sends pr (arrivals fl i).
Proof.
  intros Hd Hgr R Hi Hk Hport Hxs. pose proof (sse_made d port Hd Hport) as Hm.
  destruct (shipped_entry d gr i pr Hd Hgr Hi) as (ps & e & L & Hps & He & Hr).
  destruct (sse_outlets d e pr Hd He Hr Hk) as (snk & j & Ho).
  exact (outlet_takes d (shipped_tidy d Hd) gr ps L fl _ _ _ e j i pr xs R Ho Hm Hps Hr Hxs).
Qed.

(** The filter on the type of the events. *)
Lemma wants_kind sub kd m :
  sub !! "event_type" = Some (type_name (zero_of kd)) → event_kind kd → is_Event m = true →
  wants sub (GetEventMap m) → kind_of m = kd.
Proof.
  intros Hsub [Hg Hf] Hm Hw. 
  assert (Sprintf_v <$> GetEventMap m !! "event_type" = Some (type_name (zero_of kd))) as Hv by exact (Hw _ _ Hsub).
  rewrite (GetEventMap_attribute m "event_type" (V_string (type_name m))) in Hv by done.
  injection Hv as Hv. destruct kd, m; done.
Qed.

(** A filter that only events of the type [kd] pass sees only those. *)
Lemma filter_of_kind (P : event_map → Prop) `{!∀ m, Decision (P m)} kd (xs : list any) :
  event_kind kd → (∀ m, is_Event m = true → P (GetEventMap m) → kind_of m = kd) →
  filter P (GetEventMap <$> omap as_Event xs) =
    filter P (GetEventMap <$> omap as_Event (filter (is_message kd) xs)).
Proof.
  intros Hk HP. rewrite <- events_of_kind by done.
  assert (Forall (λ m, is_Event m = true) (omap as_Event xs)) as Hev.
  { apply Forall_forall. intros m (x & _ & Hm)%list_elem_of_omap. unfold as_Event in Hm.
    destruct x as [| |m'|]; try done. destruct (is_Event m') eqn:He; [|done]. congruence. }
  induction Hev as [|m l Hm _ IH]; [done|]. rewrite fmap_cons, !filter_cons.
  destruct (decide (kind_of m = kd)) as [Hm'|Hm'].
  - rewrite fmap_cons, filter_cons, IH. done.
  - rewrite decide_False, IH; [done|]. intros Hp. by apply Hm', HP.
Qed.

(** C13: A browser sees what is measured.  In a run of any of the shipped configurations a
    browser subscribes to the events of one type, and perhaps to those with certain
    values in other fields, before the SSE sink has broadcast the first one.  As long
    as it keeps up, what was written to it and what is in its queue are, in order and
    without a gap, a first part of the events that the processor of that type sends
    and that pass the filters; all of them when the sink has taken everything. *)
Theorem browser_sees_measures d gr fl i pr port xs closes σ l1 id q fw l2 w fw' sub queue ws :
  d ∈ shipped → NewGraph (yaml d) = Built gr → Graph_Run gr fl →
  pipelines gr !! i ≫= processor = Some pr → event_kind (produces pr) →
  sse_sink port ∈ d_sinks d → sink_takes gr fl (sink_SSE (SSESinkConfig.mk port "/events")) xs →
  SSESink.reachable xs closes σ →
  subscription_of q !! "event_type" = Some (type_name (zero_of (produces pr))) →
  run start (l1 ++ Request id q fw :: l2) = Next w →
  published l1 = [] →
  published (l1 ++ Request id q fw :: l2) = GetEventMap <$> SSESink.broadcast σ →
  keeps_up id (Present fw (subscription_of q) [] []) l2 → view id w = Present fw' sub queue ws →
  let due := filter (λ m, wants (subscription_of q) m ∧ Marshal_ok m)
    (GetEventMap <$> omap as_Event (sends pr (arrivals fl i))) in
  ws ++ sendable queue `prefix_of` due ∧ (SSESink.pending σ = [] → ws ++ sendable queue = due).
Proof.
  intros Hd Hgr R Hi Hk Hport Hxs Hreach Htype Hrun Hl1 Hpub Hkeep Hview due_.
  rewrite (sse_lossless l1 id q fw l2 w fw' sub queue ws Hrun Hkeep Hview).
  destruct (SSESink.sse_reachable_inv _ _ _ Hreach) as [(tk & Hxs' & Hb) _ _ _ _].
  assert (published l2 = GetEventMap <$> SSESink.broadcast σ) as Hl2.
  { rewrite <- Hpub. unfold published in Hl1 |- *. by rewrite omap_app, Hl1. }
  unfold due_, due. rewrite Hl2, Hb.
  rewrite <- (sse_takes d gr fl i pr port xs Hd Hgr R Hi Hk Hport Hxs).
  assert (∀ m, is_Event m = true →
    wants (subscription_of q) (GetEventMap m) ∧ Marshal_ok (GetEventMap m) → kind_of m = produces pr) as Hof.
  { intros m He [Hw _]. by eapply wants_kind. }
  rewrite (filter_of_kind _ (produces pr) tk) by done. rewrite Hxs', filter_app. split.
  - rewrite omap_app, fmap_app, filter_app. by apply prefix_app_r.
  - intros ->. by rewrite filter_nil, app_nil_r.
Qed.
End live.
