(* ===== verification/Distributed.v ===== *)
(** * Two processes joined by Redis ([distributed-ingestion.yaml], [distributed-processing.yaml])

    One process polls feeds and publishes positions on a Redis channel, the other
    takes them from there and measures.  Redis passes on some of the positions, in
    order; what the second process measures is what the reports that came through
    tell. *)
From S2P Require Import Prelude Interleave GoTime ParseDuration Gtfs Events StateStore Proc Config.
From S2P Require Import FeedEvents StopEvents Metrics DwellEvents HeadwayEvents TravelTimeEvents.
From S2P Require Import Transit Journey Trips DbSink ParquetSink Endpoints Graph Typing Network Wiring.
From S2P Require Import Deploy Shipped.

Import Graph GraphSpec InMemory.
#[local] Existing Instances InMemory.in_memory InMemory.in_memory_ok.

(** ** Redis between two graphs *)

(** A Redis source of another process hears this end of a pipeline. *)
Definition hears (g : Graph.t) (s : RedisLink.RedisSource) (e : nat * nat) : Prop :=
  match sink_at g e with Some (sink_Redis k) => RedisLink.linked k s | _ => False end.
#[export] Instance hears_dec g s e : Decision (hears g s e).
Proof. unfold hears, RedisLink.linked. repeat case_match; apply _. Defined.

Section redis.
Context `{!ProtoLib}.

(** What the sinks of a process publish for a source. *)
Definition published (g : Graph.t) (fl : flow) (s : RedisLink.RedisSource)
    : list (list (list Byte.byte)) :=
  (λ e, omap RedisLink.doSink (given fl e.1 e.2)) <$>
    filter (hears g s) (ends (λ p, length (sinks p)) g).

(** Publish and subscribe, as Redis documents it: a subscriber is delivered what was
    published on its channel at most once, in the order in which it was received, and
    misses what is published while it is not there.  Nobody but the first process
    publishes. *)
Definition redis_delivers (g1 : Graph.t) (fl1 : flow) (g2 : Graph.t) (fl2 : flow) : Prop :=
  ∀ e s, source_at g2 e = Some (src_Redis s) → ∃ channel payloads,
    interleaved (published g1 fl1 s) channel ∧ payloads `sublist_of` channel ∧
    taken fl2 e.1 e.2 = RedisLink.init <$> payloads.

(** The protobuf library decodes what it encoded, for positions. *)
Definition positions_roundtrip : Prop :=
  ∀ e b, Marshal (Some (msg_VehiclePositionEvent (Some e))) = inl b →
    Unmarshal b (zero_of K_VehiclePositionEvent) = inl (msg_VehiclePositionEvent (Some e)).

(** What comes through are some of the reports, in order. *)
Lemma reports_delivered agency vs payloads :
  positions_roundtrip →
  payloads `sublist_of` omap RedisLink.doSink (reports agency vs) →
  ∃ l, l `sublist_of` vs ∧ length l = length payloads ∧
    omap StopSpec.snapshot (RedisLink.init <$> payloads) = FeedSpec.position_of agency <$> filter named l.
Proof.
  intros Hwire. unfold reports. revert payloads. induction vs as [|v vs IH]; intros payloads Hsub.
  - apply sublist_nil_r in Hsub as ->. by exists [].
  - rewrite fmap_cons, omap_cons_eq in Hsub.
    destruct (RedisLink.doSink _) as [b|] eqn:Hb; cbn in Hsub.
    + apply sublist_cons_r in Hsub as [Hsub|(payloads' & -> & Hsub)];
        destruct (IH _ Hsub) as (l & Hl & Hlen & Hsn).
      * exists l. split_and!; [by apply sublist_cons|done..].
      * exists (v :: l). split_and!; [by apply sublist_skip|cbn; by f_equal|].
        rewrite fmap_cons, omap_cons_eq, Hsn. cbn in Hb.
        destruct (Marshal _) as [b'|] eqn:Hm; [|done]. injection Hb as ->.
        assert (StopSpec.snapshot (RedisLink.init b) =
          if decide (FeedSpec.identity v = "") then None else Some (FeedSpec.position_of agency v)) as ->.
        { rewrite <- snapshot_report. unfold StopSpec.snapshot, RedisLink.init. by rewrite (Hwire _ _ Hm). }
        destruct (decide (FeedSpec.identity v = "")) as [Hv|Hv].
        -- rewrite filter_cons_False by (intros Hn; by apply Hn). done.
        -- by rewrite filter_cons_True.
    + destruct (IH _ Hsub) as (l & Hl & Hlen & Hsn). exists l. split_and!; [by apply sublist_cons|done..].
Qed.
End redis.

(** ** The two graphs *)

Section distributed.
Context `{!SqlDB, !AWS, !MapOrder, !MapOrderOk, !ProtoLib, !Platform, !GoStreams, !GoStreamsOk}.

Lemma ingestion_shipped : ingestion ∈ shipped.
Proof. unfold shipped. rewrite !elem_of_cons. tauto. Qed.
Lemma processing_shipped : processing ∈ shipped.
Proof. unfold shipped. rewrite !elem_of_cons. tauto. Qed.

(** The source of the second process, and the sink of the first that it hears. *)
Definition positions_source : RedisLink.RedisSource := RedisLink.NewRedisSource redis_positions.

Lemma ingestion_entry n : (n < 2)%nat → d_pipelines ingestion !! n = Some (entry ingestion n).
Proof. intros Hn. do 2 (destruct n as [|n]; [done|]). lia. Qed.

Lemma ingestion_role n : (n < 2)%nat → role (entry ingestion n).2 = Some (stage_processor n).
Proof. intros Hn. do 2 (destruct n as [|n]; [done|]). lia. Qed.

Lemma processing_entry n : (n < 4)%nat → d_pipelines processing !! n = Some (entry processing n).
Proof. intros Hn. do 4 (destruct n as [|n]; [done|]). lia. Qed.

Lemma processing_role n : (n < 4)%nat → role (entry processing n).2 = Some (stage_processor (2 + n)).
Proof. intros Hn. do 4 (destruct n as [|n]; [done|]). lia. Qed.

(** Only the second pipeline of the first process publishes. *)
Lemma ingestion_hears gr ps fm i j :
  layout (yaml ingestion) gr ps → ps !! fm = Some (entry ingestion 1) →
  hears gr positions_source (i, j) ↔ (i, j) = (fm, 0%nat).
Proof.
  intros L Hfm. pose proof (shipped_tidy _ ingestion_shipped) as T. unfold hears. split.
  - destruct (sink_at gr (i, j)) as [k|] eqn:Hk; [|done]. destruct k; try done. intros _.
    destruct (declared_sink_at ingestion T gr ps L i j _ Hk) as ([id p] & s' & c & Hi & Hj & Hs & Hnew);
      [done|].
    assert (s' = "redis-vp-sink") as ->.
    { cbn in Hs. rewrite !elem_of_cons, elem_of_nil in Hs. destruct Hs as [Hs|[Hs|[Hs|[]]]];
        unfold console_sink, sse_sink in Hs; injection Hs as -> ->; done. }
    destruct (layout_at _ _ _ _ _ _ L Hi) as (pl & _ & Hpl & _).
    destruct (deployed_entry ingestion T gr ps L i pl Hpl) as (id' & p' & Hin & Hi' & _).
    rewrite Hi in Hi'. injection Hi' as <- <-. apply list_elem_of_lookup in Hin as [n Hn].
    destruct n as [|[|n]]; [| |done]; cbn in Hn; injection Hn as <- <-.
    + exfalso. by do 2 (destruct j as [|j]; [done|]).
    + assert (i = fm) as -> by exact (layout_key _ _ _ _ _ _ _ _ L Hi Hfm). destruct j as [|j]; [done|].
      exfalso. do 3 (destruct j as [|j]; [by cbn in Hj|]). done.
  - intros [= -> ->]. rewrite (surjective_pairing (entry ingestion 1)) in Hfm.
    destruct (layout_at _ _ _ _ _ _ L Hfm) as (pl & _ & Hpl & Hb & _). unfold sink_at. cbn. rewrite Hpl. cbn.
    destruct (Forall2_lookup_l _ _ _ 0%nat "redis-vp-sink" (b_sinks _ _ _ Hb) eq_refl)
      as (k & Hk & c & Hc & Hnew).
    rewrite (declared_sink ingestion T "redis-vp-sink" (nth 2 (d_sinks ingestion) console_sink).2)
      in Hc by (by apply (list_elem_of_lookup_2 _ 2)).
    injection Hc as <-. rewrite Hk. vm_compute in Hnew. injection Hnew as <-. by split.
Qed.

(** What the first process publishes: the vehicles of its feeds. *)
Lemma ingestion_publishes gr ps fl fm vp :
  layout (yaml ingestion) gr ps → Graph_Run gr fl →
  ps !! fm = Some (entry ingestion 0) → ps !! vp = Some (entry ingestion 1) →
  published gr fl positions_source =
    [omap RedisLink.doSink (reports "MBTA" (FeedPipeline.all_vehicles (arrivals fl fm)))].
Proof.
  intros L R Hfm Hvp. pose proof (shipped_tidy _ ingestion_shipped) as T. unfold published.
  assert (hears gr positions_source (vp, 0%nat)) as Hh
    by (by apply (ingestion_hears gr ps vp vp 0 L Hvp)).
  rewrite (filter_sole _ _ (vp, 0%nat)).
  - cbn. do 2 f_equal. assert (carries (arrivals fl vp) (stage_output 0 (arrivals fl fm))) as Hc.
    { eapply (deployed_carries ingestion T gr ps L fl R "feed-message-connector" _ 0);
        [|done|exact Hvp|by apply (ingestion_role 0); lia].
      split; try by apply (bool_decide_unpack _).
      - by apply (list_elem_of_lookup_2 _ 0), (ingestion_entry 0); lia.
      - by apply (list_elem_of_lookup_2 _ 1), (ingestion_entry 1); lia. }
    destruct (deployed_published ingestion T gr ps L fl R vp _ _ Hvp (ingestion_role 1 ltac:(lia)))
      as (pl & Hpl & _ & Hgiven).
    unfold hears, sink_at in Hh. cbn in Hh. rewrite Hpl in Hh. cbn in Hh.
    destruct (sinks pl !! 0%nat) as [k|] eqn:Hk; [|done].
    rewrite (Hgiven 0%nat k Hk). by eapply feeds_reported.
  - apply NoDup_ends.
  - unfold hears, sink_at in Hh. cbn in Hh. apply elem_of_ends. cbn.
    destruct (pipelines gr !! vp) as [pl|]; [|done]. exists pl. split; [done|]. cbn in Hh.
    destruct (sinks pl !! 0%nat) eqn:Hk; [by eapply lookup_lt_Some|done].
  - intros [i j]. by apply (ingestion_hears gr ps vp).
Qed.

(** The metric pipelines of the second process. *)
Lemma processing_chain gr ps fl l se m n :
  layout (yaml processing) gr ps → Graph_Run gr fl → (1 ≤ n < 4)%nat →
  ps !! se = Some (entry processing 0) → ps !! m = Some (entry processing n) →
  Forall (λ r, gtfs_stop r ≠ "") l → reported "MBTA" l (arrivals fl se) →
  chain "MBTA" l (arrivals fl se) (fresh (2 * Hour)) (arrivals fl m) (metric_store (2 + n)).
Proof.
  intros L R Hn Hse Hm Hl Hrep. pose proof (shipped_tidy _ processing_shipped) as T.
  assert (∃ c j, joint processing c (entry processing 0) j (entry processing n)) as (c & j & Hj).
  { destruct n as [|[|[|[|n]]]]; try lia; [exists "headway-connector", 0%nat|exists "dwell-connector", 1%nat|
      exists "travel-time-connector", 2%nat]; (split; [by apply (bool_decide_unpack _)|
      by apply (list_elem_of_lookup_2 _ 0), (processing_entry 0); lia|
      by eapply list_elem_of_lookup_2, processing_entry; lia|by apply (bool_decide_unpack _)..]). }
  split; try done; try apply new_homogeneous; try (by eapply (deployed_timely processing gr ps L fl R)).
  - change (carries (arrivals fl m) (sends (stage_processor 2) (arrivals fl se))).
    eapply (deployed_carries processing T gr ps L fl R c _ j); [done..|].
    apply (processing_role 0). lia.
  - apply Forall_true. by intros ? ? _.
  - apply Forall_true. by intros ? ? _.
Qed.

(** C8: Feeds to measures over Redis.  The two processes of the distributed deployment
    run, and Redis delivers what the first publishes to the second in order and at
    most once.  Then the StopEventProcessor sees some of the vehicles that the feeds
    report, each at most once and in order, and all of them if nothing is lost; and
    the sinks of the second process, the database and S3 among them, are sent exactly
    the dwell times, headways and travel times that these reports tell of, as if they
    had been polled there. *)
Theorem distributed_measures `{!ProtoLibOk} g1 fl1 g2 fl2 fm se hw dw tt :
  positions_roundtrip →
  NewGraph (yaml ingestion) = Built g1 → Graph_Run g1 fl1 →
  NewGraph (yaml processing) = Built g2 → Graph_Run g2 fl2 →
  redis_delivers g1 fl1 g2 fl2 →
  pipelines g1 !! fm ≫= processor = Some (P_FeedMessage "MBTA") →
  pipelines g2 !! se ≫= processor = Some (NewStopEventProcessor None) →
  pipelines g2 !! hw ≫= processor = Some (NewHeadwayEventProcessor None) →
  pipelines g2 !! dw ≫= processor = Some (NewDwellEventProcessor None) →
  pipelines g2 !! tt ≫= processor = Some (NewTravelTimeEventProcessor None) →
  let polled := FeedPipeline.all_vehicles (arrivals fl1 fm) in
  ∃ l, l `sublist_of` polled ∧ reported "MBTA" l (arrivals fl2 se) ∧
    (length (arrivals fl2 se) = length polled → l = polled) ∧
    measures_headways processing g2 fl2
      ["console-sink"; "sse-sink"; "db-sink"; "parquet-headway-events"] l se hw ∧
    measures_visits processing g2 fl2
      ["console-sink"; "sse-sink"; "db-sink"; "parquet-dwell-events"] l se dw ∧
    measures_travel processing g2 fl2
      ["console-sink"; "sse-sink"; "db-sink"; "parquet-travel-time-events"] l se tt.
Proof.
  intros Hwire Hg1 R1 Hg2 R2 Hredis Hfm Hse Hhw Hdw Htt polled.
  pose proof (shipped_tidy _ ingestion_shipped) as T1.
  pose proof (shipped_tidy _ processing_shipped) as T2.
  destruct (deployed_layout _ T1 g1 (shipped_valid _ ingestion_shipped) Hg1) as [ps1 L1].
  destruct (deployed_layout _ T2 g2 (shipped_valid _ processing_shipped) Hg2) as [ps2 L2].
  assert (∀ n i, (n < 4)%nat → pipelines g2 !! i ≫= processor = Some (stage_processor (2 + n)) →
    ps2 !! i = Some (entry processing n)) as Hat.
  { intros n i Hn Hi. rewrite <- (processing_role n) in Hi by done.
    apply (deployed_only _ T2 g2 ps2 L2 n); [by apply processing_entry|done|by rewrite processing_role]. }
  apply (Hat 0%nat) in Hse; [|lia]. apply (Hat 1%nat) in Hhw; [|lia].
  apply (Hat 2%nat) in Hdw; [|lia]. apply (Hat 3%nat) in Htt; [|lia].
  change (Some (P_FeedMessage "MBTA")) with (Some (stage_processor 0)) in Hfm.
  rewrite <- (ingestion_role 0) in Hfm by lia.
  apply (deployed_only _ T1 g1 ps1 L1 0) in Hfm; [|by apply (ingestion_entry 0); lia|by eexists].
  destruct (deployed_at _ T1 g1 ps1 L1) as [at_ Hvp]. specialize (Hvp 1%nat _ eq_refl).
  destruct (deployed_source _ T2 g2 ps2 L2 fl2 R2 se _ "redis-vp-source" _ (src_Redis positions_source)
    Hse eq_refl (list_elem_of_here _ _) eq_refl) as (Hsrc & Htaken & _).
  destruct (Hredis _ _ Hsrc) as (ch & payloads & Hch & Hsub & Hpay).
  rewrite (ingestion_publishes g1 ps1 fl1 fm (at_ 1%nat) L1 R1 Hfm Hvp) in Hch.
  apply interleaved_one in Hch as ->. cbn [fst snd] in Hpay.
  destruct (reports_delivered "MBTA" polled payloads Hwire Hsub) as (l & Hl & Hlen & Hsn).
  rewrite Hpay in Htaken.
  assert (reported "MBTA" l (arrivals fl2 se)) as Hrep
    by (unfold reported; by rewrite snapshots_what, Htaken).
  assert (Forall (λ r, gtfs_stop r ≠ "") l) as Hstop
    by (eapply Forall_sublist_of; [exact Hl|apply all_vehicles_stop]).
  exists l. do 2 (split; [done|]). split; [|split_and!].
  - intros Hall. apply (f_equal length) in Htaken. rewrite !length_fmap in Htaken.
    apply sublist_same_length; [done|]. congruence.
  - apply chain_headways; [by apply (processing_chain g2 ps2 fl2 l se hw 1); [done..|lia| | | |]|].
    by apply (deployed_published _ T2 g2 ps2 L2 fl2 R2 hw _ _ Hhw (processing_role 1 ltac:(lia))).
  - apply chain_visits; [by apply (processing_chain g2 ps2 fl2 l se dw 2); [done..|lia| | | |]|].
    by apply (deployed_published _ T2 g2 ps2 L2 fl2 R2 dw _ _ Hdw (processing_role 2 ltac:(lia))).
  - apply chain_travel; [by apply (processing_chain g2 ps2 fl2 l se tt 3); [done..|lia| | | |]|].
    by apply (deployed_published _ T2 g2 ps2 L2 fl2 R2 tt _ _ Htt (processing_role 3 ltac:(lia))).
Qed.
End distributed.
