(* ===== verification/LineRun.v ===== *)
(** * Concrete runs

    A run of a graph whose pipelines have one source each, made from what each
    pipeline takes: its processor sends what it sends on a store of its own, and every
    connector passes on what it is given. *)
From S2P Require Import Prelude Interleave GoTime Events StateStore Proc Config.
From S2P Require Import Endpoints Graph Typing Network Deploy.

Import Graph GraphSpec InMemory.
#[local] Existing Instances InMemory.in_memory InMemory.in_memory_ok.
#[local] Existing Instances plain_streams plain_streams_ok.

Section line.
Context `{!ProtoLib, !Platform} (g : Graph.t) (traffic : nat → list arrival).

Definition line_out (i : nat) : list any :=
  match pipelines g !! i ≫= processor with Some pr => sends pr (traffic i) | None => [] end.

Definition line_run : flow := {|
  taken i _ := what <$> traffic i;
  arrivals := traffic;
  given i _ := line_out i;
|}.

(** Every pipeline has a processor on a store of its own and one source, and its
    connectors are among [cs]. *)
Definition linear (cs : list ID) : bool :=
  forallb (λ p,
    match processor p with
    | Some pr => match own_store pr with Some _ => true | None => false end
    | None => false
    end &&
    bool_decide (length (sources p) = 1%nat) &&
    forallb (λ s, match s with src_Connector (Some c) => bool_decide (c ∈ cs) | _ => true end) (sources p) &&
    forallb (λ k, match k with
                  | sink_Connector (Some c) => bool_decide (c ∈ cs)
                  | sink_Connector None => false
                  | _ => true
                  end) (sinks p)) (pipelines g).

Context (cs : list ID) (L : linear cs = true).

Lemma linear_at i p :
  pipelines g !! i = Some p →
  (∃ pr s, processor p = Some pr ∧ own_store pr = Some s) ∧ length (sources p) = 1%nat ∧
  (∀ j c, sources p !! j = Some (src_Connector (Some c)) → c ∈ cs) ∧
  (∀ j ch, sinks p !! j = Some (sink_Connector ch) → ∃ c, ch = Some c ∧ c ∈ cs).
Proof.
  intros Hi%list_elem_of_lookup_2%list_elem_of_In. unfold linear in L.
  rewrite forallb_forall in L. specialize (L p Hi).
  rewrite !andb_true_iff, bool_decide_eq_true, !forallb_forall in L.
  destruct L as (((Hpr & Hlen) & Hsrc) & Hsnk). split_and!; [|done|..].
  - destruct (processor p) as [pr|]; [|done]. destruct (own_store pr) as [s|] eqn:Hs; [|done]. by exists pr, s.
  - intros j c Hj%list_elem_of_lookup_2%list_elem_of_In. by apply Hsrc, bool_decide_eq_true in Hj.
  - intros j ch Hj%list_elem_of_lookup_2%list_elem_of_In. apply Hsnk in Hj. destruct ch as [c|]; [|done].
    exists c. split; [done|]. by apply bool_decide_eq_true in Hj.
Qed.

Lemma line_pipeline i p :
  pipelines g !! i = Some p → timely 0 (traffic i) →
  Pipeline_Run p (taken line_run i <$> seq 0 (length (sources p))) (arrivals line_run i)
    (given line_run i <$> seq 0 (length (sinks p))).
Proof.
  intros Hi Ht. destruct (linear_at i p Hi) as ((pr & s & Hpr & Hs) & Hlen & _).
  exists pr, (line_out i). split_and!; [done| |done|..].
  - rewrite Hlen. by apply interleaved_one.
  - unfold emits, line_out. rewrite Hi. cbn. rewrite Hpr. unfold sends. by rewrite Hs.
  - cbn [FanOut plain_streams]. generalize 0%nat.
    induction (length (sinks p)) as [|n IH]; intros k; [done|]. cbn. by f_equal.
Qed.

(** Only the connectors [cs] have ends. *)
Lemma reads_declared c e : reads g c e → c ∈ cs.
Proof.
  unfold reads, source_at. destruct (pipelines g !! e.1) as [p|] eqn:Hp; [cbn|done].
  destruct (sources p !! e.2) as [[|[c'|]|]|] eqn:Hs; try done. intros ->.
  destruct (linear_at _ _ Hp) as (_ & _ & Hin & _). eauto.
Qed.

Lemma writes_declared c e : writes g c e → c ∈ cs.
Proof.
  unfold writes, sink_at. destruct (pipelines g !! e.1) as [p|] eqn:Hp; [cbn|done].
  destruct (sinks p !! e.2) as [[|[c'|]| | | |]|] eqn:Hs; try done. intros ->.
  destruct (linear_at _ _ Hp) as (_ & _ & _ & Hin). by destruct (Hin _ _ Hs) as (? & [= <-] & ?).
Qed.

Lemma line_runs :
  (∀ i, timely 0 (traffic i)) →
  (∀ i p s, pipelines g !! i = Some p → sources p !! 0%nat = Some s → source_yields s (what <$> traffic i)) →
  Forall (λ c, all_taken g line_run c = all_given g line_run c) cs →
  Graph_Run g line_run.
Proof.
  intros Ht Hy Hcs. split.
  - intros i p Hi. split; [by apply line_pipeline|]. destruct (linear_at i p Hi) as (_ & Hlen & _ & Hk).
    split.
    + intros j s Hj. assert (j = 0)%nat as -> by (apply lookup_lt_Some in Hj; lia). by eapply Hy.
    + intros j Hj. by destruct (Hk j None Hj) as (? & ? & _).
  - intros c. exists (concat (all_given g line_run c)).
    assert (all_taken g line_run c = all_given g line_run c) as ->.
    { destruct (decide (c ∈ cs)) as [Hc|Hc]; [rewrite Forall_forall in Hcs; auto|].
      unfold all_taken, all_given.
      assert (∀ (P : nat * nat → Prop) `{!∀ e, Decision (P e)} l,
        (∀ e, P e → c ∈ cs) → filter P l = []) as Hnone.
      { intros P ? l HP. apply elem_of_nil_inv. intros e [He _]%list_elem_of_filter. eauto. }
      rewrite !Hnone; [done|intros e; apply writes_declared|intros e; apply reads_declared]. }
    split; apply interleaved_concat.
Qed.
End line.
