(* ===== verification/DefaultRun.v ===== *)
(** * A run of the default configuration

    Six polls of a feed in which the vehicles "v1" and "v3" call at the stop "s1",
    one after the other, taken through the whole graph: the concrete run on which the theorems about graphs
    are applied. *)
From stdpp Require Import relations.
From S2P Require Import Prelude Runs Interleave GoTime ParseDuration Gtfs Events StateStore Proc Config.
From S2P Require Import FeedEvents StopEvents Metrics DwellEvents HeadwayEvents TravelTimeEvents.
From S2P Require Import Transit Journey Trips.
From S2P Require Import DbSink ParquetSink Endpoints Graph Typing Network Moments Wiring Deploy Shipped LineRun.

Import Graph GraphSpec InMemory.
#[local] Existing Instances InMemory.in_memory InMemory.in_memory_ok.

Definition up : SqlDB := {| sql_Open _ _ := None; PingContext _ _ := None |}.
Definition aws : AWS := {| LoadDefaultConfig _ _ := None |}.

Definition reported (vehicle stop : string) (status time : Z) : VehiclePosition.t := {|
  VehiclePosition.Trip :=
    Some (TripDescriptor.mk (Some "t1") (Some "Red") (Some 1) (Some "20240101"));
  VehiclePosition.Vehicle := Some (VehicleDescriptor.mk (Some vehicle));
  VehiclePosition.Position := None;
  VehiclePosition.CurrentStopSequence := Some 3;
  VehiclePosition.StopId := Some stop;
  VehiclePosition.CurrentStatus := Some status;
  VehiclePosition.Timestamp := Some time;
|}.

Definition report (vehicle stop : string) (status time : Z) : ptr FeedEntity.t :=
  Some (FeedEntity.mk (Some vehicle) (Some (reported vehicle stop status time))).

Definition feed (l : list (ptr FeedEntity.t)) : Message :=
  msg_gtfs_FeedMessage (Some (FeedMessage.mk None l)).

Definition feed_table : list (Byte.byte * Message) := [
  (Byte.x00, feed [report "v1" "s1" VehiclePosition_INCOMING_AT 1000;
                   report "v2" "s9" VehiclePosition_STOPPED_AT 1000]);
  (Byte.x01, feed [report "v1" "s1" VehiclePosition_STOPPED_AT 1030;
                   report "v3" "s1" VehiclePosition_IN_TRANSIT_TO 1030]);
  (Byte.x02, feed [report "v2" "s8" VehiclePosition_IN_TRANSIT_TO 1080;
                   report "v1" "s2" VehiclePosition_IN_TRANSIT_TO 1090]);
  (Byte.x03, feed [report "v3" "s1" VehiclePosition_STOPPED_AT 1150]);
  (Byte.x04, feed [report "v3" "s2" VehiclePosition_IN_TRANSIT_TO 1210]);
  (Byte.x05, feed [report "v3" "s2" VehiclePosition_STOPPED_AT 1330])].
Definition six_feeds : ProtoLib := table_lib feed_table.

Definition bodies : list (list Byte.byte) :=
  [[Byte.x00]; [Byte.x01]; [Byte.x02]; [Byte.x03]; [Byte.x04]; [Byte.x05]].

#[local] Existing Instances up aws six_feeds amd64 amd64_ok plain_streams plain_streams_ok.
#[local] Instance six_feeds_ok : ProtoLibOk.
Proof. apply table_lib_ok. Qed.

Definition default_graph : Graph.t :=
  match NewGraph default_yaml with Built g => g | _ => Graph.mk [] [] end.

Lemma default_graph_built : NewGraph default_yaml = Built default_graph.
Proof. by vm_compute. Qed.

(** ** The traffic *)

Definition responses : list HTTPSource.response :=
  HTTPSource.request_failed :: ((λ b, HTTPSource.Response 200 (inl b)) <$> bodies).

Definition ins0 : list arrival := imap (λ i b, Arrival (still (1 + Z.of_nat i)) (any_bytes b)) bodies.
Definition ins1 : list arrival := TransitRuns.received 10 (stage_output 0 ins0).
Definition ins2 : list arrival := TransitRuns.received 20 (stage_output 1 ins1).
Definition ins3 : list arrival := TransitRuns.received 30 (stage_output 2 ins2).

(** The number of the entry a pipeline was built from. *)
Definition number_in (d : deployment) (g : Graph.t) (i : nat) : nat :=
  default 0%nat (pl ← pipelines g !! i;
    fst <$> list_find (λ kv, kv.1 = pipeline_ID pl) (d_pipelines d)).

Definition traffic_in (i : nat) : list arrival :=
  nth (number_in default_deployment default_graph i) [ins0; ins1; ins2; ins3; ins3; ins3] [].

Definition visit_run : flow := line_run default_graph traffic_in.

Lemma default_graph_length : length (pipelines default_graph) = 6%nat.
Proof. by vm_compute. Qed.

Lemma traffic_timely n : timely 0 (nth n [ins0; ins1; ins2; ins3; ins3; ins3] []).
Proof.
  do 6 (destruct n as [|n];
    [first [apply TransitRuns.received_timely; lia
           | cbn; split_and!; try apply clock_from_still; unfold still; lia || done]|]).
  by destruct n.
Qed.

Lemma sources_yield i p s :
  pipelines default_graph !! i = Some p → sources p !! 0%nat = Some s →
  source_yields s (what <$> traffic_in i).
Proof.
  intros Hi Hj. assert (i < 6)%nat as Hlt by (rewrite <- default_graph_length; by eapply lookup_lt_Some).
  destruct i as [|[|[|[|[|[|i]]]]]]; [..|lia]; vm_compute in Hi; injection Hi as <-;
    cbn in Hj; injection Hj as <-; try done.
  exists responses, (any_bytes <$> bodies). split; by vm_compute.
Qed.

Lemma visit_run_runs : Graph_Run default_graph visit_run.
Proof.
  apply (line_runs default_graph traffic_in default_connectors).
  - by vm_compute.
  - intros i. apply traffic_timely.
  - apply sources_yield.
  - each (by vm_compute).
Qed.

(** ** The theorems about graphs, applied to it *)

Lemma default_single : default_deployment ∈ single.
Proof. apply list_elem_of_here. Qed.

Lemma shipped_configs_build_witness : ∃ gr, NewGraph (yaml all_in_one) = Built gr ∧ well_typed gr = true.
Proof.
  destruct (shipped_configs_build all_in_one) as (_ & Hup & Hwt).
  - unfold shipped. rewrite !elem_of_cons. tauto.
  - destruct Hup as [gr Hgr]; [by split|]. exists gr. split; [done|]. by apply (Hwt gr).
Defined.

(** A body has been polled, and nothing else done. *)
Definition polled (b : list Byte.byte) : Moments.moment :=
  let m := Moments.at_start in
  Moments.Moment (<[(1, 0)%nat := [any_bytes b]]> (Moments.received m)) (Moments.merged m)
    (Moments.handled m) (Moments.sent m) (Moments.passed m).

Lemma polled_occurs b : Moments.occurs default_graph (polled b).
Proof.
  apply rtc_once. right. apply (Moments.p_receive default_graph Moments.at_start (1, 0)%nat
    (src_HTTP (HTTPSource.mk (SourceConfig.HTTP default_source) Second))); [by vm_compute|done|].
  exists [HTTPSource.Response 200 (inl b)], [any_bytes b]. split; [by vm_compute|done].
Qed.

Lemma default_graph_alive : Moments.alive default_graph = true.
Proof. by vm_compute. Qed.
Lemma default_graph_typed : well_typed default_graph = true.
Proof. by vm_compute. Qed.

Lemma graph_settles_witness :
  eventually (Moments.works default_graph) (Moments.works default_graph)
    (λ m', Moments.at_rest default_graph m' ∧
       Moments.leads_to default_graph (polled [Byte.x00]) m' ∧
       Graph_Run default_graph (Moments.traffic m')) (polled [Byte.x00]).
Proof.
  apply (Moments.graph_settles default_graph);
    [apply default_graph_alive|apply default_graph_typed|apply polled_occurs].
Defined.

(** A body that no feed has: it is dropped, and nothing is on its way. *)
Definition dropped : Moments.moment :=
  let m := polled [Byte.x06] in
  let a := Arrival (still 1) (any_bytes [Byte.x06]) in
  Moments.Moment (Moments.received m) (<[(1, 0)%nat := 1%nat]> (Moments.merged m))
    (<[1%nat := [a]]> (Moments.handled m)) (<[1%nat := []]> (Moments.sent m)) (Moments.passed m).

Lemma dropped_occurs : Moments.occurs default_graph dropped.
Proof.
  eapply rtc_r; [apply (polled_occurs [Byte.x06])|]. left.
  destruct (pipelines default_graph !! 1%nat) as [p|] eqn:Hp; [|by vm_compute in Hp].
  apply (Moments.w_handle default_graph (polled [Byte.x06]) 1 p (stage_processor 0) 0
    (Arrival (still 1) (any_bytes [Byte.x06])) []); [done|vm_compute in Hp; by injection Hp as <-| |done|..].
  - vm_compute in Hp. injection Hp as <-. cbn. lia.
  - apply clock_from_still. by vm_compute.
  - by vm_compute.
Qed.

Lemma rest_is_run_witness :
  Graph_Run default_graph (Moments.traffic dropped) ∧
  what <$> arrivals (Moments.traffic dropped) 1 = [any_bytes [Byte.x06]].
Proof.
  split; [|done]. apply (Moments.rest_is_run default_graph dropped);
    [apply default_graph_alive|apply dropped_occurs|split; each (by vm_compute)].
Defined.

Lemma well_typed_network_witness :
  Forall (λ a, accepts (stage_processor 2) (type_of_element (what a)) = true) ins2 ∧
  length ins2 = 9%nat.
Proof.
  split; [|by vm_compute]. apply Forall_forall. intros a Ha.
  destruct (lookup_lt_is_Some_2 (pipelines default_graph) 0%nat) as [p Hp];
    [rewrite default_graph_length; lia|].
  apply (well_typed_network default_graph visit_run 0 p (stage_processor 2) a);
    [by vm_compute|apply visit_run_runs|exact Hp| |exact Ha].
  vm_compute in Hp. by injection Hp as <-.
Defined.

Lemma connector_carries_witness : ∃ iw ir plw x,
  pipelines default_graph !! iw = Some plw ∧ processor plw = Some x ∧
  emits x (arrivals visit_run iw) (what <$> arrivals visit_run ir).
Proof.
  destruct (connector_carries default_yaml default_graph visit_run "dwell-connector"
    (entry default_deployment 2).1 (entry default_deployment 2).2 1
    (entry default_deployment 4).1 (entry default_deployment 4).2) as (iw & ir & plw & plr & x & ? & ? & ? & ? & ? & ?).
  - apply default_sound.
  - apply default_graph_built.
  - apply (shipped_plain default_deployment), list_elem_of_here.
  - apply (joint_joins default_deployment).
    + apply shipped_tidy, list_elem_of_here.
    + apply (single_joint default_deployment "dwell-connector" 2 1 4)%nat; [apply default_single|].
      unfold joints. rewrite !elem_of_cons. tauto.
  - apply visit_run_runs.
  - exists iw, ir, plw, x. split_and!; assumption.
Defined.

Lemma single_process_runs_witness : ∃ at_, dataflow default_deployment default_graph visit_run at_.
Proof.
  apply (single_process_runs default_deployment default_graph visit_run);
    [apply default_single|apply default_graph_built|apply visit_run_runs].
Defined.

Lemma single_process_measures_visit_witness : ∃ xs x,
  publishes default_deployment default_graph visit_run 4 ["console-sink"; "sse-sink"] xs ∧
  filter (λ y, VisitPipeline.dwell_vehicle y = Some "v1") xs = [x] ∧
  VisitPipeline.measures x "s1" "v1" 1030 1090.
Proof.
  apply (single_process_measures_visit default_deployment default_graph visit_run 1 0 4 "v1"
    (reported "v1" "s1" VehiclePosition_INCOMING_AT 1000)
    (reported "v1" "s1" VehiclePosition_STOPPED_AT 1030)
    (reported "v1" "s2" VehiclePosition_IN_TRANSIT_TO 1090)).
  - apply default_single.
  - apply default_graph_built.
  - apply visit_run_runs.
  - by vm_compute.
  - by vm_compute.
  - by vm_compute.
  - vm_compute. each (each (by vm_compute)).
  - split; try (by vm_compute). by right.
  - vm_compute. repeat split; discriminate.
  - apply (TransitRuns.received_prompt 30 (stage_output 2 ins2) (of_vehicle "v1")).
Defined.

(** The changes that the feeds tell of, with their times. *)
Lemma the_changes :
  (λ c, (FeedSpec.identity c.1, gtfs_time c.1, c.2)) <$> the_story "MBTA" (FeedPipeline.all_vehicles ins0) =
    [("v1", 1030, ("s1", StopEvent_ARRIVAL)); ("v2", 1080, ("s9", StopEvent_DEPARTURE));
     ("v1", 1090, ("s1", StopEvent_DEPARTURE)); ("v3", 1150, ("s1", StopEvent_ARRIVAL));
     ("v3", 1210, ("s1", StopEvent_DEPARTURE)); ("v3", 1330, ("s2", StopEvent_ARRIVAL))].
Proof. by vm_compute. Qed.

(** None expires: all are handled at the same time. *)
Lemma received_lasting t xs key_of k :
  lasting (S3 := InMemoryStateStore) (TransitRuns.received t xs) key_of k.
Proof.
  unfold lasting. pose proof (TransitRuns.received_prompt t xs (has_key key_of k)) as Hp.
  destruct (filter _ _) as [|a l]; [done|]. unfold VisitPipeline.prompt in Hp.
  assert (Forall (λ x, x ∈ a :: l) (a :: l)) as Hin by (by apply Forall_forall).
  eapply Forall_impl; [apply Forall_adjacent, Hin|]. intros [x y] [Hx Hy].
  rewrite Forall_forall in Hp. specialize (Hp x Hx). rewrite Forall_forall in Hp. by apply Hp.
Qed.

Lemma single_process_measures_headways_witness : ∃ xs h,
  publishes default_deployment default_graph visit_run 5 ["console-sink"; "sse-sink"] xs ∧
  filter (λ y, headway_place y = Some ("s1", "Red", "1")) xs = [any_msg (msg_HeadwayTimeEvent (Some h))] ∧
  HeadwayTimeEvent.LeadingVehicleId h = "v1" ∧ HeadwayTimeEvent.FollowingVehicleId h = "v3" ∧
  HeadwayTimeEvent.HeadwaySeconds h = 120.
Proof.
  destruct (single_process_measures_headways default_deployment default_graph visit_run 1 0 5 "s1" "Red" "1"
    (reported "v1" "s2" VehiclePosition_IN_TRANSIT_TO 1090, ("s1", StopEvent_DEPARTURE))
    [(reported "v3" "s2" VehiclePosition_IN_TRANSIT_TO 1210, ("s1", StopEvent_DEPARTURE))])
    as (xs & hs & Hxs & Hf & Hhs).
  - apply default_single.
  - apply default_graph_built.
  - apply visit_run_runs.
  - by vm_compute.
  - by vm_compute.
  - by vm_compute.
  - intros v. apply (TransitRuns.received_punctual 20 (stage_output 1 ins1)).
  - vm_compute. each (by vm_compute).
  - by vm_compute.
  - split; [each (vm_compute; repeat split; discriminate)|each (vm_compute; split; reflexivity)].
  - each (by vm_compute).
  - apply received_lasting.
  - destruct hs as [|h [|]]; try done. cbn in Hhs. injection Hhs as Hl Hw Hs.
    exists xs, h. split_and!; done.
Defined.

Lemma single_process_measures_travel_witness : ∃ xs x,
  publishes default_deployment default_graph visit_run 3 ["console-sink"; "sse-sink"] xs ∧
  filter (λ y, travel_trip y = Some ("Red", "1", "v3", "t1")) xs = [any_msg (msg_TravelTimeEvent (Some x))] ∧
  EventAttributes.GetOriginStopId (TravelTimeEvent.GetAttributes (Some x)) = "s1" ∧
  EventAttributes.GetDestinationStopId (TravelTimeEvent.GetAttributes (Some x)) = "s2" ∧
  TravelTimeEvent.TravelTimeSeconds x = 180.
Proof.
  destruct (single_process_measures_travel default_deployment default_graph visit_run 1 0 3 "Red" "1" "v3" "t1"
    (reported "v3" "s1" VehiclePosition_STOPPED_AT 1150, ("s1", StopEvent_ARRIVAL))
    [(reported "v3" "s2" VehiclePosition_STOPPED_AT 1330, ("s2", StopEvent_ARRIVAL))])
    as (xs & ts & Hxs & Hf & Hts).
  - apply default_single.
  - apply default_graph_built.
  - apply visit_run_runs.
  - by vm_compute.
  - by vm_compute.
  - by vm_compute.
  - intros v. apply (TransitRuns.received_punctual 20 (stage_output 1 ins1)).
  - vm_compute. each (by vm_compute).
  - by vm_compute.
  - split; [each (vm_compute; repeat split; discriminate)|each (vm_compute; split; reflexivity)].
  - each (by vm_compute).
  - apply received_lasting.
  - destruct ts as [|x [|]]; try done. cbn in Hts. injection Hts as Ho Hd Hs.
    exists xs, x. split_and!; done.
Defined.
