(* ===== verification/ShippedRuns.v ===== *)
(** * Runs of the other shipped configurations

    The six polls of [DefaultRun] taken through two processes, with the positions
    encoded, published, delivered and decoded between them; and through one process
    that writes to a database. *)
From S2P Require Import Prelude Interleave GoTime ParseDuration Gtfs Events StateStore Proc Config.
From S2P Require Import FeedEvents StopEvents Metrics DwellEvents HeadwayEvents TravelTimeEvents.
From S2P Require Import Transit Journey Trips DbSink ParquetSink Endpoints Graph Typing Network Wiring.
From S2P Require Import Batching Deploy Shipped Persist Distributed LineRun DefaultRun.

Import Graph GraphSpec InMemory.
#[local] Existing Instances InMemory.in_memory InMemory.in_memory_ok.

(** The vehicles of the feeds, in the order of the polls. *)
Definition vehicles : list VehiclePosition.t := [
  reported "v1" "s1" VehiclePosition_INCOMING_AT 1000; reported "v2" "s9" VehiclePosition_STOPPED_AT 1000;
  reported "v1" "s1" VehiclePosition_STOPPED_AT 1030; reported "v3" "s1" VehiclePosition_IN_TRANSIT_TO 1030;
  reported "v2" "s8" VehiclePosition_IN_TRANSIT_TO 1080; reported "v1" "s2" VehiclePosition_IN_TRANSIT_TO 1090;
  reported "v3" "s1" VehiclePosition_STOPPED_AT 1150; reported "v3" "s2" VehiclePosition_IN_TRANSIT_TO 1210;
  reported "v3" "s2" VehiclePosition_STOPPED_AT 1330].

Definition position_bytes : list Byte.byte :=
  [Byte.x10; Byte.x11; Byte.x12; Byte.x13; Byte.x14; Byte.x15; Byte.x16; Byte.x17; Byte.x18].

(** The wire format covers the feeds and the positions of their vehicles. *)
Definition wire_table : list (Byte.byte * Message) :=
  feed_table ++ zip_with (λ b v, (b, msg_VehiclePositionEvent (Some (@FeedSpec.position_of unix_lib "MBTA" v))))
    position_bytes vehicles.
Definition wire : ProtoLib := table_lib wire_table.

#[local] Existing Instances up aws wire amd64 amd64_ok plain_streams plain_streams_ok.
#[local] Instance wire_ok : ProtoLibOk.
Proof. apply table_lib_ok. Qed.

Definition graph_of (d : deployment) : Graph.t :=
  match NewGraph (yaml d) with Built g => g | _ => Graph.mk [] [] end.

Lemma graph_of_built d : d ∈ shipped → NewGraph (yaml d) = Built (graph_of d).
Proof.
  intros Hd. destruct (shipped_sound d Hd) as [Hv Hw Hs Hk]; [by split|].
  destruct (valid_builds _ Hv Hw Hs Hk) as (gr & Hgr & _). unfold graph_of. by rewrite Hgr.
Qed.

(** ** The first process *)

Definition polled : list arrival := DefaultRun.ins0.
Definition traffic1 (i : nat) : list arrival :=
  nth (number_in ingestion (graph_of ingestion) i)
    [polled; TransitRuns.received 10 (stage_output 0 polled)] [].
Definition run1 : flow := line_run (graph_of ingestion) traffic1.

(** ** The second process: nothing is lost on the way *)

Definition payloads : list (list Byte.byte) := (λ b, [b]) <$> position_bytes.
Definition taken2 : list arrival := TransitRuns.received 20 (RedisLink.init <$> payloads).
Definition traffic2 (i : nat) : list arrival :=
  nth (number_in processing (graph_of processing) i)
    [taken2; TransitRuns.received 30 (stage_output 2 taken2); TransitRuns.received 30 (stage_output 2 taken2);
     TransitRuns.received 30 (stage_output 2 taken2)] [].
Definition run2 : flow := line_run (graph_of processing) traffic2.

Lemma run1_runs : Graph_Run (graph_of ingestion) run1.
Proof.
  apply (line_runs (graph_of ingestion) traffic1 ["feed-message-connector"]).
  - by vm_compute.
  - intros i. unfold traffic1. destruct (number_in _ _ i) as [|[|n]];
      [apply (traffic_timely 0)|apply TransitRuns.received_timely; lia|by destruct n].
  - intros i p s Hi Hj. destruct i as [|[|i]]; vm_compute in Hi; [..|done]; injection Hi as <-;
      cbn in Hj; injection Hj as <-; try done.
    exists responses, (any_bytes <$> bodies). split; by vm_compute.
  - each (by vm_compute).
Qed.

Lemma run2_runs : Graph_Run (graph_of processing) run2.
Proof.
  apply (line_runs (graph_of processing) traffic2 (d_connectors processing)).
  - by vm_compute.
  - intros i. unfold traffic2. destruct (number_in _ _ i) as [|[|[|[|n]]]];
      [apply TransitRuns.received_timely; lia..|by destruct n].
  - intros i p s Hi Hj. destruct i as [|[|[|[|i]]]]; vm_compute in Hi; [..|done]; injection Hi as <-;
      cbn in Hj; injection Hj as <-; try done.
    exists payloads. by vm_compute.
  - each (by vm_compute).
Qed.

(** Redis delivers all that is published. *)
Lemma redis_delivered :
  redis_delivers (graph_of ingestion) run1 (graph_of processing) run2.
Proof.
  intros [i j] s Hs. unfold source_at in Hs. cbn [fst snd] in Hs.
  assert (s = positions_source ∧ i = 0%nat ∧ j = 0%nat) as (-> & -> & ->).
  { destruct i as [|[|[|[|i]]]]; vm_compute in Hs; destruct j; try done. by injection Hs as <-. }
  exists payloads, payloads. split_and!; [|done|by vm_compute].
  assert (published (graph_of ingestion) run1 positions_source = [payloads]) as -> by by vm_compute.
  by apply interleaved_one.
Qed.

Lemma wire_roundtrip : positions_roundtrip.
Proof.
  intros e b Hb. refine (table_roundtrip wire_table _ _ b _ eq_refl Hb).
  by apply (bool_decide_unpack _).
Qed.

Lemma run1_vehicles : FeedPipeline.all_vehicles (arrivals run1 0) = vehicles.
Proof. by vm_compute. Qed.

Lemma vehicles_dashless : Forall dashless vehicles.
Proof. each (each (by vm_compute)). Qed.

Lemma v1_calls : calls "v1" vehicles (reported "v1" "s1" VehiclePosition_INCOMING_AT 1000)
  (reported "v1" "s1" VehiclePosition_STOPPED_AT 1030)
  (reported "v1" "s2" VehiclePosition_IN_TRANSIT_TO 1090).
Proof. split; try (by vm_compute). by right. Qed.

Lemma distributed_measures_witness : ∃ xs x,
  publishes processing (graph_of processing) run2 2
    ["console-sink"; "sse-sink"; "db-sink"; "parquet-dwell-events"] xs ∧
  filter (λ y, VisitPipeline.dwell_vehicle y = Some "v1") xs = [x] ∧
  VisitPipeline.measures x "s1" "v1" 1030 1090.
Proof.
  destruct (distributed_measures (graph_of ingestion) run1 (graph_of processing) run2 0 0 3 2 1)
    as (l & _ & _ & Hall & _ & Hvisits & _).
  - apply wire_roundtrip.
  - apply graph_of_built, ingestion_shipped.
  - apply run1_runs.
  - apply graph_of_built, processing_shipped.
  - apply run2_runs.
  - apply redis_delivered.
  - by vm_compute.
  - by vm_compute.
  - by vm_compute.
  - by vm_compute.
  - by vm_compute.
  - rewrite Hall in Hvisits by by vm_compute. rewrite run1_vehicles in Hvisits.
    apply (Hvisits "v1" (reported "v1" "s1" VehiclePosition_INCOMING_AT 1000)
      (reported "v1" "s1" VehiclePosition_STOPPED_AT 1030)
      (reported "v1" "s2" VehiclePosition_IN_TRANSIT_TO 1090)).
    + apply vehicles_dashless.
    + apply v1_calls.
    + apply (TransitRuns.received_punctual 20 (RedisLink.init <$> payloads)).
    + apply (TransitRuns.received_prompt 30 (stage_output 2 taken2) (of_vehicle "v1")).
Defined.

(** ** One process with a database *)

Definition positions1 : list arrival := TransitRuns.received 10 (stage_output 0 polled).
Definition snapshots1 : list arrival := TransitRuns.received 20 (stage_output 1 positions1).
Definition stops1 : list arrival := TransitRuns.received 30 (stage_output 2 snapshots1).
Definition stages3 : list (list arrival) := [polled; positions1; snapshots1; stops1; stops1; stops1].
Definition traffic3 (i : nat) : list arrival := nth (number_in all_in_one (graph_of all_in_one) i) stages3 [].
Definition run3 : flow := line_run (graph_of all_in_one) traffic3.

Lemma run3_runs : Graph_Run (graph_of all_in_one) run3.
Proof.
  apply (line_runs (graph_of all_in_one) traffic3 default_connectors).
  - by vm_compute.
  - intros i. unfold traffic3. destruct (number_in _ _ i) as [|[|[|[|[|[|n]]]]]];
      [apply (traffic_timely 0)|apply TransitRuns.received_timely; lia..|by destruct n].
  - intros i p s Hi Hj. destruct i as [|[|[|[|[|[|i]]]]]]; vm_compute in Hi; [..|done]; injection Hi as <-;
      cbn in Hj; injection Hj as <-; try done.
    exists responses, (any_bytes <$> bodies). split; by vm_compute.
  - each (by vm_compute).
Qed.

Definition database : DatabaseSink.t := DatabaseSink.mk 100 (10 * Second).

(** The outputs of the pipelines reach the sink one after the other; then it is
    cancelled. *)
Definition database_channel : list any :=
  concat ((λ e, given run3 e.1 e.2) <$>
    filter (λ e, sink_at (graph_of all_in_one) e = Some (sink_Database database))
      (ends (λ p, length (sinks p)) (graph_of all_in_one))).
Definition database_inputs : list input := (msg_in <$> database_channel) ++ [ctx_Done].

Lemma run3_vehicles : FeedPipeline.all_vehicles (arrivals run3 1) = vehicles.
Proof. by vm_compute. Qed.

Lemma taken_messages xs : Batching.taken Some ((msg_in <$> xs) ++ [ctx_Done]) = xs.
Proof. induction xs as [|x xs IH]; [done|]. cbn. by f_equal. Qed.

Lemma all_in_one_stores_visit_witness : ∃ d f st,
  VisitPipeline.measures (any_msg (msg_DwellTimeEvent d)) "s1" "v1" 1030 1090 ∧
  f ∈ (DatabaseSink.doSink database database_inputs).2 ∧ st ∈ DatabaseSink.flush (rows f) ∧
  inserts "dwell_time_events" DatabaseSink.dwell_time_event_cols (DatabaseSink.dwell_time_event_args d) st.
Proof.
  destruct (all_in_one_stores_visit (graph_of all_in_one) run3 1 0 4 "v1"
    (reported "v1" "s1" VehiclePosition_INCOMING_AT 1000)
    (reported "v1" "s1" VehiclePosition_STOPPED_AT 1030)
    (reported "v1" "s2" VehiclePosition_IN_TRANSIT_TO 1090) database database_inputs
    (DatabaseSink.doSink database database_inputs).1 (DatabaseSink.doSink database database_inputs).2)
    as (d & _ & Hm & f & st & Hf & Hst & Hi).
  - apply graph_of_built, single_shipped, all_in_one_single.
  - apply run3_runs.
  - by vm_compute.
  - by vm_compute.
  - by vm_compute.
  - rewrite run3_vehicles. apply vehicles_dashless.
  - rewrite run3_vehicles. apply v1_calls.
  - apply (TransitRuns.received_punctual 20 (stage_output 1 positions1)).
  - apply (TransitRuns.received_prompt 30 (stage_output 2 snapshots1) (of_vehicle "v1")).
  - by vm_compute.
  - unfold database_inputs. rewrite taken_messages. apply interleaved_concat.
  - by vm_compute.
  - apply surjective_pairing.
  - by exists d, f, st.
Defined.
