(* ===== verification/OutletRuns.v ===== *)
(** * What the sinks of a run hold

    The run of all-in-one.yaml of [ShippedRuns]: its database, the bucket with its
    dwell times, and a browser that has subscribed to them. *)
From stdpp Require Import relations.
From S2P Require Import Prelude Interleave GoTime ParseDuration Gtfs Events EventMap StateStore Proc Config.
From S2P Require Import Batching DbSink ParquetSink EventServer SSESink Endpoints Graph Typing Network Wiring.
From S2P Require Import Transit Deploy Shipped Outlets Persist Archive Live LineRun DefaultRun ShippedRuns.

Import Graph GraphSpec InMemory.
#[local] Existing Instances InMemory.in_memory InMemory.in_memory_ok.
#[local] Existing Instances up aws wire wire_ok amd64 amd64_ok plain_streams plain_streams_ok.

Definition recorded : Graph.t := graph_of all_in_one.
Lemma recorded_built : NewGraph (yaml all_in_one) = Built recorded.
Proof. apply graph_of_built, single_shipped, all_in_one_single. Qed.

(** The outputs of the pipelines reach a sink one after the other. *)
Definition channel_of (k : Sink) : list any :=
  concat ((λ e, given run3 e.1 e.2) <$>
    filter (λ e, sink_at recorded e = Some k) (ends (λ p, length (sinks p)) recorded)).

Lemma channel_taken k : sink_takes recorded run3 k (channel_of k).
Proof. apply interleaved_concat. Qed.

(** The dwell times. *)
Definition dwell_outputs : list Message := omap as_Event (sends (stage_processor 4) (arrivals run3 4)).

Lemma dwell_measured : produces (stage_processor 4) ∈ measured.
Proof. by apply (bool_decide_unpack _). Qed.

Lemma database_mirrors_witness :
  written dwell_table (concat (DatabaseSink.flush ∘ rows <$> (DatabaseSink.doSink database database_inputs).2)) =
    concat (t_row dwell_table <$> dwell_outputs) ∧ length dwell_outputs = 2%nat.
Proof.
  split; [|by vm_compute].
  apply (database_mirrors all_in_one recorded run3 4 (stage_processor 4) dwell_table database database_inputs
    (DatabaseSink.doSink database database_inputs).1 (DatabaseSink.doSink database database_inputs).2).
  - apply list_elem_of_here.
  - apply recorded_built.
  - apply run3_runs.
  - by vm_compute.
  - apply list_elem_of_further, list_elem_of_here.
  - done.
  - by vm_compute.
  - unfold database_inputs. rewrite taken_messages. apply (channel_taken (sink_Database database)).
  - by vm_compute.
  - apply surjective_pairing.
Defined.

(** ** The bucket *)

(** The Parquet sink of the dwell times, which has taken them all and flushed once. *)
Definition dwell_archive : ParquetSink.t :=
  match ParquetSink.NewParquetSink (parquet_of K_DwellTimeEvent).2 with
  | inl s => s
  | inr _ => ParquetSpec.sample_sink
  end.
Definition archive_inputs : list input := (msg_in <$> channel_of (sink_Parquet dwell_archive)) ++ [tick].

Definition dwell_rows : list ParquetSink.EventRow.t := ParquetSink.toEventRow <$> dwell_outputs.
#[local] Instance dwell_format : ParquetSink.ParquetLib := ParquetSpec.format_of dwell_rows.
#[local] Instance dwell_format_ok : ParquetSink.ParquetLibOk := ParquetSpec.format_of_ok dwell_rows.

Definition uploads : list (Time * Batching.flush ParquetSink.EventRow.t * option error) :=
  [(ParquetSpec.sample_time, Flush dwell_rows true, None)].

Lemma ticked_messages xs : Batching.taken Some ((msg_in <$> xs) ++ [tick]) = xs.
Proof. induction xs as [|x xs IH]; [done|]. cbn. by f_equal. Qed.

#[local] Existing Instance ParquetSpec.timed_dec.
Lemma dwell_outputs_timed : Forall ParquetSpec.timed dwell_outputs.
Proof.
  apply (bool_decide_unpack _). by vm_compute.
Qed.

Lemma bucket_mirrors_witness : ∃ files,
  read_back (ParquetSink.puts ∅ dwell_archive uploads) dwell_archive uploads = Some files ∧
  concat files ++ [] = ParquetSink.toEventRow <$> dwell_outputs ∧
  Forall (λ m, ParquetSpec.event_of_row (ParquetSink.toEventRow m) = Some m) dwell_outputs ∧
  length dwell_outputs = 2%nat.
Proof.
  destruct (bucket_mirrors all_in_one recorded run3 4 (stage_processor 4) dwell_archive archive_inputs []
    uploads ∅) as (_ & _ & Hfiles & Hevents & _).
  - apply list_elem_of_here.
  - apply recorded_built.
  - apply run3_runs.
  - by vm_compute.
  - apply dwell_measured.
  - by vm_compute.
  - unfold archive_inputs. rewrite ticked_messages. apply channel_taken.
  - by vm_compute.
  - each (by vm_compute).
  - apply NoDup_singleton.
  - destruct Hfiles as (files & Hs & He); [each (split; [done|by eexists [Byte.x00]; vm_compute])|].
    exists files. split_and!; [exact Hs|exact He| |by vm_compute].
    pose proof dwell_outputs_timed as Ht. rewrite Forall_forall in Hevents, Ht.
    apply Forall_forall. intros m Hm. by apply Hevents, Ht.
Defined.

(** ** A browser *)

Import EventServer ServerSpec.

(** It has subscribed to the dwell times before anything was broadcast, and has not
    read anything yet when the sink has taken everything. *)
Definition dwells_only : Query := {["event_type" := ("DwellTimeEvent", [])]}.
Definition sse : SSESinkConfig.t := SSESinkConfig.mk "8080" "/events".

Definition broadcasts : list Message := omap as_Event (channel_of (sink_SSE sse)).

(** The goroutine of the sink has received everything. *)
Lemma all_received xs bs :
  rtc SSESink.step (SSESink.St xs false false false false bs false)
    (SSESink.St [] false false false false (bs ++ omap as_Event xs) false).
Proof.
  revert bs. induction xs as [|x xs IH]; intros bs; [by rewrite app_nil_r|].
  eapply rtc_l; [apply SSESink.s_receive|]. rewrite omap_cons_eq.
  destruct (as_Event x) as [e|]; [|apply IH].
  specialize (IH (bs ++ [e])). by rewrite <- (assoc_L (++)) in IH.
Qed.

Definition subscribed : list action := Request "a" dwells_only true :: (Publish 0 <$> broadcasts).
Definition served_world : world :=
  match run start subscribed with Next w => w | _ => start end.
Definition browser_queue : list event_map := GetEventMap <$> dwell_outputs.

Lemma subscribed_runs : run start subscribed = Next served_world.
Proof. unfold served_world. by destruct (run start subscribed) eqn:Hr; vm_compute in Hr. Qed.

Lemma browser_view :
  view "a" served_world = Present true (subscription_of dwells_only) browser_queue [].
Proof. by vm_compute. Qed.

Lemma published_all (l : list Message) : published (Publish 0 <$> l) = GetEventMap <$> l.
Proof. induction l as [|m l IH]; [done|]. cbn. by f_equal. Qed.

Lemma browser_sees_measures_witness :
  sendable browser_queue = filter (λ m, wants (subscription_of dwells_only) m ∧ Marshal_ok m)
    (GetEventMap <$> dwell_outputs) ∧ length browser_queue = 2%nat.
Proof.
  split; [|by vm_compute].
  destruct (browser_sees_measures all_in_one recorded run3 4 (stage_processor 4) "8080"
    (channel_of (sink_SSE sse)) false (SSESink.St [] false false false false broadcasts false)
    [] "a" dwells_only true (Publish 0 <$> broadcasts) served_world true
    (subscription_of dwells_only) browser_queue []) as [_ Hall].
  - apply single_shipped, all_in_one_single.
  - apply recorded_built.
  - apply run3_runs.
  - by vm_compute.
  - done.
  - apply list_elem_of_further, list_elem_of_here.
  - apply channel_taken.
  - apply (all_received _ []).
  - done.
  - apply subscribed_runs.
  - done.
  - exact (published_all broadcasts).
  - apply keeps_up_few. rewrite published_all. by vm_compute.
  - apply browser_view.
  - by apply Hall.
Defined.
