(* ===== verification/Program.v ===== *)
(** * The program ([main.go], [config.ReadConfig], [Graph.Close])

    What [main] does from start to end as the sequence of its effects, given the
    environment of the process.  The operating system, the YAML decoder and the
    log exporter are parameters. *)
From S2P Require Import Prelude GoTime Proc Config DbSink ParquetSink Endpoints.
From S2P Require Import Graph Network Wiring Shipped.

Import Graph GraphSpec.

(** What the program asks of its surroundings: [os.Args], [os.Getenv],
    [os.ReadFile], [yaml.Unmarshal] into a [ConfigYaml] (whose one field is a
    pointer), and [otlploghttp.New]. *)
Class Environment := {
  Args : list string;
  Getenv : string → string;
  ReadFile : string → list Byte.byte + error;
  Unmarshal_yaml : list Byte.byte → ptr GraphConfig.t + error;
  new_exporter : string → option error;
}.

(** The errors of [ReadConfig]; the last is [fmt.Errorf("config validation: %w", err)]. *)
Inductive config_error :=
| read_failed (e : error)
| decode_failed (e : error)
| config_validation (e : validation_error).

(** The effects of [main] that can be told apart, in order. *)
Inductive effect :=
| log_Info (msg : string)
| log_Error (msg : string)
| run_graph (g : Graph.t)          (* go graph.Run() *)
| cancel                           (* of the context of all goroutines *)
| close_store (s : Store)          (* ss.Close() *)
| shutdown_logs.                   (* lp.Shutdown(context.Background()) *)

Inductive ending :=
| returns
| exits (code : Z)                 (* os.Exit: deferred calls do not run *)
| panics
| waits.                           (* for a signal *)

Section program.
Context `{!Environment, !SqlDB, !AWS, !MapOrder}.

(** [ReadConfig]; a [Config] has one field, the graph. *)
Definition ReadConfig (path : string) : ptr GraphConfig.t + config_error :=
  match ReadFile path with
  | inr err => inr (read_failed err)
  | inl yamlFile =>
  match Unmarshal_yaml yamlFile with
  | inr err => inr (decode_failed err)
  | inl graph =>
  match graph with
  | Some g =>
      match Validate g with
      | Some err => inr (config_validation err)
      | None => inl graph
      end
  | None => inl graph
  end end end.

(** [Graph.Close] *)
Definition Close (g : Graph.t) : list effect := close_store <$> stateStores g.

Definition defaultConfigPath := "./config/configs/default.yaml".

(** Environment, then argument, then default. *)
Definition configPath : string :=
  let configPath := defaultConfigPath in
  let configPath := match Args with _ :: arg :: _ => arg | _ => configPath end in
  let envPath := Getenv "CONFIG_PATH" in
  if decide (envPath ≠ "") then envPath else configPath.

(** The calls deferred so far: the last deferred one runs first. *)
Definition deferred (exporting : bool) : list effect :=
  (if exporting then [shutdown_logs] else []) ++ [cancel].

(** [main], where [signalled] says whether a signal arrives. *)
Definition main (signalled : bool) : list effect * ending :=
  let logURL := Getenv "OTEL_EXPORTER_OTLP_ENDPOINT" in
  let exporting := bool_decide (logURL ≠ "") in
  match (if exporting then new_exporter logURL else None) with
  | Some err => ([log_Error "failed to initialize exporter"], exits 1)
  | None =>
  let started := [log_Info "Starting TPM-GO"] in
  match ReadConfig configPath with
  | inr err => (started ++ [log_Error "failed to read config"], exits 1)
  | inl None => (started ++ [log_Error "graph config is nil"], exits 1)
  | inl (Some graphConfig) =>
  match NewGraph graphConfig with
  | Failed err => (started ++ [log_Error "failed to create graph"], exits 1)
  | Panicked => (started ++ deferred exporting, panics)
  | Built graph =>
  let running := started ++ [run_graph graph] in
  if signalled then
    (running ++ [log_Info "Shutting down..."; cancel] ++ Close graph
       ++ [log_Info "Shutdown complete"] ++ deferred exporting, returns)
  else (running, waits)
  end end end.

(** ** What it does *)

Context `{!MapOrderOk}.

(** The stores of the graph are the declared ones. *)
Lemma graph_stores g gr :
  NewGraph g = Built gr →
  stateStores gr ≡ₚ (λ kv : ID * _, Shared kv.1 (NewStateStore kv.2))
    <$> map_to_list (entries (GraphConfig.StateStores g)).
Proof.
  unfold NewGraph. destruct (add_connectors _ _ _) as [[srcs snks]|]; [|done].
  destruct (build_all _ _); [|done]. destruct (build_all _ _); [|done].
  destruct (collect_all _ _); [|done]. intros [= <-]. cbn. by rewrite iterate_perm.
Qed.

Lemma graph_stores_NoDup g gr : NewGraph g = Built gr → NoDup (stateStores gr).
Proof.
  intros Hgr. rewrite (graph_stores g gr Hgr). apply NoDup_fmap_2_strong; [|apply NoDup_map_to_list].
  intros [k x] [k' x'] Hx%elem_of_map_to_list Hx'%elem_of_map_to_list. cbn. intros [= -> _].
  congruence.
Qed.

(** The file the program reads holds the configuration [g]. *)
Definition configured (g : GraphConfig.t) : Prop :=
  ∃ b, ReadFile configPath = inl b ∧ Unmarshal_yaml b = inl (Some g).

(** Logs go where they are told to, or nowhere. *)
Definition logs_work : Prop :=
  Getenv "OTEL_EXPORTER_OTLP_ENDPOINT" = "" ∨
  new_exporter (Getenv "OTEL_EXPORTER_OTLP_ENDPOINT") = None.

Lemma main_reads signalled g :
  logs_work → configured g → Validate g = None →
  main signalled =
    let exporting := bool_decide (Getenv "OTEL_EXPORTER_OTLP_ENDPOINT" ≠ "") in
    let started := [log_Info "Starting TPM-GO"] in
    match NewGraph g with
    | Failed err => (started ++ [log_Error "failed to create graph"], exits 1)
    | Panicked => (started ++ deferred exporting, panics)
    | Built graph =>
        let running := started ++ [run_graph graph] in
        if signalled then
          (running ++ [log_Info "Shutting down..."; cancel] ++ Close graph
             ++ [log_Info "Shutdown complete"] ++ deferred exporting, returns)
        else (running, waits)
    end.
Proof.
  intros Hlog (b & Hb & Hg) Hv. unfold main, ReadConfig. rewrite Hb, Hg, Hv.
  assert ((if bool_decide (Getenv "OTEL_EXPORTER_OTLP_ENDPOINT" ≠ "")
    then new_exporter (Getenv "OTEL_EXPORTER_OTLP_ENDPOINT") else None) = None) as ->; [|done].
  case_bool_decide; [|done]. by destruct Hlog.
Qed.

(** C31: The life of the program.  With a configuration that can be built it runs
    the graph of that configuration, one pipeline per entry, and nothing else
    until a signal arrives; then it cancels the context before it closes anything,
    closes every declared state store exactly once, and returns. *)
Theorem program_serves g :
  logs_work → configured g → sound g →
  ∃ gr ps tail,
    NewGraph g = Built gr ∧ layout g gr ps ∧
    main false = ([log_Info "Starting TPM-GO"; run_graph gr], waits) ∧
    main true = ([log_Info "Starting TPM-GO"; run_graph gr; log_Info "Shutting down..."; cancel]
      ++ (close_store <$> stateStores gr) ++ log_Info "Shutdown complete" :: tail, returns) ∧
    NoDup (stateStores gr) ∧
    (∀ s, s ∈ stateStores gr ↔ ∃ id c, lookup_map (GraphConfig.StateStores g) id = Some c ∧
       s = Shared id (NewStateStore c)) ∧
    Forall (λ e, e = shutdown_logs ∨ e = cancel) tail.
Proof.
  intros Hlog Hg Hs. pose proof (so_valid _ Hs) as Hv.
  destruct (valid_builds g) as (gr & Hgr & ps & He & Hb); [apply Hs..|].
  exists gr, ps, (deferred (bool_decide (Getenv "OTEL_EXPORTER_OTLP_ENDPOINT" ≠ ""))).
  rewrite !(main_reads _ g), Hgr by done. split_and!; [done|done|done|done| | |].
  - by eapply graph_stores_NoDup.
  - intros s. rewrite (graph_stores g gr Hgr). rewrite list_elem_of_fmap. split.
    + intros ([id c] & -> & Hin%elem_of_map_to_list). rewrite lookup_entries in Hin. by exists id, c.
    + intros (id & c & Hc & ->). exists (id, c). split; [done|].
      apply elem_of_map_to_list. by rewrite lookup_entries.
  - unfold deferred. case_match; repeat (constructor; [auto|]); constructor.
Qed.

(** C33: The program exits with an error code exactly when the log exporter cannot
    be made, the configuration cannot be read, decoded or validated or has no
    graph, or the graph cannot be built; then it has called nothing but the logger,
    [Graph.Run] in particular not, and it has not shut down the log provider either:
    [os.Exit] skips what was deferred.  (The goroutines that sources and sinks start
    when they are made, before the building fails, are not effects of [main].) *)
Theorem program_refuses signalled :
  ((main signalled).2 = exits 1 ↔
     ¬ logs_work ∨ (∃ e, ReadConfig configPath = inr e) ∨ ReadConfig configPath = inl None ∨
     ∃ g e, ReadConfig configPath = inl (Some g) ∧ NewGraph g = Failed e) ∧
  ((main signalled).2 = exits 1 →
     Forall (λ e, ∃ msg, e = log_Info msg ∨ e = log_Error msg) (main signalled).1).
Proof.
  unfold main, logs_work. set (url := Getenv "OTEL_EXPORTER_OTLP_ENDPOINT").
  destruct (if bool_decide (url ≠ "") then new_exporter url else None) as [err|] eqn:Hexp.
  - split; [|intros _; repeat constructor; eauto]. split; [|done]. intros _. left.
    case_bool_decide; [|done]. intros [?|?]; congruence.
  - assert (url = "" ∨ new_exporter url = None) as Hlog
      by (case_bool_decide as Hu; [by right|by left]).
    destruct (ReadConfig configPath) as [[g|]|e] eqn:Hread.
    + assert (¬ (¬ (url = "" ∨ new_exporter url = None) ∨ (∃ e, inl (Some g) = inr e :> _ + config_error)
        ∨ inl (Some g) = inl None :> _ + config_error ∨
        ∃ g' e, inl (Some g) = inl (Some g') :> _ + config_error ∧ NewGraph g' = Failed e)
        ∨ ∃ e, NewGraph g = Failed e) as Hcase.
      { destruct (NewGraph g) as [gr|e|] eqn:Hgr; [left|right; by eexists|left];
          (intros [?|[[? ?]|[?|(g' & e' & [= <-] & ?)]]]; congruence || tauto). }
      destruct (NewGraph g) as [gr|e|] eqn:Hgr; [destruct signalled| |]; cbn;
        try (split; [|done]; destruct Hcase as [Hcase|[? ?]]; [split; [done|tauto]|done]).
      split; [|intros _; repeat constructor; eauto]. split; [intros _|done].
      do 3 right. by exists g, e.
    + cbn. split; [|intros _; repeat constructor; eauto]. split; [|done]. tauto.
    + cbn. split; [|intros _; repeat constructor; eauto]. split; [|done]. intros _. right. left. by exists e.
Qed.
End program.

(** *** A process *)

Section witnesses.
Local Instance up : SqlDB := {| sql_Open _ _ := None; PingContext _ _ := None |}.
Local Instance aws : AWS := {| LoadDefaultConfig _ _ := None |}.

(** The default configuration with a declared store for the stop events. *)
Definition with_store : GraphConfig.t := GraphConfig.mk
  (GraphConfig.Sources default_yaml)
  (Some {["se-state-store" := StateStoreConfig.mk "" "in_memory" Hour "" "" 0 Hour]})
  (GraphConfig.Connectors default_yaml) (GraphConfig.Sinks default_yaml)
  (GraphConfig.Pipelines default_yaml).

(** Started with one argument, the name of a file that decodes to it; every other
    file is missing. *)
Local Instance sample_process : Environment := {|
  Args := ["tpm-go"; "my.yaml"];
  Getenv _ := "";
  ReadFile f := if decide (f = "my.yaml") then inl [] else inr "no such file";
  Unmarshal_yaml _ := inl (Some with_store);
  new_exporter _ := None;
|}.

Lemma with_store_sound : sound with_store.
Proof.
  split; [by vm_compute|..].
  - right. split; by eexists.
  - exact (so_sources _ default_sound).
  - exact (so_sinks _ default_sound).
Qed.

Lemma program_serves_witness : ∃ gr,
  NewGraph with_store = Built gr ∧
  main false = ([log_Info "Starting TPM-GO"; run_graph gr], waits) ∧
  Shared "se-state-store" (backend_InMemory Hour) ∈ stateStores gr.
Proof.
  destruct (program_serves with_store) as (gr & ps & tail & Hgr & _ & Hmain & _ & _ & Hst & _).
  - by left.
  - by exists [].
  - apply with_store_sound.
  - exists gr. split_and!; [exact Hgr|exact Hmain|]. apply Hst.
    exists "se-state-store", (StateStoreConfig.mk "" "in_memory" Hour "" "" 0 Hour).
    split; [|done]. apply lookup_singleton_eq.
Defined.

(** Without the argument the file is not there. *)
Lemma program_refuses_witness :
  let env := {| Args := ["tpm-go"]; Getenv := Getenv; ReadFile := ReadFile;
                Unmarshal_yaml := Unmarshal_yaml; new_exporter := new_exporter |} in
  (main (H := env) true).2 = exits 1 ∧
  Forall (λ e, ∃ msg, e = log_Info msg ∨ e = log_Error msg) (main (H := env) true).1.
Proof.
  intros env. destruct (program_refuses (H := env) true) as [Hiff Hlog].
  assert ((main (H := env) true).2 = exits 1) as Hx.
  { apply Hiff. right. left. exists (read_failed "no such file"). by vm_compute. }
  split; [exact Hx|exact (Hlog Hx)].
Defined.
End witnesses.
